(* ===== verification/_CoqProject ===== *)
-Q . S2P
Prelude.v
Text.v
Path.v
Effects.v
I18n.v
Models.v
Win32.v
Registry.v
Security.v
SecureFs.v
Storage.v
Journal.v
Rotation.v
Snapshot.v
SnapshotSpec.v
Repair.v
RepairSpec.v
Scanner.v
Migration.v
MigrationSpec.v
VerifiedCopy.v
PlanPaths.v
Legacy.v
LegacySpec.v
Namespace.v
NamespaceSpec.v
NamespaceStart.v
Tokens.v
TokensSpec.v
Window.v
Shared.v
Launch.v
Controller.v
System.v
Threads.v
Drafts.v
Schedules.v
SystemSpec.v
Startup.v
Closing.v
Idle.v
Locks.v
Locales.v
Shell.v
Main.v
