(* ===== verification/Prelude.v ===== *)
(** * WinProfile: a verification development

    WinProfile repairs and migrates Windows user profiles.  It runs elevated,
    rewrites the keys of [ProfileList], copies the folders of a profile, and
    keeps its evidence (a journal and hive snapshots) in a directory only
    SYSTEM and the Administrators can write.  What makes it correct is what it
    does when a call fails halfway, so the development models the calls and
    every branch after them.

    ** The program and its model

    The files of this library follow the crates of src/crates; a file requires
    the files of the components it calls.

    - Prelude: results, machine integers, lists.  Text: Rust strings as lists of
      scalar values, wide strings as lists of 16-bit units, UTF-16 and UTF-8,
      and the methods of [str] and [char] the program calls.  Path: prefixes,
      components, joins and parents of [std::path] on Windows.
    - Effects: a function that calls the system is a tree of calls ([prog]); [M
      S E A] adds in-process state and errors.  [call], [attempt] (a [Result]
      kept as a value), [defer] and [on_error] (drop glue on every exit, or on
      errors only), [panic] and [out_of_fuel] are its constructors.
      Win32: the calls, as an inductive type with the type of each answer.
    - platform-win32: Registry (registry.rs), Security (security.rs, handles.rs,
      restart_manager.rs, locale.rs), SecureFs (secure_fs.rs), Tokens
      (tokens.rs).
    - audit-journal: Storage (storage.rs), Journal (journal.rs), Snapshot
      (snapshot.rs, rollback.rs), Legacy (legacy.rs).
    - core-profiles: I18n (i18n.rs), Models (models.rs, constants.rs), Scanner
      (scanner.rs), Repair (repair.rs), Migration (migration.rs).
    - app-ui: Window (state.rs, locale.rs, the properties of the window), Shared
      and Controller (controller.rs), Launch (the launch of the audited console
      in controller.rs), System (the callbacks of main.rs and the interleavings),
      Startup (startup.rs and the startup of main.rs), Main (the rest of
      main.rs).
    - Shell: folder_dialog.rs and webbrowser-shim, over a signature of the
      shell's own.
    - Specifications and proofs only: SnapshotSpec, RepairSpec, Rotation,
      MigrationSpec, VerifiedCopy, PlanPaths, LegacySpec, Namespace,
      NamespaceSpec, NamespaceStart, TokensSpec, Threads, Drafts, Schedules,
      SystemSpec, Closing, Idle, Locks, Locales.

    A definition has the name of the function it models; a method whose name is
    also used elsewhere carries its type ([StorageHandle_new]) or a short prefix
    ([st_open_file], [root_open_file], [fs_validate_component]).  A large
    function is cut where its source has a loop, a closure or a phase
    ([lock_loop], [copy_contents], [failed_repair]).  A Rust value that owns a
    handle is a record with the handle; the function that drops it closes it
    where the source does.

    The engines meet in three places: they log through [Journal.log] (repair,
    migration, snapshots), they write below the root that [Storage] opened, and
    a repair takes its snapshots with [Snapshot.create_registry_snapshot] and
    undoes a failure with [Snapshot.restore_registry_snapshot].  Interfaces are
    classes: [Repair.HiveLockInspector], the traits of Tokens and the audit and
    process of Launch are traits of the source, [Rotation.FileStore] is what the
    journal relies on in a storage root, [Threads.Shows] what a property of the
    window's state must ignore.  The codes that are not in the repository are
    parameters ([Extern]: system messages, Unicode tables, dates;
    [JournalCodec], [SnapshotCodec], [StateCodec]: serde_json; [Sha2]: the crate
    sha2; [Presentation]: the bundles once loaded and chrono's format;
    [WindowsErrors]: the messages of the crate windows).

    ** The application

    The event loop and the workers share an atomic byte, a flag, a mutex on the
    cancellation token, a queue of progress and the state of the engines.  A
    thread is a tree of [Shared.shared] calls, one per access; a call of the
    system is one of them ([Win]).  [System.step] lets any thread make its next
    call, lets the window deliver an event it has enabled, and lets the loop
    take a queued closure; a worker that starts and a closure that is queued
    appear in the state.  What holds of [System.reachable] holds in every
    interleaving.  Each thread is verified alone against a monitor of its calls
    (Threads, Drafts), and the invariants compose them (SystemSpec, Closing,
    Idle, Locks).
    Schedules computes executions, so that the theorems are applied to states
    the model really reaches.  Before the controller is bound, [Startup] is a
    state machine of its own, and Main hands its last state over.

    ** How properties are stated

    - [mcalls P m]: whatever the system answers, [m] makes only calls in [P].
    - [wpM protocol m Q s g]: from in-process state [s] and ghost state [g], the
      calls of [m] are permitted, and for all answers the protocol allows its
      result satisfies [Q].  An [observer] assumes nothing of the answers and
      records what it sees; a [monitor] also forbids calls; other protocols
      state the documented behaviour of the system ([registry_laws],
      [handle_laws], [token_laws], [clock_laws], [descriptor_laws], [tree_laws],
      [read_laws], [truthful], [namespace], [watch_service], [launching]) or what
      a thread may do to the shared memory ([ui_protocol], [worker_protocol],
      [closing_protocol], [handing], [locking]).  A protocol that does not allow halting
      ([may_halt] false) also gives termination without panic.
    - [wp_exec], [wp_permitted] and [wp_run] in Effects are the adequacy of [wpM]
      for traces and for concrete worlds.

    ** What is shown

    - Repair (Repair, RepairSpec): no change of the registry before the key is
      saved, its hive identified and hashed, its metadata written and synced and
      the start journalled; a dry run changes
      nothing; the steps refine a renaming of keys in a finite map; undoing
      restores it or reports an error; every restoration is attempted; a valid
      SID cannot escape [ProfileList].
    - Migration (MigrationSpec, VerifiedCopy, PlanPaths): a receipt certifies
      that each file was copied, synced, read back with its digest and measured;
      a copy of an open file on a truthful disk ends and is exact; a failed
      migration removes what it created, last first; cancellation is prompt;
      nothing existing is overwritten; exactly the canonical drive paths are
      accepted; the overlap of paths is by whole names.
    - Recovery of older storage (LegacySpec, NamespaceSpec, NamespaceStart): the
      transition that is resumed is exactly the unfinished one of a consistent
      inventory; a detachment stopped at any call has not begun or can be
      resumed; resuming it ends with the protected directory in place and the
      old object set aside, or because a call failed.
    - The elevated console (TokensSpec, Launch): command lines are split back into
      the arguments they were built from; waiting for the service ends; no handle
      of a launch is lost or closed twice; a console is handed over only after
      its success is recorded, or is terminated.
    - The application (Startup, Main, SystemSpec, Closing, Idle, Locks, Locales): a
      foreign object is moved only with consent; the startup hands over an
      application at rest; at most one operation runs; a deferred close signals the token; a
      migration is started only for the plan that was validated, once; when the
      window is hidden no worker has a call of the system left to make; its
      controls are dark exactly while a result is expected; the mutexes shared
      between its threads never deadlock; a change of language draws everything
      again.  Schedules exhibits the execution in which a close request recorded
      after the migration it was meant for has ended is left behind, and cancels
      the next one.
    - Shell: the picker restricts its dialog before it shows it and gives back
      whatever it takes.
    - Journal (Journal, Rotation): a logged entry is durable before it is shown;
      rotation loses only the oldest archive; reading in chunks is reading by
      lines and keeps the newest entries.
    - Snapshot (SnapshotSpec): metadata is returned for a hive that was saved,
      opened by its name, identified and hashed by its handle, and whose JSON was
      written whole to a new file and synced; a restoration changes the registry
      only with the authenticated hive, through a handle of the expected key.
    - Storage: the accepted descriptors are the canonical ones; waiting for a lock
      ends; a child path stays in its directory.
    - SecureFs: no handle leaks or is closed twice while a path is opened; the
      parser of directory buffers reads inside them; overlap is by identity.
    - Security, Registry: a privilege guard restores what it changed and closes its
      token; the MULTI_SZ and wide-string decoders invert their encodings.
    - Scanner: a report is consistent with the registry names and masks read; sizes
      are exact on a tree of finite height; collisions are marked exactly.
    - I18n: a built manager translates every key; French is chosen exactly when
      the first supported tag says so.

    ** Bounds

    A loop without a structural measure runs on [Fuel]; running out is a halt,
    not a result.  The theorems that assume no fuel hold for every amount.
    Where termination is the point the amount is computed:
    [acquire_named_lock_returns] (turns until the timeout), [directory_size_exact]
    (the height of the tree), [read_lines_newest] (the calls the bytes take),
    [copy_contents_exact] (one more than the bytes of the file).  Integers are
    [Z]; saturating and checked operations of the source are written out, and
    fields of a buffer are bounded by their bytes.

    ** Not modelled

    - The crate roots (re-exports), build.rs, the layout and drawing of the
      window, and the tests with the code only they use.  The properties and
      conditions of main-window.slint that decide which control is enabled are
      modelled; its about and details dialogs only as flags.
    - A Slint property is a cell that reads what was last written: two-way
      bindings are read by the handlers as the value the event carries.  The
      progress bar, a float, is 0 or 1.  What is printed to the standard error
      is left out.
    - The memory of the process: pointers into buffers are handles, and a value
      moved in Rust is a value.  A worker holds the state of the engines (the
      display buffer behind its mutex, the snapshot counter) for a whole call of
      an engine or of the logger, where the source locks it for each access;
      [Locks.buffer_never_contended] shows that no thread ever finds it taken.
      Inside an engine it is a state with the flag of a poisoned lock.
    - The refusal of the browser shim on other systems than Windows. *)

From stdpp Require Import base list list_numbers gmap strings.

(** ** Results

    Rust's [Result<A, E>].  Every fallible function of the program returns
    one; the error type comes first so that [result E] is a functor in the
    success value. *)

Inductive result (E A : Type) : Type :=
| Ok (a : A)
| Err (e : E).
Arguments Ok {E A} a.
Arguments Err {E A} e.

Declare Scope winprofile_scope.
Delimit Scope winprofile_scope with wp.

(** [Result::map], [Result::map_err], [Result::ok], [Result::err] and
    [Result::is_ok]. *)
Definition result_map {E A B} (f : A -> B) (r : result E A) : result E B :=
  match r with Ok a => Ok (f a) | Err e => Err e end.
Definition result_map_err {E E' A} (f : E -> E') (r : result E A) : result E' A :=
  match r with Ok a => Ok a | Err e => Err (f e) end.
Definition result_bind {E A B} (r : result E A) (f : A -> result E B) : result E B :=
  match r with Ok a => f a | Err e => Err e end.
Definition result_err {E A} (r : result E A) : option E :=
  match r with Ok _ => None | Err e => Some e end.
Definition result_ok {E A} (r : result E A) : option A :=
  match r with Ok a => Some a | Err _ => None end.
Definition is_ok {E A} (r : result E A) : bool :=
  match r with Ok _ => true | Err _ => false end.

(** The [?] operator of a pure fallible function. *)
Notation "'let?' x := m 'in' k" := (result_bind m (fun x => k))
  (at level 10, x binder, m at level 100, k at level 200) : winprofile_scope.
Open Scope winprofile_scope.

#[export] Instance result_eq_dec {E A} `{EqDecision E} `{EqDecision A} :
  EqDecision (result E A).
Proof. solve_decision. Defined.

(** ** Machine integers

    Unsigned [w]-bit integers are [Z]; the saturating and wrapping operations
    of the source are written out. *)
Definition u8_max : Z := 255.
Definition u16_max : Z := 65535.
Definition u32_max : Z := 4294967295.
Definition u64_max : Z := 18446744073709551615.

Definition saturating_add_u64 (a b : Z) : Z := Z.min u64_max (a + b).

Lemma saturating_add_u64_bound (a b : Z) :
  (0 <= a -> 0 <= b -> 0 <= saturating_add_u64 a b <= u64_max)%Z.
Proof. unfold saturating_add_u64, u64_max. lia. Qed.

Lemma saturating_add_u64_exact (a b : Z) :
  (a + b <= u64_max -> saturating_add_u64 a b = a + b)%Z.
Proof. unfold saturating_add_u64. lia. Qed.

(** ** Lists *)

(** [iter().position(p)]. *)
Fixpoint position {A} (p : A -> bool) (l : list A) : option nat :=
  match l with
  | [] => None
  | x :: l' => if p x then Some 0 else S <$> position p l'
  end.

(** [slice::split(p)]: the maximal runs between the separators; a list
    without separator gives one run, and the empty list one empty run. *)
Fixpoint split_on {A} (p : A -> bool) (l : list A) : list (list A) :=
  match l with
  | [] => [[]]
  | x :: l' =>
      if p x then [] :: split_on p l'
      else match split_on p l' with
           | [] => [[x]]
           | run :: runs => (x :: run) :: runs
           end
  end.

(** [join(sep)]. *)
Fixpoint join {A} (sep : list A) (l : list (list A)) : list A :=
  match l with
  | [] => []
  | [x] => x
  | x :: l' => x ++ sep ++ join sep l'
  end.

Lemma split_on_nonempty {A} (p : A -> bool) l : split_on p l <> [].
Proof. destruct l as [|x l]; simpl; [done|]. by destruct (p x), (split_on p l). Qed.

Lemma split_on_clean {A} (p : A -> bool) l :
  Forall (fun x => p x = false) l -> split_on p l = [l].
Proof. induction 1 as [|x l Hx _ IH]; simpl; [done|]. by rewrite Hx, IH. Qed.

Lemma split_on_app_sep {A} (p : A -> bool) l sep l' :
  Forall (fun x => p x = false) l -> p sep = true ->
  split_on p (l ++ sep :: l') = l :: split_on p l'.
Proof.
  intros Hl Hs. induction Hl as [|x l Hx _ IH]; simpl; [by rewrite Hs|].
  by rewrite Hx, IH.
Qed.

Lemma split_on_app {A} (p : A -> bool) l sep l' :
  p sep = true -> split_on p (l ++ sep :: l') = split_on p l ++ split_on p l'.
Proof.
  intros Hs. induction l as [|x l IH]; simpl; [by rewrite Hs|].
  rewrite IH. destruct (p x); [done|].
  pose proof (split_on_nonempty p l) as Hne. by destruct (split_on p l).
Qed.

(** Splitting what was joined with a separator gives the parts back. *)
Lemma split_on_join {A} (p : A -> bool) sep (ls : list (list A)) :
  p sep = true -> ls <> [] -> Forall (Forall (fun x => p x = false)) ls ->
  split_on p (join [sep] ls) = ls.
Proof.
  intros Hs Hne Hall. induction Hall as [|l ls Hl Hls IH]; [done|].
  destruct ls as [|l' ls]; simpl; [by apply split_on_clean|].
  rewrite split_on_app_sep by done. f_equal. apply IH. done.
Qed.

(** Every run of a split holds no separator, and joining the runs with the
    separator gives the list back when there is one separator value. *)
Lemma split_on_runs {A} (p : A -> bool) l :
  Forall (Forall (fun x => p x = false)) (split_on p l).
Proof.
  induction l as [|x l IH]; simpl; [by repeat constructor|].
  destruct (p x) eqn:Hx; [by constructor|].
  destruct (split_on p l) as [|run runs]; [by repeat constructor|].
  inversion IH; subst. by repeat constructor.
Qed.

Lemma join_cons {A} (sep x : list A) ls :
  ls <> [] -> join sep (x :: ls) = x ++ sep ++ join sep ls.
Proof. by destruct ls. Qed.

Lemma join_split_on {A} `{EqDecision A} (sep : A) l :
  join [sep] (split_on (fun x => bool_decide (x = sep)) l) = l.
Proof.
  induction l as [|x l IH]; [done|]. simpl.
  case_bool_decide as Hx.
  - subst. rewrite join_cons by apply split_on_nonempty. simpl. by rewrite IH.
  - destruct (split_on _ l) as [|run runs] eqn:E.
    { by destruct (split_on_nonempty (fun x => bool_decide (x = sep)) l). }
    rewrite <- IH. by destruct runs.
Qed.

Lemma position_None {A} (p : A -> bool) l :
  position p l = None <-> Forall (fun x => p x = false) l.
Proof.
  induction l as [|x l IH]; simpl; [by split|].
  destruct (p x) eqn:Hx; split; intros H.
  - done.
  - inversion H; congruence.
  - constructor; [done|]. apply IH. by destruct (position p l).
  - inversion H; subst. by rewrite (proj2 IH).
Qed.

Lemma position_app_hit {A} (p : A -> bool) l x l' :
  Forall (fun x => p x = false) l -> p x = true ->
  position p (l ++ x :: l') = Some (length l).
Proof.
  intros Hl Hx. induction Hl as [|y l Hy _ IH]; simpl; [by rewrite Hx|].
  by rewrite Hy, IH.
Qed.

(** ** Automation

    [solve_result] closes goals about a pure fallible function by unfolding
    the case analysis its guards induce. *)
Ltac destruct_guards :=
  repeat match goal with
         | H : context [match ?x with _ => _ end] |- _ => destruct x eqn:?; simplify_eq/=
         | |- context [match ?x with _ => _ end] => destruct x eqn:?; simplify_eq/=
         end.

Ltac solve_result := intros; destruct_guards; naive_solver.

Create HintDb winprofile.
#[export] Hint Resolve split_on_nonempty split_on_runs : winprofile.
