(* ===== verification/Text.v ===== *)
(** * Text: Rust strings and UTF-16 buffers

    A Rust [String] is the list of its Unicode scalar values, a Windows wide
    string (an [OsString], the buffers of the Win32 calls) the list of its
    16-bit code units.  The functions below are those of [str], [char] and
    [OsStr] the program calls. *)

From stdpp Require Import base list gmap strings.
From S2P Require Import Prelude.

(** A Rust string: its characters.  A wide string: its code units. *)
Abbreviation str := (list Z).
Abbreviation wide := (list Z).

(** The characters of an ASCII literal. *)
Fixpoint lit (s : string) : str :=
  match s with
  | EmptyString => []
  | String a s' => Z.of_N (Ascii.N_of_ascii a) :: lit s'
  end.
Notation "$ s" := (lit s%string) (at level 1, s at level 0, format "$ s") : winprofile_scope.

Definition ch (s : string) : Z := match lit s with c :: _ => c | [] => 0%Z end.

Definition BACKSLASH : Z := 92.
Definition FORWARD_SLASH : Z := 47.
Definition COLON : Z := 58.
Definition DOT : Z := 46.
Definition DASH : Z := 45.
Definition SPACE : Z := 32.
Definition QUOTE : Z := 34.
Definition TAB : Z := 9.

Definition str_eqb (a b : str) : bool := bool_decide (a = b).

Lemma str_eqb_spec a b : str_eqb a b = true <-> a = b.
Proof. apply bool_decide_eq_true. Qed.

(** ** Characters *)

Definition is_ascii_upper (c : Z) : bool := (65 <=? c)%Z && (c <=? 90)%Z.
Definition is_ascii_lower (c : Z) : bool := (97 <=? c)%Z && (c <=? 122)%Z.
Definition is_ascii_alphabetic (c : Z) : bool := is_ascii_upper c || is_ascii_lower c.
Definition is_ascii_digit (c : Z) : bool := (48 <=? c)%Z && (c <=? 57)%Z.
Definition is_ascii_alphanumeric (c : Z) : bool := is_ascii_alphabetic c || is_ascii_digit c.

Definition to_ascii_upper (c : Z) : Z := if is_ascii_lower c then (c - 32)%Z else c.
Definition to_ascii_lower (c : Z) : Z := if is_ascii_upper c then (c + 32)%Z else c.

Definition to_ascii_uppercase (s : str) : str := map to_ascii_upper s.
Definition to_ascii_lowercase (s : str) : str := map to_ascii_lower s.
Definition eq_ignore_ascii_case (a b : str) : bool :=
  str_eqb (to_ascii_lowercase a) (to_ascii_lowercase b).

(** [char::is_whitespace]: the Unicode [White_Space] property. *)
Definition is_whitespace (c : Z) : bool :=
  ((9 <=? c)%Z && (c <=? 13)%Z) || bool_decide (c ∈ [32; 133; 160; 5760; 8232; 8233; 8239; 8287; 12288]%Z)
  || ((8192 <=? c)%Z && (c <=? 8202)%Z).

(** ** Searching and trimming *)

Fixpoint starts_with (p s : str) : bool :=
  match p, s with
  | [], _ => true
  | c :: p', d :: s' => Z.eqb c d && starts_with p' s'
  | _ :: _, [] => false
  end.
Definition ends_with (p s : str) : bool := starts_with (rev p) (rev s).

Definition strip_prefix (p s : str) : option str :=
  if starts_with p s then Some (drop (length p) s) else None.
Definition strip_suffix (p s : str) : option str :=
  if ends_with p s then Some (take (length s - length p) s) else None.

Fixpoint trim_start_matches (p : Z -> bool) (s : str) : str :=
  match s with
  | c :: s' => if p c then trim_start_matches p s' else s
  | [] => []
  end.
Definition trim_end_matches (p : Z -> bool) (s : str) : str :=
  rev (trim_start_matches p (rev s)).
Definition trim_matches (p : Z -> bool) (s : str) : str :=
  trim_end_matches p (trim_start_matches p s).
Definition trim (s : str) : str := trim_matches is_whitespace s.

(** [char] sets and membership tests. *)
Definition one_of (cs : str) (c : Z) : bool := bool_decide (c ∈ cs).
Definition contains_char (s : str) (c : Z) : bool := existsb (Z.eqb c) s.
Definition is_empty {A} (s : list A) : bool := match s with [] => true | _ => false end.

(** [str::split(char)] and [str::rsplit_once(char)]. *)
Definition split_char (c : Z) (s : str) : list str := split_on (fun x => bool_decide (x = c)) s.
Fixpoint rsplit_once (c : Z) (s : str) : option (str * str) :=
  match s with
  | [] => None
  | x :: s' =>
      match rsplit_once c s' with
      | Some (a, b) => Some (x :: a, b)
      | None => if Z.eqb x c then Some ([], s') else None
      end
  end.

(** [str::replace] of one character by a string, and of a pattern. *)
Definition replace_char (p : Z -> bool) (by_ : str) (s : str) : str :=
  flat_map (fun c => if p c then by_ else [c]) s.
Fixpoint replace_fuel (fuel : nat) (pat by_ s : str) : str :=
  match fuel with
  | O => s
  | S fuel' =>
      match s with
      | [] => []
      | c :: s' =>
          if starts_with pat s
          then by_ ++ replace_fuel fuel' pat by_ (drop (length pat) s)
          else c :: replace_fuel fuel' pat by_ s'
      end
  end.
(** [str::replace] of a non-empty pattern: every step consumes a character,
    so the length of the text is enough fuel. *)
Definition replace (pat by_ s : str) : str := replace_fuel (length s) pat by_ s.

(** ** Numbers *)

Fixpoint digits_fuel (fuel : nat) (base n : Z) : str :=
  match fuel with
  | O => []
  | S fuel' =>
      let d := (n mod base)%Z in
      let c := if (d <? 10)%Z then (48 + d)%Z else (87 + d)%Z in
      (if (n <? base)%Z then [] else digits_fuel fuel' base (n / base)) ++ [c]
  end.
(** [{n}] of an unsigned integer: one digit per bit is enough fuel. *)
Definition dec (n : Z) : str := digits_fuel (S (Z.to_nat (Z.log2 n))) 10 n.
(** [{n}] of a signed integer. *)
Definition dec_signed (n : Z) : str := if (n <? 0)%Z then 45%Z :: dec (- n) else dec n.
Definition hex (n : Z) : str := digits_fuel (S (Z.to_nat (Z.log2 n))) 16 n.
Definition pad_left (w : nat) (s : str) : str := repeat 48%Z (w - length s) ++ s.
(** [{:02x}], [{:#010x}] of an [i32] (two's complement), [0x{:08X}] and
    [0x{:04X}]. *)
Definition hex2 (n : Z) : str := pad_left 2 (hex n).
Definition hex_i32 (n : Z) : str := $"0x" ++ pad_left 8 (hex (n mod (u32_max + 1))).
Definition hex8_upper (n : Z) : str := $"0x" ++ pad_left 8 (to_ascii_uppercase (hex n)).
Definition hex4_upper (n : Z) : str := $"0x" ++ pad_left 4 (to_ascii_uppercase (hex n)).

Example dec_0 : dec 0 = $"0". Proof. reflexivity. Qed.
Example dec_1234567890 : dec 1234567890 = $"1234567890". Proof. reflexivity. Qed.
Example hex_i32_status : hex_i32 (-1073741772) = $"0xc0000034". Proof. reflexivity. Qed.

(** The order of strings ([Ord for str]): lexicographic on the characters. *)
Fixpoint str_le (a b : str) : bool :=
  match a, b with
  | [], _ => true
  | _ :: _, [] => false
  | x :: a', y :: b' => (x <? y)%Z || ((x =? y)%Z && str_le a' b')
  end.

Lemma str_le_total a b : str_le a b = false -> str_le b a = true.
Proof.
  revert b. induction a as [|x a IH]; intros [|y b]; simpl; try done.
  rewrite orb_false_iff, orb_true_iff, !andb_true_iff, !andb_false_iff. intros [Hlt Hle].
  destruct (Z.eqb_spec y x) as [->|]; [right; split; [done|]|left; lia].
  apply IH. destruct Hle as [?|?]; [lia|done].
Qed.
Lemma str_le_antisym a b : str_le a b = true -> str_le b a = true -> a = b.
Proof.
  revert b. induction a as [|x a IH]; intros [|y b]; simpl; try done.
  rewrite !orb_true_iff, !andb_true_iff. intros [?|[? ?]] [?|[? ?]]; try lia. f_equal; [lia|by apply IH].
Qed.
Lemma str_le_trans a b c : str_le a b = true -> str_le b c = true -> str_le a c = true.
Proof.
  revert b c. induction a as [|x a IH]; intros [|y b] [|z c]; simpl; try done.
  rewrite !orb_true_iff, !andb_true_iff. intros [?|[? ?]] [?|[? ?]]; try (left; lia).
  right. split; [lia|by eapply IH].
Qed.

(** ** UTF-8 length and UTF-16 *)

(** [char::len_utf8], and [str::len], the number of UTF-8 bytes. *)
Definition len_utf8 (c : Z) : Z :=
  if (c <? 128)%Z then 1 else if (c <? 2048)%Z then 2 else if (c <? 65536)%Z then 3 else 4.
Definition str_len (s : str) : Z := foldr (fun c n => (len_utf8 c + n)%Z) 0%Z s.

(** A Unicode scalar value. *)
Definition scalar (c : Z) : Prop := (0 <= c < 55296 \/ 57344 <= c <= 1114111)%Z.
#[export] Instance scalar_dec c : Decision (scalar c).
Proof. unfold scalar. apply _. Defined.

(** [char::encode_utf16]. *)
Definition encode_char (c : Z) : wide :=
  if (c <? 65536)%Z then [c]
  else [55296 + (c - 65536) / 1024; 56320 + (c - 65536) mod 1024]%Z.
Definition encode_utf16 (s : str) : wide := flat_map encode_char s.

Definition is_high_surrogate (u : Z) : bool := (55296 <=? u)%Z && (u <? 56320)%Z.
Definition is_low_surrogate (u : Z) : bool := (56320 <=? u)%Z && (u <? 57344)%Z.
Definition is_surrogate (u : Z) : bool := (55296 <=? u)%Z && (u <? 57344)%Z.
Definition combine_surrogates (h l : Z) : Z := (65536 + (h - 55296) * 1024 + (l - 56320))%Z.

(** [char::decode_utf16]: [None] at an unpaired surrogate. *)
Fixpoint decode_units (w : wide) : list (option Z) :=
  match w with
  | [] => []
  | u :: w' =>
      if negb (is_surrogate u) then Some u :: decode_units w'
      else if is_high_surrogate u then
        match w' with
        | v :: w'' =>
            if is_low_surrogate v then Some (combine_surrogates u v) :: decode_units w''
            else None :: decode_units w'
        | [] => [None]
        end
      else None :: decode_units w'
  end.

Definition from_utf16 (w : wide) : option str := mapM id (decode_units w).
(** [to_string_lossy] and [from_utf16_lossy]: U+FFFD for each unpaired unit. *)
Definition from_utf16_lossy (w : wide) : str := map (default 65533%Z) (decode_units w).

(** ** Lemmas *)

Lemma encode_utf16_app a b : encode_utf16 (a ++ b) = encode_utf16 a ++ encode_utf16 b.
Proof. apply flat_map_app. Qed.

Lemma encode_char_scalar c w :
  scalar c -> decode_units (encode_char c ++ w) = Some c :: decode_units w.
Proof.
  unfold scalar, encode_char. intros Hc.
  destruct (Z.ltb_spec c 65536).
  - simpl. unfold is_surrogate.
    destruct (Z.leb_spec 55296 c), (Z.ltb_spec c 57344); simpl; done || lia.
  - assert (0 <= (c - 65536) / 1024 < 1024)%Z as Hq.
    { split; [apply Z.div_pos; lia|apply Z.div_lt_upper_bound; lia]. }
    assert (0 <= (c - 65536) mod 1024 < 1024)%Z as Hr by (apply Z.mod_pos_bound; lia).
    pose proof (Z.div_mod (c - 65536) 1024 ltac:(lia)) as Hdm.
    set (q := ((c - 65536) / 1024)%Z) in *. set (r := ((c - 65536) mod 1024)%Z) in *.
    change ([(55296 + q)%Z; (56320 + r)%Z] ++ w) with ((55296 + q)%Z :: (56320 + r)%Z :: w).
    cbn [decode_units]. unfold is_surrogate, is_high_surrogate, is_low_surrogate.
    rewrite (proj2 (Z.leb_le 55296 (55296 + q))), (proj2 (Z.ltb_lt (55296 + q) 57344)),
      (proj2 (Z.ltb_lt (55296 + q) 56320)), (proj2 (Z.leb_le 56320 (56320 + r))),
      (proj2 (Z.ltb_lt (56320 + r) 57344)) by lia.
    simpl. f_equal. f_equal. unfold combine_surrogates. lia.
Qed.

Lemma decode_encode_utf16 s :
  Forall scalar s -> decode_units (encode_utf16 s) = map Some s.
Proof.
  induction 1 as [|c s Hc _ IH]; [done|].
  change (encode_utf16 (c :: s)) with (encode_char c ++ encode_utf16 s).
  rewrite encode_char_scalar by done. simpl. by rewrite IH.
Qed.

Lemma mapM_map_Some {A} (s : list A) : mapM (M:=option) id (map Some s) = Some s.
Proof. induction s as [|x s IH]; [done|]. simpl. by rewrite IH. Qed.

Lemma from_encode_utf16 s : Forall scalar s -> from_utf16 (encode_utf16 s) = Some s.
Proof. intros H. unfold from_utf16. rewrite decode_encode_utf16 by done. apply mapM_map_Some. Qed.

Lemma from_encode_utf16_lossy s : Forall scalar s -> from_utf16_lossy (encode_utf16 s) = s.
Proof.
  intros H. unfold from_utf16_lossy. rewrite decode_encode_utf16 by done.
  rewrite map_map. apply map_id.
Qed.

(** Encoding never produces a zero unit from characters other than NUL. *)
Lemma encode_utf16_no_nul s :
  Forall scalar s -> Forall (fun c => c <> 0%Z) s ->
  Forall (fun u => Z.eqb u 0 = false) (encode_utf16 s).
Proof.
  intros Hs Hn. induction s as [|c s IH]; [constructor|].
  inversion Hs as [|? ? Hc Hs']; inversion Hn as [|? ? Hc0 Hn']; subst.
  change (encode_utf16 (c :: s)) with (encode_char c ++ encode_utf16 s).
  apply Forall_app. split; [|by apply IH].
  unfold encode_char. destruct (Z.ltb_spec c 65536).
  - constructor; [by apply Z.eqb_neq|constructor].
  - assert (0 <= (c - 65536) / 1024)%Z by (apply Z.div_pos; lia).
    assert (0 <= (c - 65536) mod 1024)%Z by (apply Z.mod_pos_bound; lia).
    repeat constructor; apply Z.eqb_neq; lia.
Qed.

Lemma starts_with_spec p s : starts_with p s = true <-> exists t, s = p ++ t.
Proof.
  revert s. induction p as [|c p IH]; intros s; simpl.
  - split; [by exists s|done].
  - destruct s as [|d s]; simpl.
    + split; [done|]. by intros [t Ht].
    + rewrite andb_true_iff, Z.eqb_eq, IH. split.
      * intros [-> [t ->]]. by exists t.
      * intros [t Ht]. simplify_eq. eauto.
Qed.

Lemma ends_with_spec p s : ends_with p s = true <-> exists t, s = t ++ p.
Proof.
  unfold ends_with. rewrite starts_with_spec. split; intros [t Ht]; exists (rev t).
  - apply (f_equal (@rev Z)) in Ht. by rewrite rev_app_distr, !rev_involutive in Ht.
  - rewrite Ht. by rewrite rev_app_distr.
Qed.

Lemma starts_with_app p t : starts_with p (p ++ t) = true.
Proof. apply starts_with_spec. eauto. Qed.
Lemma ends_with_app t p : ends_with p (t ++ p) = true.
Proof. apply ends_with_spec. eauto. Qed.

Lemma strip_prefix_spec p s t : strip_prefix p s = Some t <-> s = p ++ t.
Proof.
  unfold strip_prefix. destruct (starts_with p s) eqn:E.
  - apply starts_with_spec in E as [u ->]. rewrite drop_app_length.
    split; [intros [= ->]; done|]. intros H. f_equal. by apply app_inv_head in H.
  - split; [done|]. intros ->. by rewrite starts_with_app in E.
Qed.

Lemma strip_suffix_spec p s t : strip_suffix p s = Some t <-> s = t ++ p.
Proof.
  unfold strip_suffix. destruct (ends_with p s) eqn:E.
  - apply ends_with_spec in E as [u ->]. rewrite length_app.
    replace (length u + length p - length p) with (length u) by lia.
    rewrite take_app_length. split; [intros [= ->]; done|].
    intros H. f_equal. by apply app_inv_tail in H.
  - split; [done|]. intros ->. by rewrite ends_with_app in E.
Qed.

Lemma one_of_spec cs c : one_of cs c = true <-> c ∈ cs.
Proof. unfold one_of. apply bool_decide_eq_true. Qed.

Lemma contains_char_spec s c : contains_char s c = true <-> c ∈ s.
Proof.
  unfold contains_char. rewrite existsb_exists. split.
  - intros (x & Hx & ->%Z.eqb_eq). by apply list_elem_of_In.
  - intros H. exists c. split; [by apply list_elem_of_In|apply Z.eqb_refl].
Qed.

Lemma trim_start_matches_suffix p s : exists t, s = t ++ trim_start_matches p s.
Proof.
  induction s as [|c s [t IH]]; simpl; [by exists []|].
  destruct (p c); [exists (c :: t); by rewrite IH at 1|by exists []].
Qed.

Lemma trim_start_matches_Forall (P : Z -> Prop) p s :
  Forall P s -> Forall P (trim_start_matches p s).
Proof.
  intros H. destruct (trim_start_matches_suffix p s) as [t Ht].
  rewrite Ht in H. by apply Forall_app in H as [_ H].
Qed.

Lemma trim_end_matches_Forall (P : Z -> Prop) p s :
  Forall P s -> Forall P (trim_end_matches p s).
Proof.
  intros H. unfold trim_end_matches. apply Forall_rev, trim_start_matches_Forall, Forall_rev, H.
Qed.

Lemma trim_start_matches_head p s c t : trim_start_matches p s = c :: t -> p c = false.
Proof.
  induction s as [|d s IH]; simpl; [done|].
  destruct (p d) eqn:E; [done|]. by intros [= -> ->].
Qed.

Lemma trim_end_matches_last p s t c : trim_end_matches p s = t ++ [c] -> p c = false.
Proof.
  unfold trim_end_matches. intros H. apply (f_equal (@rev Z)) in H.
  rewrite rev_involutive, rev_app_distr in H. by apply trim_start_matches_head in H.
Qed.

#[export] Hint Resolve starts_with_app ends_with_app : winprofile.

(** ** UTF-8 *)
Definition utf8_char (c : Z) : list Z :=
  if (c <? 128)%Z then [c]
  else if (c <? 2048)%Z then [192 + c / 64; 128 + c mod 64]%Z
  else if (c <? 65536)%Z then [224 + c / 4096; 128 + (c / 64) mod 64; 128 + c mod 64]%Z
  else [240 + c / 262144; 128 + (c / 4096) mod 64; 128 + (c / 64) mod 64; 128 + c mod 64]%Z.
(** The bytes of a string ([str::as_bytes]). *)
Definition utf8_encode (s : str) : list Z := flat_map utf8_char s.

Definition is_continuation (b : Z) : bool := (128 <=? b)%Z && (b <? 192)%Z.
Definition is_scalar (c : Z) : bool :=
  ((0 <=? c)%Z && (c <? 55296)%Z) || ((57344 <=? c)%Z && (c <=? 1114111)%Z).
(** [str::from_utf8]: [None] when the bytes are not UTF-8, overlong forms and
    surrogates included. *)
Fixpoint utf8_decode (fuel : nat) (bytes : list Z) : option str :=
  match fuel with
  | O => None
  | S fuel' =>
      match bytes with
      | [] => Some []
      | b :: rest =>
          if (b <? 128)%Z then cons b <$> utf8_decode fuel' rest
          else
            match (if (b <? 224)%Z then Some (1, b - 192, 128)
                   else if (b <? 240)%Z then Some (2, b - 224, 2048)
                   else if (b <? 248)%Z then Some (3, b - 240, 65536) else None)%Z : option (Z * Z * Z) with
            | None => None
            | Some (n, high, minimum) =>
                let tail := take (Z.to_nat n) rest in
                let c := foldl (fun c b => 64 * c + (b - 128))%Z high tail in
                if (192 <=? b)%Z && Nat.eqb (length tail) (Z.to_nat n) && forallb is_continuation tail
                   && (minimum <=? c)%Z && is_scalar c
                then cons c <$> utf8_decode fuel' (drop (Z.to_nat n) rest)
                else None
            end
      end
  end.
(** Every step consumes a byte, so one more than the length is enough. *)
Definition from_utf8 (bytes : list Z) : option str := utf8_decode (S (length bytes)) bytes.

Example from_utf8_mixed : from_utf8 (utf8_encode [65; 233; 8364; 128512]%Z) = Some [65; 233; 8364; 128512]%Z.
Proof. vm_compute. reflexivity. Qed.
Example from_utf8_overlong : from_utf8 [192; 128]%Z = None.
Proof. vm_compute. reflexivity. Qed.

(** The size of a string is the number of its bytes. *)
Lemma utf8_encode_length s :
  Forall (fun c => 0 <= c)%Z s -> Z.of_nat (length (utf8_encode s)) = str_len s.
Proof.
  induction 1 as [|c s Hc _ IH]; [done|].
  change (utf8_encode (c :: s)) with (utf8_char c ++ utf8_encode s).
  rewrite length_app, Nat2Z.inj_add, IH. cbn [str_len foldr]. fold (str_len s).
  f_equal. unfold utf8_char, len_utf8. by repeat case_match.
Qed.

(** ** Decimal numerals are injective *)
Definition undec (s : str) : Z := foldl (fun n c => 10 * n + (c - 48))%Z 0%Z s.

Lemma digits_fuel_undec fuel n :
  (0 <= n < 10 ^ Z.of_nat fuel)%Z -> (0 < fuel)%nat -> undec (digits_fuel fuel 10 n) = n.
Proof.
  revert n. induction fuel as [|fuel IH]; intros n Hn Hf; [lia|]. cbn [digits_fuel].
  pose proof (Z.mod_pos_bound n 10 ltac:(lia)) as Hm.
  rewrite (proj2 (Z.ltb_lt (n mod 10) 10)) by lia.
  unfold undec in *. rewrite foldl_app. cbn [foldl].
  destruct (Z.ltb_spec n 10) as [Hlt|Hge]; cbn [foldl].
  - rewrite Z.mod_small by lia. lia.
  - rewrite IH.
    + pose proof (Z.div_mod n 10 ltac:(lia)). lia.
    + split; [apply Z.div_pos; lia|]. apply Z.div_lt_upper_bound; [lia|].
      rewrite Nat2Z.inj_succ, Z.pow_succ_r in Hn by lia. lia.
    + destruct fuel; [|lia]. cbn in Hn. lia.
Qed.

Lemma undec_dec n : (0 <= n)%Z -> undec (dec n) = n.
Proof.
  intros Hn. apply digits_fuel_undec; [|lia]. split; [done|].
  destruct (Z.eq_dec n 0%Z) as [->|Hne]; [done|].
  pose proof (Z.log2_nonneg n). rewrite Nat2Z.inj_succ, Z2Nat.id by done.
  destruct (Z.log2_spec n ltac:(lia)) as [_ Hlt].
  eapply Z.lt_le_trans; [exact Hlt|]. apply Z.pow_le_mono_l. lia.
Qed.

Lemma dec_inj a b : (0 <= a)%Z -> (0 <= b)%Z -> dec a = dec b -> a = b.
Proof. intros Ha Hb H. by rewrite <- (undec_dec a), <- (undec_dec b), H. Qed.
