(* ===== verification/Path.v ===== *)
(** * Path: Windows paths as [std::path] reads them

    A path is its UTF-16 code units.  The functions are those of [Path],
    [PathBuf] and [Components] the program calls, with the prefix grammar of
    the Windows target: drive, UNC, verbatim and device prefixes. *)

From stdpp Require Import base list strings.
From S2P Require Import Prelude Text.

Abbreviation path := (list Z).

Definition is_separator (u : Z) : bool := Z.eqb u BACKSLASH || Z.eqb u FORWARD_SLASH.
Definition is_verbatim_separator (u : Z) : bool := Z.eqb u BACKSLASH.

Inductive Prefix : Type :=
| Verbatim (name : wide)
| VerbatimUNC (server share : wide)
| VerbatimDisk (drive : Z)
| DeviceNS (name : wide)
| UNC (server share : wide)
| Disk (drive : Z).

Inductive Component : Type :=
| CPrefix (raw : wide) (kind : Prefix)
| RootDir
| CurDir
| ParentDir
| Normal (name : wide).

#[export] Instance Prefix_eq_dec : EqDecision Prefix.
Proof. solve_decision. Defined.
#[export] Instance Component_eq_dec : EqDecision Component.
Proof. solve_decision. Defined.

(** ** Prefixes *)
Definition prefix_len (p : Prefix) : nat :=
  let part (w : wide) := if is_empty w then 0 else 1 + length w in
  match p with
  | Verbatim name => 4 + length name
  | VerbatimUNC server share => 8 + length server + part share
  | VerbatimDisk _ => 6
  | DeviceNS name => 4 + length name
  | UNC server share => 2 + length server + part share
  | Disk _ => 2
  end.
Definition is_verbatim (p : Prefix) : bool :=
  match p with Verbatim _ | VerbatimUNC _ _ | VerbatimDisk _ => true | _ => false end.
Definition is_drive (p : Prefix) : bool := match p with Disk _ => true | _ => false end.
Definition has_implicit_root (p : Prefix) : bool := negb (is_drive p).

Definition parse_drive (w : wide) : option Z :=
  match w with
  | d :: c :: _ => if is_ascii_alphabetic d && Z.eqb c COLON then Some (to_ascii_upper d) else None
  | _ => None
  end.
(** In a verbatim path the drive is recognised only when it is a whole
    component. *)
Definition parse_drive_exact (w : wide) : option Z :=
  match w with
  | _ :: _ :: c :: _ => if is_separator c then parse_drive w else None
  | _ => parse_drive w
  end.

(** The units before the first separator, and those after the run of
    separators that starts there. *)
Definition next_component (verbatim : bool) (w : wide) : wide * wide :=
  let sep := if verbatim then is_verbatim_separator else is_separator in
  match position sep w with
  | Some i => (take i w, trim_start_matches sep (drop i w))
  | None => (w, [])
  end.

(** The first eight units are compared with forward slashes read as
    backslashes; a verbatim prefix written with a forward slash is none. *)
Definition prefix_view (w : wide) : wide :=
  map (fun u => if Z.eqb u FORWARD_SLASH then BACKSLASH else u) (take 8 w).
Definition view_starts_with (p : str) (w : wide) : bool := starts_with p (prefix_view w).
Definition verbatim_marker (w : wide) : bool :=
  view_starts_with ($"\\?\") w && negb (contains_char (take 4 w) FORWARD_SLASH).

Definition parse_prefix (w : wide) : option Prefix :=
  if view_starts_with ($"\\") w then
    if verbatim_marker w then
      if view_starts_with ($"\\?\UNC\") w then
        let '(server, rest) := next_component true (drop 8 w) in
        Some (VerbatimUNC server (fst (next_component true rest)))
      else match parse_drive_exact (drop 4 w) with
           | Some drive => Some (VerbatimDisk drive)
           | None => Some (Verbatim (fst (next_component true (drop 4 w))))
           end
    else if view_starts_with ($"\\.\") w then
      Some (DeviceNS (fst (next_component false (drop 4 w))))
    else
      let '(server, rest) := next_component false (drop 2 w) in
      let share := fst (next_component false rest) in
      if negb (is_empty server) && negb (is_empty share) then Some (UNC server share) else None
  else Disk <$> parse_drive w.

(** ** Components *)
Definition prefix_verbatim (w : wide) : bool :=
  match parse_prefix w with Some p => is_verbatim p | None => false end.
Definition after_prefix (w : wide) : wide :=
  match parse_prefix w with Some p => drop (prefix_len p) w | None => w end.
Definition has_physical_root (w : wide) : bool :=
  match after_prefix w with u :: _ => is_separator u | [] => false end.
Definition has_root (w : wide) : bool :=
  has_physical_root w || match parse_prefix w with Some p => has_implicit_root p | None => false end.
Definition is_absolute (w : wide) : bool :=
  has_root w && match parse_prefix w with Some _ => true | None => false end.

Definition parse_single (verbatim : bool) (comp : wide) : option Component :=
  if is_empty comp then None
  else if str_eqb comp ($".") then (if verbatim then Some CurDir else None)
  else if str_eqb comp ($"..") then Some ParentDir
  else Some (Normal comp).
Definition body_separator (w : wide) : Z -> bool :=
  if prefix_verbatim w then is_verbatim_separator else is_separator.
Definition body_components (w body : wide) : list Component :=
  omap (parse_single (prefix_verbatim w)) (split_on (body_separator w) body).

(** What precedes the body: the root directory, physical or implied by the
    prefix, or a leading current directory. *)
Definition start_and_body (w : wide) : list Component * wide :=
  let rest := after_prefix w in
  if has_physical_root w then ([RootDir], drop 1 rest)
  else match parse_prefix w with
       | Some p => if has_implicit_root p && negb (is_verbatim p) then ([RootDir], rest)
                   else ([], rest)
       | None => ([], rest)
       end.
Definition leading_cur_dir (w : wide) : bool :=
  negb (has_root w) &&
  match after_prefix w with
  | [c] => Z.eqb c DOT
  | c :: d :: _ => Z.eqb c DOT && body_separator w d
  | [] => false
  end.
Definition components (w : wide) : list Component :=
  let '(start, body) := start_and_body w in
  match parse_prefix w with Some p => [CPrefix (take (prefix_len p) w) p] | None => [] end
  ++ start
  ++ (if leading_cur_dir w then [CurDir] else [])
  ++ body_components w body.

(** ** Joining *)
Definition component_text (c : Component) : wide :=
  match c with
  | CPrefix raw _ => raw
  | RootDir => $"\"
  | CurDir => $"."
  | ParentDir => $".."
  | Normal name => name
  end.

Definition push_component (buf : list Component) (c : Component) : list Component :=
  match c with
  | RootDir => take 1 buf ++ [RootDir]
  | CurDir => buf
  | ParentDir => match last buf with Some (Normal _) => take (length buf - 1) buf | _ => buf end
  | _ => buf ++ [c]
  end.
Fixpoint render_components (need_sep : bool) (buf : list Component) : wide :=
  match buf with
  | [] => []
  | c :: buf' =>
      (if need_sep && negb (bool_decide (c = RootDir)) then $"\" else []) ++ component_text c
      ++ render_components
           (match c with
            | RootDir => false
            | CPrefix _ p => negb (is_drive p) && negb (Nat.eqb (prefix_len p) 0)
            | _ => true
            end) buf'
  end.

Definition needs_separator (w : wide) : bool :=
  match last w with Some u => negb (is_separator u) | None => false end
  && negb (match parse_prefix w with
           | Some p => Nat.eqb (prefix_len p) (length w) && is_drive p
           | None => false
           end).

Definition path_join (base add : wide) : wide :=
  match parse_prefix add with
  | Some _ => add
  | None =>
      if prefix_verbatim base && negb (is_empty add) then
        render_components false (foldl push_component (components base) (components add))
      else if has_root add then
        match parse_prefix base with Some p => take (prefix_len p) base | None => [] end ++ add
      else (if needs_separator base then base ++ $"\" else base) ++ add
  end.

(** ** The end of a path *)
Definition file_name (w : wide) : option wide :=
  match last (components w) with Some (Normal name) => Some name | _ => None end.

(** [parent] cuts the text: components are taken off the back of the body,
    empty ones and redundant dots with them. *)
Definition len_before_body (w : wide) : nat :=
  match parse_prefix w with Some p => prefix_len p | None => 0 end
  + (if has_physical_root w then 1 else 0)
  + (if leading_cur_dir w then 1 else 0).
Fixpoint last_run (sep : Z -> bool) (body : wide) : wide * wide :=
  match body with
  | [] => ([], [])
  | u :: body' =>
      let '(before, run) := last_run sep body' in
      if is_empty before && negb (existsb sep body') then
        (if sep u then ([u], run) else ([], u :: run))
      else (u :: before, run)
  end.
(** The text before the last component and the separator before it, and the
    component. *)
Definition split_back (sep : Z -> bool) (body : wide) : wide * wide :=
  let '(before, run) := last_run sep body in (take (length before - 1) before, run).
Fixpoint trim_back (fuel : nat) (verbatim : bool) (sep : Z -> bool) (body : wide) : wide :=
  match fuel with
  | O => body
  | S fuel' =>
      match body with
      | [] => []
      | _ => let '(before, run) := split_back sep body in
             match parse_single verbatim run with
             | Some _ => body
             | None => trim_back fuel' verbatim sep before
             end
      end
  end.
(** Each turn of [trim_back] removes a unit, so the length is enough fuel. *)
Definition trimmed (w body : wide) : wide :=
  trim_back (S (length body)) (prefix_verbatim w) (body_separator w) body.
Definition parent (w : wide) : option wide :=
  match last (components w) with
  | Some (Normal _) | Some CurDir | Some ParentDir =>
      let n := len_before_body w in
      let body := trimmed w (drop n w) in
      match body with
      | [] => Some (take n w)   (* the component is the leading dot *)
      | _ => Some (take n w ++ trimmed w (fst (split_back (body_separator w) body)))
      end
  | _ => None
  end.

(** [Path::display], [to_string_lossy]. *)
Definition display (w : wide) : str := from_utf16_lossy w.

(** ** Examples *)
Example components_disk :
  components ($"c:\Users\.\Ada//x\") =
  [CPrefix ($"c:") (Disk (ch "C")); RootDir; Normal ($"Users"); Normal ($"Ada"); Normal ($"x")].
Proof. vm_compute. reflexivity. Qed.
Example components_unc :
  components ($"\\server\share\a\..\b") =
  [CPrefix ($"\\server\share") (UNC ($"server") ($"share")); RootDir; Normal ($"a"); ParentDir;
   Normal ($"b")].
Proof. vm_compute. reflexivity. Qed.
Example components_verbatim :
  components ($"\\?\C:\a/b") =
  [CPrefix ($"\\?\C:") (VerbatimDisk (ch "C")); RootDir; Normal ($"a/b")].
Proof. vm_compute. reflexivity. Qed.
Example components_relative : components ($"./a/b") = [CurDir; Normal ($"a"); Normal ($"b")].
Proof. vm_compute. reflexivity. Qed.
Example join_disk : path_join ($"C:\Users") ($"Ada") = $"C:\Users\Ada". Proof. vm_compute. reflexivity. Qed.
Example join_root : path_join ($"C:\Users") ($"\Ada") = $"C:\Ada". Proof. vm_compute. reflexivity. Qed.
Example join_absolute : path_join ($"C:\Users") ($"D:\Ada") = $"D:\Ada". Proof. vm_compute. reflexivity. Qed.
Example join_drive : path_join ($"C:") ($"Ada") = $"C:Ada". Proof. vm_compute. reflexivity. Qed.
Example join_verbatim : path_join ($"\\?\C:\a") ($"..\b") = $"\\?\C:\b". Proof. vm_compute. reflexivity. Qed.
Example parent_disk : parent ($"C:\Users\Ada\") = Some ($"C:\Users"). Proof. vm_compute. reflexivity. Qed.
Example parent_leaf : parent ($"C:\Users") = Some ($"C:\"). Proof. vm_compute. reflexivity. Qed.
Example parent_root : parent ($"C:\") = None. Proof. vm_compute. reflexivity. Qed.
Example parent_relative : parent ($"a\b//c") = Some ($"a\b"). Proof. vm_compute. reflexivity. Qed.

(** ** Lemmas *)

Lemma parse_single_normal v comp name :
  parse_single v comp = Some (Normal name) -> name = comp /\ comp <> [] /\ comp <> $"." /\ comp <> $"..".
Proof.
  unfold parse_single. destruct comp as [|u comp]; [done|]. simpl is_empty.
  destruct (str_eqb (u :: comp) ($".")) eqn:E1; [by destruct v|].
  destruct (str_eqb (u :: comp) ($"..")) eqn:E2; [done|]. intros [= <-].
  unfold str_eqb in *. by apply bool_decide_eq_false in E1, E2.
Qed.

(** A normal component of the body holds no separator. *)
Lemma body_components_normal w body name :
  Normal name ∈ body_components w body ->
  name <> [] /\ Forall (fun u => body_separator w u = false) name.
Proof.
  unfold body_components. rewrite list_elem_of_omap. intros (comp & Hin & Hp).
  apply parse_single_normal in Hp as (-> & Hne & _). split; [done|].
  pose proof (split_on_runs (body_separator w) body) as Hr.
  by rewrite Forall_forall in Hr; apply Hr.
Qed.

(** Splitting off the last run loses nothing and leaves no separator in it. *)
Lemma last_run_spec sep body :
  let '(before, run) := last_run sep body in
  body = before ++ run /\ Forall (fun u => sep u = false) run /\
  (forall b u, before = b ++ [u] -> sep u = true).
Proof.
  induction body as [|u body IH]; simpl; [repeat split; [constructor|]; by intros []|].
  destruct (last_run sep body) as [before run]. destruct IH as (-> & Hrun & Hb).
  destruct before as [|v before]; simpl.
  - assert (existsb sep run = false) as ->.
    { apply not_true_iff_false. rewrite existsb_exists. intros (x & Hx & Hsx).
      rewrite Forall_forall in Hrun. apply list_elem_of_In, Hrun in Hx. congruence. }
    destruct (sep u) eqn:Hu; simpl.
    + split; [done|]. split; [done|]. intros b x Hbx. destruct b as [|? b]; [|by destruct b].
      by simplify_eq/=.
    + split; [done|]. split; [by constructor|]. by intros [].
  - split; [done|]. split; [done|]. intros b x Hbx. destruct b as [|y b]; simplify_eq/=.
    by eapply Hb.
Qed.

(** ** Paths on a drive *)
(** A path on a drive, with its root. *)
Definition on_drive (p : path) : Prop :=
  exists d rest, p = d :: COLON :: BACKSLASH :: rest /\ is_ascii_alphabetic d = true.

Lemma parse_prefix_drive d rest :
  is_ascii_alphabetic d = true ->
  parse_prefix (d :: COLON :: rest) = Some (Disk (to_ascii_upper d)).
Proof.
  intros Hd. assert (d <> BACKSLASH /\ d <> FORWARD_SLASH) as [Hb Hf].
  { split; intros ->; done. }
  assert (view_starts_with ($"\\") (d :: COLON :: rest) = false) as Hv.
  { unfold view_starts_with, prefix_view. change ($"\\") with [BACKSLASH; BACKSLASH].
    cbn [take map starts_with]. rewrite (proj2 (Z.eqb_neq d FORWARD_SLASH)) by done.
    by rewrite (proj2 (Z.eqb_neq BACKSLASH d)). }
  unfold parse_prefix. rewrite Hv. unfold parse_drive. by rewrite Hd.
Qed.

Definition body_of (rest : wide) : list Component :=
  omap (parse_single false) (split_on is_separator rest).

Lemma components_drive d rest :
  is_ascii_alphabetic d = true ->
  components (d :: COLON :: BACKSLASH :: rest) =
  CPrefix [d; COLON] (Disk (to_ascii_upper d)) :: RootDir :: body_of rest.
Proof.
  intros Hd. unfold components, start_and_body, leading_cur_dir, has_root, has_physical_root,
    after_prefix, body_components, body_separator, prefix_verbatim.
  by rewrite !(parse_prefix_drive d (BACKSLASH :: rest) Hd).
Qed.

Definition plain (name : wide) : Prop :=
  name <> [] /\ Forall (fun u => is_separator u = false /\ Z.eqb u COLON = false) name.

Lemma parse_prefix_plain name : plain name -> parse_prefix name = None.
Proof.
  intros [Hne Hf]. destruct name as [|u name]; [done|]. inversion_clear Hf as [|? ? [Hs Hc] Hf'].
  unfold is_separator in Hs. apply orb_false_iff in Hs as [Hb Hs].
  assert (view_starts_with ($"\\") (u :: name) = false) as Hv.
  { unfold view_starts_with, prefix_view. change ($"\\") with [BACKSLASH; BACKSLASH].
    cbn [take map starts_with]. rewrite Hs. rewrite Z.eqb_sym, Hb. done. }
  unfold parse_prefix. rewrite Hv. unfold parse_drive. destruct name as [|v name]; [done|].
  inversion_clear Hf' as [|? ? [_ Hc'] _]. rewrite Hc', andb_false_r. done.
Qed.

Lemma path_join_drive d rest name :
  is_ascii_alphabetic d = true -> plain name ->
  path_join (d :: COLON :: BACKSLASH :: rest) name =
  d :: COLON :: BACKSLASH ::
    (match last rest with
     | Some u => if is_separator u then rest else rest ++ [BACKSLASH]
     | None => []
     end) ++ name.
Proof.
  intros Hd Hp. unfold path_join, prefix_verbatim, needs_separator, has_root, has_physical_root, after_prefix.
  rewrite (parse_prefix_plain name Hp), (parse_prefix_drive d (BACKSLASH :: rest) Hd).
  cbn [is_drive has_implicit_root is_verbatim prefix_len length Nat.eqb andb orb last].
  destruct Hp as [Hne Hf]. destruct name as [|u name]; [done|]. inversion_clear Hf as [|? ? [Hs _] _].
  rewrite Hs. change ($"\") with [BACKSLASH]. cbn [orb negb is_empty andb].
  destruct rest as [|v rest]; [done|].
  change (last (BACKSLASH :: v :: rest)) with (last (v :: rest)).
  destruct (last (v :: rest)) as [x|] eqn:Hl; [|by apply last_None in Hl].
  by destruct (is_separator x).
Qed.

Lemma body_of_join rest name :
  plain name -> name <> $"." -> name <> $".." ->
  body_of ((match last rest with
            | Some u => if is_separator u then rest else rest ++ [BACKSLASH]
            | None => []
            end) ++ name) = body_of rest ++ [Normal name].
Proof.
  intros [Hne Hf] Hd Hdd. unfold body_of.
  assert (split_on is_separator name = [name]) as Hclean.
  { apply split_on_clean. eapply Forall_impl; [exact Hf|]. by intros u []. }
  assert (omap (parse_single false) [name] = [Normal name]) as Hsingle.
  { simpl. unfold parse_single. destruct name as [|u name]; [done|]. simpl is_empty.
    unfold str_eqb. by rewrite !bool_decide_eq_false_2. }
  destruct (last rest) as [u|] eqn:Hl.
  2:{ apply last_None in Hl as ->. simpl. by rewrite Hclean. }
  destruct (is_separator u) eqn:Hu.
  - apply last_Some in Hl as [r ->]. rewrite <- app_assoc. simpl.
    rewrite !split_on_app, Hclean, !omap_app, Hsingle by done. simpl. by rewrite app_nil_r.
  - rewrite <- app_assoc. simpl. by rewrite split_on_app, Hclean, omap_app, Hsingle.
Qed.
