(* ===== verification/Effects.v ===== *)
(** * Effects: programs that call the operating system

    The program's state lives in the operating system: a function of the
    source that calls Win32 is a tree of those calls ([prog]), whose branches
    are the answers.  Nothing is assumed of the answers here: a theorem about
    every execution ranges over every answer, and a theorem about lawful
    executions is stated against a [protocol].

    [M S E A] adds what a Rust function has besides its calls: in-process
    state of type [S] and a [Result]. *)

From stdpp Require Import base list.
From S2P Require Import Prelude Text.

(** ** The call signature

    [act] is the type of calls and [resp a] the type of the answer to [a]. *)
Class Signature : Type := { act : Type; resp : act -> Type }.

(** Why an execution stops without a result: a Rust panic ([expect],
    [unreachable!]), or the fuel of a loop running out, which is no behaviour
    of the code and which the termination theorems rule out. *)
Inductive halt : Type :=
| Panic (message : str)
| OutOfFuel.

(** The fuel of the loops whose number of turns the operating system decides. *)
Class Fuel : Type := fuel : nat.

Section Programs.
Context {Σ : Signature}.

Inductive prog (R : Type) : Type :=
| Ret (r : R)
| Call (a : act) (k : resp a -> prog R)
| Halt (h : halt).
Arguments Ret {R} r.
Arguments Call {R} a k.
Arguments Halt {R} h.

Fixpoint bind {A B} (m : prog A) (f : A -> prog B) : prog B :=
  match m with
  | Ret r => f r
  | Call a k => Call a (fun x => bind (k x) f)
  | Halt h => Halt h
  end.

(** ** Executions

    A trace lists the calls made with their answers; [exec m tr r] is a
    complete execution. *)
Definition event : Type := {a : act & resp a}.
Definition ev (a : act) (x : resp a) : event := existT a x.
Definition trace : Type := list event.

Fixpoint exec {R} (m : prog R) (tr : trace) (r : R) : Prop :=
  match m with
  | Ret r' => tr = [] /\ r = r'
  | Call a k => exists x tr', tr = ev a x :: tr' /\ exec (k x) tr' r
  | Halt _ => False
  end.

(** Runs against a deterministic world, the form in which the definitions
    are evaluated on concrete inputs. *)
Definition handler (W : Type) : Type := forall a : act, W -> resp a * W.

Inductive outcome (R : Type) : Type :=
| Done (r : R)
| Halted (h : halt).
Arguments Done {R} r.
Arguments Halted {R} h.

Fixpoint run {W R} (h : handler W) (m : prog R) (w : W) : outcome R * W :=
  match m with
  | Ret r => (Done r, w)
  | Call a k => let '(x, w') := h a w in run h (k x) w'
  | Halt e => (Halted e, w)
  end.

(** ** Protocols

    A protocol says, over a ghost state, which calls the program may make and
    what the documented answers are.  [wp] is the weakest precondition of a
    program under a protocol: every call is permitted and, unless the protocol
    excuses it, no execution halts. *)
Record protocol (G : Type) : Type := Protocol {
  permitted : act -> G -> Prop;
  answers : forall a : act, G -> resp a -> G -> Prop;
  may_halt : Prop;
}.
Arguments permitted {G} p a g.
Arguments answers {G} p a g x g'.
Arguments may_halt {G} p.
Arguments Protocol {G} permitted answers may_halt.

Fixpoint wp {G R} (P : protocol G) (m : prog R) (Q : R -> G -> Prop) (g : G) : Prop :=
  match m with
  | Ret r => Q r g
  | Call a k => permitted P a g /\ forall x g', answers P a g x g' -> wp P (k x) Q g'
  | Halt _ => may_halt P
  end.

Lemma wp_mono {G R} (P : protocol G) (m : prog R) Q Q' g :
  wp P m Q g -> (forall r g, Q r g -> Q' r g) -> wp P m Q' g.
Proof.
  revert g. induction m as [r|a k IH|h]; simpl; intros g H HQ; [by auto| |done].
  destruct H as [Hp Hk]. split; [done|]. intros x g' Ha. by eapply IH; eauto.
Qed.

Lemma wp_bind {G A B} (P : protocol G) (m : prog A) (f : A -> prog B) Q g :
  wp P m (fun r g' => wp P (f r) Q g') g -> wp P (bind m f) Q g.
Proof.
  revert g. induction m as [r|a k IH|h]; simpl; intros g H; [done| |done].
  destruct H as [Hp Hk]. split; [done|]. intros x g' Ha. by apply IH, Hk.
Qed.

(** An observer records what it sees in its ghost state and assumes nothing:
    every call is permitted, every answer possible. *)
Definition observer {G} (see : forall a : act, resp a -> G -> G) : protocol G :=
  Protocol (fun _ _ => True) (fun a g x g' => g' = see a x g) True.

(** A monitor also restricts the calls, by what it has seen. *)
Definition monitor {G} (ok : act -> G -> Prop) (see : forall a : act, resp a -> G -> G) : protocol G :=
  Protocol ok (fun a g x g' => g' = see a x g) True.

(** *** Adequacy

    [follows P g tr g']: the answers of the trace are those the protocol
    documents, from [g] to [g'].  An execution of a program with a [wp] whose
    answers follow the protocol ends in the postcondition, having made only
    permitted calls. *)
Fixpoint follows {G} (P : protocol G) (g : G) (tr : trace) (g' : G) : Prop :=
  match tr with
  | [] => g = g'
  | e :: tr' => exists g1, answers P (projT1 e) g (projT2 e) g1 /\ follows P g1 tr' g'
  end.

Lemma wp_exec {G R} (P : protocol G) (m : prog R) Q g tr r g' :
  wp P m Q g -> exec m tr r -> follows P g tr g' -> Q r g'.
Proof.
  revert g tr. induction m as [r0|a k IH|h]; simpl; intros g tr Hwp Hex Hf; [| |done].
  - destruct Hex as [-> ->]. simpl in Hf. by subst.
  - destruct Hex as (x & tr' & -> & Hex), Hf as (g1 & Ha & Hf), Hwp as [_ Hk].
    by eapply IH; eauto.
Qed.

Lemma wp_permitted {G R} (P : protocol G) (m : prog R) Q g pre a x post r g' :
  wp P m Q g -> exec m (pre ++ ev a x :: post) r -> follows P g pre g' -> permitted P a g'.
Proof.
  revert m g. induction pre as [|e pre IH]; intros m g Hwp Hex Hf;
    destruct m as [r0|a0 k|h]; simpl in *; try (by destruct Hex);
    destruct Hex as (x0 & tr' & Heq & Hex), Hwp as [Hp Hk].
  - subst g'. injection Heq as Heq _ _. by subst.
  - injection Heq as He Htr. subst e tr'. destruct Hf as (g1 & Ha & Hf). by eapply IH; eauto.
Qed.

(** A world is lawful for a protocol when its answers are documented ones,
    through an abstraction [α] of its state. *)
Definition lawful {W G} (h : handler W) (P : protocol G) (α : W -> G) : Prop :=
  forall a w, permitted P a (α w) -> answers P a (α w) (fst (h a w)) (α (snd (h a w))).

Lemma wp_run {W G R} (h : handler W) (P : protocol G) (α : W -> G) (m : prog R) Q w :
  lawful h P α -> ~ may_halt P -> wp P m Q (α w) ->
  exists r, run h m w = (Done r, snd (run h m w)) /\ Q r (α (snd (run h m w))).
Proof.
  intros Hl Hh. revert w. induction m as [r|a k IH|e]; simpl; intros w Hwp.
  - by exists r.
  - destruct Hwp as [Hp Hk]. specialize (Hl a w Hp) as Ha.
    destruct (h a w) as [x w'] eqn:E; simpl in *. apply IH. by apply Hk.
  - done.
Qed.

(** *** Calls a program may ever make *)
Fixpoint calls {R} (P : act -> Prop) (m : prog R) : Prop :=
  match m with
  | Ret _ => True
  | Call a k => P a /\ forall x, calls P (k x)
  | Halt _ => True
  end.

Lemma calls_bind {A B} (P : act -> Prop) (m : prog A) (f : A -> prog B) :
  calls P m -> (forall r, calls P (f r)) -> calls P (bind m f).
Proof. induction m as [r|a k IH|h]; simpl; naive_solver. Qed.

Lemma calls_mono {R} (P Q : act -> Prop) (m : prog R) :
  (forall a, P a -> Q a) -> calls P m -> calls Q m.
Proof. intros H. induction m as [r|a k IH|h]; simpl; naive_solver. Qed.

Lemma calls_exec {R} (P : act -> Prop) (m : prog R) tr r :
  calls P m -> exec m tr r -> Forall (fun e => P (projT1 e)) tr.
Proof.
  revert tr. induction m as [r0|a k IH|h]; simpl; intros tr Hc Hex; [| |done].
  - by destruct Hex as [-> _].
  - destruct Hex as (x & tr' & -> & Hex), Hc as [Ha Hk]. constructor; [done|by eapply IH].
Qed.

(** A program whose calls are always allowed satisfies under a monitor what it
    satisfies under an observer of a part of the monitor's state, and an
    invariant its calls keep. *)
Lemma wp_project {G G' R} (ok : act -> G -> Prop) see (see' : forall a, resp a -> G' -> G') (f : G -> G')
    (C : act -> Prop) (m : prog R) Q g :
  (forall a x g, f (see a x g) = see' a x (f g)) -> (forall a g, C a -> ok a g) -> calls C m ->
  wp (observer see') m Q (f g) -> wp (monitor ok see) m (fun r g' => Q r (f g')) g.
Proof.
  intros Hf Hok. revert g. induction m as [r|a k IH|h]; simpl; intros g Hc Hw; [done| |done].
  destruct Hc as [Ha Hc]. split; [by apply Hok|]. intros x g' ->. apply IH; [done|].
  rewrite Hf. by apply Hw.
Qed.
Lemma wp_keeps {G R} (P : protocol G) (C : act -> Prop) (I : G -> Prop) (m : prog R) g :
  (forall a g, C a -> I g -> permitted P a g) ->
  (forall a g x g', C a -> I g -> answers P a g x g' -> I g') ->
  may_halt P -> calls C m -> I g -> wp P m (fun _ g' => I g') g.
Proof.
  intros Hp Ha Hh. revert g. induction m as [r|a k IH|h]; simpl; intros g Hc Hi; [done| |done].
  destruct Hc as [HC Hc]. split; [by apply Hp|]. intros x g' Hx. apply IH; [done|by eapply Ha].
Qed.
(** Under a monitor, while an invariant of its state holds, a program makes only
    the calls the monitor then lets through. *)
Lemma wp_monitor_kept {G R} ok see (I : G -> Prop) (C : act -> Prop) (Q : R -> G -> Prop) (m : prog R) g :
  (forall a g, I g -> ok a g -> C a) -> (forall a x g, I g -> I (see a x g)) ->
  wp (monitor ok see) m Q g -> I g -> calls C m.
Proof.
  intros HC Hsee. revert g. induction m as [r|a k IH|h]; simpl; intros g Hw Hi; [done| |done].
  destruct Hw as [Hok Hk]. split; [by eapply HC|]. intros x. eapply IH; [by apply Hk|by apply Hsee].
Qed.
Lemma wp_and {G R} (P : protocol G) (m : prog R) Q Q' g :
  wp P m Q g -> wp P m Q' g -> wp P m (fun r g' => Q r g' /\ Q' r g') g.
Proof.
  revert g. induction m as [r|a k IH|h]; simpl; intros g H H'; [done| |done].
  destruct H as [Hp H], H' as [_ H']. split; [done|]. intros x g' Hx. apply IH; auto.
Qed.

(** *** Tame programs: they make only calls of a class [C], halt abnormally
    only if [h], and their results satisfy [Q]. *)
Fixpoint tame {R} (C : act -> Prop) (h : Prop) (Q : R -> Prop) (m : prog R) : Prop :=
  match m with
  | Ret r => Q r
  | Call a k => C a /\ forall x, tame C h Q (k x)
  | Halt _ => h
  end.

Lemma tame_bind {A B} C h (Q : A -> Prop) (Q' : B -> Prop) (m : prog A) (f : A -> prog B) :
  tame C h Q m -> (forall r, Q r -> tame C h Q' (f r)) -> tame C h Q' (bind m f).
Proof. induction m as [r|a k IH|e]; simpl; naive_solver. Qed.

(** Under a protocol that permits the calls of the class and moves its ghost
    state along a preorder when they are made, a tame program runs and moves it
    along. *)
Lemma wp_tame {G R} (P : protocol G) (C : act -> Prop) (h : Prop) (le : G -> G -> Prop) `{!PreOrder le}
    (Q : R -> Prop) (m : prog R) g :
  (forall a g, C a -> permitted P a g) -> (forall a g x g', C a -> answers P a g x g' -> le g g') ->
  (h -> may_halt P) -> tame C h Q m -> wp P m (fun r g' => Q r /\ le g g') g.
Proof.
  intros Hp Ha Hh. revert g. induction m as [r|a k IH|e]; intros g Ht; [by split| |by apply Hh].
  destruct Ht as [HC Ht]. split; [by apply Hp|].
  intros x g' Hx. eapply wp_mono; [by apply IH|]. intros r g'' [Hr Hle]. split; [done|].
  transitivity g'; [by eapply Ha|done].
Qed.

Lemma tame_calls {R} C h (Q : R -> Prop) (m : prog R) : tame C h Q m -> calls C m.
Proof. induction m as [r|a k IH|e]; simpl; naive_solver. Qed.
Lemma tame_mono {R} (C C' : act -> Prop) (h : Prop) (Q : R -> Prop) (m : prog R) :
  (forall a, C a -> C' a) -> tame C h Q m -> tame C' h Q m.
Proof. intros HC. induction m as [r|a k IH|e]; simpl; naive_solver. Qed.

(** *** Results a program may ever return *)
Fixpoint returns {R} (Q : R -> Prop) (m : prog R) : Prop :=
  match m with
  | Ret r => Q r
  | Call a k => forall x, returns Q (k x)
  | Halt _ => True
  end.

Lemma returns_bind {A B} (Q : A -> Prop) (Q' : B -> Prop) (m : prog A) (f : A -> prog B) :
  returns Q m -> (forall r, Q r -> returns Q' (f r)) -> returns Q' (bind m f).
Proof. induction m as [r|a k IH|h]; simpl; naive_solver. Qed.

Lemma wp_returns {G R} (P : protocol G) (Q : R -> Prop) (Q' : R -> G -> Prop) (m : prog R) g :
  returns Q m -> wp P m Q' g -> wp P m (fun r g' => Q r /\ Q' r g') g.
Proof.
  revert g. induction m as [r|a k IH|h]; simpl; intros g Hr Hw; [done| |done].
  destruct Hw as [Hp Hw]. split; [done|]. intros x g' Hx. apply IH; [apply Hr|by apply Hw].
Qed.

(** A monitor says nothing of the answers: what it shows holds of every run. *)
Lemma wp_monitor_returns {G R} ok see (Q : R -> G -> Prop) (m : prog R) g :
  wp (monitor ok see) m Q g -> returns (fun r => exists g', Q r g') m.
Proof.
  revert g. induction m as [r|a k IH|h]; simpl; intros g H; [by exists g| |done].
  destruct H as [_ Hk]. intros x. by eapply IH, Hk.
Qed.
Lemma wp_monitor_calls {R} (C : act -> Prop) (Q : R -> unit -> Prop) (m : prog R) :
  wp (monitor (fun a _ => C a) (fun _ _ g => g)) m Q tt -> calls C m.
Proof.
  induction m as [r|a k IH|h]; simpl; intros H; [done| |done]. destruct H as [Ha Hk].
  split; [done|]. intros x. by apply IH, Hk.
Qed.

Lemma returns_exec {R} (Q : R -> Prop) (m : prog R) tr r : returns Q m -> exec m tr r -> Q r.
Proof.
  revert tr. induction m as [r0|a k IH|h]; simpl; intros tr Hr He; [by destruct He as [_ ->]| |done].
  destruct He as (x & tr' & _ & He). by eapply IH.
Qed.

(** ** Functions with state and errors *)
Definition M (S E A : Type) : Type := S -> prog (result E A * S).

Section Monad.
Context {S : Type}.

Definition ret {E A} (a : A) : M S E A := fun s => Ret (Ok a, s).
Definition throw {E A} (e : E) : M S E A := fun s => Ret (Err e, s).
Definition mbind {E A B} (m : M S E A) (f : A -> M S E B) : M S E B :=
  fun s => bind (m s) (fun '(r, s') =>
    match r with Ok a => f a s' | Err e => Ret (Err e, s') end).

(** One call; its answer is a value. *)
Definition call {E} (a : act) : M S E (resp a) := fun s => Call a (fun x => Ret (Ok x, s)).
Definition panic {E A} (message : str) : M S E A := fun _ => Halt (Panic message).
Definition out_of_fuel {E A} : M S E A := fun _ => Halt OutOfFuel.

(** A pure fallible computation, and [Result::map_err]. *)
Definition lift {E A} (r : result E A) : M S E A := fun s => Ret (r, s).
Definition map_err {E E' A} (f : E -> E') (m : M S E A) : M S E' A :=
  fun s => bind (m s) (fun '(r, s') => Ret (result_map_err f r, s')).
(** The [Result] of a call as a value, as in [match f() { ... }]. *)
Definition attempt {E E' A} (m : M S E A) : M S E' (result E A) :=
  fun s => bind (m s) (fun '(r, s') => Ret (Ok r, s')).
(** Drop glue: [cleanup] runs when the scope of [m] ends, on success and on
    an early return alike. *)
Definition defer {E A} (cleanup : M S unit unit) (m : M S E A) : M S E A :=
  fun s => bind (m s) (fun '(r, s') => bind (cleanup s') (fun '(_, s'') => Ret (r, s''))).
(** A value that is dropped when the rest of its scope fails and handed on
    when it succeeds. *)
Definition on_error {E A} (cleanup : M S unit unit) (m : M S E A) : M S E A :=
  fun s => bind (m s) (fun '(r, s') =>
    match r with
    | Ok a => Ret (Ok a, s')
    | Err e => bind (cleanup s') (fun '(_, s'') => Ret (Err e, s''))
    end).

Definition get {E} : M S E S := fun s => Ret (Ok s, s).
Definition put {E} (s : S) : M S E unit := fun _ => Ret (Ok tt, s).

Fixpoint for_each {E A} (f : A -> M S E unit) (l : list A) : M S E unit :=
  match l with
  | [] => ret tt
  | x :: l' => mbind (f x) (fun _ => for_each f l')
  end.
End Monad.

(** *** Weakest preconditions of functions *)
Definition wpM {S G E A} (P : protocol G) (m : M S E A)
    (Q : result E A -> S -> G -> Prop) (s : S) (g : G) : Prop :=
  wp P (m s) (fun '(r, s') g' => Q r s' g') g.

Section Rules.
Context {S G : Type} (P : protocol G).

Lemma wpM_mono {E A} (m : M S E A) Q Q' s g :
  wpM P m Q s g -> (forall r s g, Q r s g -> Q' r s g) -> wpM P m Q' s g.
Proof. intros H HQ. eapply wp_mono; [exact H|]. intros [r s'] g'. apply HQ. Qed.

Lemma wpM_ret {E A} (a : A) (Q : result E A -> S -> G -> Prop) s g :
  Q (Ok a) s g -> wpM P (ret a) Q s g.
Proof. done. Qed.
Lemma wpM_throw {E A} (e : E) (Q : result E A -> S -> G -> Prop) s g :
  Q (Err e) s g -> wpM P (throw e) Q s g.
Proof. done. Qed.
Lemma wpM_lift {E A} (r : result E A) (Q : result E A -> S -> G -> Prop) s g :
  Q r s g -> wpM P (lift r) Q s g.
Proof. done. Qed.
Lemma wpM_get {E} (Q : result E S -> S -> G -> Prop) s g : Q (Ok s) s g -> wpM P get Q s g.
Proof. done. Qed.
Lemma wpM_put {E} s0 (Q : result E unit -> S -> G -> Prop) s g :
  Q (Ok tt) s0 g -> wpM P (put s0) Q s g.
Proof. done. Qed.

Lemma wpM_call {E} a (Q : result E (resp a) -> S -> G -> Prop) s g :
  permitted P a g -> (forall x g', answers P a g x g' -> Q (Ok x) s g') -> wpM P (call a) Q s g.
Proof. done. Qed.

Lemma wpM_bind {E A B} (m : M S E A) (f : A -> M S E B) Q s g :
  wpM P m (fun r s' g' =>
    match r with Ok a => wpM P (f a) Q s' g' | Err e => Q (Err e) s' g' end) s g ->
  wpM P (mbind m f) Q s g.
Proof.
  intros H. apply wp_bind. eapply wp_mono; [exact H|]. by intros [[a|e] s'] g'.
Qed.

Lemma wpM_map_err {E E' A} (f : E -> E') (m : M S E A) Q s g :
  wpM P m (fun r s' g' => Q (result_map_err f r) s' g') s g -> wpM P (map_err f m) Q s g.
Proof. intros H. apply wp_bind. eapply wp_mono; [exact H|]. by intros [r s'] g'. Qed.

Lemma wpM_attempt {E E' A} (m : M S E A) (Q : result E' (result E A) -> S -> G -> Prop) s g :
  wpM P m (fun r s' g' => Q (Ok r) s' g') s g -> wpM P (attempt m) Q s g.
Proof. intros H. apply wp_bind. eapply wp_mono; [exact H|]. by intros [r s'] g'. Qed.

Lemma wpM_defer {E A} cleanup (m : M S E A) Q s g :
  wpM P m (fun r s' g' => wpM P cleanup (fun _ s'' g'' => Q r s'' g'') s' g') s g ->
  wpM P (defer cleanup m) Q s g.
Proof.
  intros H. apply wp_bind. eapply wp_mono; [exact H|]. intros [r s'] g' Hc.
  apply wp_bind. eapply wp_mono; [exact Hc|]. by intros [r' s''] g''.
Qed.

Lemma wpM_on_error {E A} cleanup (m : M S E A) Q s g :
  wpM P m (fun r s' g' =>
    match r with
    | Ok a => Q (Ok a) s' g'
    | Err e => wpM P cleanup (fun _ s'' g'' => Q (Err e) s'' g'') s' g'
    end) s g ->
  wpM P (on_error cleanup m) Q s g.
Proof.
  intros H. apply wp_bind. eapply wp_mono; [exact H|]. intros [[a|e] s'] g' Hc; [done|].
  apply wp_bind. eapply wp_mono; [exact Hc|]. by intros [r' s''] g''.
Qed.
End Rules.

(** *** Calls of functions *)
Definition mcalls {S E A} (P : act -> Prop) (m : M S E A) : Prop := forall s, calls P (m s).

Section CallRules.
Context {S : Type} (P : act -> Prop).

Lemma mcalls_ret {E A} (a : A) : mcalls (S:=S) (E:=E) P (ret a). Proof. done. Qed.
Lemma mcalls_throw {E A} (e : E) : mcalls (S:=S) (A:=A) P (throw e). Proof. done. Qed.
Lemma mcalls_lift {E A} (r : result E A) : mcalls (S:=S) P (lift r). Proof. done. Qed.
Lemma mcalls_get {E} : mcalls (S:=S) (E:=E) P get. Proof. done. Qed.
Lemma mcalls_put {E} s : mcalls (S:=S) (E:=E) P (put s). Proof. done. Qed.
Lemma mcalls_panic {E A} m : mcalls (S:=S) (E:=E) (A:=A) P (panic m). Proof. done. Qed.
Lemma mcalls_out_of_fuel {E A} : mcalls (S:=S) (E:=E) (A:=A) P out_of_fuel. Proof. done. Qed.
Lemma mcalls_call {E} a : P a -> mcalls (S:=S) (E:=E) P (call a). Proof. done. Qed.

Lemma mcalls_bind {E A B} (m : M S E A) (f : A -> M S E B) :
  mcalls P m -> (forall a, mcalls P (f a)) -> mcalls P (mbind m f).
Proof. intros Hm Hf s. apply calls_bind; [apply Hm|]. intros [[a|e] s']; [apply Hf|done]. Qed.
Lemma mcalls_map_err {E E' A} (f : E -> E') (m : M S E A) :
  mcalls P m -> mcalls P (map_err f m).
Proof. intros Hm s. apply calls_bind; [apply Hm|]. by intros [r s']. Qed.
Lemma mcalls_attempt {E E' A} (m : M S E A) :
  mcalls P m -> mcalls (E:=E') P (attempt m).
Proof. intros Hm s. apply calls_bind; [apply Hm|]. by intros [r s']. Qed.
Lemma mcalls_defer {E A} cleanup (m : M S E A) :
  mcalls P cleanup -> mcalls P m -> mcalls P (defer cleanup m).
Proof.
  intros Hc Hm s. apply calls_bind; [apply Hm|]. intros [r s'].
  apply calls_bind; [apply Hc|]. by intros [r' s''].
Qed.
Lemma mcalls_on_error {E A} cleanup (m : M S E A) :
  mcalls P cleanup -> mcalls P m -> mcalls P (on_error cleanup m).
Proof.
  intros Hc Hm s. apply calls_bind; [apply Hm|]. intros [[a|e] s']; [done|].
  apply calls_bind; [apply Hc|]. by intros [r' s''].
Qed.
Lemma mcalls_for_each {E A} (f : A -> M S E unit) l :
  (forall x, mcalls P (f x)) -> mcalls P (for_each f l).
Proof. intros Hf. induction l; simpl; [done|]. by apply mcalls_bind. Qed.
End CallRules.

(** *** Tame functions do not touch the in-process state *)
Definition mtame {S E A} (C : act -> Prop) (h : Prop) (m : M S E A) : Prop :=
  forall s, tame C h (fun '(_, s') => s' = s) (m s).

Section TameRules.
Context {S : Type} (C : act -> Prop) (h : Prop).
Lemma mtame_ret {E A} (a : A) : mtame (S:=S) (E:=E) C h (ret a). Proof. done. Qed.
Lemma mtame_throw {E A} (e : E) : mtame (S:=S) (A:=A) C h (throw e). Proof. done. Qed.
Lemma mtame_lift {E A} (r : result E A) : mtame (S:=S) C h (lift r). Proof. done. Qed.
Lemma mtame_get {E} : mtame (S:=S) (E:=E) C h get. Proof. done. Qed.
Lemma mtame_panic {E A} m : h -> mtame (S:=S) (E:=E) (A:=A) C h (panic m). Proof. by intros Hh s. Qed.
Lemma mtame_out_of_fuel {E A} : h -> mtame (S:=S) (E:=E) (A:=A) C h out_of_fuel.
Proof. by intros Hh s. Qed.
Lemma mtame_call {E} a : C a -> mtame (S:=S) (E:=E) C h (call a). Proof. done. Qed.
Lemma mtame_bind {E A B} (m : M S E A) (f : A -> M S E B) :
  mtame C h m -> (forall a, mtame C h (f a)) -> mtame C h (mbind m f).
Proof.
  intros Hm Hf s. eapply tame_bind; [apply Hm|]. intros [[a|e] s'] ->; [apply Hf|done].
Qed.
Lemma mtame_map_err {E E' A} (f : E -> E') (m : M S E A) : mtame C h m -> mtame C h (map_err f m).
Proof. intros Hm s. eapply tame_bind; [apply Hm|]. by intros [r s'] ->. Qed.
Lemma mtame_attempt {E E' A} (m : M S E A) : mtame C h m -> mtame (E:=E') C h (attempt m).
Proof. intros Hm s. eapply tame_bind; [apply Hm|]. by intros [r s'] ->. Qed.
Lemma mtame_defer {E A} cleanup (m : M S E A) :
  mtame C h cleanup -> mtame C h m -> mtame C h (defer cleanup m).
Proof.
  intros Hc Hm s. eapply tame_bind; [apply Hm|]. intros [r s'] ->.
  eapply tame_bind; [apply Hc|]. by intros [r' s''] ->.
Qed.
Lemma mtame_on_error {E A} cleanup (m : M S E A) :
  mtame C h cleanup -> mtame C h m -> mtame C h (on_error cleanup m).
Proof.
  intros Hc Hm s. eapply tame_bind; [apply Hm|]. intros [[a|e] s'] ->; [done|].
  eapply tame_bind; [apply Hc|]. by intros [r' s''] ->.
Qed.
Lemma mtame_for_each {E A} (f : A -> M S E unit) l :
  (forall x, mtame C h (f x)) -> mtame C h (for_each f l).
Proof. intros Hf. induction l; simpl; [done|]. by apply mtame_bind. Qed.

Lemma wpM_tame {G E A} (P : protocol G) (le : G -> G -> Prop) `{!PreOrder le} (m : M S E A) s g :
  (forall a g, C a -> permitted P a g) -> (forall a g x g', C a -> answers P a g x g' -> le g g') ->
  (h -> may_halt P) -> mtame C h m -> wpM P m (fun _ s' g' => s' = s /\ le g g') s g.
Proof.
  intros Hp Ha Hh Hm. eapply wp_mono; [by eapply wp_tame; [..|apply Hm]|]. by intros [r s'] g'.
Qed.
Lemma mtame_calls {E A} (m : M S E A) : mtame C h m -> mcalls C m.
Proof. intros Hm s. eapply tame_calls, Hm. Qed.
End TameRules.

(** *** Functions under a monitor *)
Section MonitorRules.
Context {S : Type}.
Lemma wpM_project {G G' E A} (ok : act -> G -> Prop) see (see' : forall a, resp a -> G' -> G') (f : G -> G')
    (C : act -> Prop) (m : M S E A) Q s g :
  (forall a x g, f (see a x g) = see' a x (f g)) -> (forall a g, C a -> ok a g) -> mcalls C m ->
  wpM (observer see') m Q s (f g) -> wpM (monitor ok see) m (fun r s' g' => Q r s' (f g')) s g.
Proof.
  intros Hf Hok Hc Hw. eapply wp_mono; [by eapply wp_project; [..|apply Hc|exact Hw]|].
  by intros [r s'] g'.
Qed.
Lemma wpM_keeps {G E A} (P : protocol G) (C : act -> Prop) (I : G -> Prop) (m : M S E A) s g :
  (forall a g, C a -> I g -> permitted P a g) ->
  (forall a g x g', C a -> I g -> answers P a g x g' -> I g') ->
  may_halt P -> mcalls C m -> I g -> wpM P m (fun _ _ g' => I g') s g.
Proof.
  intros Hp Ha Hh Hc Hi. eapply wp_mono; [by eapply wp_keeps; [..|apply Hc|exact Hi]|].
  by intros [r s'] g'.
Qed.
Lemma wpM_and {G E A} (P : protocol G) (m : M S E A) Q Q' s g :
  wpM P m Q s g -> wpM P m Q' s g -> wpM P m (fun r s' g' => Q r s' g' /\ Q' r s' g') s g.
Proof.
  intros H H'. eapply wp_mono; [by apply (wp_and _ _ _ _ _ H H')|]. by intros [r s'] g'.
Qed.
End MonitorRules.

(** *** Errors of functions *)
Definition merrors {S E A} (Q : E -> Prop) (m : M S E A) : Prop :=
  forall s, returns (fun '(r, _) => match r with Err e => Q e | Ok _ => True end) (m s).

Section ErrorRules.
Context {S : Type}.
Lemma merrors_ret {E A} Q (a : A) : merrors (S:=S) (E:=E) Q (ret a). Proof. done. Qed.
Lemma merrors_throw {E A} (Q : E -> Prop) e : Q e -> merrors (S:=S) (A:=A) Q (throw e). Proof. by intros H s. Qed.
Lemma merrors_lift {E A} (Q : E -> Prop) (r : result E A) :
  (forall e, r = Err e -> Q e) -> merrors (S:=S) Q (lift r).
Proof. intros Hr s. destruct r; simpl; [done|by apply Hr]. Qed.
Lemma merrors_call {E} Q a : merrors (S:=S) (E:=E) Q (call a). Proof. done. Qed.
Lemma merrors_bind {E A B} Q (m : M S E A) (f : A -> M S E B) :
  merrors Q m -> (forall a, merrors Q (f a)) -> merrors Q (mbind m f).
Proof. intros Hm Hf s. eapply returns_bind; [apply Hm|]. intros [[a|e] s'] He; [apply Hf|done]. Qed.
Lemma merrors_bind_attempt {E E' A B} Q Q' (m : M S E A) (f : result E A -> M S E' B) :
  merrors Q m -> (forall r, (forall e, r = Err e -> Q e) -> merrors Q' (f r)) ->
  merrors Q' (mbind (attempt m) f).
Proof.
  intros Hm Hf s.
  eapply (returns_bind (fun '(r, _) =>
    match r with Ok (Err e) => Q e | Ok (Ok _) => True | Err _ => False end)).
  - eapply returns_bind; [apply Hm|]. by intros [[a|e] s'] He.
  - intros [[[a|e]|e] s'] He; simpl; [by apply Hf| |done]. apply Hf. by intros e' [= <-].
Qed.
Lemma merrors_attempt {E E' A} Q (m : M S E A) : merrors (E:=E') Q (attempt m).
Proof.
  intros s. eapply (returns_bind (fun _ => True)); [|by intros [r s']].
  induction (m s); simpl; auto.
Qed.
Lemma merrors_map_err {E E' A} (Q : E' -> Prop) (f : E -> E') (m : M S E A) :
  merrors (fun e => Q (f e)) m -> merrors Q (map_err f m).
Proof. intros Hm s. eapply returns_bind; [apply Hm|]. by intros [[a|e] s']. Qed.
Lemma merrors_defer {E A} Q cleanup (m : M S E A) : merrors Q m -> merrors Q (defer cleanup m).
Proof.
  intros Hm s. eapply returns_bind; [apply Hm|]. intros [r s'] He.
  eapply (returns_bind (fun _ => True)); [|by intros [r' s'']]. induction (cleanup s'); simpl; auto.
Qed.
Lemma merrors_on_error {E A} Q cleanup (m : M S E A) : merrors Q m -> merrors Q (on_error cleanup m).
Proof.
  intros Hm s. eapply returns_bind; [apply Hm|]. intros [[a|e] s'] He; [done|].
  eapply (returns_bind (fun _ => True)); [|by intros [r' s'']]. induction (cleanup s'); simpl; auto.
Qed.
Lemma merrors_mono {E A} (Q Q' : E -> Prop) (m : M S E A) :
  (forall e, Q e -> Q' e) -> merrors Q m -> merrors Q' m.
Proof.
  intros HQ Hm s. specialize (Hm s). revert Hm. generalize (m s). intros p.
  induction p as [[[a|e] s']|a k IH|h]; simpl; auto.
Qed.
Lemma wpM_errors {G E A} (P : protocol G) (Q : E -> Prop) (m : M S E A) Q' s g :
  merrors Q m -> wpM P m Q' s g ->
  wpM P m (fun r s' g' => (forall e, r = Err e -> Q e) /\ Q' r s' g') s g.
Proof.
  intros Hm Hw. eapply wp_mono; [apply wp_returns; [apply Hm|exact Hw]|].
  intros [r s'] g' [He HQ]. split; [by intros e ->|done].
Qed.
End ErrorRules.

(** *** Values of functions *)
Definition mvalues {S E A} (Q : A -> Prop) (m : M S E A) : Prop :=
  forall s, returns (fun '(r, _) => match r with Ok a => Q a | Err _ => True end) (m s).

Section ValueRules.
Context {S : Type}.
Lemma mvalues_ret {E A} (Q : A -> Prop) a : Q a -> mvalues (S:=S) (E:=E) Q (ret a).
Proof. by intros H s. Qed.
Lemma mvalues_throw {E A} (Q : A -> Prop) (e : E) : mvalues (S:=S) Q (throw e).
Proof. done. Qed.
Lemma mvalues_lift {E A} (Q : A -> Prop) (r : result E A) :
  (forall a, r = Ok a -> Q a) -> mvalues (S:=S) Q (lift r).
Proof. destruct r as [a|e]; intros H s; [by apply H|done]. Qed.
Lemma mvalues_any {E A} (m : M S E A) : mvalues (fun _ => True) m.
Proof. intros s. induction (m s) as [[[a|e] s']|a k IH|h]; simpl; auto. Qed.
Lemma mvalues_bind {E A B} (Q : A -> Prop) (Q' : B -> Prop) (m : M S E A) (f : A -> M S E B) :
  mvalues Q m -> (forall a, Q a -> mvalues Q' (f a)) -> mvalues Q' (mbind m f).
Proof.
  intros Hm Hf s. eapply returns_bind; [apply Hm|]. intros [[a|e] s'] Ha; [by apply Hf|done].
Qed.
Lemma mvalues_then {E A B} (Q : B -> Prop) (m : M S E A) (f : A -> M S E B) :
  (forall a, mvalues Q (f a)) -> mvalues Q (mbind m f).
Proof. intros Hf. eapply mvalues_bind; [apply mvalues_any|]. by intros a _. Qed.
Lemma mvalues_on_error {E A} (Q : A -> Prop) cleanup (m : M S E A) :
  mvalues Q m -> mvalues Q (on_error cleanup m).
Proof.
  intros Hm s. eapply returns_bind; [apply Hm|]. intros [[a|e] s'] Ha; [done|].
  eapply (returns_bind (fun _ => True)); [|by intros [r' s'']].
  induction (cleanup s') as [?|? k IH|?]; simpl; auto.
Qed.
End ValueRules.
End Programs.

Arguments Ret {Σ R} r.
Arguments Call {Σ R} a k.
Arguments Halt {Σ R} h.
Arguments Done {R} r.
Arguments Halted {R} h.
Arguments Protocol {Σ G} permitted answers may_halt.
Arguments permitted {Σ G} p a g.
Arguments answers {Σ G} p a g x g'.
Arguments may_halt {Σ G} p.

Notation "'let*' x := m 'in' k" := (mbind m (fun x => k))
  (at level 10, x binder, m at level 100, k at level 200) : winprofile_scope.
Notation "'do*' m 'in' k" := (mbind m (fun _ => k))
  (at level 10, m at level 100, k at level 200) : winprofile_scope.

(** [mcalls_step] takes a program apart; the specifications of the functions
    it calls are in the hint database [calls]. *)
Create HintDb calls discriminated.
#[export] Hint Resolve mcalls_ret mcalls_throw mcalls_lift mcalls_get mcalls_put mcalls_panic
  mcalls_out_of_fuel : calls.

Ltac mcalls_step :=
  first
    [ match goal with |- forall _, _ => intros ? end
    | progress (autounfold with calls)
    | apply mcalls_bind
    | apply mcalls_map_err
    | apply mcalls_attempt
    | apply mcalls_defer
    | apply mcalls_on_error
    | apply mcalls_for_each
    | match goal with |- mcalls _ (match ?x with _ => _ end) => destruct x end
    | match goal with |- @mcalls ?Σ ?S ?E _ ?P (@call _ _ _ ?a) =>
        refine (@mcalls_call Σ S P E a _) end ].
Ltac solve_calls := repeat first [ solve [eauto 2 with calls] | mcalls_step ]; try done.

(** [wp_step] applies the rule of the head of the program; a call leaves its
    permission and the answers the protocol allows. *)
Ltac wp_call :=
  lazymatch goal with
  | |- @wpM ?Σ ?S ?G ?E _ ?P (@call _ _ _ ?a) ?Q ?s ?g =>
      refine (@wpM_call Σ S G P E a Q s g _ _)
  end.
Ltac wp_step :=
  cbv beta;
  first
    [ apply wpM_ret | apply wpM_throw | apply wpM_lift | apply wpM_get | apply wpM_put
    | apply wpM_bind | apply wpM_map_err | apply wpM_attempt | apply wpM_defer
    | apply wpM_on_error | wp_call ].

(** [solve_tame] proves that a function without loops and panics is tame. *)
Create HintDb tame discriminated.
#[export] Hint Resolve mtame_ret mtame_throw mtame_lift mtame_get mtame_panic mtame_out_of_fuel : tame.
Ltac tame_step :=
  first
    [ match goal with |- forall _, _ => intros ? end
    | apply mtame_bind | apply mtame_map_err | apply mtame_attempt | apply mtame_defer
    | apply mtame_on_error | apply mtame_for_each
    | match goal with |- mtame _ _ (match ?x with _ => _ end) => destruct x end
    | match goal with |- @mtame ?Σ ?S ?E _ ?C ?h (@call _ _ _ ?a) =>
        refine (@mtame_call Σ S C h E a _) end ].
Ltac solve_tame := repeat first [ solve [eauto 4 with tame] | tame_step ]; try done.

(** [solve_errors] proves what the errors of a function may be; the goals it
    leaves are about the errors the function throws. *)
Create HintDb errors discriminated.
#[export] Hint Resolve merrors_ret merrors_attempt : errors.
Ltac errors_step :=
  first
    [ match goal with |- forall _, _ => intros ? end
    | apply merrors_throw
    | apply merrors_bind | apply merrors_map_err | apply merrors_defer | apply merrors_on_error
    | match goal with |- merrors _ (match ?x with _ => _ end) => destruct x end
    | match goal with |- @merrors ?Σ ?S ?E _ ?Q (@call _ _ _ ?a) => exact (@merrors_call Σ S E Q a) end ].
Ltac solve_errors := repeat first [ solve [eauto 2 with errors] | errors_step ]; try done.
