(* ===== verification/I18n.v ===== *)
(** * I18n: the embedded translation bundles (core-profiles/src/i18n.rs)

    The two JSON bundles are parsed by [serde_json], which is not code of the
    repository: [parse_json] is a parameter.  The active locale is the atomic
    byte [CURRENT_LOCALE], an argument of the functions that read it. *)

From stdpp Require Import base list gmap sorting strings.
From S2P Require Import Prelude Text.

Definition ENGLISH_LOCALE : str := $"en".
Definition FRENCH_LOCALE : str := $"fr".

Inductive I18nError : Type :=
| InvalidBundle (locale reason : str)
| KeyParity (only_en only_fr : list str)
| UnsupportedLocale (locale : str).

Abbreviation bundle := (gmap (list Z) (list Z)).
Record I18nManager : Type := { locales : gmap (list Z) bundle }.

(** The order of a [BTreeSet<String>]. *)
Definition str_order (a b : str) : Prop := str_le a b = true.
#[export] Instance str_order_dec : RelDecision str_order.
Proof. intros a b. unfold str_order. apply _. Defined.
Definition sorted_strings (s : gset (list Z)) : list str :=
  merge_sort str_order (elements s).

(** [I18nManager::set_locale]: the new value of [CURRENT_LOCALE]. *)
Definition set_locale (locale : str) : result I18nError Z :=
  if str_eqb locale ENGLISH_LOCALE then Ok 0%Z
  else if str_eqb locale FRENCH_LOCALE then Ok 1%Z
  else Err (UnsupportedLocale locale).

Definition get_locale (current : Z) : str :=
  if Z.eqb current 1 then FRENCH_LOCALE else ENGLISH_LOCALE.

Definition lookup_bundle (m : I18nManager) (locale key : str) : option str :=
  b ← locales m !! locale; b !! key.

Definition translate (m : I18nManager) (current : Z) (key : str) : str :=
  match lookup_bundle m (get_locale current) key with
  | Some text => text
  | None =>
      match lookup_bundle m ENGLISH_LOCALE key with
      | Some text => text
      | None => $"[missing:" ++ key ++ $"]"
      end
  end.

(** [translate_args]: the placeholders are replaced in the order of [args]. *)
Definition placeholder (parameter : str) : str := $"{" ++ parameter ++ $"}".
Definition translate_args (m : I18nManager) (current : Z) (key : str)
    (args : list (str * str)) : str :=
  foldl (fun template '(parameter, value) => replace (placeholder parameter) value template)
    (translate m current key) args.

(** [keys]: the sorted keys of the English bundle. *)
Definition keys (m : I18nManager) : list str :=
  match locales m !! ENGLISH_LOCALE with
  | Some b => sorted_strings (dom b)
  | None => []
  end.

Section Build.
Context (parse_json : str -> result str bundle).

Definition parse_bundle (locale json : str) : result I18nError bundle :=
  result_map_err (fun reason => InvalidBundle locale reason) (parse_json json).

Definition build (en_json fr_json : str) : result I18nError I18nManager :=
  let? en := parse_bundle ($"en") en_json in
  let? fr := parse_bundle ($"fr") fr_json in
  let en_keys : gset (list Z) := dom en in
  let fr_keys : gset (list Z) := dom fr in
  if bool_decide (en_keys = fr_keys)
  then Ok {| locales := list_to_map [($"en", en); ($"fr", fr)] |}
  else Err (KeyParity (sorted_strings (en_keys ∖ fr_keys)) (sorted_strings (fr_keys ∖ en_keys))).
End Build.

(** [t] and [t_args] on the [OnceLock] instance; [show] renders the error. *)
Definition t (show : I18nError -> str) (instance : result I18nError I18nManager)
    (current : Z) (key : str) : str :=
  match instance with
  | Ok m => translate m current key
  | Err e => $"[i18n:" ++ show e ++ $"]"
  end.
Definition t_args (show : I18nError -> str) (instance : result I18nError I18nManager)
    (current : Z) (key : str) (args : list (str * str)) : str :=
  match instance with
  | Ok m => translate_args m current key args
  | Err e => $"[i18n:" ++ show e ++ $"]"
  end.

(** ** Language tags *)

Definition is_well_formed_language_tag (tag : str) : bool :=
  match split_char DASH tag with
  | [] => false
  | primary :: parts =>
      if negb ((2 <=? str_len primary)%Z && (str_len primary <=? 8)%Z)
         || negb (forallb is_ascii_alphabetic primary)
      then false
      else forallb (fun part => negb (is_empty part) && (str_len part <=? 8)%Z
                                && forallb is_ascii_alphanumeric part) parts
  end.

Fixpoint first_supported (tags : list str) : str :=
  match tags with
  | [] => ENGLISH_LOCALE
  | tag :: tags' =>
      let primary := hd [] (split_char DASH tag) in
      if eq_ignore_ascii_case primary FRENCH_LOCALE then FRENCH_LOCALE
      else if eq_ignore_ascii_case primary ENGLISH_LOCALE then ENGLISH_LOCALE
      else first_supported tags'
  end.

Definition resolve_supported_locale (tags : list str) : str :=
  if existsb (fun tag => negb (is_well_formed_language_tag tag)) tags then ENGLISH_LOCALE
  else first_supported tags.

Example resolve_fr : resolve_supported_locale [$"fr-CA"; $"en-US"] = FRENCH_LOCALE.
Proof. reflexivity. Qed.
Example resolve_bad : resolve_supported_locale [$"fr-CA"; $"bad_tag"] = ENGLISH_LOCALE.
Proof. reflexivity. Qed.

(** ** Properties *)

(** What the resolver promises, as a relation: the first tag with a supported
    primary subtag decides, provided every tag is well formed. *)
Definition primary_is (locale tag : str) : Prop :=
  eq_ignore_ascii_case (hd [] (split_char DASH tag)) locale = true.

Lemma first_supported_fr tags :
  first_supported tags = FRENCH_LOCALE <->
  exists before tag after, tags = before ++ tag :: after /\ primary_is FRENCH_LOCALE tag /\
    Forall (fun u => ~ primary_is FRENCH_LOCALE u /\ ~ primary_is ENGLISH_LOCALE u) before.
Proof.
  induction tags as [|tag tags IH]; simpl.
  { split; [done|]. by intros ([|? ?] & ? & ? & ? & _). }
  destruct (eq_ignore_ascii_case _ FRENCH_LOCALE) eqn:Hfr.
  { split; [|done]. intros _. by exists [], tag, tags. }
  destruct (eq_ignore_ascii_case _ ENGLISH_LOCALE) eqn:Hen.
  - split; [done|]. intros ([|u before] & v & after & Heq & Hv & Hb).
    + injection Heq as <- _. unfold primary_is in Hv. congruence.
    + injection Heq as <- _. inversion Hb as [|? ? [_ Hu] _]; subst. by destruct Hu.
  - rewrite IH. split.
    + intros (before & v & after & -> & Hv & Hb). exists (tag :: before), v, after.
      split; [done|]. split; [done|]. constructor; [|done].
      unfold primary_is. split; congruence.
    + intros ([|u before] & v & after & Heq & Hv & Hb).
      * injection Heq as <- _. unfold primary_is in Hv. congruence.
      * injection Heq as <- ->. exists before, v, after. by inversion Hb.
Qed.

Lemma malformed_exists tags :
  existsb (fun tag => negb (is_well_formed_language_tag tag)) tags = false <->
  Forall (fun tag => is_well_formed_language_tag tag = true) tags.
Proof.
  induction tags as [|tag tags IH]; simpl; [by split|].
  rewrite orb_false_iff, negb_false_iff, IH. by rewrite Forall_cons.
Qed.

(** French is chosen exactly when every tag of the list is well formed and
    the first tag whose primary subtag is French or English is French. *)
Theorem resolve_supported_locale_french (tags : list str) :
  resolve_supported_locale tags = FRENCH_LOCALE <->
  Forall (fun tag => is_well_formed_language_tag tag = true) tags /\
  exists before tag after, tags = before ++ tag :: after /\ primary_is FRENCH_LOCALE tag /\
    Forall (fun u => ~ primary_is FRENCH_LOCALE u /\ ~ primary_is ENGLISH_LOCALE u) before.
Proof.
  unfold resolve_supported_locale. rewrite <- malformed_exists, <- first_supported_fr.
  destruct (existsb _ tags); naive_solver.
Qed.

Lemma build_spec parse en_json fr_json m :
  build parse en_json fr_json = Ok m ->
  exists en fr : bundle, parse en_json = Ok en /\ parse fr_json = Ok fr /\
    dom en = dom fr /\ locales m !! $"en" = Some en /\ locales m !! $"fr" = Some fr.
Proof.
  unfold build, parse_bundle, result_bind. intros H.
  destruct (parse en_json) as [en|] eqn:Hen; simpl in H; [|done].
  destruct (parse fr_json) as [fr|] eqn:Hfr; simpl in H; [|done].
  case_bool_decide as Hk; [|done]. injection H as <-. exists en, fr.
  by repeat split.
Qed.

(** A manager that was built translates every key of either bundle, in
    both locales, by the text of that locale's bundle; the missing-key
    fallback is never shown. *)
Theorem built_manager_translates (parse : str -> result str bundle) en_json fr_json m current key
    (Hbuild : build parse en_json fr_json = Ok m)
    (Hkey : is_Some (lookup_bundle m ENGLISH_LOCALE key) \/
            is_Some (lookup_bundle m FRENCH_LOCALE key)) :
  lookup_bundle m (get_locale current) key = Some (translate m current key).
Proof.
  apply build_spec in Hbuild as (en & fr & _ & _ & Hdom & Hen & Hfr).
  assert (is_Some (en !! key) /\ is_Some (fr !! key)) as [[te Hte] [tf Htf]].
  { unfold lookup_bundle, ENGLISH_LOCALE, FRENCH_LOCALE in Hkey.
    rewrite Hen, Hfr in Hkey. simpl in Hkey.
    rewrite <- !elem_of_dom, <- Hdom, elem_of_dom in *. tauto. }
  assert (lookup_bundle m (get_locale current) key = Some (if Z.eqb current 1 then tf else te)) as Hl.
  { unfold lookup_bundle, get_locale. destruct (Z.eqb current 1);
      unfold FRENCH_LOCALE, ENGLISH_LOCALE; [rewrite Hfr|rewrite Hen]; simpl; done. }
  unfold translate. by rewrite Hl.
Qed.

Definition sample_parse (json : str) : result str bundle :=
  if str_eqb json ($"E") then Ok {[ $"k" := $"yes" ]} else Ok {[ $"k" := $"oui" ]}.

Lemma built_manager_translates_witness :
  exists m, build sample_parse ($"E") ($"F") = Ok m /\
    lookup_bundle m (get_locale 1) ($"k") = Some (translate m 1 ($"k")) /\
    translate m 1 ($"k") = $"oui".
Proof.
  eexists. split; [reflexivity|]. split; [|reflexivity].
  apply (built_manager_translates sample_parse ($"E") ($"F")); [reflexivity|].
  left. vm_compute. eauto.
Defined.
