(* ===== verification/Models.v ===== *)
(** * Models: profiles, anomalies, plans (core-profiles/src/models.rs and
    constants.rs) *)

From stdpp Require Import base list strings.
From S2P Require Import Prelude Text.

(** ** Constants *)
Definition REG_KEY_PROFILE_LIST : str :=
  $"SOFTWARE\Microsoft\Windows NT\CurrentVersion\ProfileList".
Definition VAL_PROFILE_IMAGE_PATH : str := $"ProfileImagePath".
Definition VAL_STATE : str := $"State".
Definition VAL_REF_COUNT : str := $"RefCount".
Definition VAL_GUID : str := $"Guid".
Definition STATE_TEMP_PROFILE : Z := 128.
Definition BAK_EXTENSION : str := $".bak".
Definition NTUSER_DAT : str := $"NTUSER.DAT".
Definition USRCLASS_DAT_REL_PATH : str := $"AppData\Local\Microsoft\Windows\UsrClass.dat".
Definition APPDATA_ROAMING_REL_PATH : str := $"AppData\Roaming".
Definition SYSTEM_SID_PREFIXES : list str := [$"S-1-5-18"; $"S-1-5-19"; $"S-1-5-20"].

(** ** Anomalies and health *)
Inductive ProfileAnomaly : Type :=
| BakSuffix
| TempSession
| OrphanSid
| PathCollision (path : str)
| DirtyStateMask (mask : Z)
| LockedNtUserDat (processes : list str)
| MissingDirectory (path : str)
| RegistryReadFailure (details : str)
| SidResolutionFailure (details : str)
| FilesystemScanFailure (details : str)
| LockInspectionFailure (details : str).

#[export] Instance ProfileAnomaly_eq_dec : EqDecision ProfileAnomaly.
Proof. solve_decision. Defined.

(** [localized_description] is [t] of this key. *)
Definition description_key (a : ProfileAnomaly) : str :=
  match a with
  | BakSuffix => $"profile.status.bak_suffix"
  | TempSession => $"profile.status.temp_session"
  | OrphanSid => $"profile.status.orphan_sid"
  | PathCollision _ => $"profile.status.path_collision"
  | DirtyStateMask _ => $"profile.status.dirty_state"
  | LockedNtUserDat _ => $"profile.status.hive_locked"
  | MissingDirectory _ => $"profile.status.missing_directory"
  | RegistryReadFailure _ => $"profile.status.registry_read_failure"
  | SidResolutionFailure _ => $"profile.status.sid_resolution_failure"
  | FilesystemScanFailure _ => $"profile.status.filesystem_scan_failure"
  | LockInspectionFailure _ => $"profile.status.lock_inspection_failure"
  end.
Definition localized_description (t : str -> str) (a : ProfileAnomaly) : str :=
  t (description_key a).

Inductive ProfileHealth : Type := Healthy | Warning | Corrupted.
#[export] Instance ProfileHealth_eq_dec : EqDecision ProfileHealth.
Proof. solve_decision. Defined.

Record UserProfile : Type := {
  sid : str;
  canonical_sid : str;
  username : str;
  domain : str;
  profile_path : str;
  loaded : bool;
  is_bak : bool;
  state_mask : Z;
  ref_count : Z;
  guid : option str;
  ntuser_exists : bool;
  usrclass_exists : bool;
  disk_size_bytes : Z;
  anomalies : list ProfileAnomaly;
  health : ProfileHealth;
}.

Definition set_health (h : ProfileHealth) (p : UserProfile) : UserProfile :=
  {| sid := sid p; canonical_sid := canonical_sid p; username := username p;
     domain := domain p; profile_path := profile_path p; loaded := loaded p;
     is_bak := is_bak p; state_mask := state_mask p; ref_count := ref_count p;
     guid := guid p; ntuser_exists := ntuser_exists p; usrclass_exists := usrclass_exists p;
     disk_size_bytes := disk_size_bytes p; anomalies := anomalies p; health := h |}.
Definition push_anomaly (a : ProfileAnomaly) (p : UserProfile) : UserProfile :=
  {| sid := sid p; canonical_sid := canonical_sid p; username := username p;
     domain := domain p; profile_path := profile_path p; loaded := loaded p;
     is_bak := is_bak p; state_mask := state_mask p; ref_count := ref_count p;
     guid := guid p; ntuser_exists := ntuser_exists p; usrclass_exists := usrclass_exists p;
     disk_size_bytes := disk_size_bytes p; anomalies := anomalies p ++ [a]; health := health p |}.

Definition corrupting (a : ProfileAnomaly) : bool :=
  match a with BakSuffix | TempSession | PathCollision _ => true | _ => false end.

(** [UserProfile::compute_health]. *)
Definition compute_health (p : UserProfile) : UserProfile :=
  if is_bak p || existsb corrupting (anomalies p) then set_health Corrupted p
  else if negb (is_empty (anomalies p)) then set_health Warning p
  else set_health Healthy p.

(** ** Reports and plans *)
Record DiagnosticReport : Type := {
  timestamp : Z;
  total_count : nat;
  healthy_count : nat;
  warning_count : nat;
  corrupted_count : nat;
  temporary_count : nat;
  profiles : list UserProfile;
}.

Definition has_consistent_health_counts (r : DiagnosticReport) : bool :=
  Nat.eqb (total_count r) (healthy_count r + warning_count r + corrupted_count r).

Record RepairPlan : Type := {
  rp_sid : str;
  rp_canonical_sid : str;
  rp_profile_path : str;
  fix_bak : bool;
  reset_state : bool;
  unlock_hive : bool;
  dry_run : bool;
}.

Record MigrationPlan : Type := {
  source_sid : str;
  source_path : str;
  target_path : str;
  include_roaming_appdata : bool;
  include_personal_folders : bool;
}.

(** ** Progress of a migration (core-profiles/src/migration.rs) *)
Inductive MigrationPhase : Type := Enumerating | Copying | Verifying | Finalizing | RollingBack.

Record MigrationProgress : Type := {
  phase : MigrationPhase;
  relative_path : option str;
  completed_files : nat;
  progress_bytes : Z;
}.

(** ** Lemmas *)
Lemma compute_health_spec p :
  health (compute_health p) = Corrupted <->
  is_bak p = true \/ exists a, a ∈ anomalies p /\ corrupting a = true.
Proof.
  unfold compute_health. destruct (is_bak p) eqn:Hb; simpl; [naive_solver|].
  destruct (existsb corrupting (anomalies p)) eqn:He; simpl.
  - apply existsb_exists in He as (a & Ha & Hc). apply list_elem_of_In in Ha. naive_solver.
  - split; [by destruct (is_empty (anomalies p))|].
    intros [?|(a & Ha & Hc)]; [done|]. apply not_true_iff_false in He. destruct He.
    apply existsb_exists. exists a. by rewrite <- list_elem_of_In.
Qed.

Lemma compute_health_healthy p :
  health (compute_health p) = Healthy <-> is_bak p = false /\ anomalies p = [].
Proof.
  unfold compute_health. destruct (is_bak p); simpl; [naive_solver|].
  destruct (anomalies p) as [|a l]; simpl; [naive_solver|].
  destruct (corrupting a || existsb corrupting l); simpl; naive_solver.
Qed.

Lemma compute_health_anomalies p : anomalies (compute_health p) = anomalies p.
Proof. unfold compute_health. by repeat case_match. Qed.
Lemma compute_health_path p : profile_path (compute_health p) = profile_path p.
Proof. unfold compute_health. by repeat case_match. Qed.
