(* ===== verification/Win32.v ===== *)
(** * Win32: the calls the program makes

    One constructor per operating-system call (Win32, NT, the clock, the
    [std::fs] operations on an open [File]) and per callback, with the type of
    its answer.  No answer is assumed: the calls are the parameter of the whole
    development.  Handles, pids and status codes are integers; a null handle
    is 0 and [INVALID_HANDLE_VALUE] is -1. *)

From stdpp Require Import base list strings.
From S2P Require Import Prelude Text Effects Models.

(** ** Status codes and constants of the Windows headers *)
Definition ERROR_SUCCESS : Z := 0.
Definition ERROR_FILE_NOT_FOUND : Z := 2.
Definition ERROR_NO_MORE_FILES : Z := 18.
Definition ERROR_INSUFFICIENT_BUFFER : Z := 122.
Definition ERROR_MORE_DATA : Z := 234.
Definition ERROR_NO_MORE_ITEMS : Z := 259.
Definition ERROR_SERVICE_ALREADY_RUNNING : Z := 1056.
Definition ERROR_NOT_ALL_ASSIGNED : Z := 1300.

Definition STATUS_SHARING_VIOLATION : Z := -1073741757.
Definition STATUS_OBJECT_NAME_NOT_FOUND : Z := -1073741772.
Definition STATUS_OBJECT_NAME_COLLISION : Z := -1073741771.
Definition STATUS_OBJECT_PATH_NOT_FOUND : Z := -1073741766.
Definition STATUS_FILE_IS_A_DIRECTORY : Z := -1073741638.
Definition STATUS_NOT_A_DIRECTORY : Z := -1073741565.

Definition KEY_READ : Z := 131097.
Definition KEY_ALL_ACCESS : Z := 983103.
Definition REG_SZ : Z := 1.
Definition REG_EXPAND_SZ : Z := 2.
Definition REG_DWORD : Z := 4.
Definition REG_LATEST_FORMAT : Z := 2.
Definition REG_OPTION_NON_VOLATILE : Z := 0.
Definition REG_FORCE_RESTORE : Z := 8.

Definition FILE_ATTRIBUTE_DIRECTORY : Z := 16.
Definition FILE_ATTRIBUTE_NORMAL : Z := 128.
Definition FILE_ATTRIBUTE_REPARSE_POINT : Z := 1024.
Definition FILE_SHARE_READ : Z := 1.
Definition FILE_SHARE_WRITE : Z := 2.
Definition FILE_SHARE_DELETE : Z := 4.
Definition FILE_LIST_DIRECTORY : Z := 1.
Definition FILE_ADD_FILE : Z := 2.
Definition FILE_ADD_SUBDIRECTORY : Z := 4.
Definition FILE_TRAVERSE : Z := 32.
Definition FILE_DELETE_CHILD : Z := 64.
Definition FILE_READ_ATTRIBUTES : Z := 128.
Definition DELETE : Z := 65536.
Definition READ_CONTROL : Z := 131072.
Definition SYNCHRONIZE : Z := 1048576.
Definition FILE_GENERIC_READ : Z := 1179785.
Definition FILE_GENERIC_WRITE : Z := 1179926.
Definition FILE_ALL_ACCESS : Z := 2032127.
Definition FILE_OPEN : Z := 1.
Definition FILE_CREATE : Z := 2.
Definition FILE_OPEN_IF : Z := 3.
Definition FILE_DIRECTORY_FILE : Z := 1.
Definition FILE_SYNCHRONOUS_IO_NONALERT : Z := 32.
Definition FILE_NON_DIRECTORY_FILE : Z := 64.
Definition FILE_OPEN_FOR_BACKUP_INTENT : Z := 16384.
Definition FILE_OPEN_REPARSE_POINT : Z := 2097152.
Definition FILE_FLAG_OPEN_REPARSE_POINT : Z := 2097152.
Definition FILE_FLAG_BACKUP_SEMANTICS : Z := 33554432.
Definition MOVEFILE_WRITE_THROUGH : Z := 8.

Definition SE_PRIVILEGE_ENABLED : Z := 2.
Definition TOKEN_QUERY : Z := 8.
Definition TOKEN_ADJUST_PRIVILEGES : Z := 32.

(** Bitwise or of flags. *)
Notation "a '.|' b" := (Z.lor a b) (at level 50, left associativity) : winprofile_scope.
Definition has_flag (flags flag : Z) : bool := negb (Z.eqb (Z.land flags flag) 0).

(** ** [std::io::Error] *)
Inductive io_error : Type :=
| IoOs (code : Z)
| IoOther (message : str).
Definition raw_os_error (e : io_error) : option Z :=
  match e with IoOs code => Some code | IoOther _ => None end.

(** Pure functions of other code: the system message of an error code
    ([FormatMessageW]), the Unicode lower-casing tables of [str::to_lowercase],
    [std::fmt::Debug] of a string, and [chrono]'s formats of a UTC time. *)
Class Extern : Type := {
  os_message : Z -> str;
  to_lowercase : str -> str;
  debug_str : str -> str;
  format_compact : Z -> str; (* "%Y%m%dT%H%M%S%.6fZ" *)
  timestamp_micros : Z -> Z;
}.
Definition show_io_error `{Extern} (e : io_error) : str :=
  match e with
  | IoOs code => os_message code ++ $" (os error " ++ dec_signed code ++ $")"
  | IoOther message => message
  end.

(** ** Answers *)
Record query_answer : Type := {
  q_status : Z; q_type : Z; q_bytes : list Z; q_size : Z }.
Record enum_answer : Type := { e_status : Z; e_buffer : wide; e_length : Z }.
Record token_privileges : Type := { tp_count : Z; tp_luid : Z; tp_attributes : Z }.
Record handle_information : Type := {
  hi_attributes : Z; hi_volume_serial : Z; hi_index_high : Z; hi_index_low : Z }.
Record nt_answer : Type := { nt_status : Z; nt_handle : Z; nt_information : Z }.
Record rm_process : Type := {
  rm_process_id : Z; rm_app_name : wide; rm_service_name : wide;
  rm_app_type : Z; rm_restartable : Z }.
Record rm_list_answer : Type := {
  rm_status : Z; rm_needed : Z; rm_count : Z; rm_infos : list rm_process }.
Record metadata : Type := { md_attributes : Z; md_is_dir : bool; md_is_file : bool; md_len : Z }.
Record ace : Type := { ace_type : Z; ace_flags : Z; ace_mask : Z; ace_sid : Z }.
Record security_info : Type := {
  si_status : Z; si_owner : Z; si_dacl : Z; si_descriptor : Z }.
Record service_status : Type := {
  ss_state : Z; ss_win32_exit_code : Z; ss_service_exit_code : Z; ss_process_id : Z }.
Record process_information : Type := { pi_process : Z; pi_thread : Z; pi_process_id : Z }.

(** ** Calls *)
Inductive sys : Type :=
(* the registry *)
| RegOpenKeyExW (root : Z) (subkey : wide) (sam : Z)
| RegCreateKeyExW (parent : Z) (subkey : wide) (options sam : Z)
| RegCloseKey (hkey : Z)
| RegQueryValueExW (hkey : Z) (name : wide) (capacity : option Z)
| RegSetValueExW (hkey : Z) (name : wide) (type : Z) (data : list Z)
| RegDeleteValueW (hkey : Z) (name : wide)
| RegDeleteTreeW (hkey : Z) (subkey : wide)
| RegRenameKey (hkey : Z) (old new : wide)
| RegEnumKeyExW (hkey : Z) (index : Z) (capacity : Z)
| RegSaveKeyExW (hkey : Z) (path : wide) (format : Z)
| RegRestoreKeyW (hkey : Z) (path : wide) (flags : Z)
| RegLoadKeyW (root : Z) (subkey path : wide)
| RegUnLoadKeyW (root : Z) (subkey : wide)
| ExpandEnvironmentStringsW (source : wide) (capacity : option Z)
| GetLastError
| SetLastError (code : Z)
(* tokens, accounts, security *)
| OpenProcessToken (process access : Z)
| LookupPrivilegeValueW (name : wide)
| AdjustTokenPrivileges (token : Z) (new_state : token_privileges) (want_previous : bool)
| GetTokenElevation (token : Z)
| GetFileAttributesW (path : wide)
| ConvertStringSidToSidW (sid : wide)
| LookupAccountSidW (sid : Z) (capacities : option (Z * Z))
| LocalFree (pointer : Z)
(* Restart Manager *)
| RmStartSession
| RmRegisterResources (session : Z) (path : wide)
| RmGetList (session : Z) (capacity : Z)
| RmEndSession (session : Z)
| RmShutdown (session flags : Z)
(* locale *)
| GetUserPreferredUILanguages (capacity : option Z) (units : Z)
(* files by handle *)
| NtCreateFile (parent : Z) (name : wide) (access share disposition options attributes : Z)
    (descriptor : Z)
| CreateFileW (path : wide) (access share flags : Z)
| GetFileInformationByHandle (handle : Z)
| GetFileAttributeTagInfo (handle : Z)
| GetFileIdInfo (handle : Z)
| GetDirectoryInfo (handle : Z) (restart : bool) (capacity : Z)
| SetFileDisposition (handle : Z)
| NtSetRenameInformation (handle target_parent : Z) (name : wide) (replace : Z)
| DuplicateHandle (handle : Z)
| CloseHandle (handle : Z)
| MoveFileExW (source target : wide) (flags : Z)
| GetSecurityInfo (handle : Z)
| GetSecurityDescriptorControl (descriptor : Z)
| EqualSid (first second : Z)
| GetAclAceCount (dacl : Z)
| GetAce (dacl index : Z)
| ParseSecurityDescriptor (sddl : wide)
| SHGetKnownFolderPath
| CoTaskMemFree (pointer : Z)
(* an open [std::fs::File] *)
| FileRead (handle capacity : Z)
| FileSeekRead (handle capacity offset : Z)
| FileWriteAll (handle : Z) (data : list Z)
| FileFlush (handle : Z)
| FileSyncAll (handle : Z)
| FileSyncData (handle : Z)
| FileSeekStart (handle offset : Z)
| FileSeekEnd (handle : Z)
| FileLength (handle : Z)
(* [std::path] and [std::fs] by name *)
| PathTryExists (path : wide)
| PathIsDir (path : wide)
| PathIsFile (path : wide)
| SymlinkMetadata (path : wide)
| ReadDir (path : wide)
(* clock, process, randomness *)
| UtcNow
| ProcessId
| InstantNow
| InstantElapsedMs (start : Z)
| ThreadSleepMs (ms : Z)
| BCryptGenRandom (count : Z)
(* CNG hashing *)
| BCryptOpenSha256
| BCryptGetObjectLength (algorithm : Z)
| BCryptCreateHash (algorithm object_length : Z)
| BCryptHashData (hash : Z) (data : list Z)
| BCryptFinishHash (hash : Z)
| BCryptDestroyHash (hash : Z)
| BCryptCloseAlgorithm (algorithm : Z)
(* processes, sessions and services *)
| OpenProcess (access pid : Z)
| DuplicateTokenEx (token access level type : Z)
| CreateToolhelp32Snapshot (flags : Z)
| Process32FirstW (snapshot : Z)
| Process32NextW (snapshot : Z)
| ProcessIdToSessionId (pid : Z)
| WTSQuerySessionInformationW (session class : Z)
| WTSFreeMemory (pointer : Z)
| OpenSCManagerW (access : Z)
| OpenServiceW (manager : Z) (name : wide) (access : Z)
| StartServiceW (service : Z)
| QueryServiceStatusEx (service : Z)
| CloseServiceHandle (handle : Z)
| GetSystemDirectoryW (capacity : Z)
| CreateEnvironmentBlock (token : Z)
| DestroyEnvironmentBlock (block : Z)
| CreateProcessWithTokenW (token logon_flags : Z) (application command_line : wide)
    (flags environment : Z) (directory : wide)
| TerminateProcess (process exit_code : Z)
| WaitForSingleObject (handle timeout : Z)
| FsCanonicalize (path : wide)
(* callbacks of the caller, and the log of the process *)
| OnProgress (progress : MigrationProgress)
| IsCancelled
| TracingError (message : str).

Definition sys_resp (a : sys) : Type :=
  match a with
  | RegOpenKeyExW _ _ _ | RegCreateKeyExW _ _ _ _ => Z * Z
  | RegQueryValueExW _ _ _ => query_answer
  | RegSetValueExW _ _ _ _ | RegDeleteValueW _ _ | RegDeleteTreeW _ _ | RegRenameKey _ _ _
  | RegSaveKeyExW _ _ _ | RegRestoreKeyW _ _ _ | RegLoadKeyW _ _ _ | RegUnLoadKeyW _ _ => Z
  | RegEnumKeyExW _ _ _ => enum_answer
  | ExpandEnvironmentStringsW _ _ => Z * wide
  | GetLastError => Z
  | RegCloseKey _ | SetLastError _ | LocalFree _ | RmEndSession _ | CloseHandle _
  | CoTaskMemFree _ | ThreadSleepMs _ | BCryptDestroyHash _ | BCryptCloseAlgorithm _
  | OnProgress _ | TracingError _ => unit
  | OpenProcessToken _ _ | LookupPrivilegeValueW _ | ConvertStringSidToSidW _
  | DuplicateHandle _ | ParseSecurityDescriptor _ => bool * Z
  | AdjustTokenPrivileges _ _ _ => bool * token_privileges
  | GetTokenElevation _ => bool * Z
  | GetFileAttributesW _ => Z
  | LookupAccountSidW _ _ => bool * (wide * Z) * (wide * Z)
  | RmStartSession => Z * Z
  | RmRegisterResources _ _ | RmShutdown _ _ => Z
  | RmGetList _ _ => rm_list_answer
  | GetUserPreferredUILanguages _ _ => bool * Z * wide * Z
  | NtCreateFile _ _ _ _ _ _ _ _ => nt_answer
  | CreateFileW _ _ _ _ => Z
  | GetFileInformationByHandle _ => option handle_information
  | GetFileAttributeTagInfo _ => option Z
  | GetFileIdInfo _ => option (Z * list Z)
  | GetDirectoryInfo _ _ _ => option (list Z)
  | SetFileDisposition _ | MoveFileExW _ _ _ => bool
  | NtSetRenameInformation _ _ _ _ => Z
  | GetSecurityInfo _ => security_info
  | GetSecurityDescriptorControl _ => option Z
  | EqualSid _ _ => bool
  | GetAclAceCount _ => option Z
  | GetAce _ _ => option ace
  | SHGetKnownFolderPath => Z * Z * wide
  | FileRead _ _ | FileSeekRead _ _ _ => result io_error (list Z)
  | FileWriteAll _ _ | FileFlush _ | FileSyncAll _ | FileSyncData _ | FileSeekStart _ _
  | FileSeekEnd _ => result io_error unit
  | FileLength _ => result io_error Z
  | PathTryExists _ => result io_error bool
  | PathIsDir _ | PathIsFile _ | IsCancelled => bool
  | SymlinkMetadata _ => result io_error metadata
  | ReadDir _ => result io_error (list (result io_error wide))
  | UtcNow | ProcessId | InstantNow | InstantElapsedMs _ => Z
  | BCryptGenRandom _ => Z * list Z
  | BCryptOpenSha256 => Z * Z
  | BCryptGetObjectLength _ => Z * Z * Z
  | BCryptCreateHash _ _ => Z * Z
  | BCryptHashData _ _ => Z
  | BCryptFinishHash _ => Z * list Z
  | OpenProcess _ _ | CreateToolhelp32Snapshot _ | OpenSCManagerW _ | OpenServiceW _ _ _
  | WaitForSingleObject _ _ => Z
  | DuplicateTokenEx _ _ _ _ | ProcessIdToSessionId _ | CreateEnvironmentBlock _ => bool * Z
  | Process32FirstW _ | Process32NextW _ => option (wide * Z)
  | WTSQuerySessionInformationW _ _ => bool * Z * Z * Z
  | WTSFreeMemory _ | CloseServiceHandle _ | DestroyEnvironmentBlock _ => unit
  | StartServiceW _ | TerminateProcess _ _ => bool
  | QueryServiceStatusEx _ => option service_status
  | GetSystemDirectoryW _ => Z * wide
  | CreateProcessWithTokenW _ _ _ _ _ _ _ => bool * process_information
  | FsCanonicalize _ => result io_error wide
  end.

#[export] Instance sys_signature : Signature := {| act := sys; resp := sys_resp |}.

(** ** Classes of calls *)

(** Calls that change the registry (closing a key and reading do not). *)
Definition mutates_registry (a : sys) : bool :=
  match a with
  | RegCreateKeyExW _ _ _ _ | RegSetValueExW _ _ _ _ | RegDeleteValueW _ _ | RegDeleteTreeW _ _
  | RegRenameKey _ _ _ | RegRestoreKeyW _ _ _ | RegLoadKeyW _ _ _ | RegUnLoadKeyW _ _ => true
  | _ => false
  end.

(** ** [io::Error::last_os_error] *)
Definition last_os_error {S E} : M S E io_error :=
  let* code := call GetLastError in ret (IoOs code).

Lemma mcalls_last_os_error {S E} (P : sys -> Prop) :
  P GetLastError -> mcalls P (last_os_error (S:=S) (E:=E)).
Proof. intros H. unfold last_os_error. by solve_calls. Qed.
#[export] Hint Resolve mcalls_last_os_error : calls.

Lemma tame_calls_of {S E A} (P : sys -> Prop) (m : M S E A) : mtame P True m -> mcalls P m.
Proof. apply mtame_calls. Qed.

Definition any_call (a : sys) : Prop := True.
Lemma mcalls_any {S E A} (m : M S E A) : mcalls any_call m.
Proof. intros s. induction (m s) as [r|a k IH|h]; simpl; [done|by split|done]. Qed.

(** A concrete [Extern], for evaluating definitions on examples. *)
Definition sample_extern : Extern := {|
  os_message := fun code => $"error " ++ dec code;
  to_lowercase := to_ascii_lowercase;
  debug_str := fun s => [QUOTE] ++ s ++ [QUOTE];
  format_compact := fun time => dec time;
  timestamp_micros := fun time => time |}.
