(* ===== verification/Registry.v ===== *)
(** * Registry: the registry wrapper (platform-win32/src/registry.rs) *)

From stdpp Require Import base list strings.
From S2P Require Import Prelude Text Effects Models Win32.

Inductive RegistryError : Type :=
| Win32Error (code : Z)
| ValueNotFound (name : str)
| UnexpectedValueType (value : str) (expected actual : Z)
| InvalidUtf16
| EnvironmentExpansionFailed (code : Z)
| InvalidPath
| RegIoError (e : io_error).

Definition show_RegistryError `{Extern} (e : RegistryError) : str :=
  match e with
  | Win32Error code => $"Registry operation failed with Win32 error code: " ++ dec code
  | ValueNotFound name => $"Registry value '" ++ name ++ $"' not found"
  | UnexpectedValueType value expected actual =>
      $"Registry value '" ++ value ++ $"' has type " ++ dec actual ++ $", expected " ++ dec expected
  | InvalidUtf16 => $"Invalid UTF-16 registry data"
  | EnvironmentExpansionFailed code =>
      $"Environment expansion failed with Win32 error code: " ++ dec code
  | InvalidPath => $"Registry key path cannot be converted to wide string"
  | RegIoError e => $"IO error: " ++ show_io_error e
  end.

Inductive RegistryRoot : Type := LocalMachine | CurrentUser | Users | ClassesRoot | CurrentConfig.

Definition HKEY_CLASSES_ROOT : Z := -2147483648.
Definition HKEY_CURRENT_USER : Z := -2147483647.
Definition HKEY_LOCAL_MACHINE : Z := -2147483646.
Definition HKEY_USERS : Z := -2147483645.
Definition HKEY_CURRENT_CONFIG : Z := -2147483643.

Definition root_as_raw (r : RegistryRoot) : Z :=
  match r with
  | LocalMachine => HKEY_LOCAL_MACHINE
  | CurrentUser => HKEY_CURRENT_USER
  | Users => HKEY_USERS
  | ClassesRoot => HKEY_CLASSES_ROOT
  | CurrentConfig => HKEY_CURRENT_CONFIG
  end.

(** ** Wide strings *)
Definition wide_null (w : wide) : wide := w ++ [0%Z].
Definition to_wide_null (s : str) : wide := wide_null (encode_utf16 s).

Definition is_nul (u : Z) : bool := Z.eqb u 0.
Definition from_wide_null (slice : wide) : result RegistryError str :=
  let len := default (length slice) (position is_nul slice) in
  match from_utf16 (take len slice) with
  | Some s => Ok s
  | None => Err InvalidUtf16
  end.

(** Little-endian bytes of a [u32], and back; a buffer of [n] zeroed bytes
    after a call has written [bytes] at its start. *)
Definition u32_le (n : Z) : list Z :=
  [n mod 256; (n / 256) mod 256; (n / 65536) mod 256; (n / 16777216) mod 256]%Z.
Definition le_u32 (bytes : list Z) : Z := foldr (fun b n => b + 256 * n)%Z 0%Z bytes.
Definition written_over (n : nat) (bytes : list Z) : list Z :=
  take n bytes ++ repeat 0%Z (n - length bytes).
Fixpoint units_of_bytes (bytes : list Z) : wide :=
  match bytes with
  | lo :: hi :: rest => (lo + 256 * hi)%Z :: units_of_bytes rest
  | _ => []
  end.
Definition bytes_of_units (units : wide) : list Z :=
  flat_map (fun u => [u mod 256; u / 256]%Z) units.

Section Registry.
Context {S : Type} `{Fuel}.

(** [OwnedHKey::drop]. *)
Definition predefined_root (hkey : Z) : bool :=
  bool_decide (hkey ∈ [HKEY_LOCAL_MACHINE; HKEY_CURRENT_USER; HKEY_USERS; HKEY_CLASSES_ROOT;
                       HKEY_CURRENT_CONFIG]).
Definition close_key {E} (hkey : Z) : M S E unit :=
  if Z.eqb hkey 0 || predefined_root hkey then ret tt else call (RegCloseKey hkey).
Definition using_key {E A} (open : M S E Z) (body : Z -> M S E A) : M S E A :=
  let* hkey := open in defer (close_key hkey) (body hkey).

(** [OwnedHKey::from_raw] on a successful status. *)
Definition owned_key (status hkey : Z) : result RegistryError Z :=
  if Z.eqb status ERROR_SUCCESS
  then (if Z.eqb hkey 0 then Err (Win32Error status) else Ok hkey)
  else Err (Win32Error status).

Definition open_key_raw (root : Z) (subkey : str) (sam : Z) : M S RegistryError Z :=
  let* '(status, hkey) := call (RegOpenKeyExW root (to_wide_null subkey) sam) in
  lift (owned_key status hkey).
Definition open_key (root : RegistryRoot) (subkey : str) (sam : Z) : M S RegistryError Z :=
  open_key_raw (root_as_raw root) subkey sam.
Definition open_subkey (parent : Z) (subkey : str) (sam : Z) : M S RegistryError Z :=
  open_key_raw parent subkey sam.

Definition create_key (parent : Z) (subkey : str) (sam : Z) : M S RegistryError Z :=
  let* '(status, hkey) :=
    call (RegCreateKeyExW parent (to_wide_null subkey) REG_OPTION_NON_VOLATILE sam) in
  lift (owned_key status hkey).

Definition query_value_u32 (hkey : Z) (value_name : str) : M S RegistryError Z :=
  let* answer := call (RegQueryValueExW hkey (to_wide_null value_name) (Some 4%Z)) in
  if Z.eqb (q_status answer) ERROR_SUCCESS then
    if Z.eqb (q_type answer) REG_DWORD then ret (le_u32 (written_over 4 (q_bytes answer)))
    else throw (UnexpectedValueType value_name REG_DWORD (q_type answer))
  else if Z.eqb (q_status answer) ERROR_FILE_NOT_FOUND then throw (ValueNotFound value_name)
  else throw (Win32Error (q_status answer)).

(** [expand_environment_string_with], each turn of its loop one unit of fuel. *)
Fixpoint expand_loop (turns : nat) (source : wide) (required : Z) : M S RegistryError str :=
  match turns with
  | O => out_of_fuel
  | Datatypes.S turns' =>
      let* '(written, buffer) := call (ExpandEnvironmentStringsW source (Some required)) in
      if Z.eqb written 0 then
        let* code := call GetLastError in throw (EnvironmentExpansionFailed code)
      else if (required <? written)%Z then expand_loop turns' source written
      else lift (from_wide_null (written_over (Z.to_nat required) buffer))
  end.
Definition expand_environment_string (value : str) : M S RegistryError str :=
  let source := to_wide_null value in
  let* '(required, _) := call (ExpandEnvironmentStringsW source None) in
  if Z.eqb required 0 then
    let* code := call GetLastError in throw (EnvironmentExpansionFailed code)
  else expand_loop fuel source required.

Definition decode_registry_string (value_type : Z) (buffer : wide) : M S RegistryError str :=
  let* value := lift (from_wide_null buffer) in
  if Z.eqb value_type REG_EXPAND_SZ then expand_environment_string value else ret value.

(** The type that decides the decoding is the one the second query returns. *)
Definition query_value_string (hkey : Z) (value_name : str) : M S RegistryError str :=
  let name := to_wide_null value_name in
  let* first := call (RegQueryValueExW hkey name None) in
  if negb (Z.eqb (q_status first) ERROR_SUCCESS) then
    if Z.eqb (q_status first) ERROR_FILE_NOT_FOUND then throw (ValueNotFound value_name)
    else throw (Win32Error (q_status first))
  else if negb (Z.eqb (q_type first) REG_SZ) && negb (Z.eqb (q_type first) REG_EXPAND_SZ) then
    throw (UnexpectedValueType value_name REG_SZ (q_type first))
  else
    let u16_len := Z.to_nat ((q_size first + 1) / 2) in
    let* second := call (RegQueryValueExW hkey name (Some (q_size first))) in
    if negb (Z.eqb (q_status second) ERROR_SUCCESS) then throw (Win32Error (q_status second))
    else decode_registry_string (q_type second)
           (units_of_bytes (written_over (2 * u16_len) (q_bytes second))).

Definition status_result (status : Z) : result RegistryError unit :=
  if Z.eqb status ERROR_SUCCESS then Ok tt else Err (Win32Error status).
(** Deleting what is not there succeeds. *)
Definition delete_result (status : Z) : result RegistryError unit :=
  if Z.eqb status ERROR_SUCCESS || Z.eqb status ERROR_FILE_NOT_FOUND then Ok tt
  else Err (Win32Error status).

Definition set_value_u32 (hkey : Z) (value_name : str) (val : Z) : M S RegistryError unit :=
  let* status := call (RegSetValueExW hkey (to_wide_null value_name) REG_DWORD (u32_le val)) in
  lift (status_result status).
Definition set_value_string (hkey : Z) (value_name val : str) : M S RegistryError unit :=
  let* status := call (RegSetValueExW hkey (to_wide_null value_name) REG_SZ
                         (bytes_of_units (to_wide_null val))) in
  lift (status_result status).
Definition delete_value (hkey : Z) (value_name : str) : M S RegistryError unit :=
  let* status := call (RegDeleteValueW hkey (to_wide_null value_name)) in
  lift (delete_result status).
Definition delete_tree (hkey : Z) (subkey : str) : M S RegistryError unit :=
  let* status := call (RegDeleteTreeW hkey (to_wide_null subkey)) in
  lift (delete_result status).
Definition rename_subkey (hkey : Z) (old_name new_name : str) : M S RegistryError unit :=
  let* status := call (RegRenameKey hkey (to_wide_null old_name) (to_wide_null new_name)) in
  lift (status_result status).

Definition subkey_exists (hkey : Z) (subkey : str) : M S RegistryError bool :=
  let* r := attempt (open_subkey hkey subkey KEY_READ) in
  match r with
  | Ok k => do* close_key k in ret true
  | Err (Win32Error 2%Z) => ret false
  | Err e => throw e
  end.

Definition NAME_BUFFER_UNITS : Z := 256.
Fixpoint enum_loop (turns : nat) (hkey index : Z) (results : list str) : M S RegistryError (list str) :=
  match turns with
  | O => out_of_fuel
  | Datatypes.S turns' =>
      let* answer := call (RegEnumKeyExW hkey index NAME_BUFFER_UNITS) in
      if Z.eqb (e_status answer) ERROR_SUCCESS then
        if (NAME_BUFFER_UNITS <? e_length answer + 1)%Z
        then panic ($"range end index out of range")
        else
          let* key_name := lift (from_wide_null (take (Z.to_nat (e_length answer + 1)) (e_buffer answer))) in
          enum_loop turns' hkey (index + 1) (results ++ [key_name])
      else if Z.eqb (e_status answer) ERROR_NO_MORE_ITEMS then ret results
      else throw (Win32Error (e_status answer))
  end.
Definition enum_subkeys (hkey : Z) : M S RegistryError (list str) := enum_loop fuel hkey 0 [].

Definition save_key (hkey : Z) (target_file : wide) : M S RegistryError unit :=
  let* status := call (RegSaveKeyExW hkey (wide_null target_file) REG_LATEST_FORMAT) in
  lift (status_result status).
Definition load_hive (root : RegistryRoot) (subkey : str) (hive_path : wide) : M S RegistryError unit :=
  let* status := call (RegLoadKeyW (root_as_raw root) (to_wide_null subkey) (wide_null hive_path)) in
  lift (status_result status).
Definition unload_hive (root : RegistryRoot) (subkey : str) : M S RegistryError unit :=
  let* status := call (RegUnLoadKeyW (root_as_raw root) (to_wide_null subkey)) in
  lift (status_result status).

(** ** Which calls the wrappers make *)

(** Reading the registry: opening, querying, enumerating, closing. *)
Definition reads_registry (a : sys) : bool :=
  match a with
  | RegOpenKeyExW _ _ _ | RegCloseKey _ | RegQueryValueExW _ _ _ | RegEnumKeyExW _ _ _
  | ExpandEnvironmentStringsW _ _ | GetLastError => true
  | _ => false
  end.
End Registry.

Lemma written_over_full n bytes : length bytes = n -> written_over n bytes = bytes.
Proof. intros <-. unfold written_over. by rewrite firstn_all, Nat.sub_diag, app_nil_r. Qed.

(** The read-only wrappers make only reading calls, whatever the answers: one
    lemma per wrapper, each an instance of this hypothesis on the class of
    calls a client allows. *)
Section ReadOnly.
Context {S : Type} `{Fuel} (P : sys -> Prop) (HP : forall a, reads_registry a = true -> P a).

Lemma mcalls_close_key {E} hkey : mcalls P (close_key (S:=S) (E:=E) hkey).
Proof. unfold close_key. by solve_calls. Qed.
Lemma mcalls_open_key_raw root subkey sam : mcalls P (open_key_raw (S:=S) root subkey sam).
Proof. unfold open_key_raw. by solve_calls. Qed.
Lemma mcalls_open_key root subkey sam : mcalls P (open_key (S:=S) root subkey sam).
Proof. apply mcalls_open_key_raw. Qed.
Lemma mcalls_open_subkey parent subkey sam : mcalls P (open_subkey (S:=S) parent subkey sam).
Proof. apply mcalls_open_key_raw. Qed.
Lemma mcalls_query_value_u32 hkey name : mcalls P (query_value_u32 (S:=S) hkey name).
Proof. unfold query_value_u32. by solve_calls. Qed.
Lemma mcalls_expand_loop n source required : mcalls P (expand_loop (S:=S) n source required).
Proof. revert required. induction n; intros; simpl; by solve_calls. Qed.
Lemma mcalls_query_value_string hkey name : mcalls P (query_value_string (S:=S) hkey name).
Proof.
  unfold query_value_string, decode_registry_string, expand_environment_string.
  solve_calls; try (by apply HP). apply mcalls_expand_loop.
Qed.
Lemma mcalls_subkey_exists hkey name : mcalls P (subkey_exists (S:=S) hkey name).
Proof.
  unfold subkey_exists. apply mcalls_bind; [apply mcalls_attempt, mcalls_open_subkey|].
  intros [k|e]; [|by repeat case_match].
  apply mcalls_bind; [apply mcalls_close_key|by intros ?].
Qed.
Lemma mcalls_enum_subkeys hkey : mcalls P (enum_subkeys (S:=S) hkey).
Proof.
  unfold enum_subkeys. generalize 0%Z as index, (@nil str) as results.
  induction (fuel : nat); intros; simpl; by solve_calls.
Qed.
Lemma mcalls_using_key {E A} (open : M S E Z) (body : Z -> M S E A) :
  mcalls P open -> (forall k, mcalls P (body k)) -> mcalls P (using_key open body).
Proof.
  intros Ho Hb. apply mcalls_bind; [done|]. intros k.
  apply mcalls_defer; [apply mcalls_close_key|done].
Qed.
End ReadOnly.

(** ** Properties *)

Lemma position_nul_wide_null w :
  Forall (fun u => is_nul u = false) w -> position is_nul (wide_null w) = Some (length w).
Proof. intros Hw. by apply position_app_hit. Qed.

(** Decoding an encoded string gives the string back, for every string of
    Unicode scalar values without NUL. *)
Theorem from_to_wide_null (s : str) (Hs : Forall scalar s) (Hn : Forall (fun c => c <> 0%Z) s) :
  from_wide_null (to_wide_null s) = Ok s.
Proof.
  unfold from_wide_null, to_wide_null.
  rewrite position_nul_wide_null by (by apply encode_utf16_no_nul). simpl.
  unfold wide_null. rewrite take_app_length. by rewrite from_encode_utf16.
Qed.

Lemma from_to_wide_null_witness :
  from_wide_null (to_wide_null [70; 233; 128512]%Z) = Ok [70; 233; 128512]%Z.
Proof.
  apply (from_to_wide_null [70; 233; 128512]%Z); repeat constructor; unfold scalar; lia.
Defined.

Lemma le_u32_le (n : Z) : (0 <= n <= u32_max)%Z -> le_u32 (u32_le n) = n.
Proof.
  unfold u32_max, le_u32, u32_le. intros Hn. cbn [foldr].
  replace (n / 65536)%Z with (n / 256 / 256)%Z by (by rewrite Z.div_div).
  replace (n / 16777216)%Z with (n / 256 / 256 / 256)%Z by (by rewrite !Z.div_div).
  rewrite (Z.mod_small (n / 256 / 256 / 256) 256).
  - pose proof (Z.div_mod n 256). pose proof (Z.div_mod (n / 256) 256).
    pose proof (Z.div_mod (n / 256 / 256) 256). lia.
  - rewrite !Z.div_div by lia. split; [apply Z.div_pos; lia|apply Z.div_lt_upper_bound; lia].
Qed.
