(* ===== verification/Security.v ===== *)
(** * Security: privileges, accounts, lock inspection, UI languages

    platform-win32/src/security.rs, handles.rs, restart_manager.rs and
    locale.rs. *)

From stdpp Require Import base list gmap strings.
From S2P Require Import Prelude Text Effects Models Win32 Registry.

(** ** Owned handles (handles.rs) *)
Definition INVALID_HANDLE_VALUE : Z := -1.
Definition CURRENT_PROCESS : Z := -1.

Definition OwnedHandle_from_raw (raw : Z) : option Z :=
  if Z.eqb raw 0 || Z.eqb raw INVALID_HANDLE_VALUE then None else Some raw.

(** [OwnedHandle::drop], and the scope of a handle. *)
Definition close_handle {S E} (handle : Z) : M S E unit :=
  if negb (Z.eqb handle 0) && negb (Z.eqb handle INVALID_HANDLE_VALUE)
  then call (CloseHandle handle) else ret tt.
Definition using_handle {S E A} (handle : Z) (body : M S E A) : M S E A :=
  defer (close_handle handle) body.

Definition from_raw_checked {S} (raw : Z) : M S io_error Z :=
  match OwnedHandle_from_raw raw with
  | Some handle => ret handle
  | None => let* e := last_os_error in throw e
  end.
Definition try_clone {S} (handle : Z) : M S io_error Z :=
  let* '(duplicated, duplicate) := call (DuplicateHandle handle) in
  if negb duplicated then let* e := last_os_error in throw e
  else from_raw_checked duplicate.

(** ** Errors *)
Inductive SecurityError : Type :=
| SecWin32Error (code : Z)
| PrivilegeNotAssigned (name : str)
| SidResolutionError (details : str).

Definition show_SecurityError (e : SecurityError) : str :=
  match e with
  | SecWin32Error code => $"Security operation failed with Win32 error code: " ++ dec code
  | PrivilegeNotAssigned name => $"Privilege '" ++ name ++ $"' could not be adjusted or assigned"
  | SidResolutionError details => $"Failed to resolve SID: " ++ details
  end.

Definition SE_TAKE_OWNERSHIP_NAME : str := $"SeTakeOwnershipPrivilege".
Definition SE_RESTORE_NAME : str := $"SeRestorePrivilege".
Definition SE_BACKUP_NAME : str := $"SeBackupPrivilege".
Definition SE_DEBUG_NAME : str := $"SeDebugPrivilege".
Definition SE_IMPERSONATE_NAME : str := $"SeImpersonatePrivilege".
Definition SE_TCB_NAME : str := $"SeTcbPrivilege".

Definition last_error {S A} : M S SecurityError A :=
  let* code := call GetLastError in throw (SecWin32Error code).

(** ** [PrivilegeGuard] *)
Record PrivilegeGuard : Type := { token : Z; previous_states : list token_privileges }.

Section Privileges.
Context {S : Type}.

Fixpoint restore_states {E} (token : Z) (states : list token_privileges)
    (first_error : option SecurityError) : M S E (option SecurityError) :=
  match states with
  | [] => ret first_error
  | previous_state :: states' =>
      do* call (SetLastError ERROR_SUCCESS) in
      let* '(restored, _) := call (AdjustTokenPrivileges token previous_state false) in
      let* last_error := call GetLastError in
      let first_error :=
        if (negb restored || Z.eqb last_error ERROR_NOT_ALL_ASSIGNED) && bool_decide (first_error = None)
        then Some (SecWin32Error last_error) else first_error in
      restore_states token states' first_error
  end.
Definition restore_privileges (token : Z) (states : list token_privileges) : M S SecurityError unit :=
  let* first_error := restore_states token (rev states) None in
  match first_error with Some error => throw error | None => ret tt end.

(** [PrivilegeGuard::drop]: the states, then the token handle. *)
Definition drop_guard {E} (g : PrivilegeGuard) : M S E unit :=
  let* r := attempt (restore_privileges (token g) (previous_states g)) in
  do* match r with
      | Err _ => call (TracingError ($"Failed to restore token privileges during cleanup"))
      | Ok _ => ret tt
      end in
  close_handle (token g).

(** The turns of the loop of [PrivilegeGuard::new]. *)
Fixpoint enable_privileges (token : Z) (names : list str) (previous : list token_privileges)
    : M S SecurityError (list token_privileges) :=
  match names with
  | [] => ret previous
  | priv_name :: names' =>
      let* '(found, luid) := call (LookupPrivilegeValueW (to_wide_null priv_name)) in
      if negb found then
        do* restore_privileges token previous in throw (PrivilegeNotAssigned priv_name)
      else
        let tp := {| tp_count := 1; tp_luid := luid; tp_attributes := SE_PRIVILEGE_ENABLED |} in
        do* call (SetLastError ERROR_SUCCESS) in
        let* '(adjusted, previous_state) := call (AdjustTokenPrivileges token tp true) in
        let* last_err := call GetLastError in
        if negb adjusted then
          do* restore_privileges token previous in throw (SecWin32Error last_err)
        else if Z.eqb last_err ERROR_NOT_ALL_ASSIGNED then
          do* restore_privileges token previous in throw (PrivilegeNotAssigned priv_name)
        else
          enable_privileges token names'
            (if (0 <? tp_count previous_state)%Z then previous ++ [previous_state] else previous)
  end.

Definition open_process_token (access : Z) : M S SecurityError Z :=
  let* '(success, raw_token) := call (OpenProcessToken CURRENT_PROCESS access) in
  if negb success then last_error
  else match OwnedHandle_from_raw raw_token with
       | Some token => ret token
       | None => last_error
       end.

Definition PrivilegeGuard_new (privilege_names : list str) : M S SecurityError PrivilegeGuard :=
  let* token := open_process_token (TOKEN_ADJUST_PRIVILEGES .| TOKEN_QUERY) in
  let* r := attempt (enable_privileges token privilege_names []) in
  match r with
  | Ok states => ret {| token := token; previous_states := states |}
  | Err e => do* close_handle token in throw e
  end.

(** [PrivilegeGuard::restore] consumes the guard: a failed restoration drops
    it with its states, a successful one without. *)
Definition PrivilegeGuard_restore (g : PrivilegeGuard) : M S SecurityError unit :=
  let* r := attempt (restore_privileges (token g) (previous_states g)) in
  match r with
  | Ok _ => drop_guard {| token := token g; previous_states := [] |}
  | Err e => do* drop_guard g in throw e
  end.

Definition is_process_elevated : M S SecurityError bool :=
  let* token := open_process_token TOKEN_QUERY in
  using_handle token
    (let* '(queried, is_elevated) := call (GetTokenElevation token) in
     if negb queried then last_error else ret (negb (Z.eqb is_elevated 0))).

Definition INVALID_FILE_ATTRIBUTES : Z := u32_max.
Definition path_is_reparse_point (path : wide) : M S SecurityError bool :=
  let* attributes := call (GetFileAttributesW (wide_null path)) in
  if Z.eqb attributes INVALID_FILE_ATTRIBUTES then last_error
  else ret (has_flag attributes FILE_ATTRIBUTE_REPARSE_POINT).

(** A slice [&buf[..n]] of a buffer of [capacity] zeroed units the call wrote
    over. *)
Definition slice_to (capacity n : Z) (buf : wide) : M S SecurityError str :=
  if (capacity <? n)%Z then panic ($"range end index out of range for slice")
  else ret (from_utf16_lossy (take (Z.to_nat n) (written_over (Z.to_nat capacity) buf))).

Definition lookup_account_by_sid_string (sid_str : str) : M S SecurityError (str * str) :=
  let* '(converted, psid) := call (ConvertStringSidToSidW (to_wide_null sid_str)) in
  if negb converted || Z.eqb psid 0 then throw (SidResolutionError sid_str)
  else
    let* '(_, (_, name_len), (_, domain_len)) := call (LookupAccountSidW psid None) in
    let* err := call GetLastError in
    if negb (Z.eqb err ERROR_INSUFFICIENT_BUFFER) && negb (Z.eqb err ERROR_SUCCESS) then
      do* call (LocalFree psid) in
      throw (SidResolutionError ($"LookupAccountSidW error: " ++ dec err))
    else
      let* '(found, (name_buf, name_len'), (domain_buf, domain_len')) :=
        call (LookupAccountSidW psid (Some (name_len, domain_len))) in
      do* call (LocalFree psid) in
      if negb found then
        let* code := call GetLastError in
        throw (SidResolutionError ($"LookupAccountSidW failed: " ++ dec code))
      else
        let* name := slice_to name_len name_len' name_buf in
        let* domain := slice_to domain_len domain_len' domain_buf in
        ret (domain, name).
End Privileges.

(** ** Restart Manager (restart_manager.rs) *)
Definition RM_NORMAL_SHUTDOWN : Z := 0.
Definition RM_FORCE_SHUTDOWN : Z := 1.

Inductive RestartManagerError : Type :=
| RmWin32Error (code : Z)
| RmInvalidPath (path : str).
Definition show_RestartManagerError (e : RestartManagerError) : str :=
  match e with
  | RmWin32Error code => $"Restart Manager failed with error code: " ++ dec code
  | RmInvalidPath path => $"Failed to register resource path: " ++ path
  end.

Record LockingProcessInfo : Type := {
  process_id : Z; app_name : str; service_short_name : str; app_type : Z; restartable : bool }.

Definition utf16_until_nul (units : wide) : str :=
  from_utf16_lossy (take (default (length units) (position is_nul units)) units).
Definition locking_process (info : rm_process) : LockingProcessInfo :=
  {| process_id := rm_process_id info; app_name := utf16_until_nul (rm_app_name info);
     service_short_name := utf16_until_nul (rm_service_name info);
     app_type := rm_app_type info; restartable := negb (Z.eqb (rm_restartable info) 0) |}.
Definition zeroed_process : rm_process :=
  {| rm_process_id := 0; rm_app_name := []; rm_service_name := []; rm_app_type := 0;
     rm_restartable := 0 |}.

Section RestartManager.
Context {S : Type}.

Definition rm_status_result (status : Z) : result RestartManagerError unit :=
  if Z.eqb status ERROR_SUCCESS then Ok tt else Err (RmWin32Error status).

Definition RestartManagerSession_new : M S RestartManagerError Z :=
  let* '(status, session) := call RmStartSession in
  if Z.eqb status ERROR_SUCCESS then ret session else throw (RmWin32Error status).
Definition register_file (session : Z) (file_path : wide) : M S RestartManagerError unit :=
  let* status := call (RmRegisterResources session (wide_null file_path)) in
  lift (rm_status_result status).
Definition get_locking_processes (session : Z) : M S RestartManagerError (list LockingProcessInfo) :=
  let* first := call (RmGetList session 0) in
  if negb (Z.eqb (rm_status first) ERROR_SUCCESS) && negb (Z.eqb (rm_status first) ERROR_MORE_DATA)
  then throw (RmWin32Error (rm_status first))
  else if Z.eqb (rm_needed first) 0 then ret []
  else
    let* second := call (RmGetList session (rm_needed first)) in
    if negb (Z.eqb (rm_status second) ERROR_SUCCESS) then throw (RmWin32Error (rm_status second))
    else if (rm_needed first <? rm_count second)%Z
    then panic ($"range end index out of range for slice")
    else
      let capacity := Z.to_nat (rm_needed first) in
      let infos := take capacity (rm_infos second)
                   ++ repeat zeroed_process (capacity - length (rm_infos second)) in
      ret (map locking_process (take (Z.to_nat (rm_count second)) infos)).
Definition shutdown_locking_processes (session : Z) (force : bool) : M S RestartManagerError unit :=
  let* status := call (RmShutdown session (if force then RM_FORCE_SHUTDOWN else RM_NORMAL_SHUTDOWN)) in
  lift (rm_status_result status).

(** [RestartManagerSession::drop]. *)
Definition end_session {E} (session : Z) : M S E unit :=
  if negb (Z.eqb session 0) then call (RmEndSession session) else ret tt.

(** The sequence both lock inspections make: start, register, list, end. *)
Definition inspect_locking_processes (path : wide) : M S RestartManagerError (list LockingProcessInfo) :=
  let* session := RestartManagerSession_new in
  defer (end_session session)
    (do* register_file session path in get_locking_processes session).
End RestartManager.

(** ** Preferred UI languages (locale.rs) *)
Definition MAX_LANGUAGE_BUFFER_UNITS : Z := 65536.

Inductive LocaleError : Type :=
| LocaleWindows (code : Z)
| InvalidBuffer (reason : str)
| LocaleInvalidUtf16.
#[export] Instance LocaleError_eq_dec : EqDecision LocaleError.
Proof. solve_decision. Defined.

Definition not_terminated : LocaleError := InvalidBuffer ($"MULTI_SZ is not double-NUL terminated").
Definition empty_name : LocaleError := InvalidBuffer ($"MULTI_SZ contains an empty language name").
Definition count_mismatch : LocaleError :=
  InvalidBuffer ($"language count does not match the MULTI_SZ payload").

Fixpoint parse_languages (runs : list wide) : result LocaleError (list str) :=
  match runs with
  | [] => Ok []
  | language :: runs' =>
      if is_empty language then Err empty_name
      else match from_utf16 language with
           | None => Err LocaleInvalidUtf16
           | Some name => let? names := parse_languages runs' in Ok (name :: names)
           end
  end.
Definition parse_language_multisz (buffer : wide) (expected_count : Z) : result LocaleError (list str) :=
  if (length buffer <? 2)%nat || negb (bool_decide (drop (length buffer - 2) buffer = [0; 0]%Z))
  then Err not_terminated
  else
    let content := take (length buffer - 2) buffer in
    let? languages := if is_empty content then Ok [] else parse_languages (split_on is_nul content) in
    if Z.eqb (Z.of_nat (length languages)) expected_count then Ok languages else Err count_mismatch.

Definition query_languages {S} (capacity : option Z) (units : Z) : M S LocaleError (Z * wide * Z) :=
  let* '(succeeded, count, buffer, units') := call (GetUserPreferredUILanguages capacity units) in
  if negb succeeded then let* code := call GetLastError in throw (LocaleWindows code)
  else ret (count, buffer, units').

Definition query_user_preferred_ui_languages {S} : M S LocaleError (list str) :=
  let* '(_, _, buffer_units) := query_languages None 0 in
  if (MAX_LANGUAGE_BUFFER_UNITS <? buffer_units)%Z then
    throw (InvalidBuffer ($"required length exceeds the safety limit"))
  else if (buffer_units <? 2)%Z then
    throw (InvalidBuffer ($"required length omits the MULTI_SZ terminator"))
  else
    let* '(language_count, written, returned_units) :=
      query_languages (Some buffer_units) buffer_units in
    if (buffer_units <? returned_units)%Z then
      throw (InvalidBuffer ($"returned length exceeds the allocated buffer"))
    else
      let buffer := written_over (Z.to_nat buffer_units) written in
      lift (parse_language_multisz (take (Z.to_nat returned_units) buffer) language_count).

(** ** Calls *)
Definition inspects_locks (a : sys) : bool :=
  match a with
  | RmStartSession | RmRegisterResources _ _ | RmGetList _ _ | RmEndSession _ => true
  | _ => false
  end.

Section Calls.
Context {S : Type} (P : sys -> Prop).

Lemma mcalls_inspect_locking_processes path :
  (forall a, inspects_locks a = true -> P a) ->
  mcalls P (inspect_locking_processes (S:=S) path).
Proof.
  intros HP. unfold inspect_locking_processes, RestartManagerSession_new, register_file,
    get_locking_processes, end_session. by solve_calls.
Qed.

Lemma mcalls_close_handle {E} handle : P (CloseHandle handle) -> mcalls (S:=S) (E:=E) P (close_handle handle).
Proof. intros HP. unfold close_handle. by solve_calls. Qed.
Lemma mcalls_using_handle {E A} handle (body : M S E A) :
  P (CloseHandle handle) -> mcalls P body -> mcalls P (using_handle handle body).
Proof. intros HP Hb. apply mcalls_defer; [by apply mcalls_close_handle|done]. Qed.
End Calls.

(** Calls of a privilege guard. *)
Definition adjusts_token (a : sys) : bool :=
  match a with
  | OpenProcessToken _ _ | LookupPrivilegeValueW _ | AdjustTokenPrivileges _ _ _ | SetLastError _
  | GetLastError | TracingError _ | CloseHandle _ => true
  | _ => false
  end.

Section GuardCalls.
Context {S : Type} (P : sys -> Prop) (HP : forall a, adjusts_token a = true -> P a).

Lemma mtame_restore_states {E} token states first :
  mtame P False (restore_states (S:=S) (E:=E) token states first).
Proof. revert first. induction states; intros; simpl; by solve_tame; apply HP. Qed.
Lemma mtame_restore_privileges token states : mtame P False (restore_privileges (S:=S) token states).
Proof. unfold restore_privileges. apply mtame_bind; [apply mtame_restore_states|]. by solve_tame. Qed.
Hint Resolve mtame_restore_privileges : tame.
Lemma mtame_enable_privileges token names previous :
  mtame P False (enable_privileges (S:=S) token names previous).
Proof. revert previous. induction names; intros; simpl; by solve_tame; apply HP. Qed.
Hint Resolve mtame_enable_privileges : tame.
Lemma mtame_PrivilegeGuard_new names : mtame P False (PrivilegeGuard_new (S:=S) names).
Proof.
  unfold PrivilegeGuard_new, open_process_token, last_error, close_handle. by solve_tame; apply HP.
Qed.
Lemma mtame_PrivilegeGuard_restore g : mtame P False (PrivilegeGuard_restore (S:=S) g).
Proof. unfold PrivilegeGuard_restore, drop_guard, close_handle. by solve_tame; apply HP. Qed.
End GuardCalls.

(** ** Parsing preferred languages *)

(** A [MULTI_SZ] value: NUL-separated names and a final double NUL. *)
Definition multisz (names : list str) : wide := join [0%Z] (map encode_utf16 names) ++ [0; 0]%Z.

Definition language_name (s : str) : Prop :=
  s <> [] /\ Forall scalar s /\ Forall (fun c => c <> 0%Z) s.

Lemma encode_utf16_nonempty s : s <> [] -> encode_utf16 s <> [].
Proof. destruct s as [|c s]; [done|]. intros _. simpl. unfold encode_char. by case_match. Qed.

Lemma parse_languages_encoded names :
  Forall language_name names -> parse_languages (map encode_utf16 names) = Ok names.
Proof.
  induction 1 as [|s names (Hne & Hs & _) _ IH]; simpl; [done|].
  rewrite from_encode_utf16, IH by done.
  destruct (encode_utf16 s) eqn:E; [by destruct (encode_utf16_nonempty s)|done].
Qed.

Lemma parse_languages_nonempty runs names :
  parse_languages runs = Ok names -> length names = length runs /\ Forall (fun s => s <> []) names.
Proof.
  revert names. induction runs as [|r runs IH]; simpl; intros names H; [by simplify_eq|].
  destruct (is_empty r) eqn:He; [done|]. destruct (from_utf16 r) as [s|] eqn:Hf; [|done].
  destruct (parse_languages runs) as [names'|] eqn:Hp; simplify_eq/=.
  destruct (IH _ eq_refl) as [-> Hn]. split; [done|]. constructor; [|done].
  intros ->. destruct r as [|u r]; [done|]. unfold from_utf16 in Hf.
  cbn [decode_units] in Hf. repeat case_match; simplify_option_eq.
Qed.

(** A double-NUL-terminated list of well-formed names is parsed to exactly
    these names in their order, when the count Windows returns is theirs, and
    refused when it is not. *)
Theorem parse_multisz (names : list str) (count : Z) (Hn : Forall language_name names) :
  parse_language_multisz (multisz names) count =
  if Z.eqb (Z.of_nat (length names)) count then Ok names else Err count_mismatch.
Proof.
  unfold parse_language_multisz, multisz.
  set (content := join [0%Z] (map encode_utf16 names)).
  rewrite length_app. change (length [0; 0]%Z) with 2.
  replace (length content + 2 - 2) with (length content) by lia.
  rewrite take_app_length, drop_app_length, bool_decide_eq_true_2 by done.
  rewrite (proj2 (Nat.ltb_ge _ 2)) by lia. simpl.
  assert ((if is_empty content then Ok [] else parse_languages (split_on is_nul content)) = Ok names)
    as ->; [|done].
  unfold content. destruct names as [|s names]; [done|].
  destruct (is_empty _) eqn:He.
  - destruct (Forall_inv Hn) as (Hs & _). apply encode_utf16_nonempty in Hs.
    cbn [map join] in He. destruct (encode_utf16 s) as [|u w]; [done|].
    by destruct (map encode_utf16 names).
  - rewrite split_on_join; [by apply parse_languages_encoded|done|done|].
    apply Forall_map. eapply Forall_impl; [exact Hn|]. intros x (_ & Hs & Hz). simpl.
    by apply encode_utf16_no_nul.
Qed.

Lemma parse_multisz_witness :
  parse_language_multisz (multisz [$"fr-CA"; $"en-US"]) 2 = Ok [$"fr-CA"; $"en-US"].
Proof.
  apply (parse_multisz [$"fr-CA"; $"en-US"] 2).
  repeat constructor; unfold scalar; simpl; try lia; done.
Defined.

(** ** Privileges are restored

    The documented behaviour of the calls on the process token: a ghost state
    [g] holds the attributes of each privilege, the last error and the token
    handles that are open.  Adjusting an assigned privilege sets its attributes
    and returns the previous ones when they differ; adjusting one that is not
    assigned changes nothing and reports ERROR_NOT_ALL_ASSIGNED; a failed call
    changes nothing; a restoration of an assigned privilege does not fail.
    Opening the token gives a new handle; only an open one may be used or
    closed. *)
Section TokenLaws.
Context {G : Type} (attributes : G -> gmap Z Z) (last_error_of : G -> Z) (open_tokens : G -> gset Z).

Definition previous_of (old : Z) (tp : token_privileges) : token_privileges :=
  if Z.eqb old (tp_attributes tp)
  then {| tp_count := 0; tp_luid := 0; tp_attributes := 0 |}
  else {| tp_count := 1; tp_luid := tp_luid tp; tp_attributes := old |}.

Definition adjusted (tp : token_privileges) (want : bool) (g : G) (x : bool * token_privileges)
    (g' : G) : Prop :=
  match attributes g !! tp_luid tp with
  | Some old =>
      (want = true /\ x.1 = false /\ attributes g' = attributes g) \/
      (x.1 = true /\ attributes g' = <[tp_luid tp := tp_attributes tp]> (attributes g) /\
       last_error_of g' = ERROR_SUCCESS /\ (want = true -> x.2 = previous_of old tp))
  | None =>
      attributes g' = attributes g /\
      (x.1 = false \/ last_error_of g' = ERROR_NOT_ALL_ASSIGNED)
  end.
Definition token_opened (x : bool * Z) (g g' : G) : Prop :=
  if x.1 then OwnedHandle_from_raw x.2 = Some x.2 /\ x.2 ∉ open_tokens g
              /\ open_tokens g' = {[x.2]} ∪ open_tokens g
  else open_tokens g' = open_tokens g.

Definition token_calls (a : sys) (g : G) : Prop :=
  match a with
  | OpenProcessToken _ _ | LookupPrivilegeValueW _ | SetLastError _ | GetLastError | TracingError _ => True
  | AdjustTokenPrivileges t _ _ | CloseHandle t => t ∈ open_tokens g
  | _ => False
  end.

Record token_laws (P : protocol G) : Prop := {
  token_permitted : forall a g, token_calls a g -> permitted P a g;
  token_adjust : forall t tp want g x g',
    answers P (AdjustTokenPrivileges t tp want) g x g' ->
    adjusted tp want g x g' /\ open_tokens g' = open_tokens g;
  token_last_error : forall g x g',
    answers P GetLastError g x g' ->
    x = last_error_of g /\ attributes g' = attributes g /\ open_tokens g' = open_tokens g;
  token_open : forall process access g x g',
    answers P (OpenProcessToken process access) g x g' ->
    token_opened x g g' /\ attributes g' = attributes g;
  token_close : forall t g x g',
    answers P (CloseHandle t) g x g' ->
    open_tokens g' = open_tokens g ∖ {[t]} /\ attributes g' = attributes g;
  token_frame : forall a g x g',
    (match a with LookupPrivilegeValueW _ | SetLastError _ | TracingError _ => true | _ => false end) = true ->
    answers P a g x g' -> attributes g' = attributes g /\ open_tokens g' = open_tokens g;
}.

(** Replaying previous states, the last recorded one first, is [undo]. *)
Definition undo (states : list token_privileges) (m : gmap Z Z) : gmap Z Z :=
  foldr (fun st m => <[tp_luid st := tp_attributes st]> m) m states.
Definition assigned (states : list token_privileges) (m : gmap Z Z) : Prop :=
  Forall (fun st => is_Some (m !! tp_luid st)) states.

Section Undo.
Context {S : Type} (P : protocol G) (HP : token_laws P).

Lemma assigned_insert states m l v : assigned states m -> assigned states (<[l := v]> m).
Proof.
  intros Ha. eapply Forall_impl; [exact Ha|]. intros st Hst.
  apply lookup_insert_is_Some'. by right.
Qed.

(** A call on the token: the laws permit it. *)
Ltac token_step :=
  wp_call; [by apply (token_permitted _ HP)|].

(** Restoring in the order of [restore_states] reaches [undo] of the reversed
    list, without an error. *)
Lemma wp_restore_states {E} t states (s : S) g :
  assigned states (attributes g) -> t ∈ open_tokens g ->
  wpM P (restore_states (E:=E) t states None)
    (fun r s' g' => r = Ok None /\ s' = s /\ attributes g' = undo (rev states) (attributes g)
                    /\ open_tokens g' = open_tokens g) s g.
Proof.
  revert g. induction states as [|st states IH]; intros g Ha Ht; [done|].
  inversion_clear Ha as [|? ? [old Hold] Hs].
  simpl. apply wpM_bind; token_step. intros [] g1 H1. apply (token_frame _ HP) in H1 as [H1 Ho1]; [|done].
  apply wpM_bind; wp_call; [apply (token_permitted _ HP); simpl; by rewrite Ho1|].
  intros [ok prev] g2 H2. apply (token_adjust _ HP) in H2 as [H2 Ho2]. unfold adjusted in H2.
  rewrite H1, Hold in H2. destruct H2 as [(? & _)|(Hok & Ha2 & He2 & _)]; [done|]. simpl in Hok. subst ok.
  apply wpM_bind; token_step. intros err g3 H3. apply (token_last_error _ HP) in H3 as (-> & Ha3 & Ho3).
  rewrite He2. simpl. eapply wpM_mono; [apply IH|].
  - rewrite Ha3, Ha2. by apply assigned_insert.
  - by rewrite Ho3, Ho2, Ho1.
  - intros r s' g' (-> & -> & -> & ->). rewrite Ha3, Ha2, Ho3, Ho2, Ho1. unfold undo.
    by rewrite foldr_app.
Qed.

Lemma wp_restore_privileges t states (s : S) g :
  assigned states (attributes g) -> t ∈ open_tokens g ->
  wpM P (restore_privileges t states)
    (fun r s' g' => r = Ok tt /\ attributes g' = undo states (attributes g)
                    /\ open_tokens g' = open_tokens g) s g.
Proof.
  intros Ha Ht. apply wpM_bind. eapply wpM_mono; [apply wp_restore_states|].
  - by apply Forall_rev.
  - done.
  - intros r s' g' (-> & _ & Hg & Ho). split_and!; [done| |done]. by rewrite Hg, rev_involutive.
Qed.

Lemma wp_close_handle {E} t (s : S) g :
  OwnedHandle_from_raw t = Some t -> t ∈ open_tokens g ->
  wpM P (close_handle (E:=E) t)
    (fun r _ g' => r = Ok tt /\ attributes g' = attributes g /\ open_tokens g' = open_tokens g ∖ {[t]}) s g.
Proof.
  unfold OwnedHandle_from_raw, close_handle. intros Hv Ht. destruct (_ || _) eqn:Hz; [done|].
  apply orb_false_iff in Hz as [-> ->]. simpl. token_step. intros [] g' H'.
  by apply (token_close _ HP) in H' as [-> ->].
Qed.

(** The states recorded so far undo what was changed since [m0]. *)
Definition recorded (m0 : gmap Z Z) (states : list token_privileges) (m : gmap Z Z) : Prop :=
  assigned states m /\ undo states m = m0.

Lemma recorded_restore {A} m0 t states (e : SecurityError) (Q : result SecurityError A -> S -> G -> Prop) s g :
  recorded m0 states (attributes g) -> t ∈ open_tokens g ->
  (forall s' g', attributes g' = m0 -> open_tokens g' = open_tokens g -> Q (Err e) s' g') ->
  wpM P (do* restore_privileges t states in throw e) Q s g.
Proof.
  intros [Ha Hu] Ht HQ. apply wpM_bind. eapply wpM_mono; [by apply wp_restore_privileges|].
  intros r s' g' (-> & Hg & Ho). apply wpM_throw, HQ; [by rewrite Hg|done].
Qed.

Lemma recorded_adjust m0 states m l old new :
  recorded m0 states m -> m !! l = Some old ->
  recorded m0
    (if Z.eqb old new then states
     else states ++ [{| tp_count := 1; tp_luid := l; tp_attributes := old |}])
    (<[l := new]> m).
Proof.
  intros [Ha Hu] Hl. destruct (Z.eqb_spec old new) as [->|Hne].
  - by rewrite insert_id.
  - split.
    + apply Forall_app. split; [by apply assigned_insert|].
      constructor; [|constructor]. simpl. apply lookup_insert_is_Some'. by left.
    + unfold undo. rewrite foldr_app. simpl. rewrite insert_insert_eq, insert_id by done. exact Hu.
Qed.

Lemma wp_enable_privileges m0 t names states (s : S) g :
  recorded m0 states (attributes g) -> t ∈ open_tokens g ->
  wpM P (enable_privileges t names states)
    (fun r _ g' => open_tokens g' = open_tokens g
                   /\ match r with
                      | Ok states' => recorded m0 states' (attributes g')
                      | Err _ => attributes g' = m0
                      end) s g.
Proof.
  revert states s g. induction names as [|name names IH]; intros states s g Hr Ht; [done|]. simpl.
  apply wpM_bind; token_step. intros [found luid] g1 H1.
  apply (token_frame _ HP) in H1 as [H1 Ho1]; [|done]. rewrite <- H1 in Hr. rewrite <- Ho1 in *. simpl.
  destruct found; simpl; [|by eapply recorded_restore].
  apply wpM_bind; token_step. intros [] g2 H2.
  apply (token_frame _ HP) in H2 as [H2 Ho2]; [|done]. rewrite <- H2 in Hr. rewrite <- Ho2 in *.
  apply wpM_bind; token_step. intros [ok prev] g3 H3.
  apply (token_adjust _ HP) in H3 as [H3 Ho3]. unfold adjusted in H3. simpl in H3.
  apply wpM_bind; token_step. intros err g4 H4.
  apply (token_last_error _ HP) in H4 as (-> & Ha4 & Ho4). rewrite <- Ho3, <- Ho4 in *.
  destruct (attributes g2 !! luid) as [old|] eqn:Hl.
  - destruct H3 as [(_ & -> & Ha3)|(-> & Ha3 & -> & Hp)]; simpl.
    { eapply recorded_restore; [by rewrite Ha4, Ha3|done|done]. }
    rewrite Hp by done. apply IH; [|done]. rewrite Ha4, Ha3. unfold previous_of. simpl.
    pose proof (recorded_adjust _ _ _ _ _ SE_PRIVILEGE_ENABLED Hr Hl) as Hr'.
    by destruct (old =? SE_PRIVILEGE_ENABLED)%Z.
  - destruct H3 as [Ha3 Hx]. assert (recorded m0 states (attributes g4)) as Hr4 by (by rewrite Ha4, Ha3).
    destruct ok; simpl; [|by eapply recorded_restore].
    destruct Hx as [?|Hx]; [done|]. rewrite Hx. by eapply recorded_restore.
Qed.

(** Both ends of a guard. *)
Lemma wp_drop_guard {E} m0 guard (s : S) g :
  OwnedHandle_from_raw (token guard) = Some (token guard) -> token guard ∈ open_tokens g ->
  recorded m0 (previous_states guard) (attributes g) ->
  wpM P (drop_guard (E:=E) guard)
    (fun r _ g' => r = Ok tt /\ attributes g' = m0 /\ open_tokens g' = open_tokens g ∖ {[token guard]}) s g.
Proof.
  intros Hv Ht [Ha Hu]. apply wpM_bind, wpM_attempt. eapply wpM_mono; [by apply wp_restore_privileges|].
  intros r s1 g1 (-> & Ha1 & Ho1). simpl. rewrite <- Ho1 in *.
  eapply wpM_mono; [by apply wp_close_handle|]. intros r s2 g2 (-> & -> & ->). split_and!; [done| |done].
  by rewrite Ha1.
Qed.
Lemma wp_restore_guard m0 guard (s : S) g :
  OwnedHandle_from_raw (token guard) = Some (token guard) -> token guard ∈ open_tokens g ->
  recorded m0 (previous_states guard) (attributes g) ->
  wpM P (PrivilegeGuard_restore guard)
    (fun r _ g' => r = Ok tt /\ attributes g' = m0 /\ open_tokens g' = open_tokens g ∖ {[token guard]}) s g.
Proof.
  intros Hv Ht [Ha Hu]. apply wpM_bind, wpM_attempt. eapply wpM_mono; [by apply wp_restore_privileges|].
  intros r s1 g1 (-> & Ha1 & Ho1). simpl. rewrite <- Ho1 in *.
  eapply wpM_mono; [by apply (wp_drop_guard m0); [..|split; [constructor|by rewrite Ha1]]|done].
Qed.

End Undo.
End TokenLaws.

(** A token with two privileges, adjusted as documented. *)
Record sample_token : Type := {
  sample_attributes : gmap Z Z; sample_error : Z; sample_open : gset Z }.
Definition sample_protocol : protocol sample_token :=
  Protocol (fun a g => token_calls sample_open a g)
    (fun a g x g' =>
       match a return resp a -> Prop with
       | AdjustTokenPrivileges t tp want => fun x =>
           adjusted sample_attributes sample_error tp want g x g' /\ sample_open g' = sample_open g
       | GetLastError => fun x => x = sample_error g /\ g' = g
       | OpenProcessToken _ _ => fun x =>
           token_opened sample_open x g g' /\ sample_attributes g' = sample_attributes g
       | CloseHandle t => fun _ =>
           sample_open g' = sample_open g ∖ {[t]} /\ sample_attributes g' = sample_attributes g
       | _ => fun _ => g' = g
       end x) False.

