(* ===== verification/SecureFs.v ===== *)
(** * SecureFs: handle-rooted directories (platform-win32/src/secure_fs.rs)

    Every component is opened relative to an already opened parent handle and
    checked by handle.  Handles are owned: each function closes what it opened
    on its error paths, and what it returns is closed by the caller. *)

From stdpp Require Import base list gmap strings.
From S2P Require Import Prelude Text Path Effects Models Win32 Registry Security.

Definition DIRECTORY_BUFFER_BYTES : nat := 65536.
Definition ALL_FILE_SHARES : Z := FILE_SHARE_READ .| FILE_SHARE_WRITE .| FILE_SHARE_DELETE.
Definition PINNED_DIRECTORY_SHARES : Z := FILE_SHARE_READ .| FILE_SHARE_WRITE.
Definition DIRECTORY_READ_ACCESS : Z :=
  FILE_LIST_DIRECTORY .| FILE_TRAVERSE .| FILE_READ_ATTRIBUTES .| SYNCHRONIZE.
Definition DIRECTORY_WRITE_ACCESS : Z :=
  DIRECTORY_READ_ACCESS .| FILE_ADD_FILE .| FILE_ADD_SUBDIRECTORY .| FILE_DELETE_CHILD
  .| FILE_GENERIC_WRITE.

Inductive SecureFsError : Type :=
| FsInvalidPath (path : str)
| FsNotFound (path : str)
| FsAlreadyExists (path : str)
| FsReparsePoint (path : str)
| FsIo (operation path : str) (source : io_error)
| FsNative (operation path : str) (status : Z)
| FsRollback (operation_error rollback_error : str).

Definition show_SecureFsError `{Extern} (e : SecureFsError) : str :=
  match e with
  | FsInvalidPath p => $"invalid absolute filesystem path: " ++ p
  | FsNotFound p => $"filesystem entry was not found: " ++ p
  | FsAlreadyExists p => $"filesystem entry already exists: " ++ p
  | FsReparsePoint p => $"reparse point refused on opened object: " ++ p
  | FsIo operation p source =>
      $"Windows filesystem operation '" ++ operation ++ $"' failed for " ++ p ++ $": "
      ++ show_io_error source
  | FsNative operation p status =>
      $"native filesystem operation '" ++ operation ++ $"' failed for " ++ p ++ $": NTSTATUS "
      ++ hex_i32 status
  | FsRollback operation_error rollback_error =>
      $"secure filesystem rollback failed after '" ++ operation_error ++ $"': " ++ rollback_error
  end.

Inductive SecureEntryKind : Type := EntryFile | EntryDirectory.
#[export] Instance SecureEntryKind_eq_dec : EqDecision SecureEntryKind.
Proof. solve_decision. Defined.
Record SecureDirEntry : Type := { entry_name : wide; entry_kind : SecureEntryKind }.
Record SecureCreatedEntry : Type := { ce_handle : Z; ce_path : path }.
Record FileIdentity : Type := { volume_serial : Z; file_index : Z }.
#[export] Instance FileIdentity_eq_dec : EqDecision FileIdentity.
Proof. solve_decision. Defined.
Record SecureDirectory : Type := {
  sd_handle : Z; namespace_guards : list Z; sd_path : path; ancestry : list FileIdentity }.

(** ** Names and paths *)
Definition fs_split_absolute (p : path) : result SecureFsError (path * list wide) :=
  let invalid := Err (FsInvalidPath (display p)) in
  match components p with
  | CPrefix raw _ :: RootDir :: rest =>
      let root := path_join raw ($"\") in
      let names := omap (fun c => match c with Normal name => Some name | _ => None end) rest in
      if Nat.eqb (length names) (length rest) then Ok (root, names) else invalid
  | _ => invalid
  end.

Definition fs_validate_component (name : wide) (display_path : path) : result SecureFsError unit :=
  let invalid := Err (FsInvalidPath (display display_path)) in
  if is_empty name then invalid
  else match components name with
       | [Normal _] => if contains_char name COLON then invalid else Ok tt
       | _ => invalid
       end.
Definition child_display_path (parent : path) (name : wide) : result SecureFsError path :=
  let p := path_join parent name in
  let? _ := fs_validate_component name p in Ok p.

Definition nt_error (operation : str) (p : path) (status : Z) : SecureFsError :=
  if Z.eqb status STATUS_OBJECT_NAME_NOT_FOUND || Z.eqb status STATUS_OBJECT_PATH_NOT_FOUND
  then FsNotFound (display p)
  else if Z.eqb status STATUS_OBJECT_NAME_COLLISION then FsAlreadyExists (display p)
  else if Z.eqb status STATUS_NOT_A_DIRECTORY || Z.eqb status STATUS_FILE_IS_A_DIRECTORY
  then FsInvalidPath (display p)
  else FsNative operation (display p) status.

(** ** Directory buffers

    [FILE_ID_BOTH_DIR_INFO] as laid out on 64-bit Windows.  A read that would
    leave the buffer is [None], as is a loop that does not end. *)
Definition DIR_INFO_SIZE : nat := 112.
Definition HEADER_BYTES : nat := 104.
Definition read_u32 (buffer : list Z) (offset : nat) : option Z :=
  if (offset + 4 <=? length buffer)%nat then Some (le_u32 (take 4 (drop offset buffer))) else None.
Definition read_units (buffer : list Z) (offset bytes : nat) : option wide :=
  if (offset + bytes <=? length buffer)%nat
  then Some (units_of_bytes (take bytes (drop offset buffer))) else None.

Fixpoint parse_entries (turns : nat) (buffer : list Z) (buffer_bytes : nat) (directory : path)
    (offset : nat) (entries : list SecureDirEntry)
    : option (result SecureFsError (list SecureDirEntry)) :=
  match turns with
  | O => None
  | S turns' =>
      if (buffer_bytes <? offset + DIR_INFO_SIZE)%nat then
        Some (Err (FsInvalidPath ($"invalid directory enumeration for " ++ display directory)))
      else
        next ← read_u32 buffer offset;
        attributes ← read_u32 buffer (offset + 56);
        name_length ← read_u32 buffer (offset + 60);
        let name_bytes := Z.to_nat name_length in
        if negb (Nat.even name_bytes) || (buffer_bytes <? offset + HEADER_BYTES + name_bytes)%nat then
          Some (Err (FsInvalidPath ($"invalid directory entry returned for " ++ display directory)))
        else
          name ← read_units buffer (offset + HEADER_BYTES) name_bytes;
          let keep := negb (str_eqb name ($".")) && negb (str_eqb name ($"..")) in
          if keep && has_flag attributes FILE_ATTRIBUTE_REPARSE_POINT then
            Some (Err (FsReparsePoint (display (path_join directory name))))
          else
            let kind := if has_flag attributes FILE_ATTRIBUTE_DIRECTORY then EntryDirectory else EntryFile in
            let entries := if keep then entries ++ [{| entry_name := name; entry_kind := kind |}] else entries in
            if Z.eqb next 0 then Some (Ok entries)
            else if (Z.to_nat next <? HEADER_BYTES)%nat || (buffer_bytes <=? offset + Z.to_nat next)%nat then
              Some (Err (FsInvalidPath ($"invalid directory enumeration offset for " ++ display directory)))
            else parse_entries turns' buffer buffer_bytes directory (offset + Z.to_nat next) entries
  end.
Definition parse_directory_buffer (buffer : list Z) (buffer_bytes : nat) (directory : path)
    (entries : list SecureDirEntry) : option (result SecureFsError (list SecureDirEntry)) :=
  parse_entries (S buffer_bytes) buffer buffer_bytes directory 0 entries.

(** [sort_by_key] is stable. *)
Fixpoint insert_by (le : SecureDirEntry -> SecureDirEntry -> bool) (x : SecureDirEntry)
    (l : list SecureDirEntry) : list SecureDirEntry :=
  match l with
  | [] => [x]
  | y :: l' => if le x y then x :: l else y :: insert_by le x l'
  end.
Definition sort_by_name `{Extern} (entries : list SecureDirEntry) : list SecureDirEntry :=
  let key e := to_lowercase (display (entry_name e)) in
  foldr (insert_by (fun a b => str_le (key a) (key b))) [] entries.

Section SecureFs.
Context {S : Type} `{Fuel} `{Extern}.
Abbreviation FsM := (M S SecureFsError).

Definition fs_win32_error {A} (operation : str) (p : path) : FsM A :=
  let* e := last_os_error in throw (FsIo operation (display p) e).

(** ** Handles *)
Definition reject_reparse_handle (handle : Z) (p : path) : FsM unit :=
  let* information := call (GetFileAttributeTagInfo handle) in
  match information with
  | None => fs_win32_error ($"inspect opened object attributes") p
  | Some attributes =>
      if has_flag attributes FILE_ATTRIBUTE_REPARSE_POINT
      then throw (FsReparsePoint (display p)) else ret tt
  end.

Definition fs_file_identity (handle : Z) (p : path) : FsM FileIdentity :=
  let* information := call (GetFileInformationByHandle handle) in
  match information with
  | None => fs_win32_error ($"read opened object identity") p
  | Some i => ret {| volume_serial := hi_volume_serial i;
                     file_index := Z.lor (Z.shiftl (hi_index_high i) 32) (hi_index_low i) |}
  end.

Definition nt_open_relative (parent : Z) (name : wide) (display_path : path)
    (desired_access share_access disposition options : Z) : FsM (Z * Z) :=
  do* lift (fs_validate_component name display_path) in
  if (u16_max <? 2 * Z.of_nat (length name))%Z then throw (FsInvalidPath (display display_path))
  else
    let* answer := call (NtCreateFile parent name desired_access share_access disposition options
                           FILE_ATTRIBUTE_NORMAL 0) in
    let operation := $"open relative to directory handle" in
    if (nt_status answer <? 0)%Z then throw (nt_error operation display_path (nt_status answer))
    else match OwnedHandle_from_raw (nt_handle answer) with
         | None => throw (FsNative operation (display display_path) (nt_status answer))
         | Some handle => ret (handle, nt_information answer)
         end.

Definition delete_open_handle (handle : Z) (p : path) : FsM unit :=
  let* removed := call (SetFileDisposition handle) in
  if negb removed then fs_win32_error ($"delete by handle") p else ret tt.

(** [PendingCreatedHandle::fail]: the created object is deleted by its handle
    before the error is returned. *)
Definition pending_fail {A} (handle : Z) (p : path) (operation_error : SecureFsError) : FsM A :=
  let* rollback := attempt (delete_open_handle handle p) in
  do* close_handle handle in
  match rollback with
  | Ok _ => throw operation_error
  | Err rollback_error =>
      throw (FsRollback (show_SecureFsError operation_error) (show_SecureFsError rollback_error))
  end.

(** [SecureCreatedEntry::remove] consumes the entry. *)
Definition remove (e : SecureCreatedEntry) : FsM unit :=
  using_handle (ce_handle e) (delete_open_handle (ce_handle e) (ce_path e)).

(** [rollback_created] pops: the last created entry first. *)
Fixpoint rollback_entries {E} (entries : list SecureCreatedEntry) (first_error : option str)
    : M S E (option str) :=
  match entries with
  | [] => ret first_error
  | e :: entries' =>
      let* r := attempt (remove e) in
      rollback_entries entries'
        (match r, first_error with
         | Err error, None => Some (show_SecureFsError error)
         | _, _ => first_error
         end)
  end.
Definition rollback_created {E} (entries : list SecureCreatedEntry) : M S E (option str) :=
  rollback_entries (rev entries) None.

Definition close_all {E} (handles : list Z) : M S E unit := for_each close_handle handles.
Definition drop_directory {E} (d : SecureDirectory) : M S E unit :=
  do* close_handle (sd_handle d) in close_all (namespace_guards d).

Fixpoint clone_guards (guards : list Z) (cloned : list Z) (operation : str) (p : path) : FsM (list Z) :=
  match guards with
  | [] => ret cloned
  | guard :: guards' =>
      let* r := attempt (try_clone guard) in
      match r with
      | Ok handle => clone_guards guards' (cloned ++ [handle]) operation p
      | Err source => do* close_all cloned in throw (FsIo operation (display p) source)
      end
  end.
Definition clone_namespace_guards (d : SecureDirectory) (p : path) : FsM (list Z) :=
  let* guards := clone_guards (namespace_guards d) [] ($"duplicate namespace guard") p in
  clone_guards [sd_handle d] guards ($"duplicate parent namespace guard") p.

(** ** Opening *)
Definition DIRECTORY_OPTIONS : Z :=
  FILE_DIRECTORY_FILE .| FILE_OPEN_REPARSE_POINT .| FILE_SYNCHRONOUS_IO_NONALERT.
Definition FILE_OPTIONS : Z :=
  FILE_NON_DIRECTORY_FILE .| FILE_OPEN_REPARSE_POINT .| FILE_SYNCHRONOUS_IO_NONALERT.
Definition ANY_OPTIONS : Z := FILE_OPEN_REPARSE_POINT .| FILE_SYNCHRONOUS_IO_NONALERT.

Definition open_volume_or_share_root (p : path) : FsM SecureDirectory :=
  let* raw := call (CreateFileW (wide_null p) DIRECTORY_READ_ACCESS PINNED_DIRECTORY_SHARES
                      (FILE_FLAG_BACKUP_SEMANTICS .| FILE_FLAG_OPEN_REPARSE_POINT)) in
  match OwnedHandle_from_raw raw with
  | None => fs_win32_error ($"open volume or share root") p
  | Some handle =>
      on_error (close_handle handle)
        (do* reject_reparse_handle handle p in
         let* identity := fs_file_identity handle p in
         ret {| sd_handle := handle; namespace_guards := []; sd_path := p; ancestry := [identity] |})
  end.

Definition open_directory (d : SecureDirectory) (name : wide) : FsM SecureDirectory :=
  let* p := lift (child_display_path (sd_path d) name) in
  let* '(handle, _) := nt_open_relative (sd_handle d) name p DIRECTORY_READ_ACCESS
                         PINNED_DIRECTORY_SHARES FILE_OPEN DIRECTORY_OPTIONS in
  on_error (close_handle handle)
    (do* reject_reparse_handle handle p in
     let* identity := fs_file_identity handle p in
     let* guards := clone_namespace_guards d p in
     ret {| sd_handle := handle; namespace_guards := guards; sd_path := p;
            ancestry := ancestry d ++ [identity] |}).

Definition child_kind (d : SecureDirectory) (name : wide) : FsM (option SecureEntryKind) :=
  let* p := lift (child_display_path (sd_path d) name) in
  let* opened := attempt (nt_open_relative (sd_handle d) name p (FILE_READ_ATTRIBUTES .| SYNCHRONIZE)
                            ALL_FILE_SHARES FILE_OPEN ANY_OPTIONS) in
  match opened with
  | Err (FsNotFound _) => ret None
  | Err error => throw error
  | Ok (handle, _) =>
      using_handle handle
        (do* reject_reparse_handle handle p in
         let* information := call (GetFileAttributeTagInfo handle) in
         match information with
         | None => fs_win32_error ($"inspect child attributes") p
         | Some attributes =>
             ret (Some (if has_flag attributes FILE_ATTRIBUTE_DIRECTORY then EntryDirectory else EntryFile))
         end)
  end.

(** [create_directory]: once created, every failure deletes the object. *)
Definition create_directory (d : SecureDirectory) (name : wide) : FsM (SecureDirectory * SecureCreatedEntry) :=
  let* p := lift (child_display_path (sd_path d) name) in
  let* created := attempt (nt_open_relative (sd_handle d) name p (DIRECTORY_WRITE_ACCESS .| DELETE)
                             PINNED_DIRECTORY_SHARES FILE_CREATE DIRECTORY_OPTIONS) in
  match created with
  | Err (FsAlreadyExists _) => throw (FsAlreadyExists (display p))
  | Err error => throw error
  | Ok (handle, _) =>
      let* identity := attempt (do* reject_reparse_handle handle p in fs_file_identity handle p) in
      match identity with
      | Err error => pending_fail handle p error
      | Ok identity =>
          let* guards := attempt (clone_namespace_guards d p) in
          match guards with
          | Err error => pending_fail handle p error
          | Ok guards =>
              let* clone := attempt (try_clone handle) in
              match clone with
              | Err source =>
                  defer (close_all guards)
                    (pending_fail handle p
                       (FsIo ($"duplicate created directory handle") (display p) source))
              | Ok rollback_handle =>
                  ret ({| sd_handle := handle; namespace_guards := guards; sd_path := p;
                          ancestry := ancestry d ++ [identity] |},
                       {| ce_handle := rollback_handle; ce_path := p |})
              end
          end
      end
  end.

Definition open_or_create_directory (d : SecureDirectory) (name : wide)
    : FsM (SecureDirectory * option SecureCreatedEntry) :=
  let* opened := attempt (open_directory d name) in
  match opened with
  | Ok directory => ret (directory, None)
  | Err (FsNotFound _) =>
      let* '(directory, created) := create_directory d name in ret (directory, Some created)
  | Err error => throw error
  end.

Definition open_file (d : SecureDirectory) (name : wide) : FsM Z :=
  let* p := lift (child_display_path (sd_path d) name) in
  let* '(handle, _) := nt_open_relative (sd_handle d) name p (FILE_GENERIC_READ .| SYNCHRONIZE)
                         FILE_SHARE_READ FILE_OPEN FILE_OPTIONS in
  on_error (close_handle handle) (do* reject_reparse_handle handle p in ret handle).

Definition create_file (d : SecureDirectory) (name : wide) : FsM (Z * SecureCreatedEntry) :=
  let* p := lift (child_display_path (sd_path d) name) in
  let* created := attempt (nt_open_relative (sd_handle d) name p
                             (FILE_GENERIC_READ .| FILE_GENERIC_WRITE .| DELETE .| SYNCHRONIZE)
                             FILE_SHARE_READ FILE_CREATE FILE_OPTIONS) in
  match created with
  | Err (FsAlreadyExists _) =>
      let* existing := attempt (nt_open_relative (sd_handle d) name p
                                  (FILE_READ_ATTRIBUTES .| SYNCHRONIZE) ALL_FILE_SHARES FILE_OPEN
                                  ANY_OPTIONS) in
      do* match existing with
          | Ok (existing, _) => using_handle existing (reject_reparse_handle existing p)
          | Err (FsNotFound _) => ret tt
          | Err error => throw error
          end in
      throw (FsAlreadyExists (display p))
  | Err error => throw error
  | Ok (handle, _) =>
      let* checked := attempt (reject_reparse_handle handle p) in
      match checked with
      | Err error => pending_fail handle p error
      | Ok _ =>
          let* clone := attempt (try_clone handle) in
          match clone with
          | Err source =>
              pending_fail handle p (FsIo ($"duplicate created file handle") (display p) source)
          | Ok rollback_handle => ret (handle, {| ce_handle := rollback_handle; ce_path := p |})
          end
      end
  end.

(** The loop of [open_absolute]. *)
Fixpoint open_components (create_missing : bool) (current : SecureDirectory) (names : list wide)
    (created : list SecureCreatedEntry) : FsM (SecureDirectory * list SecureCreatedEntry) :=
  match names with
  | [] => ret (current, created)
  | component :: names' =>
      let* next := attempt (if create_missing then open_or_create_directory current component
                            else let* d := open_directory current component in ret (d, None)) in
      match next with
      | Ok (directory, created_entry) =>
          do* drop_directory current in
          open_components create_missing directory names'
            (match created_entry with Some e => created ++ [e] | None => created end)
      | Err error =>
          do* drop_directory current in
          let* rollback := rollback_created created in
          match rollback with
          | Some rollback_error => throw (FsRollback (show_SecureFsError error) rollback_error)
          | None => throw error
          end
      end
  end.
Definition open_absolute (p : path) (create_missing : bool)
    : FsM (SecureDirectory * list SecureCreatedEntry) :=
  let* '(root_path, names) := lift (fs_split_absolute p) in
  let* root := open_volume_or_share_root root_path in
  open_components create_missing root names [].
Definition open_absolute_existing (p : path) : FsM SecureDirectory :=
  let* '(directory, _) := open_absolute p false in ret directory.
Definition open_or_create_absolute (p : path) : FsM (SecureDirectory * list SecureCreatedEntry) :=
  open_absolute p true.

(** ** Enumeration *)
Fixpoint entries_loop (turns : nat) (d : SecureDirectory) (restart : bool)
    (entries : list SecureDirEntry) : FsM (list SecureDirEntry) :=
  match turns with
  | O => out_of_fuel
  | Datatypes.S turns' =>
      let* answer := call (GetDirectoryInfo (sd_handle d) restart (Z.of_nat DIRECTORY_BUFFER_BYTES)) in
      match answer with
      | None =>
          let* error := last_os_error in
          if bool_decide (raw_os_error error = Some ERROR_NO_MORE_FILES) then ret entries
          else throw (FsIo ($"enumerate directory by handle") (display (sd_path d)) error)
      | Some written =>
          match parse_directory_buffer (written_over DIRECTORY_BUFFER_BYTES written)
                  DIRECTORY_BUFFER_BYTES (sd_path d) entries with
          | None => out_of_fuel
          | Some r => let* entries := lift r in entries_loop turns' d false entries
          end
      end
  end.
Definition entries (d : SecureDirectory) : FsM (list SecureDirEntry) :=
  let* found := entries_loop fuel d true [] in ret (sort_by_name found).
End SecureFs.

(** ** Comparing directories *)
Definition overlaps (a b : SecureDirectory) : bool :=
  match last (ancestry a) with Some i => bool_decide (i ∈ ancestry b) | None => false end
  || match last (ancestry b) with Some i => bool_decide (i ∈ ancestry a) | None => false end.
Definition is_within (a ancestor : SecureDirectory) : bool :=
  match last (ancestry ancestor) with Some i => bool_decide (i ∈ ancestry a) | None => false end.

(** ** Directory buffers are parsed within bounds *)

Lemma read_u32_Some buffer offset : offset + 4 <= length buffer -> is_Some (read_u32 buffer offset).
Proof. intros Hb. unfold read_u32. by rewrite (proj2 (Nat.leb_le _ _)). Qed.
Lemma read_units_Some buffer offset n :
  offset + n <= length buffer -> is_Some (read_units buffer offset n).
Proof. intros Hb. unfold read_units. by rewrite (proj2 (Nat.leb_le _ _)). Qed.

Lemma parse_entries_Some turns buffer directory offset found :
  offset <= length buffer -> length buffer < offset + turns ->
  is_Some (parse_entries turns buffer (length buffer) directory offset found).
Proof.
  revert offset found. induction turns as [|turns IH]; intros offset found Hle Hlt; [lia|].
  cbn [parse_entries]. unfold DIR_INFO_SIZE, HEADER_BYTES.
  destruct (Nat.ltb_spec (length buffer) (offset + 112)); [done|].
  destruct (read_u32_Some buffer offset ltac:(lia)) as [next ->].
  destruct (read_u32_Some buffer (offset + 56) ltac:(lia)) as [attributes ->].
  destruct (read_u32_Some buffer (offset + 60) ltac:(lia)) as [name_length ->]. cbn [base.mbind option_bind].
  destruct (negb _); [done|]. cbn [orb].
  destruct (Nat.ltb_spec (length buffer) (offset + 104 + Z.to_nat name_length)); [done|].
  destruct (read_units_Some buffer (offset + 104) (Z.to_nat name_length) ltac:(lia)) as [name ->].
  cbn [base.mbind option_bind].
  destruct (_ && has_flag _ _); [done|]. destruct (Z.eqb next 0); [done|].
  destruct (Nat.ltb_spec (Z.to_nat next) 104); [done|]. cbn [orb].
  destruct (Nat.leb_spec (length buffer) (offset + Z.to_nat next)); [done|].
  apply IH; lia.
Qed.

(** C36: parsing a directory buffer ends and never reads outside it, whatever
    its bytes: every entry offset, name length and name is checked against the
    buffer before it is used, and every step advances. *)
Theorem parse_directory_buffer_safe (buffer : list Z) (directory : path) (found : list SecureDirEntry) :
  is_Some (parse_directory_buffer buffer (length buffer) directory found).
Proof. apply parse_entries_Some; lia. Qed.

(** A buffer of two entries: the dot entry, skipped, and a file. *)
Definition sample_entry (next attributes : Z) (name : str) : list Z :=
  u32_le next ++ repeat 0%Z 52 ++ u32_le attributes ++ u32_le (2 * Z.of_nat (length name))
  ++ repeat 0%Z 40 ++ bytes_of_units (encode_utf16 name) ++ repeat 0%Z 8.
Example parse_sample_buffer :
  parse_directory_buffer (sample_entry 114 16 ($".") ++ sample_entry 0 32 ($"a.txt"))
    236 ($"C:\p") [] =
  Some (Ok [{| entry_name := $"a.txt"; entry_kind := EntryFile |}]).
Proof. vm_compute. reflexivity. Qed.

(** ** Handles are neither leaked nor used after they are closed

    [open g] is the set of handles the process holds.  The documented
    behaviour of the calls: a successful open or duplication returns a handle
    that was not held, closing a handle releases it, nothing else changes the
    set.  A call is permitted when the handles it names are held. *)
Section Handles.
Context {G : Type} (open : G -> gset Z).

Definition handles_used (a : sys) : list Z :=
  match a with
  | NtCreateFile parent _ _ _ _ _ _ _ => [parent]
  | GetFileInformationByHandle h | GetFileAttributeTagInfo h | GetFileIdInfo h
  | GetDirectoryInfo h _ _ | SetFileDisposition h | DuplicateHandle h | CloseHandle h => [h]
  | _ => []
  end.
Definition handle_opened (a : sys) : sys_resp a -> option Z :=
  match a return sys_resp a -> option Z with
  | NtCreateFile _ _ _ _ _ _ _ _ => fun x =>
      if (nt_status x <? 0)%Z then None else OwnedHandle_from_raw (nt_handle x)
  | CreateFileW _ _ _ _ => OwnedHandle_from_raw
  | DuplicateHandle _ => fun x => if fst x then OwnedHandle_from_raw (snd x) else None
  | _ => fun _ => None
  end.
Definition handle_call (a : sys) : bool :=
  match a with
  | NtCreateFile _ _ _ _ _ _ _ _ | CreateFileW _ _ _ _ | GetFileInformationByHandle _
  | GetFileAttributeTagInfo _ | GetDirectoryInfo _ _ _ | SetFileDisposition _ | DuplicateHandle _
  | CloseHandle _ | GetLastError => true
  | _ => false
  end.

Record handle_laws (P : protocol G) : Prop := {
  handle_permitted : forall a g,
    handle_call a = true -> Forall (fun h => h ∈ open g) (handles_used a) -> permitted P a g;
  handle_answers : forall a g x g', handle_call a = true -> answers P a g x g' ->
    match a with
    | CloseHandle h => open g' = open g ∖ {[h]}
    | _ => match handle_opened a x with
           | Some h => h ∉ open g /\ open g' = {[h]} ∪ open g
           | None => open g' = open g
           end
    end;
}.

(** [X] the handles of the caller, [hs] those acquired since. *)
Definition holds (X : gset Z) (hs : list Z) (g : G) : Prop :=
  NoDup hs /\ Forall (fun h => h ∉ X) hs /\ Forall (fun h => OwnedHandle_from_raw h = Some h) hs
  /\ open g = list_to_set hs ∪ X.

Lemma holds_nil X g : holds X [] g <-> open g = X.
Proof.
  unfold holds. split.
  - intros (_ & _ & _ & ->). set_solver.
  - intros ->. repeat split; try constructor. set_solver.
Qed.

(** The acquired handles stay as described while [hs'] come and go. *)
Lemma holds_trans X hs hs' g g' :
  holds X hs g -> holds (list_to_set hs ∪ X) hs' g' -> holds X (hs' ++ hs) g'.
Proof.
  intros (Hn & Hf & Hv & _) (Hn' & Hf' & Hv' & Hg). split; [|split; [|split]].
  - apply NoDup_app. repeat split; [done| |done]. intros h Hh Hh2.
    rewrite Forall_forall in Hf'. specialize (Hf' h Hh). set_solver.
  - apply Forall_app. split; [|done]. eapply Forall_impl; [exact Hf'|]. set_solver.
  - by apply Forall_app.
  - rewrite Hg, list_to_set_app_L. set_solver.
Qed.

Lemma holds_perm X hs hs' g : hs ≡ₚ hs' -> holds X hs g -> holds X hs' g.
Proof.
  intros Hp (Hn & Hf & Hv & Hg). split; [|split; [|split]].
  - by apply (NoDup_Permutation_proper hs hs').
  - by apply (Permutation_Forall Hp).
  - by apply (Permutation_Forall Hp).
  - rewrite Hg. by rewrite (list_to_set_perm_L hs hs').
Qed.

Section Spec.
Context {S : Type} `{Fuel} `{Extern} (P : protocol G) (HP : handle_laws P).

(** What a function leaves: on success handles related to its result by
    [R], nothing on an error. *)
Definition leaves {E A} (X : gset Z) (R : A -> list Z -> Prop) (r : result E A) (g : G) : Prop :=
  match r with Ok a => exists hs, R a hs /\ holds X hs g | Err _ => open g = X end.
Definition no_handles {A} (_ : A) (hs : list Z) : Prop := hs = [].
Definition runs {E A} (X : gset Z) (R : A -> list Z -> Prop) (m : M S E A) (s : S) (g : G) : Prop :=
  wpM P m (fun r _ g' => leaves X R r g') s g.
(** Specification of a function that starts with the handles [X]. *)
Definition keeps {E A} (X : gset Z) (R : A -> list Z -> Prop) (m : M S E A) : Prop :=
  forall s g, open g = X -> runs X R m s g.

Lemma runs_ret {E A} X (R : A -> list Z -> Prop) a hs s g :
  R a hs -> holds X hs g -> runs (E:=E) X R (ret a) s g.
Proof. intros Ha Hg. by exists hs. Qed.
Lemma keeps_ret {E A} X (R : A -> list Z -> Prop) a : R a [] -> keeps (E:=E) X R (ret a).
Proof. intros Ha s g Hg. exists []. by rewrite holds_nil. Qed.
Lemma keeps_throw {E A} X (R : A -> list Z -> Prop) (e : E) : keeps X R (throw e).
Proof. by intros s g Hg. Qed.
Lemma keeps_lift {E A} X (r : result E A) : keeps X no_handles (lift r).
Proof. intros s g Hg. destruct r; [by exists []; rewrite holds_nil|done]. Qed.

(** A call that opens nothing. *)
Lemma keeps_call {E} X a :
  handle_call a = true -> Forall (fun h => h ∈ X) (handles_used a) ->
  (match a with CloseHandle _ => false | _ => true end) = true ->
  (forall x, handle_opened a x = None) ->
  keeps (E:=E) X no_handles (call a).
Proof.
  intros Hc Hu Hcl Ho s g Hg. unfold runs. wp_call.
  - apply (handle_permitted _ HP); [done|]. by rewrite Hg.
  - intros x g' Ha. apply (handle_answers _ HP) in Ha; [|done]. exists []. split; [done|]. apply holds_nil.
    rewrite <- Hg. rewrite Ho in Ha. by destruct a.
Qed.

(** Sequencing: what the first function leaves is held while the rest runs. *)
Lemma runs_bind {E A B} X RA (RB : B -> list Z -> Prop) (m : M S E A) (f : A -> M S E B) s g :
  runs X RA m s g ->
  (forall a hs s g, RA a hs -> holds X hs g -> runs X RB (f a) s g) ->
  runs X RB (mbind m f) s g.
Proof.
  intros Hm Hf. apply wpM_bind. eapply wpM_mono; [exact Hm|].
  intros [a|e] s' g' Hl; simpl in *; [|done]. destruct Hl as (hs & Ha & Hh). by eapply Hf.
Qed.
Lemma keeps_bind {E A B} X (RB : B -> list Z -> Prop) (m : M S E A) (f : A -> M S E B) :
  keeps X no_handles m -> (forall a, keeps X RB (f a)) -> keeps X RB (mbind m f).
Proof.
  intros Hm Hf s g Hg. eapply runs_bind; [by apply Hm|].
  intros a hs s' g' -> Hh. by apply Hf, holds_nil.
Qed.
Lemma keeps_attempt {E E' A} X (R : A -> list Z -> Prop) (m : M S E A) :
  keeps X R m ->
  keeps (E:=E') X (fun r hs => match r with Ok a => R a hs | Err _ => hs = [] end) (attempt m).
Proof.
  intros Hm s g Hg. apply wpM_attempt. eapply wpM_mono; [by apply Hm|].
  intros [a|e] s' g' Hl; simpl in *; [done|]. exists []. by rewrite holds_nil.
Qed.

Lemma wp_close {E} X h hs s g (Q : result E unit -> S -> G -> Prop) :
  holds X (h :: hs) g -> (forall g', holds X hs g' -> Q (Ok tt) s g') ->
  wpM P (close_handle h) Q s g.
Proof.
  intros (Hn & Hf & Hv & Hg) HQ. inversion_clear Hn. inversion_clear Hf. inversion_clear Hv as [|? ? Hh Hv'].
  unfold close_handle. unfold OwnedHandle_from_raw in Hh.
  destruct (Z.eqb h 0); [done|]. destruct (Z.eqb h INVALID_HANDLE_VALUE); [done|]. simpl.
  wp_call.
  - apply (handle_permitted _ HP); [done|]. constructor; [|constructor]. rewrite Hg. set_solver.
  - intros [] g' Ha. apply (handle_answers _ HP) in Ha; [|done]. apply HQ.
    repeat split; try done. rewrite Ha, Hg. set_solver.
Qed.
Lemma wp_close_all {E} X hs hs' s g (Q : result E unit -> S -> G -> Prop) :
  holds X (hs ++ hs') g -> (forall g', holds X hs' g' -> Q (Ok tt) s g') ->
  wpM P (close_all hs) Q s g.
Proof.
  revert g. induction hs as [|h hs IH]; intros g Hg HQ; [by apply wpM_ret, HQ|].
  simpl. apply wpM_bind. eapply wp_close; [exact Hg|]. intros g' Hg'. by apply IH.
Qed.

Lemma one_set (X : gset Z) h : list_to_set [h] ∪ X = {[h]} ∪ X.
Proof. set_solver. Qed.
Lemma holds_one X h g : holds X [h] g -> open g = {[h]} ∪ X.
Proof. intros (_ & _ & _ & ->). set_solver. Qed.

(** The scope of an owned handle that is handed on in the result. *)
Lemma runs_on_error {E A} X h (R' R : A -> list Z -> Prop) (m : M S E A) s g :
  holds X [h] g -> keeps ({[h]} ∪ X) R' m ->
  (forall a hs, R' a hs -> R a (h :: hs)) ->
  runs X R (on_error (close_handle h) m) s g.
Proof.
  intros Hh Hm HR. apply wpM_on_error. eapply wpM_mono; [by apply Hm, holds_one|].
  intros [a|e] s' g' Hl; simpl in *.
  - destruct Hl as (hs & Ha & Hg). exists (h :: hs). split; [by apply HR|].
    apply (holds_perm _ (hs ++ [h])); [by rewrite (comm (++))|].
    eapply holds_trans; [exact Hh|]. by rewrite one_set.
  - eapply wp_close; [|by intros g'' ->%holds_nil].
    destruct Hh as (Hn & Hf & Hv & _). repeat split; try done. by rewrite one_set.
Qed.
(** The scope of an owned handle that ends here. *)
Lemma runs_using {E A} X h (R : A -> list Z -> Prop) (m : M S E A) s g :
  holds X [h] g -> keeps ({[h]} ∪ X) no_handles m ->
  (forall a, R a []) -> runs X R (using_handle h m) s g.
Proof.
  intros Hh Hm HR. apply wpM_defer. eapply wpM_mono; [by apply Hm, holds_one|].
  intros r s' g' Hl. eapply wp_close.
  - destruct Hh as (Hn & Hf & Hv & _). repeat split; try done. rewrite one_set.
    destruct r as [a|e]; simpl in Hl; [|done]. by destruct Hl as (hs & -> & <-%holds_nil).
  - intros g'' Hg''. destruct r; simpl; [by exists []|]. by apply holds_nil.
Qed.

(** *** The functions *)
Definition dir_handles (d : SecureDirectory) : list Z := sd_handle d :: namespace_guards d.
Definition held (X : gset Z) (d : SecureDirectory) : Prop := Forall (fun h => h ∈ X) (dir_handles d).

Lemma keeps_win32_error {A} X (R : A -> list Z -> Prop) operation p :
  keeps X R (fs_win32_error operation p).
Proof. apply keeps_bind; [apply keeps_bind; [by apply keeps_call|]|]; intros a;
  [by apply keeps_ret|apply keeps_throw]. Qed.

Lemma keeps_reject h p X : h ∈ X -> keeps X no_handles (reject_reparse_handle h p).
Proof.
  intros Hh. apply keeps_bind; [by apply keeps_call; repeat constructor|].
  intros [attributes|]; [|apply keeps_win32_error].
  destruct (has_flag _ _); [apply keeps_throw|by apply keeps_ret].
Qed.
Lemma keeps_identity h p X : h ∈ X -> keeps X no_handles (fs_file_identity h p).
Proof.
  intros Hh. apply keeps_bind; [by apply keeps_call; repeat constructor|].
  intros [i|]; [by apply keeps_ret|apply keeps_win32_error].
Qed.
Lemma keeps_delete h p X : h ∈ X -> keeps X no_handles (delete_open_handle h p).
Proof.
  intros Hh. apply keeps_bind; [by apply keeps_call; repeat constructor|].
  intros []; [by apply keeps_ret|apply keeps_win32_error].
Qed.

Lemma holds_new X h g g' :
  open g = X -> OwnedHandle_from_raw h = Some h -> h ∉ open g -> open g' = {[h]} ∪ open g ->
  holds X [h] g'.
Proof.
  intros <- Hv Hf Hg. repeat split; [apply NoDup_singleton|by repeat constructor|by repeat constructor|].
  by rewrite Hg, one_set.
Qed.
Lemma from_raw_Some raw h : OwnedHandle_from_raw raw = Some h -> raw = h.
Proof. unfold OwnedHandle_from_raw. by case_match; intros; simplify_eq. Qed.

Lemma keeps_nt_open X parent name p access share disposition options :
  parent ∈ X ->
  keeps X (fun x hs => hs = [fst x])
    (nt_open_relative parent name p access share disposition options).
Proof.
  intros Hp. apply keeps_bind; [apply keeps_lift|]. intros _.
  case_match; [apply keeps_throw|]. intros s g Hg. apply wpM_bind. wp_call.
  - apply (handle_permitted _ HP); [done|]. rewrite Hg. by repeat constructor.
  - intros x g' Ha. apply (handle_answers _ HP) in Ha; [|done]. simpl in Ha.
    destruct (nt_status x <? 0)%Z; [by apply wpM_throw; simpl; rewrite Ha|].
    destruct (OwnedHandle_from_raw (nt_handle x)) as [h|] eqn:Hv; [|by apply wpM_throw; simpl; rewrite Ha].
    apply wpM_ret. exists [h]. split; [done|]. pose proof (from_raw_Some _ _ Hv) as Heq. rewrite Heq in Hv.
    destruct Ha as [Hf Ha]. by eapply holds_new.
Qed.

Lemma keeps_last_os_error {A} X (R : A -> list Z -> Prop) :
  keeps X R (let* e := last_os_error in throw e).
Proof.
  apply keeps_bind; [|intros; apply keeps_throw].
  apply keeps_bind; [by apply keeps_call|]. intros; by apply keeps_ret.
Qed.
Lemma keeps_try_clone h X : h ∈ X -> keeps X (fun h' hs => hs = [h']) (try_clone h).
Proof.
  intros Hh s g Hg. apply wpM_bind. wp_call.
  - apply (handle_permitted _ HP); [done|]. rewrite Hg. by repeat constructor.
  - intros [ok h'] g' Ha. apply (handle_answers _ HP) in Ha; [|done]. simpl in Ha.
    destruct ok; simpl; [|apply keeps_last_os_error; congruence]. unfold from_raw_checked.
    destruct (OwnedHandle_from_raw h') as [h2|] eqn:Hv; [|apply keeps_last_os_error; congruence].
    pose proof (from_raw_Some _ _ Hv) as Heq. subst h2.
    apply wpM_ret. exists [h']. split; [done|]. destruct Ha as [Hf Ha]. by eapply holds_new.
Qed.

Lemma runs_clone_guards X guards cloned operation p s g :
  Forall (fun h => h ∈ X) guards -> holds X cloned g ->
  runs X (fun l hs => l ≡ₚ hs) (clone_guards guards cloned operation p) s g.
Proof.
  intros Hg. revert cloned s g. induction Hg as [|h guards Hh _ IH]; intros cloned s g Hc; [by exists cloned|].
  simpl. apply wpM_bind, wpM_attempt. pose proof Hc as (_ & _ & _ & Heq).
  eapply wpM_mono; [apply (keeps_try_clone h (list_to_set cloned ∪ X)); [set_solver|done]|].
  intros [h'|e] s' g' Hl; simpl in *.
  - destruct Hl as (hs & -> & Hh'). apply IH. eapply holds_perm; [|by eapply holds_trans].
    by rewrite (comm (++)).
  - apply wpM_bind. eapply (wp_close_all X cloned []).
    + rewrite app_nil_r. destruct Hc as (? & ? & ? & _). by repeat split.
    + intros g'' Hg''%holds_nil. by apply wpM_throw.
Qed.

Lemma keeps_clone_namespace_guards X d p :
  held X d -> keeps X (fun l hs => l ≡ₚ hs) (clone_namespace_guards d p).
Proof.
  intros Hd s g Hg. inversion_clear Hd. eapply runs_bind.
  - apply runs_clone_guards; [done|]. by apply holds_nil.
  - intros l hs s' g' Hl Hh. apply runs_clone_guards; [by repeat constructor|]. by eapply holds_perm.
Qed.

Definition is_dir (d : SecureDirectory) (hs : list Z) : Prop := dir_handles d ≡ₚ hs.

Lemma keeps_open_volume p X : keeps X is_dir (open_volume_or_share_root p).
Proof.
  intros s g Hg. apply wpM_bind. wp_call; [apply (handle_permitted _ HP); [done|constructor]|].
  intros raw g' Ha. apply (handle_answers _ HP) in Ha; [|done]. simpl in Ha.
  destruct (OwnedHandle_from_raw raw) as [h|] eqn:Hv; [|apply keeps_win32_error; congruence].
  pose proof (from_raw_Some _ _ Hv) as Heq. subst raw. destruct Ha as [Hf Ha].
  eapply (runs_on_error _ _ (fun d hs => sd_handle d = h /\ namespace_guards d = hs)).
  - by eapply holds_new.
  - apply keeps_bind; [apply keeps_reject; set_solver|]. intros _.
    apply keeps_bind; [apply keeps_identity; set_solver|]. intros i. by apply keeps_ret.
  - intros d hs [<- <-]. unfold is_dir, dir_handles. reflexivity.
Qed.

Lemma held_mono X Y d : X ⊆ Y -> held X d -> held Y d.
Proof. intros HXY. unfold held. intros Hd. eapply Forall_impl; [exact Hd|]. set_solver. Qed.

Lemma keeps_open_directory d name X : held X d -> keeps X is_dir (open_directory d name).
Proof.
  intros Hd. apply keeps_bind; [apply keeps_lift|]. intros p s g Hg. eapply runs_bind.
  { apply keeps_nt_open; [by inversion_clear Hd|done]. }
  intros [h i] hs s' g' -> Hh.
  eapply (runs_on_error _ _ (fun d hs => sd_handle d = h /\ namespace_guards d ≡ₚ hs)); [exact Hh| |].
  - apply keeps_bind; [apply keeps_reject; set_solver|]. intros _.
    apply keeps_bind; [apply keeps_identity; set_solver|]. intros identity s2 g2 Hg2.
    eapply runs_bind; [apply keeps_clone_namespace_guards; [|done]; eapply held_mono; [|done]; set_solver|].
    intros guards hs s3 g3 Hp Hh3. by eapply runs_ret.
  - intros d' hs [<- Hp]. unfold is_dir, dir_handles. by rewrite Hp.
Qed.

Lemma runs_pending_fail {A} X h hs p e (s : S) g :
  holds X (h :: hs) g ->
  wpM P (pending_fail (A:=A) h p e) (fun r _ g' => is_ok r = false /\ holds X hs g') s g.
Proof.
  intros Hh. apply wpM_bind, wpM_attempt. pose proof Hh as (Hn & Hf & Hv & Heq).
  eapply wpM_mono; [apply (keeps_delete h p (open g)); [set_solver|done]|]. intros r s' g' Hl.
  assert (open g' = open g) as Heq'.
  { destruct r; simpl in Hl; [|done]. by destruct Hl as (? & -> & ?%holds_nil). }
  apply wpM_bind. eapply (wp_close X h hs).
  - repeat split; try done. congruence.
  - intros g'' Hg''. by destruct r; apply wpM_throw.
Qed.

Lemma runs_pending_fail_one {A} X (R : A -> list Z -> Prop) h p e s g :
  holds X [h] g -> runs X R (pending_fail h p e) s g.
Proof.
  intros Hh. eapply wpM_mono; [by apply runs_pending_fail|].
  intros [a|e'] s' g' [Hr Hg']; [done|]. by apply holds_nil.
Qed.

Lemma holds_still X hs g g' : holds X hs g -> open g' = open g -> holds X hs g'.
Proof. intros (? & ? & ? & Heq) Hg. repeat split; try done. congruence. Qed.

Definition is_created (x : SecureDirectory * SecureCreatedEntry) (hs : list Z) : Prop :=
  ce_handle (snd x) :: dir_handles (fst x) ≡ₚ hs.

(** A subcall that keeps the handles held so far. *)
Lemma wp_frame {E A} X hs (R : A -> list Z -> Prop) (m : M S E A) (Q : result E A -> S -> G -> Prop) s g :
  holds X hs g -> keeps (list_to_set hs ∪ X) R m ->
  (forall a s' g' hs', R a hs' -> holds X (hs' ++ hs) g' -> Q (Ok a) s' g') ->
  (forall e s' g', holds X hs g' -> Q (Err e) s' g') ->
  wpM P m Q s g.
Proof.
  intros Hh Hm HO HE. pose proof Hh as (_ & _ & _ & Heq).
  eapply wpM_mono; [by apply Hm|]. intros [a|e] s' g' Hl; simpl in Hl.
  - destruct Hl as (hs' & HR & Hg'). eapply HO; [done|]. by eapply holds_trans.
  - apply HE. eapply holds_still; [exact Hh|congruence].
Qed.

Lemma keeps_create_directory d name X : held X d -> keeps X is_created (create_directory d name).
Proof.
  intros Hd. apply keeps_bind; [apply keeps_lift|]. intros p s g Hg. eapply runs_bind.
  { eapply keeps_attempt; [apply keeps_nt_open; by inversion_clear Hd|done]. }
  intros [[h i]|e] hs s' g' Hr Hh; simpl in Hr; subst hs.
  2:{ apply holds_nil in Hh. destruct e; by apply keeps_throw. }
  assert (h ∈ list_to_set [h] ∪ X) as Hin by set_solver.
  apply wpM_bind, wpM_attempt. eapply wp_frame; [exact Hh| | |].
  { apply keeps_bind; [by apply keeps_reject|]. intros _. by apply keeps_identity. }
  2:{ intros e s2 g2 Hg2. by apply runs_pending_fail_one. }
  intros identity s2 g2 hs2 -> Hg2. simpl in Hg2.
  apply wpM_bind, wpM_attempt. eapply wp_frame; [exact Hg2| | |].
  { apply keeps_clone_namespace_guards. eapply held_mono; [|done]. set_solver. }
  2:{ intros e s3 g3 Hg3. by apply runs_pending_fail_one. }
  intros guards s3 g3 hs3 Hp Hg3.
  apply wpM_bind, wpM_attempt. eapply wp_frame; [exact Hg3| | |].
  { apply keeps_try_clone. set_solver. }
  - intros h' s4 g4 hs4 -> Hg4. apply wpM_ret. exists ([h'] ++ hs3 ++ [h]). split; [|done].
    unfold is_created, dir_handles. simpl. by rewrite Hp, (comm (++) hs3 [h]).
  - intros e s4 g4 Hg4. apply wpM_defer. eapply wpM_mono.
    { apply (runs_pending_fail X h hs3). apply (holds_perm _ (hs3 ++ [h])); [|exact Hg4].
      by rewrite (comm (++)). }
    intros r s5 g5 [Hr Hg5]. eapply (wp_close_all X guards []).
    + rewrite app_nil_r. by eapply holds_perm; [|exact Hg5].
    + intros g6 Hg6%holds_nil. by destruct r.
Qed.

Definition is_opened (x : SecureDirectory * option SecureCreatedEntry) (hs : list Z) : Prop :=
  map ce_handle (option_list (snd x)) ++ dir_handles (fst x) ≡ₚ hs.

Lemma keeps_open_or_create_directory d name X :
  held X d -> keeps X is_opened (open_or_create_directory d name).
Proof.
  intros Hd s g Hg. eapply runs_bind.
  { eapply keeps_attempt; [by apply keeps_open_directory|done]. }
  intros [d'|e] hs s' g' Hr Hh; simpl in Hr.
  - by eapply runs_ret.
  - subst hs. apply holds_nil in Hh. destruct e; try by apply keeps_throw.
    eapply runs_bind; [by apply keeps_create_directory|].
    intros [d' c] hs s2 g2 Hr Hh2. by eapply runs_ret.
Qed.

(** [open_file] and [create_file]: the returned file, and for a created one
    the handle its rollback uses. *)
Lemma keeps_open_file d name X : held X d -> keeps X (fun h hs => hs = [h]) (open_file d name).
Proof.
  intros Hd. apply keeps_bind; [apply keeps_lift|]. intros p s g Hg. eapply runs_bind.
  { apply keeps_nt_open; [by inversion_clear Hd|done]. }
  intros [h i] hs s' g' -> Hh. eapply (runs_on_error _ _ (fun a hs => a = h /\ hs = [])); [exact Hh| |].
  - apply keeps_bind; [apply keeps_reject; set_solver|]. intros _. by apply keeps_ret.
  - by intros a hs [-> ->].
Qed.

Lemma keeps_create_file d name X :
  held X d -> keeps X (fun x hs => hs = [ce_handle (snd x); fst x]) (create_file d name).
Proof.
  intros Hd. assert (sd_handle d ∈ X) as Hdh by (by inversion_clear Hd).
  apply keeps_bind; [apply keeps_lift|]. intros p s g Hg. eapply runs_bind.
  { eapply keeps_attempt; [by apply keeps_nt_open|done]. }
  intros [[h i]|e] hs s' g' Hr Hh; simpl in Hr; subst hs.
  - apply wpM_bind, wpM_attempt. eapply wp_frame; [exact Hh|apply keeps_reject; set_solver| |].
    2:{ intros e s2 g2 Hg2. by apply runs_pending_fail_one. }
    intros [] s2 g2 hs2 -> Hg2. apply wpM_bind, wpM_attempt.
    eapply wp_frame; [exact Hg2|apply keeps_try_clone; set_solver| |].
    + intros h' s3 g3 hs3 -> Hg3. apply wpM_ret. by exists [h'; h].
    + intros e s3 g3 Hg3. by apply runs_pending_fail_one.
  - apply holds_nil in Hh. destruct e; try by apply keeps_throw.
    eapply (runs_bind X (fun r hs => match r with Ok x => hs = [fst x] | Err _ => hs = [] end)).
    { by eapply keeps_attempt; [apply keeps_nt_open|]. }
    intros existing hs s2 g2 Hr Hh2. eapply (runs_bind X no_handles); [|].
    + destruct existing as [[h i]|e]; simpl in Hr; subst hs.
      * apply runs_using; [done| |done]. apply keeps_reject. set_solver.
      * apply holds_nil in Hh2. destruct e; first [by apply keeps_throw | by apply keeps_ret].
    + intros [] hs' s3 g3 -> Hh3%holds_nil. by apply keeps_throw.
Qed.

Lemma wp_remove X e hs (s : S) g (Q : result SecureFsError unit -> S -> G -> Prop) :
  holds X (ce_handle e :: hs) g -> (forall r s' g', holds X hs g' -> Q r s' g') ->
  wpM P (remove e) Q s g.
Proof.
  intros Hh HQ. apply wpM_defer. pose proof Hh as (_ & _ & _ & Heq).
  eapply wpM_mono; [apply (keeps_delete (ce_handle e) (ce_path e) (open g)); [set_solver|done]|].
  intros r s' g' Hl. eapply (wp_close X (ce_handle e) hs); [|intros; by apply HQ].
  eapply holds_still; [exact Hh|]. destruct r; simpl in Hl; [|done].
  by destruct Hl as (? & -> & ?%holds_nil).
Qed.

Lemma wp_rollback_entries {E} X entries first_error hs (s : S) g :
  holds X (map ce_handle entries ++ hs) g ->
  wpM P (rollback_entries (E:=E) entries first_error) (fun r _ g' => is_ok r = true /\ holds X hs g') s g.
Proof.
  revert first_error s g. induction entries as [|e entries IH]; intros first_error s g Hh; [by apply wpM_ret|].
  simpl. apply wpM_bind, wpM_attempt. eapply wp_remove; [exact Hh|]. intros r s' g' Hg'. by apply IH.
Qed.
Lemma wp_rollback_created {E} X entries hs (s : S) g :
  holds X (map ce_handle entries ++ hs) g ->
  wpM P (rollback_created (E:=E) entries) (fun r _ g' => is_ok r = true /\ holds X hs g') s g.
Proof.
  intros Hh. apply wp_rollback_entries. eapply holds_perm; [|exact Hh].
  by rewrite map_rev, <- (Permutation_rev (map ce_handle entries)).
Qed.

Lemma wp_drop_directory {E} X d hs (s : S) g (Q : result E unit -> S -> G -> Prop) :
  holds X (dir_handles d ++ hs) g -> (forall g', holds X hs g' -> Q (Ok tt) s g') ->
  wpM P (drop_directory d) Q s g.
Proof.
  intros Hh HQ. apply wpM_bind. eapply wp_close; [exact Hh|]. intros g' Hg'.
  by eapply wp_close_all.
Qed.

Definition is_tree (x : SecureDirectory * list SecureCreatedEntry) (hs : list Z) : Prop :=
  dir_handles (fst x) ++ map ce_handle (snd x) ≡ₚ hs.

Lemma runs_open_components X create names current created s g :
  holds X (dir_handles current ++ map ce_handle created) g ->
  runs X is_tree (open_components create current names created) s g.
Proof.
  revert current created s g. induction names as [|name names IH]; intros current created s g Hh.
  { eapply runs_ret; [unfold is_tree; reflexivity|done]. }
  cbn [open_components]. apply wpM_bind, wpM_attempt.
  assert (held (list_to_set (dir_handles current ++ map ce_handle created) ∪ X) current) as Hd.
  { unfold held. apply Forall_forall. set_solver. }
  eapply (wp_frame _ _ is_opened); [exact Hh| | |].
  - destruct create; [by apply keeps_open_or_create_directory|].
    intros s' g' Hg'. eapply runs_bind; [by apply keeps_open_directory|].
    intros d hs s2 g2 Hr Hh2. by eapply runs_ret.
  - intros [d c] s' g' hs' Hr Hh'. unfold is_opened in Hr. simpl in Hr.
    apply wpM_bind. eapply (wp_drop_directory X current (hs' ++ map ce_handle created)).
    { eapply holds_perm; [|exact Hh']. by rewrite !(assoc (++)), (comm (++) hs'). }
    intros g2 Hg2. apply IH. eapply holds_perm; [|exact Hg2]. rewrite <- Hr.
    generalize (dir_handles d) as hd. intros hd.
    destruct c as [c|]; simpl; [|done]. rewrite map_app. simpl.
    rewrite (assoc (++) hd). by rewrite <- Permutation_cons_append.
  - intros e s' g' Hg'. apply wpM_bind. eapply wp_drop_directory; [exact Hg'|]. intros g2 Hg2.
    apply wpM_bind. eapply wpM_mono.
    { apply (wp_rollback_created X created []). by rewrite app_nil_r. }
    intros [r|r] s3 g3 [Hr Hg3]; [|done]. apply holds_nil in Hg3.
    by destruct r; apply wpM_throw.
Qed.

(** C30: opening, or creating, an absolute directory component by component
    never leaks a handle, never closes one twice and never uses one after
    closing it: every handle named in a call is held at that call, on failure
    the process holds exactly the handles it held before, and on success these
    and the handles of the returned directory and created entries. *)
Theorem open_absolute_handles (p : path) (create : bool) (s : S) (g : G) :
  wpM P (open_absolute p create) (fun r _ g' => leaves (open g) is_tree r g') s g.
Proof.
  apply wpM_bind, wpM_lift. destruct (fs_split_absolute p) as [[root names]|e]; simpl; [|done].
  eapply (runs_bind (open g) is_dir); [by apply keeps_open_volume|].
  intros d hs s' g' Hd Hh. apply runs_open_components. rewrite app_nil_r. by eapply holds_perm; [|exact Hh].
Qed.
End Spec.
End Handles.

(** A process that holds the handles it was given, and no call that names
    another. *)
Definition sample_handles : protocol (gset Z) :=
  Protocol (fun a g => Forall (fun h => h ∈ g) (handles_used a))
    (fun a g x g' =>
       match a with
       | CloseHandle h => g' = g ∖ {[h]}
       | _ => match handle_opened a x with
              | Some h => h ∉ g /\ g' = {[h]} ∪ g
              | None => g' = g
              end
       end) False.

Lemma open_absolute_handles_witness :
  wpM sample_handles (open_absolute (S:=unit) (H0:=sample_extern) ($"C:\Users\Ada") true)
    (fun r _ g' => leaves id {[7%Z]} is_tree r g') tt {[7%Z]}.
Proof.
  apply (open_absolute_handles id (H0:=sample_extern) sample_handles).
  split; [done|]. intros a g x g' _ Ha. exact Ha.
Defined.

(** ** Overlap *)

(** Two opened directories overlap exactly when one is the other or lies
    below it, by the identities captured at opening: overlap is symmetric, and
    a directory overlaps what was opened from it however deep. *)
Theorem overlaps_within (a b : SecureDirectory) :
  overlaps a b = is_within b a || is_within a b /\
  overlaps a b = overlaps b a /\
  (forall suffix, ancestry b = ancestry a ++ suffix -> ancestry a <> [] ->
     overlaps a b = true).
Proof.
  split; [done|]. split; [unfold overlaps; apply orb_comm|].
  intros suffix Hb Ha. unfold overlaps.
  destruct (last (ancestry a)) as [i|] eqn:Hl; [|by rewrite last_None in Hl].
  apply last_Some in Hl as [l Hl]. rewrite bool_decide_eq_true_2; [done|].
  rewrite Hb, Hl. set_solver.
Qed.
