(* ===== verification/Storage.v ===== *)
(** * Storage: the protected storage root (audit-journal/src/storage.rs) *)

From stdpp Require Import base list gmap strings.
From S2P Require Import Prelude Text Path Effects Models Win32 Registry Security SecureFs.

Definition PRODUCT_DIRECTORY : str := $"WinProfile".
Definition BOOTSTRAP_DIRECTORY : str := $"WinProfile.Bootstrap".
Definition STORAGE_LOCK_FILE : str := $".storage.lock".
Definition OPERATION_LOCK_FILE : str := $".operation.lock".
Definition ROOT_SDDL : str := $"O:BAG:BAD:P(A;OICI;FA;;;SY)(A;OICI;FA;;;BA)".
Definition SYSTEM_SID : str := $"S-1-5-18".
Definition ADMINISTRATORS_SID : str := $"S-1-5-32-544".
Definition DIRECTORY_SHARES : Z := FILE_SHARE_READ .| FILE_SHARE_WRITE.
Definition DIRECTORY_ACCESS : Z :=
  FILE_LIST_DIRECTORY .| FILE_TRAVERSE .| FILE_READ_ATTRIBUTES .| READ_CONTROL .| SYNCHRONIZE.
(** Durations in milliseconds. *)
Definition DEFAULT_LOCK_TIMEOUT : Z := 2000.
Definition LOCK_RETRY_DELAY : Z := 10.

Inductive StorageError : Type :=
| StIo (operation path : str) (source : io_error)
| StNative (operation path : str) (status : Z)
| LegacyStorageInsecure (details : str)
| LockTimeout (timeout : Z)
| InvalidComponent (name : str)
| StSecureFs (e : SecureFsError)
| KnownFolder (status : Z)
| CleanupFailed (operation_error cleanup_error : str).

(** [{0:?}] of a [Duration] that is a whole number of seconds. *)
Definition show_StorageError `{Extern} (e : StorageError) : str :=
  match e with
  | StIo operation p source =>
      $"storage IO error during " ++ operation ++ $" for " ++ p ++ $": " ++ show_io_error source
  | StNative operation p status =>
      $"native storage operation " ++ operation ++ $" failed for " ++ p ++ $": NTSTATUS " ++ hex_i32 status
  | LegacyStorageInsecure details =>
      $"legacy storage is insecure and was left unchanged: " ++ details
  | LockTimeout timeout => $"storage lock timed out after " ++ dec (timeout / 1000) ++ $"s"
  | InvalidComponent name => $"invalid storage component: " ++ name
  | StSecureFs e => $"secure filesystem validation failed: " ++ show_SecureFsError e
  | KnownFolder status =>
      $"Known Folder ProgramData resolution failed with HRESULT " ++ hex_i32 status
  | CleanupFailed operation_error cleanup_error =>
      $"storage cleanup failed after " ++ operation_error ++ $": " ++ cleanup_error
  end.

Definition is_not_found (e : StorageError) : bool :=
  match e with
  | StNative _ _ status =>
      Z.eqb status STATUS_OBJECT_NAME_NOT_FOUND || Z.eqb status STATUS_OBJECT_PATH_NOT_FOUND
  | _ => false
  end.
Definition is_collision (e : StorageError) : bool :=
  match e with StNative _ _ status => Z.eqb status STATUS_OBJECT_NAME_COLLISION | _ => false end.

Record StorageObjectIdentity : Type := { object_volume : Z; file_id : list Z }.
#[export] Instance StorageObjectIdentity_eq_dec : EqDecision StorageObjectIdentity.
Proof. solve_decision. Defined.
Record StorageDirectory : Type := { st_handle : Z; st_path : path }.
Record StorageObject : Type := { so_handle : Z; so_path : path; so_identity : StorageObjectIdentity }.
(** Before [commit], [publish] or [rollback] both handles are present. *)
Record CreatedStorageFile : Type := { cf_file : Z; cf_cleanup : Z; cf_path : path }.
Inductive StorageTrust : Type := Production | TrustedInjection.
Record StorageRoot : Type := { directory : StorageDirectory; trust : StorageTrust }.

(** ** Names and paths *)
Definition validate_component (name : wide) : result StorageError unit :=
  let text := from_utf16_lossy name in
  if is_empty text || str_eqb text ($".") || str_eqb text ($"..")
     || existsb (one_of [BACKSLASH; FORWARD_SLASH]) text || contains_char text COLON
     || contains_char text 0
  then Err (InvalidComponent text) else Ok tt.
Definition child_path (parent : path) (name : wide) : result StorageError path :=
  let? _ := validate_component name in Ok (path_join parent name).

Definition split_absolute (p : path) : result StorageError (path * list wide) :=
  let invalid := Err (InvalidComponent (display p)) in
  match components p with
  | CPrefix raw (Disk _) :: RootDir :: rest | CPrefix raw (VerbatimDisk _) :: RootDir :: rest =>
      if forallb (fun c => match c with Normal _ | CurDir => true | _ => false end) rest
      then Ok (path_join raw ($"\"),
               omap (fun c => match c with Normal name => Some name | _ => None end) rest)
      else invalid
  | _ => invalid
  end.

Definition legacy (p : path) (reason : str) : StorageError :=
  LegacyStorageInsecure (display p ++ $": " ++ reason).

Section Storage.
Context {S : Type} `{Fuel} `{Extern}.
Abbreviation StM := (M S StorageError).

Definition st_io_error {A} (operation : str) (p : path) : StM A :=
  let* e := last_os_error in throw (StIo operation (display p) e).
Definition StorageHandle_new (raw : Z) (operation : str) (p : path) : StM Z :=
  match OwnedHandle_from_raw raw with Some h => ret h | None => st_io_error operation p end.
Definition duplicate (handle : Z) (operation : str) (p : path) : StM Z :=
  let* '(success, copy) := call (DuplicateHandle handle) in
  if negb success then st_io_error operation p else StorageHandle_new copy operation p.

(** ** Objects by handle *)
Definition nt_open_with_descriptor (parent : Z) (name : wide) (p : path)
    (access share disposition options descriptor : Z) : StM Z :=
  do* lift (validate_component name) in
  if (u16_max <? 2 * Z.of_nat (length name))%Z then throw (InvalidComponent (from_utf16_lossy name))
  else
    let* answer := call (NtCreateFile parent name access share disposition options 0 descriptor) in
    let operation := $"open relative storage object" in
    if (nt_status answer <? 0)%Z then throw (StNative operation (display p) (nt_status answer))
    else StorageHandle_new (nt_handle answer) operation p.
Definition st_nt_open_relative (parent : Z) (name : wide) (p : path)
    (access share disposition options : Z) : StM Z :=
  nt_open_with_descriptor parent name p access share disposition options 0.

Definition validate_kind (handle : Z) (p : path) (is_directory_expected : bool) : StM unit :=
  let* info := call (GetFileInformationByHandle handle) in
  match info with
  | None => st_io_error ($"validate storage object by handle") p
  | Some i =>
      if has_flag (hi_attributes i) FILE_ATTRIBUTE_REPARSE_POINT
      then throw (legacy p ($"reparse points are forbidden"))
      else if negb (Bool.eqb (has_flag (hi_attributes i) FILE_ATTRIBUTE_DIRECTORY) is_directory_expected)
      then throw (legacy p ($"storage object has the wrong type"))
      else ret tt
  end.
Definition file_identity (file : Z) (p : path) : StM FileIdentity :=
  let* info := call (GetFileInformationByHandle file) in
  match info with
  | None => st_io_error ($"read storage file identity") p
  | Some i => ret {| volume_serial := hi_volume_serial i;
                     file_index := Z.lor (Z.shiftl (hi_index_high i) 32) (hi_index_low i) |}
  end.
Definition storage_object_identity (handle : Z) (p : path) : StM StorageObjectIdentity :=
  let* info := call (GetFileIdInfo handle) in
  match info with
  | None => st_io_error ($"read persistent storage object identity") p
  | Some (volume, id) => ret {| object_volume := volume; file_id := id |}
  end.
Definition delete_open_file (file : Z) (p : path) : StM unit :=
  let* deleted := call (SetFileDisposition file) in
  if negb deleted then st_io_error ($"delete open storage file by handle") p else ret tt.
Definition delete_by_handle (handle : Z) (p : path) : StM unit :=
  let* deleted := call (SetFileDisposition handle) in
  if negb deleted then st_io_error ($"delete storage object by handle") p else ret tt.

(** The rename names its target relative to a handle and never replaces. *)
Definition rename_by_handle (source : Z) (source_path : path) (target_parent : Z)
    (target_name : str) (target_path : path) : StM unit :=
  let name := encode_utf16 target_name in
  do* lift (validate_component name) in
  if (u32_max <? 2 * Z.of_nat (length name))%Z then throw (InvalidComponent target_name)
  else
    let* status := call (NtSetRenameInformation source target_parent name 0) in
    if (status <? 0)%Z then
      throw (StNative ($"rename exact storage object by handle")
               (display source_path ++ $" -> " ++ display target_path) status)
    else ret tt.

(** ** The security descriptor of the production root *)
Definition SE_DACL_PROTECTED : Z := 4096.
Definition ACCESS_ALLOWED_ACE_TYPE : Z := 0.
Definition OBJECT_CONTAINER_INHERIT : Z := 3.

Definition LocalSid_parse (value : str) (p : path) : StM Z :=
  let* '(parsed, sid) := call (ConvertStringSidToSidW (to_wide_null value)) in
  if negb parsed then st_io_error ($"parse expected storage SID") p else ret sid.

(** The turns of the loop over the ACEs. *)
Fixpoint check_aces (n : nat) (dacl index system_sid administrators_sid : Z)
    (system_seen administrators_seen : bool) (p : path) : StM (bool * bool) :=
  match n with
  | O => ret (system_seen, administrators_seen)
  | Datatypes.S n' =>
      let* raw_ace := call (GetAce dacl index) in
      match raw_ace with
      | None => st_io_error ($"read storage DACL ACE") p
      | Some a =>
          if negb (Z.eqb (ace_type a) ACCESS_ALLOWED_ACE_TYPE) || negb (Z.eqb (ace_mask a) FILE_ALL_ACCESS)
             || negb (Z.eqb (ace_flags a) OBJECT_CONTAINER_INHERIT)
          then throw (legacy p ($"DACL contains a non-canonical allow ACE"))
          else
            let* is_system := call (EqualSid (ace_sid a) system_sid) in
            if is_system then
              check_aces n' dacl (index + 1) system_sid administrators_sid true administrators_seen p
            else
              let* is_administrators := call (EqualSid (ace_sid a) administrators_sid) in
              if is_administrators then
                check_aces n' dacl (index + 1) system_sid administrators_sid system_seen true p
              else throw (legacy p ($"DACL grants access to a third-party SID"))
      end
  end.

Definition validate_descriptor (descriptor owner dacl : Z) (p : path) : StM unit :=
  if Z.eqb descriptor 0 || Z.eqb owner 0 || Z.eqb dacl 0
  then throw (legacy p ($"owner or DACL is missing"))
  else
    let* control := call (GetSecurityDescriptorControl descriptor) in
    match control with
    | None => st_io_error ($"inspect storage DACL control") p
    | Some control =>
        if negb (has_flag control SE_DACL_PROTECTED)
        then throw (legacy p ($"DACL inheritance is not protected"))
        else
          let* system_sid := LocalSid_parse SYSTEM_SID p in
          defer (call (LocalFree system_sid))
            (let* administrators_sid := LocalSid_parse ADMINISTRATORS_SID p in
             defer (call (LocalFree administrators_sid))
               (let* owned_by_system := call (EqualSid owner system_sid) in
                let* owner_allowed := if owned_by_system then ret true
                                      else call (EqualSid owner administrators_sid) in
                if negb owner_allowed
                then throw (legacy p ($"owner is neither SYSTEM nor Administrators"))
                else
                  let* count := call (GetAclAceCount dacl) in
                  match count with
                  | None => st_io_error ($"inspect storage DACL") p
                  | Some count =>
                      if negb (Z.eqb count 2)
                      then throw (legacy p ($"DACL must contain exactly SYSTEM and Administrators ACEs"))
                      else
                        let* '(system_seen, administrators_seen) :=
                          check_aces (Z.to_nat count) dacl 0 system_sid administrators_sid false false p in
                        if negb system_seen || negb administrators_seen
                        then throw (legacy p ($"SYSTEM or Administrators ACE is missing"))
                        else ret tt
                  end))
    end.

Definition validate_production_root (handle : Z) (p : path) : StM unit :=
  let* info := call (GetSecurityInfo handle) in
  if negb (Z.eqb (si_status info) ERROR_SUCCESS) then
    do* (if negb (Z.eqb (si_descriptor info) 0) then call (LocalFree (si_descriptor info)) else ret tt) in
    throw (StIo ($"read storage root security descriptor") (display p) (IoOs (si_status info)))
  else
    let* validation := attempt (validate_descriptor (si_descriptor info) (si_owner info) (si_dacl info) p) in
    do* call (LocalFree (si_descriptor info)) in lift validation.

(** ** [StorageDirectory] *)
Definition ST_DIRECTORY_OPTIONS : Z :=
  FILE_DIRECTORY_FILE .| FILE_OPEN_REPARSE_POINT .| FILE_SYNCHRONOUS_IO_NONALERT.
Definition ST_FILE_OPTIONS : Z :=
  FILE_NON_DIRECTORY_FILE .| FILE_OPEN_REPARSE_POINT .| FILE_SYNCHRONOUS_IO_NONALERT.
Definition ST_BACKUP_OPTIONS : Z :=
  FILE_OPEN_REPARSE_POINT .| FILE_OPEN_FOR_BACKUP_INTENT .| FILE_SYNCHRONOUS_IO_NONALERT.

Definition with_handle {A} (open : StM Z) (body : Z -> StM A) : StM A :=
  let* handle := open in on_error (close_handle handle) (body handle).

Definition drop_storage_directory {E} (d : StorageDirectory) : M S E unit := close_handle (st_handle d).

Definition duplicate_directory (d : StorageDirectory) : StM StorageDirectory :=
  let* handle := duplicate (st_handle d) ($"duplicate storage directory") (st_path d) in
  ret {| st_handle := handle; st_path := st_path d |}.

Definition open_child_as (d : StorageDirectory) (name : wide) (access disposition options : Z)
    : StM StorageDirectory :=
  let* p := lift (child_path (st_path d) name) in
  with_handle (st_nt_open_relative (st_handle d) name p access DIRECTORY_SHARES disposition options)
    (fun handle => do* validate_kind handle p true in ret {| st_handle := handle; st_path := p |}).
Definition open_child (d : StorageDirectory) (name : wide) : StM StorageDirectory :=
  open_child_as d name DIRECTORY_ACCESS FILE_OPEN ST_DIRECTORY_OPTIONS.
Definition open_existing_child (d : StorageDirectory) (name : str) : StM StorageDirectory :=
  open_child d (encode_utf16 name).
Definition open_existing_child_for_rename (d : StorageDirectory) (name : str) : StM StorageDirectory :=
  open_child_as d (encode_utf16 name) (DIRECTORY_ACCESS .| DELETE) FILE_OPEN
    (FILE_DIRECTORY_FILE .| FILE_OPEN_REPARSE_POINT .| FILE_OPEN_FOR_BACKUP_INTENT
     .| FILE_SYNCHRONOUS_IO_NONALERT).

Definition LocalSecurityDescriptor_parse (sddl : str) (p : path) : StM Z :=
  let* '(parsed, descriptor) := call (ParseSecurityDescriptor (to_wide_null sddl)) in
  if negb parsed then st_io_error ($"parse protected storage descriptor") p else ret descriptor.

Definition create_protected_child (d : StorageDirectory) (name : str) : StM StorageDirectory :=
  let* p := lift (child_path (st_path d) (encode_utf16 name)) in
  let* descriptor := LocalSecurityDescriptor_parse ROOT_SDDL p in
  defer (call (LocalFree descriptor))
    (with_handle (nt_open_with_descriptor (st_handle d) (encode_utf16 name) p (DIRECTORY_ACCESS .| DELETE)
                    DIRECTORY_SHARES FILE_CREATE ST_DIRECTORY_OPTIONS descriptor)
       (fun handle =>
          do* validate_kind handle p true in
          do* validate_production_root handle p in
          ret {| st_handle := handle; st_path := p |})).

Definition open_object_for_detach (d : StorageDirectory) (name : str) : StM StorageObject :=
  let* p := lift (child_path (st_path d) (encode_utf16 name)) in
  with_handle (st_nt_open_relative (st_handle d) (encode_utf16 name) p
                 (DELETE .| FILE_READ_ATTRIBUTES .| READ_CONTROL .| SYNCHRONIZE) FILE_SHARE_READ FILE_OPEN
                 ST_BACKUP_OPTIONS)
    (fun handle =>
       let* identity := storage_object_identity handle p in
       ret {| so_handle := handle; so_path := p; so_identity := identity |}).
Definition open_object_identity (d : StorageDirectory) (name : str) : StM StorageObjectIdentity :=
  let* p := lift (child_path (st_path d) (encode_utf16 name)) in
  let* handle := st_nt_open_relative (st_handle d) (encode_utf16 name) p
                   (FILE_READ_ATTRIBUTES .| SYNCHRONIZE)
                   (FILE_SHARE_READ .| FILE_SHARE_WRITE .| FILE_SHARE_DELETE) FILE_OPEN ST_BACKUP_OPTIONS in
  using_handle handle (storage_object_identity handle p).
Definition directory_identity (d : StorageDirectory) : StM StorageObjectIdentity :=
  storage_object_identity (st_handle d) (st_path d).

(** The two lock loops differ in the descriptor and the validation of the
    opened file; each turn is one attempt.  The handle of the lock. *)
Fixpoint lock_loop (turns : nat) (start timeout : Z) (attempt_open : StM Z) (validate : Z -> StM unit)
    : StM Z :=
  match turns with
  | O => out_of_fuel
  | Datatypes.S turns' =>
      let* opened := attempt attempt_open in
      match opened with
      | Ok handle => on_error (close_handle handle) (do* validate handle in ret handle)
      | Err (StNative operation p status) =>
          if Z.eqb status STATUS_SHARING_VIOLATION then
            let* elapsed := call (InstantElapsedMs start) in
            if (timeout <=? elapsed)%Z then throw (LockTimeout timeout)
            else do* call (ThreadSleepMs LOCK_RETRY_DELAY) in
                 lock_loop turns' start timeout attempt_open validate
          else throw (StNative operation p status)
      | Err error => throw error
      end
  end.
Definition LOCK_ACCESS : Z := FILE_GENERIC_READ .| FILE_GENERIC_WRITE .| SYNCHRONIZE.
Definition acquire_named_lock (d : StorageDirectory) (name : str) (timeout : Z) : StM Z :=
  let* start := call InstantNow in
  let open_lock :=
    let* p := lift (child_path (st_path d) (encode_utf16 name)) in
    st_nt_open_relative (st_handle d) (encode_utf16 name) p LOCK_ACCESS 0 FILE_OPEN_IF ST_FILE_OPTIONS in
  lock_loop fuel start timeout open_lock
    (fun handle => validate_kind handle (path_join (st_path d) (encode_utf16 name)) false).
Definition acquire_protected_named_lock (d : StorageDirectory) (name : str) (timeout : Z) : StM Z :=
  let* p := lift (child_path (st_path d) (encode_utf16 name)) in
  let* descriptor := LocalSecurityDescriptor_parse ROOT_SDDL p in
  defer (call (LocalFree descriptor))
    (let* start := call InstantNow in
     lock_loop fuel start timeout
       (nt_open_with_descriptor (st_handle d) (encode_utf16 name) p LOCK_ACCESS 0 FILE_OPEN_IF
          ST_FILE_OPTIONS descriptor)
       (fun handle => do* validate_kind handle p false in validate_production_root handle p)).

(** [StorageDirectory::rename_to] consumes the directory: on an error its
    handle is closed. *)
Definition directory_rename_to (d target_parent : StorageDirectory) (target_name : str) : StM StorageDirectory :=
  on_error (drop_storage_directory d)
    (let* target_path := lift (child_path (st_path target_parent) (encode_utf16 target_name)) in
     do* rename_by_handle (st_handle d) (st_path d) (st_handle target_parent) target_name target_path in
     ret {| st_handle := st_handle d; st_path := target_path |}).
Definition remove_directory (d : StorageDirectory) : StM unit :=
  using_handle (st_handle d) (delete_by_handle (st_handle d) (st_path d)).
Definition object_rename_to (o : StorageObject) (target_parent : StorageDirectory) (target_name : str)
    : StM unit :=
  let* target_path := lift (child_path (st_path target_parent) (encode_utf16 target_name)) in
  rename_by_handle (so_handle o) (so_path o) (st_handle target_parent) target_name target_path.

Definition open_or_create_child (d : StorageDirectory) (name : wide) : StM StorageDirectory :=
  let* opened := attempt (open_child d name) in
  match opened with
  | Ok child => ret child
  | Err error =>
      if is_not_found error
      then open_child_as d name DIRECTORY_ACCESS FILE_CREATE ST_DIRECTORY_OPTIONS
      else throw error
  end.

Definition st_open_file (d : StorageDirectory) (name : wide) (access share : Z) : StM Z :=
  let* p := lift (child_path (st_path d) name) in
  with_handle (st_nt_open_relative (st_handle d) name p (access .| SYNCHRONIZE) share FILE_OPEN ST_FILE_OPTIONS)
    (fun handle => do* validate_kind handle p false in ret handle).

Definition st_create_file (d : StorageDirectory) (name : wide) (share : Z) : StM CreatedStorageFile :=
  let* p := lift (child_path (st_path d) name) in
  with_handle (st_nt_open_relative (st_handle d) name p
                 (FILE_GENERIC_READ .| FILE_GENERIC_WRITE .| DELETE .| SYNCHRONIZE) share FILE_CREATE
                 ST_FILE_OPTIONS)
    (fun handle =>
       let* kind := attempt (validate_kind handle p false) in
       match kind with
       | Err error => do* attempt (E':=StorageError) (delete_by_handle handle p) in throw error
       | Ok _ =>
           let* cleanup := attempt (duplicate handle ($"duplicate created file handle") p) in
           match cleanup with
           | Ok cleanup_handle => ret {| cf_file := handle; cf_cleanup := cleanup_handle; cf_path := p |}
           | Err operation_error =>
               let* deleted := attempt (delete_by_handle handle p) in
               match deleted with
               | Ok _ => throw operation_error
               | Err cleanup_error =>
                   throw (CleanupFailed (show_StorageError operation_error) (show_StorageError cleanup_error))
               end
           end
       end).
Definition create_state_file (d : StorageDirectory) (name : str) : StM CreatedStorageFile :=
  st_create_file d (encode_utf16 name) FILE_SHARE_READ.

(** [CreatedStorageFile]: [drop] deletes the object by its cleanup handle and
    closes both handles; [commit] keeps the file. *)
Definition drop_created {E} (c : CreatedStorageFile) : M S E unit :=
  do* attempt (E:=StorageError) (delete_by_handle (cf_cleanup c) (cf_path c)) in
  do* close_handle (cf_file c) in close_handle (cf_cleanup c).
Definition commit {E} (c : CreatedStorageFile) : M S E Z :=
  do* close_handle (cf_cleanup c) in ret (cf_file c).
Definition publish (c : CreatedStorageFile) (target_parent : StorageDirectory) (target_name : str) : StM Z :=
  on_error (drop_created c)
    (let* target_path := lift (child_path (st_path target_parent) (encode_utf16 target_name)) in
     do* rename_by_handle (cf_cleanup c) (cf_path c) (st_handle target_parent) target_name target_path in
     commit c).
Definition rollback_created_file (c : CreatedStorageFile) : StM unit :=
  let* r := attempt (using_handle (cf_cleanup c) (delete_by_handle (cf_cleanup c) (cf_path c))) in
  do* close_handle (cf_file c) in lift r.

Definition st_entries (d : StorageDirectory) : StM (list wide) :=
  let* secure := map_err StSecureFs (open_absolute_existing (st_path d)) in
  defer (drop_directory secure)
    (let* found := map_err StSecureFs (entries secure) in ret (map entry_name found)).

Definition st_remove_file_if_exists (d : StorageDirectory) (name : str) : StM bool :=
  let* p := lift (child_path (st_path d) (encode_utf16 name)) in
  let* opened := attempt (st_nt_open_relative (st_handle d) (encode_utf16 name) p
                            (DELETE .| FILE_READ_ATTRIBUTES .| SYNCHRONIZE) 0 FILE_OPEN ST_FILE_OPTIONS) in
  match opened with
  | Err error => if is_not_found error then ret false else throw error
  | Ok handle =>
      using_handle handle
        (do* validate_kind handle p false in do* delete_by_handle handle p in ret true)
  end.

(** ** Opening the storage *)
Fixpoint open_children (current : StorageDirectory) (names : list wide) : StM StorageDirectory :=
  match names with
  | [] => ret current
  | component :: names' =>
      let* next := defer (drop_storage_directory current) (open_child current component) in
      open_children next names'
  end.
Definition open_absolute_directory (p : path) : StM StorageDirectory :=
  let* '(root_path, names) := lift (split_absolute p) in
  let* raw := call (CreateFileW (wide_null root_path) DIRECTORY_ACCESS DIRECTORY_SHARES
                      (FILE_FLAG_BACKUP_SEMANTICS .| FILE_FLAG_OPEN_REPARSE_POINT)) in
  let* root := with_handle (StorageHandle_new raw ($"open storage volume root") root_path)
    (fun handle => do* validate_kind handle root_path true in
                   ret {| st_handle := handle; st_path := root_path |}) in
  open_children root names.

Definition E_FAIL : Z := -2147467259.
Definition resolve_known_folder_program_data : StM path :=
  let* '(status, raw, units) := call SHGetKnownFolderPath in
  if (status <? 0)%Z then
    do* (if negb (Z.eqb raw 0) then call (CoTaskMemFree raw) else ret tt) in throw (KnownFolder status)
  else if Z.eqb raw 0 then throw (KnownFolder E_FAIL)
  else do* call (CoTaskMemFree raw) in
       ret (take (default (length units) (position is_nul units)) units).

Definition open_existing_under (program_data : StorageDirectory) : StM StorageRoot :=
  let* d := open_existing_child program_data PRODUCT_DIRECTORY in
  on_error (drop_storage_directory d)
    (do* validate_production_root (st_handle d) (st_path d) in
     ret {| directory := d; trust := Production |}).
Definition open_or_create_under (program_data : StorageDirectory) : StM StorageRoot :=
  let* existing := attempt (open_existing_under program_data) in
  match existing with
  | Ok storage => ret storage
  | Err error =>
      if is_not_found error then
        let* created := attempt (create_protected_child program_data PRODUCT_DIRECTORY) in
        match created with
        | Ok d => ret {| directory := d; trust := Production |}
        | Err error => if is_collision error then open_existing_under program_data else throw error
        end
      else throw error
  end.
Definition production_program_data_directory : StM StorageDirectory :=
  let* program_data := resolve_known_folder_program_data in open_absolute_directory program_data.
Definition StorageRoot_production : StM StorageRoot :=
  let* program_data := production_program_data_directory in
  defer (drop_storage_directory program_data) (open_or_create_under program_data).
Definition StorageRoot_trusted (p : path) : StM StorageRoot :=
  let* '(d, created) := map_err StSecureFs (open_or_create_absolute p) in
  do* drop_directory d in
  do* close_all (map ce_handle created) in
  let* d := open_absolute_directory p in
  ret {| directory := d; trust := TrustedInjection |}.

(** ** [StorageRoot] *)
Definition revalidate (root : StorageRoot) : StM unit :=
  do* validate_kind (st_handle (directory root)) (st_path (directory root)) true in
  match trust root with
  | Production => validate_production_root (st_handle (directory root)) (st_path (directory root))
  | TrustedInjection => ret tt
  end.
Definition root_directory (root : StorageRoot) : StM StorageDirectory :=
  do* revalidate root in duplicate_directory (directory root).
Definition root_open_or_create_directory (root : StorageRoot) (name : str) : StM StorageDirectory :=
  do* revalidate root in open_or_create_child (directory root) (encode_utf16 name).
Definition root_open_file (root : StorageRoot) (name : str) (access share : Z) : StM Z :=
  do* revalidate root in st_open_file (directory root) (encode_utf16 name) access share.
Definition root_create_file (root : StorageRoot) (name : str) (share : Z) : StM CreatedStorageFile :=
  do* revalidate root in st_create_file (directory root) (encode_utf16 name) share.
Definition root_remove_file_if_exists (root : StorageRoot) (name : str) : StM bool :=
  do* revalidate root in st_remove_file_if_exists (directory root) name.
Definition root_child_path (root : StorageRoot) (name : str) : result StorageError path :=
  child_path (st_path (directory root)) (encode_utf16 name).

Definition durable_rename (root : StorageRoot) (source target : str) : StM unit :=
  do* revalidate root in
  let d := directory root in
  let shares := FILE_SHARE_READ .| FILE_SHARE_WRITE .| FILE_SHARE_DELETE in
  let* file := st_open_file d (encode_utf16 source) FILE_READ_ATTRIBUTES shares in
  do* call (CloseHandle file) in
  let* existing := attempt (st_open_file d (encode_utf16 target) FILE_READ_ATTRIBUTES shares) in
  do* match existing with
      | Ok file =>
          do* call (CloseHandle file) in
          let* p := lift (child_path (st_path d) (encode_utf16 target)) in
          throw (StNative ($"durable rename target collision") (display p) STATUS_OBJECT_NAME_COLLISION)
      | Err error => if is_not_found error then ret tt else throw error
      end in
  let* source_path := lift (child_path (st_path d) (encode_utf16 source)) in
  let* target_path := lift (child_path (st_path d) (encode_utf16 target)) in
  let* moved := call (MoveFileExW (wide_null source_path) (wide_null target_path) MOVEFILE_WRITE_THROUGH) in
  if negb moved then st_io_error ($"durable storage rename") source_path else ret tt.

Definition root_acquire_named_lock (root : StorageRoot) (name : str) (timeout : Z) : StM Z :=
  do* revalidate root in acquire_named_lock (directory root) name timeout.
Definition acquire_lock (root : StorageRoot) : StM Z :=
  root_acquire_named_lock root STORAGE_LOCK_FILE DEFAULT_LOCK_TIMEOUT.
Definition acquire_operation_lock (root : StorageRoot) : StM Z :=
  root_acquire_named_lock root OPERATION_LOCK_FILE DEFAULT_LOCK_TIMEOUT.

(** [serde_json::from_reader]: the parser takes one byte at a time, stops with
    an error at the first prefix no document has ([rejects]), and otherwise
    reads to the end, where [value] says what it has found.  The message of an
    error of the reader is that of the system. *)
Fixpoint from_reader {A} (rejects : list Z -> option str) (value : list Z -> result str A) (turns : nat) (file : Z)
    (bytes : list Z) : M S str A :=
  match turns with
  | O => out_of_fuel
  | Datatypes.S turns' =>
      match rejects bytes with
      | Some reason => throw reason
      | None =>
          let* r := call (FileRead file 1) in
          let* byte := lift (result_map_err show_io_error r) in
          if is_empty byte then lift (value bytes) else from_reader rejects value turns' file (bytes ++ byte)
      end
  end.
End Storage.

(** ** Names *)

Lemma elem_of_decode (u : Z) (w : wide) :
  is_surrogate u = false -> u ∈ w -> Some u ∈ decode_units w.
Proof.
  intros Hu. induction w as [w IH] using (induction_ltof1 _ length); unfold ltof in IH.
  destruct w as [|v w]; intros Hin; [by apply not_elem_of_nil in Hin|]. cbn [decode_units].
  apply elem_of_cons in Hin as [<-|Hin]; [rewrite Hu; simpl; left|].
  destruct (is_surrogate v) eqn:Hv; simpl; [|right; apply IH; [simpl; lia|done]].
  destruct (is_high_surrogate v) eqn:Hh; [|right; apply IH; [simpl; lia|done]].
  destruct w as [|x w]; [by apply not_elem_of_nil in Hin|].
  destruct (is_low_surrogate x) eqn:Hx; [|right; apply IH; [simpl; lia|done]].
  apply elem_of_cons in Hin as [<-|Hin]; [|right; apply IH; [simpl; lia|done]].
  unfold is_surrogate, is_low_surrogate in *.
  destruct (Z.leb_spec 56320 u), (Z.ltb_spec u 57344), (Z.leb_spec 55296 u); simpl in *; done || lia.
Qed.
Lemma elem_of_lossy (u : Z) (w : wide) :
  is_surrogate u = false -> u ∈ w -> u ∈ from_utf16_lossy w.
Proof.
  intros Hu Hin. unfold from_utf16_lossy. apply list_elem_of_fmap. exists (Some u).
  split; [done|]. by apply elem_of_decode.
Qed.

(** An accepted component is a plain name. *)
Lemma validate_component_plain name :
  validate_component name = Ok tt ->
  name <> [] /\ name <> $"." /\ name <> $".." /\
  Forall (fun u => u <> BACKSLASH /\ u <> FORWARD_SLASH /\ u <> COLON /\ u <> 0%Z) name.
Proof.
  unfold validate_component. intros H. set (text := from_utf16_lossy name) in *.
  destruct (is_empty text) eqn:H1; [done|]. destruct (str_eqb text ($".")) eqn:H2; [done|].
  destruct (str_eqb text ($"..")) eqn:H3; [done|].
  destruct (existsb _ text) eqn:H4; [done|]. destruct (contains_char text COLON) eqn:H5; [done|].
  destruct (contains_char text 0) eqn:H6; [done|].
  split; [by intros ->|]. split; [by intros ->; vm_compute in H2|]. split; [by intros ->; vm_compute in H3|].
  apply Forall_forall. intros u Hu.
  assert (forall c, is_surrogate c = false -> u = c -> c ∈ text) as Hin.
  { intros c Hc ->. by apply elem_of_lossy. }
  rewrite <- not_true_iff_false, existsb_exists in H4.
  rewrite <- not_true_iff_false, contains_char_spec in H5, H6.
  repeat split; intros Heq.
  - apply H4. exists BACKSLASH. split; [|done]. by apply list_elem_of_In, Hin.
  - apply H4. exists FORWARD_SLASH. split; [|done]. by apply list_elem_of_In, Hin.
  - by apply H5, Hin.
  - by apply H6, Hin.
Qed.

(** A validated child never leaves its parent.  Under a parent on a drive,
    whatever the units of the name: when [child_path] accepts the name, the
    child has exactly the components of the parent followed by that name, so it
    is an entry of the parent directory. *)
Theorem child_path_stays (parent : path) (name p : wide)
    (Hd : on_drive parent) (Hc : child_path parent name = Ok p) :
  components p = components parent ++ [Normal name] /\ on_drive p.
Proof.
  destruct Hd as (d & rest & -> & Hd). unfold child_path in Hc.
  destruct (validate_component name) as [[]|] eqn:Hv; [|done]. simpl in Hc. injection Hc as <-.
  apply validate_component_plain in Hv as (Hne & Hdot & Hdots & Hf).
  assert (plain name) as Hp.
  { split; [done|]. eapply Forall_impl; [exact Hf|]. simpl. intros u (? & ? & ? & ?).
    unfold is_separator. by rewrite !(proj2 (Z.eqb_neq _ _)). }
  rewrite path_join_drive by done. split; [|unfold on_drive; eauto].
  by rewrite !components_drive, body_of_join.
Qed.

Lemma child_path_stays_witness :
  components ($"C:\ProgramData\WinProfile") = components ($"C:\ProgramData\") ++ [Normal ($"WinProfile")] /\
  on_drive ($"C:\ProgramData\WinProfile").
Proof.
  apply (child_path_stays ($"C:\ProgramData\") ($"WinProfile")); [|vm_compute; reflexivity].
  by exists (ch "C"), ($"ProgramData\").
Defined.

(** ** Waiting for a lock

    The documented behaviour of the clock: time does not go back, a sleep
    lasts at least what was asked, and the elapsed time is measured between
    the call and its return. *)
Section Clock.
Context {G : Type} (now : G -> Z).

Record clock_laws (P : protocol G) : Prop := {
  clock_permitted : forall a g, permitted P a g;
  clock_monotone : forall a g x g', answers P a g x g' -> (now g <= now g')%Z;
  clock_instant : forall g x g', answers P InstantNow g x g' -> (now g <= x <= now g')%Z;
  clock_elapsed : forall start g x g',
    answers P (InstantElapsedMs start) g x g' -> (now g - start <= x <= now g' - start)%Z;
  clock_sleep : forall ms g x g', answers P (ThreadSleepMs ms) g x g' -> (now g + ms <= now g')%Z;
}.

Section Lock.
Context {S : Type} `{Fuel} `{Extern} (P : protocol G) (HP : clock_laws P).

Definition not_timeout {A} (r : result StorageError A) : Prop :=
  match r with Err (LockTimeout _) => False | _ => True end.
(** A step of the loop: time passes, and no timeout is reported. *)
Definition passes {A} (m : M S StorageError A) : Prop :=
  forall s g, wpM P m (fun r _ g' => not_timeout r /\ (now g <= now g')%Z) s g.

Lemma passes_result {A} (r : result StorageError A) : not_timeout r -> passes (lift r).
Proof. intros Hr s g. apply wpM_lift. split; [done|lia]. Qed.
Lemma passes_call a : passes (call a).
Proof.
  intros s g. wp_call; [by apply (clock_permitted _ HP)|]. intros x g' Ha.
  split; [done|]. by eapply (clock_monotone _ HP).
Qed.
Lemma passes_bind {A B} (m : M S StorageError A) (f : A -> M S StorageError B) :
  passes m -> (forall a, passes (f a)) -> passes (mbind m f).
Proof.
  intros Hm Hf s g. apply wpM_bind. eapply wpM_mono; [apply Hm|]. intros [a|e] s' g' [Hr Hle]; [|done].
  eapply wpM_mono; [apply Hf|]. intros r s'' g'' [Hr' Hle']. split; [done|lia].
Qed.

Lemma passes_io_error {A} operation p : passes (A:=A) (st_io_error operation p).
Proof.
  apply passes_bind; [apply passes_bind; [apply (passes_call GetLastError)|]|]; intros ?;
    by apply (passes_result (Ok _)) || apply (passes_result (Err _)).
Qed.
Lemma passes_handle_new raw operation p : passes (StorageHandle_new raw operation p).
Proof. unfold StorageHandle_new. case_match; [by apply (passes_result (Ok _))|apply passes_io_error]. Qed.
Lemma passes_nt_open parent name p access share disposition options :
  passes (st_nt_open_relative parent name p access share disposition options).
Proof.
  apply passes_bind.
  { apply passes_result. unfold validate_component. by case_match. }
  intros _. case_match; [by apply (passes_result (Err _))|].
  apply passes_bind; [apply (passes_call (NtCreateFile _ _ _ _ _ _ _ _))|]. intros x.
  case_match; [by apply (passes_result (Err _))|apply passes_handle_new].
Qed.
Lemma passes_validate_kind handle p expected : passes (validate_kind handle p expected).
Proof.
  apply passes_bind; [apply (passes_call (GetFileInformationByHandle handle))|].
  intros [i|]; [|apply passes_io_error].
  case_match; [by apply (passes_result (Err _))|].
  case_match; [by apply (passes_result (Err _))|by apply (passes_result (Ok tt))].
Qed.
Lemma wp_close_time {E} handle (s : S) g :
  wpM P (close_handle (E:=E) handle) (fun r _ g' => (now g <= now g')%Z) s g.
Proof.
  unfold close_handle. case_match; [|apply wpM_ret; lia].
  wp_call; [by apply (clock_permitted _ HP)|]. intros x g' Ha. by eapply (clock_monotone _ HP).
Qed.

(** The fuel the loop needs: one attempt per retry delay left, and one. *)
Definition enough_turns (turns : nat) (remaining : Z) : Prop :=
  (1 <= turns)%nat /\ (remaining <= LOCK_RETRY_DELAY * (Z.of_nat turns - 1))%Z.

Lemma wp_lock_loop turns start timeout attempt_open validate (s : S) g :
  passes attempt_open -> (forall h, passes (validate h)) ->
  enough_turns turns (timeout - (now g - start)) ->
  wpM P (lock_loop turns start timeout attempt_open validate)
    (fun r _ g' => match r with
                   | Err (LockTimeout t) => t = timeout /\ (timeout <= now g' - start)%Z
                   | _ => True
                   end) s g.
Proof.
  intros Ho Hv. revert s g. induction turns as [|turns IH]; intros s g [H1 H2]; [lia|].
  cbn [lock_loop]. apply wpM_bind, wpM_attempt. eapply wpM_mono; [apply Ho|].
  intros [h|e] s' g' [Hr Hle].
  - apply wpM_on_error, wpM_bind. eapply wpM_mono; [apply Hv|].
    intros [[]|e] s'' g'' [Hr' _]; simpl; [done|].
    eapply wpM_mono; [apply wp_close_time|]. by destruct e.
  - destruct e; try done. destruct (Z.eqb status STATUS_SHARING_VIOLATION); [|done].
    apply wpM_bind. wp_call; [by apply (clock_permitted _ HP)|].
    intros elapsed g2 He. pose proof (clock_monotone _ HP _ _ _ _ He) as Hm2.
    apply (clock_elapsed _ HP) in He.
    destruct (Z.leb_spec timeout elapsed); [apply wpM_throw; split; [done|lia]|].
    apply wpM_bind. wp_call; [by apply (clock_permitted _ HP)|].
    intros [] g3 Hs. apply (clock_sleep _ HP) in Hs. apply IH.
    unfold enough_turns, LOCK_RETRY_DELAY in *. split; lia.
Qed.

(** C33: waiting for a storage lock ends.  With one turn of the loop per retry
    delay of the timeout and two more, the wait always returns, and it reports
    a timeout only when the whole timeout has passed since it began. *)
Theorem acquire_named_lock_returns (d : StorageDirectory) (name : str) (timeout : Z) (s : S) (g : G)
    (Hf : (timeout <= LOCK_RETRY_DELAY * (Z.of_nat fuel - 1))%Z) (Ht : (0 <= timeout)%Z) :
  wpM P (acquire_named_lock d name timeout)
    (fun r _ g' => match r with
                   | Err (LockTimeout t) => t = timeout /\ (timeout <= now g' - now g)%Z
                   | _ => True
                   end) s g.
Proof.
  apply wpM_bind. wp_call; [by apply (clock_permitted _ HP)|].
  intros start g' Hs. apply (clock_instant _ HP) in Hs.
  eapply wpM_mono; [apply wp_lock_loop|].
  - apply passes_bind; [|intros p; apply passes_nt_open]. apply passes_result.
    unfold child_path, validate_component. by case_match.
  - intros h. apply passes_validate_kind.
  - unfold enough_turns, LOCK_RETRY_DELAY in *. split; lia.
  - intros [h|e] s'' g''; [done|]. destruct e; try done. intros [-> Hle]. split; [done|lia].
Qed.
End Lock.
End Clock.

(** A clock where every call takes a millisecond and a lock that is always
    busy. *)
Definition sample_clock : protocol Z :=
  Protocol (fun _ _ => True)
    (fun a g x g' =>
       match a return resp a -> Prop with
       | InstantNow => fun x => x = g
       | InstantElapsedMs start => fun x => x = (g - start)%Z
       | _ => fun _ => True
       end x /\
       g' = (g + 1 + match a with ThreadSleepMs ms => Z.max 0 ms | _ => 0 end)%Z) False.

Lemma acquire_named_lock_returns_witness :
  wpM sample_clock
    (acquire_named_lock (S:=unit) (H:=202) {| st_handle := 5; st_path := $"C:\ProgramData" |}
       STORAGE_LOCK_FILE DEFAULT_LOCK_TIMEOUT)
    (fun r _ g' => match r with
                   | Err (LockTimeout t) => t = 2000%Z /\ (2000 <= g' - 0)%Z
                   | _ => True
                   end) tt 0%Z.
Proof.
  apply (acquire_named_lock_returns id (H:=202) sample_clock); [|vm_compute; done|vm_compute; done].
  split; simpl.
  - done.
  - intros a g x g' [_ ->]. destruct a; lia.
  - intros g x g' [-> ->]. lia.
  - intros start g x g' [-> ->]. lia.
  - intros ms g x g' [_ ->]. lia.
Defined.

(** ** Calls that inspect an object and its descriptor *)
Definition inspects_root (a : sys) : bool :=
  match a with
  | GetFileInformationByHandle _ | GetLastError | GetSecurityInfo _ | GetSecurityDescriptorControl _
  | ConvertStringSidToSidW _ | LocalFree _ | EqualSid _ _ | GetAclAceCount _ | GetAce _ _
  | CloseHandle _ => true
  | _ => false
  end.
(** Those that read a descriptor. *)
Definition inspects_descriptor (a : sys) : bool :=
  match a with
  | GetLastError | GetSecurityDescriptorControl _ | ConvertStringSidToSidW _ | LocalFree _ | EqualSid _ _
  | GetAclAceCount _ | GetAce _ _ => true
  | _ => false
  end.
(** ** The production root is trusted only with the canonical descriptor

    The documented behaviour of the security calls on one descriptor: a parsed
    SID string names that SID, [EqualSid] compares SIDs, and the calls that
    read a descriptor return its parts or fail. *)
Section Descriptor.
Context {G : Type} (sid_of : Z -> str) (aces_of : Z -> list ace) (control_of : Z -> Z).
(** What the calls leave as it is, and what a failed call leaves behind. *)
Context (stable broken : G -> Prop).

Record descriptor_laws (P : protocol G) : Prop := {
  sd_permitted : forall a g, inspects_descriptor a = true -> stable g -> permitted P a g;
  sd_kept : forall a g x g', inspects_descriptor a = true -> stable g -> answers P a g x g' ->
    stable g' /\ (broken g -> broken g');
  sd_parse : forall text g x g', answers P (ConvertStringSidToSidW (to_wide_null text)) g x g' ->
    if fst x then sid_of (snd x) = text else broken g';
  sd_equal : forall a b g x g', answers P (EqualSid a b) g x g' -> x = bool_decide (sid_of a = sid_of b);
  sd_count : forall d g x g', answers P (GetAclAceCount d) g x g' ->
    match x with Some n => n = Z.of_nat (length (aces_of d)) | None => broken g' end;
  sd_ace : forall d i g x g', answers P (GetAce d (Z.of_nat i)) g x g' ->
    match x with Some a => aces_of d !! i = Some a | None => broken g' end;
  sd_control : forall d g x g', answers P (GetSecurityDescriptorControl d) g x g' ->
    match x with Some c => c = control_of d | None => broken g' end;
}.

(** A full-access allow ACE inherited by files and directories. *)
Definition full_access (a : ace) : Prop :=
  ace_type a = ACCESS_ALLOWED_ACE_TYPE /\ ace_mask a = FILE_ALL_ACCESS /\
  ace_flags a = OBJECT_CONTAINER_INHERIT.
Definition granted (a : ace) : Prop :=
  full_access a /\ (sid_of (ace_sid a) = SYSTEM_SID \/ sid_of (ace_sid a) = ADMINISTRATORS_SID).

(** The protected descriptor [ROOT_SDDL] describes: owner SYSTEM or
    Administrators, inheritance cut, and two entries that give full access to
    SYSTEM and Administrators and to nobody else. *)
Definition canonical (descriptor owner dacl : Z) : Prop :=
  descriptor <> 0%Z /\ owner <> 0%Z /\ dacl <> 0%Z /\
  has_flag (control_of descriptor) SE_DACL_PROTECTED = true /\
  (sid_of owner = SYSTEM_SID \/ sid_of owner = ADMINISTRATORS_SID) /\
  Forall full_access (aces_of dacl) /\
  map (fun a => sid_of (ace_sid a)) (aces_of dacl) ≡ₚ [SYSTEM_SID; ADMINISTRATORS_SID].

Section Validation.
Context {S : Type} `{Extern} (P : protocol G) (HP : descriptor_laws P).

(** The verdict on a condition: accepted means it holds, refused as insecure
    means it does not, and any other error means that a call failed. *)
Definition verdict {A} (holds_ : A -> Prop) (fails : Prop) (r : result StorageError A) (g : G) : Prop :=
  stable g /\
  match r with
  | Ok a => holds_ a
  | Err (LegacyStorageInsecure _) => fails
  | Err _ => broken g
  end.

Lemma wp_sd_inspect {E} (a : sys) (Q : result E (resp a) -> S -> G -> Prop) s g :
  inspects_descriptor a = true -> stable g ->
  (forall x g', answers P a g x g' -> stable g' -> (broken g -> broken g') -> Q (Ok x) s g') ->
  wpM P (call a) Q s g.
Proof.
  intros Ha Hg HQ. wp_call; [by apply (sd_permitted _ HP)|]. intros x g' Hx.
  destruct (sd_kept _ HP _ _ _ _ Ha Hg Hx). by apply HQ.
Qed.
Lemma wp_io_error {A} operation p Hok Hno (s : S) g :
  stable g -> broken g ->
  wpM P (st_io_error (A:=A) operation p) (fun r _ g' => verdict Hok Hno r g') s g.
Proof.
  intros Hg Hb. apply wpM_bind, wpM_bind, wp_sd_inspect; [done..|]. intros code g' _ Hg' Hb'. split; [done|by apply Hb'].
Qed.

Lemma wp_check_aces n dacl i sys adm ss sa p (s : S) g :
  stable g -> sid_of sys = SYSTEM_SID -> sid_of adm = ADMINISTRATORS_SID ->
  length (aces_of dacl) = i + n ->
  wpM P (check_aces n dacl (Z.of_nat i) sys adm ss sa p)
    (fun r _ g' => verdict (fun seen =>
        Forall granted (drop i (aces_of dacl)) /\
        (fst seen = true <-> ss = true \/ SYSTEM_SID ∈ map (fun a => sid_of (ace_sid a)) (drop i (aces_of dacl))) /\
        (snd seen = true <->
         sa = true \/ ADMINISTRATORS_SID ∈ map (fun a => sid_of (ace_sid a)) (drop i (aces_of dacl))))
      (~ Forall granted (drop i (aces_of dacl))) r g') s g.
Proof.
  intros Hg Hsys Hadm. revert i ss sa g Hg. induction n as [|n IH]; intros i ss sa g Hg Hlen.
  { rewrite drop_ge by lia. apply wpM_ret. simpl. split; [done|]. split; [done|]. set_solver. }
  destruct (lookup_lt_is_Some_2 (aces_of dacl) i ltac:(lia)) as [a Ha].
  rewrite (drop_S _ a i Ha). cbn [check_aces map]. apply wpM_bind, wp_sd_inspect; [done..|].
  intros x g' Hx Hg' _. apply (sd_ace _ HP) in Hx. destruct x as [a'|]; [|by apply wp_io_error].
  rewrite Ha in Hx. injection Hx as <-. destruct (_ || _) eqn:Hshape.
  { apply wpM_throw. split; [done|]. intros Hall. inversion Hall as [|? ? [(Ht & Hm & Hfl) _]]; subst.
    by rewrite Ht, Hm, Hfl in Hshape. }
  apply orb_false_iff in Hshape as [[Ht Hm]%orb_false_iff Hfl].
  apply negb_false_iff, Z.eqb_eq in Ht, Hm, Hfl.
  apply wpM_bind, wp_sd_inspect; [done..|]. intros x2 g2 ->%(sd_equal _ HP) Hg2 _.
  rewrite Hsys. replace (Z.of_nat i + 1)%Z with (Z.of_nat (Datatypes.S i)) by lia.
  assert (SYSTEM_SID <> ADMINISTRATORS_SID) as Hneq by done.
  case_bool_decide as Hs.
  - eapply wpM_mono; [apply IH; [done|lia]|]. intros [seen|e] s' g4; intros [Hg4 Hv]; (split; [done|]).
    + destruct Hv as (Hall & H1 & H2). rewrite H1, H2, !elem_of_cons, Hs. split; [|naive_solver].
      constructor; [|done]. split; [done|by left].
    + destruct e; try done. simpl. intros Hall. inversion Hall; subst. by apply Hv.
  - apply wpM_bind, wp_sd_inspect; [done..|]. intros x3 g3 ->%(sd_equal _ HP) Hg3 _. rewrite Hadm.
    case_bool_decide as Had.
    + eapply wpM_mono; [apply IH; [done|lia]|]. intros [seen|e] s' g4; intros [Hg4 Hv]; (split; [done|]).
      * destruct Hv as (Hall & H1 & H2). rewrite H1, H2, !elem_of_cons, Had. split; [|naive_solver].
        constructor; [|done]. split; [done|by right].
      * destruct e; try done. simpl. intros Hall. inversion Hall; subst. by apply Hv.
    + apply wpM_throw. split; [done|]. intros Hall. inversion Hall as [|? ? [_ [?|?]]]; subst; congruence.
Qed.

(** Two granted entries whose SIDs are both named are the canonical two. *)
Lemma canonical_two dacl (l := map (fun a => sid_of (ace_sid a)) (aces_of dacl)) :
  length (aces_of dacl) = 2 ->
  (Forall granted (aces_of dacl) /\ SYSTEM_SID ∈ l /\ ADMINISTRATORS_SID ∈ l) <->
  (Forall full_access (aces_of dacl) /\ l ≡ₚ [SYSTEM_SID; ADMINISTRATORS_SID]).
Proof.
  subst l. destruct (aces_of dacl) as [|a [|b [|]]]; try done. intros _. simpl.
  assert (SYSTEM_SID <> ADMINISTRATORS_SID) as Hneq by done.
  split.
  - intros (Hg & Hs & Ha). split; [eapply Forall_impl; [exact Hg|by intros ? []]|].
    rewrite !elem_of_cons in Hs, Ha. set_unfold.
    destruct Hs as [Hs|[Hs|[]]], Ha as [Ha|[Ha|[]]]; rewrite <- Hs in *; rewrite <- Ha in *;
      first [done | reflexivity | apply perm_swap].
  - intros [Hf Hp]. split; [|rewrite Hp; set_solver].
    assert (Forall (fun x => x = SYSTEM_SID \/ x = ADMINISTRATORS_SID)
              [sid_of (ace_sid a); sid_of (ace_sid b)]) as Hx.
    { rewrite Hp. rewrite !Forall_cons. split; [by left|]. split; [by right|done]. }
    inversion_clear Hf as [|? ? Hfa Hf']. inversion_clear Hf' as [|? ? Hfb _].
    inversion_clear Hx as [|? ? Hxa Hx']. inversion_clear Hx' as [|? ? Hxb _].
    rewrite !Forall_cons. unfold granted. eauto 10.
Qed.

Lemma wp_parse_sid value p Hno (s : S) g :
  stable g ->
  wpM P (LocalSid_parse value p) (fun r _ g' => verdict (fun sid => sid_of sid = value) Hno r g') s g.
Proof.
  intros Hg. apply wpM_bind, wp_sd_inspect; [done..|]. intros [ok sid] g' Hx Hg' _.
  apply (sd_parse _ HP) in Hx. simpl in *. destruct ok; simpl; [by apply wpM_ret|by apply wp_io_error].
Qed.

Lemma wp_defer_free {A} pointer (m : M S StorageError A) Hok Hno s g :
  wpM P m (fun r _ g' => verdict Hok Hno r g') s g ->
  wpM P (defer (call (LocalFree pointer)) m) (fun r _ g' => verdict Hok Hno r g') s g.
Proof.
  intros Hm. apply wpM_defer. eapply wpM_mono; [exact Hm|]. intros r s' g' [Hg Hr].
  apply wp_sd_inspect; [done..|]. intros x g'' _ Hg'' Hb. split; [done|]. destruct r as [|[]]; by try apply Hb.
Qed.

(** C29: the validation of the production root accepts exactly the canonical
    descriptor.  Under the documented behaviour of the security calls, an
    accepted descriptor is owned by SYSTEM or Administrators, cuts inheritance
    and gives full access to these two and to nobody else; a descriptor
    refused as insecure is not canonical; after any other error a call failed. *)
Theorem validate_descriptor_canonical (descriptor owner dacl : Z) (p : path) (s : S) (g : G) (Hg : stable g) :
  wpM P (validate_descriptor descriptor owner dacl p)
    (fun r _ g' => verdict (fun _ => canonical descriptor owner dacl) (~ canonical descriptor owner dacl) r g') s g.
Proof.
  unfold validate_descriptor. destruct (_ || _) eqn:Hnull.
  { apply wpM_throw. split; [done|]. intros (H1 & H2 & H3 & _). by rewrite !(proj2 (Z.eqb_neq _ _)) in Hnull. }
  apply orb_false_iff in Hnull as [[Hn1 Hn2]%orb_false_iff Hn3]. apply Z.eqb_neq in Hn1, Hn2, Hn3.
  apply wpM_bind, wp_sd_inspect; [done..|].
  intros [x|] g' Hx%(sd_control _ HP) Hg' _; [subst x|by apply wp_io_error].
  destruct (has_flag (control_of descriptor) SE_DACL_PROTECTED) eqn:Hprot; simpl.
  2:{ apply wpM_throw. split; [done|]. intros (_ & _ & _ & Hc & _). congruence. }
  apply wpM_bind. eapply wpM_mono; [by apply wp_parse_sid|].
  intros [sys|e] s1 g1 [Hg1 Hsys]; [|split; [done|exact Hsys]]. apply wp_defer_free.
  apply wpM_bind. eapply wpM_mono; [by apply wp_parse_sid|].
  intros [adm|e] s2 g2 [Hg2 Hadm]; [|split; [done|exact Hadm]]. apply wp_defer_free.
  apply wpM_bind, wp_sd_inspect; [done..|]. intros x3 g3 ->%(sd_equal _ HP) Hg3 _.
  apply wpM_bind. rewrite Hsys.
  assert (wpM P (if bool_decide (sid_of owner = SYSTEM_SID) then ret true
                 else call (EqualSid owner adm) : M S StorageError bool)
            (fun r _ g' => stable g' /\
               r = Ok (bool_decide (sid_of owner = SYSTEM_SID \/ sid_of owner = ADMINISTRATORS_SID))) s2 g3)
    as Howner.
  { case_bool_decide as Ho; [apply wpM_ret; rewrite bool_decide_eq_true_2 by eauto; done|].
    apply wp_sd_inspect; [done..|]. intros x4 g4 ->%(sd_equal _ HP) Hg4 _. rewrite Hadm. split; [done|].
    f_equal. apply bool_decide_ext. naive_solver. }
  eapply wpM_mono; [exact Howner|]. clear Howner. intros r s4 g4 [Hg4 ->]. simpl.
  case_bool_decide as Howner; simpl; [|by apply wpM_throw; split; [|intros (_ & _ & _ & _ & Hc & _)]].
  apply wpM_bind, wp_sd_inspect; [done..|].
  intros [x5|] g5 Hx%(sd_count _ HP) Hg5 _; [subst x5|by apply wp_io_error].
  destruct (Z.eqb_spec (Z.of_nat (length (aces_of dacl))) 2) as [Hlen|Hlen]; simpl.
  2:{ apply wpM_throw. split; [done|]. intros (_ & _ & _ & _ & _ & _ & Hp). apply Permutation_length in Hp.
      rewrite length_map in Hp. simpl in Hp. lia. }
  pose proof (canonical_two dacl ltac:(lia)) as Htwo. rewrite Nat2Z.id.
  apply wpM_bind. eapply wpM_mono; [apply (wp_check_aces (length (aces_of dacl)) dacl 0 sys adm); done|].
  rewrite drop_0. intros [[ss sa]|e] s6 g6 [Hg6 Hv]; cbn [fst snd] in *.
  2:{ split; [done|]. destruct e; try done. intros (_ & _ & _ & _ & _ & Hc). by apply Htwo in Hc as [Hc _]. }
  destruct Hv as (Hall & Hss & Hsa).
  assert (canonical descriptor owner dacl <-> ss = true /\ sa = true) as Hcan.
  { rewrite Hss, Hsa. unfold canonical. rewrite <- Htwo. naive_solver. }
  destruct ss, sa; simpl; apply wpM_ret || apply wpM_throw; (split; [done|]); simpl; rewrite Hcan; naive_solver.
Qed.
End Validation.
End Descriptor.

(** A root owned by Administrators with the two entries of [ROOT_SDDL];
    pointers 18 and 544 name the two SIDs. *)
Definition sample_sid (pointer : Z) : str := if Z.eqb pointer 18 then SYSTEM_SID else ADMINISTRATORS_SID.
Definition sample_ace (pointer : Z) : ace :=
  {| ace_type := 0; ace_flags := 3; ace_mask := FILE_ALL_ACCESS; ace_sid := pointer |}.
Definition sample_descriptor : protocol unit :=
  Protocol (fun _ _ => True)
    (fun a _ x _ =>
       match a return resp a -> Prop with
       | ConvertStringSidToSidW w => fun x =>
           fst x = true -> forall text, w = to_wide_null text -> sample_sid (snd x) = text
       | EqualSid a b => fun x => x = bool_decide (sample_sid a = sample_sid b)
       | GetAclAceCount _ => fun x => x = Some 2%Z
       | GetAce _ i => fun x => x = [sample_ace 18; sample_ace 544] !! Z.to_nat i
       | GetSecurityDescriptorControl _ => fun x => x = Some SE_DACL_PROTECTED
       | _ => fun _ => True
       end x) False.

Lemma validate_descriptor_canonical_witness :
  wpM sample_descriptor (validate_descriptor (S:=unit) 1 544 3 ($"C:\ProgramData\WinProfile"))
    (fun r _ g => verdict (fun _ => True) (fun _ => True)
       (fun _ => canonical sample_sid (fun _ => [sample_ace 18; sample_ace 544]) (fun _ => SE_DACL_PROTECTED) 1 544 3)
       (~ canonical sample_sid (fun _ => [sample_ace 18; sample_ace 544]) (fun _ => SE_DACL_PROTECTED) 1 544 3) r g)
    tt tt.
Proof.
  apply (validate_descriptor_canonical sample_sid (fun _ => [sample_ace 18; sample_ace 544])
           (fun _ => SE_DACL_PROTECTED) (fun _ => True) (fun _ => True) sample_descriptor); [|done].
  split; simpl.
  - done.
  - done.
  - intros text g [[] sid] g' Hx; simpl in *; [by apply Hx|done].
  - done.
  - by intros d g x g' ->.
  - intros d i g x g' ->. rewrite Nat2Z.id. by destruct (_ !! i).
  - by intros d g x g' ->.
Defined.

(** ** Calls of the storage

    The storage opens, inspects, renames, moves, marks for deletion and closes
    files; it neither writes one nor touches the registry. *)
Definition storage_call (a : sys) : bool :=
  inspects_root a ||
  match a with
  | NtCreateFile _ _ _ _ _ _ _ _ | CreateFileW _ _ _ _ | DuplicateHandle _ | SetFileDisposition _
  | NtSetRenameInformation _ _ _ _ | MoveFileExW _ _ _ | GetFileIdInfo _ | ParseSecurityDescriptor _
  | InstantNow | InstantElapsedMs _ | ThreadSleepMs _ => true
  | _ => false
  end.

Section RootCalls.
Context {S : Type} `{Extern} (h : Prop) (P : sys -> Prop) (HP : forall a, inspects_root a = true -> P a).

Lemma mtame_close_handle {E} handle : mtame P h (close_handle (S:=S) (E:=E) handle).
Proof. unfold close_handle. by solve_tame. Qed.
Lemma mtame_st_io_error {A} operation p : mtame P h (st_io_error (S:=S) (A:=A) operation p).
Proof. unfold st_io_error, last_os_error. by solve_tame. Qed.
Hint Resolve mtame_st_io_error : tame.
Lemma mtame_validate_kind handle p expected : mtame P h (validate_kind (S:=S) handle p expected).
Proof. unfold validate_kind. by solve_tame. Qed.
Lemma mtame_check_aces n dacl index sys adm ss sa p :
  mtame P h (check_aces (S:=S) n dacl index sys adm ss sa p).
Proof. revert index ss sa. induction n; intros; simpl; by solve_tame. Qed.
Hint Resolve mtame_check_aces : tame.
Lemma mtame_validate_production_root handle p : mtame P h (validate_production_root (S:=S) handle p).
Proof. unfold validate_production_root, validate_descriptor, LocalSid_parse. by solve_tame. Qed.
Hint Resolve mtame_validate_kind mtame_validate_production_root : tame.
Lemma mtame_revalidate root : mtame P h (revalidate (S:=S) root).
Proof. unfold revalidate. by solve_tame. Qed.
End RootCalls.

Section StorageCalls.
Context {S : Type} `{Fuel} `{Extern} (P : sys -> Prop) (HP : forall a, storage_call a = true -> P a).

Lemma inspects_storage a : inspects_root a = true -> P a.
Proof. intros Ha. apply HP. unfold storage_call. by rewrite Ha. Qed.
Hint Resolve inspects_storage : tame.
Hint Resolve mtame_close_handle mtame_st_io_error mtame_validate_kind mtame_validate_production_root
  mtame_revalidate : tame.

Lemma mtame_handle_new raw op p : mtame P True (StorageHandle_new (S:=S) raw op p).
Proof. unfold StorageHandle_new. by solve_tame. Qed.
Hint Resolve mtame_handle_new : tame.
Lemma mtame_nt_open_with_descriptor parent name p access share disposition options descriptor :
  mtame P True (nt_open_with_descriptor (S:=S) parent name p access share disposition options descriptor).
Proof. unfold nt_open_with_descriptor. by solve_tame; apply HP. Qed.
Lemma mtame_st_nt_open_relative parent name p access share disposition options :
  mtame P True (st_nt_open_relative (S:=S) parent name p access share disposition options).
Proof. apply mtame_nt_open_with_descriptor. Qed.
Hint Resolve mtame_nt_open_with_descriptor mtame_st_nt_open_relative : tame.
Lemma mtame_with_handle {A} open (body : Z -> M S StorageError A) :
  mtame P True open -> (forall hd, mtame P True (body hd)) -> mtame P True (with_handle open body).
Proof. intros Ho Hb. unfold with_handle. by solve_tame. Qed.
Lemma mtame_duplicate handle op p : mtame P True (duplicate (S:=S) handle op p).
Proof. unfold duplicate. by solve_tame; apply HP. Qed.
Lemma mtame_delete_by_handle handle p : mtame P True (delete_by_handle (S:=S) handle p).
Proof. unfold delete_by_handle. by solve_tame; apply HP. Qed.
Lemma mtame_delete_open_file handle p : mtame P True (delete_open_file (S:=S) handle p).
Proof. unfold delete_open_file. by solve_tame; apply HP. Qed.
Lemma mtame_rename_by_handle source sp tp name p : mtame P True (rename_by_handle (S:=S) source sp tp name p).
Proof. unfold rename_by_handle. by solve_tame; apply HP. Qed.
Lemma mtame_file_identity file p : mtame P True (file_identity (S:=S) file p).
Proof. unfold file_identity. by solve_tame. Qed.
Hint Resolve mtame_duplicate mtame_delete_by_handle mtame_rename_by_handle : tame.

Lemma mtame_lock_loop n start timeout attempt_open validate :
  mtame P True attempt_open -> (forall hd, mtame P True (validate hd)) ->
  mtame P True (lock_loop (S:=S) n start timeout attempt_open validate).
Proof. intros Ho Hv. induction n; simpl; [by solve_tame|]. by solve_tame; apply HP. Qed.
Lemma mtame_root_acquire_named_lock root name timeout :
  mtame P True (root_acquire_named_lock (S:=S) root name timeout).
Proof.
  unfold root_acquire_named_lock, acquire_named_lock. solve_tame; try by apply HP.
  apply mtame_lock_loop; by solve_tame.
Qed.
Lemma mtame_acquire_lock root : mtame P True (acquire_lock (S:=S) root).
Proof. apply mtame_root_acquire_named_lock. Qed.
Lemma mtame_acquire_operation_lock root : mtame P True (acquire_operation_lock (S:=S) root).
Proof. apply mtame_root_acquire_named_lock. Qed.

Lemma mtame_open_child_as d name access disposition options :
  mtame P True (open_child_as (S:=S) d name access disposition options).
Proof. unfold open_child_as. by (solve_tame; apply mtame_with_handle; solve_tame). Qed.
Hint Resolve mtame_open_child_as : tame.
Lemma mtame_open_or_create_child d name : mtame P True (open_or_create_child (S:=S) d name).
Proof. unfold open_or_create_child, open_child. by solve_tame. Qed.
Lemma mtame_st_open_file d name access share : mtame P True (st_open_file (S:=S) d name access share).
Proof. unfold st_open_file. by (solve_tame; apply mtame_with_handle; solve_tame). Qed.
Lemma mtame_st_create_file d name share : mtame P True (st_create_file (S:=S) d name share).
Proof. unfold st_create_file. by (solve_tame; apply mtame_with_handle; solve_tame). Qed.
Lemma mtame_st_remove_file_if_exists d name : mtame P True (st_remove_file_if_exists (S:=S) d name).
Proof. unfold st_remove_file_if_exists, using_handle. by solve_tame. Qed.
Hint Resolve mtame_open_or_create_child mtame_st_open_file mtame_st_create_file
  mtame_st_remove_file_if_exists : tame.
Lemma mtame_drop_created {E} c : mtame P True (drop_created (S:=S) (E:=E) c).
Proof. unfold drop_created. by solve_tame. Qed.
Lemma mtame_commit {E} c : mtame P True (commit (S:=S) (E:=E) c).
Proof. unfold commit. by solve_tame. Qed.
Lemma mtame_rollback_created_file c : mtame P True (rollback_created_file (S:=S) c).
Proof. unfold rollback_created_file, using_handle. by solve_tame. Qed.
Hint Resolve mtame_drop_created mtame_commit : tame.
Lemma mtame_publish c d name : mtame P True (publish (S:=S) c d name).
Proof. unfold publish. by solve_tame. Qed.

Lemma mtame_root_open_file root name access share : mtame P True (root_open_file (S:=S) root name access share).
Proof. unfold root_open_file. by solve_tame. Qed.
Lemma mtame_root_create_file root name share : mtame P True (root_create_file (S:=S) root name share).
Proof. unfold root_create_file. by solve_tame. Qed.
Lemma mtame_root_remove_file_if_exists root name : mtame P True (root_remove_file_if_exists (S:=S) root name).
Proof. unfold root_remove_file_if_exists. by solve_tame. Qed.
Lemma mtame_root_open_or_create_directory root name :
  mtame P True (root_open_or_create_directory (S:=S) root name).
Proof. unfold root_open_or_create_directory. by solve_tame. Qed.
Lemma mtame_durable_rename root source target : mtame P True (durable_rename (S:=S) root source target).
Proof. unfold durable_rename. by solve_tame; apply HP. Qed.
End StorageCalls.
