(* ===== verification/Journal.v ===== *)
(** * Journal: the bounded audit journal (audit-journal/src/journal.rs)

    [serde_json] is not code of the repository: [JournalCodec] is its part
    used here.  The display buffer, shared behind a mutex, is in-process
    state. *)

From stdpp Require Import base list gmap strings.
From S2P Require Import Prelude Text Path Effects Models Win32 Registry Security SecureFs Storage.

Definition DEFAULT_MAX_LOG_BYTES : Z := 10 * 1024 * 1024.
Definition DEFAULT_MAX_ARCHIVES : nat := 5.
Definition AUDIT_FILE : str := $"audit_log.jsonl".
Definition EXPORT_DIR : str := $"Exports".
Definition EXPORT_PENDING_SUFFIX : str := $".pending".

Inductive AuditStatus : Type := StatusSuccess | StatusWarning | StatusFailed | StatusRolledBack.
#[export] Instance AuditStatus_eq_dec : EqDecision AuditStatus.
Proof. solve_decision. Defined.
Record AuditEntry : Type := {
  ae_timestamp : Z; operation : str; actor : str; target : str; status : AuditStatus; details : str }.

Inductive AuditError : Type :=
| AuditIo (e : io_error)
| Serialization (reason : str)
| BufferPoisoned
| InvalidEntry (line : nat) (reason : str)
| InvalidConfiguration (reason : str)
| EntryTooLarge (actual maximum : Z)
| AuditStorage (e : StorageError).

Definition show_AuditError `{Extern} (e : AuditError) : str :=
  match e with
  | AuditIo e => $"Audit IO error: " ++ show_io_error e
  | Serialization reason => $"Audit serialization error: " ++ reason
  | BufferPoisoned => $"Audit memory buffer is poisoned"
  | InvalidEntry line reason =>
      $"Audit log contains an invalid entry at line " ++ dec (Z.of_nat line) ++ $": " ++ reason
  | InvalidConfiguration reason => $"Invalid audit configuration: " ++ reason
  | EntryTooLarge actual maximum =>
      $"Audit entry is " ++ dec actual ++ $" bytes, exceeding the " ++ dec maximum ++ $"-byte file limit"
  | AuditStorage e => $"Protected storage error: " ++ show_StorageError e
  end.

(** [serde_json::to_string] and [from_str] on entries. *)
Class JournalCodec : Type := {
  encode_entry : AuditEntry -> result str str;
  decode_entry : str -> result str AuditEntry;
}.

(** The state of the process: the display buffer of the journal, whether its
    mutex is poisoned, and the counter of snapshots. *)
Record AppState : Type := {
  memory_buffer : list AuditEntry; buffer_poisoned : bool; snapshot_sequence : Z }.
Definition set_buffer (b : list AuditEntry) (s : AppState) : AppState :=
  {| memory_buffer := b; buffer_poisoned := buffer_poisoned s; snapshot_sequence := snapshot_sequence s |}.

Record AuditLogger : Type := {
  al_storage : StorageRoot;
  log_file_name : str;
  log_file_path : path;
  max_memory_entries : nat;
  max_log_bytes : Z;
  max_archives : nat;
}.

(** ** Pure parts *)
Definition archive_name (file_name : str) (index : nat) : str :=
  file_name ++ $"." ++ dec (Z.of_nat index).

(** Adding to a [VecDeque] that keeps at most [max] entries, none when [max]
    is zero. *)
Definition push_bounded {A} (max : nat) (l : list A) (x : A) : list A :=
  if (0 <? max)%nat then (if (max <=? length l)%nat then drop 1 l else l) ++ [x] else l.

(** A line as [BufRead::lines] gives it: without its terminator, which is
    [\n] or [\r\n]. *)
Definition NEWLINE : Z := 10.
Definition CARRIAGE_RETURN : Z := 13.
Definition strip_carriage_return (line : list Z) : list Z :=
  match last line with
  | Some c => if Z.eqb c CARRIAGE_RETURN then take (length line - 1) line else line
  | None => line
  end.
Definition process_line `{JournalCodec} (max index : nat) (entries : list AuditEntry) (line : list Z)
    : result AuditError (list AuditEntry) :=
  match from_utf8 line with
  | None => Err (AuditIo (IoOther ($"stream did not contain valid UTF-8")))
  | Some text =>
      if is_empty (trim text) then Ok entries
      else match decode_entry text with
           | Err reason => Err (InvalidEntry (index + 1) reason)
           | Ok entry => Ok (push_bounded max entries entry)
           end
  end.

Definition APPEND_SHARES : Z := FILE_SHARE_READ .| FILE_SHARE_WRITE .| FILE_SHARE_DELETE.

Section Journal.
Context `{Fuel} `{Extern} `{JournalCodec}.
Abbreviation AM := (M AppState AuditError).

Definition storage {A} (m : M AppState StorageError A) : AM A := map_err AuditStorage m.
Definition file_io {A} (r : result io_error A) : AM A := lift (result_map_err AuditIo r).

(** ** Reading the journal *)
Definition READ_BUFFER : Z := 8192.
Fixpoint read_lines (turns : nat) (file : Z) (buffered line : list Z) (max index : nat)
    (entries : list AuditEntry) : AM (list AuditEntry) :=
  match turns with
  | O => out_of_fuel
  | S turns' =>
      match position (Z.eqb NEWLINE) buffered with
      | Some i =>
          let complete := strip_carriage_return (line ++ take i buffered) in
          let* entries := lift (process_line max index entries complete) in
          read_lines turns' file (drop (S i) buffered) [] max (S index) entries
      | None =>
          let line := line ++ buffered in
          let* read := call (FileRead file READ_BUFFER) in
          let* bytes := file_io read in
          if is_empty bytes then
            if is_empty line then ret entries
            else let* entries := lift (process_line max index entries line) in
                 read_lines turns' file [] [] max (S index) entries
          else read_lines turns' file bytes line max index entries
      end
  end.

Definition load_recent_entries (root : StorageRoot) (file_name : str) (max_memory : nat)
    : AM (list AuditEntry) :=
  let* opened := attempt (root_open_file root file_name FILE_GENERIC_READ APPEND_SHARES) in
  match opened with
  | Ok file => defer (call (CloseHandle file)) (read_lines fuel file [] [] max_memory 0 [])
  | Err error => if is_not_found error then ret [] else throw (AuditStorage error)
  end.

(** ** Building a logger *)
Definition zero_size : AuditError := InvalidConfiguration ($"maximum log size must be greater than zero").
Definition zero_archives : AuditError := InvalidConfiguration ($"at least one archive must be retained").

Definition check_limits (max_bytes : Z) (archives : nat) : result AuditError unit :=
  if Z.eqb max_bytes 0 then Err zero_size
  else if Nat.eqb archives 0 then Err zero_archives else Ok tt.

Definition AuditLogger_build (root : StorageRoot) (file_name : str) (max_memory : nat) (max_bytes : Z)
    (archives : nat) : AM AuditLogger :=
  do* lift (check_limits max_bytes archives) in
  let* p := lift (result_map_err AuditStorage (root_child_path root file_name)) in
  let* lock := storage (acquire_lock root) in
  defer (close_handle lock)
    (let* entries := load_recent_entries root file_name max_memory in
     let* s := get in
     do* put (set_buffer entries s) in
     ret {| al_storage := root; log_file_name := file_name; log_file_path := p;
            max_memory_entries := max_memory; max_log_bytes := max_bytes; max_archives := archives |}).

Definition AuditLogger_with_limits (custom_path : option path) (max_memory : nat) (max_bytes : Z)
    (archives : nat) : AM AuditLogger :=
  do* lift (check_limits max_bytes archives) in
  let* '(root, file_name) :=
    match custom_path with
    | Some p =>
        match parent p with
        | None => throw (InvalidConfiguration ($"custom audit path must have an absolute parent"))
        | Some parent_path =>
            match file_name p ≫= from_utf16 with
            | None => throw (InvalidConfiguration ($"custom audit path must have a Unicode file name"))
            | Some name => let* root := storage (StorageRoot_trusted parent_path) in ret (root, name)
            end
        end
    | None => let* root := storage StorageRoot_production in ret (root, AUDIT_FILE)
    end in
  on_error (drop_storage_directory (directory root))
    (AuditLogger_build root file_name max_memory max_bytes archives).
Definition AuditLogger_new (custom_path : option path) (max_memory : nat) : AM AuditLogger :=
  AuditLogger_with_limits custom_path max_memory DEFAULT_MAX_LOG_BYTES DEFAULT_MAX_ARCHIVES.
Definition AuditLogger_from_storage (root : StorageRoot) (max_memory : nat) : AM AuditLogger :=
  AuditLogger_build root AUDIT_FILE max_memory DEFAULT_MAX_LOG_BYTES DEFAULT_MAX_ARCHIVES.

(** ** Rotation *)
Definition validate_optional_file (l : AuditLogger) (name : str) : AM bool :=
  let* opened := attempt (root_open_file (al_storage l) name FILE_GENERIC_READ APPEND_SHARES) in
  match opened with
  | Ok file => do* call (CloseHandle file) in ret true
  | Err error => if is_not_found error then ret false else throw (AuditStorage error)
  end.

Definition current_size (l : AuditLogger) : AM Z :=
  let* opened := attempt (root_open_file (al_storage l) (log_file_name l) FILE_GENERIC_READ APPEND_SHARES) in
  match opened with
  | Ok file =>
      defer (call (CloseHandle file)) (let* length := call (FileLength file) in file_io length)
  | Err error => if is_not_found error then ret 0%Z else throw (AuditStorage error)
  end.

(** One turn of the loop over the archives, from the oldest. *)
Definition shift_archive (l : AuditLogger) (index : nat) : AM unit :=
  let current_name := archive_name (log_file_name l) index in
  let* exists_ := validate_optional_file l current_name in
  if Nat.eqb index (max_archives l) then
    if exists_ then
      do* storage (root_remove_file_if_exists (al_storage l) current_name) in ret tt
    else ret tt
  else if exists_ then
    storage (durable_rename (al_storage l) current_name (archive_name (log_file_name l) (index + 1)))
  else ret tt.

Definition shift_log (l : AuditLogger) : AM unit :=
  let* exists_ := validate_optional_file l (log_file_name l) in
  if exists_ then
    storage (durable_rename (al_storage l) (log_file_name l) (archive_name (log_file_name l) 1))
  else ret tt.

Definition rotate_if_needed (l : AuditLogger) (additional_bytes : Z) : AM unit :=
  let* current_bytes := current_size l in
  if (saturating_add_u64 current_bytes additional_bytes <=? max_log_bytes l)%Z then ret tt
  else
    do* for_each (shift_archive l) (rev (seq 1 (max_archives l))) in
    shift_log l.

(** ** Writing *)
Definition open_log_for_append (l : AuditLogger) : AM Z :=
  let* created := attempt (root_create_file (al_storage l) (log_file_name l) FILE_SHARE_READ) in
  match created with
  | Ok created => commit created
  | Err error =>
      if is_collision error then
        storage (root_open_file (al_storage l) (log_file_name l) (FILE_GENERIC_READ .| FILE_GENERIC_WRITE)
                   FILE_SHARE_READ)
      else throw (AuditStorage error)
  end.

(** [writeln!] writes the line and its terminator separately. *)
Definition append_line (file : Z) (json_line : str) : AM unit :=
  let* r := call (FileSeekEnd file) in do* file_io r in
  let* r := call (FileWriteAll file (utf8_encode json_line)) in do* file_io r in
  let* r := call (FileWriteAll file [NEWLINE]) in do* file_io r in
  let* r := call (FileFlush file) in do* file_io r in
  let* r := call (FileSyncData file) in file_io r.

Definition log (l : AuditLogger) (op act tgt : str) (st : AuditStatus) (det : str) : AM unit :=
  let* now := call UtcNow in
  let entry := {| ae_timestamp := now; operation := op; actor := act; target := tgt; status := st;
                  details := det |} in
  let* json_line := lift (result_map_err Serialization (encode_entry entry)) in
  let entry_bytes := (str_len json_line + 1)%Z in
  if (max_log_bytes l <? entry_bytes)%Z then throw (EntryTooLarge entry_bytes (max_log_bytes l))
  else
    let* lock := storage (acquire_lock (al_storage l)) in
    defer (close_handle lock)
      (let* s := get in
       if buffer_poisoned s then throw BufferPoisoned
       else
         do* rotate_if_needed l entry_bytes in
         let* file := open_log_for_append l in
         defer (call (CloseHandle file))
           (do* append_line file json_line in
            let* s := get in
            put (set_buffer (push_bounded (max_memory_entries l) (memory_buffer s) entry) s))).

(** ** Operations guards, display buffer, export *)
Definition acquire_operation_guard (l : AuditLogger) : AM Z :=
  storage (acquire_operation_lock (al_storage l)).

Definition get_entries : AM (list AuditEntry) :=
  let* s := get in
  if buffer_poisoned s then throw BufferPoisoned else ret (rev (memory_buffer s)).
Definition clear_memory : AM unit :=
  let* s := get in
  if buffer_poisoned s then throw BufferPoisoned else put (set_buffer [] s).

(** [std::io::copy] through a stack buffer. *)
Fixpoint io_copy (turns : nat) (source target : Z) (copied : Z) : AM Z :=
  match turns with
  | O => out_of_fuel
  | S turns' =>
      let* read := call (FileRead source READ_BUFFER) in
      let* bytes := file_io read in
      if is_empty bytes then ret copied
      else
        let* written := call (FileWriteAll target bytes) in
        do* file_io written in
        io_copy turns' source target (copied + Z.of_nat (length bytes))
  end.

Definition export_copy (l : AuditLogger) : AM path :=
  let* lock := storage (acquire_lock (al_storage l)) in
  defer (close_handle lock)
    (let* export_dir := storage (root_open_or_create_directory (al_storage l) EXPORT_DIR) in
     defer (drop_storage_directory export_dir)
       (let* now := call UtcNow in
        let export_name := $"audit-" ++ format_compact now ++ $".jsonl" in
        let pending_name := export_name ++ EXPORT_PENDING_SUFFIX in
        let export_path := path_join (st_path export_dir) (encode_utf16 export_name) in
        let* source := storage (root_open_file (al_storage l) (log_file_name l) FILE_GENERIC_READ
                                  FILE_SHARE_READ) in
        defer (call (CloseHandle source))
          (let* r := call (FileLength source) in
           let* source_length := file_io r in
           let* target := storage (st_create_file export_dir (encode_utf16 pending_name) FILE_SHARE_READ) in
           do* on_error (drop_created target)
             (let* copied_length := io_copy fuel source (cf_file target) 0 in
              let* r := call (FileFlush (cf_file target)) in do* file_io r in
              let* r := call (FileSyncAll (cf_file target)) in do* file_io r in
              let* r := call (FileLength (cf_file target)) in
              let* target_length := file_io r in
              if negb (Z.eqb copied_length source_length) || negb (Z.eqb target_length source_length)
              then throw (AuditIo (IoOther ($"audit export size verification failed")))
              else ret tt) in
           let* published := storage (publish target export_dir export_name) in
           do* call (CloseHandle published) in
           ret export_path))).
End Journal.

(** ** Calls of the journal *)
Definition journal_call (a : sys) : bool :=
  storage_call a ||
  match a with
  | FileSeekEnd _ | FileWriteAll _ _ | FileFlush _ | FileSyncData _ | FileLength _ | UtcNow => true
  | _ => false
  end.

Section StorageOnly.
Context `{Fuel} `{Extern} `{JournalCodec} (P : sys -> Prop)
  (HP : forall a, storage_call a = true -> P a) (HL : forall file, P (FileLength file)).

Hint Resolve mtame_root_open_file mtame_root_create_file mtame_root_remove_file_if_exists
  mtame_durable_rename mtame_acquire_lock mtame_acquire_operation_lock mtame_commit : tame.

Lemma mtame_validate_optional_file l name : mtame P True (validate_optional_file l name).
Proof. unfold validate_optional_file. by solve_tame; apply HP. Qed.
Hint Resolve mtame_validate_optional_file : tame.
Lemma mtame_rotate_if_needed l additional : mtame P True (rotate_if_needed l additional).
Proof.
  unfold rotate_if_needed, current_size, shift_archive, shift_log, storage, file_io.
  by solve_tame; apply HP || apply HL.
Qed.
Lemma mtame_open_log_for_append l : mtame P True (open_log_for_append l).
Proof. unfold open_log_for_append, storage. by solve_tame. Qed.
Lemma mtame_acquire_operation_guard l : mtame P True (acquire_operation_guard l).
Proof. unfold acquire_operation_guard, storage. by solve_tame. Qed.
End StorageOnly.

Lemma mcalls_log `{Fuel} `{Extern} `{JournalCodec} (P : sys -> Prop) l op act tgt st det :
  (forall a, journal_call a = true -> P a) -> mcalls P (log l op act tgt st det).
Proof.
  intros HP. assert (forall a, storage_call a = true -> P a) as HS.
  { intros a Ha. apply HP. unfold journal_call. by rewrite Ha. }
  assert (mcalls P (acquire_lock (S:=AppState) (al_storage l))) as H1'
    by (eapply mtame_calls; by apply mtame_acquire_lock).
  assert (forall n, mcalls P (rotate_if_needed l n)) as H2'
    by (intros n; eapply mtame_calls; apply mtame_rotate_if_needed; [done|]; intros; by apply HP).
  assert (mcalls P (open_log_for_append l)) as H3'
    by (eapply mtame_calls; by apply mtame_open_log_for_append).
  unfold log, append_line, storage, file_io, close_handle. by solve_calls; apply HP.
Qed.

(** ** An event is durable before it is shown *)

(** What an observer of the journal sees: the writes not yet synced, by
    handle, and the chunks of bytes a successful [sync_data] of their handle has
    made durable. *)
Record written : Type := { pending : list (Z * list Z); durable : list (list Z) }.
Definition of_file (file : Z) (writes : list (Z * list Z)) : list Z :=
  concat (map snd (filter (fun w => w.1 = file) writes)).
Definition not_of_file (file : Z) (writes : list (Z * list Z)) : list (Z * list Z) :=
  filter (fun w => w.1 <> file) writes.
Definition see_write (a : sys) : sys_resp a -> written -> written :=
  match a return sys_resp a -> written -> written with
  | FileWriteAll file data => fun r w =>
      match r with
      | Ok _ => {| pending := pending w ++ [(file, data)]; durable := durable w |}
      | Err _ => w
      end
  | FileSyncData file => fun r w =>
      match r with
      | Ok _ => {| pending := not_of_file file (pending w);
                   durable := durable w ++ [of_file file (pending w)] |}
      | Err _ => w
      end
  | _ => fun _ w => w
  end.
Definition watch : protocol written := @observer sys_signature written see_write.
Definition nothing_written : written := {| pending := []; durable := [] |}.

Lemma of_file_app file ws ws' : of_file file (ws ++ ws') = of_file file ws ++ of_file file ws'.
Proof. unfold of_file. by rewrite filter_app, map_app, concat_app. Qed.
Lemma of_file_same file data : of_file file [(file, data)] = data.
Proof. unfold of_file. rewrite filter_cons_True by done. simpl. by rewrite app_nil_r. Qed.

Definition no_write (a : sys) : Prop :=
  match a with FileWriteAll _ _ | FileSyncData _ => False | _ => True end.
Lemma no_write_storage a : storage_call a = true -> no_write a.
Proof. by destruct a. Qed.

Section Durable.
Context `{Fuel} `{Extern} `{JournalCodec}.

Lemma wp_quiet {E A} (m : M AppState E A) s g :
  mtame no_write True m -> wpM watch m (fun _ s' g' => s' = s /\ g' = g) s g.
Proof.
  intros Hm. eapply wpM_mono.
  - apply (@wpM_tame sys_signature AppState no_write True written E A watch (fun g g' => g' = g)); [..|done].
    + split; [done|]. intros x y z -> ->. done.
    + done.
    + intros a g1 x g1' Ha ->. by destruct a.
    + done.
  - done.
Qed.

(** Cleanups neither write nor touch the buffer. *)
Lemma wp_defer_quiet {E A} cleanup (m : M AppState E A) Q s g :
  mtame no_write True cleanup -> wpM watch m Q s g -> wpM watch (defer cleanup m) Q s g.
Proof.
  intros Hc Hm. apply wpM_defer. eapply wpM_mono; [exact Hm|]. intros r s' g' HQ.
  eapply wpM_mono; [by apply wp_quiet|]. by intros r' s'' g'' [-> ->].
Qed.

Lemma wp_file_io (r : result io_error unit) (s : AppState) g Q :
  (r = Ok tt -> Q (Ok tt) s g) -> (forall e, Q (Err e) s g) -> wpM watch (file_io r) Q s g.
Proof. intros Hok Herr. apply wpM_lift. destruct r as [[]|e]; simpl; [by apply Hok|apply Herr]. Qed.

Lemma wp_append_line file json (s : AppState) g :
  wpM watch (append_line file json)
    (fun r s' g' => s' = s /\
       (r = Ok tt -> durable g' = durable g ++ [of_file file (pending g) ++ utf8_encode json ++ [NEWLINE]])) s g.
Proof.
  unfold append_line.
  do 4 (apply wpM_bind; wp_call; [done|]; intros x ? ->; apply wpM_bind, wp_file_io;
        [intros -> | done]; simpl).
  apply wpM_bind. wp_call; [done|]. intros x ? ->. apply wp_file_io; [intros -> | done]. simpl.
  split; [done|]. intros _. by rewrite !of_file_app, !of_file_same, app_assoc.
Qed.

Lemma wp_log (l : AuditLogger) (op act tgt : str) (st : AuditStatus) (det : str) (s : AppState) g :
  wpM watch (log l op act tgt st det)
    (fun r s' g' =>
       match r with
       | Err _ => s' = s
       | Ok _ => exists now json,
           let entry := {| ae_timestamp := now; operation := op; actor := act; target := tgt;
                           status := st; details := det |} in
           encode_entry entry = Ok json /\ (str_len json + 1 <= max_log_bytes l)%Z /\
           (exists file, durable g' = durable g ++ [of_file file (pending g) ++ utf8_encode json ++ [NEWLINE]]) /\
           s' = set_buffer (push_bounded (max_memory_entries l) (memory_buffer s) entry) s
       end) s g.
Proof.
  unfold log. apply wpM_bind. wp_call; [done|]. intros now g0 ->. simpl.
  set (entry := {| ae_timestamp := now; operation := op; actor := act; target := tgt;
                   status := st; details := det |}).
  apply wpM_bind, wpM_lift. destruct (encode_entry entry) as [json|reason] eqn:Hj; simpl; [|done].
  destruct (Z.ltb_spec (max_log_bytes l) (str_len json + 1)) as [Hlt|Hle]; [by apply wpM_throw|].
  apply wpM_bind, wpM_map_err. eapply wpM_mono; [apply wp_quiet, mtame_acquire_lock, no_write_storage|].
  intros [lock|e] s1 g1 [-> ->]; simpl; [|done].
  apply wp_defer_quiet; [unfold close_handle; by solve_tame|].
  apply wpM_bind, wpM_get. destruct (buffer_poisoned s); [by apply wpM_throw|].
  apply wpM_bind. eapply wpM_mono; [apply wp_quiet, mtame_rotate_if_needed; [apply no_write_storage|done]|].
  intros [[]|e] s2 g2 [-> ->]; [|done].
  apply wpM_bind. eapply wpM_mono; [apply wp_quiet, mtame_open_log_for_append, no_write_storage|].
  intros [file|e] s3 g3 [-> ->]; [|done].
  apply wp_defer_quiet; [by solve_tame|].
  apply wpM_bind. eapply wpM_mono; [apply wp_append_line|].
  intros [[]|e] s4 g4 [-> Hsync]; [|done].
  apply wpM_bind, wpM_get, wpM_put. exists now, json. split_and!; [done..| |done]. exists file. by apply Hsync.
Qed.

(** C20: an event is on disk before it is shown, and shown only then.  Whatever
    the answers of the system: when [log] succeeds, exactly the JSON line of
    the entry and its terminator were written to one handle and then synced
    through it, the line fits the limit, and the display buffer gains the entry, dropping its oldest only
    when full; when [log] fails the display buffer is unchanged. *)
Theorem log_durable (l : AuditLogger) (op act tgt : str) (st : AuditStatus) (det : str) (s : AppState) :
  wpM watch (log l op act tgt st det)
    (fun r s' g' =>
       match r with
       | Err _ => s' = s
       | Ok _ => exists now json,
           let entry := {| ae_timestamp := now; operation := op; actor := act; target := tgt;
                           status := st; details := det |} in
           encode_entry entry = Ok json /\ (str_len json + 1 <= max_log_bytes l)%Z /\
           durable g' = [utf8_encode json ++ [NEWLINE]] /\
           s' = set_buffer (push_bounded (max_memory_entries l) (memory_buffer s) entry) s
       end) s nothing_written.
Proof.
  eapply wpM_mono; [apply wp_log|]. intros [[]|e] s' g'; [|done].
  intros (now & json & Hj & Hl & [file Hd] & Hs). by exists now, json.
Qed.
End Durable.

(** ** The display buffer *)
Lemma push_bounded_length {A} max (l : list A) x : length l <= max -> length (push_bounded max l x) <= max.
Proof.
  intros Hl. unfold push_bounded. destruct (Nat.ltb_spec 0 max); [|done].
  rewrite length_app. simpl. destruct (Nat.leb_spec max (length l)); [rewrite length_drop|]; lia.
Qed.

(** Pushing entries one by one keeps the last ones. *)
Lemma push_bounded_last {A} max (xs : list A) :
  foldl (push_bounded max) [] xs = drop (length xs - max) xs.
Proof.
  induction xs as [|x xs IH] using rev_ind; [done|]. rewrite foldl_app, IH. cbn [foldl].
  unfold push_bounded. rewrite length_app. simpl. rewrite length_drop.
  destruct (Nat.ltb_spec 0 max).
  - destruct (Nat.leb_spec max (length xs - (length xs - max))).
    + rewrite drop_drop. rewrite <- drop_app_le by lia. f_equal. lia.
    + replace (length xs - max) with 0 by lia. replace (length xs + 1 - max) with 0 by lia. done.
  - replace max with 0 in * by lia. rewrite !Nat.sub_0_r.
    rewrite !drop_ge; [done|rewrite length_app; simpl; lia|lia].
Qed.

(** ** Reading back

    The reference: the lines of the whole content, decoded in order. *)
Fixpoint lines_of_runs (runs : list (list Z)) : list (list Z) :=
  match runs with
  | [] => []
  | [run] => if is_empty run then [] else [run]
  | run :: runs' => strip_carriage_return run :: lines_of_runs runs'
  end.
Definition lines_of (content : list Z) : list (list Z) := lines_of_runs (split_on (Z.eqb NEWLINE) content).

Fixpoint decode_lines `{JournalCodec} (index : nat) (lines : list (list Z)) : result AuditError (list AuditEntry) :=
  match lines with
  | [] => Ok []
  | line :: lines' =>
      match from_utf8 line with
      | None => Err (AuditIo (IoOther ($"stream did not contain valid UTF-8")))
      | Some text =>
          if is_empty (trim text) then decode_lines (S index) lines'
          else match decode_entry text with
               | Err reason => Err (InvalidEntry (index + 1) reason)
               | Ok entry => let? rest := decode_lines (S index) lines' in Ok (entry :: rest)
               end
      end
  end.
Definition newest {A} (max : nat) (l : list A) : list A := drop (length l - max) l.

Definition clean_line (line : list Z) : Prop := Forall (fun b => Z.eqb NEWLINE b = false) line.

Lemma lines_of_clean line : clean_line line -> lines_of line = if is_empty line then [] else [line].
Proof. intros Hl. unfold lines_of. by rewrite split_on_clean. Qed.
Lemma lines_of_newline line rest :
  clean_line line -> lines_of (line ++ NEWLINE :: rest) = strip_carriage_return line :: lines_of rest.
Proof.
  intros Hl. unfold lines_of. rewrite split_on_app_sep by done. simpl.
  pose proof (split_on_nonempty (Z.eqb NEWLINE) rest). by destruct (split_on _ rest).
Qed.

Lemma position_Some {A} (p : A -> bool) l i :
  position p l = Some i ->
  exists x, p x = true /\ l = take i l ++ x :: drop (S i) l /\ Forall (fun y => p y = false) (take i l).
Proof.
  revert i. induction l as [|y l IH]; simpl; intros i Hi; [done|].
  destruct (p y) eqn:Hy; [injection Hi as <-; exists y; repeat split; [done|constructor]|].
  destruct (position p l) as [j|] eqn:Hj; [|done]. injection Hi as <-.
  destruct (IH j eq_refl) as (x & Hx & Hl & Hf). exists x. split; [done|].
  split; [simpl; by rewrite <- Hl|by constructor].
Qed.

Section ReadBack.
Context {G : Type} (rest : G -> list Z) (failed : G -> option io_error) (file : Z) `{JournalCodec}.

(** Sequential reads of a file: each returns a prefix of what is left, empty
    only at the end, or fails, and [failed] remembers with which error. *)
Record read_laws (P : protocol G) : Prop := {
  read_permitted : forall n g, permitted P (FileRead file n) g;
  read_chunk : forall n g x g', answers P (FileRead file n) g x g' ->
    match x with
    | Ok chunk => rest g = chunk ++ rest g' /\ (chunk = [] -> rest g = []) /\ failed g' = failed g
    | Err e => failed g' = Some e
    end;
}.

Context (P : protocol G) (HP : read_laws P).

(** The turns left to do: every turn consumes bytes, refills the buffer or
    finishes the last line. *)
Definition turns_left (buffered line left : list Z) : nat :=
  2 * length (buffered ++ left) + (if is_empty buffered then 1 else 0) + (if is_empty line then 0 else 1).

Definition decoded (max index : nat) (entries : list AuditEntry) (content : list Z)
    : result AuditError (list AuditEntry) :=
  result_map (foldl (push_bounded max) entries) (decode_lines index (lines_of content)).

Lemma process_line_decoded max index entries line lines :
  result_map (foldl (push_bounded max) entries) (decode_lines index (line :: lines)) =
  (let? entries' := process_line max index entries line in
   result_map (foldl (push_bounded max) entries') (decode_lines (S index) lines)).
Proof.
  unfold process_line. simpl. destruct (from_utf8 line); [|done]. simpl.
  destruct (is_empty (trim _)); [done|]. destruct (decode_entry _); [|done]. simpl.
  by destruct (decode_lines (S index) lines).
Qed.

(** The outcome of reading: the error of the read that failed, or what the
    content decodes to when none did. *)
Definition outcome_of {A} (g' : G) (r decoded : result AuditError A) : Prop :=
  match failed g' with Some e => r = Err (AuditIo e) | None => r = decoded end.

Lemma wp_read_lines turns buffered line max index entries (s : AppState) g :
  clean_line line -> turns_left buffered line (rest g) < turns -> failed g = None ->
  wpM P (read_lines turns file buffered line max index entries)
    (fun r s' g' => s' = s /\ outcome_of g' r (decoded max index entries (line ++ buffered ++ rest g))) s g.
Proof.
  revert buffered line index entries g.
  induction turns as [|turns IH]; intros buffered line index entries g Hl Ht Hf; [lia|].
  cbn [read_lines]. destruct (position (Z.eqb NEWLINE) buffered) as [i|] eqn:Hpos.
  - apply position_Some in Hpos as (x & Hx & Hb & Hclean). apply Z.eqb_eq in Hx as <-.
    assert (clean_line (line ++ take i buffered)) as Hc by (by apply Forall_app).
    assert (decoded max index entries (line ++ buffered ++ rest g) =
      (let? entries' := process_line max index entries (strip_carriage_return (line ++ take i buffered)) in
       decoded max (S index) entries' ([] ++ drop (S i) buffered ++ rest g))) as Heq.
    { unfold decoded. rewrite Hb at 1. rewrite <- app_assoc, <- app_comm_cons, app_assoc.
      rewrite lines_of_newline by done. apply process_line_decoded. }
    apply wpM_bind, wpM_lift. destruct (process_line _ _ _ _) as [entries'|e]; simpl in Heq;
      [|simpl; unfold outcome_of; by rewrite Hf].
    rewrite Heq. apply (IH (drop (S i) buffered) []); [constructor| |done].
    assert (length buffered = length (take i buffered) + S (length (drop (S i) buffered))) as Hlen.
    { rewrite Hb at 1. rewrite length_app. simpl. lia. }
    unfold turns_left in *. rewrite !length_app in *. repeat case_match; simpl in *; lia.
  - assert (clean_line (line ++ buffered)) as Hc.
    { apply Forall_app. split; [done|]. by apply position_None. }
    apply wpM_bind. wp_call; [apply (read_permitted _ HP)|]. intros x g' Hx. apply (read_chunk _ HP) in Hx.
    apply wpM_bind, wpM_lift. destruct x as [chunk|e]; simpl; [|unfold outcome_of; by rewrite Hx].
    destruct Hx as (Hrest & Hend & Hkept). rewrite Hf in Hkept. rewrite app_assoc. destruct chunk as [|b chunk].
    + specialize (Hend eq_refl). rewrite Hend in *. symmetry in Hrest. simpl in Hrest. simpl.
      rewrite app_nil_r. unfold decoded at 1. rewrite lines_of_clean by done.
      destruct (is_empty (line ++ buffered)) eqn:He; [apply wpM_ret; unfold outcome_of; by rewrite Hkept|].
      rewrite process_line_decoded. apply wpM_bind, wpM_lift.
      destruct (process_line _ _ _ _) as [entries'|e]; simpl; [|unfold outcome_of; by rewrite Hkept].
      eapply wpM_mono; [apply (IH [] []); [constructor| |done]|].
      * unfold turns_left in *. rewrite Hrest. simpl. rewrite length_app in Ht.
        destruct buffered, line; simpl in *; done || lia.
      * rewrite Hrest. done.
    + rewrite Hrest. simpl is_empty. apply IH; [done| |done]. unfold turns_left in *. rewrite Hrest in Ht.
      rewrite !length_app in *. simpl in *. destruct buffered, line; simpl in *; lia.
Qed.

(** C37: the journal is read back exactly.  However the system splits the file
    into reads, with enough turns the loop ends.  When a read fails, the result
    is the error of that read; when none does, it is what decoding the lines of
    the whole content in order gives: the newest entries, as many as the buffer
    holds, or the first invalid line.  A last line without terminator is a
    line like the others. *)
Theorem read_lines_newest (max turns : nat) (s : AppState) (g : G)
    (Ht : 2 * length (rest g) + 1 < turns) (Hf : failed g = None) :
  wpM P (read_lines turns file [] [] max 0 [])
    (fun r s' g' => s' = s /\
       match failed g' with
       | Some e => r = Err (AuditIo e)
       | None => r = result_map (newest max) (decode_lines 0 (lines_of (rest g)))
       end) s g.
Proof.
  eapply wpM_mono; [apply wp_read_lines; [constructor| |done]|].
  - unfold turns_left. simpl. lia.
  - intros r s' g' [-> Hr]. split; [done|]. unfold outcome_of in Hr. destruct (failed g'); [done|].
    rewrite Hr. unfold decoded. simpl.
    destruct (decode_lines 0 (lines_of (rest g))) as [es|e]; [|done]. simpl.
    by rewrite push_bounded_last.
Qed.
End ReadBack.

(** A file read three bytes at a time, by reads that may fail. *)
Definition sample_reader : protocol (list Z * option io_error) :=
  Protocol (fun _ _ => True)
    (fun a g x g' =>
       match a return resp a -> Prop with
       | FileRead _ _ => fun x =>
           match x with
           | Ok data => data = take 3 g.1 /\ g' = (drop 3 g.1, g.2)
           | Err e => g' = (g.1, Some e)
           end
       | _ => fun _ => g' = g
       end x) False.
Definition line_codec : JournalCodec :=
  {| encode_entry := fun e => Ok (operation e);
     decode_entry := fun text => Ok {| ae_timestamp := 0; operation := text; actor := []; target := [];
                                       status := StatusSuccess; details := [] |} |}.

Lemma read_lines_newest_witness :
  wpM sample_reader (read_lines (H1:=line_codec) 40 9 [] [] 2 0 [])
    (fun r s' g' => s' = {| memory_buffer := []; buffer_poisoned := false; snapshot_sequence := 0 |} /\
       match g'.2 with
       | Some e => r = Err (AuditIo e)
       | None => exists a b, r = Ok [a; b] /\ operation a = $"two" /\ operation b = $"three"
       end)
    {| memory_buffer := []; buffer_poisoned := false; snapshot_sequence := 0 |}
    ($"one" ++ [NEWLINE] ++ $"two" ++ [CARRIAGE_RETURN; NEWLINE; NEWLINE] ++ $"three", None).
Proof.
  eapply wpM_mono.
  - apply (read_lines_newest fst snd 9 (H:=line_codec) sample_reader); [|simpl; lia|done].
    split; [done|]. intros n [g o] [data|e] [g' o']; simpl; [|by intros [= -> ->]].
    intros [-> [= -> ->]]. split_and!; [by rewrite take_drop| |done].
    destruct g as [|? [|? [|? ?]]]; done.
  - intros r s' g' [-> Hr]. split; [done|]. simpl in Hr. destruct (g'.2); [done|].
    rewrite Hr. vm_compute. eauto.
Defined.
