(* ===== verification/Rotation.v ===== *)
(** * Rotation: the journal rotates its archives without losing one

    [FileStore] is what the storage root promises the journal about the files
    of its directory: a probe tells whether a name is there, a removal and a
    rename do what they say or nothing.  Rotation is proved against the
    promise, and [storage_root_file_store] shows that the storage root keeps
    it under the documented behaviour of the file calls. *)

From stdpp Require Import base list gmap strings.
From S2P Require Import Prelude Text Path Effects Models Win32 Registry Security SecureFs Storage Journal.

(** The files of a directory: their contents by the units of their names. *)
Abbreviation store := (gmap (list Z) (list Z)).
Abbreviation key := encode_utf16.

(** ** The promise *)
Class FileStore {S G : Type} (P : protocol G) (files : G -> store)
    (opened : G -> Z -> option (list Z)) (root : StorageRoot) : Prop := {
  probe_spec : forall name (s : S) g,
    wpM P (root_open_file root name FILE_GENERIC_READ APPEND_SHARES)
      (fun r s' g' => s' = s /\ files g' = files g /\
         match r with
         | Ok file => is_Some (files g !! key name) /\ opened g' file = Some (key name)
         | Err e => is_not_found e = true -> files g !! key name = None
         end) s g;
  length_spec : forall file name content (s : S) g,
    opened g file = Some name -> files g !! name = Some content ->
    wpM P (call (E:=AuditError) (FileLength file))
      (fun r s' g' => s' = s /\ files g' = files g /\
         exists x, r = Ok x /\ forall n, x = Ok n -> n = Z.of_nat (length content)) s g;
  close_spec : forall E file (s : S) g,
    wpM P (call (E:=E) (CloseHandle file)) (fun r s' g' => r = Ok tt /\ s' = s /\ files g' = files g) s g;
  remove_spec : forall name (s : S) g,
    wpM P (root_remove_file_if_exists root name)
      (fun r s' g' => s' = s /\
         files g' = match r with Ok _ => delete (key name) (files g) | Err _ => files g end) s g;
  rename_spec : forall source target (s : S) g,
    wpM P (durable_rename root source target)
      (fun r s' g' => s' = s /\
         match r with
         | Ok _ => exists content,
             files g !! key source = Some content /\ files g !! key target = None /\
             files g' = <[key target := content]> (delete (key source) (files g))
         | Err _ => files g' = files g
         end) s g;
}.

(** ** Archive names *)
Lemma encode_utf16_small s : Forall (fun c => c < 65536)%Z s -> encode_utf16 s = s.
Proof.
  induction 1 as [|c s Hc _ IH]; [done|]. change (encode_utf16 (c :: s)) with (encode_char c ++ encode_utf16 s).
  rewrite IH. unfold encode_char. by rewrite (proj2 (Z.ltb_lt _ _)).
Qed.
Lemma digits_small fuel n : Forall (fun c => c < 65536)%Z (digits_fuel fuel 10 n).
Proof.
  revert n. induction fuel as [|fuel IH]; intros n; [constructor|]. cbn [digits_fuel].
  apply Forall_app. split; [case_match; [constructor|apply IH]|].
  constructor; [|constructor]. pose proof (Z.mod_pos_bound n 10 ltac:(lia)). case_match; lia.
Qed.

Section Rotate.
Context {G : Type} (P : protocol G) (files : G -> store)
  (opened : G -> Z -> option (list Z)) (l : AuditLogger)
  `{!FileStore (S:=AppState) P files opened (al_storage l)}.

Definition arch (i : nat) : list Z := key (archive_name (log_file_name l) i).
Definition log_key : list Z := key (log_file_name l).

Lemma arch_eq i : arch i = log_key ++ DOT :: dec (Z.of_nat i).
Proof.
  unfold arch, archive_name, log_key. rewrite !encode_utf16_app. f_equal.
  change (key ($".")) with [DOT]. simpl. f_equal. apply encode_utf16_small, digits_small.
Qed.
Lemma arch_inj i j : arch i = arch j -> i = j.
Proof.
  rewrite !arch_eq. intros Heq. apply app_inv_head in Heq. injection Heq as Heq.
  apply dec_inj in Heq; lia.
Qed.
Lemma arch_log i : arch i <> log_key.
Proof.
  rewrite arch_eq. intros Heq. apply (f_equal length) in Heq. rewrite length_app in Heq. simpl in Heq. lia.
Qed.

(** The store when the archives from [k] up have been shifted: they hold what
    the archive before them held, [k] is free and nothing else has moved. *)
Definition shifted (m : store) (k : nat) (m' : store) : Prop :=
  (forall j, k < j <= max_archives l -> m' !! arch j = m !! arch (j - 1)) /\
  (k <= max_archives l -> m' !! arch k = None) /\
  (forall name, (forall j, k <= j <= max_archives l -> name <> arch j) -> m' !! name = m !! name).

(** A full rotation: the log is the first archive, every archive the next
    one, the last is gone, and there is no log. *)
Definition rotated (m m' : store) : Prop :=
  m' !! log_key = None /\ m' !! arch 1 = m !! log_key /\
  (forall j, 1 < j <= max_archives l -> m' !! arch j = m !! arch (j - 1)) /\
  (forall name, name <> log_key -> (forall j, 1 <= j <= max_archives l -> name <> arch j) ->
     m' !! name = m !! name).

(** No entry is lost but those of the last archive. *)
Definition journal_name (name : list Z) : Prop :=
  name = log_key \/ exists j, 1 <= j <= max_archives l /\ name = arch j.
Definition keeps_journal (m m' : store) : Prop :=
  forall name content, journal_name name -> name <> arch (max_archives l) ->
    m !! name = Some content -> exists name', journal_name name' /\ m' !! name' = Some content.

Lemma shifted_start m : shifted m (S (max_archives l)) m.
Proof. split; [intros; lia|]. split; [intros; lia|done]. Qed.

Lemma shifted_skip m k m' :
  1 <= k -> k <= max_archives l -> shifted m (S k) m' -> m' !! arch k = None -> shifted m k m'.
Proof.
  intros Hk Hle (Hj & Hn & Hf) Hnone. split; [|split; [done|]].
  - intros j Hj'. destruct (decide (j = S k)) as [->|Hne]; [|apply Hj; lia].
    rewrite Hn by lia. simpl. rewrite Nat.sub_0_r. rewrite <- Hnone. apply Hf.
    intros j Hj2 Heq%arch_inj. lia.
  - intros name Hname. apply Hf. intros j Hj'. apply Hname. lia.
Qed.

Lemma shifted_remove m m' :
  1 <= max_archives l -> shifted m (S (max_archives l)) m' ->
  shifted m (max_archives l) (delete (arch (max_archives l)) m').
Proof.
  intros Hmax (_ & _ & Hf). split; [intros; lia|]. split; [intros; by rewrite lookup_delete_eq|].
  intros name Hname. rewrite lookup_delete_ne by (intros <-; by apply (Hname (max_archives l))).
  apply Hf. intros; lia.
Qed.

Lemma shifted_move m k m' content :
  1 <= k < max_archives l -> shifted m (S k) m' -> m' !! arch k = Some content ->
  shifted m k (<[arch (k + 1) := content]> (delete (arch k) m')).
Proof.
  intros Hk (Hj & Hn & Hf) Hc.
  assert (m !! arch k = Some content) as Hmk.
  { rewrite <- Hc. symmetry. apply Hf. intros j Hj' Heq%arch_inj. lia. }
  assert (forall j, arch (k + 1) = arch j -> j = k + 1) as Hinj by (intros j Heq%arch_inj; lia).
  split; [|split].
  - intros j Hj'. destruct (decide (j = k + 1)) as [->|Hne].
    + rewrite lookup_insert_eq. rewrite Nat.add_sub. done.
    + rewrite lookup_insert_ne by (intros Heq%Hinj; lia).
      rewrite lookup_delete_ne by (intros Heq%arch_inj; lia). apply Hj. lia.
  - intros _. rewrite lookup_insert_ne by (intros Heq%arch_inj; lia). by rewrite lookup_delete_eq.
  - intros name Hname. rewrite lookup_insert_ne by (intros <-; by apply (Hname (k + 1)); [lia|]).
    rewrite lookup_delete_ne by (intros <-; by apply (Hname k); [lia|]).
    apply Hf. intros j Hj'. apply Hname. lia.
Qed.

Lemma shifted_log m k m' : shifted m k m' -> m' !! log_key = m !! log_key.
Proof. intros (_ & _ & Hf). apply Hf. intros j _ Heq. by apply (arch_log j). Qed.

Lemma shifted_keeps m k m' : 1 <= k -> shifted m k m' -> keeps_journal m m'.
Proof.
  intros Hk Hs name content Hn Hlast Hc. pose proof Hs as (Hj & _ & Hf).
  destruct Hn as [->|(j & Hjr & ->)].
  - exists log_key. split; [by left|]. by rewrite (shifted_log _ _ _ Hs).
  - assert (j <> max_archives l) as Hne by (by intros ->).
    destruct (decide (j < k)).
    + exists (arch j). split; [right; eauto|]. rewrite Hf; [done|]. intros i Hi Heq%arch_inj. lia.
    + exists (arch (S j)). split; [right; exists (S j); split; [lia|done]|].
      rewrite Hj by lia. simpl. by rewrite Nat.sub_0_r.
Qed.

Lemma rotated_keeps m m' : 1 <= max_archives l -> rotated m m' -> keeps_journal m m'.
Proof.
  intros Hmax (_ & Hone & Hj & _) name content Hn Hlast Hc. destruct Hn as [->|(j & Hjr & ->)].
  - exists (arch 1). split; [right; exists 1; split; [lia|done]|]. by rewrite Hone.
  - assert (j <> max_archives l) as Hne by (by intros ->).
    exists (arch (S j)). split; [right; exists (S j); split; [lia|done]|].
    rewrite Hj by lia. simpl. by rewrite Nat.sub_0_r.
Qed.

Lemma shifted_rotated m m' content :
  1 <= max_archives l -> shifted m 1 m' -> m' !! log_key = Some content ->
  rotated m (<[arch 1 := content]> (delete log_key m')).
Proof.
  intros Hmax Hs Hc. pose proof Hs as (Hj & Hn & Hf). pose proof (shifted_log _ _ _ Hs) as Hlog.
  split; [|split; [|split]].
  - rewrite lookup_insert_ne by apply arch_log. by rewrite lookup_delete_eq.
  - rewrite lookup_insert_eq. congruence.
  - intros j Hj'. rewrite lookup_insert_ne by (intros Heq%arch_inj; lia).
    rewrite lookup_delete_ne by (intros Heq; by apply (arch_log j)). apply Hj. lia.
  - intros name Hnl Hname. rewrite lookup_insert_ne by (intros <-; by apply (Hname 1); [lia|]).
    rewrite lookup_delete_ne by done. by apply Hf.
Qed.
Lemma shifted_rotated_none m m' :
  1 <= max_archives l -> shifted m 1 m' -> m' !! log_key = None -> rotated m m'.
Proof.
  intros Hmax Hs Hc. pose proof Hs as (Hj & Hn & Hf). pose proof (shifted_log _ _ _ Hs) as Hlog.
  split; [done|]. split; [rewrite Hn by lia; congruence|]. split; [intros; apply Hj; lia|].
  intros name Hnl Hname. by apply Hf.
Qed.

(** ** The functions *)
Lemma wp_validate_optional_file name (s : AppState) g :
  wpM P (validate_optional_file l name)
    (fun r s' g' => s' = s /\ files g' = files g /\
       forall b, r = Ok b -> if b then is_Some (files g !! key name) else files g !! key name = None) s g.
Proof.
  apply wpM_bind, wpM_attempt. eapply wpM_mono; [apply probe_spec|].
  intros [file|e] s' g' (-> & Hg & Hr); simpl.
  - apply wpM_bind. eapply wpM_mono; [apply close_spec|]. intros r s'' g'' (-> & -> & Hg'). apply wpM_ret.
    split; [done|]. split; [congruence|]. intros b [= <-]. by destruct Hr.
  - destruct (is_not_found e) eqn:He; [apply wpM_ret|apply wpM_throw]; (split; [done|]; split; [done|]);
      intros b [= <-]. by apply Hr.
Qed.

Lemma wp_shift_archive k m (s : AppState) g :
  1 <= k <= max_archives l -> shifted m (S k) (files g) ->
  wpM P (shift_archive l k)
    (fun r s' g' => s' = s /\
       match r with Ok _ => shifted m k (files g') | Err _ => shifted m (S k) (files g') end) s g.
Proof.
  intros Hk Hs. apply wpM_bind. eapply wpM_mono; [apply wp_validate_optional_file|].
  intros [b|e] s' g' (-> & Hg & Hb); [|by rewrite Hg]. specialize (Hb b eq_refl). fold (arch k) in Hb.
  rewrite <- Hg in Hs, Hb.
  destruct (Nat.eqb_spec k (max_archives l)) as [Heq|Hne].
  - destruct b.
    + apply wpM_bind, wpM_map_err. eapply wpM_mono; [apply remove_spec|].
      intros [x|e] s'' g'' [-> Hg'']; simpl.
      * split; [done|]. rewrite Hg''. fold (arch k). rewrite Heq in *. apply shifted_remove; [lia|done].
      * by rewrite Hg''.
    + apply wpM_ret. split; [done|]. apply shifted_skip; first [lia | done].
  - destruct b.
    + apply wpM_map_err. eapply wpM_mono; [apply rename_spec|].
      intros [x|e] s'' g'' [-> Hr]; simpl; [|by rewrite Hr].
      destruct Hr as (content & Hc & _ & ->). split; [done|]. apply shifted_move; first [lia | done].
    + apply wpM_ret. split; [done|]. apply shifted_skip; first [lia | done].
Qed.

(** The loop from the oldest archive down to the first. *)
Lemma wp_shift_archives k m (s : AppState) g :
  k <= max_archives l -> shifted m (S k) (files g) ->
  wpM P (for_each (shift_archive l) (rev (seq 1 k)))
    (fun r s' g' => s' = s /\
       match r with Ok _ => shifted m 1 (files g') | Err _ => exists j, 1 <= j /\ shifted m j (files g') end) s g.
Proof.
  revert s g. induction k as [|k IH]; intros s g Hk Hs; [by apply wpM_ret|].
  rewrite seq_S, rev_app_distr. simpl. apply wpM_bind.
  eapply wpM_mono; [apply wp_shift_archive; [lia|done]|].
  intros [x|e] s' g' [-> Hr]; [apply IH; [lia|done]|]. split; [done|]. exists (S (S k)). split; [lia|done].
Qed.

Lemma wp_shift_log m (s : AppState) g :
  1 <= max_archives l -> shifted m 1 (files g) ->
  wpM P (shift_log l)
    (fun r s' g' => s' = s /\
       match r with Ok _ => rotated m (files g') | Err _ => shifted m 1 (files g') end) s g.
Proof.
  intros Hmax Hs. apply wpM_bind. eapply wpM_mono; [apply wp_validate_optional_file|].
  intros [b|e] s' g' (-> & Hg & Hb); [|by rewrite Hg]. specialize (Hb b eq_refl). fold log_key in Hb.
  rewrite <- Hg in Hs, Hb. destruct b.
  - apply wpM_map_err. eapply wpM_mono; [apply rename_spec|].
    intros [x|e] s'' g'' [-> Hr]; simpl; [|by rewrite Hr].
    destruct Hr as (content & Hc & _ & ->). split; [done|]. by apply shifted_rotated.
  - apply wpM_ret. split; [done|]. by apply shifted_rotated_none.
Qed.

(** The size of the log, zero when there is none. *)
Definition log_size (m : store) : Z := default 0%Z (Z.of_nat ∘ length <$> m !! log_key).

Lemma wp_current_size (s : AppState) g :
  wpM P (current_size l)
    (fun r s' g' => s' = s /\ files g' = files g /\ forall n, r = Ok n -> n = log_size (files g)) s g.
Proof.
  apply wpM_bind, wpM_attempt. eapply wpM_mono; [apply probe_spec|].
  intros [file|e] s' g' (-> & Hg & Hr); simpl; unfold log_size.
  - destruct Hr as [[content Hc] Ho]. fold log_key in *. rewrite <- Hg in *. rewrite Hc.
    apply wpM_defer, wpM_bind. eapply wpM_mono; [by eapply length_spec|].
    intros r s'' g'' (-> & Hg'' & x & -> & Hx). simpl. apply wpM_lift. eapply wpM_mono; [apply close_spec|].
    intros r' s3 g3 (-> & -> & Hg3). split; [done|]. split; [congruence|].
    intros n Hn. destruct x; [|done]. injection Hn as <-. by apply Hx.
  - destruct (is_not_found e) eqn:He; [apply wpM_ret|apply wpM_throw]; (split; [done|]; split; [done|]);
      intros n [= <-]. fold log_key in Hr. by rewrite Hr.
Qed.

(** C21: rotation.  When the log has room for the new entry nothing changes.
    When it has not, a rotation that succeeds leaves no log, makes it the
    first archive and every archive the next one, dropping only the oldest.
    Whatever happens, a failure in the middle included, no content of the
    journal is lost but that of the oldest archive. *)
Theorem rotate_if_needed_spec (additional : Z) (s : AppState) (g : G)
    (Hmax : 1 <= max_archives l) :
  wpM P (rotate_if_needed l additional)
    (fun r s' g' => s' = s /\ keeps_journal (files g) (files g') /\
       (r = Ok tt ->
        if (saturating_add_u64 (log_size (files g)) additional <=? max_log_bytes l)%Z
        then files g' = files g else rotated (files g) (files g'))) s g.
Proof.
  assert (keeps_journal (files g) (files g)) as Hrefl by (intros name c Hn _ Hc; eauto).
  apply wpM_bind. eapply wpM_mono; [apply wp_current_size|].
  intros [n|e] s1 g1 (-> & Hg1 & Hn); [|by rewrite Hg1]. rewrite <- (Hn n eq_refl).
  destruct (_ <=? _)%Z; [apply wpM_ret; by rewrite Hg1|].
  apply wpM_bind. eapply wpM_mono.
  { apply (wp_shift_archives _ (files g)); [done|]. rewrite Hg1. apply shifted_start. }
  intros [[]|e] s2 g2 [-> Hr]; [|by destruct Hr as (j & Hj & Hs); split; [|split; [eapply shifted_keeps|]]].
  eapply wpM_mono; [by apply (wp_shift_log (files g))|].
  intros [[]|e] s3 g3 [-> Hr3]; (split; [done|]; split; [|done]); [by apply rotated_keeps|].
  by eapply shifted_keeps; [|exact Hr3].
Qed.
End Rotate.

(** ** The storage root keeps the promise

    The documented behaviour of the file calls on the directory of [root]:
    opening an existing name succeeds only when it is there and says not found
    only when it is not, marking an opened file for deletion removes its name,
    a move without replacement needs a free target, and a failed call, a query
    or a close changes no file. *)
Section Discharge.
Context {S G : Type} (P : protocol G) (files : G -> store)
  (opened : G -> Z -> option (list Z)) (root : StorageRoot).

Record file_laws : Prop := {
  fl_permitted : forall a g, permitted P a g;
  fl_open : forall name access share options attributes descriptor g x g',
    answers P (NtCreateFile (st_handle (directory root)) name access share FILE_OPEN options attributes
                 descriptor) g x g' ->
    files g' = files g /\
    ((0 <= nt_status x)%Z -> is_Some (files g !! name) /\ opened g' (nt_handle x) = Some name) /\
    (nt_status x = STATUS_OBJECT_NAME_NOT_FOUND \/ nt_status x = STATUS_OBJECT_PATH_NOT_FOUND ->
     files g !! name = None);
  fl_length : forall file g x g', answers P (FileLength file) g x g' ->
    files g' = files g /\
    forall n name content, x = Ok n -> opened g file = Some name -> files g !! name = Some content ->
      n = Z.of_nat (length content);
  fl_delete : forall file g x g', answers P (SetFileDisposition file) g x g' ->
    if x then forall name, opened g file = Some name -> files g' = delete name (files g)
    else files g' = files g;
  fl_move : forall a b g x g',
    validate_component a = Ok tt -> validate_component b = Ok tt ->
    answers P (MoveFileExW (wide_null (path_join (st_path (directory root)) a))
                 (wide_null (path_join (st_path (directory root)) b)) MOVEFILE_WRITE_THROUGH) g x g' ->
    if x then exists content, files g !! a = Some content /\ files g !! b = None /\
                files g' = <[b := content]> (delete a (files g))
    else files g' = files g;
  fl_inspect : forall a g x g', inspects_root a = true -> answers P a g x g' ->
    files g' = files g /\
    match a with CloseHandle _ => True | _ => forall file, opened g' file = opened g file end;
}.

Context (HL : file_laws).

Definition same_files (g g' : G) : Prop := files g' = files g.
#[local] Instance same_files_preorder : PreOrder same_files.
Proof. split; [done|]. unfold same_files. intros g1 g2 g3 Ha Hb. congruence. Qed.
(** Neither the files nor what the handles are open on. *)
Definition same_view (g g' : G) : Prop :=
  files g' = files g /\ forall file, opened g' file = opened g file.
#[local] Instance same_view_preorder : PreOrder same_view.
Proof.
  split; [done|]. intros g1 g2 g3 [Ha Ha'] [Hb Hb']. split; [congruence|]. intros file. by rewrite Hb', Ha'.
Qed.

Definition inspecting (a : sys) : Prop := inspects_root a = true.

Lemma wp_inspect {E A} (m : M S E A) s g :
  mtame inspecting False m ->
  wpM P m (fun _ s' g' => s' = s /\ files g' = files g) s g.
Proof.
  intros Hm. apply (@wpM_tame sys_signature S inspecting False G E A P same_files _); [..|done].
  - intros. apply (fl_permitted HL).
  - intros a g1 x g1' Ha Hx. by eapply (fl_inspect HL).
  - done.
Qed.

Lemma wp_st_io_error {A} op p (s : S) g :
  wpM P (st_io_error (A:=A) op p)
    (fun r s' g' => s' = s /\ same_view g g' /\ exists e, r = Err (StIo op (display p) e)) s g.
Proof.
  apply wpM_bind, wpM_bind. wp_call; [apply (fl_permitted HL)|]. intros code g' Hx.
  apply (fl_inspect HL) in Hx as [Hf Ho]; [|done]. apply wpM_ret, wpM_throw.
  split; [done|]. split; [by split|eauto].
Qed.

Lemma wp_validate_kind_view handle p expected (s : S) g :
  wpM P (validate_kind handle p expected)
    (fun r s' g' => s' = s /\ same_view g g' /\ forall e, r = Err e -> is_not_found e = false) s g.
Proof.
  apply wpM_bind. wp_call; [apply (fl_permitted HL)|]. intros [i|] g' Hx;
    apply (fl_inspect HL) in Hx as [Hf Ho]; try done.
  - assert (same_view g g') as Hv by (by split).
    repeat case_match; first [apply wpM_throw | apply wpM_ret]; (split; [done|]; split; [done|]);
      by intros e [= <-].
  - eapply wpM_mono; [apply wp_st_io_error|]. intros r s' g'' (-> & Hv & e & ->).
    split; [done|]. split; [|by intros e' [= <-]]. transitivity g'; [by split|done].
Qed.

(** Opening an existing child by its name. *)
Lemma wp_nt_open name p access share options (s : S) g :
  wpM P (st_nt_open_relative (st_handle (directory root)) name p access share FILE_OPEN options)
    (fun r s' g' => s' = s /\ files g' = files g /\
       match r with
       | Ok file => is_Some (files g !! name) /\ opened g' file = Some name
       | Err e => is_not_found e = true -> files g !! name = None
       end) s g.
Proof.
  apply wpM_bind, wpM_lift. destruct (validate_component name) as [[]|e] eqn:Hv.
  2:{ split; [done|]. split; [done|]. unfold validate_component in Hv. case_match; by simplify_eq. }
  case_match; [by apply wpM_throw|]. apply wpM_bind. wp_call; [apply (fl_permitted HL)|].
  intros x g' Hx. apply (fl_open HL) in Hx as (Hf & Hok & Hno).
  destruct (Z.ltb_spec (nt_status x) 0).
  - apply wpM_throw. split; [done|]. split; [done|]. simpl. intros Hn. apply Hno.
    apply orb_true_iff in Hn as [Hn|Hn]; apply Z.eqb_eq in Hn; eauto.
  - unfold StorageHandle_new. destruct (OwnedHandle_from_raw (nt_handle x)) as [h|] eqn:Hh.
    + apply wpM_ret. apply from_raw_Some in Hh as <-. split; [done|]. split; [done|]. by apply Hok.
    + eapply wpM_mono; [apply wp_st_io_error|]. intros r s' g'' (-> & [Hf' _] & e & ->).
      split; [done|]. split; [congruence|done].
Qed.

Lemma wp_close_files {E} handle (s : S) g :
  wpM P (close_handle (E:=E) handle) (fun _ s' g' => s' = s /\ files g' = files g) s g.
Proof.
  apply wp_inspect. unfold close_handle. solve_tame.
Qed.

(** A validated handle of an existing child, as every reader obtains it. *)
Lemma wp_open_validated {A} name p access share options (s : S) g (ok : Z -> A) :
  wpM P (with_handle (st_nt_open_relative (st_handle (directory root)) name p access share FILE_OPEN options)
           (fun handle => do* validate_kind handle p false in ret (ok handle)))
    (fun r s' g' => s' = s /\ files g' = files g /\
       match r with
       | Ok a => exists file, a = ok file /\ is_Some (files g !! name) /\ opened g' file = Some name
       | Err e => is_not_found e = true -> files g !! name = None
       end) s g.
Proof.
  apply wpM_bind. eapply wpM_mono; [apply wp_nt_open|].
  intros [file|e] s1 g1 (-> & Hf1 & Hr); [|done]. destruct Hr as [Hs Ho].
  apply wpM_on_error, wpM_bind. eapply wpM_mono; [apply wp_validate_kind_view|].
  intros [[]|e] s2 g2 (-> & [Hf2 Ho2] & He).
  - apply wpM_ret. split; [done|]. split; [congruence|]. exists file. by rewrite Ho2.
  - eapply wpM_mono; [apply wp_close_files|]. intros r s3 g3 [-> Hf3].
    split; [done|]. split; [congruence|]. by rewrite (He e eq_refl).
Qed.

(** The checks of the root report insecure storage or a failed call, never a
    missing name. *)
Definition found (e : StorageError) : Prop := is_not_found e = false.
Lemma merrors_st_io_error {A} op p : merrors found (st_io_error (S:=S) (A:=A) op p).
Proof. unfold st_io_error, last_os_error. by solve_errors. Qed.
Hint Resolve merrors_st_io_error : errors.
Lemma merrors_check_aces n dacl index sys adm ss sa p :
  merrors found (check_aces (S:=S) n dacl index sys adm ss sa p).
Proof. revert index ss sa. induction n; intros; simpl; by solve_errors. Qed.
Hint Resolve merrors_check_aces : errors.
Lemma merrors_validate_descriptor descriptor owner dacl p :
  merrors found (validate_descriptor (S:=S) descriptor owner dacl p).
Proof. unfold validate_descriptor, LocalSid_parse. by solve_errors. Qed.
Lemma merrors_revalidate : merrors found (revalidate (S:=S) root).
Proof.
  unfold revalidate, validate_kind, validate_production_root. apply merrors_bind; [by solve_errors|].
  intros _. case_match; [|done]. apply merrors_bind; [by solve_errors|]. intros info.
  case_match; [by solve_errors|].
  eapply merrors_bind_attempt; [apply merrors_validate_descriptor|]. intros r Hr.
  apply merrors_bind; [by solve_errors|]. intros _. by apply merrors_lift.
Qed.

Lemma wp_revalidate (s : S) g :
  wpM P (revalidate root)
    (fun r s' g' => (forall e, r = Err e -> found e) /\ s' = s /\ files g' = files g) s g.
Proof.
  apply wpM_errors; [apply merrors_revalidate|]. apply wp_inspect. by apply mtame_revalidate.
Qed.

Lemma wp_probe name access share (s : S) g :
  wpM P (root_open_file root name access share)
    (fun r s' g' => s' = s /\ files g' = files g /\
       match r with
       | Ok file => is_Some (files g !! key name) /\ opened g' file = Some (key name)
       | Err e => is_not_found e = true -> files g !! key name = None
       end) s g.
Proof.
  apply wpM_bind. eapply wpM_mono; [apply wp_revalidate|].
  intros [[]|e] s1 g1 (He & -> & Hf1).
  2:{ split; [done|]. split; [done|]. by rewrite (He e eq_refl). }
  apply wpM_bind, wpM_lift. unfold child_path.
  destruct (validate_component (key name)) as [[]|e] eqn:Hv; simpl.
  2:{ split; [done|]. split; [done|]. unfold validate_component in Hv. case_match; by simplify_eq. }
  rewrite <- Hf1. eapply wpM_mono; [apply (wp_open_validated _ _ _ _ _ _ _ id)|].
  intros [file|e] s2 g2 (-> & Hf2 & Hr); [|done]. by destruct Hr as (f & -> & Hs & Ho).
Qed.

Lemma wp_close_call {E} file (s : S) g :
  wpM P (call (E:=E) (CloseHandle file)) (fun r s' g' => r = Ok tt /\ s' = s /\ files g' = files g) s g.
Proof.
  wp_call; [apply (fl_permitted HL)|]. intros [] g' Hx. by apply (fl_inspect HL) in Hx as [Hf _].
Qed.

Lemma wp_remove_file name (s : S) g :
  wpM P (root_remove_file_if_exists root name)
    (fun r s' g' => s' = s /\
       files g' = match r with Ok _ => delete (key name) (files g) | Err _ => files g end) s g.
Proof.
  apply wpM_bind. eapply wpM_mono; [apply wp_revalidate|].
  intros [[]|e] s1 g1 (_ & -> & Hf1); [|by rewrite Hf1]. apply wpM_bind, wpM_lift.
  destruct (child_path _ _) as [p|e]; [|by rewrite Hf1]. apply wpM_bind, wpM_attempt. rewrite <- Hf1.
  eapply wpM_mono; [apply wp_nt_open|]. intros [file|e] s2 g2 (-> & Hf2 & Hr).
  2:{ destruct (is_not_found e); [apply wpM_ret|by apply wpM_throw]. split; [done|].
      by rewrite Hf2, delete_id by by apply Hr. }
  destruct Hr as [Hs Ho]. apply wpM_defer, wpM_bind. eapply wpM_mono; [apply wp_validate_kind_view|].
  intros [[]|e] s3 g3 (-> & [Hf3 Ho3] & _).
  2:{ eapply wpM_mono; [apply wp_close_files|]. intros r s4 g4 [-> Hf4]. split; [done|congruence]. }
  apply wpM_bind, wpM_bind. wp_call; [apply (fl_permitted HL)|]. intros x g4 Hx. apply (fl_delete HL) in Hx.
  destruct x; simpl.
  - specialize (Hx (key name)). rewrite Ho3 in Hx. specialize (Hx Ho). apply wpM_ret, wpM_ret.
    eapply wpM_mono; [apply wp_close_files|]. intros r s5 g5 [-> Hf5]. split; [done|congruence].
  - eapply wpM_mono; [apply wp_st_io_error|]. intros r s5 g5 (-> & [Hf5 _] & e & ->).
    eapply wpM_mono; [apply wp_close_files|]. intros r s6 g6 [-> Hf6]. split; [done|congruence].
Qed.

(** Reading a name through the directory, as [durable_rename] does. *)
Lemma wp_open_here name access share (s : S) g :
  wpM P (st_open_file (directory root) (key name) access share)
    (fun r s' g' => s' = s /\ files g' = files g /\
       match r with
       | Ok file => True
       | Err e => is_not_found e = true -> files g !! key name = None
       end) s g.
Proof.
  apply wpM_bind, wpM_lift. unfold child_path.
  destruct (validate_component (key name)) as [[]|e] eqn:Hv; simpl.
  2:{ split; [done|]. split; [done|]. unfold validate_component in Hv. case_match; by simplify_eq. }
  eapply wpM_mono; [apply (wp_open_validated _ _ _ _ _ _ _ id)|].
  intros [file|e] s2 g2 (-> & Hf2 & Hr); [done|done].
Qed.

Lemma wp_rename source target (s : S) g :
  wpM P (durable_rename root source target)
    (fun r s' g' => s' = s /\
       match r with
       | Ok _ => exists content,
           files g !! key source = Some content /\ files g !! key target = None /\
           files g' = <[key target := content]> (delete (key source) (files g))
       | Err _ => files g' = files g
       end) s g.
Proof.
  apply wpM_bind. eapply wpM_mono; [apply wp_revalidate|].
  intros [[]|e] s1 g1 (_ & -> & Hf1); [|by rewrite Hf1]. rewrite <- Hf1.
  apply wpM_bind. eapply wpM_mono; [apply wp_open_here|].
  intros [file|e] s2 g2 (-> & Hf2 & _); [|done]. apply wpM_bind.
  eapply wpM_mono; [apply wp_close_call|]. intros r s3 g3 (-> & -> & Hf3).
  apply wpM_bind, wpM_attempt. eapply wpM_mono; [apply wp_open_here|].
  intros [file'|e] s4 g4 (-> & Hf4 & _); apply wpM_bind.
  { apply wpM_bind. eapply wpM_mono; [apply wp_close_call|]. intros r s5 g5 (-> & -> & Hf5).
    apply wpM_bind, wpM_lift. destruct (child_path _ _); [apply wpM_throw|];
      (split; [done|]; congruence). }
  destruct (is_not_found e); [apply wpM_ret|apply wpM_throw; split; [done|congruence]].
  apply wpM_bind, wpM_lift. unfold child_path.
  destruct (validate_component (key source)) as [[]|] eqn:Hs; simpl; [|split; [done|congruence]].
  apply wpM_bind, wpM_lift.
  destruct (validate_component (key target)) as [[]|] eqn:Ht; simpl; [|split; [done|congruence]].
  apply wpM_bind. wp_call; [apply (fl_permitted HL)|]. intros x g5 Hx. apply (fl_move HL) in Hx; [|done..].
  assert (files g4 = files g1) as Hf41 by congruence. rewrite Hf41 in Hx.
  destruct x; simpl; [by apply wpM_ret|].
  eapply wpM_mono; [apply wp_st_io_error|]. intros r s6 g6 (-> & [Hf6 _] & e' & ->).
  split; [done|congruence].
Qed.

(** The storage root implements the promise. *)
Lemma storage_root_file_store : FileStore (S:=S) P files opened root.
Proof.
  split.
  - intros. apply wp_probe.
  - intros file name content s g Ho Hc. wp_call; [apply (fl_permitted HL)|]. intros x g' Hx.
    apply (fl_length HL) in Hx as [Hf Hn]. split; [done|]. split; [done|]. exists x. split; [done|]. eauto.
  - intros. apply wp_close_call.
  - intros. apply wp_remove_file.
  - intros. apply wp_rename.
Qed.
End Discharge.

(** A directory whose calls behave as documented: the ghost state is the files
    and what each handle is open on. *)
Definition sample_directory : StorageDirectory := {| st_handle := 4; st_path := $"C:\ProgramData\WinProfile" |}.
Definition sample_root : StorageRoot := {| directory := sample_directory; trust := TrustedInjection |}.
Definition sample_store : Type := store * gmap Z (list Z).
Definition sample_files : protocol sample_store :=
  Protocol (fun _ _ => True)
    (fun a g x g' =>
       match a return resp a -> Prop with
       | NtCreateFile _ name _ _ _ _ _ _ => fun x =>
           match fst g !! name with
           | Some _ => nt_status x = 0%Z /\ g' = (fst g, <[nt_handle x := name]> (snd g))
           | None => nt_status x = STATUS_OBJECT_NAME_NOT_FOUND /\ g' = g
           end
       | FileLength file => fun x =>
           g' = g /\ x = match snd g !! file ≫= (fun name => fst g !! name) with
                         | Some content => Ok (Z.of_nat (length content))
                         | None => Err (IoOs 6)
                         end
       | SetFileDisposition file => fun x =>
           match snd g !! file with
           | Some name => x = true /\ g' = (delete name (fst g), snd g)
           | None => x = false /\ g' = g
           end
       | MoveFileExW source target _ => fun x =>
           if x then forall a b, validate_component a = Ok tt -> validate_component b = Ok tt ->
                  source = wide_null (path_join (st_path sample_directory) a) ->
                  target = wide_null (path_join (st_path sample_directory) b) ->
                  exists content, fst g !! a = Some content /\ fst g !! b = None /\
                    g' = (<[b := content]> (delete a (fst g)), snd g)
           else g' = g
       | _ => fun _ => g' = g
       end x) False.
Definition sample_logger : AuditLogger :=
  {| al_storage := sample_root; log_file_name := AUDIT_FILE; log_file_path := [];
     max_memory_entries := 100; max_log_bytes := 64; max_archives := 3 |}.
Definition sample_codec : JournalCodec :=
  {| encode_entry := fun e => Ok (operation e); decode_entry := fun text => Err text |}.
Definition sample_state : AppState :=
  {| memory_buffer := []; buffer_poisoned := false; snapshot_sequence := 0 |}.

Lemma sample_file_laws : file_laws sample_files fst (fun g file => snd g !! file) sample_root.
Proof.
  split.
  - done.
  - intros name access share options attributes descriptor g x g' Hx. simpl in Hx.
    destruct (fst g !! name) eqn:Hn; destruct Hx as [Hst ->]; rewrite Hst; simpl.
    + split; [done|]. split; [|by intros []]. intros _. by rewrite lookup_insert_eq.
    + split; [done|]. split; [|done]. by intros Hle.
  - intros file g x g' [-> ->]. split; [done|]. intros n name content Hx Ho Hc.
    rewrite Ho in Hx. simpl in Hx. rewrite Hc in Hx. by injection Hx.
  - intros file g x g' Hx. simpl in Hx. destruct (snd g !! file) as [name|] eqn:Hn; destruct Hx as [-> ->].
    + intros name' [= <-]. done.
    + done.
  - intros a b g x g' Ha Hb Hx. simpl in Hx. destruct x; [|by subst].
    destruct (Hx a b Ha Hb eq_refl eq_refl) as (content & H1 & H2 & ->). by exists content.
  - intros a g x g' Ha Hx. destruct a; try done; simpl in Hx; by subst.
Qed.

Lemma rotate_if_needed_spec_witness :
  wpM sample_files
    (rotate_if_needed sample_logger 60)
    (fun r s' g' => s' = sample_state /\
       keeps_journal sample_logger {[ AUDIT_FILE := [1; 2; 3; 4; 5]%Z ]} (fst g') /\
       (r = Ok tt -> rotated sample_logger {[ AUDIT_FILE := [1; 2; 3; 4; 5]%Z ]} (fst g')))
    sample_state ({[ AUDIT_FILE := [1; 2; 3; 4; 5]%Z ]}, ∅).
Proof.
  eapply wpM_mono.
  - apply (rotate_if_needed_spec sample_files fst (fun g file => snd g !! file) sample_logger
      (FileStore0 := storage_root_file_store sample_files fst _ sample_root sample_file_laws)).
    simpl. lia.
  - intros r s' g' (-> & Hk & Hr). split; [done|]. split; [done|]. intros Hok. specialize (Hr Hok).
    replace (_ <=? _)%Z with false in Hr by (vm_compute; reflexivity). exact Hr.
Defined.
