(* ===== verification/Snapshot.v ===== *)
(** * Snapshot: pre-repair registry snapshots and their restoration
    (audit-journal/src/snapshot.rs and rollback.rs)

    A snapshot binds a repair transaction to the hive file it saved by an open
    handle.  [serde_json] on the metadata is the parameter [SnapshotCodec]. *)

From stdpp Require Import base list gmap strings.
From S2P Require Import Prelude Text Path Effects Models Win32 Registry Security SecureFs Storage Journal.

Definition SNAPSHOT_DIR : str := $"Snapshots".
Definition HASH_BUFFER_BYTES : Z := 65536.

Inductive SnapshotError : Type :=
| SnapIo (e : io_error)
| SnapRegistry (e : RegistryError)
| SnapSecurity (e : SecurityError)
| SnapStorage (e : StorageError)
| Collision (name : str)
| SaveCleanupFailed (save_error cleanup_error : str)
| SnapCleanupFailed (metadata_error cleanup_error : str)
| PostSaveCleanupFailed (operation_error cleanup_error : str)
| PrivilegeRestoreCleanupFailed (restore_error cleanup_errors : str)
| SnapOperationAndPrivilegeRestoreFailed (operation_error restore_error : str)
| InvalidInventory (metadata_file reason : str)
| HashError (operation : str) (status : Z).

Definition show_SnapshotError `{Extern} (e : SnapshotError) : str :=
  match e with
  | SnapIo e => $"Snapshot IO error: " ++ show_io_error e
  | SnapRegistry e => $"Registry error during snapshot: " ++ show_RegistryError e
  | SnapSecurity e => $"Security privilege error: " ++ show_SecurityError e
  | SnapStorage e => $"Protected storage error: " ++ show_StorageError e
  | Collision name => $"snapshot file already exists: " ++ name
  | SaveCleanupFailed save_error cleanup_error =>
      $"snapshot save failed (" ++ save_error ++ $") and partial cleanup failed (" ++ cleanup_error ++ $")"
  | SnapCleanupFailed metadata_error cleanup_error =>
      $"Snapshot metadata failed (" ++ metadata_error ++ $") and hive cleanup failed (" ++ cleanup_error ++ $")"
  | PostSaveCleanupFailed operation_error cleanup_error =>
      $"post-save validation failed (" ++ operation_error ++ $") and hive cleanup failed ("
      ++ cleanup_error ++ $")"
  | PrivilegeRestoreCleanupFailed restore_error cleanup_errors =>
      $"privilege restoration failed (" ++ restore_error ++ $") and snapshot cleanup was incomplete: "
      ++ cleanup_errors
  | SnapOperationAndPrivilegeRestoreFailed operation_error restore_error =>
      $"snapshot operation failed (" ++ operation_error
      ++ $") and privilege restoration also failed (" ++ restore_error ++ $")"
  | InvalidInventory metadata_file reason =>
      $"snapshot inventory entry " ++ metadata_file ++ $" is inconsistent: " ++ reason
  | HashError operation status =>
      $"Windows CNG operation " ++ operation ++ $" failed with NTSTATUS " ++ hex_i32 status
  end.

Record ProtectedSnapshotArtifact : Type := { art_file : Z; art_path : path; art_identity : FileIdentity }.
Record SnapshotMetadata : Type := {
  snap_id : str;
  snap_timestamp : Z;
  snap_sid : str;
  snap_profile_path : str;
  registry_key_path : str;
  snapshot_file_name : str;
  sha256 : str;
  file_volume_serial : Z;
  snap_file_index : Z;
  snap_reason : str;
  protected_artifact : option ProtectedSnapshotArtifact;
}.
Record SnapshotEngine : Type := { se_storage : StorageRoot; se_directory : StorageDirectory }.

(** [serde_json] on the metadata: the pieces it writes, the prefixes it refuses
    while reading, and the value read from a whole file. *)
Class SnapshotCodec : Type := {
  metadata_pieces : SnapshotMetadata -> list (list Z);
  metadata_rejects : list Z -> option str;
  decode_metadata : list Z -> result str SnapshotMetadata;
}.

Section Snapshot.
Context `{Fuel} `{Extern} `{SnapshotCodec}.
Abbreviation SM := (M AppState SnapshotError).

Definition st {A} (m : M AppState StorageError A) : SM A := map_err SnapStorage m.
Definition snap_io {A} (r : result io_error A) : SM A := lift (result_map_err SnapIo r).

(** ** SHA-256 of an open file *)
Definition cng_ok (operation : str) (status : Z) : SM unit :=
  if (status <? 0)%Z then throw (HashError operation status) else ret tt.
Definition close_algorithm {E} (algorithm : Z) : M AppState E unit :=
  if Z.eqb algorithm 0 then ret tt else call (BCryptCloseAlgorithm algorithm).
Definition destroy_hash {E} (hash : Z) : M AppState E unit :=
  if Z.eqb hash 0 then ret tt else call (BCryptDestroyHash hash).

Fixpoint hash_loop (turns : nat) (file hash offset : Z) : SM unit :=
  match turns with
  | O => out_of_fuel
  | S turns' =>
      let* r := call (FileSeekRead file HASH_BUFFER_BYTES offset) in
      let* data := snap_io r in
      if is_empty data then ret tt
      else
        let* status := call (BCryptHashData hash data) in
        do* cng_ok ($"BCryptHashData") status in
        hash_loop turns' file hash (offset + Z.of_nat (length data))
  end.

Definition sha256_file (file : Z) : SM str :=
  let* '(status, algorithm) := call BCryptOpenSha256 in
  do* cng_ok ($"BCryptOpenAlgorithmProvider") status in
  defer (close_algorithm algorithm)
    (let* '(status, object_length, written) := call (BCryptGetObjectLength algorithm) in
     do* cng_ok ($"BCryptGetProperty") status in
     if negb (Z.eqb written 4) then throw (SnapIo (IoOther ($"CNG returned an invalid property length")))
     else
       let* '(status, hash) := call (BCryptCreateHash algorithm object_length) in
       do* cng_ok ($"BCryptCreateHash") status in
       defer (destroy_hash hash)
         (do* hash_loop fuel file hash 0 in
          let* '(status, output) := call (BCryptFinishHash hash) in
          do* cng_ok ($"BCryptFinishHash") status in
          ret (flat_map hex2 (written_over 32 output)))).

(** ** Cleanups *)
Definition drop_artifact {E} (a : option ProtectedSnapshotArtifact) : M AppState E unit :=
  match a with Some a => call (CloseHandle (art_file a)) | None => ret tt end.

Definition cleanup_after_failed_save (d : StorageDirectory) (filename : str) (save_error : RegistryError)
    : SM SnapshotError :=
  let* r := attempt (st_remove_file_if_exists d filename) in
  ret match r with
      | Ok _ => SnapRegistry save_error
      | Err cleanup_error =>
          SaveCleanupFailed (show_RegistryError save_error) (show_StorageError cleanup_error)
      end.
Definition cleanup_after_post_save_error (d : StorageDirectory) (filename : str)
    (operation_error : SnapshotError) : SM SnapshotError :=
  let* r := attempt (st_remove_file_if_exists d filename) in
  ret match r with
      | Ok _ => operation_error
      | Err cleanup_error =>
          PostSaveCleanupFailed (show_SnapshotError operation_error) (show_StorageError cleanup_error)
      end.

(** Both artifacts are attempted; the metadata, and with it the hive handle,
    is dropped last. *)
Definition cleanup_transaction_artifacts {E} (metadata : SnapshotMetadata)
    (metadata_file : option CreatedStorageFile) : M AppState E (list str) :=
  let* metadata_errors :=
    match metadata_file with
    | Some file =>
        let* r := attempt (rollback_created_file file) in
        ret match r with Err error => [$"metadata: " ++ show_StorageError error] | Ok _ => [] end
    | None => ret []
    end in
  let* hive_errors :=
    match protected_artifact metadata with
    | Some artifact =>
        let* r := attempt (delete_open_file (art_file artifact) (art_path artifact)) in
        ret match r with Err error => [$"hive: " ++ show_StorageError error] | Ok _ => [] end
    | None => ret [$"hive: protected artifact unavailable"]
    end in
  do* drop_artifact (protected_artifact metadata) in
  ret (metadata_errors ++ hive_errors).
Definition cleanup_after_metadata_error (metadata : SnapshotMetadata)
    (metadata_file : option CreatedStorageFile) (operation_error : SnapshotError) : SM SnapshotError :=
  let* cleanup_errors := cleanup_transaction_artifacts metadata metadata_file in
  ret (if is_empty cleanup_errors then operation_error
       else SnapCleanupFailed (show_SnapshotError operation_error) (join ($"; ") cleanup_errors)).

Definition finish_snapshot_operation
    (operation : result SnapshotError (SnapshotMetadata * CreatedStorageFile))
    (restore_result : result SecurityError unit) : SM SnapshotMetadata :=
  match operation, restore_result with
  | Ok (metadata, metadata_file), Ok _ =>
      let* file := commit metadata_file in
      do* call (CloseHandle file) in ret metadata
  | Err operation_error, Ok _ => throw operation_error
  | Err operation_error, Err restore_error =>
      throw (SnapOperationAndPrivilegeRestoreFailed (show_SnapshotError operation_error)
               (show_SecurityError restore_error))
  | Ok (metadata, metadata_file), Err restore_error =>
      let* cleanup_errors := cleanup_transaction_artifacts metadata (Some metadata_file) in
      if is_empty cleanup_errors then throw (SnapSecurity restore_error)
      else throw (PrivilegeRestoreCleanupFailed (show_SecurityError restore_error)
                    (join ($"; ") cleanup_errors))
  end.

(** ** Creating a snapshot *)
Definition next_sequence {E} : M AppState E Z :=
  let* s := get in
  do* put {| memory_buffer := memory_buffer s; buffer_poisoned := buffer_poisoned s;
             snapshot_sequence := (snapshot_sequence s + 1) mod (u64_max + 1) |} in
  ret (snapshot_sequence s).

Definition safe_sid (sid : str) : str := replace_char (one_of [BACKSLASH; COLON]) ($"_") sid.
Definition snapshot_name (timestamp pid sequence : Z) (sid : str) : str :=
  $"snap_" ++ format_compact timestamp ++ $"_" ++ dec pid ++ $"_" ++ dec sequence ++ $"_" ++ safe_sid sid
  ++ $".hiv".

Definition write_metadata (file : Z) (metadata : SnapshotMetadata) : SM unit :=
  do* for_each (fun piece =>
        let* r := call (FileWriteAll file piece) in
        match r with
        | Ok _ => ret tt
        | Err error => throw (SnapIo (IoOther (show_io_error error)))
        end) (metadata_pieces metadata) in
  let* r := call (FileFlush file) in
  do* snap_io r in
  let* r := call (FileSyncAll file) in
  snap_io r.

(** The saved hive is reopened without sharing writes, and identified and
    hashed by that handle. *)
Definition protect_artifact (d : StorageDirectory) (filename : str) (snapshot_path : path)
    : SM (ProtectedSnapshotArtifact * str) :=
  let* file := st (st_open_file d (encode_utf16 filename)
                     (FILE_GENERIC_READ .| FILE_READ_ATTRIBUTES .| DELETE) FILE_SHARE_READ) in
  on_error (call (CloseHandle file))
    (let* identity := st (file_identity file snapshot_path) in
     let* digest := sha256_file file in
     ret ({| art_file := file; art_path := snapshot_path; art_identity := identity |}, digest)).

Definition capture (e : SnapshotEngine) (subkey sid profile_path reason : str)
    : SM (SnapshotMetadata * CreatedStorageFile) :=
  let d := se_directory e in
  let* timestamp := call UtcNow in
  let* sequence := next_sequence in
  let* pid := call ProcessId in
  let filename := snapshot_name timestamp pid sequence sid in
  let* snapshot_path := st (lift (child_path (st_path d) (encode_utf16 filename))) in
  let* existing := attempt (st_open_file d (encode_utf16 filename) FILE_READ_ATTRIBUTES FILE_SHARE_READ) in
  do* match existing with
      | Ok file => do* call (CloseHandle file) in throw (Collision filename)
      | Err error => if is_not_found error then ret tt else throw (SnapStorage error)
      end in
  using_key (map_err SnapRegistry (open_key LocalMachine subkey KEY_READ))
    (fun hkey =>
       let* saved := attempt (save_key hkey snapshot_path) in
       match saved with
       | Err save_error =>
           let* error := cleanup_after_failed_save d filename save_error in throw error
       | Ok _ =>
           let* artifact_result := attempt (protect_artifact d filename snapshot_path) in
           match artifact_result with
           | Err error =>
               let* error := cleanup_after_post_save_error d filename error in throw error
           | Ok (artifact, digest) =>
               let* pid := call ProcessId in
               let metadata := {|
                 snap_id := dec_signed (timestamp_micros timestamp) ++ $"_" ++ dec pid ++ $"_" ++ dec sequence;
                 snap_timestamp := timestamp; snap_sid := sid; snap_profile_path := profile_path;
                 registry_key_path := $"HKLM\" ++ subkey; snapshot_file_name := filename;
                 sha256 := digest; file_volume_serial := volume_serial (art_identity artifact);
                 snap_file_index := file_index (art_identity artifact); snap_reason := reason;
                 protected_artifact := Some artifact |} in
               let* created := attempt (st_create_file d (encode_utf16 (filename ++ $".json")) FILE_SHARE_READ) in
               match created with
               | Err error =>
                   let* error := cleanup_after_metadata_error metadata None (SnapStorage error) in throw error
               | Ok created =>
                   let* written := attempt (write_metadata (cf_file created) metadata) in
                   match written with
                   | Err error =>
                       let* error := cleanup_after_metadata_error metadata (Some created) error in throw error
                   | Ok _ => ret (metadata, created)
                   end
               end
           end
       end).

Definition create_registry_snapshot (e : SnapshotEngine) (subkey sid profile_path reason : str)
    : SM SnapshotMetadata :=
  let* lock := st (acquire_lock (se_storage e)) in
  defer (close_handle lock)
    (let* privileges := map_err SnapSecurity (PrivilegeGuard_new [SE_BACKUP_NAME; SE_RESTORE_NAME]) in
     let* operation := attempt (capture e subkey sid profile_path reason) in
     let* restore_result := attempt (PrivilegeGuard_restore privileges) in
     finish_snapshot_operation operation restore_result).

(** ** Building an engine and listing *)
Definition SnapshotEngine_from_storage (root : StorageRoot) : SM SnapshotEngine :=
  let* d := st (root_open_or_create_directory root SNAPSHOT_DIR) in
  ret {| se_storage := root; se_directory := d |}.
Definition SnapshotEngine_new (custom_dir : option path) : SM SnapshotEngine :=
  match custom_dir with
  | Some p =>
      let* root := st (StorageRoot_trusted p) in
      on_error (drop_storage_directory (directory root))
        (let* d := st (root_directory root) in ret {| se_storage := root; se_directory := d |})
  | None =>
      let* root := st StorageRoot_production in
      on_error (drop_storage_directory (directory root)) (SnapshotEngine_from_storage root)
  end.

Definition read_metadata (file : Z) : SM SnapshotMetadata :=
  map_err (fun reason => SnapIo (IoOther reason))
    (defer (call (CloseHandle file)) (from_reader metadata_rejects decode_metadata fuel file [])).

Definition validate_inventory_entry (d : StorageDirectory) (metadata_file : str) (metadata : SnapshotMetadata)
    : SM unit :=
  let invalid {A} reason : SM A := throw (InvalidInventory metadata_file reason) in
  let or_invalid {A} (m : M AppState StorageError A) : SM A :=
    map_err (fun error => InvalidInventory metadata_file (show_StorageError error)) m in
  if negb (ends_with ($".hiv") (snapshot_file_name metadata))
  then invalid ($"snapshot file name must be a .hiv component")
  else if negb (str_eqb metadata_file (snapshot_file_name metadata ++ $".json"))
  then invalid ($"metadata name does not match associated hive " ++ snapshot_file_name metadata)
  else
    let* snapshot_path := or_invalid (lift (child_path (st_path d) (encode_utf16 (snapshot_file_name metadata)))) in
    let* hive := or_invalid (st_open_file d (encode_utf16 (snapshot_file_name metadata))
                               (FILE_GENERIC_READ .| FILE_READ_ATTRIBUTES) FILE_SHARE_READ) in
    defer (call (CloseHandle hive))
      (let* identity := or_invalid (file_identity hive snapshot_path) in
       let expected := {| volume_serial := file_volume_serial metadata; file_index := snap_file_index metadata |} in
       if negb (bool_decide (identity = expected))
       then invalid ($"associated hive identity does not match metadata")
       else
         let* digest := map_err (fun error => InvalidInventory metadata_file (show_SnapshotError error))
                          (sha256_file hive) in
         if negb (str_eqb digest (sha256 metadata))
         then invalid ($"associated hive SHA-256 does not match metadata")
         else ret tt).

Fixpoint list_names (d : StorageDirectory) (names : list wide) (results : list SnapshotMetadata)
    : SM (list SnapshotMetadata) :=
  match names with
  | [] => ret results
  | name :: names' =>
      match from_utf16 name with
      | Some text =>
          if negb (ends_with ($".json") text) then list_names d names' results
          else
            let* file := st (st_open_file d name FILE_GENERIC_READ FILE_SHARE_READ) in
            let* metadata := read_metadata file in
            do* validate_inventory_entry d text metadata in
            list_names d names' (results ++ [metadata])
      | None => list_names d names' results
      end
  end.

(** [sort_by_key(Reverse(timestamp))] is stable. *)
Fixpoint insert_newest (x : SnapshotMetadata) (l : list SnapshotMetadata) : list SnapshotMetadata :=
  match l with
  | [] => [x]
  | y :: l' => if (snap_timestamp y <=? snap_timestamp x)%Z then x :: l else y :: insert_newest x l'
  end.
Definition list_snapshots (e : SnapshotEngine) : SM (list SnapshotMetadata) :=
  let* lock := st (acquire_lock (se_storage e)) in
  defer (close_handle lock)
    (let* names := st (st_entries (se_directory e)) in
     let* results := list_names (se_directory e) names [] in
     ret (foldr insert_newest [] results)).
End Snapshot.

(** ** Restoring (rollback.rs) *)
Inductive RollbackError : Type :=
| ArtifactUnavailable
| TargetMismatch (expected actual : str)
| IdentityMismatch
| DigestMismatch
| RbRegistryError (code : Z)
| RbSecurityError (e : SecurityError)
| RbOperationAndPrivilegeRestoreFailed (operation_error restore_error : str)
| BaseRegError (e : RegistryError)
| RbSnapshotError (e : SnapshotError)
| Aggregate (details : str).

Definition show_RollbackError `{Extern} (e : RollbackError) : str :=
  match e with
  | ArtifactUnavailable =>
      $"snapshot has no protected transactional artifact; inventory JSON cannot be restored"
  | TargetMismatch expected actual =>
      $"snapshot target mismatch: transaction expected " ++ expected ++ $", metadata names " ++ actual
  | IdentityMismatch => $"snapshot handle identity no longer matches its captured identity"
  | DigestMismatch => $"snapshot SHA-256 no longer matches its captured digest"
  | RbRegistryError code => $"Registry restore failed with Win32 error code: " ++ dec code
  | RbSecurityError e => $"Security privilege error: " ++ show_SecurityError e
  | RbOperationAndPrivilegeRestoreFailed operation_error restore_error =>
      $"registry restore operation failed (" ++ operation_error
      ++ $") and privilege restoration also failed (" ++ restore_error ++ $")"
  | BaseRegError e => $"Base registry error: " ++ show_RegistryError e
  | RbSnapshotError e => $"Snapshot validation error: " ++ show_SnapshotError e
  | Aggregate details => $"one or more rollback steps failed: " ++ details
  end.

Section Rollback.
Context `{Fuel} `{Extern}.
Abbreviation RM := (M AppState RollbackError).

Definition finish_privileged_restore (operation : result RollbackError unit)
    (restore_result : result SecurityError unit) : result RollbackError unit :=
  match operation, restore_result with
  | Ok _, Ok _ => Ok tt
  | Err operation_error, Ok _ => Err operation_error
  | Ok _, Err restore_error => Err (RbSecurityError restore_error)
  | Err operation_error, Err restore_error =>
      Err (RbOperationAndPrivilegeRestoreFailed (show_RollbackError operation_error)
             (show_SecurityError restore_error))
  end.

Definition restore_registry_file (p : path) (expected_registry_key_path : str) : RM unit :=
  match strip_prefix ($"HKLM\") expected_registry_key_path ≫= rsplit_once BACKSLASH with
  | None => throw (BaseRegError InvalidPath)
  | Some (parent_path, leaf_name) =>
      let* privileges := map_err RbSecurityError (PrivilegeGuard_new [SE_RESTORE_NAME; SE_BACKUP_NAME]) in
      let* operation := attempt
        (using_key (map_err BaseRegError (open_key LocalMachine parent_path KEY_ALL_ACCESS))
           (fun parent =>
              using_key (map_err BaseRegError (create_key parent leaf_name KEY_ALL_ACCESS))
                (fun hkey =>
                   let* status := call (RegRestoreKeyW hkey (wide_null p) REG_FORCE_RESTORE) in
                   if negb (Z.eqb status ERROR_SUCCESS) then throw (RbRegistryError status) else ret tt))) in
      let* restore_result := attempt (PrivilegeGuard_restore privileges) in
      lift (finish_privileged_restore operation restore_result)
  end.

Definition restore_registry_snapshot (metadata : SnapshotMetadata) (expected : str) : RM unit :=
  if negb (eq_ignore_ascii_case (registry_key_path metadata) expected)
  then throw (TargetMismatch expected (registry_key_path metadata))
  else match protected_artifact metadata with
       | None => throw ArtifactUnavailable
       | Some artifact =>
           let* current := map_err (fun e => RbSnapshotError (SnapStorage e))
                             (file_identity (art_file artifact) (art_path artifact)) in
           if negb (bool_decide (current = art_identity artifact))
              || negb (Z.eqb (volume_serial current) (file_volume_serial metadata))
              || negb (Z.eqb (file_index current) (snap_file_index metadata))
           then throw IdentityMismatch
           else
             let* digest := map_err RbSnapshotError (sha256_file (art_file artifact)) in
             if negb (str_eqb digest (sha256 metadata)) then throw DigestMismatch
             else restore_registry_file (art_path artifact) expected
       end.
End Rollback.

(** ** Calls *)
Definition hashes (a : sys) : bool :=
  match a with
  | BCryptOpenSha256 | BCryptGetObjectLength _ | BCryptCreateHash _ _ | BCryptHashData _ _
  | BCryptFinishHash _ | BCryptDestroyHash _ | BCryptCloseAlgorithm _ | FileSeekRead _ _ _ => true
  | _ => false
  end.
Definition snapshot_call (a : sys) : bool :=
  storage_call a || reads_registry a || adjusts_token a || hashes a ||
  match a with
  | RegSaveKeyExW _ _ _ | FileWriteAll _ _ | FileFlush _ | FileSyncAll _ | UtcNow | ProcessId => true
  | _ => false
  end.

Section SnapshotCalls.
Context `{Fuel} `{Extern} `{SnapshotCodec} (P : sys -> Prop).

Lemma mtame_sha256_file file : (forall a, hashes a = true -> P a) -> mtame P True (sha256_file file).
Proof.
  intros HP. assert (forall n hash offset, mtame P True (hash_loop n file hash offset)).
  { induction n; intros; simpl; unfold cng_ok, snap_io; by solve_tame; apply HP. }
  unfold sha256_file, cng_ok, close_algorithm, destroy_hash. by solve_tame; apply HP.
Qed.

Context (HP : forall a, snapshot_call a = true -> P a).
Lemma snapshot_storage a : storage_call a = true -> P a.
Proof. intros Ha. apply HP. unfold snapshot_call. by rewrite Ha. Qed.
Lemma snapshot_reads a : reads_registry a = true -> P a.
Proof. intros Ha. apply HP. unfold snapshot_call. by rewrite Ha, orb_true_r. Qed.
Lemma snapshot_token a : adjusts_token a = true -> P a.
Proof. intros Ha. apply HP. unfold snapshot_call. by rewrite Ha, !orb_true_r. Qed.
Lemma snapshot_hashes a : hashes a = true -> P a.
Proof. intros Ha. apply HP. unfold snapshot_call. by rewrite Ha, !orb_true_r. Qed.
Hint Resolve snapshot_storage snapshot_reads snapshot_token snapshot_hashes : tame calls.
Hint Resolve mtame_acquire_lock mtame_st_open_file mtame_st_create_file mtame_st_remove_file_if_exists
  mtame_rollback_created_file mtame_delete_open_file mtame_commit mtame_file_identity mtame_sha256_file
  mtame_close_handle : tame.

Lemma mtame_cleanup_transaction_artifacts {E} metadata file :
  mtame P True (cleanup_transaction_artifacts (E:=E) metadata file).
Proof. unfold cleanup_transaction_artifacts, drop_artifact. by solve_tame; apply HP. Qed.
Hint Resolve mtame_cleanup_transaction_artifacts : tame.
Lemma mtame_protect_artifact d filename p : mtame P True (protect_artifact d filename p).
Proof. unfold protect_artifact, st. by solve_tame; apply HP. Qed.
Lemma mtame_write_metadata file metadata : mtame P True (write_metadata file metadata).
Proof. unfold write_metadata, snap_io. by solve_tame; apply HP. Qed.
Hint Resolve mtame_protect_artifact mtame_write_metadata : tame.
Lemma mtame_finish_snapshot_operation operation restored :
  mtame P True (finish_snapshot_operation operation restored).
Proof. unfold finish_snapshot_operation. by solve_tame; apply HP. Qed.
Lemma mtame_save_key {S} hkey p : mtame P True (save_key (S:=S) hkey p).
Proof. unfold save_key. by solve_tame; apply HP. Qed.
Hint Resolve mtame_finish_snapshot_operation mtame_save_key : tame.

Lemma mcalls_capture e subkey sid profile_path reason : mcalls P (capture e subkey sid profile_path reason).
Proof.
  unfold capture, st, next_sequence, cleanup_after_failed_save, cleanup_after_post_save_error,
    cleanup_after_metadata_error.
  repeat first
    [ match goal with |- forall _, _ => intros ? end
    | solve [apply tame_calls_of; solve_tame; apply HP; done]
    | apply mcalls_using_key; [apply snapshot_reads| |]
    | apply mcalls_map_err, mcalls_open_key, snapshot_reads
    | match goal with
      | |- mcalls _ (mbind _ _) => apply mcalls_bind
      | |- mcalls _ (match ?x with _ => _ end) => destruct x
      end
    | by apply mcalls_put ].
Qed.
Lemma mcalls_create_registry_snapshot e subkey sid profile_path reason :
  mcalls P (create_registry_snapshot e subkey sid profile_path reason).
Proof.
  unfold create_registry_snapshot, st.
  apply mcalls_bind; [apply tame_calls_of; by solve_tame|]. intros lock.
  apply mcalls_defer; [unfold close_handle; apply tame_calls_of; by solve_tame; apply HP|].
  apply mcalls_bind; [eapply mcalls_map_err, mtame_calls, mtame_PrivilegeGuard_new, snapshot_token|].
  intros privileges. apply mcalls_bind; [apply mcalls_attempt, mcalls_capture|]. intros operation.
  apply mcalls_bind; [eapply mcalls_attempt, mtame_calls, mtame_PrivilegeGuard_restore, snapshot_token|].
  intros restored. eapply mtame_calls, mtame_finish_snapshot_operation.
Qed.
End SnapshotCalls.
