(* ===== verification/SnapshotSpec.v ===== *)
(** * SnapshotSpec: what a snapshot certifies and what a restoration trusts

    One notary watches both: it keeps a ledger of the registry keys and files
    that are open, by handle, of the last identity queried and of the last hive
    saved; it follows the computation of a digest; and it takes down each
    synced file with the examination that came before. *)

From stdpp Require Import base list gmap strings.
From S2P Require Import Prelude Text Path Effects Models Win32 Registry Security SecureFs Storage Journal Snapshot.

(** ** The notary *)

(** The entry of a handle: the last one, since a closed handle may be used
    again. *)
Fixpoint entry_of {A} (h : Z) (l : list (Z * A)) : option A :=
  match l with
  | [] => None
  | (h', a) :: l' => if Z.eqb h' h then Some a else entry_of h l'
  end.
Definition forget {A} (h : Z) (l : list (Z * A)) : list (Z * A) := filter (fun e => e.1 <> h) l.

(** A registry key: its root and the path from it. *)
Definition location : Type := Z * list wide.
(** Where a key opened below another is; a predefined root names itself. *)
Definition below (keys : list (Z * location)) (parent : Z) (subkey : wide) : location :=
  match entry_of parent keys with Some (root, p) => (root, p ++ [subkey]) | None => (parent, [subkey]) end.
Definition opened_at (keys : list (Z * location)) (parent : Z) (subkey : wide) : location :=
  if predefined_root parent then (parent, [subkey]) else below keys parent subkey.

(** A file opened by name in a directory, and what was written through its
    handle. *)
Record OpenFile : Type := { of_directory : Z; of_name : wide; of_disposition : Z; of_contents : list Z }.

(** [ld_disturbed]: since the last save an object was marked for deletion,
    renamed or moved. *)
Record Ledger : Type := {
  ld_keys : list (Z * location);
  ld_files : list (Z * OpenFile);
  ld_identified : option (Z * handle_information);
  ld_saved : option (location * wide);
  ld_disturbed : bool;
  ld_restored : bool;
}.
Definition set_keys (v : list (Z * location)) (l : Ledger) : Ledger :=
  {| ld_keys := v; ld_files := ld_files l; ld_identified := ld_identified l; ld_saved := ld_saved l;
     ld_disturbed := ld_disturbed l; ld_restored := ld_restored l |}.
Definition set_files (v : list (Z * OpenFile)) (l : Ledger) : Ledger :=
  {| ld_keys := ld_keys l; ld_files := v; ld_identified := ld_identified l; ld_saved := ld_saved l;
     ld_disturbed := ld_disturbed l; ld_restored := ld_restored l |}.
Definition set_identified (h : Z) (i : handle_information) (l : Ledger) : Ledger :=
  {| ld_keys := ld_keys l; ld_files := ld_files l; ld_identified := Some (h, i); ld_saved := ld_saved l;
     ld_disturbed := ld_disturbed l; ld_restored := ld_restored l |}.
Definition set_saved (v : option (location * wide)) (l : Ledger) : Ledger :=
  {| ld_keys := ld_keys l; ld_files := ld_files l; ld_identified := ld_identified l; ld_saved := v;
     ld_disturbed := false; ld_restored := ld_restored l |}.
Definition disturb (l : Ledger) : Ledger :=
  {| ld_keys := ld_keys l; ld_files := ld_files l; ld_identified := ld_identified l; ld_saved := ld_saved l;
     ld_disturbed := true; ld_restored := ld_restored l |}.
Definition set_restored (v : bool) (l : Ledger) : Ledger :=
  {| ld_keys := ld_keys l; ld_files := ld_files l; ld_identified := ld_identified l; ld_saved := ld_saved l;
     ld_disturbed := ld_disturbed l; ld_restored := v |}.

Definition written_by (data : list Z) (f : OpenFile) : OpenFile :=
  {| of_directory := of_directory f; of_name := of_name f; of_disposition := of_disposition f;
     of_contents := of_contents f ++ data |}.
Definition see_ledger (a : sys) : sys_resp a -> Ledger -> Ledger :=
  match a return sys_resp a -> Ledger -> Ledger with
  | RegOpenKeyExW parent subkey _ => fun r l =>
      if Z.eqb r.1 ERROR_SUCCESS
      then set_keys ((r.2, opened_at (ld_keys l) parent subkey) :: ld_keys l) l else l
  | RegCreateKeyExW parent subkey _ _ => fun r l =>
      if Z.eqb r.1 ERROR_SUCCESS
      then set_keys ((r.2, below (ld_keys l) parent subkey) :: ld_keys l) l else l
  | RegCloseKey hkey => fun _ l => set_keys (forget hkey (ld_keys l)) l
  | RegSaveKeyExW hkey hive _ => fun r l =>
      if Z.eqb r ERROR_SUCCESS
      then set_saved (option_map (fun key => (key, hive)) (entry_of hkey (ld_keys l))) l else l
  | RegRestoreKeyW _ _ _ => fun r l => set_restored (ld_restored l || Z.eqb r ERROR_SUCCESS) l
  | NtCreateFile parent name _ _ disposition _ _ _ => fun r l =>
      if (nt_status r <? 0)%Z then l
      else set_files ((nt_handle r, {| of_directory := parent; of_name := name; of_disposition := disposition;
                                       of_contents := [] |}) :: ld_files l) l
  | CloseHandle handle => fun _ l => set_files (forget handle (ld_files l)) l
  | FileWriteAll handle data => fun r l =>
      match r, entry_of handle (ld_files l) with
      | Ok _, Some f => set_files ((handle, written_by data f) :: ld_files l) l
      | _, _ => set_files (forget handle (ld_files l)) l
      end
  | GetFileInformationByHandle handle => fun r l =>
      match r with Some i => set_identified handle i l | None => l end
  | SetFileDisposition _ | NtSetRenameInformation _ _ _ _ | MoveFileExW _ _ _ => fun _ l => disturb l
  | _ => fun _ l => l
  end.

(** The computation of a digest: the ledger when the hash was created, the
    reads since, with handle and offset, the bytes given to the hash, and the
    digest.  Only a hash of the SHA-256 provider counts. *)
Record Examination : Type := {
  ex_subject : Ledger;
  ex_provider : option Z;
  ex_hash : option Z;
  ex_chunks : list (Z * Z * list Z);
  ex_hashed : list Z;
  ex_digest : option (list Z);
}.
Definition is_current (current : option Z) (h : Z) : bool :=
  match current with Some h' => Z.eqb h' h | None => false end.
Definition see_exam (l : Ledger) (a : sys) : sys_resp a -> Examination -> Examination :=
  match a return sys_resp a -> Examination -> Examination with
  | BCryptOpenSha256 => fun r e =>
      {| ex_subject := ex_subject e; ex_provider := if (r.1 <? 0)%Z then None else Some r.2;
         ex_hash := ex_hash e; ex_chunks := ex_chunks e; ex_hashed := ex_hashed e; ex_digest := ex_digest e |}
  | BCryptCreateHash algorithm _ => fun r e =>
      {| ex_subject := l; ex_provider := ex_provider e;
         ex_hash := if negb (r.1 <? 0)%Z && is_current (ex_provider e) algorithm then Some r.2 else None;
         ex_chunks := []; ex_hashed := []; ex_digest := None |}
  | FileSeekRead handle _ offset => fun r e =>
      match r with
      | Ok data => {| ex_subject := ex_subject e; ex_provider := ex_provider e; ex_hash := ex_hash e;
                      ex_chunks := ex_chunks e ++ [(handle, offset, data)];
                      ex_hashed := ex_hashed e; ex_digest := ex_digest e |}
      | Err _ => e
      end
  | BCryptHashData hash data => fun r e =>
      if (r <? 0)%Z || negb (is_current (ex_hash e) hash) then e
      else {| ex_subject := ex_subject e; ex_provider := ex_provider e; ex_hash := ex_hash e;
              ex_chunks := ex_chunks e; ex_hashed := ex_hashed e ++ data; ex_digest := ex_digest e |}
  | BCryptFinishHash hash => fun r e =>
      if (r.1 <? 0)%Z || negb (is_current (ex_hash e) hash) then e
      else {| ex_subject := ex_subject e; ex_provider := ex_provider e; ex_hash := ex_hash e;
              ex_chunks := ex_chunks e; ex_hashed := ex_hashed e; ex_digest := Some r.2 |}
  | _ => fun _ e => e
  end.

(** A synced file, as it was opened and written, and the examination made
    before it was synced. *)
Record Deposit : Type := { dp_file : option OpenFile; dp_exam : Examination }.
Record Notes : Type := { in_ledger : Ledger; in_exam : Examination; in_deposits : list Deposit }.
Definition see_deposits (g : Notes) (a : sys) : sys_resp a -> list Deposit :=
  match a return sys_resp a -> list Deposit with
  | FileSyncAll handle => fun r =>
      match r with
      | Ok _ => {| dp_file := entry_of handle (ld_files (in_ledger g)); dp_exam := in_exam g |} :: in_deposits g
      | Err _ => in_deposits g
      end
  | _ => fun _ => in_deposits g
  end.
Definition take_notes (a : sys) (x : sys_resp a) (g : Notes) : Notes :=
  {| in_ledger := see_ledger a x (in_ledger g); in_exam := see_exam (in_ledger g) a x (in_exam g);
     in_deposits := see_deposits g a x |}.

Definition blank : Ledger :=
  {| ld_keys := []; ld_files := []; ld_identified := None; ld_saved := None; ld_disturbed := false;
     ld_restored := false |}.
Definition nothing_noted : Notes :=
  {| in_ledger := blank;
     in_exam := {| ex_subject := blank; ex_provider := None; ex_hash := None; ex_chunks := []; ex_hashed := [];
                   ex_digest := None |};
     in_deposits := [] |}.

(** ** The digest of a whole file

    The reads are of one file, from its start, each where the last one ended,
    up to its end; and what was hashed is what was read. *)
Fixpoint contiguous (file offset : Z) (chunks : list (Z * Z * list Z)) : Prop :=
  match chunks with
  | [] => True
  | (f, o, data) :: chunks' =>
      f = file /\ o = offset /\ contiguous file (offset + Z.of_nat (length data)) chunks'
  end.
Definition data_of (chunks : list (Z * Z * list Z)) : list Z := concat (map snd chunks).
Definition hashing (file : Z) (e : Examination) : Prop :=
  contiguous file 0 (ex_chunks e) /\ ex_hashed e = data_of (ex_chunks e).
(** [text] is the digest, in hexadecimal, of all of [file], computed from when
    the ledger was [l]. *)
Definition examined (file : Z) (text : str) (l : Ledger) (e : Examination) : Prop :=
  ex_subject e = l /\ hashing file e /\ (exists c, last (ex_chunks e) = Some c /\ c.2 = [])
  /\ exists output, ex_digest e = Some output /\ text = flat_map hex2 (written_over 32 output).

Definition identity_of (i : handle_information) : FileIdentity :=
  {| volume_serial := hi_volume_serial i;
     file_index := Z.lor (Z.shiftl (hi_index_high i) 32) (hi_index_low i) |}.

Lemma contiguous_snoc file offset cs data :
  contiguous file offset cs ->
  contiguous file offset (cs ++ [(file, offset + Z.of_nat (length (data_of cs)), data)])%Z.
Proof.
  revert offset. induction cs as [|[[f o] d] cs IH]; intros offset; simpl.
  - intros _. split_and!; [done|lia|done].
  - intros (-> & -> & Hc). split_and!; [done..|]. unfold data_of. simpl. rewrite length_app.
    specialize (IH _ Hc). unfold data_of in IH. rewrite Nat2Z.inj_add, Z.add_assoc. exact IH.
Qed.
Lemma data_of_snoc cs c : data_of (cs ++ [c]) = data_of cs ++ c.2.
Proof. unfold data_of. rewrite map_app, concat_app. simpl. by rewrite app_nil_r. Qed.
Lemma is_current_same h : is_current (Some h) h = true.
Proof. apply Z.eqb_refl. Qed.

Section Hashing.
Context `{Fuel} `{Extern} (ok : sys -> Notes -> Prop) (Hok : forall a g, hashes a = true -> ok a g).
Abbreviation watched := (@monitor sys_signature Notes ok take_notes).

Lemma wp_cng_ok op status (s : AppState) g Q :
  (forall e, Q (Err e) s g) -> ((status <? 0)%Z = false -> Q (Ok tt) s g) ->
  wpM watched (cng_ok op status) Q s g.
Proof. intros He Hn. unfold cng_ok. destruct (status <? 0)%Z; [apply wpM_throw, He|apply wpM_ret; auto]. Qed.

Lemma wp_hash_loop n file hash offset (s : AppState) g :
  hashing file (in_exam g) -> ex_hash (in_exam g) = Some hash ->
  offset = Z.of_nat (length (data_of (ex_chunks (in_exam g)))) ->
  wpM watched (hash_loop n file hash offset)
    (fun r _ g' => r = Ok tt ->
       hashing file (in_exam g') /\ (exists c, last (ex_chunks (in_exam g')) = Some c /\ c.2 = [])
       /\ ex_hash (in_exam g') = Some hash /\ ex_subject (in_exam g') = ex_subject (in_exam g)) s g.
Proof.
  revert s g offset. induction n as [|n IH]; intros s g offset Hh Hobj ->; [done|]. simpl.
  destruct Hh as [Hc Hd].
  apply wpM_bind. wp_call; [by apply Hok|]. intros [data|e] g1 ->; simpl; apply wpM_bind, wpM_lift; [|done].
  destruct data as [|b data]; simpl.
  - apply wpM_ret. intros _. simpl. split_and!; [|by rewrite last_snoc; eauto|done|done].
    split; simpl; [by apply (contiguous_snoc file 0)|]. by rewrite data_of_snoc, app_nil_r.
  - apply wpM_bind. wp_call; [by apply Hok|]. intros status g2 ->. simpl.
    apply wpM_bind, wp_cng_ok; [done|]. intros Hs.
    eapply wpM_mono; [apply IH|]; simpl; rewrite Hs, Hobj, is_current_same; simpl; try done.
    + split; simpl; [by apply (contiguous_snoc file 0)|]. by rewrite data_of_snoc, Hd.
    + rewrite data_of_snoc, length_app. simpl. lia.
Qed.

(** Releasing the hash and its provider leaves the digest. *)
Definition releases (a : sys) : Prop :=
  match a with BCryptDestroyHash _ | BCryptCloseAlgorithm _ => True | _ => False end.
Lemma wp_releases {S E A} (m : M S E A) g0 s g :
  mcalls releases m -> in_exam g = in_exam g0 -> wpM watched m (fun _ _ g' => in_exam g' = in_exam g0) s g.
Proof.
  intros Hm Hg. apply (@wpM_keeps sys_signature S Notes E A watched releases (fun g' => in_exam g' = in_exam g0));
    [..|done|done|done].
  - intros a g1 Ha _. apply Hok. by destruct a.
  - intros a g1 x g2 Ha He ->. by destruct a.
Qed.
Lemma mcalls_destroy_hash {E} hash : mcalls releases (destroy_hash (E:=E) hash).
Proof. unfold destroy_hash. by solve_calls. Qed.
Lemma mcalls_close_algorithm {E} algorithm : mcalls releases (close_algorithm (E:=E) algorithm).
Proof. unfold close_algorithm. by solve_calls. Qed.

Lemma wp_examined file (s : AppState) g :
  wpM watched (sha256_file file)
    (fun r _ g' => forall text, r = Ok text -> examined file text (in_ledger g) (in_exam g')) s g.
Proof.
  unfold sha256_file. apply wpM_bind. wp_call; [by apply Hok|]. intros [status algorithm] g1 ->. simpl.
  apply wpM_bind, wp_cng_ok; [done|]. intros Hopen. apply wpM_defer.
  eapply wpM_mono with (Q := fun r _ g' => forall text, r = Ok text -> examined file text (in_ledger g) (in_exam g')).
  2: { intros r s2 g2 Hq. eapply wpM_mono; [apply (wp_releases _ g2); [apply mcalls_close_algorithm|done]|].
       intros _ _ g3 ->. exact Hq. }
  apply wpM_bind. wp_call; [by apply Hok|]. intros [[status2 object_length] written] g2 ->. simpl.
  apply wpM_bind, wp_cng_ok; [done|]. intros _. destruct (Z.eqb written 4); [simpl|by apply wpM_throw].
  apply wpM_bind. wp_call; [by apply Hok|]. intros [status3 hash] g3 ->. simpl.
  apply wpM_bind, wp_cng_ok; [done|]. intros Hcreate. apply wpM_defer.
  eapply wpM_mono with (Q := fun r _ g' => forall text, r = Ok text -> examined file text (in_ledger g) (in_exam g')).
  2: { intros r s2 g2 Hq. eapply wpM_mono; [apply (wp_releases _ g2); [apply mcalls_destroy_hash|done]|].
       intros _ _ g4 ->. exact Hq. }
  apply wpM_bind. eapply wpM_mono; [apply wp_hash_loop; [done| |done]|].
  { simpl. by rewrite Hopen, Hcreate, is_current_same. }
  intros [[]|e] s4 g4 Hloop; [|done]. destruct (Hloop eq_refl) as (Hh & Hend & Hobj & Hsub).
  apply wpM_bind. wp_call; [by apply Hok|]. intros [status5 output] g5 ->. simpl.
  apply wpM_bind, wp_cng_ok; [done|]. intros Hfinish. apply wpM_ret. intros text [= <-]. simpl.
  rewrite Hfinish, Hobj, is_current_same. simpl. unfold examined. simpl. eauto 6.
Qed.

(** The computation leaves the ledger and the deposits. *)
Lemma mcalls_hashes file : mcalls (fun a => hashes a = true) (sha256_file file).
Proof. eapply mtame_calls, mtame_sha256_file. done. Qed.
Lemma wp_sha256 file (s : AppState) g :
  wpM watched (sha256_file file)
    (fun r _ g' => in_ledger g' = in_ledger g /\ in_deposits g' = in_deposits g
       /\ forall text, r = Ok text -> examined file text (in_ledger g) (in_exam g')) s g.
Proof.
  eapply wpM_mono.
  { eapply wpM_and; [|apply wp_examined].
    apply (@wpM_keeps sys_signature AppState Notes _ _ watched (fun a => hashes a = true)
             (fun g' => in_ledger g' = in_ledger g /\ in_deposits g' = in_deposits g)); [..|done|apply mcalls_hashes|done].
    - intros a g1 Ha _. by apply Hok.
    - intros a g1 x g2 Ha [Hl Hd] ->. by destruct a. }
  intros r s' g' [[Hl Hd] He]. done.
Qed.
End Hashing.

(** ** A restoration authenticates the hive first

    The hive a restoration may use: the transaction's own, still the file that
    was captured, with the digest that was captured, computed over all of it. *)
Definition authentic (metadata : SnapshotMetadata) (expected : str) (e : Examination) : Prop :=
  eq_ignore_ascii_case (registry_key_path metadata) expected = true /\
  exists artifact i,
    protected_artifact metadata = Some artifact /\
    ld_identified (ex_subject e) = Some (art_file artifact, i) /\
    identity_of i = art_identity artifact /\
    hi_volume_serial i = file_volume_serial metadata /\
    file_index (identity_of i) = snap_file_index metadata /\
    examined (art_file artifact) (sha256 metadata) (ex_subject e) e.

(** What a call that changes the registry may be: the creation of the expected
    key in its parent, through a handle that was opened on that parent; and the
    restoration of the captured hive, through a handle on the expected key. *)
Definition restores (metadata : SnapshotMetadata) (expected : str) (a : sys) (l : Ledger) : Prop :=
  exists artifact parent_path leaf,
    protected_artifact metadata = Some artifact /\
    expected = $"HKLM\" ++ parent_path ++ [BACKSLASH] ++ leaf /\
    ((exists parent, a = RegCreateKeyExW parent (to_wide_null leaf) REG_OPTION_NON_VOLATILE KEY_ALL_ACCESS
        /\ entry_of parent (ld_keys l) = Some (HKEY_LOCAL_MACHINE, [to_wide_null parent_path]))
     \/ (exists hkey, a = RegRestoreKeyW hkey (wide_null (art_path artifact)) REG_FORCE_RESTORE
        /\ entry_of hkey (ld_keys l)
           = Some (HKEY_LOCAL_MACHINE, [to_wide_null parent_path; to_wide_null leaf]))).
Definition gate_ok (metadata : SnapshotMetadata) (expected : str) (a : sys) (g : Notes) : Prop :=
  mutates_registry a = true ->
  authentic metadata expected (in_exam g) /\ restores metadata expected a (in_ledger g).
Definition gate (metadata : SnapshotMetadata) (expected : str) : protocol Notes :=
  @monitor sys_signature Notes (gate_ok metadata expected) take_notes.

Lemma rsplit_once_spec c s a b : rsplit_once c s = Some (a, b) -> s = a ++ [c] ++ b.
Proof.
  revert a b. induction s as [|x s IH]; intros a b; simpl; [done|].
  destruct (rsplit_once c s) as [[a' b']|] eqn:E.
  - intros [= <- <-]. simpl. f_equal. by apply IH.
  - destruct (Z.eqb_spec x c) as [->|]; [|done]. by intros [= <- <-].
Qed.
Lemma gate_hashes metadata expected a g : hashes a = true -> gate_ok metadata expected a g.
Proof. intros Ha Hm. by destruct a. Qed.

Section Restores.
Context `{Fuel} `{Extern} (metadata : SnapshotMetadata) (expected : str).
Abbreviation guarded := (gate metadata expected).

(** The calls on the token and the closing of keys add nothing to the notes but
    what they close. *)
Definition lets_go (a : sys) : Prop :=
  adjusts_token a = true \/ match a with RegCloseKey _ => True | _ => False end.
Lemma wp_lets_go {S E A} (m : M S E A) (I : Examination -> bool -> Prop) s g :
  mcalls lets_go m -> I (in_exam g) (ld_restored (in_ledger g)) ->
  wpM guarded m (fun _ _ g' => I (in_exam g') (ld_restored (in_ledger g'))) s g.
Proof.
  intros Hm Hi. apply (@wpM_keeps sys_signature S Notes E A guarded lets_go
                         (fun g' => I (in_exam g') (ld_restored (in_ledger g')))); [..|done|done|done].
  - intros a g1 Ha _ Hmut. by destruct a, Ha.
  - intros a g1 x g2 Ha Hg ->. by destruct a, Ha.
Qed.
Lemma mcalls_lets_go_close {S E} hkey : mcalls lets_go (close_key (S:=S) (E:=E) hkey).
Proof. unfold close_key. solve_calls. by right. Qed.
Lemma wp_drop_key {S E} hkey (Q : Prop) (s : S) g :
  (Q -> ld_restored (in_ledger g) = true) ->
  wpM guarded (close_key (E:=E) hkey) (fun _ _ g' => Q -> ld_restored (in_ledger g') = true) s g.
Proof.
  intros HQ. apply (wp_lets_go _ (fun _ b => Q -> b = true)); [apply mcalls_lets_go_close|done].
Qed.

(** Opening a key notes where its handle leads. *)
Lemma wp_notes_key parent subkey sam (s : AppState) g :
  wpM guarded (open_key_raw parent subkey sam)
    (fun r _ g' => in_exam g' = in_exam g /\ forall hkey, r = Ok hkey ->
       entry_of hkey (ld_keys (in_ledger g')) = Some (opened_at (ld_keys (in_ledger g)) parent (to_wide_null subkey))) s g.
Proof.
  apply wpM_bind. wp_call; [done|]. intros [status hkey] g' ->. apply wpM_lift. split; [done|].
  intros h Hh. unfold owned_key in Hh. simpl. destruct (Z.eqb status ERROR_SUCCESS); [|done].
  destruct (Z.eqb hkey 0); [done|]. injection Hh as <-. simpl. by rewrite Z.eqb_refl.
Qed.

Lemma wp_restore_opened artifact parent_path leaf (s : AppState) g :
  authentic metadata expected (in_exam g) -> protected_artifact metadata = Some artifact ->
  expected = $"HKLM\" ++ parent_path ++ [BACKSLASH] ++ leaf ->
  wpM guarded
    (using_key (map_err BaseRegError (open_key LocalMachine parent_path KEY_ALL_ACCESS))
       (fun parent =>
          using_key (map_err BaseRegError (create_key parent leaf KEY_ALL_ACCESS))
            (fun hkey =>
               let* status := call (RegRestoreKeyW hkey (wide_null (art_path artifact)) REG_FORCE_RESTORE) in
               if negb (Z.eqb status ERROR_SUCCESS) then throw (RbRegistryError status) else ret tt)))
    (fun r _ g' => r = Ok tt -> ld_restored (in_ledger g') = true) s g.
Proof.
  intros Hauth Hart Hx. apply wpM_bind, wpM_map_err. eapply wpM_mono; [apply wp_notes_key|].
  intros [parent|e] s1 g1 [He Hp]; simpl; [|done]. specialize (Hp parent eq_refl).
  change (opened_at _ _ _) with (HKEY_LOCAL_MACHINE, [to_wide_null parent_path]) in Hp. rewrite <- He in Hauth.
  apply wpM_defer. eapply wpM_mono; [|intros r s3 g3 Hr; apply wp_drop_key; exact Hr].
  apply wpM_bind, wpM_map_err, wpM_bind. wp_call.
  { intros _. split; [done|]. exists artifact, parent_path, leaf. split_and!; [done..|]. left. by exists parent. }
  intros [status hkey] g2 ->. apply wpM_lift. unfold owned_key.
  destruct (Z.eqb_spec status ERROR_SUCCESS) as [->|]; [|done]. destruct (Z.eqb hkey 0); [done|]. simpl.
  apply wpM_defer, wpM_bind. wp_call.
  { intros _. split; [done|]. exists artifact, parent_path, leaf. split_and!; [done..|]. right. exists hkey.
    split; [done|]. simpl. rewrite Z.eqb_refl. unfold below. by rewrite Hp. }
  intros status g3 ->. destruct (Z.eqb_spec status ERROR_SUCCESS) as [->|]; simpl.
  - apply wpM_ret, wp_drop_key. intros _. simpl. apply orb_true_r.
  - by apply wpM_throw, wp_drop_key.
Qed.
Lemma wp_restore_registry_file artifact (s : AppState) g :
  authentic metadata expected (in_exam g) -> protected_artifact metadata = Some artifact ->
  wpM guarded (restore_registry_file (art_path artifact) expected)
    (fun r _ g' => r = Ok tt -> ld_restored (in_ledger g') = true) s g.
Proof.
  intros Hauth Hart. unfold restore_registry_file.
  destruct (strip_prefix ($"HKLM\") expected ≫= rsplit_once BACKSLASH) as [[parent_path leaf]|] eqn:Hx;
    [|by apply wpM_throw].
  apply bind_Some in Hx as (rest & Hp & Hr). apply strip_prefix_spec in Hp.
  apply rsplit_once_spec in Hr. subst rest.
  apply wpM_bind, wpM_map_err. eapply wpM_mono.
  { apply (wp_lets_go _ (fun e _ => e = in_exam g)); [|done].
    eapply mtame_calls, mtame_PrivilegeGuard_new. intros a Ha. by left. }
  intros [privileges|e] s1 g1 He; [|done]. rewrite <- He in Hauth. simpl.
  apply wpM_bind, wpM_attempt. eapply wpM_mono; [by apply wp_restore_opened|].
  intros operation s2 g2 Hop. apply wpM_bind, wpM_attempt. eapply wpM_mono.
  { apply (wp_lets_go _ (fun _ b => operation = Ok tt -> b = true)); [|exact Hop].
    eapply mtame_calls, mtame_PrivilegeGuard_restore. intros a Ha. by left. }
  intros result s3 g3 Hr. apply wpM_lift. destruct operation as [[]|], result as [[]|]; simpl; naive_solver.
Qed.
End Restores.

(** C4: rollback restores nothing it has not authenticated, and nowhere else.
    Whatever the answers of the system, the calls of [restore_registry_snapshot]
    that change the registry are the creation of the expected key, in its
    parent, through a handle opened on that parent under HKLM, and the
    restoration of the captured hive, through the handle of that key.  It makes
    them only when the metadata's target is the transaction's, the open handle
    of the transaction still had the captured identity, and the SHA-256 of the
    whole file behind that handle, read from its start to its end after that,
    is the captured digest.  It succeeds only when the restoration did. *)
Theorem restore_registry_snapshot_authenticates `{Fuel} `{Extern} (metadata : SnapshotMetadata)
    (expected : str) (s : AppState) :
  wpM (gate metadata expected) (restore_registry_snapshot metadata expected)
    (fun r _ g' => r = Ok tt -> ld_restored (in_ledger g') = true) s nothing_noted.
Proof.
  unfold restore_registry_snapshot.
  destruct (eq_ignore_ascii_case _ expected) eqn:Htarget; simpl; [|by apply wpM_throw].
  destruct (protected_artifact metadata) as [artifact|] eqn:Hart; [|by apply wpM_throw].
  apply wpM_bind, wpM_map_err. unfold file_identity. apply wpM_bind. wp_call; [done|].
  intros [i|] g1 ->; simpl.
  2: { apply wpM_bind. apply wpM_bind. wp_call; [done|]. by intros code g2 ->. }
  apply wpM_ret. simpl. fold (identity_of i).
  case_bool_decide as Hid; simpl; [|by apply wpM_throw].
  destruct (Z.eqb_spec (hi_volume_serial i) (file_volume_serial metadata)) as [Hv|]; simpl; [|by apply wpM_throw].
  case_match eqn:Hx; [by apply wpM_throw|]. apply negb_false_iff, Z.eqb_eq in Hx.
  apply wpM_bind, wpM_map_err. eapply wpM_mono; [apply wp_sha256, gate_hashes|].
  intros [text|e] s2 g2 (Hl & _ & He); simpl; [|done]. specialize (He text eq_refl).
  destruct (str_eqb text (sha256 metadata)) eqn:Hs; simpl; [|by apply wpM_throw].
  apply str_eqb_spec in Hs. subst text. apply wp_restore_registry_file; [|done].
  split; [done|]. exists artifact, i. pose proof He as [Hsub _]. rewrite Hsub. by split_and!.
Qed.

(** ** A snapshot certifies what it captured *)
Definition notary : protocol Notes := @monitor sys_signature Notes (fun _ _ => True) take_notes.

(** [gives m Q]: when [m] succeeds, its result and the notes satisfy [Q]. *)
Definition gives {S E A} (m : M S E A) (Q : A -> Notes -> Prop) (s : S) (g : Notes) : Prop :=
  wpM notary m (fun r _ g' => forall a, r = Ok a -> Q a g') s g.

Section Gives.
Context {S : Type}.
Lemma gives_mono {E A} (m : M S E A) (Q Q' : A -> Notes -> Prop) s g :
  gives m Q s g -> (forall a g, Q a g -> Q' a g) -> gives m Q' s g.
Proof. intros Hm HQ. eapply wpM_mono; [exact Hm|]. intros r s' g' Hr a Ha. by apply HQ, Hr. Qed.
Lemma gives_ret {E A} (a : A) (Q : A -> Notes -> Prop) s g : Q a g -> gives (S:=S) (E:=E) (ret a) Q s g.
Proof. intros HQ. apply wpM_ret. by intros b [= <-]. Qed.
Lemma gives_throw {E A} (e : E) (Q : A -> Notes -> Prop) s g : gives (S:=S) (throw e) Q s g.
Proof. by apply wpM_throw. Qed.
Lemma gives_lift {E A} (r : result E A) (Q : A -> Notes -> Prop) s g :
  (forall a, r = Ok a -> Q a g) -> gives (S:=S) (lift r) Q s g.
Proof. intros HQ. by apply wpM_lift. Qed.
Lemma gives_bind {E A B} (m : M S E A) (f : A -> M S E B) (R : A -> Notes -> Prop) (Q : B -> Notes -> Prop) s g :
  gives m R s g -> (forall a s g, R a g -> gives (f a) Q s g) -> gives (mbind m f) Q s g.
Proof.
  intros Hm Hf. apply wpM_bind. eapply wpM_mono; [exact Hm|]. intros [a|e] s' g' Hr; [|done].
  by apply Hf, Hr.
Qed.
Lemma gives_call {E} a (Q : sys_resp a -> Notes -> Prop) s g :
  (forall x, Q x (take_notes a x g)) -> gives (S:=S) (E:=E) (call a) Q s g.
Proof. intros HQ. unfold gives. wp_call; [done|]. intros x g' -> y [= <-]. apply HQ. Qed.
Lemma gives_map_err {E E' A} (f : E -> E') (m : M S E A) (Q : A -> Notes -> Prop) s g :
  gives m Q s g -> gives (map_err f m) Q s g.
Proof. intros Hm. apply wpM_map_err. eapply wpM_mono; [exact Hm|]. intros [a|e] s' g' Hr b Hb; simplify_eq/=. by apply Hr. Qed.
Lemma gives_attempt {E E' A} (m : M S E A) (Q : A -> Notes -> Prop) s g :
  gives m Q s g -> gives (S:=S) (E:=E') (attempt m) (fun r g' => forall a, r = Ok a -> Q a g') s g.
Proof. intros Hm. apply wpM_attempt. eapply wpM_mono; [exact Hm|]. intros r s' g' Hr a [= <-]. exact Hr. Qed.
Lemma gives_on_error {E A} cleanup (m : M S E A) (Q : A -> Notes -> Prop) s g :
  gives m Q s g -> gives (on_error cleanup m) Q s g.
Proof.
  intros Hm. apply wpM_on_error. eapply wpM_mono; [exact Hm|]. intros [a|e] s' g' Hr; [exact Hr|].
  eapply wpM_mono; [|by intros r s'' g'' _].
  by apply (@wpM_keeps sys_signature S Notes _ _ notary any_call (fun _ => True)); [..|apply mcalls_any|].
Qed.
(** Whatever [m] does, when what follows does not depend on it. *)
Lemma gives_then {E A B} (m : M S E A) (f : A -> M S E B) (Q : B -> Notes -> Prop) s g :
  (forall a s g, gives (S:=S) (f a) Q s g) -> gives (mbind m f) Q s g.
Proof.
  intros Hf. eapply gives_bind; [|intros a s' g' _; apply Hf].
  eapply wpM_mono; [|by intros r s' g' _ a _; exact I].
  by apply (@wpM_keeps sys_signature S Notes _ _ notary any_call (fun _ => True)); [..|apply mcalls_any|].
Qed.
Lemma gives_failing {E A B} (m : M S E B) (f : B -> E) (Q : A -> Notes -> Prop) s g :
  gives (let* x := m in throw (f x)) Q s g.
Proof. apply gives_then. intros e s' g'. apply gives_throw. Qed.
(** A property that the calls of [m] keep. *)
Lemma gives_kept {E A} (C : sys -> Prop) (I : Notes -> Prop) (m : M S E A) s g :
  (forall a x g, C a -> I g -> I (take_notes a x g)) -> mcalls C m -> I g ->
  wpM notary m (fun _ _ g' => I g') s g.
Proof.
  intros HI Hm Hg. apply (@wpM_keeps sys_signature S Notes _ _ notary C I); [done| |done|done|done].
  intros a g1 x g2 Ha Hi ->. by apply HI.
Qed.
Lemma gives_defer {E A} (C : sys -> Prop) cleanup (m : M S E A) (Q : A -> Notes -> Prop) s g :
  (forall a x g r, C a -> Q r g -> Q r (take_notes a x g)) -> mcalls C cleanup ->
  gives m Q s g -> gives (defer cleanup m) Q s g.
Proof.
  intros HC Hc Hm. apply wpM_defer. eapply wpM_mono; [exact Hm|]. intros r s' g' Hr.
  apply (gives_kept C (fun g => forall a, r = Ok a -> Q a g)); [|done|exact Hr].
  intros a x g1 Ha Hq b Hb. by apply HC, Hq.
Qed.
End Gives.

Section Certifies.
Context `{Fuel} `{Extern} `{SnapshotCodec}.

(** What [metadata] and the notes must say for the snapshot of [subkey] in the
    directory [d]: the metadata describes what was asked for; a file with
    exactly its JSON was created beside the hive and synced; and the
    examination made before shows that the key was saved to the hive, that the
    hive was then opened by its name in [d], identified by that handle, and
    hashed whole, with the recorded identity and digest; and since the key was
    saved, nothing has been marked for deletion, renamed or moved. *)
Definition examined_hive (d : StorageDirectory) (subkey : str) (metadata : SnapshotMetadata) (e : Examination)
    : Prop :=
  exists artifact i,
    protected_artifact metadata = Some artifact
    /\ child_path (st_path d) (encode_utf16 (snapshot_file_name metadata)) = Ok (art_path artifact)
    /\ ld_saved (ex_subject e)
       = Some ((HKEY_LOCAL_MACHINE, [to_wide_null subkey]), wide_null (art_path artifact))
    /\ entry_of (art_file artifact) (ld_files (ex_subject e))
       = Some {| of_directory := st_handle d; of_name := encode_utf16 (snapshot_file_name metadata);
                 of_disposition := FILE_OPEN; of_contents := [] |}
    /\ ld_identified (ex_subject e) = Some (art_file artifact, i)
    /\ identity_of i = art_identity artifact
    /\ volume_serial (art_identity artifact) = file_volume_serial metadata
    /\ file_index (art_identity artifact) = snap_file_index metadata
    /\ examined (art_file artifact) (sha256 metadata) (ex_subject e) e.
Definition describes_request (subkey sid profile_path reason : str) (metadata : SnapshotMetadata) : Prop :=
  registry_key_path metadata = $"HKLM\" ++ subkey /\ snap_sid metadata = sid
  /\ snap_profile_path metadata = profile_path /\ snap_reason metadata = reason.
(** The synced metadata file, and the examination before it. *)
Definition evidences (d : StorageDirectory) (subkey : str) (metadata : SnapshotMetadata) (deposit : Deposit)
    : Prop :=
  dp_file deposit
  = Some {| of_directory := st_handle d; of_name := encode_utf16 (snapshot_file_name metadata ++ $".json");
            of_disposition := FILE_CREATE; of_contents := concat (metadata_pieces metadata) |}
  /\ examined_hive d subkey metadata (dp_exam deposit).
Definition certified (d : StorageDirectory) (subkey sid profile_path reason : str) (metadata : SnapshotMetadata)
    (g : Notes) : Prop :=
  describes_request subkey sid profile_path reason metadata
  /\ exists deposit, deposit ∈ in_deposits g /\ evidences d subkey metadata deposit
       /\ ld_saved (in_ledger g) = ld_saved (ex_subject (dp_exam deposit))
       /\ ld_disturbed (in_ledger g) = false.

(** *** Opening and writing *)
(** What inspecting a file by its handle leaves. *)
Definition steady (g g' : Notes) : Prop :=
  in_exam g' = in_exam g /\ in_deposits g' = in_deposits g
  /\ ld_saved (in_ledger g') = ld_saved (in_ledger g)
  /\ ld_disturbed (in_ledger g') = ld_disturbed (in_ledger g).
#[local] Instance steady_preorder : PreOrder steady.
Proof.
  split; [by intros g|]. intros g1 g2 g3 (? & ? & ? & ?) (? & ? & ? & ?). split_and!; congruence.
Qed.
Definition opened_as (file : Z) (f : OpenFile) (g : Notes) : Prop :=
  entry_of file (ld_files (in_ledger g)) = Some f.

Lemma gives_nt_open parent name p access share disposition options (s : AppState) g :
  gives (st_nt_open_relative parent name p access share disposition options)
    (fun h g' => steady g g' /\ opened_as h {| of_directory := parent; of_name := name;
                                              of_disposition := disposition; of_contents := [] |} g') s g.
Proof.
  unfold st_nt_open_relative, nt_open_with_descriptor.
  eapply gives_bind with (R := fun _ g' => g' = g); [by apply gives_lift|]. intros _ s1 g1 ->.
  destruct (_ <? _)%Z; [apply gives_throw|].
  eapply gives_bind with (R := fun r g' => g' = take_notes (NtCreateFile parent name access share disposition options 0 0) r g);
    [by apply gives_call|].
  intros r s2 g2 ->. destruct (nt_status r <? 0)%Z eqn:Hr; [apply gives_throw|]. unfold StorageHandle_new.
  destruct (OwnedHandle_from_raw (nt_handle r)) as [h|] eqn:Hh.
  - apply from_raw_Some in Hh as <-. apply gives_ret. unfold steady, opened_as. simpl. rewrite Hr. simpl.
    by rewrite Z.eqb_refl.
  - eapply gives_failing.
Qed.

Lemma gives_validate_kind handle p expected file f (s : AppState) g :
  opened_as file f g ->
  gives (validate_kind handle p expected) (fun _ g' => steady g g' /\ opened_as file f g') s g.
Proof.
  intros Hf. eapply gives_bind with (R := fun r g' => g' = take_notes (GetFileInformationByHandle handle) r g);
    [by apply gives_call|].
  intros [i|] s1 g1 ->; [|eapply gives_failing].
  destruct (has_flag _ _); [apply gives_throw|]. destruct (negb _); [apply gives_throw|]. by apply gives_ret.
Qed.

Lemma gives_open_file d name access share (s : AppState) g :
  gives (st_open_file d name access share)
    (fun h g' => steady g g' /\ opened_as h {| of_directory := st_handle d; of_name := name;
                                              of_disposition := FILE_OPEN; of_contents := [] |} g') s g.
Proof.
  unfold st_open_file, with_handle.
  eapply gives_bind with (R := fun _ g' => g' = g); [by apply gives_lift|]. intros p s1 g1 ->.
  eapply gives_bind; [apply gives_nt_open|]. intros h s2 g2 [Hst Hf]. apply gives_on_error.
  eapply gives_bind; [by apply gives_validate_kind|]. intros _ s3 g3 [Hst' Hf']. apply gives_ret.
  split; [by transitivity g2|done].
Qed.
Lemma gives_duplicate handle operation p file f (s : AppState) g :
  opened_as file f g ->
  gives (duplicate handle operation p) (fun _ g' => steady g g' /\ opened_as file f g') s g.
Proof.
  intros Hf. eapply gives_bind with (R := fun r g' => g' = take_notes (DuplicateHandle handle) r g);
    [by apply gives_call|].
  intros [[] copy] s1 g1 ->; [|eapply gives_failing]. simpl. unfold StorageHandle_new.
  destruct (OwnedHandle_from_raw copy); [by apply gives_ret|eapply gives_failing].
Qed.
Lemma gives_create_file d name share (s : AppState) g :
  gives (st_create_file d name share)
    (fun c g' => steady g g' /\ opened_as (cf_file c) {| of_directory := st_handle d; of_name := name;
                                                        of_disposition := FILE_CREATE; of_contents := [] |} g') s g.
Proof.
  unfold st_create_file, with_handle.
  eapply gives_bind with (R := fun _ g' => g' = g); [by apply gives_lift|]. intros p s1 g1 ->.
  eapply gives_bind; [apply gives_nt_open|]. intros h s2 g2 [Hst Hf]. apply gives_on_error.
  eapply gives_bind; [by apply gives_attempt, gives_validate_kind|]. intros [[]|e] s3 g3 H3; [|eapply gives_failing].
  destruct (H3 tt eq_refl) as [Hst3 Hf3].
  eapply gives_bind; [by apply gives_attempt, gives_duplicate|]. intros [copy|e] s4 g4 H4.
  - destruct (H4 copy eq_refl) as [Hst4 Hf4]. apply gives_ret. split; [|done].
    by transitivity g2; [|transitivity g3].
  - apply gives_then. intros r s5 g5. destruct r; apply gives_throw.
Qed.

Lemma gives_file_identity file p f (s : AppState) g :
  opened_as file f g ->
  gives (file_identity file p)
    (fun identity g' => steady g g' /\ opened_as file f g'
       /\ exists i, ld_identified (in_ledger g') = Some (file, i) /\ identity_of i = identity) s g.
Proof.
  intros Hf. eapply gives_bind with (R := fun r g' => g' = take_notes (GetFileInformationByHandle file) r g);
    [by apply gives_call|].
  intros [i|] s1 g1 ->; [|eapply gives_failing]. apply gives_ret. split_and!; [done..|]. simpl. eauto.
Qed.

(** The pieces are appended to the file one after the other. *)
Definition with_contents (data : list Z) (f : OpenFile) : OpenFile :=
  {| of_directory := of_directory f; of_name := of_name f; of_disposition := of_disposition f;
     of_contents := data |}.
Lemma gives_pieces file f pieces (s : AppState) g :
  opened_as file f g ->
  gives (for_each (fun piece =>
           let* r := call (FileWriteAll file piece) in
           match r with Ok _ => ret tt | Err error => throw (SnapIo (IoOther (show_io_error error))) end) pieces)
    (fun _ g' => steady g g' /\ opened_as file (with_contents (of_contents f ++ concat pieces) f) g') s g.
Proof.
  revert f s g. induction pieces as [|piece pieces IH]; intros f s g Hf; simpl.
  - apply gives_ret. split; [done|]. rewrite app_nil_r. by destruct f.
  - eapply gives_bind with (R := fun _ g' => steady g g' /\ opened_as file (written_by piece f) g').
    + eapply gives_bind with (R := fun r g' => g' = take_notes (FileWriteAll file piece) r g);
        [by apply gives_call|].
      intros [[]|e] s1 g1 ->; [|apply gives_throw]. apply gives_ret.
      unfold steady, opened_as in *. simpl. rewrite Hf. simpl. by rewrite Z.eqb_refl.
    + intros _ s1 g1 [Hst Hf1]. eapply gives_mono; [by apply IH|]. intros _ g2 [Hst2 Hf2].
      split; [by transitivity g1|]. simpl in Hf2. by rewrite <- app_assoc in Hf2.
Qed.
Lemma gives_write_metadata file f metadata (s : AppState) g :
  opened_as file f g -> of_contents f = [] ->
  gives (write_metadata file metadata)
    (fun _ g' => steady g (Build_Notes (in_ledger g') (in_exam g') (in_deposits g))
       /\ {| dp_file := Some (with_contents (concat (metadata_pieces metadata)) f); dp_exam := in_exam g |}
          ∈ in_deposits g') s g.
Proof.
  intros Hf Hempty. eapply gives_bind; [by apply gives_pieces|]. intros _ s1 g1 [(He & Hd & Hs & Hdist) Hf1].
  rewrite Hempty in Hf1. simpl in Hf1.
  eapply gives_bind with (R := fun r g' => g' = take_notes (FileFlush file) r g1); [by apply gives_call|].
  intros flushed s2 g2 ->. eapply gives_bind with (R := fun _ g' => g' = take_notes (FileFlush file) flushed g1).
  { by apply gives_lift. }
  intros _ s3 g3 ->.
  eapply gives_bind with (R := fun r g' => g' = take_notes (FileSyncAll file) r (take_notes (FileFlush file) flushed g1));
    [by apply gives_call|].
  intros [[]|e] s4 g4 ->; [|by apply gives_lift]. apply gives_lift. intros [] _. unfold opened_as in Hf1. simpl.
  split; [by split_and!|]. rewrite <- He, Hf1. left.
Qed.

(** *** The capture *)
Lemma gives_protect d subkey filename p (s : AppState) g :
  child_path (st_path d) (encode_utf16 filename) = Ok p ->
  ld_saved (in_ledger g) = Some ((HKEY_LOCAL_MACHINE, [to_wide_null subkey]), wide_null p) ->
  gives (protect_artifact d filename p)
    (fun '(artifact, text) g' =>
       steady g (Build_Notes (in_ledger g') (in_exam g) (in_deposits g'))
       /\ forall metadata, snapshot_file_name metadata = filename -> sha256 metadata = text ->
            protected_artifact metadata = Some artifact ->
            file_volume_serial metadata = volume_serial (art_identity artifact) ->
            snap_file_index metadata = file_index (art_identity artifact) ->
            ld_saved (ex_subject (in_exam g')) = ld_saved (in_ledger g')
            /\ examined_hive d subkey metadata (in_exam g')) s g.
Proof.
  intros Hp Hsaved. unfold protect_artifact, st.
  eapply gives_bind; [apply gives_map_err, gives_open_file|]. intros file s1 g1 [(He1 & Hd1 & Hs1 & Hx1) Hf1].
  apply gives_on_error.
  eapply gives_bind; [by apply gives_map_err, gives_file_identity|].
  intros identity s2 g2 ((He2 & Hd2 & Hs2 & Hx2) & Hf2 & i & Hi & <-).
  eapply gives_bind with (R := fun text g' => in_ledger g' = in_ledger g2 /\ in_deposits g' = in_deposits g2
                                 /\ examined file text (in_ledger g2) (in_exam g')).
  { eapply wpM_mono; [by apply wp_sha256|]. intros r s' g' (Hl & Hd & He) text Ht. split_and!; [done..|by apply He]. }
  intros text s3 g3 (Hl & Hd & He). apply gives_ret. split.
  { split_and!; simpl; [done|by rewrite Hd, Hd2|by rewrite Hl, Hs2|by rewrite Hl, Hx2]. }
  intros metadata Hname Hsha Hart Hvol Hidx. pose proof He as [Hsub _]. rewrite Hsub, Hl. split; [done|].
  exists {| art_file := file; art_path := p; art_identity := identity_of i |}, i. rewrite Hname, Hsha, Hsub. simpl.
  split_and!; [done|done| |done|done|done|by rewrite Hvol|by rewrite Hidx|done].
  by rewrite Hs2, Hs1, Hsaved.
Qed.
(** The calls after the capture leave what it certified. *)
Definition conclusive (a : sys) : Prop :=
  adjusts_token a = true \/ match a with RegCloseKey _ => True | _ => False end.
Lemma certified_kept d subkey sid profile_path reason metadata a x g :
  conclusive a -> certified d subkey sid profile_path reason metadata g ->
  certified d subkey sid profile_path reason metadata (take_notes a x g).
Proof.
  intros Ha (Hr & deposit & Hin & He & Hs & Hx). split; [done|]. exists deposit.
  destruct a; by destruct Ha.
Qed.

Lemma gives_open_key subkey sam (s : AppState) g :
  gives (open_key LocalMachine subkey sam)
    (fun hkey g' => entry_of hkey (ld_keys (in_ledger g')) = Some (HKEY_LOCAL_MACHINE, [to_wide_null subkey])) s g.
Proof.
  eapply gives_bind with (R := fun r g' =>
    g' = take_notes (RegOpenKeyExW HKEY_LOCAL_MACHINE (to_wide_null subkey) sam) r g); [by apply gives_call|].
  intros [status hkey] s1 g1 ->. apply gives_lift. intros h Hh. unfold owned_key in Hh. simpl.
  destruct (Z.eqb status ERROR_SUCCESS); [|done]. destruct (Z.eqb hkey 0); [done|]. injection Hh as <-.
  simpl. by rewrite Z.eqb_refl.
Qed.
Lemma gives_save_key hkey p key (s : AppState) g :
  entry_of hkey (ld_keys (in_ledger g)) = Some key ->
  gives (save_key hkey p)
    (fun _ g' => ld_saved (in_ledger g') = Some (key, wide_null p) /\ ld_disturbed (in_ledger g') = false) s g.
Proof.
  intros Hk. eapply gives_bind with (R := fun r g' =>
    g' = take_notes (RegSaveKeyExW hkey (wide_null p) REG_LATEST_FORMAT) r g); [by apply gives_call|].
  intros status s1 g1 ->. apply gives_lift. intros [] Hr. unfold status_result in Hr. simpl.
  destruct (Z.eqb status ERROR_SUCCESS); [|done]. by rewrite Hk.
Qed.

Lemma gives_capture e subkey sid profile_path reason (s : AppState) g :
  gives (capture e subkey sid profile_path reason)
    (fun mf g' => certified (se_directory e) subkey sid profile_path reason mf.1 g') s g.
Proof.
  unfold capture, st. apply gives_then. clear s g. intros timestamp s g.
  apply gives_then. clear s g. intros sequence s g. apply gives_then. clear s g. intros pid s g.
  eapply gives_bind; [apply gives_map_err, gives_lift; intros p Hp; exact Hp|].
  clear s g. intros p s g Hp. generalize dependent (snapshot_name timestamp pid sequence sid). intros filename Hp.
  apply gives_then. clear s g. intros existing s g. apply gives_then. clear s g existing. intros _ s g.
  unfold using_key.
  eapply gives_bind; [apply gives_map_err, gives_open_key|]. clear s g. intros hkey s g Hopen.
  apply (gives_defer conclusive).
  { intros a x g1 mf. apply certified_kept. }
  { unfold close_key. solve_calls. by right. }
  eapply gives_bind; [apply gives_attempt, gives_save_key, Hopen|].
  clear s g Hopen. intros [[]|save_error] s g Hsaved; [|apply gives_failing].
  destruct (Hsaved tt eq_refl) as [Hs Hx]. clear Hsaved.
  eapply gives_bind; [by apply gives_attempt, (gives_protect _ subkey)|].
  intros [[artifact digest]|error] s1 g1 Hr1; [|eapply gives_failing].
  destruct (Hr1 _ eq_refl) as [(_ & _ & Hs1 & Hx1) Hexam]. clear Hr1. simpl in Hs1, Hx1.
  eapply gives_bind with (R := fun pid g' => g' = take_notes ProcessId pid g1); [by apply gives_call|].
  intros pid' s2 g2 ->.
  eapply gives_bind; [apply gives_attempt, gives_create_file|].
  intros [created|error] s3 g3 Hr3; [|eapply gives_failing].
  destruct (Hr3 _ eq_refl) as [(He3 & _ & Hs3 & Hx3) Hf3]. clear Hr3. simpl in He3, Hs3, Hx3.
  eapply gives_bind; [by apply gives_attempt, (gives_write_metadata _ _ _ _ _ Hf3)|].
  intros [[]|error] s4 g4 Hr4; [|eapply gives_failing].
  destruct (Hr4 tt eq_refl) as [(_ & _ & Hs4 & Hx4) Hin]. simpl in Hs4, Hx4. apply gives_ret.
  match goal with |- certified _ _ _ _ _ (?md, _).1 _ =>
    destruct (Hexam md eq_refl eq_refl eq_refl eq_refl eq_refl) as [Hsub Hhive] end.
  split; [by split_and!|]. eexists. split; [exact Hin|]. simpl. rewrite He3.
  split_and!; [by split|by rewrite Hs4, Hs3, Hsub|by rewrite Hx4, Hx3, Hx1].
Qed.

Lemma gives_finish operation restored d subkey sid profile_path reason (s : AppState) g :
  (forall mf, operation = Ok mf -> certified d subkey sid profile_path reason mf.1 g) ->
  gives (finish_snapshot_operation operation restored)
    (fun metadata g' => certified d subkey sid profile_path reason metadata g') s g.
Proof.
  intros Hop. destruct operation as [[metadata file]|error], restored as [[]|restore_error]; simpl.
  - specialize (Hop _ eq_refl). simpl in Hop.
    eapply gives_bind with (R := fun _ g' => certified d subkey sid profile_path reason metadata g').
    + unfold commit. eapply gives_bind with (R := fun _ g' => certified d subkey sid profile_path reason metadata g').
      * unfold close_handle. destruct (_ && _); [|by apply gives_ret].
        apply gives_call. intros x. by apply certified_kept; [left|].
      * intros _ s1 g1 Hr1. by apply gives_ret.
    + intros raw s1 g1 Hr1. eapply gives_bind with (R := fun _ g' => certified d subkey sid profile_path reason metadata g').
      * apply gives_call. intros x. by apply certified_kept; [left|].
      * intros _ s2 g2 Hr2. by apply gives_ret.
  - apply gives_then. intros errors s1 g1. case_match; apply gives_throw.
  - apply gives_throw.
  - apply gives_throw.
Qed.

Lemma gives_create_registry_snapshot e subkey sid profile_path reason (s : AppState) g :
  gives (create_registry_snapshot e subkey sid profile_path reason)
    (certified (se_directory e) subkey sid profile_path reason) s g.
Proof.
  assert (forall {E} handle, mcalls conclusive (close_handle (S:=AppState) (E:=E) handle)) as Hclose.
  { intros E handle. unfold close_handle. solve_calls. by left. }
  apply gives_then. intros lock s1 g1. apply (gives_defer conclusive);
    [intros a x g2 r; apply certified_kept|apply Hclose|].
  apply gives_then. clear s1 g1. intros privileges s1 g1.
  eapply gives_bind; [apply gives_attempt, gives_capture|]. clear s1 g1. intros operation s1 g1 Hop.
  eapply gives_bind with (R := fun _ g' => forall mf, operation = Ok mf ->
    certified (se_directory e) subkey sid profile_path reason mf.1 g').
  - eapply wpM_mono; [apply (gives_kept conclusive (fun g' => forall mf, operation = Ok mf ->
      certified (se_directory e) subkey sid profile_path reason mf.1 g'))|by intros r s' g' Hr a _].
    + intros a x g2 Ha Hq mf Hmf. by apply certified_kept, Hq.
    + eapply mcalls_attempt, mtame_calls, mtame_PrivilegeGuard_restore. by left.
    + exact Hop.
  - intros restored s2 g2 Hr2. by apply gives_finish.
Qed.
(** A key is secured by a synced deposit; whatever comes after, it stays so. *)
Definition secured (d : StorageDirectory) (subkey : str) (g : Notes) : Prop :=
  exists metadata deposit, registry_key_path metadata = $"HKLM\" ++ subkey
    /\ deposit ∈ in_deposits g /\ evidences d subkey metadata deposit.
Lemma secured_kept d subkey a x g : secured d subkey g -> secured d subkey (take_notes a x g).
Proof.
  intros (metadata & deposit & Hr & Hin & He). exists metadata, deposit. split_and!; [done| |done].
  destruct a; try exact Hin. simpl. destruct x; [by right|done].
Qed.
Lemma certified_secured d subkey sid profile_path reason metadata g :
  certified d subkey sid profile_path reason metadata g -> secured d subkey g.
Proof. intros ((Hr & _) & deposit & Hin & He & _). by exists metadata, deposit. Qed.

(** C28: a snapshot that is reported taken is taken.  Whatever the answers of
    the system, when [create_registry_snapshot] returns metadata, the notes of
    the run show, in this order: the key [subkey] of HKLM was saved, through a
    handle opened on it, to a hive whose path is that of the recorded name in
    the snapshot directory; the hive was opened by that name in that directory;
    its identity, queried by that handle, is the recorded one; its SHA-256,
    over all of its bytes read by that handle, is the recorded one; a new file
    was created in the directory under the name of the hive with [.json], the
    whole JSON of the returned metadata was written to it, and it was synced.
    Since the key was saved nothing was marked for deletion, renamed or moved. *)
Theorem create_registry_snapshot_secures (e : SnapshotEngine) (subkey sid profile_path reason : str)
    (s : AppState) :
  wpM notary (create_registry_snapshot e subkey sid profile_path reason)
    (fun r _ g' => forall metadata, r = Ok metadata ->
       certified (se_directory e) subkey sid profile_path reason metadata g') s nothing_noted.
Proof. apply gives_create_registry_snapshot. Qed.
End Certifies.
