(* ===== verification/Repair.v ===== *)
(** * Repair: the transactional repair engine (core-profiles/src/repair.rs)

    A repair renames the keys of [ProfileList], resets [State] and [RefCount],
    verifies the result, and undoes its renames and restores its snapshots when
    a step fails.  The trait [HiveLockInspector] is a class; its production
    implementation asks the Restart Manager. *)

From stdpp Require Import base list gmap strings.
From S2P Require Import Prelude Text Path Effects Models Win32 Registry Security SecureFs Storage Journal Snapshot SnapshotSpec.

Definition AUDIT_ACTOR : str := $"WinProfile-Admin".
Definition BACKUP_SUFFIX : str := $"pre-repair".

Record ManualCloseBlocker : Type := { application : str; blocker_process_id : Z }.

Inductive RepairError : Type :=
| SessionActive
| NoActionSelected
| InvalidSid (sid : str)
| MissingRegistryKey (key : str)
| RepRegistryError (e : RegistryError)
| RepSnapshotError (e : SnapshotError)
| RepRollbackError (e : RollbackError)
| RepAuditError (e : AuditError)
| LockInspectionFailed (reason : str)
| ManualCloseRequired (blockers : list ManualCloseBlocker)
| AutomaticUnlockUnsupported
| TransactionFailed (step reason : str).

Definition debug_blocker `{Extern} (b : ManualCloseBlocker) : str :=
  $"ManualCloseBlocker { application: " ++ debug_str (application b) ++ $", process_id: "
  ++ dec (blocker_process_id b) ++ $" }".
Definition show_RepairError `{Extern} (e : RepairError) : str :=
  match e with
  | SessionActive => $"Profile is currently loaded in an active session; log off before repair"
  | NoActionSelected => $"Repair plan contains no selected operation"
  | InvalidSid sid => $"Invalid profile SID: " ++ sid
  | MissingRegistryKey key => $"Required registry key is missing: " ++ key
  | RepRegistryError e => $"Registry operation failed: " ++ show_RegistryError e
  | RepSnapshotError e => $"Snapshot engine error: " ++ show_SnapshotError e
  | RepRollbackError e => $"Rollback failed: " ++ show_RollbackError e
  | RepAuditError e => $"Audit logging failed: " ++ show_AuditError e
  | LockInspectionFailed reason => $"NTUSER.DAT lock inspection failed: " ++ reason
  | ManualCloseRequired blockers =>
      $"Close the locking applications manually, save their work, and scan again: ["
      ++ join ($", ") (map debug_blocker blockers) ++ $"]"
  | AutomaticUnlockUnsupported =>
      $"Automatic process shutdown is no longer supported; scan for blockers and close them manually"
  | TransactionFailed step reason =>
      $"Transaction failed at step '" ++ step ++ $"': " ++ reason
  end.

Record RegistryMutation : Type := { bak_moved : bool; canonical_backup : option str }.
Definition no_mutation : RegistryMutation := {| bak_moved := false; canonical_backup := None |}.
Record RepairSnapshot : Type := { rs_metadata : SnapshotMetadata; expected_registry_key_path : str }.

(** ** Pure helpers *)
Definition show_bool (b : bool) : str := if b then $"true" else $"false".
Definition bak_name_of (canonical_name : str) : str := canonical_name ++ BAK_EXTENSION.

Definition is_valid_sid (value : str) : bool :=
  starts_with ($"S-1-") value
  && forallb (fun part => negb (is_empty part) && forallb is_ascii_digit part)
       (drop 1 (split_char DASH value)).
Definition normalize_profile_path (value : str) : str :=
  to_ascii_lowercase (trim_end_matches (one_of [BACKSLASH; FORWARD_SLASH]) (trim value)).
Definition rollback_summary (snapshot_count : nat) (errors : list str) : AuditStatus * str :=
  if is_empty errors then
    (StatusRolledBack, $"Rollback completed for " ++ dec (Z.of_nat snapshot_count) ++ $" snapshot(s)")
  else
    (StatusFailed,
     $"Rollback attempted all " ++ dec (Z.of_nat snapshot_count) ++ $" snapshot(s); "
     ++ dec (Z.of_nat (length errors)) ++ $" error(s): " ++ join ($"; ") errors).

Definition validate_selected_actions (plan : RepairPlan) : result RepairError unit :=
  if negb (fix_bak plan) && negb (reset_state plan) then Err NoActionSelected else Ok tt.

(** ** Lock inspection *)
Class HiveLockInspector : Type := inspect : path -> M AppState str (list ManualCloseBlocker).

Definition blocker_of (p : LockingProcessInfo) : ManualCloseBlocker :=
  {| application := app_name p; blocker_process_id := process_id p |}.
#[export] Instance RestartManagerHiveLockInspector `{Extern} : HiveLockInspector := fun ntuser_path =>
  let* found := call (PathTryExists ntuser_path) in
  match found with
  | Ok false => ret []
  | Ok true =>
      map_err show_RestartManagerError
        (let* processes := inspect_locking_processes ntuser_path in ret (map blocker_of processes))
  | Err error =>
      throw ($"failed to determine whether '" ++ display ntuser_path ++ $"' exists: " ++ show_io_error error)
  end.

(** ** Attempting everything *)
Fixpoint attempt_all {S E T} (restore : T -> M S str unit) (items : list T) (errors : list str)
    : M S E (list str) :=
  match items with
  | [] => ret errors
  | item :: items' =>
      let* r := attempt (restore item) in
      attempt_all restore items' (match r with Err error => errors ++ [error] | Ok _ => errors end)
  end.
Definition attempt_all_then_audit {S E T} (items : list T) (errors : list str) (restore : T -> M S str unit)
    (audit : list str -> M S str unit) : M S E (list str) :=
  let* errors := attempt_all restore items errors in
  let* r := attempt (audit errors) in
  ret match r with Err error => errors ++ [error] | Ok _ => errors end.

(** ** The steps of a repair

    [mutation: &mut RegistryMutation] outlives a failed step, so it is the
    state of the steps. *)
Section Steps.
Context `{Fuel} `{Extern}.
Abbreviation StepM := (M RegistryMutation RepairError).

Definition reg {S A} (m : M S RegistryError A) : M S RepairError A := map_err RepRegistryError m.

Definition verify {S} (plan : RepairPlan) (parent : Z) : M S RepairError unit :=
  let* canonical_exists := reg (subkey_exists parent (rp_canonical_sid plan)) in
  if negb canonical_exists then throw (MissingRegistryKey (rp_canonical_sid plan))
  else
    let* bak_remains :=
      if fix_bak plan then reg (subkey_exists parent (bak_name_of (rp_canonical_sid plan))) else ret false in
    if (bak_remains : bool)
    then throw (TransactionFailed ($"Verification") ($"the .bak key still exists"))
    else
      using_key (reg (open_subkey parent (rp_canonical_sid plan) KEY_READ))
        (fun canonical =>
           let* image_path := reg (query_value_string canonical VAL_PROFILE_IMAGE_PATH) in
           if is_empty (trim image_path)
           then throw (TransactionFailed ($"Verification") ($"ProfileImagePath is empty"))
           else if reset_state plan then
             let* state := reg (query_value_u32 canonical VAL_STATE) in
             let* ref_count := reg (query_value_u32 canonical VAL_REF_COUNT) in
             if negb (Z.eqb state 0) || negb (Z.eqb ref_count 0)
             then throw (TransactionFailed ($"Verification")
                           ($"State=" ++ dec state ++ $", RefCount=" ++ dec ref_count))
             else ret tt
           else ret tt).

Definition backup_name_of (canonical_name : str) (now : Z) : str :=
  canonical_name ++ $"." ++ BACKUP_SUFFIX ++ $"-" ++ format_compact now.

Definition move_canonical_aside (parent : Z) (canonical_name : str) : StepM unit :=
  let* canonical_exists := reg (subkey_exists parent canonical_name) in
  if canonical_exists then
    let* now := call UtcNow in
    let backup_name := backup_name_of canonical_name now in
    let* taken := reg (subkey_exists parent backup_name) in
    if (taken : bool)
    then throw (TransactionFailed ($"RegistryRename") ($"backup key already exists: " ++ backup_name))
    else
      do* reg (rename_subkey parent canonical_name backup_name) in
      let* mutation := get in
      put {| bak_moved := bak_moved mutation; canonical_backup := Some backup_name |}
  else ret tt.
Definition promote_bak (parent : Z) (canonical_name : str) : StepM unit :=
  do* reg (rename_subkey parent (bak_name_of canonical_name) canonical_name) in
  let* mutation := get in
  put {| bak_moved := true; canonical_backup := canonical_backup mutation |}.
Definition reset_counters (parent : Z) (canonical_name : str) : StepM unit :=
  using_key (reg (open_subkey parent canonical_name KEY_ALL_ACCESS))
    (fun canonical =>
       do* reg (set_value_u32 canonical VAL_STATE 0) in
       reg (set_value_u32 canonical VAL_REF_COUNT 0)).

Definition execute_steps (plan : RepairPlan) (parent : Z) : StepM unit :=
  let canonical_name := rp_canonical_sid plan in
  do* (if fix_bak plan then
         do* move_canonical_aside parent canonical_name in promote_bak parent canonical_name
       else ret tt) in
  do* (if reset_state plan then reset_counters parent canonical_name else ret tt) in
  verify plan parent.
End Steps.

(** ** The engine *)
Record ProfileRepairEngine : Type := { snapshot_engine : SnapshotEngine; audit_logger : AuditLogger }.

Section Repair.
Context `{Fuel} `{Extern} `{JournalCodec} `{SnapshotCodec} `{HiveLockInspector}.
Abbreviation RM := (M AppState RepairError).

Definition audit {E} (of_audit : AuditError -> E) (e : ProfileRepairEngine) (plan : RepairPlan)
    (op : str) (st : AuditStatus) (det : str) : M AppState E unit :=
  map_err of_audit (log (audit_logger e) op AUDIT_ACTOR (rp_canonical_sid plan) st det).

Definition validate_lock_contract (plan : RepairPlan) : RM unit :=
  let profile_path := encode_utf16 (rp_profile_path plan) in
  if is_empty (trim (rp_profile_path plan)) || negb (is_absolute profile_path) then
    throw (TransactionFailed ($"LockInspection")
             ($"profile path must be absolute before NTUSER.DAT lock inspection"))
  else
    let* blockers := map_err LockInspectionFailed (inspect (path_join profile_path (encode_utf16 NTUSER_DAT))) in
    if negb (is_empty blockers) then throw (ManualCloseRequired blockers) else ret tt.

(** Whether the hive of the profile is loaded under [HKEY_USERS]. *)
Definition session_loaded (canonical : str) : RM bool :=
  let* opened := attempt (open_key Users canonical KEY_READ) in
  match opened with
  | Ok hkey => do* close_key hkey in ret true
  | Err (Win32Error 2%Z) => ret false
  | Err error => throw (RepRegistryError error)
  end.

Definition check_bak_key (parent : Z) (bak_name : str) : RM unit :=
  let* bak_exists := reg (subkey_exists parent bak_name) in
  if negb bak_exists then throw (MissingRegistryKey bak_name)
  else
    using_key (reg (open_subkey parent bak_name KEY_READ))
      (fun bak =>
         let* profile_path := reg (query_value_string bak VAL_PROFILE_IMAGE_PATH) in
         if is_empty (trim profile_path)
         then throw (TransactionFailed ($"Preflight") ($"the .bak key has an empty ProfileImagePath"))
         else ret tt).

Definition validate_plan (plan : RepairPlan) (is_loaded : bool) : RM str :=
  do* lift (validate_selected_actions plan) in
  let canonical_name := rp_canonical_sid plan in
  let bak_name := bak_name_of canonical_name in
  if negb (is_valid_sid canonical_name) then throw (InvalidSid canonical_name)
  else if negb (str_eqb (rp_sid plan) canonical_name) && negb (str_eqb (rp_sid plan) bak_name)
  then throw (InvalidSid (rp_sid plan))
  else
    let* live_loaded := session_loaded canonical_name in
    if is_loaded || live_loaded then throw SessionActive
    else
      using_key (reg (open_key LocalMachine REG_KEY_PROFILE_LIST KEY_READ))
        (fun parent =>
           let* selected_exists := reg (subkey_exists parent (rp_sid plan)) in
           if negb selected_exists then throw (MissingRegistryKey (rp_sid plan))
           else
             using_key (reg (open_subkey parent (rp_sid plan) KEY_READ))
               (fun selected_key =>
                  let* selected_profile_path := reg (query_value_string selected_key VAL_PROFILE_IMAGE_PATH) in
                  if negb (str_eqb (normalize_profile_path selected_profile_path)
                             (normalize_profile_path (rp_profile_path plan)))
                  then throw (TransactionFailed ($"Preflight")
                                ($"selected registry path '" ++ selected_profile_path
                                 ++ $"' does not match plan path '" ++ rp_profile_path plan ++ $"'"))
                  else
                    do* (if fix_bak plan then check_bak_key parent bak_name
                         else if reset_state plan then
                           let* canonical_exists := reg (subkey_exists parent canonical_name) in
                           if negb canonical_exists then throw (MissingRegistryKey canonical_name) else ret tt
                         else ret tt) in
                    let* canonical_exists := reg (subkey_exists parent canonical_name) in
                    ret ($"Preflight passed: fix_bak=" ++ show_bool (fix_bak plan)
                         ++ $", reset_state=" ++ show_bool (reset_state plan)
                         ++ $", unlock_hive=" ++ show_bool (unlock_hive plan)
                         ++ $", canonical_exists=" ++ show_bool canonical_exists))).

(** ** Snapshots *)
Definition drop_snapshots {E} (snapshots : list RepairSnapshot) : M AppState E unit :=
  for_each (fun snapshot => drop_artifact (protected_artifact (rs_metadata snapshot))) snapshots.

Definition canonical_key_path (plan : RepairPlan) : str :=
  REG_KEY_PROFILE_LIST ++ [BACKSLASH] ++ rp_canonical_sid plan.
Definition bak_key_path (plan : RepairPlan) : str := canonical_key_path plan ++ BAK_EXTENSION.

Definition required_paths (plan : RepairPlan) : RM (list str) :=
  if fix_bak plan then
    let* canonical_exists :=
      using_key (reg (open_key LocalMachine REG_KEY_PROFILE_LIST KEY_READ))
        (fun parent => reg (subkey_exists parent (rp_canonical_sid plan))) in
    ret (bak_key_path plan :: (if (canonical_exists : bool) then [canonical_key_path plan] else []))
  else if reset_state plan then ret [canonical_key_path plan]
  else ret [].

Fixpoint snapshot_paths (e : ProfileRepairEngine) (plan : RepairPlan) (paths : list str)
    (snapshots : list RepairSnapshot) : RM (list RepairSnapshot) :=
  match paths with
  | [] => ret snapshots
  | p :: paths' =>
      let* metadata := on_error (drop_snapshots snapshots)
        (map_err RepSnapshotError
           (create_registry_snapshot (snapshot_engine e) p (rp_canonical_sid plan) (rp_profile_path plan)
              ($"Mandatory pre-repair snapshot"))) in
      snapshot_paths e plan paths'
        (snapshots ++ [{| rs_metadata := metadata; expected_registry_key_path := $"HKLM\" ++ p |}])
  end.
Definition create_required_snapshots (e : ProfileRepairEngine) (plan : RepairPlan) : RM (list RepairSnapshot) :=
  let* paths := required_paths plan in snapshot_paths e plan paths [].

(** ** Rollback *)
Definition undo_rename {E} (parent : Z) (inspect_message rename_message : str) (from to : str)
    (errors : list str) : M AppState E (list str) :=
  let* found := attempt (subkey_exists parent from) in
  match found with
  | Ok true =>
      let* renamed := attempt (rename_subkey parent from to) in
      ret match renamed with
          | Err error => errors ++ [rename_message ++ show_RegistryError error]
          | Ok _ => errors
          end
  | Ok false => ret errors
  | Err error => ret (errors ++ [inspect_message ++ show_RegistryError error])
  end.
Definition undo_renames {E} (parent : Z) (canonical_name : str) (mutation : RegistryMutation)
    : M AppState E (list str) :=
  let* errors :=
    if bak_moved mutation then
      undo_rename parent ($"inspect canonical key: ") ($"restore .bak name: ")
        canonical_name (bak_name_of canonical_name) []
    else ret [] in
  match canonical_backup mutation with
  | Some backup_name =>
      undo_rename parent ($"inspect canonical backup: ") ($"restore canonical name: ")
        backup_name canonical_name errors
  | None => ret errors
  end.

Definition restore_one (snapshot : RepairSnapshot) : M AppState str unit :=
  map_err (fun error => $"restore " ++ expected_registry_key_path snapshot ++ $": " ++ show_RollbackError error)
    (restore_registry_snapshot (rs_metadata snapshot) (expected_registry_key_path snapshot)).

Definition rollback (e : ProfileRepairEngine) (plan : RepairPlan) (parent : Z) (mutation : RegistryMutation)
    (snapshots : list RepairSnapshot) : RM unit :=
  let* errors := undo_renames parent (rp_canonical_sid plan) mutation in
  let* errors := attempt_all_then_audit snapshots errors restore_one
    (fun restore_errors =>
       let '(st, det) := rollback_summary (length snapshots) restore_errors in
       audit (fun error => $"rollback summary audit: " ++ show_AuditError error) e plan
         ($"RepairRollbackSummary") st det) in
  if negb (is_empty errors) then throw (RepRollbackError (Aggregate (join ($"; ") errors))) else ret tt.

(** ** The plan *)

(** The steps with their mutation record, which starts empty. *)
Definition with_mutation {E A} (m : M RegistryMutation E A) : RM (result E A * RegistryMutation) :=
  fun s => bind (m no_mutation) (fun '(r, mutation) => Ret (Ok (r, mutation), s)).

Definition failed_repair (e : ProfileRepairEngine) (plan : RepairPlan) (parent : Z)
    (mutation : RegistryMutation) (snapshots : list RepairSnapshot) (error : RepairError) : RM unit :=
  let* undone := attempt (rollback e plan parent mutation snapshots) in
  match undone with
  | Err rollback_error =>
      let reason := $"original error: " ++ show_RepairError error ++ $"; rollback error: "
                    ++ show_RepairError rollback_error in
      let* logged := attempt (audit id e plan ($"RepairRollbackFailed") StatusFailed reason) in
      throw (TransactionFailed ($"Rollback")
               match logged with
               | Err audit_error => reason ++ $"; audit error: " ++ show_AuditError audit_error
               | Ok _ => reason
               end)
  | Ok _ =>
      do* audit RepAuditError e plan ($"RepairFailed") StatusRolledBack
            ($"Repair failed and rollback completed: " ++ show_RepairError error) in
      throw error
  end.

Definition successful_repair (e : ProfileRepairEngine) (plan : RepairPlan) (parent : Z)
    (mutation : RegistryMutation) (snapshots : list RepairSnapshot) : RM unit :=
  let* logged := attempt (audit id e plan ($"RepairSuccess") StatusSuccess
    ($"Repair verified; preserved prior canonical key: " ++ default ($"none") (canonical_backup mutation))) in
  match logged with
  | Err audit_error =>
      do* rollback e plan parent mutation snapshots in throw (RepAuditError audit_error)
  | Ok _ => ret tt
  end.

Definition run_transaction (e : ProfileRepairEngine) (plan : RepairPlan) (snapshots : list RepairSnapshot)
    : RM unit :=
  do* audit RepAuditError e plan ($"RepairStarted") StatusWarning
        ($"Validated repair with " ++ dec (Z.of_nat (length snapshots)) ++ $" durable snapshot(s)") in
  using_key (reg (open_key LocalMachine REG_KEY_PROFILE_LIST KEY_ALL_ACCESS))
    (fun parent =>
       let* '(execution, mutation) := with_mutation (execute_steps plan parent) in
       match execution with
       | Err error => failed_repair e plan parent mutation snapshots error
       | Ok _ => successful_repair e plan parent mutation snapshots
       end).

Definition execute_guarded (e : ProfileRepairEngine) (plan : RepairPlan) (is_loaded : bool) : RM unit :=
  if unlock_hive plan then throw AutomaticUnlockUnsupported
  else
    do* lift (validate_selected_actions plan) in
    do* validate_lock_contract plan in
    let* validation := validate_plan plan is_loaded in
    do* validate_lock_contract plan in
    if dry_run plan then audit RepAuditError e plan ($"RepairDryRun") StatusSuccess validation
    else
      let* snapshots := create_required_snapshots e plan in
      defer (drop_snapshots snapshots) (run_transaction e plan snapshots).

Definition execute_plan (e : ProfileRepairEngine) (plan : RepairPlan) (is_loaded : bool) : RM unit :=
  if dry_run plan then execute_guarded e plan is_loaded
  else
    let* guard := map_err RepAuditError (acquire_operation_guard (audit_logger e)) in
    defer (close_handle guard) (execute_guarded e plan is_loaded).
End Repair.

(** ** Which calls may change the registry *)
Definition harmless (a : sys) : Prop := mutates_registry a = false.

(** What the engine expects of a lock inspector. *)
Class HarmlessInspector `{HiveLockInspector} : Prop :=
  inspect_harmless : forall p, mcalls harmless (inspect p).
#[export] Instance restart_manager_harmless `{Extern} :
  @HarmlessInspector RestartManagerHiveLockInspector.
Proof.
  intros p. unfold inspect, RestartManagerHiveLockInspector.
  assert (mcalls harmless (inspect_locking_processes (S:=AppState) p)).
  { apply mcalls_inspect_locking_processes. by intros []. }
  by solve_calls.
Qed.

Section Harmless.
Context `{Fuel} `{Extern} `{JournalCodec} `{SnapshotCodec}.

Lemma harmless_reads a : reads_registry a = true -> harmless a. Proof. by destruct a. Qed.
Lemma harmless_journal a : journal_call a = true -> harmless a. Proof. by destruct a. Qed.
Lemma harmless_storage a : storage_call a = true -> harmless a. Proof. by destruct a. Qed.
Lemma harmless_snapshot a : snapshot_call a = true -> harmless a. Proof. by destruct a. Qed.
Hint Resolve harmless_reads harmless_journal harmless_storage harmless_snapshot : calls.
Hint Resolve mcalls_close_key mcalls_open_key mcalls_open_subkey mcalls_query_value_u32
  mcalls_query_value_string mcalls_subkey_exists mcalls_log mcalls_create_registry_snapshot : calls.

(** [solve_harmless] takes a program apart down to the wrappers. *)
Ltac solve_harmless :=
  repeat first
    [ solve [eauto 3 with calls]
    | apply mcalls_using_key; [by apply harmless_reads| |]
    | mcalls_step ]; try done.

Lemma harmless_audit {E} (of_audit : AuditError -> E) e plan op st det :
  mcalls harmless (audit of_audit e plan op st det).
Proof. unfold audit. by solve_harmless. Qed.
Lemma harmless_guard l : mcalls harmless (acquire_operation_guard l).
Proof. apply tame_calls_of, mtame_acquire_operation_guard, harmless_storage. Qed.
Lemma harmless_close {E} handle : mcalls harmless (close_handle (S:=AppState) (E:=E) handle).
Proof. unfold close_handle. by solve_harmless. Qed.
Lemma harmless_drop_snapshots {E} snapshots : mcalls harmless (drop_snapshots (E:=E) snapshots).
Proof. unfold drop_snapshots, drop_artifact. by solve_harmless. Qed.
Hint Resolve harmless_audit harmless_guard harmless_close harmless_drop_snapshots : calls.

Lemma harmless_required_paths plan : mcalls harmless (required_paths plan).
Proof. unfold required_paths, reg. by solve_harmless. Qed.
Lemma harmless_snapshot_paths e plan paths snapshots :
  mcalls harmless (snapshot_paths e plan paths snapshots).
Proof. revert snapshots. induction paths; intros; simpl; by solve_harmless. Qed.
Lemma harmless_create_required_snapshots e plan : mcalls harmless (create_required_snapshots e plan).
Proof. apply mcalls_bind; [apply harmless_required_paths|]. intros. apply harmless_snapshot_paths. Qed.

Context `{HiveLockInspector} `{!HarmlessInspector}.
Lemma harmless_lock_contract plan : mcalls harmless (validate_lock_contract plan).
Proof.
  unfold validate_lock_contract. case_match; [done|]. apply mcalls_bind.
  - apply mcalls_map_err, inspect_harmless.
  - intros blockers. by case_match.
Qed.
Lemma harmless_validate_plan plan is_loaded : mcalls harmless (validate_plan plan is_loaded).
Proof.
  assert (forall canonical, mcalls harmless (session_loaded canonical)).
  { intros canonical. unfold session_loaded. apply mcalls_bind; [by solve_harmless|].
    intros [k|er]; [by solve_harmless|by repeat case_match]. }
  unfold validate_plan, check_bak_key, reg. by solve_harmless.
Qed.
End Harmless.

(** C31: a dry run, and a plan that asks for the unsupported automatic unlock,
    never change the registry: no execution of [execute_plan], whatever the
    system answers, makes a call that creates, writes, deletes, renames,
    restores, loads or unloads a key. *)
Theorem execute_plan_harmless `{Fuel} `{Extern} `{JournalCodec} `{SnapshotCodec} `{HiveLockInspector}
    `{!HarmlessInspector} (e : ProfileRepairEngine) (plan : RepairPlan) (is_loaded : bool) :
  dry_run plan || unlock_hive plan = true ->
  mcalls harmless (execute_plan e plan is_loaded).
Proof.
  intros Hplan. assert (mcalls harmless (execute_guarded e plan is_loaded)) as Hg.
  { unfold execute_guarded. destruct (unlock_hive plan); [done|]. apply orb_prop in Hplan as [Hd|]; [|done].
    rewrite Hd. apply mcalls_bind; [done|]. intros _.
    apply mcalls_bind; [apply harmless_lock_contract|]. intros _.
    apply mcalls_bind; [apply harmless_validate_plan|]. intros validation.
    apply mcalls_bind; [apply harmless_lock_contract|]. intros _. apply harmless_audit. }
  unfold execute_plan. destruct (dry_run plan); [done|].
  apply mcalls_bind; [apply mcalls_map_err, harmless_guard|]. intros guard.
  apply mcalls_defer; [apply harmless_close|done].
Qed.

(** ** No change before the evidence is durable

    The overseer keeps the notes of [SnapshotSpec] and watches the journal. *)
Record oversight : Type := { ov_notes : Notes; ov_journal : written }.
Definition nothing_overseen : oversight := {| ov_notes := nothing_noted; ov_journal := nothing_written |}.
Definition see_repair (a : sys) (x : sys_resp a) (g : oversight) : oversight :=
  {| ov_notes := take_notes a x (ov_notes g); ov_journal := see_write a x (ov_journal g) |}.

(** The key a repair moves or resets. *)
Definition repaired_key (plan : RepairPlan) : str :=
  if fix_bak plan then bak_key_path plan else canonical_key_path plan.

Section Evidence.
Context `{JournalCodec} `{SnapshotCodec}.

Definition started_in (plan : RepairPlan) (journal : written) : Prop :=
  exists now det json prior,
    encode_entry {| ae_timestamp := now; operation := $"RepairStarted"; actor := AUDIT_ACTOR;
                    target := rp_canonical_sid plan; status := StatusWarning; details := det |} = Ok json /\
    prior ++ utf8_encode json ++ [NEWLINE] ∈ durable journal.
Definition evidence (d : StorageDirectory) (plan : RepairPlan) (g : oversight) : Prop :=
  secured d (repaired_key plan) (ov_notes g) /\ started_in plan (ov_journal g).
Definition overseer_ok (d : StorageDirectory) (plan : RepairPlan) (a : sys) (g : oversight) : Prop :=
  mutates_registry a = true -> evidence d plan g.
Definition overseer (d : StorageDirectory) (plan : RepairPlan) : protocol oversight :=
  @monitor sys_signature oversight (overseer_ok d plan) see_repair.

Lemma durable_kept chunk a x g : chunk ∈ durable g -> chunk ∈ durable (see_write a x g).
Proof. destruct a; simpl; repeat case_match; simpl; set_solver. Qed.
Lemma evidence_kept d plan a x g : evidence d plan g -> evidence d plan (see_repair a x g).
Proof.
  intros [Hk (now & det & json & prior & Hj & Hd)]. split; [by apply secured_kept|].
  exists now, det, json, prior. split; [done|]. by apply durable_kept.
Qed.
End Evidence.

Section Oversight.
Context `{Fuel} `{Extern} `{JournalCodec} `{SnapshotCodec} (d : StorageDirectory)
  (plan : RepairPlan).
Abbreviation overseen := (overseer d plan).

(** With the evidence everything is allowed; without it, harmless calls are. *)
Lemma wp_evident {S E A} (m : M S E A) s g :
  evidence d plan g -> wpM overseen m (fun _ _ _ => True) s g.
Proof.
  intros He. eapply wpM_mono; [|done].
  apply (@wpM_keeps sys_signature S oversight E A overseen any_call (evidence d plan));
    [| |done|apply mcalls_any|exact He].
  - by intros a g1 _ He1 _.
  - intros a g1 x g2 _ He1 ->. by apply evidence_kept.
Qed.
Lemma harmless_ok a g : harmless a -> overseer_ok d plan a g.
Proof. unfold harmless, overseer_ok. congruence. Qed.
Lemma wp_harmless {S E A} (m : M S E A) s g :
  mcalls harmless m -> wpM overseen m (fun _ _ _ => True) s g.
Proof.
  intros Hc. apply (@wpM_keeps sys_signature S oversight E A overseen harmless (fun _ => True)); [|done..].
  intros a g1 Ha _. by apply harmless_ok.
Qed.
Lemma wp_harmless_bind {S E A B} (m : M S E A) (f : A -> M S E B) s g :
  mcalls harmless m -> (forall a s g, wpM overseen (f a) (fun _ _ _ => True) s g) ->
  wpM overseen (mbind m f) (fun _ _ _ => True) s g.
Proof.
  intros Hm Hf. apply wpM_bind. eapply wpM_mono; [by apply wp_harmless|]. intros [a|e] s' g' _; [apply Hf|done].
Qed.
Lemma wp_harmless_defer {S E A} cleanup (m : M S E A) s g :
  mcalls harmless cleanup -> wpM overseen m (fun _ _ _ => True) s g ->
  wpM overseen (defer cleanup m) (fun _ _ _ => True) s g.
Proof.
  intros Hc Hm. apply wpM_defer. eapply wpM_mono; [exact Hm|]. intros r s' g' _.
  eapply wpM_mono; [by apply wp_harmless|done].
Qed.

Lemma gives_snapshot_paths e paths snapshots (s : AppState) g :
  gives (snapshot_paths e plan paths snapshots)
    (fun _ g' => forall p, p ∈ paths -> secured (se_directory (snapshot_engine e)) p g') s g.
Proof.
  revert snapshots s g. induction paths as [|p paths IH]; intros snapshots s g; simpl.
  { apply gives_ret. intros p Hp. by apply elem_of_nil in Hp. }
  eapply gives_bind; [apply gives_on_error, gives_map_err, gives_create_registry_snapshot|].
  intros md s1 g1 Hmd%certified_secured. eapply wpM_mono.
  - apply wpM_and; [apply (IH _ s1 g1)|].
    apply (gives_kept any_call (secured (se_directory (snapshot_engine e)) p)); [|apply mcalls_any|exact Hmd].
    intros a x g2 _. apply secured_kept.
  - intros r s2 g2 [Hall Hp] l Hl p' Hp'. apply elem_of_cons in Hp' as [-> | Hp']; [done|]. by eapply Hall.
Qed.
Lemma gives_create_required_snapshots e (s : AppState) g :
  fix_bak plan || reset_state plan = true ->
  gives (create_required_snapshots e plan)
    (fun _ g' => secured (se_directory (snapshot_engine e)) (repaired_key plan) g') s g.
Proof.
  intros Hsel. unfold create_required_snapshots, required_paths, repaired_key.
  destruct (fix_bak plan); [|destruct (reset_state plan); [|done]].
  - eapply gives_bind with (R := fun paths _ => bak_key_path plan ∈ paths).
    + apply gives_then. intros canonical_exists s1 g1. apply gives_ret. set_solver.
    + intros paths s1 g1 Hin. eapply gives_mono; [apply gives_snapshot_paths|]. auto.
  - eapply gives_bind with (R := fun paths _ => canonical_key_path plan ∈ paths).
    + apply gives_ret. set_solver.
    + intros paths s1 g1 Hin. eapply gives_mono; [apply gives_snapshot_paths|]. auto.
Qed.

Lemma wp_started e det s g :
  secured d (repaired_key plan) (ov_notes g) ->
  wpM overseen (audit RepAuditError e plan ($"RepairStarted") StatusWarning det)
    (fun r _ g' => is_ok r = true -> evidence d plan g') s g.
Proof.
  intros Hk. apply wpM_map_err. eapply wpM_mono.
  - apply wpM_and.
    + eapply (@wpM_project sys_signature AppState oversight written AuditError unit (overseer_ok d plan)
                see_repair see_write ov_journal harmless);
        [done|intros; by apply harmless_ok|apply mcalls_log, harmless_journal|apply wp_log].
    + apply (@wpM_keeps sys_signature AppState oversight AuditError unit overseen harmless
               (fun g => secured d (repaired_key plan) (ov_notes g)));
        [intros; by apply harmless_ok| |done|apply mcalls_log, harmless_journal|exact Hk].
      intros a g1 x g2 _ Hs ->. by apply secured_kept.
  - intros [[]|er] s' g' [Hlog Hs] Hok; [|done].
    destruct Hlog as (now & json & Hj & _ & [file Hd] & _).
    split; [done|]. exists now, det, json, (of_file file (pending (ov_journal g))).
    split; [exact Hj|]. rewrite Hd. set_solver.
Qed.

Lemma wp_run_transaction `{HiveLockInspector} e snapshots s g :
  secured d (repaired_key plan) (ov_notes g) ->
  wpM overseen (run_transaction e plan snapshots) (fun _ _ _ => True) s g.
Proof.
  intros Hk. apply wpM_bind. eapply wpM_mono; [by apply wp_started|].
  intros [[]|er] s' g' He; [|done]. apply wp_evident. by apply He.
Qed.

Lemma wp_guarded `{HiveLockInspector} `{!HarmlessInspector} e is_loaded s g :
  se_directory (snapshot_engine e) = d ->
  wpM overseen (execute_guarded e plan is_loaded) (fun _ _ _ => True) s g.
Proof.
  intros Hd. unfold execute_guarded. destruct (unlock_hive plan); [by apply wpM_throw|].
  apply wpM_bind, wpM_lift. unfold validate_selected_actions.
  destruct (negb (fix_bak plan) && negb (reset_state plan)) eqn:Hsel; [done|].
  apply wp_harmless_bind; [apply harmless_lock_contract|]. clear s g. intros _ s g.
  apply wp_harmless_bind; [apply harmless_validate_plan|]. clear s g. intros validation s g.
  apply wp_harmless_bind; [apply harmless_lock_contract|]. clear s g. intros _ s g.
  destruct (dry_run plan); [apply wp_harmless, harmless_audit|].
  apply wpM_bind. eapply wpM_mono.
  - eapply (@wpM_project sys_signature AppState oversight Notes RepairError _ (overseer_ok d plan)
              see_repair take_notes ov_notes harmless);
      [done|intros; by apply harmless_ok|apply harmless_create_required_snapshots|].
    rewrite <- Hd. apply gives_create_required_snapshots. by destruct (fix_bak plan), (reset_state plan).
  - intros [snapshots|er] s1 g1 Hs; [|done].
    apply wp_harmless_defer; [apply harmless_drop_snapshots|]. rewrite Hd in Hs. by eapply wp_run_transaction, Hs.
Qed.
End Oversight.

(** C3: no registry change before its evidence is durable.  Whatever the system
    answers, every call of [execute_plan] that changes the registry comes after
    the key the plan repairs (the [.bak] key, or the canonical key of a reset)
    was opened under HKLM and saved to a hive of the snapshot directory; the
    hive was opened, identified and hashed whole by its handle; metadata naming
    the key, the identity and the digest was written to a new file and synced;
    and a [RepairStarted] entry for the profile was written to the journal and
    synced. *)
Theorem execute_plan_evidence `{Fuel} `{Extern} `{JournalCodec} `{SnapshotCodec} `{HiveLockInspector}
    `{!HarmlessInspector} (e : ProfileRepairEngine) (plan : RepairPlan) (is_loaded : bool) (s : AppState) :
  wpM (overseer (se_directory (snapshot_engine e)) plan) (execute_plan e plan is_loaded) (fun _ _ _ => True)
    s nothing_overseen.
Proof.
  unfold execute_plan. destruct (dry_run plan); [by apply wp_guarded|].
  apply wp_harmless_bind; [apply mcalls_map_err, harmless_guard|]. intros guard s1 g1.
  apply wp_harmless_defer; [apply harmless_close|]. by apply wp_guarded.
Qed.

(** ** Sample engine, for the witnesses *)
Definition sample_repair_engine : ProfileRepairEngine :=
  let d := {| st_handle := 4; st_path := $"C:\ProgramData\WinProfile" |} in
  let root := {| directory := d; trust := TrustedInjection |} in
  {| snapshot_engine := {| se_storage := root; se_directory := d |};
     audit_logger := {| al_storage := root; log_file_name := AUDIT_FILE; log_file_path := [];
                        max_memory_entries := 8; max_log_bytes := 4096; max_archives := 2 |} |}.
Definition sample_entry_codec : JournalCodec :=
  {| encode_entry := fun e => Ok (operation e); decode_entry := fun _ => Err [] |}.
Definition sample_metadata_codec : SnapshotCodec :=
  {| metadata_pieces := fun m => [utf8_encode (snap_id m)]; metadata_rejects := fun _ => None;
     decode_metadata := fun _ => Err [] |}.
Definition sample_reset (dry : bool) : RepairPlan := {|
  rp_sid := $"S-1-5-21-1-1001"; rp_canonical_sid := $"S-1-5-21-1-1001"; rp_profile_path := $"C:\Users\ann";
  fix_bak := false; reset_state := true; unlock_hive := false; dry_run := dry |}.

Lemma execute_plan_harmless_witness :
  dry_run (sample_reset true) = true /\
  mcalls harmless
    (@execute_plan 300 sample_extern sample_entry_codec sample_metadata_codec
       (@RestartManagerHiveLockInspector sample_extern) sample_repair_engine (sample_reset true) false).
Proof.
  split; [reflexivity|].
  by apply (@execute_plan_harmless 300 sample_extern sample_entry_codec sample_metadata_codec
              (@RestartManagerHiveLockInspector sample_extern) (@restart_manager_harmless sample_extern)).
Defined.

Lemma execute_plan_evidence_witness :
  @HarmlessInspector (@RestartManagerHiveLockInspector sample_extern) /\
  wpM (@overseer sample_entry_codec sample_metadata_codec (se_directory (snapshot_engine sample_repair_engine))
         (sample_reset false))
    (@execute_plan 300 sample_extern sample_entry_codec sample_metadata_codec
       (@RestartManagerHiveLockInspector sample_extern) sample_repair_engine (sample_reset false) false)
    (fun _ _ _ => True) {| memory_buffer := []; buffer_poisoned := false; snapshot_sequence := 0 |}
    nothing_overseen.
Proof.
  split; [apply restart_manager_harmless|].
  apply (@execute_plan_evidence 300 sample_extern sample_entry_codec sample_metadata_codec
           (@RestartManagerHiveLockInspector sample_extern) (@restart_manager_harmless sample_extern)).
Defined.

(** ** Rollback attempts everything *)
Definition failures {T} (f : T -> result str unit) (items : list T) : list str :=
  omap (fun item => result_err (f item)) items.
Lemma attempt_all_visits {E T L} (f : T -> result str unit) (items visited : list T) (errors : list str) (l : L) :
  attempt_all (S:=list T * L) (E:=E) (fun item s => Ret (f item, (s.1 ++ [item], s.2))) items errors (visited, l)
  = Ret (Ok (errors ++ failures f items), (visited ++ items, l)).
Proof.
  revert visited errors. induction items as [|item items IH]; intros visited errors; simpl.
  { by rewrite !app_nil_r. }
  unfold mbind, attempt. simpl. rewrite IH. destruct (f item); simpl; by rewrite <- ?app_assoc.
Qed.

(** A failed restoration never stops the others.  [attempt_all_then_audit]
    calls the restoration of every item once, in order, whichever fail; audits
    after all of them, with every error so far; and returns the errors it was
    given, then those of the items in order, then the audit's own. *)
Theorem attempt_all_then_audit_attempts {E T} (f : T -> result str unit) (judge : list str -> result str unit)
    (items : list T) (errors : list str) :
  attempt_all_then_audit (S:=list T * option (list str)) (E:=E) items errors
    (fun item s => Ret (f item, (s.1 ++ [item], s.2)))
    (fun all s => Ret (judge all, (s.1, Some all))) ([], None)
  = let all := errors ++ failures f items in
    Ret (Ok (all ++ match judge all with Ok _ => [] | Err error => [error] end), (items, Some all)).
Proof.
  unfold attempt_all_then_audit, mbind. rewrite attempt_all_visits. simpl.
  destruct (judge _); simpl; by rewrite ?app_nil_r.
Qed.

(** ** Valid SIDs *)
Definition sid_char (c : Z) : Prop := c = 83%Z \/ c = DASH \/ is_ascii_digit c = true.

Lemma Forall_join {A} (P : A -> Prop) sep ls :
  Forall P sep -> Forall (Forall P) ls -> Forall P (join sep ls).
Proof.
  intros Hs Hl. induction Hl as [|l ls Hl Hls IH]; simpl; [done|]. destruct ls; [done|].
  apply Forall_app. split; [done|]. apply Forall_app. by split.
Qed.

Lemma valid_sid_chars value : is_valid_sid value = true -> Forall sid_char value.
Proof.
  intros Hvalid. apply andb_prop in Hvalid as [Hp Hparts]. apply starts_with_spec in Hp as [rest Hv].
  rewrite <- (join_split_on DASH value). fold (split_char DASH value) in *.
  assert (exists parts, split_char DASH value = [83%Z] :: parts) as [parts Hsplit].
  { rewrite Hv. eexists. by apply (split_on_app_sep _ [83%Z]); repeat constructor. }
  rewrite Hsplit in *. apply Forall_join; [repeat constructor; by right; left|].
  constructor; [repeat constructor; by left|]. simpl in Hparts. rewrite drop_0 in Hparts.
  apply Forall_forall. intros part Hpart. apply Forall_forall. intros c Hc.
  rewrite forallb_forall in Hparts. apply list_elem_of_In in Hpart. specialize (Hparts _ Hpart).
  apply andb_prop in Hparts as [_ Hd]. rewrite forallb_forall in Hd. right. right.
  apply Hd. by apply list_elem_of_In.
Qed.

(** A SID that passes validation is made of the letter S, dashes and digits
    only, so the names of the keys a repair opens and renames hold no path
    separator, and the [.bak] name of a SID is never itself a valid SID. *)
Theorem is_valid_sid_confined (value : str) (Hvalid : is_valid_sid value = true) :
  Forall sid_char value /\ ~ BACKSLASH ∈ value /\ is_valid_sid (bak_name_of value) = false.
Proof.
  pose proof (valid_sid_chars _ Hvalid) as Hall. split_and!; [done|..].
  - intros Hb. rewrite Forall_forall in Hall. by destruct (Hall _ Hb) as [|[|]].
  - apply not_true_iff_false. intros Hbak. apply valid_sid_chars, Forall_app in Hbak as [_ Hbak].
    inversion Hbak as [|? ? Hdot]. by destruct Hdot as [|[|]].
Qed.
Lemma is_valid_sid_confined_witness :
  is_valid_sid ($"S-1-5-21-1-1001") = true /\ ~ BACKSLASH ∈ $"S-1-5-21-1-1001".
Proof. split; [reflexivity|]. by apply (is_valid_sid_confined ($"S-1-5-21-1-1001") eq_refl). Defined.
