(* ===== verification/RepairSpec.v ===== *)
(** * RepairSpec: what a repair does to the profile list

    The steps of a repair and their undoing, against a model of the keys below
    [ProfileList].  [registry_laws] states what Windows documents of the calls
    they make: a key is opened, renamed, read and written by name and handle, a
    call that fails changes nothing, any call may fail, and names are compared
    up to a folding of case.  The abstract specification is a renaming of keys
    in a finite map. *)

From stdpp Require Import base list gmap fin_maps strings.
From S2P Require Import Prelude Text Effects Models Win32 Registry Security Storage Journal Snapshot Repair.

(** ** The model *)
Definition values : Type := gmap wide (Z * list Z).
Record hive_state : Type := { keys : gmap wide values; handles : gmap Z wide }.

(** What the model takes from the system: the folding of names, and the length
    of the expansion of a string. *)
Class RegistryModel : Type := { fold_name : wide -> wide; expansion : wide -> Z }.
Class FoldsNames `{RegistryModel} : Prop :=
  fold_length : forall w, length (fold_name w) = length w.

Section Laws.
Context `{RegistryModel} (profile_list : Z).

Definition name_of (name : str) : wide := fold_name (to_wide_null name).

Definition rename_key {V} (old new : wide) (m : gmap wide V) : gmap wide V :=
  match m !! old with Some v => <[new := v]> (delete old m) | None => m end.
Definition renamed_handle (old new name : wide) : wide := if bool_decide (name = old) then new else name.

(** Permitted calls: children of the profile list by its handle, and values by
    open handles. *)
Definition registry_permitted (a : sys) (g : hive_state) : Prop :=
  match a with
  | RegOpenKeyExW parent _ _ | RegRenameKey parent _ _ => parent = profile_list
  | RegCloseKey hkey | RegQueryValueExW hkey _ _ | RegSetValueExW hkey _ _ _ =>
      exists name, handles g !! hkey = Some name
  | UtcNow | ExpandEnvironmentStringsW _ _ | GetLastError => True
  | _ => False
  end.

Definition registry_answers (a : sys) (g : hive_state) : sys_resp a -> hive_state -> Prop :=
  match a return sys_resp a -> hive_state -> Prop with
  | RegOpenKeyExW _ subkey _ => fun x g' =>
      (x.1 = ERROR_SUCCESS /\ is_Some (keys g !! fold_name subkey) /\ x.2 <> 0%Z /\
       predefined_root x.2 = false /\ handles g !! x.2 = None /\
       g' = {| keys := keys g; handles := <[x.2 := fold_name subkey]> (handles g) |}) \/
      (x.1 = ERROR_FILE_NOT_FOUND /\ keys g !! fold_name subkey = None /\ g' = g) \/
      (x.1 <> ERROR_SUCCESS /\ x.1 <> ERROR_FILE_NOT_FOUND /\ g' = g)
  | RegCloseKey hkey => fun _ g' => g' = {| keys := keys g; handles := delete hkey (handles g) |}
  | RegRenameKey _ old new => fun x g' =>
      (x = ERROR_SUCCESS /\ is_Some (keys g !! fold_name old) /\ keys g !! fold_name new = None /\
       g' = {| keys := rename_key (fold_name old) (fold_name new) (keys g);
               handles := renamed_handle (fold_name old) (fold_name new) <$> handles g |}) \/
      (x <> ERROR_SUCCESS /\ g' = g)
  | RegSetValueExW hkey name type data => fun x g' =>
      (x = ERROR_SUCCESS /\
       exists key vs, handles g !! hkey = Some key /\ keys g !! key = Some vs /\
         g' = {| keys := <[key := <[fold_name name := (type, data)]> vs]> (keys g); handles := handles g |}) \/
      (x <> ERROR_SUCCESS /\ g' = g)
  | RegQueryValueExW hkey name capacity => fun x g' =>
      g' = g /\
      (q_status x = ERROR_SUCCESS ->
       exists key vs type data, handles g !! hkey = Some key /\ keys g !! key = Some vs /\
         vs !! fold_name name = Some (type, data) /\ q_type x = type /\
         q_size x = Z.of_nat (length data) /\
         (forall c, capacity = Some c -> q_bytes x = data /\ (Z.of_nat (length data) <= c)%Z))
  | ExpandEnvironmentStringsW source _ => fun x g' =>
      g' = g /\ (x.1 = 0%Z \/ x.1 = expansion source)
  | _ => fun _ g' => g' = g
  end.
Definition registry_laws : protocol hive_state :=
  @Protocol sys_signature hive_state registry_permitted registry_answers False.

(** ** The specification *)
Definition counter_names : list wide := [name_of VAL_STATE; name_of VAL_REF_COUNT].

(** Two values maps that differ at most in the two counters. *)
Definition same_but_counters (vs vs' : values) : Prop :=
  forall n, n ∉ counter_names -> vs' !! n = vs !! n.
(** Two profile lists that differ at most in the counters of one key. *)
Definition counters_only (key : wide) (K K' : gmap wide values) : Prop :=
  forall n, match K !! n, K' !! n with
            | Some vs, Some vs' => if bool_decide (n = key) then same_but_counters vs vs' else vs' = vs
            | None, None => True
            | _, _ => False
            end.

(** The renames a mutation record stands for. *)
Definition apply_mutation (canonical : str) (mutation : RegistryMutation) (K : gmap wide values)
    : gmap wide values :=
  let K1 := match canonical_backup mutation with
            | Some backup => rename_key (name_of canonical) (name_of backup) K
            | None => K
            end in
  if bak_moved mutation then rename_key (name_of (bak_name_of canonical)) (name_of canonical) K1 else K1.

(** The record is one the steps can leave on [K]: a backup has a name of its
    own, the canonical key was there if it was moved aside, and absent or moved
    aside if the [.bak] key took its place. *)
Definition recorded (canonical : str) (mutation : RegistryMutation) (K : gmap wide values) : Prop :=
  match canonical_backup mutation with
  | Some backup =>
      name_of backup <> name_of canonical /\ name_of backup <> name_of (bak_name_of canonical) /\
      is_Some (K !! name_of canonical) /\ K !! name_of backup = None
  | None => bak_moved mutation = true -> K !! name_of canonical = None
  end /\
  (bak_moved mutation = true -> is_Some (K !! name_of (bak_name_of canonical))).

(** The state a record describes, reached from [K]. *)
Definition mutated (canonical : str) (mutation : RegistryMutation) (K K' : gmap wide values) : Prop :=
  recorded canonical mutation K /\
  counters_only (name_of canonical) (apply_mutation canonical mutation K) K'.

(** What a successful repair leaves. *)
Definition repaired (plan : RepairPlan) (mutation : RegistryMutation) (K K' : gmap wide values) : Prop :=
  let canonical := rp_canonical_sid plan in
  bak_moved mutation = fix_bak plan /\
  (canonical_backup mutation = None <-> fix_bak plan = false \/ K !! name_of canonical = None) /\
  (fix_bak plan = true -> K' !! name_of (bak_name_of canonical) = None) /\
  (reset_state plan = false -> K' = apply_mutation canonical mutation K) /\
  exists vs, K' !! name_of canonical = Some vs /\
    (reset_state plan = true ->
     vs !! name_of VAL_STATE = Some (REG_DWORD, u32_le 0) /\
     vs !! name_of VAL_REF_COUNT = Some (REG_DWORD, u32_le 0)).
End Laws.

Section Rules.
Context `{Fuel} `{Extern} `{RegistryModel} (profile_list : Z).
Abbreviation lawful_registry := (registry_laws profile_list).
Context {S : Type}.

Lemma hive_eta g hs : hs = handles g -> {| keys := keys g; handles := hs |} = g.
Proof. intros ->. by destruct g. Qed.

Lemma wp_close_opened {E} hkey name (s : S) g Q :
  hkey <> 0%Z -> predefined_root hkey = false -> handles g !! hkey = Some name ->
  Q (Ok tt) s {| keys := keys g; handles := delete hkey (handles g) |} ->
  wpM lawful_registry (close_key (E:=E) hkey) Q s g.
Proof.
  intros Hz Hp Hh HQ. unfold close_key. destruct (Z.eqb_spec hkey 0); [done|]. rewrite Hp. simpl.
  wp_call; [by exists name|]. by intros [] g' ->.
Qed.

(** Opening a child, running a body on its handle and closing it. *)
Lemma wp_using_child {A} name sam (body : Z -> M S RepairError A) Q s g :
  (forall hkey, handles g !! hkey = None -> is_Some (keys g !! name_of name) ->
   wpM lawful_registry (body hkey)
     (fun r s' g' => handles g' = <[hkey := name_of name]> (handles g) /\
        Q r s' {| keys := keys g'; handles := handles g |}) s
     {| keys := keys g; handles := <[hkey := name_of name]> (handles g) |}) ->
  (forall e, Q (Err e) s g) ->
  wpM lawful_registry (using_key (reg (open_subkey profile_list name sam)) body) Q s g.
Proof.
  intros Hbody Herr. apply wpM_bind, wpM_map_err, wpM_bind. wp_call; [done|]. intros [status hkey] g' Hx.
  apply wpM_lift. simpl in Hx.
  destruct Hx as [(-> & Hk & Hz & Hp & Hf & ->)|[(-> & Hk & ->)|(Hs & _ & ->)]]; unfold owned_key; simpl.
  - destruct (Z.eqb_spec hkey 0); [done|]. simpl. apply wpM_defer.
    eapply wpM_mono; [by apply Hbody|]. intros r s' g' [Hh HQ].
    eapply (wp_close_opened _ (name_of name)); [done..| |].
    + rewrite Hh. by rewrite lookup_insert_eq.
    + rewrite Hh, delete_insert_id by done. done.
  - apply Herr.
  - destruct (Z.eqb_spec status ERROR_SUCCESS); [done|]. simpl. apply Herr.
Qed.

Lemma wp_subkey_exists name (s : S) g :
  wpM lawful_registry (subkey_exists profile_list name)
    (fun r s' g' => s' = s /\ g' = g /\
       match r with Ok b => b = bool_decide (is_Some (keys g !! name_of name)) | Err _ => True end) s g.
Proof.
  apply wpM_bind, wpM_attempt, wpM_bind. wp_call; [done|]. intros [status hkey] g' Hx.
  apply wpM_lift. simpl in Hx.
  destruct Hx as [(-> & Hk & Hz & Hp & Hf & ->)|[(-> & Hk & ->)|(Hs & Hn & ->)]]; unfold owned_key; simpl.
  - destruct (Z.eqb_spec hkey 0); [done|].
    apply wpM_bind, (wp_close_opened _ (name_of name)); simpl; [done..|by rewrite lookup_insert_eq|].
    apply wpM_ret. split; [done|]. split.
    + apply hive_eta. by rewrite delete_insert_id.
    + by rewrite bool_decide_true.
  - apply wpM_ret. split_and!; [done..|]. rewrite bool_decide_false; [done|]. unfold name_of. rewrite Hk. by intros [].
  - destruct (Z.eqb_spec status ERROR_SUCCESS); [done|].
    repeat (case_match; try (by apply wpM_throw)). by subst.
Qed.

Lemma wp_rename_subkey old new (s : S) g :
  wpM lawful_registry (rename_subkey profile_list old new)
    (fun r s' g' => s' = s /\
       match r with
       | Ok _ => is_Some (keys g !! name_of old) /\ keys g !! name_of new = None /\
                 g' = {| keys := rename_key (name_of old) (name_of new) (keys g);
                         handles := renamed_handle (name_of old) (name_of new) <$> handles g |}
       | Err _ => g' = g
       end) s g.
Proof.
  apply wpM_bind. wp_call; [done|]. intros status g' Hx. apply wpM_lift. unfold status_result. simpl in Hx.
  destruct Hx as [(-> & Ho & Hn & ->)|[Hs ->]]; simpl; [done|].
  destruct (Z.eqb_spec status ERROR_SUCCESS); done.
Qed.

Lemma wp_set_value_u32 hkey key vs name n (s : S) g :
  handles g !! hkey = Some key -> keys g !! key = Some vs ->
  wpM lawful_registry (set_value_u32 hkey name n)
    (fun r s' g' => s' = s /\
       g' = match r with
            | Ok _ => {| keys := <[key := <[name_of name := (REG_DWORD, u32_le n)]> vs]> (keys g);
                         handles := handles g |}
            | Err _ => g
            end) s g.
Proof.
  intros Hh Hk. apply wpM_bind. wp_call; [by exists key|]. intros status g' Hx. apply wpM_lift.
  unfold status_result. simpl in Hx.
  destruct Hx as [(-> & key' & vs' & Hh' & Hk' & ->)|[Hs ->]]; simpl; [by simplify_eq|].
  destruct (Z.eqb_spec status ERROR_SUCCESS); done.
Qed.

Lemma wp_query_value_u32 hkey key name (s : S) g :
  handles g !! hkey = Some key ->
  wpM lawful_registry (query_value_u32 hkey name) (fun _ s' g' => s' = s /\ g' = g) s g.
Proof.
  intros Hh. apply wpM_bind. wp_call; [by exists key|]. intros answer g' [-> _].
  repeat case_match; by first [apply wpM_ret|apply wpM_throw].
Qed.

Lemma wp_expand_environment_string value (s : S) g :
  0 < (fuel : nat) ->
  wpM lawful_registry (expand_environment_string value) (fun _ s' g' => s' = s /\ g' = g) s g.
Proof.
  intros Hf. apply wpM_bind. wp_call; [done|]. intros [required buffer] g' [-> Hr]. simpl in Hr.
  destruct (Z.eqb_spec required 0) as [->|Hn].
  { apply wpM_bind. wp_call; [done|]. by intros code g' ->. }
  destruct Hr as [|Hr]; [done|]. destruct (fuel : nat) as [|turns]; [lia|]. simpl.
  apply wpM_bind. wp_call; [done|]. intros [written buffer'] g' [-> Hw]. simpl in Hw.
  destruct (Z.eqb_spec written 0) as [->|Hn'].
  { apply wpM_bind. wp_call; [done|]. by intros code g' ->. }
  destruct Hw as [|Hw]; [done|]. rewrite (proj2 (Z.ltb_ge _ _)) by lia. by apply wpM_lift.
Qed.
Lemma wp_query_value_string hkey key name (s : S) g :
  0 < (fuel : nat) -> handles g !! hkey = Some key ->
  wpM lawful_registry (query_value_string hkey name) (fun _ s' g' => s' = s /\ g' = g) s g.
Proof.
  intros Hf Hh. apply wpM_bind. wp_call; [by exists key|]. intros first g' [-> _].
  repeat (case_match; [by apply wpM_throw|]).
  case_match; [by case_match; apply wpM_throw|]. case_match; [by apply wpM_throw|].
  apply wpM_bind. wp_call; [by exists key|]. intros second g' [-> _].
  case_match; [by apply wpM_throw|]. apply wpM_bind, wpM_lift.
  case_match; [|done]. case_match; [by apply wp_expand_environment_string|by apply wpM_ret].
Qed.
End Rules.

(** ** Names *)
Section Names.
Context `{Extern} `{RegistryModel} `{!FoldsNames}.

Lemma name_of_length name : length (name_of name) = Datatypes.S (length (encode_utf16 name)).
Proof. unfold name_of. rewrite fold_length. unfold to_wide_null, wide_null. rewrite length_app. simpl. lia. Qed.
Lemma name_of_ne a b : length (encode_utf16 a) <> length (encode_utf16 b) -> name_of a <> name_of b.
Proof. intros Hl He. apply (f_equal length) in He. rewrite !name_of_length in He. lia. Qed.

Lemma bak_ne canonical : name_of (bak_name_of canonical) <> name_of canonical.
Proof. apply name_of_ne. unfold bak_name_of. rewrite encode_utf16_app, length_app. simpl. lia. Qed.
Lemma backup_ne canonical now : name_of (backup_name_of canonical now) <> name_of canonical.
Proof.
  apply name_of_ne. unfold backup_name_of. rewrite !encode_utf16_app, !length_app. simpl. lia.
Qed.
Lemma backup_ne_bak canonical now :
  name_of (backup_name_of canonical now) <> name_of (bak_name_of canonical).
Proof.
  apply name_of_ne. unfold backup_name_of, bak_name_of. rewrite !encode_utf16_app, !length_app. simpl. lia.
Qed.
Lemma counters_ne : name_of VAL_STATE <> name_of VAL_REF_COUNT.
Proof. by apply name_of_ne. Qed.
End Names.

(** ** Renames of maps *)
Section Renames.
Context {V : Type}.
Implicit Types (m : gmap wide V).

Lemma rename_old old new m : old <> new -> m !! old <> None -> rename_key old new m !! old = None.
Proof.
  intros Hn Ho. unfold rename_key. destruct (m !! old); [|done].
  rewrite lookup_insert_ne by done. apply lookup_delete_eq.
Qed.
Lemma rename_new old new m v : m !! old = Some v -> rename_key old new m !! new = Some v.
Proof. intros Ho. unfold rename_key. rewrite Ho. apply lookup_insert_eq. Qed.
Lemma rename_other old new n m : n <> old -> n <> new -> rename_key old new m !! n = m !! n.
Proof.
  intros Ho Hn. unfold rename_key. destruct (m !! old); [|done].
  by rewrite lookup_insert_ne, lookup_delete_ne.
Qed.
(** A rename onto a free name is undone by the rename back. *)
Lemma rename_back old new m :
  old <> new -> is_Some (m !! old) -> m !! new = None -> rename_key new old (rename_key old new m) = m.
Proof.
  intros Hne [v Ho] Hn. apply map_eq. intros n. unfold rename_key. rewrite Ho, lookup_insert_eq.
  destruct (decide (n = old)) as [->|]; [by rewrite lookup_insert_eq|].
  rewrite lookup_insert_ne by done. destruct (decide (n = new)) as [->|]; [by rewrite lookup_delete_eq|].
  by rewrite lookup_delete_ne, lookup_insert_ne, lookup_delete_ne by done.
Qed.
End Renames.

Section Counters.
Context `{RegistryModel}.

#[export] Instance same_but_counters_preorder : PreOrder same_but_counters.
Proof.
  split; [done|]. intros a b c Hab Hbc n Hn. by rewrite Hbc, Hab.
Qed.
Lemma counters_only_refl key K : counters_only key K K.
Proof. intros n. destruct (K !! n); [|done]. by case_bool_decide. Qed.
Lemma counters_only_lookup key K K' n :
  counters_only key K K' -> is_Some (K' !! n) <-> is_Some (K !! n).
Proof.
  intros Hc. specialize (Hc n). destruct (K !! n), (K' !! n); by try (split; intros []).
Qed.
Lemma counters_only_None key K K' n : counters_only key K K' -> K !! n = None -> K' !! n = None.
Proof. intros Hc Hn. specialize (Hc n). rewrite Hn in Hc. by destruct (K' !! n). Qed.
Lemma counters_only_trans key K K' K'' :
  counters_only key K K' -> counters_only key K' K'' -> counters_only key K K''.
Proof.
  intros H1 H2 n. specialize (H1 n). specialize (H2 n).
  destruct (K !! n), (K' !! n), (K'' !! n); try done. case_bool_decide; [by etrans|]. congruence.
Qed.
Lemma counters_only_insert key K vs vs' :
  K !! key = Some vs -> same_but_counters vs vs' -> counters_only key K (<[key := vs']> K).
Proof.
  intros Hk Hs n. destruct (decide (n = key)) as [->|Hne].
  - rewrite Hk, lookup_insert_eq. by rewrite bool_decide_true.
  - rewrite lookup_insert_ne by done. destruct (K !! n); [|done]. by rewrite bool_decide_false.
Qed.
Lemma counters_only_absent key K K' : K !! key = None -> counters_only key K K' -> K' = K.
Proof.
  intros Hk Hc. apply map_eq. intros n. specialize (Hc n). destruct (decide (n = key)) as [->|].
  - rewrite Hk in *. by destruct (K' !! key).
  - destruct (K !! n), (K' !! n); try done. rewrite bool_decide_false in Hc by done. by subst.
Qed.
(** Renaming moves the key whose counters may differ. *)
Lemma counters_only_rename old new K K' :
  old <> new -> K !! new = None ->
  counters_only old K K' -> counters_only new (rename_key old new K) (rename_key old new K').
Proof.
  intros Hne Hnew Hc n. pose proof (Hc old) as Hold. pose proof (Hc n) as Hn. unfold rename_key.
  destruct (K !! old) as [vs|] eqn:Ho, (K' !! old) as [vs'|] eqn:Ho'; try done.
  - rewrite bool_decide_true in Hold by done.
    destruct (decide (n = new)) as [->|]; [by rewrite !lookup_insert_eq, bool_decide_true|].
    rewrite !lookup_insert_ne by done. destruct (decide (n = old)) as [->|]; [by rewrite !lookup_delete_eq|].
    rewrite !lookup_delete_ne by done. destruct (K !! n), (K' !! n); try done.
    rewrite bool_decide_false in Hn by done. by rewrite bool_decide_false.
  - destruct (K !! n) as [w|] eqn:Hkn, (K' !! n) as [w'|] eqn:Hkn'; try done.
    destruct (decide (n = old)) as [->|]; [congruence|]. rewrite bool_decide_false in Hn by done.
    destruct (decide (n = new)) as [->|]; [congruence|]. by rewrite bool_decide_false.
Qed.
(** A rename of other keys keeps it. *)
Lemma counters_only_rename_other key old new K K' :
  key <> old -> key <> new ->
  counters_only key K K' -> counters_only key (rename_key old new K) (rename_key old new K').
Proof.
  intros Ho Hn Hc n. pose proof (Hc old) as Hold. pose proof (Hc n) as Hcn. unfold rename_key.
  rewrite bool_decide_false in Hold by done.
  destruct (K !! old) as [vs|] eqn:Eo, (K' !! old) as [vs'|] eqn:Eo'; try done. subst vs'.
  destruct (decide (n = new)) as [->|]; [by rewrite !lookup_insert_eq, bool_decide_false|].
  rewrite !lookup_insert_ne by done. destruct (decide (n = old)) as [->|]; [by rewrite !lookup_delete_eq|].
  by rewrite !lookup_delete_ne.
Qed.
End Counters.

(** ** The steps *)
Section Steps.
Context `{Fuel} `{Extern} `{RegistryModel} `{!FoldsNames} (profile_list : Z).
Abbreviation lawful_registry := (registry_laws profile_list).
Implicit Types (g : hive_state) (K : gmap wide values).

Lemma wp_move_canonical_aside canonical g :
  handles g = ∅ ->
  wpM lawful_registry (move_canonical_aside profile_list canonical)
    (fun r mutation g' => handles g' = ∅ /\ bak_moved mutation = false /\
       recorded canonical mutation (keys g) /\ keys g' = apply_mutation canonical mutation (keys g) /\
       (is_ok r = true -> canonical_backup mutation = None <-> keys g !! name_of canonical = None))
    no_mutation g.
Proof.
  intros Hh. unfold move_canonical_aside.
  apply wpM_bind, wpM_map_err. eapply wpM_mono; [apply wp_subkey_exists|].
  intros [b|e] s1 g1 (-> & -> & Hb); simpl; [subst b|done].
  case_bool_decide as Hc; [|apply wpM_ret; split_and!; try done; intros _; split; [|done];
    intros _; apply eq_None_not_Some, Hc].
  apply wpM_bind. wp_call; [done|]. intros now g2 ->. cbv beta.
  apply wpM_bind, wpM_map_err. eapply wpM_mono; [apply wp_subkey_exists|].
  intros [b|e] s3 g3 (-> & -> & Hb); simpl; [subst b|done].
  case_bool_decide as Hf; [by apply wpM_throw|].
  apply wpM_bind, wpM_map_err. eapply wpM_mono; [apply wp_rename_subkey|].
  intros [[]|e] s4 g4 [-> Hr]; simpl; [|by subst g4].
  destruct Hr as (Ho & Hn & ->). apply wpM_bind, wpM_get, wpM_put. simpl.
  rewrite Hh, fmap_empty. split_and!; try done.
  - split; [|done]. split_and!; [apply backup_ne|apply backup_ne_bak|done..].
  - intros _. split; [done|]. intros E. destruct Ho as [v Ho]. congruence.
Qed.

Lemma wp_promote_bak canonical K mutation g :
  handles g = ∅ -> bak_moved mutation = false -> recorded canonical mutation K ->
  keys g = apply_mutation canonical mutation K ->
  wpM lawful_registry (promote_bak profile_list canonical)
    (fun r mutation' g' => handles g' = ∅ /\ recorded canonical mutation' K /\
       keys g' = apply_mutation canonical mutation' K /\
       canonical_backup mutation' = canonical_backup mutation /\
       (is_ok r = true -> bak_moved mutation' = true))
    mutation g.
Proof.
  intros Hh Hm [Hr Hb] Hk. apply wpM_bind, wpM_map_err. eapply wpM_mono; [apply wp_rename_subkey|].
  intros [[]|e] s1 g1 [-> Hx]; simpl.
  2: { subst g1. by split_and!. }
  destruct Hx as (Ho & Hn & ->). apply wpM_bind, wpM_get, wpM_put. simpl.
  rewrite Hh, fmap_empty. unfold apply_mutation in *. rewrite Hm in Hk. simpl. rewrite Hk in *.
  split_and!; try done. unfold recorded in *. simpl.
  destruct (canonical_backup mutation) as [backup|]; [|by split].
  destruct Hr as (Hb1 & Hb2 & Hb3 & Hb4). split; [done|]. intros _.
  rewrite rename_other in Ho; [done|apply bak_ne|by apply not_eq_sym].
Qed.

(** The canonical key is there once the [.bak] key has its name. *)
Lemma promoted canonical mutation K :
  recorded canonical mutation K -> bak_moved mutation = true ->
  apply_mutation canonical mutation K !! name_of canonical = K !! name_of (bak_name_of canonical) /\
  apply_mutation canonical mutation K !! name_of (bak_name_of canonical) = None.
Proof.
  intros [Hr Hb] Hm. specialize (Hb Hm) as [vs Hvs]. unfold apply_mutation. rewrite Hm.
  assert ((match canonical_backup mutation with
           | Some backup => rename_key (name_of canonical) (name_of backup) K
           | None => K end) !! name_of (bak_name_of canonical) = Some vs) as E.
  { destruct (canonical_backup mutation) as [backup|]; [|done]. destruct Hr as (Hb1 & Hb2 & _).
    rewrite rename_other; [done|apply bak_ne|by apply not_eq_sym]. }
  split; [rewrite Hvs; by apply rename_new|]. apply rename_old; [apply bak_ne|congruence].
Qed.

Lemma wp_reset_counters canonical (mutation : RegistryMutation) g :
  handles g = ∅ ->
  wpM lawful_registry (reset_counters profile_list canonical)
    (fun r mutation' g' => handles g' = ∅ /\ mutation' = mutation /\
       counters_only (name_of canonical) (keys g) (keys g') /\
       (is_ok r = true -> exists vs, keys g' !! name_of canonical = Some vs /\
          vs !! name_of VAL_STATE = Some (REG_DWORD, u32_le 0) /\
          vs !! name_of VAL_REF_COUNT = Some (REG_DWORD, u32_le 0)))
    mutation g.
Proof.
  intros Hh. apply wp_using_child; [|intros e; split_and!; try done; apply counters_only_refl].
  intros hkey Hf [vs Hvs]. apply wpM_bind, wpM_map_err.
  eapply wpM_mono; [apply (wp_set_value_u32 _ hkey (name_of canonical) vs)|];
    [simpl; by rewrite lookup_insert_eq|done|].
  intros r1 s1 g1 [-> Hg1]. destruct r1 as [[]|e]; simpl in *; subst g1; simpl.
  2: { split_and!; try done. apply counters_only_refl. }
  set (vs1 := <[name_of VAL_STATE := (REG_DWORD, u32_le 0)]> vs).
  assert (counters_only (name_of canonical) (keys g) (<[name_of canonical := vs1]> (keys g))) as Hc1.
  { apply (counters_only_insert _ _ vs); [done|]. intros n Hn. apply lookup_insert_ne.
    unfold counter_names in Hn. set_solver. }
  apply wpM_map_err.
  eapply wpM_mono; [apply (wp_set_value_u32 _ hkey (name_of canonical) vs1)|];
    simpl; [by rewrite lookup_insert_eq|by rewrite lookup_insert_eq|].
  intros r2 s2 g2 [-> Hg2]. destruct r2 as [[]|e]; simpl in *; subst g2; simpl; [|by split_and!].
  rewrite insert_insert_eq. split_and!; try done.
  - apply (counters_only_insert _ _ vs); [done|]. intros n Hn.
    unfold counter_names in Hn. etrans; apply lookup_insert_ne; set_solver.
  - intros _. eexists. split; [apply lookup_insert_eq|]. split; [|apply lookup_insert_eq].
    etrans; [apply lookup_insert_ne, not_eq_sym, counters_ne|apply lookup_insert_eq].
Qed.

Lemma wp_verify plan (mutation : RegistryMutation) g :
  0 < (fuel : nat) -> handles g = ∅ ->
  wpM lawful_registry (verify plan profile_list)
    (fun r mutation' g' => g' = g /\ mutation' = mutation /\
       (is_ok r = true -> is_Some (keys g !! name_of (rp_canonical_sid plan)) /\
          (fix_bak plan = true -> keys g !! name_of (bak_name_of (rp_canonical_sid plan)) = None)))
    mutation g.
Proof.
  intros Hf Hh. unfold verify.
  apply wpM_bind, wpM_map_err. eapply wpM_mono; [apply wp_subkey_exists|].
  intros [b|e] s1 g1 (-> & -> & Hb); simpl; [subst b|done].
  case_bool_decide as Hc; simpl; [|by apply wpM_throw]. apply wpM_bind.
  eapply (wpM_mono _ _ (fun r s' g' => s' = mutation /\ g' = g /\
    match r with
    | Ok b => b = fix_bak plan && bool_decide (is_Some (keys g !! name_of (bak_name_of (rp_canonical_sid plan))))
    | Err _ => True end)).
  { destruct (fix_bak plan); [|by apply wpM_ret]. apply wpM_map_err.
    eapply wpM_mono; [apply wp_subkey_exists|]. by intros [b|e] s2 g2 (-> & -> & Hb). }
  intros [b|e] s2 g2 (-> & -> & Hb); [subst b|done].
  destruct (fix_bak plan && _) eqn:Hbak; [by apply wpM_throw|].
  apply wp_using_child; [|done]. intros hkey Hfree _.
  assert (forall r, is_ok (r : result RepairError unit) = true -> is_Some (keys g !! name_of (rp_canonical_sid plan)) /\
    (fix_bak plan = true -> keys g !! name_of (bak_name_of (rp_canonical_sid plan)) = None)) as Hpost.
  { intros r _. split; [done|]. intros E. rewrite E in Hbak. simpl in Hbak.
    apply bool_decide_eq_false in Hbak. by apply eq_None_not_Some. }
  apply wpM_bind, wpM_map_err.
  eapply wpM_mono; [apply (wp_query_value_string _ hkey (name_of (rp_canonical_sid plan))); [done|];
    simpl; by rewrite lookup_insert_eq|].
  intros [image|e] s3 g3 [-> ->]; simpl; [|split_and!; try done; by simpl; apply hive_eta].
  case_match; [apply wpM_throw; split_and!; try done; by simpl; apply hive_eta|].
  case_match; [|apply wpM_ret; split_and!; try done; [by simpl; apply hive_eta|apply (Hpost (Ok tt))]].
  apply wpM_bind, wpM_map_err. eapply wpM_mono; [apply (wp_query_value_u32 _ hkey (name_of (rp_canonical_sid plan)));
    simpl; by rewrite lookup_insert_eq|].
  intros [state|e] s4 g4 [-> ->]; simpl; [|split_and!; try done; by simpl; apply hive_eta].
  apply wpM_bind, wpM_map_err. eapply wpM_mono; [apply (wp_query_value_u32 _ hkey (name_of (rp_canonical_sid plan)));
    simpl; by rewrite lookup_insert_eq|].
  intros [count|e] s5 g5 [-> ->]; simpl; [|split_and!; try done; by simpl; apply hive_eta].
  case_match; [apply wpM_throw|apply wpM_ret]; split_and!; try done; try (by simpl; apply hive_eta).
  apply (Hpost (Ok tt)).
Qed.
End Steps.

Section Transaction.
Context `{Fuel} `{Extern} `{RegistryModel} `{!FoldsNames} (profile_list : Z).
Abbreviation lawful_registry := (registry_laws profile_list).
Implicit Types (g : hive_state) (K : gmap wide values).

(** The renames of the plan. *)
Lemma wp_fix_bak plan g :
  handles g = ∅ ->
  wpM lawful_registry
    (if fix_bak plan then
       do* move_canonical_aside profile_list (rp_canonical_sid plan) in
       promote_bak profile_list (rp_canonical_sid plan)
     else ret tt)
    (fun r mutation g' => handles g' = ∅ /\ recorded (rp_canonical_sid plan) mutation (keys g) /\
       keys g' = apply_mutation (rp_canonical_sid plan) mutation (keys g) /\
       (is_ok r = true -> bak_moved mutation = fix_bak plan /\
          (canonical_backup mutation = None <->
           fix_bak plan = false \/ keys g !! name_of (rp_canonical_sid plan) = None)))
    no_mutation g.
Proof.
  intros Hh. destruct (fix_bak plan).
  - apply wpM_bind. eapply wpM_mono; [by apply wp_move_canonical_aside|].
    intros [[]|e] m1 g1 (Hh1 & Hm & Hr & Hk & Hn); [|by split_and!].
    eapply wpM_mono; [by apply wp_promote_bak|].
    intros r m2 g2 (Hh2 & Hr2 & Hk2 & Hc2 & Hm2). split_and!; try done.
    intros Hok. split; [by apply Hm2|]. rewrite Hc2, (Hn eq_refl). naive_solver.
  - apply wpM_ret. split_and!; try done. intros _. split; [done|]. naive_solver.
Qed.

Lemma wp_reset plan K mutation g :
  handles g = ∅ -> keys g = apply_mutation (rp_canonical_sid plan) mutation K ->
  wpM lawful_registry
    (if reset_state plan then reset_counters profile_list (rp_canonical_sid plan) else ret tt)
    (fun r mutation' g' => handles g' = ∅ /\ mutation' = mutation /\
       counters_only (name_of (rp_canonical_sid plan)) (apply_mutation (rp_canonical_sid plan) mutation K) (keys g') /\
       (is_ok r = true ->
          (reset_state plan = false -> keys g' = apply_mutation (rp_canonical_sid plan) mutation K) /\
          (reset_state plan = true -> exists vs, keys g' !! name_of (rp_canonical_sid plan) = Some vs /\
             vs !! name_of VAL_STATE = Some (REG_DWORD, u32_le 0) /\
             vs !! name_of VAL_REF_COUNT = Some (REG_DWORD, u32_le 0))))
    mutation g.
Proof.
  intros Hh Hk. destruct (reset_state plan).
  - eapply wpM_mono; [by apply wp_reset_counters|]. intros r m g' (Hh' & -> & Hc & Hok).
    rewrite Hk in Hc. split_and!; try done. intros Hr. split; [done|]. intros _. by apply Hok.
  - apply wpM_ret. rewrite Hk. split_and!; try done. apply counters_only_refl.
Qed.

(** C1: the steps of a repair refine a renaming of the profile list.  For a
    registry that answers as documented, where any call may fail, and from any
    set of keys: every handle the steps open is closed again; at every exit,
    failures included, the mutation record describes exactly the renames that
    happened, and nothing else differs from the initial keys but the two
    counters of the canonical key; and success means that the [.bak] key
    replaced the canonical key, whose previous content is kept under the backup
    name, or that the counters are zero, as the plan asked. *)
Theorem execute_steps_refines (plan : RepairPlan) (g : hive_state)
    (Hfuel : 0 < (fuel : nat)) (Hclosed : handles g = ∅) :
  wpM lawful_registry (execute_steps plan profile_list)
    (fun r mutation g' =>
       handles g' = ∅ /\ mutated (rp_canonical_sid plan) mutation (keys g) (keys g') /\
       (is_ok r = true -> repaired plan mutation (keys g) (keys g')))
    no_mutation g.
Proof.
  unfold execute_steps. apply wpM_bind. eapply wpM_mono; [by apply wp_fix_bak|].
  intros r1 m1 g1 (Hh1 & Hr1 & Hk1 & Hok1). destruct r1 as [[]|e].
  2: { split_and!; try done. split; [done|]. rewrite Hk1. apply counters_only_refl. }
  apply wpM_bind. eapply wpM_mono; [by apply (wp_reset plan (keys g))|].
  intros r2 m2 g2 (Hh2 & -> & Hc2 & Hok2). destruct r2 as [[]|e]; [|by split_and!].
  eapply wpM_mono; [by apply wp_verify|]. intros r3 m3 g3 (-> & -> & Hok3). split_and!; try done.
  intros Hok. destruct (Hok1 eq_refl) as [Hm Hn], (Hok2 eq_refl) as [Hsame Hzero], (Hok3 Hok) as [[vs Hvs] Hbak].
  split_and!; try done. exists vs. split; [done|]. intros Hreset.
  destruct (Hzero Hreset) as (vs' & Hvs' & ? & ?). by simplify_eq.
Qed.

Lemma wp_undo_rename {E} inspect_message rename_message from to errors (s : AppState) g :
  handles g = ∅ -> is_Some (keys g !! name_of from) ->
  wpM lawful_registry (undo_rename (E:=E) profile_list inspect_message rename_message from to errors)
    (fun r _ g' => exists errors', r = Ok errors' /\ handles g' = ∅ /\
       ((errors' = errors /\ keys g' = rename_key (name_of from) (name_of to) (keys g)) \/
        (errors' <> [] /\ keys g' = keys g))) s g.
Proof.
  intros Hh Hfrom. apply wpM_bind, wpM_attempt. eapply wpM_mono; [apply wp_subkey_exists|].
  intros [b|e] s1 g1 (-> & -> & Hb); simpl.
  - subst b. rewrite bool_decide_true by done.
    apply wpM_bind, wpM_attempt. eapply wpM_mono; [apply wp_rename_subkey|].
    intros [[]|e] s2 g2 [-> Hx]; simpl; apply wpM_ret; eexists; (split; [done|]).
    + destruct Hx as (_ & _ & ->). simpl. rewrite Hh, fmap_empty. auto.
    + subst g2. split; [done|]. right. split; [|done]. by destruct errors.
  - apply wpM_ret. eexists. split; [done|]. split; [done|]. right. split; [|done]. by destruct errors.
Qed.

(** The key whose counters a failed repair may have reset, under its original
    name. *)
Definition touched_key (canonical : str) (mutation : RegistryMutation) : wide :=
  name_of (if bak_moved mutation then bak_name_of canonical else canonical).

(** Undoing the renames of a record on the state it describes. *)
Lemma undo_mutation canonical mutation K K' :
  mutated canonical mutation K K' ->
  let K1 := if bak_moved mutation then rename_key (name_of canonical) (name_of (bak_name_of canonical)) K' else K' in
  let K2 := match canonical_backup mutation with
            | Some backup => rename_key (name_of backup) (name_of canonical) K1
            | None => K1 end in
  counters_only (touched_key canonical mutation) K K2.
Proof.
  intros [[Hr Hb] Hc]. unfold apply_mutation in Hc. unfold touched_key. pose proof (bak_ne canonical) as Hbc.
  destruct (bak_moved mutation), (canonical_backup mutation) as [backup|]; simpl; [..|done].
  - destruct Hr as (Hn1 & Hn2 & Hcan & Hfree). specialize (Hb eq_refl). set (A := name_of canonical) in *.
    set (B := name_of (bak_name_of canonical)) in *. set (U := name_of backup) in *.
    rewrite <- (rename_back A U K) by done.
    apply counters_only_rename_other; [by apply not_eq_sym|done|].
    rewrite <- (rename_back B A (rename_key A U K)).
    + apply counters_only_rename; [by apply not_eq_sym| |done].
      apply rename_old; [done|]. rewrite rename_other by (done || by apply not_eq_sym). by destruct Hb as [? ->].
    + done.
    + by rewrite rename_other by (done || by apply not_eq_sym).
    + apply rename_old; [by apply not_eq_sym|]. by destruct Hcan as [? ->].
  - specialize (Hb eq_refl). specialize (Hr eq_refl).
    rewrite <- (rename_back (name_of (bak_name_of canonical)) (name_of canonical) K) by done.
    apply counters_only_rename; [by apply not_eq_sym| |done].
    apply rename_old; [done|]. by destruct Hb as [? ->].
  - destruct Hr as (Hn1 & Hn2 & Hcan & Hfree). apply counters_only_absent in Hc.
    + subst K'. rewrite rename_back by (done || by apply not_eq_sym). apply counters_only_refl.
    + apply rename_old; [by apply not_eq_sym|]. by destruct Hcan as [? ->].
Qed.

(** The key each undo renames is there. *)
Lemma mutated_canonical canonical mutation K K' :
  mutated canonical mutation K K' -> bak_moved mutation = true -> is_Some (K' !! name_of canonical).
Proof.
  intros [Hr Hc] Hm. rewrite (counters_only_lookup _ _ _ _ Hc).
  rewrite (proj1 (promoted _ _ _ Hr Hm)). by apply Hr.
Qed.
Lemma mutated_backup canonical mutation K K' backup :
  mutated canonical mutation K K' -> canonical_backup mutation = Some backup ->
  is_Some (K' !! name_of backup) /\ name_of backup <> name_of canonical /\
  name_of backup <> name_of (bak_name_of canonical).
Proof.
  intros [[Hr Hb] Hc] Hm. rewrite (counters_only_lookup _ _ _ _ Hc). unfold apply_mutation.
  rewrite Hm in *. destruct Hr as (Hn1 & Hn2 & [vs Hcan] & Hfree). split; [|done].
  assert (rename_key (name_of canonical) (name_of backup) K !! name_of backup = Some vs) as E
    by (by apply rename_new).
  destruct (bak_moved mutation); [|by rewrite E]. by rewrite rename_other, E.
Qed.

(** C2: rollback puts every key back.  From any state a repair can leave, as
    its record describes it, undoing the renames closes every handle it opens
    and either reports at least one error or leaves every key of the profile
    list under its original name with its original values, except the two
    counters of the key the repair was resetting (the snapshots restore
    those). *)
Theorem undo_renames_restores {E : Type} (canonical : str) (mutation : RegistryMutation)
    (initial : gmap wide values) (g : hive_state) (s : AppState)
    (Hclosed : handles g = ∅) (Hmutated : mutated canonical mutation initial (keys g)) :
  wpM lawful_registry (undo_renames (E:=E) profile_list canonical mutation)
    (fun r _ g' => handles g' = ∅ /\
       exists errors, r = Ok errors /\
         (errors = [] -> counters_only (touched_key canonical mutation) initial (keys g'))) s g.
Proof.
  pose proof (undo_mutation _ _ _ _ Hmutated) as Hundo. cbv zeta in Hundo.
  unfold undo_renames. apply wpM_bind.
  eapply (wpM_mono _ _ (fun r _ g' => exists errors', r = Ok errors' /\ handles g' = ∅ /\
    ((errors' = [] /\ keys g' = if bak_moved mutation
        then rename_key (name_of canonical) (name_of (bak_name_of canonical)) (keys g) else keys g) \/
     (errors' <> [] /\ keys g' = keys g)))).
  { destruct (bak_moved mutation) eqn:Hm; [|apply wpM_ret; eexists; eauto].
    apply wp_undo_rename; [done|]. by eapply mutated_canonical. }
  intros r s1 g1 (errors & -> & Hh1 & Hcase).
  destruct (canonical_backup mutation) as [backup|] eqn:Hbackup.
  2: { apply wpM_ret. split; [done|]. eexists. split; [done|].
       destruct Hcase as [[_ ->]|[Hne _]]; [by intros _|done]. }
  destruct (mutated_backup _ _ _ _ _ Hmutated Hbackup) as (Hsome & Hn1 & Hn2).
  eapply wpM_mono; [apply wp_undo_rename; [done|]|].
  { destruct Hcase as [[_ ->]|[_ ->]]; [|done]. destruct (bak_moved mutation); [|done].
    by rewrite rename_other. }
  intros r s2 g2 (errors' & -> & Hh2 & Hcase2). split; [done|]. eexists. split; [done|]. intros ->.
  destruct Hcase2 as [[<- ->]|[]]; [|done]. destruct Hcase as [[_ ->]|[]]; done.
Qed.
End Transaction.

(** ** A registry that answers so

    A concrete registry in which no call fails without reason: the laws hold of
    it, and the steps run on it. *)
#[local] Instance sample_model : RegistryModel :=
  {| fold_name := fun w => w; expansion := fun w => Z.of_nat (length w) |}.
#[local] Instance sample_folds : FoldsNames.
Proof. done. Qed.

Definition reserved_handles : gset Z :=
  {[0%Z; HKEY_LOCAL_MACHINE; HKEY_CURRENT_USER; HKEY_USERS; HKEY_CLASSES_ROOT; HKEY_CURRENT_CONFIG]}.
Definition next_handle (g : hive_state) : Z := fresh (dom (handles g) ∪ reserved_handles).
Definition value_at (g : hive_state) (hkey : Z) (name : wide) : option (Z * list Z) :=
  key ← handles g !! hkey; vs ← keys g !! key; vs !! name.

Definition sample_query (g : hive_state) (hkey : Z) (name : wide) (capacity : option Z) : query_answer :=
  match value_at g hkey name with
  | Some (type, data) =>
      match capacity with
      | Some c =>
          if (Z.of_nat (length data) <=? c)%Z
          then {| q_status := 0; q_type := type; q_bytes := data; q_size := Z.of_nat (length data) |}
          else {| q_status := ERROR_MORE_DATA; q_type := type; q_bytes := []; q_size := Z.of_nat (length data) |}
      | None => {| q_status := 0; q_type := type; q_bytes := []; q_size := Z.of_nat (length data) |}
      end
  | None => {| q_status := ERROR_FILE_NOT_FOUND; q_type := 0; q_bytes := []; q_size := 0 |}
  end.

Definition sample_step (a : sys) (g : hive_state) : option (sys_resp a * hive_state) :=
  match a return option (sys_resp a * hive_state) with
  | RegOpenKeyExW _ subkey _ => Some
      match keys g !! subkey with
      | Some _ => ((0%Z, next_handle g),
                   {| keys := keys g; handles := <[next_handle g := subkey]> (handles g) |})
      | None => ((ERROR_FILE_NOT_FOUND, 0%Z), g)
      end
  | RegCloseKey hkey => Some (tt, {| keys := keys g; handles := delete hkey (handles g) |})
  | RegRenameKey _ old new => Some
      match keys g !! old, keys g !! new with
      | Some _, None => (0%Z, {| keys := rename_key old new (keys g);
                                 handles := renamed_handle old new <$> handles g |})
      | _, _ => (5%Z, g)
      end
  | RegSetValueExW hkey name type data => Some
      match handles g !! hkey with
      | Some key =>
          match keys g !! key with
          | Some vs => (0%Z, {| keys := <[key := <[name := (type, data)]> vs]> (keys g); handles := handles g |})
          | None => (5%Z, g)
          end
      | None => (5%Z, g)
      end
  | RegQueryValueExW hkey name capacity => Some (sample_query g hkey name capacity, g)
  | UtcNow => Some (5%Z, g)
  | GetLastError => Some (0%Z, g)
  | ExpandEnvironmentStringsW source _ => Some ((Z.of_nat (length source), source), g)
  | _ => None
  end.

Lemma next_handle_fresh g :
  handles g !! next_handle g = None /\ next_handle g <> 0%Z /\ predefined_root (next_handle g) = false.
Proof.
  pose proof (is_fresh (dom (handles g) ∪ reserved_handles)) as Hf. fold (next_handle g) in Hf.
  apply not_elem_of_union in Hf as [Hd Hr]. split_and!.
  - by apply not_elem_of_dom.
  - intros E. rewrite E in Hr. unfold reserved_handles in Hr. set_solver.
  - unfold predefined_root. apply bool_decide_eq_false. unfold reserved_handles in Hr. set_solver.
Qed.

(** Every permitted call has an answer, and it is a documented one. *)
Lemma sample_step_lawful profile_list a g :
  registry_permitted profile_list a g ->
  exists x g', sample_step a g = Some (x, g') /\ registry_answers a g x g'.
Proof.
  intros Hp. destruct a; simpl in *; try done; try (eexists _, _; by split; [done|]).
  - destruct (keys g !! subkey) as [vs|] eqn:Hk; eexists _, _; (split; [done|]); simpl; [left|right; left]; [|done].
    destruct (next_handle_fresh g) as (? & ? & ?). by split_and!.
  - destruct Hp as [key Hk]. eexists _, _. split; [done|]. split; [done|]. unfold sample_query, value_at.
    rewrite Hk. simpl. destruct (keys g !! key) as [vs|] eqn:Hvs; simpl; [|done].
    destruct (vs !! name) as [[type data]|] eqn:Hv; simpl; [|done].
    destruct capacity as [c|]; [destruct (Z.leb_spec (Z.of_nat (length data)) c); [|done]|]; intros _;
      exists key, vs, type, data; split_and!; try done; by intros ? [= <-].
  - destruct Hp as [key Hk]. rewrite Hk.
    destruct (keys g !! key) as [vs|] eqn:Hvs; eexists _, _; (split; [done|]); simpl; [left|by right].
    split; [done|]. exists key, vs. by split_and!.
  - destruct (keys g !! old) as [vs|] eqn:Ho, (keys g !! new) as [vs'|] eqn:Hn; eexists _, _; (split; [done|]);
      simpl; try (by right). left. by split_and!.
  - eexists _, _. split; [done|]. split; [done|]. by right.
Qed.

(** Runs of a program on it, and that they meet what is proved against the
    laws; a call the laws do not permit stops a run. *)
Fixpoint sample_run {R} (m : prog R) (g : hive_state) : option (R * hive_state) :=
  match m with
  | Ret r => Some (r, g)
  | Call a k => '(x, g') ← sample_step a g; sample_run (k x) g'
  | Halt _ => None
  end.
Lemma sample_run_wp {R} profile_list (m : prog R) Q g :
  wp (registry_laws profile_list) m Q g -> exists r g', sample_run m g = Some (r, g') /\ Q r g'.
Proof.
  revert g. induction m as [r|a k IH|h]; simpl; intros g Hw; [by exists r, g| |done].
  destruct Hw as [Hp Hk]. destruct (sample_step_lawful _ _ _ Hp) as (x & g' & -> & Ha). simpl.
  by apply IH, Hk.
Qed.

Definition sample_sid : str := $"S-1-5-21-1-1001".
Definition sample_plan : RepairPlan := {|
  rp_sid := $"S-1-5-21-1-1001.bak"; rp_canonical_sid := sample_sid; rp_profile_path := $"C:\Users\ann";
  fix_bak := true; reset_state := true; unlock_hive := false; dry_run := false |}.
Definition sample_key (image : str) (state : Z) : values :=
  {[ name_of VAL_PROFILE_IMAGE_PATH := (REG_SZ, bytes_of_units (to_wide_null image));
     name_of VAL_STATE := (REG_DWORD, u32_le state); name_of VAL_REF_COUNT := (REG_DWORD, u32_le 3) ]}.
Definition sample_hive : hive_state := {|
  keys := {[ name_of sample_sid := sample_key ($"C:\Users\TEMP") 128;
             name_of (bak_name_of sample_sid) := sample_key ($"C:\Users\ann") 256 ]};
  handles := ∅ |}.
Definition sample_execute : prog (result RepairError unit * RegistryMutation) :=
  @execute_steps (1 : Fuel) sample_extern sample_plan 7 no_mutation.

Lemma execute_steps_refines_witness :
  exists mutation g', sample_run sample_execute sample_hive = Some ((Ok tt, mutation), g') /\
    canonical_backup mutation = Some ($"S-1-5-21-1-1001.pre-repair-5") /\
    repaired sample_plan mutation (keys sample_hive) (keys g').
Proof.
  destruct (sample_run_wp 7 sample_execute _ sample_hive
    (@execute_steps_refines 1 sample_extern sample_model sample_folds 7 sample_plan sample_hive
       (le_n 1) eq_refl)) as ([r mutation] & g' & Hrun & _ & _ & Hok).
  assert ((fun x => (is_ok x.1.1, canonical_backup x.1.2)) <$> sample_run sample_execute sample_hive
          = Some (true, Some ($"S-1-5-21-1-1001.pre-repair-5"))) as Hc by (vm_compute; reflexivity).
  rewrite Hrun in Hc. simpl in Hc. injection Hc as Hr Hb. destruct r as [[]|]; [|done].
  exists mutation, g'. split; [done|]. split; [done|]. by apply Hok.
Defined.

(** The state in which promoting the [.bak] key failed. *)
Definition sample_record : RegistryMutation :=
  {| bak_moved := false; canonical_backup := Some (@backup_name_of sample_extern sample_sid 5) |}.
Definition half_done : hive_state :=
  {| keys := apply_mutation sample_sid sample_record (keys sample_hive); handles := ∅ |}.

Definition sample_undo : prog (result unit (list str) * AppState) :=
  @undo_renames sample_extern unit 7 sample_sid sample_record
    {| memory_buffer := []; buffer_poisoned := false; snapshot_sequence := 0 |}.

Lemma undo_renames_restores_witness :
  mutated sample_sid sample_record (keys sample_hive) (keys half_done) /\
  exists s g', sample_run sample_undo half_done = Some ((Ok [], s), g') /\
    counters_only (name_of sample_sid) (keys sample_hive) (keys g').
Proof.
  assert (mutated sample_sid sample_record (keys sample_hive) (keys half_done)) as Hm.
  { split; [|apply counters_only_refl]. split; [|done].
    split_and!; [apply backup_ne|apply backup_ne_bak|by eexists|by vm_compute]. }
  split; [done|].
  destruct (sample_run_wp 7 sample_undo _ half_done
    (@undo_renames_restores sample_extern sample_model sample_folds 7 unit sample_sid sample_record
       (keys sample_hive) half_done
       {| memory_buffer := []; buffer_poisoned := false; snapshot_sequence := 0 |} eq_refl Hm))
    as ([r s] & g' & Hrun & _ & errors & -> & Hok).
  assert ((fun x => match x.1.1 with Ok l => length l | Err _ => 1 end) <$> sample_run sample_undo half_done
          = Some 0) as Hc by (vm_compute; reflexivity).
  exists s, g'. rewrite Hrun in Hc. simpl in Hc. injection Hc as Hl. destruct errors; [|done].
  split; [done|by apply Hok].
Defined.
