(* ===== verification/Scanner.v ===== *)
(** * Scanner: profile discovery and diagnosis (core-profiles/src/scanner.rs)

    [anomalies: &mut Vec<ProfileAnomaly>] is the state of the functions that
    inspect one profile.  [std::fs::read_dir] is one call that lists the
    entries. *)

From stdpp Require Import base list gmap strings.
From S2P Require Import Prelude Text Path Effects Models Win32 Registry Security.

Inductive ScannerError : Type :=
| ScanRegistryError (e : RegistryError)
| ProfileKeyUnreadable (key : str) (source : RegistryError).
Definition show_ScannerError `{Extern} (e : ScannerError) : str :=
  match e with
  | ScanRegistryError e => $"Failed to access Windows Registry: " ++ show_RegistryError e
  | ProfileKeyUnreadable key source =>
      $"Profile key '" ++ key ++ $"' cannot be read: " ++ show_RegistryError source
  end.

Section Scanner.
Context `{Fuel} `{Extern}.
Abbreviation Inspect := (M (list ProfileAnomaly)).

Definition push {E} (a : ProfileAnomaly) : Inspect E unit := let* l := get in put (l ++ [a]).

(** ** Values *)
Definition required_string {E} (key : Z) (value_name : str) : Inspect E str :=
  let* r := attempt (query_value_string key value_name) in
  match r with
  | Ok value =>
      if negb (is_empty (trim value)) then ret value
      else do* push (RegistryReadFailure (value_name ++ $": empty value")) in ret []
  | Err error => do* push (RegistryReadFailure (value_name ++ $": " ++ show_RegistryError error)) in ret []
  end.
Definition optional_string {E} (key : Z) (value_name : str) : Inspect E (option str) :=
  let* r := attempt (query_value_string key value_name) in
  match r with
  | Ok value => ret (Some value)
  | Err (ValueNotFound _) => ret None
  | Err error => do* push (RegistryReadFailure (value_name ++ $": " ++ show_RegistryError error)) in ret None
  end.
Definition optional_u32 {E} (key : Z) (value_name : str) : Inspect E Z :=
  let* r := attempt (query_value_u32 key value_name) in
  match r with
  | Ok value => ret value
  | Err (ValueNotFound _) => ret 0%Z
  | Err error => do* push (RegistryReadFailure (value_name ++ $": " ++ show_RegistryError error)) in ret 0%Z
  end.

(** ** Files *)
Definition locker_name (p : LockingProcessInfo) : str :=
  app_name p ++ $" (PID: " ++ dec (process_id p) ++ $")".
Definition inspect_locks {E} (p : path) : Inspect E unit :=
  let* r := attempt (inspect_locking_processes p) in
  match r with
  | Ok processes =>
      if negb (is_empty processes) then push (LockedNtUserDat (map locker_name processes)) else ret tt
  | Err error => push (LockInspectionFailure (show_RestartManagerError error))
  end.

Definition metadata_without_follow {S} (p : path) : M S str metadata :=
  let* r := call (SymlinkMetadata p) in
  match r with Ok m => ret m | Err error => throw (display p ++ $": " ++ show_io_error error) end.
Definition is_reparse_metadata (m : metadata) : bool :=
  has_flag (md_attributes m) FILE_ATTRIBUTE_REPARSE_POINT.

(** The loop of [directory_size] over the entries of a directory, given the
    size of a subdirectory. *)
Fixpoint sum_entries {S} (size : path -> M S str Z) (root : path) (entries : list (result io_error wide))
    (total : Z) : M S str Z :=
  match entries with
  | [] => ret total
  | Err error :: _ => throw (display root ++ $": " ++ show_io_error error)
  | Ok name :: entries' =>
      let p := path_join root name in
      let* m := metadata_without_follow p in
      if is_reparse_metadata m then sum_entries size root entries' total
      else if md_is_dir m then
        let* n := size p in sum_entries size root entries' (saturating_add_u64 total n)
      else if md_is_file m then sum_entries size root entries' (saturating_add_u64 total (md_len m))
      else throw ($"unsupported filesystem entry: " ++ display p)
  end.
Fixpoint directory_size {S} (depth : nat) (root : path) : M S str Z :=
  match depth with
  | O => out_of_fuel
  | Datatypes.S depth' =>
      let* root_metadata := metadata_without_follow root in
      if is_reparse_metadata root_metadata then throw ($"reparse point refused: " ++ display root)
      else
        let* r := call (ReadDir root) in
        match r with
        | Err error => throw (display root ++ $": " ++ show_io_error error)
        | Ok entries => sum_entries (directory_size depth') root entries 0
        end
  end.

(** ** One profile *)
Definition canonical_sid_of (sid_key_name : str) : str :=
  default sid_key_name (strip_suffix BAK_EXTENSION sid_key_name).
Definition is_system_sid (canonical : str) : bool := existsb (str_eqb canonical) SYSTEM_SID_PREFIXES.

Definition resolve_account {E} (canonical : str) : Inspect E (str * str) :=
  let* r := attempt (lookup_account_by_sid_string canonical) in
  match r with
  | Ok account => ret account
  | Err error => do* push (SidResolutionFailure (show_SecurityError error)) in ret ([], canonical)
  end.
Definition is_loaded {E} (canonical : str) : Inspect E bool :=
  let* r := attempt (open_key Users canonical KEY_READ) in
  match r with
  | Ok hkey => do* close_key hkey in ret true
  | Err (Win32Error 2%Z) => ret false
  | Err error =>
      do* push (RegistryReadFailure ($"HKEY_USERS\" ++ canonical ++ $": " ++ show_RegistryError error)) in
      ret false
  end.
Definition measure {E} (profile_dir : path) : Inspect E Z :=
  let* r := attempt (directory_size fuel profile_dir) in
  match r with
  | Ok size => ret size
  | Err error => do* push (FilesystemScanFailure error) in ret 0%Z
  end.
Definition when {S E} (b : bool) (m : M S E unit) : M S E unit := if b then m else ret tt.

Definition inspect_profile (sid_key_name : str) (current_key : Z) : Inspect ScannerError UserProfile :=
  let is_bak := ends_with BAK_EXTENSION sid_key_name in
  let canonical := canonical_sid_of sid_key_name in
  let* profile_image_path := required_string current_key VAL_PROFILE_IMAGE_PATH in
  let* state_mask := optional_u32 current_key VAL_STATE in
  let* ref_count := optional_u32 current_key VAL_REF_COUNT in
  let* guid := optional_string current_key VAL_GUID in
  let* '(domain, username) := resolve_account canonical in
  let* loaded := is_loaded canonical in
  do* when is_bak (push BakSuffix) in
  do* when (has_flag state_mask STATE_TEMP_PROFILE) (push TempSession) in
  do* when (negb (Z.eqb state_mask 0) && negb (has_flag state_mask STATE_TEMP_PROFILE))
        (push (DirtyStateMask state_mask)) in
  let profile_dir := encode_utf16 profile_image_path in
  let* dir_exists := call (PathIsDir profile_dir) in
  do* when (negb dir_exists) (push (MissingDirectory profile_image_path)) in
  let ntuser_dat_path := path_join profile_dir (encode_utf16 NTUSER_DAT) in
  let* ntuser_exists := call (PathIsFile ntuser_dat_path) in
  let* usrclass_exists := call (PathIsFile (path_join profile_dir (encode_utf16 USRCLASS_DAT_REL_PATH))) in
  do* when (dir_exists && ntuser_exists && negb loaded) (inspect_locks ntuser_dat_path) in
  let* disk_size_bytes := if (dir_exists : bool) then measure profile_dir else ret 0%Z in
  let* anomalies := get in
  ret (compute_health
    {| sid := sid_key_name; canonical_sid := canonical; username := username; domain := domain;
       profile_path := profile_image_path; loaded := loaded; is_bak := is_bak; state_mask := state_mask;
       ref_count := ref_count; guid := guid; ntuser_exists := ntuser_exists;
       usrclass_exists := usrclass_exists; disk_size_bytes := disk_size_bytes; anomalies := anomalies;
       health := Healthy |}).

(** ** Collisions *)
Definition collision_key (p : UserProfile) : option str :=
  if is_empty (trim (profile_path p)) then None
  else Some (to_ascii_lowercase (trim_end_matches (one_of [BACKSLASH; FORWARD_SLASH]) (profile_path p))).
Fixpoint index_paths (index : nat) (profiles : list UserProfile) (by_path : gmap str (list nat))
    : gmap str (list nat) :=
  match profiles with
  | [] => by_path
  | p :: profiles' =>
      index_paths (Datatypes.S index) profiles'
        match collision_key p with
        | Some key => <[key := default [] (by_path !! key) ++ [index]]> by_path
        | None => by_path
        end
  end.
Definition mark_one (p : UserProfile) : UserProfile :=
  compute_health (push_anomaly (PathCollision (profile_path p)) p).
Definition mark_index (profiles : list UserProfile) (index : nat) : list UserProfile :=
  alter mark_one index profiles.
Definition mark_path_collisions (profiles : list UserProfile) : list UserProfile :=
  foldl (fun ps indexes => if 1 <? length indexes then foldl mark_index ps indexes else ps)
    profiles (map snd (map_to_list (index_paths 0 profiles ∅))).

(** ** The scan *)
Definition with_anomalies {S E A} (m : Inspect E A) : M S E A :=
  fun s => bind (m []) (fun '(r, _) => Ret (r, s)).

Fixpoint scan_keys {S} (subkeys : list str) (profiles : list UserProfile) : M S ScannerError (list UserProfile) :=
  match subkeys with
  | [] => ret profiles
  | sid_key_name :: subkeys' =>
      if is_system_sid (canonical_sid_of sid_key_name) then scan_keys subkeys' profiles
      else
        let* profile :=
          using_key (map_err (ProfileKeyUnreadable sid_key_name)
                       (open_key LocalMachine (REG_KEY_PROFILE_LIST ++ [BACKSLASH] ++ sid_key_name) KEY_READ))
            (fun current_key => with_anomalies (inspect_profile sid_key_name current_key)) in
        scan_keys subkeys' (profiles ++ [profile])
  end.
Definition scan_all_profiles {S} : M S ScannerError (list UserProfile) :=
  using_key (map_err ScanRegistryError (open_key LocalMachine REG_KEY_PROFILE_LIST KEY_READ))
    (fun profile_list_key =>
       let* subkeys := map_err ScanRegistryError (enum_subkeys profile_list_key) in
       let* profiles := scan_keys subkeys [] in
       ret (mark_path_collisions profiles)).

Definition count (f : UserProfile -> bool) (profiles : list UserProfile) : nat := length (List.filter f profiles).
Definition has_health (h : ProfileHealth) (p : UserProfile) : bool := bool_decide (health p = h).
Definition build_diagnostic_report (now : Z) (profiles : list UserProfile) : DiagnosticReport := {|
  timestamp := now;
  total_count := length profiles;
  healthy_count := count (has_health Healthy) profiles;
  warning_count := count (has_health Warning) profiles;
  corrupted_count := count (has_health Corrupted) profiles;
  temporary_count := count (fun p => bool_decide (TempSession ∈ anomalies p)) profiles;
  profiles := profiles |}.
Definition scan_all {S} : M S ScannerError DiagnosticReport :=
  let* profiles := scan_all_profiles in
  let* now := call UtcNow in
  ret (build_diagnostic_report now profiles).
End Scanner.

(** ** Collisions are exactly the shared paths *)
Fixpoint positions (key : str) (index : nat) (profiles : list UserProfile) : list nat :=
  match profiles with
  | [] => []
  | p :: profiles' =>
      (if bool_decide (collision_key p = Some key) then [index] else []) ++
      positions key (S index) profiles'
  end.

Lemma lookup_index_paths key index ps by_path :
  index_paths index ps by_path !! key =
  match by_path !! key, positions key index ps with
  | None, [] => None
  | found, l => Some (default [] found ++ l)
  end.
Proof.
  revert index by_path. induction ps as [|p ps IH]; intros index by_path; simpl.
  { destruct (by_path !! key); simpl; by rewrite ?app_nil_r. }
  rewrite IH. destruct (collision_key p) as [k|] eqn:Hk.
  - destruct (decide (k = key)) as [->|Hne].
    + rewrite lookup_insert_eq, bool_decide_true by done. simpl.
      destruct (by_path !! key); simpl; by rewrite <- ?app_assoc.
    + rewrite lookup_insert_ne by done. rewrite bool_decide_false by congruence. done.
  - rewrite bool_decide_false by done. done.
Qed.

Lemma elem_of_positions key index ps i :
  i ∈ positions key index ps <-> index <= i /\ exists p, ps !! (i - index) = Some p /\ collision_key p = Some key.
Proof.
  revert index. induction ps as [|p ps IH]; intros index; simpl; [set_solver|].
  rewrite elem_of_app, IH. destruct (decide (i = index)) as [->|Hne].
  - rewrite Nat.sub_diag. simpl. case_bool_decide; [set_solver by lia|].
    split; [|naive_solver]. intros [?%elem_of_nil|[? _]]; [done|lia].
  - split.
    + intros [Hi|[Hi Hp]]; [case_bool_decide; set_solver|]. split; [lia|].
      replace (i - index) with (S (i - S index)) by lia. done.
    + intros [Hi Hp]. right. split; [lia|]. replace (i - index) with (S (i - S index)) in Hp by lia. done.
Qed.
Lemma NoDup_positions key index ps : NoDup (positions key index ps).
Proof.
  revert index. induction ps as [|p ps IH]; intros index; simpl; [constructor|].
  case_bool_decide; simpl; [|apply IH]. constructor; [|apply IH].
  rewrite elem_of_positions. lia.
Qed.

Lemma foldl_mark_index indexes ps i :
  NoDup indexes ->
  foldl mark_index ps indexes !! i = if bool_decide (i ∈ indexes) then mark_one <$> ps !! i else ps !! i.
Proof.
  intros Hnd. revert ps. induction Hnd as [|index indexes Hni Hnd IH]; intros ps; simpl; [done|].
  rewrite IH. unfold mark_index. destruct (decide (i = index)) as [->|Hne].
  - rewrite bool_decide_false by done. rewrite list_lookup_alter_eq, bool_decide_true by set_solver. done.
  - rewrite list_lookup_alter_ne by done. by repeat case_bool_decide; set_solver.
Qed.

(** [i] shares its path, up to case and trailing separators, with another
    profile. *)
Definition collides (ps : list UserProfile) (i : nat) : Prop :=
  exists j p q key, i <> j /\ ps !! i = Some p /\ ps !! j = Some q /\
    collision_key p = Some key /\ collision_key q = Some key.

Lemma shared_positions key ps i :
  i ∈ positions key 0 ps -> (1 <? length (positions key 0 ps)) = true <-> collides ps i.
Proof.
  intros Hi. pose proof (NoDup_positions key 0 ps) as Hnd. rewrite Nat.ltb_lt. split.
  - intros Hl. assert (exists j, j ∈ positions key 0 ps /\ i <> j) as (j & Hj & Hne).
    { destruct (positions key 0 ps) as [|a [|b l]]; simpl in Hl; [lia..|].
      destruct (decide (i = a)) as [->|]; [exists b|exists a]; split; [set_solver| |set_solver|done].
      intros ->. apply NoDup_cons in Hnd as [Hnd _]. set_solver. }
    apply elem_of_positions in Hi as (_ & p & Hp & Hk), Hj as (_ & q & Hq & Hk').
    rewrite Nat.sub_0_r in *. exists j, p, q, key. done.
  - intros (j & p & q & k & Hne & Hp & Hq & Hk & Hk').
    apply elem_of_positions in Hi as Hi'. destruct Hi' as (_ & p' & Hp' & Hkey).
    rewrite Nat.sub_0_r in Hp'. assert (k = key) as -> by congruence.
    assert (j ∈ positions key 0 ps) as Hj.
    { apply elem_of_positions. split; [lia|]. rewrite Nat.sub_0_r. eauto. }
    destruct (positions key 0 ps) as [|a [|b l]]; simpl; [set_solver| |lia]. set_solver.
Qed.

Lemma mark_groups ps (groups : list (str * list nat)) i :
  NoDup groups.*1 -> (forall key l, (key, l) ∈ groups -> l = positions key 0 ps) ->
  let marked := foldl (fun ps indexes => if 1 <? length indexes then foldl mark_index ps indexes else ps)
                  ps (map snd groups) in
  (forall key l, (key, l) ∈ groups -> i ∈ l -> (1 <? length l) = true -> marked !! i = mark_one <$> ps !! i) /\
  ((forall key l, (key, l) ∈ groups -> i ∈ l -> (1 <? length l) = false) -> marked !! i = ps !! i).
Proof.
  induction groups as [|[key l] groups IH] using rev_ind; intros Hnd Hl; [set_solver|].
  rewrite fmap_app in Hnd. apply NoDup_app in Hnd as (Hnd & Hdis & _).
  specialize (IH Hnd (fun k l' H => Hl k l' ltac:(set_solver))) as [IHm IHs].
  rewrite map_app, foldl_app. simpl. cbv zeta in *.
  pose proof (Hl key l ltac:(set_solver)) as Hpos.
  set (before := foldl _ ps (map snd groups)) in *.
  assert (i ∈ l -> before !! i = ps !! i) as Hfresh.
  { intros Hi. apply IHs. intros k l' Hin Hi'. exfalso. apply (Hdis key); [|set_solver].
    assert (k = key) as ->.
    { rewrite (Hl k l') in Hi' by set_solver. rewrite Hpos in Hi. apply elem_of_positions in Hi, Hi'. naive_solver. }
    apply list_elem_of_fmap. by exists (key, l'). }
  assert ((if 1 <? length l then foldl mark_index before l else before) !! i
          = if (1 <? length l) && bool_decide (i ∈ l) then mark_one <$> before !! i else before !! i) as Hlast.
  { destruct (1 <? length l); [|done]. apply foldl_mark_index. rewrite Hpos. apply NoDup_positions. }
  rewrite Hlast. split.
  - intros k l' Hin Hi Hlen. apply elem_of_app in Hin as [Hin|Hin%list_elem_of_singleton].
    + case_bool_decide as Hil; [|rewrite andb_false_r; by eapply IHm].
      assert (before !! i = mark_one <$> ps !! i) as Hm by (by eapply IHm).
      exfalso. apply (Hdis key); [|set_solver]. assert (k = key) as <-.
      { rewrite (Hl k l') in Hi by set_solver. rewrite Hpos in Hil. apply elem_of_positions in Hi, Hil. naive_solver. }
      apply list_elem_of_fmap. by exists (k, l').
    + simplify_eq. rewrite Hlen, bool_decide_true by done. simpl. by rewrite Hfresh.
  - intros Hnone. assert (before !! i = ps !! i) as ->
      by (apply IHs; intros k l' Hin; apply (Hnone k l'); set_solver).
    destruct (1 <? length l) eqn:Hlen; simpl; [|done]. case_bool_decide as Hi; [|done].
    by rewrite (Hnone key l) in Hlen by set_solver.
Qed.

(** Path collisions are exactly the shared paths.  [mark_path_collisions]
    keeps the profiles and their order; a profile whose non-blank path equals
    another's up to ASCII case and trailing separators gains one
    [PathCollision] anomaly and has its health recomputed, and every other
    profile is unchanged; the order in which the hash map is iterated does not
    matter. *)
Theorem mark_path_collisions_exact (profiles : list UserProfile) (i : nat) :
  (collides profiles i -> mark_path_collisions profiles !! i = mark_one <$> profiles !! i) /\
  (~ collides profiles i -> mark_path_collisions profiles !! i = profiles !! i).
Proof.
  set (groups := map_to_list (index_paths 0 profiles ∅)).
  assert (forall key l, (key, l) ∈ groups -> l = positions key 0 profiles) as Hgroups.
  { intros key l Hin. apply elem_of_map_to_list in Hin. rewrite lookup_index_paths, lookup_empty in Hin.
    destruct (positions key 0 profiles); simplify_eq/=; done. }
  destruct (mark_groups profiles groups i (NoDup_fst_map_to_list _) Hgroups) as [Hm Hs].
  change (foldl _ profiles (map snd groups)) with (mark_path_collisions profiles) in *.
  split; intros Hc.
  - pose proof Hc as (j & p & q & key & Hne & Hp & Hq & Hk & Hk').
    assert (i ∈ positions key 0 profiles) as Hi.
    { apply elem_of_positions. split; [lia|]. rewrite Nat.sub_0_r. eauto. }
    apply (Hm key (positions key 0 profiles)); [|done|by apply (proj2 (shared_positions _ _ _ Hi))].
    apply elem_of_map_to_list. rewrite lookup_index_paths, lookup_empty.
    destruct (positions key 0 profiles); [by apply elem_of_nil in Hi|done].
  - apply Hs. intros key l Hin Hi. rewrite (Hgroups _ _ Hin) in *.
    apply not_true_iff_false. intros Hlen. apply Hc. by apply (proj1 (shared_positions _ _ _ Hi)).
Qed.

Lemma length_mark_index ps indexes : length (foldl mark_index ps indexes) = length ps.
Proof.
  revert ps. induction indexes as [|index indexes IH]; intros ps; simpl; [done|].
  rewrite IH. apply length_alter.
Qed.

Lemma counts_partition now profiles : has_consistent_health_counts (build_diagnostic_report now profiles) = true.
Proof.
  apply Nat.eqb_eq. simpl. unfold count, has_health. induction profiles as [|p ps IH]; simpl; [done|].
  destruct (health p); simpl; lia.
Qed.

(** The counters of a report partition its profiles: the healthy, warning
    and corrupted counts add up to the total, the consistency test of the
    report holds, and temporary sessions are a subset counted across the
    categories. *)
Theorem build_diagnostic_report_counts (now : Z) (profiles : list UserProfile) :
  let report := build_diagnostic_report now profiles in
  has_consistent_health_counts report = true /\ total_count report = length profiles /\
  temporary_count report <= total_count report.
Proof.
  simpl. split_and!; [apply counts_partition|done|].
  - unfold count. induction profiles as [|p ps IH]; simpl; [done|]. case_bool_decide; simpl; lia.
Qed.

(** ** Sizes against a file tree *)
Inductive tree : Type :=
| FileNode (len : Z)
| ReparseNode
| OtherNode
| DirNode (children : list (wide * tree)).

(** The reference: files below a directory, without following reparse points. *)
Fixpoint tree_size (t : tree) : Z :=
  match t with
  | FileNode len => len
  | ReparseNode | OtherNode => 0
  | DirNode children => foldr (fun c n => tree_size c.2 + n)%Z 0%Z children
  end.
Fixpoint tree_height (t : tree) : nat :=
  match t with
  | DirNode children => S (foldr (fun c n => Nat.max (tree_height c.2) n) 0 children)
  | _ => 0
  end.
Fixpoint sane (t : tree) : Prop :=
  match t with
  | FileNode len => (0 <= len)%Z
  | DirNode children => foldr (fun c P => sane c.2 /\ P) True children
  | _ => True
  end.
(** The tree stands at a path of the file system. *)
Fixpoint stands_at (fs : path -> tree) (p : path) (t : tree) : Prop :=
  fs p = t /\
  match t with
  | DirNode children => foldr (fun c P => stands_at fs (path_join p c.1) c.2 /\ P) True children
  | _ => True
  end.

Definition describes_node (m : metadata) (t : tree) : Prop :=
  match t with
  | ReparseNode => is_reparse_metadata m = true
  | FileNode len => is_reparse_metadata m = false /\ md_is_dir m = false /\ md_is_file m = true /\ md_len m = len
  | OtherNode => is_reparse_metadata m = false /\ md_is_dir m = false /\ md_is_file m = false
  | DirNode _ => is_reparse_metadata m = false /\ md_is_dir m = true
  end.
(** A file system that answers from the tree; any call may fail. *)
Definition tree_laws (fs : path -> tree) : protocol unit :=
  @Protocol sys_signature unit
    (fun a _ => match a with SymlinkMetadata _ | ReadDir _ => True | _ => False end)
    (fun a _ => match a return sys_resp a -> unit -> Prop with
       | SymlinkMetadata p => fun x _ => match x with Ok m => describes_node m (fs p) | Err _ => True end
       | ReadDir p => fun x _ =>
           match x with
           | Ok entries => exists children, fs p = DirNode children /\
               (entries = map (fun c => Ok c.1) children \/
                exists n e, entries = map (fun c => Ok c.1) (take n children) ++ [Err e])
           | Err _ => True
           end
       | _ => fun _ _ => True
       end) False.

Lemma tree_size_nonneg t : sane t -> (0 <= tree_size t)%Z.
Proof.
  revert t. fix IH 1. intros [len| | |children]; simpl; try done.
  induction children as [|c children IHc]; simpl; [done|]. intros [Hc Hs].
  apply Z.add_nonneg_nonneg; [by apply IH|by apply IHc].
Qed.

Definition sum_sizes (children : list (wide * tree)) : Z := foldr (fun c n => tree_size c.2 + n)%Z 0%Z children.
Lemma sum_sizes_nonneg children : foldr (fun c P => sane c.2 /\ P) True children -> (0 <= sum_sizes children)%Z.
Proof. intros Hs. by apply (tree_size_nonneg (DirNode children)). Qed.

Section Sizes.
Context {S : Type} `{Extern} (fs : path -> tree).
Definition sized (size : Z) (s : S) (r : result str Z) (s' : S) (_ : unit) : Prop :=
  s' = s /\ forall n, r = Ok n -> n = Z.min u64_max size.

Lemma wp_metadata p s g Q :
  (forall m, describes_node m (fs p) -> Q (Ok m) s g) -> (forall e, Q (Err e) s g) ->
  wpM (tree_laws fs) (metadata_without_follow (S:=S) p) Q s g.
Proof.
  intros Hok Herr. apply wpM_bind. wp_call; [done|]. intros [m|e] [] Hx; simpl in *; destruct g.
  - by apply wpM_ret, Hok.
  - by apply wpM_throw, Herr.
Qed.

(** The loop over the entries, given what the recursive calls do. *)
Lemma wp_sum_entries size root (tail : list (result io_error wide)) children total s g :
  (forall c s, c ∈ children -> (exists l, c.2 = DirNode l) ->
     wpM (tree_laws fs) (size (path_join root c.1)) (sized (tree_size c.2) s) s tt) ->
  foldr (fun c P => stands_at fs (path_join root c.1) c.2 /\ P) True children ->
  foldr (fun c P => sane c.2 /\ P) True children ->
  (0 <= total)%Z -> (tail = [] \/ exists e, tail = [Err e]) ->
  wpM (tree_laws fs) (sum_entries size root (map (fun c => Ok c.1) children ++ tail) (Z.min u64_max total))
    (fun r s' _ => s' = s /\ forall n, r = Ok n -> tail = [] /\ n = Z.min u64_max (total + sum_sizes children)) s g.
Proof.
  intros Hsize Hst Hsane. revert total s g. induction children as [|c children IH]; intros total s g Htot Htail.
  { destruct Htail as [-> |[e ->]]; simpl; [|by apply wpM_throw]. apply wpM_ret. split; [done|].
    intros n [= <-]. split; [done|]. by rewrite Z.add_0_r. }
  destruct Hst as [Hc Hst], Hsane as [Hsc Hsane]. simpl in Hc.
  specialize (IH (fun c' s H => Hsize c' s ltac:(by right)) Hst Hsane).
  assert (0 <= tree_size c.2)%Z as Hnn by (by apply tree_size_nonneg).
  assert (saturating_add_u64 (Z.min u64_max total) (Z.min u64_max (tree_size c.2))
          = Z.min u64_max (total + tree_size c.2)) as Hsat.
  { unfold saturating_add_u64, u64_max. lia. }
  assert (saturating_add_u64 (Z.min u64_max total) (tree_size c.2)
          = Z.min u64_max (total + tree_size c.2)) as Hsat' by (unfold saturating_add_u64, u64_max; lia).
  assert (total + sum_sizes (c :: children) = (total + tree_size c.2) + sum_sizes children)%Z as -> by (simpl; lia).
  simpl. apply wpM_bind, wp_metadata; [|done]. intros m Hm.
  assert (fs (path_join root c.1) = c.2) as Hfs by (by destruct (c.2); destruct Hc).
  rewrite Hfs in Hm. destruct (c.2) as [len| | |l] eqn:Hc2; simpl in Hm.
  - destruct Hm as (-> & -> & -> & ->). simpl in *. rewrite Hsat'. apply IH; [lia|done].
  - rewrite Hm. simpl in *. rewrite Z.add_0_r. by apply IH.
  - destruct Hm as (-> & -> & ->). by apply wpM_throw.
  - destruct Hm as (-> & ->), g. apply wpM_bind.
    eapply wpM_mono; [apply (Hsize c s); [by left|by exists l]|].
    intros [n|e] s1 [] [-> Hn]; [|done]. rewrite (Hn n eq_refl), Hc2, Hsat. apply IH; [lia|done].
Qed.

Lemma in_height (c : wide * tree) children : c ∈ children -> tree_height c.2 <= foldr (fun c n => Nat.max (tree_height c.2) n) 0 children.
Proof.
  induction children as [|c' children IH]; [by intros ?%elem_of_nil|].
  intros [-> |Hin]%elem_of_cons; simpl; [lia|]. specialize (IH Hin). lia.
Qed.
Lemma Forall_of_foldr {A} (P : A -> Prop) l x : foldr (fun c Q => P c /\ Q) True l -> x ∈ l -> P x.
Proof. induction l as [|y l IH]; simpl; [by intros _ ?%elem_of_nil|]. intros [Hy Hl] [-> |Hin]%elem_of_cons; auto. Qed.

Lemma foldr_take {A} (P : A -> Prop) n l :
  foldr (fun c Q => P c /\ Q) True l -> foldr (fun c Q => P c /\ Q) True (take n l).
Proof. revert n. induction l as [|x l IH]; intros [|n]; simpl; try done. intros [Hx Hl]. auto. Qed.
Lemma elem_of_take_in {A} (x : A) n l : x ∈ take n l -> x ∈ l.
Proof. intros (i & Hi & _)%elem_of_take. by apply list_elem_of_lookup_2 in Hi. Qed.

Lemma wp_directory_size depth root children s :
  tree_height (DirNode children) <= depth -> stands_at fs root (DirNode children) -> sane (DirNode children) ->
  wpM (tree_laws fs) (directory_size (S:=S) depth root) (sized (tree_size (DirNode children)) s) s tt.
Proof.
  revert root children s. induction depth as [|depth IH]; intros root children s Hd Hst Hsane; simpl in Hd; [lia|].
  simpl. destruct Hst as [Hroot Hst]. simpl in Hsane.
  apply wpM_bind, wp_metadata; [|done]. intros m Hm. rewrite Hroot in Hm. destruct Hm as [-> _].
  apply wpM_bind. wp_call; [done|]. intros x [] Hx. simpl in Hx. destruct x as [entries|e]; [|by apply wpM_throw].
  destruct Hx as (children' & Hfs & Hentries). rewrite Hroot in Hfs. injection Hfs as <-.
  assert (forall part tail, foldr (fun c P => stands_at fs (path_join root c.1) c.2 /\ P) True part ->
    foldr (fun c P => sane c.2 /\ P) True part -> (forall c, c ∈ part -> c ∈ children) ->
    (tail = [] \/ exists e, tail = [Err e]) ->
    wpM (tree_laws fs) (sum_entries (directory_size depth) root (map (fun c => Ok c.1) part ++ tail) 0)
      (fun r s' _ => s' = s /\ forall n, r = Ok n -> tail = [] /\ n = Z.min u64_max (sum_sizes part)) s tt) as Hloop.
  { intros part tail Hp Hsp Hin Htail. apply (wp_sum_entries _ root tail part 0); [|done..].
    intros c s0 Hc [l Hl]. rewrite Hl. apply IH.
    - rewrite <- Hl. apply Hin, in_height in Hc. lia.
    - rewrite <- Hl. by apply (Forall_of_foldr (fun c => stands_at fs (path_join root c.1) c.2) children), Hin.
    - rewrite <- Hl. by apply (Forall_of_foldr (fun c => sane c.2) children), Hin. }
  destruct Hentries as [-> |(n & e & ->)].
  - rewrite <- (app_nil_r (map _ children)). eapply wpM_mono; [apply Hloop; auto|].
    intros r s' [] [-> Hn]. split; [done|]. intros m' Hr. by apply Hn.
  - eapply wpM_mono; [apply Hloop; [by apply foldr_take|by apply foldr_take| |eauto]|].
    + intros c Hc. by eapply elem_of_take_in.
    + intros r s' [] [-> Hn]. split; [done|]. intros m' Hr. by destruct (Hn m' Hr).
Qed.
End Sizes.

(** The size of a profile directory.  On a file system that answers from a
    tree, where any call may fail, a walk with enough fuel for the height of
    the tree terminates, and when it succeeds its result is the total length of
    the files below the directory without those behind reparse points,
    saturated at [u64::MAX]. *)
Theorem directory_size_exact {S : Type} `{Extern} (fs : path -> tree) (depth : nat) (root : path)
    (children : list (wide * tree)) (s : S)
    (Hdepth : tree_height (DirNode children) <= depth) (Hroot : stands_at fs root (DirNode children))
    (Hsane : sane (DirNode children)) :
  wpM (tree_laws fs) (directory_size depth root)
    (fun r s' _ => s' = s /\
       match r with Ok n => n = Z.min u64_max (tree_size (DirNode children)) | Err _ => True end) s tt.
Proof.
  eapply wpM_mono; [by apply wp_directory_size|]. intros [n|e] s' [] [-> Hn]; split; auto.
Qed.

Definition sample_tree : list (wide * tree) :=
  [($"a", FileNode 10); ($"b", DirNode [($"c", FileNode 7); ($"d", ReparseNode)])].
Definition sample_fs (p : path) : tree :=
  if str_eqb p ($"C:\p") then DirNode sample_tree
  else if str_eqb p ($"C:\p\a") then FileNode 10
  else if str_eqb p ($"C:\p\b") then DirNode [($"c", FileNode 7); ($"d", ReparseNode)]
  else if str_eqb p ($"C:\p\b\c") then FileNode 7 else ReparseNode.
Lemma directory_size_exact_witness :
  tree_size (DirNode sample_tree) = 17%Z /\
  wpM (tree_laws sample_fs) (@directory_size sample_extern unit 2 ($"C:\p"))
    (fun r s' _ => s' = tt /\
       match r with Ok n => n = Z.min u64_max (tree_size (DirNode sample_tree)) | Err _ => True end) tt tt.
Proof.
  split; [reflexivity|]. apply (@directory_size_exact unit sample_extern sample_fs 2 ($"C:\p") sample_tree tt).
  - vm_compute. lia.
  - vm_compute. tauto.
  - simpl. lia.
Defined.

(** ** A scan only reads, and its report is consistent *)
Definition diagnoses (a : sys) : bool :=
  reads_registry a || inspects_locks a ||
  match a with
  | ConvertStringSidToSidW _ | LookupAccountSidW _ _ | LocalFree _ | PathIsDir _ | PathIsFile _
  | SymlinkMetadata _ | ReadDir _ | UtcNow => true
  | _ => false
  end.
Definition diagnosis (a : sys) : Prop := diagnoses a = true.
Lemma diagnosis_reads a : reads_registry a = true -> diagnosis a.
Proof. intros Ha. unfold diagnosis, diagnoses. by rewrite Ha. Qed.
Lemma diagnosis_locks a : inspects_locks a = true -> diagnosis a.
Proof. intros Ha. unfold diagnosis, diagnoses. by rewrite Ha, orb_true_r. Qed.

Section ReadOnly.
Context `{Fuel} `{Extern}.
Hint Resolve diagnosis_reads diagnosis_locks : calls.
Hint Resolve mcalls_close_key mcalls_open_key mcalls_query_value_u32 mcalls_query_value_string
  mcalls_enum_subkeys mcalls_inspect_locking_processes : calls.

Ltac solve_diagnosis := repeat first [ solve [eauto 4 with calls] | mcalls_step ]; try done.

Lemma mcalls_directory_size {S} depth root : mcalls diagnosis (directory_size (S:=S) depth root).
Proof.
  revert root. induction depth as [|depth IH]; intros root; simpl; [done|].
  assert (forall p, mcalls diagnosis (metadata_without_follow (S:=S) p)).
  { intros p. unfold metadata_without_follow. by solve_diagnosis. }
  assert (forall entries total, mcalls diagnosis (sum_entries (directory_size (S:=S) depth) root entries total)).
  { induction entries as [|[name|e] entries IHe]; intros total; simpl; by solve_diagnosis. }
  by solve_diagnosis.
Qed.
Hint Resolve mcalls_directory_size : calls.

Lemma mcalls_inspect_profile name key : mcalls diagnosis (inspect_profile name key).
Proof.
  unfold inspect_profile, required_string, optional_u32, optional_string, resolve_account, is_loaded,
    inspect_locks, measure, when, push, lookup_account_by_sid_string, slice_to.
  by solve_diagnosis.
Qed.
Lemma mcalls_with_anomalies {S E A} (m : M (list ProfileAnomaly) E A) :
  mcalls diagnosis m -> mcalls diagnosis (with_anomalies (S:=S) m).
Proof. intros Hm s. apply calls_bind; [apply Hm|]. by intros [r s']. Qed.
Lemma mcalls_scan_keys {S} names profiles : mcalls diagnosis (scan_keys (S:=S) names profiles).
Proof.
  revert profiles. induction names as [|name names IH]; intros profiles; simpl; [done|].
  destruct (is_system_sid _); [apply IH|]. apply mcalls_bind; [|intros profile; apply IH].
  apply mcalls_using_key; [apply diagnosis_reads|by solve_diagnosis|]. intros key.
  apply mcalls_with_anomalies, mcalls_inspect_profile.
Qed.
Lemma mcalls_scan_all {S} : mcalls diagnosis (scan_all (S:=S)).
Proof.
  apply mcalls_bind; [|by solve_diagnosis].
  apply mcalls_using_key; [apply diagnosis_reads|by solve_diagnosis|]. intros key.
  apply mcalls_bind; [by solve_diagnosis|]. intros names. apply mcalls_bind; [apply mcalls_scan_keys|by solve_diagnosis].
Qed.
End ReadOnly.

(** *** What a scan says of a profile *)
Definition assessed (p : UserProfile) : Prop :=
  health p = health (compute_health p) /\
  (BakSuffix ∈ anomalies p <-> is_bak p = true) /\
  (TempSession ∈ anomalies p <-> has_flag (state_mask p) STATE_TEMP_PROFILE = true) /\
  sid p = canonical_sid p ++ (if is_bak p then BAK_EXTENSION else []) /\
  is_system_sid (canonical_sid p) = false.

Lemma compute_health_idem p : compute_health (compute_health p) = compute_health p.
Proof.
  unfold compute_health. destruct (is_bak p || existsb corrupting (anomalies p)) eqn:Hc;
    [|destruct (negb (is_empty (anomalies p))) eqn:He]; simpl; by rewrite ?Hc, ?He.
Qed.
Lemma compute_health_same p :
  anomalies (compute_health p) = anomalies p /\ is_bak (compute_health p) = is_bak p /\
  state_mask (compute_health p) = state_mask p /\ sid (compute_health p) = sid p /\
  canonical_sid (compute_health p) = canonical_sid p.
Proof. unfold compute_health. by repeat case_match. Qed.

Lemma assessed_mark p : assessed p -> assessed (mark_one p).
Proof.
  intros (_ & Hb & Ht & Hs & Hc). unfold assessed, mark_one. rewrite compute_health_idem.
  destruct (compute_health_same (push_anomaly (PathCollision (profile_path p)) p)) as (-> & -> & -> & -> & ->).
  simpl. split_and!; [done|set_solver..|done|done].
Qed.
Lemma Forall_marks (P : UserProfile -> Prop) ps :
  (forall p, P p -> P (mark_one p)) -> Forall P ps -> Forall P (mark_path_collisions ps).
Proof.
  intros HP. unfold mark_path_collisions. generalize (map snd (map_to_list (index_paths 0 ps ∅))) as groups.
  assert (forall indexes ps, Forall P ps -> Forall P (foldl mark_index ps indexes)) as Hmarks.
  { induction indexes as [|index indexes IH]; intros ps' Hps; simpl; [exact Hps|].
    apply IH. apply Forall_alter; [done|]. intros p _ Hp. by apply HP. }
  intros groups. revert ps. induction groups as [|group groups IH]; intros ps Hps; simpl; [exact Hps|].
  apply IH. destruct (1 <? length group); auto.
Qed.

(** *** The anomalies of one profile *)
Definition anything : protocol unit := @observer sys_signature unit (fun _ _ g => g).
Definition special : list ProfileAnomaly -> list ProfileAnomaly := filter (fun a => corrupting a = true).

Section Special.
Context `{Fuel} `{Extern}.
(** Functions that add no anomaly that decides corruption. *)
Definition benign {E A} (m : M (list ProfileAnomaly) E A) : Prop :=
  forall l, wpM anything m (fun _ l' _ => special l' = special l) l tt.

Lemma benign_ret {E A} (a : A) : benign (E:=E) (ret a). Proof. done. Qed.
Lemma benign_push {E} a : corrupting a = false -> benign (E:=E) (push a).
Proof.
  intros Ha l. apply wpM_bind, wpM_get, wpM_put. unfold special. rewrite filter_app, filter_cons_False by congruence.
  by rewrite app_nil_r.
Qed.
Lemma benign_bind {E A B} (m : M (list ProfileAnomaly) E A) (f : A -> M (list ProfileAnomaly) E B) :
  benign m -> (forall a, benign (f a)) -> benign (mbind m f).
Proof.
  intros Hm Hf l. apply wpM_bind. eapply wpM_mono; [apply Hm|]. intros [a|e] l' [] Hl; [|done].
  eapply wpM_mono; [apply Hf|]. intros r l'' [] ->. done.
Qed.
Lemma benign_tame {E A} (m : M (list ProfileAnomaly) E A) : mtame any_call True m -> benign m.
Proof.
  intros Hm l. eapply wpM_mono.
  - apply (@wpM_tame sys_signature _ any_call True unit E A anything (fun _ _ => True)); [by split|done..].
  - by intros r l' g [-> _].
Qed.

Lemma tame_close_key {S E} hkey : mtame any_call True (close_key (S:=S) (E:=E) hkey).
Proof. unfold close_key. by solve_tame. Qed.
Lemma tame_open_key {S} root subkey sam : mtame any_call True (open_key (S:=S) root subkey sam).
Proof. unfold open_key, open_key_raw. by solve_tame. Qed.
Lemma tame_query_value_u32 {S} hkey name : mtame any_call True (query_value_u32 (S:=S) hkey name).
Proof. unfold query_value_u32. by solve_tame. Qed.
Lemma tame_query_value_string {S} hkey name : mtame any_call True (query_value_string (S:=S) hkey name).
Proof.
  assert (forall n source required, mtame any_call True (expand_loop (S:=S) n source required)).
  { induction n; intros; simpl; by solve_tame. }
  unfold query_value_string, decode_registry_string, expand_environment_string. by solve_tame.
Qed.
Lemma tame_lookup_account {S} text : mtame any_call True (lookup_account_by_sid_string (S:=S) text).
Proof. unfold lookup_account_by_sid_string, slice_to. by solve_tame. Qed.
Lemma tame_locks {S} p : mtame any_call True (inspect_locking_processes (S:=S) p).
Proof.
  unfold inspect_locking_processes, RestartManagerSession_new, register_file, get_locking_processes, end_session.
  by solve_tame.
Qed.
Lemma tame_directory_size {S} depth root : mtame any_call True (directory_size (S:=S) depth root).
Proof.
  revert root. induction depth as [|depth IH]; intros root; simpl; [by solve_tame|].
  assert (forall p, mtame any_call True (metadata_without_follow (S:=S) p)).
  { intros p. unfold metadata_without_follow. by solve_tame. }
  assert (forall entries total, mtame any_call True (sum_entries (directory_size (S:=S) depth) root entries total)).
  { induction entries as [|[name|e] entries IHe]; intros total; simpl; by solve_tame. }
  by solve_tame.
Qed.
Hint Resolve tame_close_key tame_open_key tame_query_value_u32 tame_query_value_string tame_lookup_account
  tame_locks tame_directory_size mtame_attempt : tame.

Ltac solve_benign :=
  repeat first
    [ match goal with |- forall _, _ => intros ? end
    | solve [apply benign_tame; by solve_tame]
    | by apply benign_push
    | match goal with
      | |- benign (mbind _ _) => apply benign_bind
      | |- benign (match ?x with _ => _ end) => destruct x
      end ].

Lemma benign_required_string {E} key name : benign (E:=E) (required_string key name).
Proof. unfold required_string. by solve_benign. Qed.
Lemma benign_optional_string {E} key name : benign (E:=E) (optional_string key name).
Proof. unfold optional_string. by solve_benign. Qed.
Lemma benign_optional_u32 {E} key name : benign (E:=E) (optional_u32 key name).
Proof. unfold optional_u32. by solve_benign. Qed.
Lemma benign_resolve_account {E} canonical : benign (E:=E) (resolve_account canonical).
Proof. unfold resolve_account. by solve_benign. Qed.
Lemma benign_is_loaded {E} canonical : benign (E:=E) (is_loaded canonical).
Proof. unfold is_loaded. by solve_benign. Qed.
Lemma benign_inspect_locks {E} p : benign (E:=E) (inspect_locks p).
Proof. unfold inspect_locks. by solve_benign. Qed.
Lemma benign_measure {E} p : benign (E:=E) (measure p).
Proof. unfold measure. by solve_benign. Qed.

(** Binding a benign function: the special anomalies stay what they were. *)
Lemma wp_benign {E A B} (m : M (list ProfileAnomaly) E A) (f : A -> M (list ProfileAnomaly) E B) x Q l :
  benign m -> special l = x ->
  (forall a l', special l' = x -> wpM anything (f a) (fun r l'' _ => forall b, r = Ok b -> Q b l'') l' tt) ->
  wpM anything (mbind m f) (fun r l'' _ => forall b, r = Ok b -> Q b l'') l tt.
Proof.
  intros Hm Hl Hf. apply wpM_bind. eapply wpM_mono; [apply Hm|].
  intros [a|e] l' [] Hl'; [|done]. apply Hf. by rewrite Hl'.
Qed.
Lemma wp_special {E B} (b : bool) a (k : unit -> M (list ProfileAnomaly) E B) x Q l :
  corrupting a = true -> special l = x ->
  (forall l', special l' = x ++ (if b then [a] else []) ->
     wpM anything (k tt) (fun r l'' _ => forall c, r = Ok c -> Q c l'') l' tt) ->
  wpM anything (mbind (when b (push a)) k) (fun r l'' _ => forall c, r = Ok c -> Q c l'') l tt.
Proof.
  intros Ha Hl Hk. apply wpM_bind. destruct b; simpl.
  - apply wpM_bind, wpM_get, wpM_put, Hk. unfold special. rewrite filter_app, filter_cons_True by done.
    by rewrite <- Hl.
  - apply wpM_ret, Hk. by rewrite app_nil_r.
Qed.

Ltac next_benign x l' Hl' tac :=
  eapply (wp_benign _ _ _ (fun p _ => assessed p)); [tac|eassumption|]; intros x l' Hl'.

Lemma assessed_inspect name key :
  is_system_sid (canonical_sid_of name) = false ->
  wpM anything (inspect_profile name key) (fun r _ _ => forall p, r = Ok p -> assessed p) [] tt.
Proof.
  intros Hsys. unfold inspect_profile.
  eapply (wp_benign _ _ [] (fun p _ => assessed p)); [apply benign_required_string|done|]. intros image l1 Hl1.
  eapply (wp_benign _ _ [] (fun p _ => assessed p)); [apply benign_optional_u32|done|]. intros mask l2 Hl2.
  eapply (wp_benign _ _ [] (fun p _ => assessed p)); [apply benign_optional_u32|done|]. intros refs l3 Hl3.
  eapply (wp_benign _ _ [] (fun p _ => assessed p)); [apply benign_optional_string|done|]. intros guid l4 Hl4.
  eapply (wp_benign _ _ [] (fun p _ => assessed p)); [apply benign_resolve_account|done|].
  intros [dom user] l5 Hl5.
  eapply (wp_benign _ _ [] (fun p _ => assessed p)); [apply benign_is_loaded|done|]. intros loaded l6 Hl6.
  eapply (wp_special _ _ _ _ (fun p _ => assessed p)); [done|exact Hl6|]. intros l7 Hl7.
  eapply (wp_special _ _ _ _ (fun p _ => assessed p)); [done|exact Hl7|]. intros l8 Hl8.
  assert (forall b (m : M _ ScannerError unit), benign m -> benign (when b m)) as Hwhen by (by intros []).
  next_benign dirty l9 Hl9 ltac:(by apply Hwhen, benign_push).
  next_benign dir_exists l10 Hl10 ltac:(apply benign_tame; by solve_tame).
  next_benign missing l11 Hl11 ltac:(by apply Hwhen, benign_push).
  next_benign nt l12 Hl12 ltac:(apply benign_tame; by solve_tame).
  next_benign uc l13 Hl13 ltac:(apply benign_tame; by solve_tame).
  next_benign locks l14 Hl14 ltac:(apply Hwhen, benign_inspect_locks).
  next_benign bytes l15 Hl15 ltac:(by destruct dir_exists; [apply benign_measure|]).
  apply wpM_bind, wpM_get, wpM_ret. intros p [= <-]. clear - Hl15 Hsys.
  unfold assessed. rewrite compute_health_idem.
  match goal with |- context [compute_health ?q] => destruct (compute_health_same q) as (-> & -> & -> & -> & ->) end.
  simpl. assert (forall a, corrupting a = true -> a ∈ l15 <-> a ∈ special l15) as Hin.
  { intros a Ha. unfold special. rewrite list_elem_of_filter. naive_solver. }
  rewrite !Hin, Hl15 by done. unfold canonical_sid_of in *.
  split_and!; [done| | | |done].
  - destruct (ends_with BAK_EXTENSION name), (has_flag mask STATE_TEMP_PROFILE); set_solver.
  - destruct (ends_with BAK_EXTENSION name), (has_flag mask STATE_TEMP_PROFILE); set_solver.
  - destruct (ends_with BAK_EXTENSION name) eqn:He.
    + apply ends_with_spec in He as [stem Hn]. rewrite (proj2 (strip_suffix_spec _ _ stem)) by done. done.
    + destruct (strip_suffix BAK_EXTENSION name) as [stem|] eqn:Hs; simpl; [|by rewrite app_nil_r].
      apply strip_suffix_spec in Hs. rewrite Hs, ends_with_app in He. done.
Qed.

Lemma wp_any {S E A} (m : M S E A) s g : wpM anything m (fun _ _ _ => True) s g.
Proof. by apply (@wpM_keeps sys_signature S unit E A anything any_call (fun _ => True)); [..|apply mcalls_any|]. Qed.
Lemma wp_any_then {S E A B} (m : M S E A) (f : A -> M S E B) (Q : B -> Prop) s g :
  (forall a s g, wpM anything (f a) (fun r _ _ => forall b, r = Ok b -> Q b) s g) ->
  wpM anything (mbind m f) (fun r _ _ => forall b, r = Ok b -> Q b) s g.
Proof. intros Hf. apply wpM_bind. eapply wpM_mono; [apply wp_any|]. by intros [a|e] s' g' _; [apply Hf|]. Qed.
Lemma wp_any_key {S E A} (open : M S E Z) (body : Z -> M S E A) (Q : A -> Prop) s g :
  (forall k s g, wpM anything (body k) (fun r _ _ => forall b, r = Ok b -> Q b) s g) ->
  wpM anything (using_key open body) (fun r _ _ => forall b, r = Ok b -> Q b) s g.
Proof.
  intros Hb. apply wp_any_then. intros k s' g'. apply wpM_defer. eapply wpM_mono; [apply Hb|].
  intros r s'' g'' HQ. eapply wpM_mono; [apply wp_any|]. done.
Qed.
Lemma wp_scan_keys {S} names profiles (s : S) g :
  Forall assessed profiles ->
  wpM anything (scan_keys names profiles) (fun r _ _ => forall ps, r = Ok ps -> Forall assessed ps) s g.
Proof.
  revert profiles s g. induction names as [|name names IH]; intros profiles s g Hp; simpl.
  { apply wpM_ret. by intros ps [= <-]. }
  destruct (is_system_sid (canonical_sid_of name)) eqn:Hsys; [by apply IH|].
  apply wpM_bind. eapply wpM_mono; [apply (wp_any_key _ _ assessed)|].
  - intros key s1 []. apply wp_bind. eapply wp_mono; [by apply assessed_inspect|]. by intros [r l] [].
  - intros [p|e] s1 g1 Hq; [|done]. apply IH, Forall_app. split; [done|]. by repeat constructor; apply Hq.
Qed.
End Special.

(** C32: a scan is read-only and its report is consistent.  Whatever the system
    answers, [scan_all] makes only calls that read (registry keys and values,
    file metadata, accounts, locks), and a report it returns has consistent
    counters and only assessed profiles: no system account; a registry key name
    that is the SID with the [.bak] suffix exactly when the profile is a
    backup; the backup and temporary-session anomalies exactly when the name
    and the state mask say so; and a health that is the one its final anomalies
    decide. *)
Theorem scan_all_consistent `{Fuel} `{Extern} {S : Type} (s : S) :
  mcalls diagnosis (scan_all (S:=S)) /\
  wpM anything scan_all
    (fun r _ _ => match r with
       | Ok report => has_consistent_health_counts report = true /\ Forall assessed (profiles report)
       | Err _ => True
       end) s tt.
Proof.
  split; [apply mcalls_scan_all|].
  eapply wpM_mono with (Q := fun r _ _ => forall report, r = Ok report ->
    has_consistent_health_counts report = true /\ Forall assessed (profiles report)).
  2: { intros [report|e] s' g'; [|done]. intros Hr. by apply Hr. }
  apply wpM_bind. eapply wpM_mono; [apply (wp_any_key _ _ (Forall assessed))|].
  - intros key s1 g1. apply wp_any_then. intros names s2 g2.
    apply wpM_bind. eapply wpM_mono; [by apply wp_scan_keys|].
    intros [ps|e] s3 g3 Hps; [|done]. apply wpM_ret. intros ps' [= <-].
    apply Forall_marks; [apply assessed_mark|by apply Hps].
  - intros [ps|e] s1 g1 Hps; [|done]. apply wpM_bind. wp_call; [done|]. intros now g2 ->.
    apply wpM_ret. intros report [= <-]. split; [apply counts_partition|by apply Hps].
Qed.
