(* ===== verification/Migration.v ===== *)
(** * Migration: the verified copy of a profile (core-profiles/src/migration.rs)

    The copy transaction outlives a failed operation, so it is state, beside
    the state of the process.  The crate [sha2] is the parameter [Sha2].
    Progress and cancellation are the callbacks [OnProgress] and
    [IsCancelled]. *)

From stdpp Require Import base list gmap strings.
From S2P Require Import Prelude Text Path Effects Models Win32 Registry Security SecureFs Storage Journal.

Definition COPY_BUFFER_BYTES : Z := 1024 * 1024.
Definition PERSONAL_FOLDERS : list str :=
  [$"Documents"; $"Desktop"; $"Downloads"; $"Favorites"; $"Pictures"].

(** [Sha256] of the crate sha2: the digest of the bytes it was updated with. *)
Class Sha2 : Type := sha2_digest : list Z -> list Z.
Definition hex_digest `{Sha2} (bytes : list Z) : str := flat_map hex2 (sha2_digest bytes).

Inductive MigrationError : Type :=
| SourceNotFound (p : str)
| InvalidPlan (reason : str)
| MigReparsePoint (p : str)
| DestinationExists (p : str)
| Cancelled
| SourceLoaded (sid : str)
| InternalState (reason : str)
| VerificationFailed (p : str)
| RollbackFailed (operation_error rollback_error : str)
| MigIo (e : io_error)
| MigSecurity (reason : str)
| MigAudit (e : AuditError).

Definition show_MigrationError `{Extern} (e : MigrationError) : str :=
  match e with
  | SourceNotFound p => $"Source profile directory does not exist: " ++ p
  | InvalidPlan reason => $"Invalid migration plan: " ++ reason
  | MigReparsePoint p => $"Migration refuses to traverse a reparse point: " ++ p
  | DestinationExists p => $"Destination file already exists and will not be overwritten: " ++ p
  | Cancelled => $"Migration was cancelled"
  | SourceLoaded sid => $"Source profile is currently loaded: " ++ sid
  | InternalState reason => $"Migration internal state failure: " ++ reason
  | VerificationFailed p => $"Copied file verification failed: " ++ p
  | RollbackFailed operation_error rollback_error =>
      $"Migration rollback failed after '" ++ operation_error ++ $"': " ++ rollback_error
  | MigIo e => $"IO error during migration copy: " ++ show_io_error e
  | MigSecurity reason => $"Security validation failed: " ++ reason
  | MigAudit e => $"Audit journal error: " ++ show_AuditError e
  end.

Definition map_secure_error `{Extern} (e : SecureFsError) : MigrationError :=
  match e with
  | FsReparsePoint p => MigReparsePoint p
  | FsAlreadyExists p => DestinationExists p
  | other => MigSecurity (show_SecureFsError other)
  end.
Definition map_source_root_error `{Extern} (e : SecureFsError) (source : path) : MigrationError :=
  match e with
  | FsNotFound _ => SourceNotFound (display source)
  | other => map_secure_error other
  end.

(** ** The transaction *)
Record MigrationReceipt : Type := { copied_files : nat; receipt_bytes : Z; manifest_sha256 : str }.
Record CopyTransaction : Type := {
  created_entries : list SecureCreatedEntry;
  manifest : list (str * Z * str);
  observed_copied_bytes : Z;
  last_relative_path : option str;
}.
Definition empty_transaction : CopyTransaction :=
  {| created_entries := []; manifest := []; observed_copied_bytes := 0; last_relative_path := None |}.

Definition u64_le (n : Z) : list Z := u32_le (n mod 4294967296) ++ u32_le (n / 4294967296).
Definition manifest_line (entry : str * Z * str) : list Z :=
  let '(relative_path, size, sha) := entry in
  utf8_encode relative_path ++ [0%Z] ++ u64_le size ++ utf8_encode sha ++ [NEWLINE].
Definition manifest_bytes (entries : list (str * Z * str)) : Z :=
  foldl (fun total entry => saturating_add_u64 total entry.1.2) 0%Z entries.
Definition receipt `{Sha2} (t : CopyTransaction) : MigrationReceipt := {|
  copied_files := length (manifest t);
  receipt_bytes := manifest_bytes (manifest t);
  manifest_sha256 := hex_digest (flat_map manifest_line (manifest t)) |}.
Definition tx_completed_files (t : CopyTransaction) : nat := length (manifest t).
Definition copied_bytes (t : CopyTransaction) : Z := Z.max (observed_copied_bytes t) (manifest_bytes (manifest t)).

Definition display_relative_path (p : path) : str := replace_char (Z.eqb BACKSLASH) ($"/") (display p).

Definition push_created (e : SecureCreatedEntry) (t : CopyTransaction) : CopyTransaction :=
  {| created_entries := created_entries t ++ [e]; manifest := manifest t;
     observed_copied_bytes := observed_copied_bytes t; last_relative_path := last_relative_path t |}.
Definition push_manifest (entry : str * Z * str) (t : CopyTransaction) : CopyTransaction :=
  {| created_entries := created_entries t; manifest := manifest t ++ [entry];
     observed_copied_bytes := observed_copied_bytes t; last_relative_path := last_relative_path t |}.
Definition observe_copy (relative_path : path) (bytes : Z) (t : CopyTransaction) : CopyTransaction :=
  {| created_entries := created_entries t; manifest := manifest t; observed_copied_bytes := bytes;
     last_relative_path := Some (display_relative_path relative_path) |}.

Record MigrationState : Type := { mig_app : AppState; transaction : CopyTransaction }.

(** ** Paths of a plan *)
Definition invalid {A} (reason : str) : result MigrationError A := Err (InvalidPlan reason).

Definition validate_raw_release_path (p : path) (label : str) : result MigrationError unit :=
  let not_drive := invalid (label ++ $" path must be a normalized absolute drive path") in
  match p with
  | d :: c :: b :: remainder =>
      if negb (is_ascii_alphabetic d) || negb (Z.eqb c COLON) || negb (Z.eqb b BACKSLASH)
         || contains_char p FORWARD_SLASH
      then not_drive
      else if is_empty remainder then Ok tt
      else if existsb (fun component => is_empty component || str_eqb component [DOT]
                                        || str_eqb component [DOT; DOT])
                (split_char BACKSLASH remainder)
      then invalid (label ++ $" path must not contain empty, '.' or '..' components")
      else Ok tt
  | _ => not_drive
  end.

Definition FORBIDDEN_CHARACTERS : str := $"<>:" ++ [QUOTE] ++ $"/\|?*".
Definition DEVICE_DIGITS : list str :=
  [$"1"; $"2"; $"3"; $"4"; $"5"; $"6"; $"7"; $"8"; $"9"; [185%Z]; [178%Z]; [179%Z]].
Definition DEVICE_NAMES : list str := [$"CON"; $"PRN"; $"AUX"; $"NUL"; $"CONIN$"; $"CONOUT$"].
Definition numbered_device (prefix upper : str) : bool :=
  match strip_prefix prefix upper with
  | Some suffix => existsb (str_eqb suffix) DEVICE_DIGITS
  | None => false
  end.
Definition is_reserved (value : str) : bool :=
  let stem := match split_char DOT value with stem :: _ => stem | [] => [] end in
  let upper := to_ascii_uppercase stem in
  existsb (str_eqb upper) DEVICE_NAMES || numbered_device ($"COM") upper || numbered_device ($"LPT") upper.
Definition ends_in_dot_or_space (value : str) : bool :=
  match last value with Some c => Z.eqb c DOT || Z.eqb c SPACE | None => false end.

Definition validate_windows_component (component : wide) (label : str) : result MigrationError unit :=
  let value := display component in
  if is_empty value || ends_in_dot_or_space value
     || existsb (fun c => (c <=? 31)%Z || contains_char FORBIDDEN_CHARACTERS c) value
  then invalid (label ++ $" contains an invalid Windows path component: " ++ value)
  else if is_reserved value
  then invalid (label ++ $" contains a reserved Windows device name: " ++ value)
  else Ok tt.

Fixpoint push_normal (normalized : path) (cs : list Component) (label : str) : result MigrationError path :=
  match cs with
  | [] => Ok normalized
  | Normal name :: cs' =>
      let? _ := validate_windows_component name label in
      push_normal (path_join normalized name) cs' label
  | (CurDir | ParentDir) :: _ => invalid (label ++ $" path must not contain '.' or '..'")
  | _ => invalid (label ++ $" path is not normalized")
  end.

(** [Path::eq] compares components; prefixes are compared as parsed. *)
Definition same_component (a b : Component) : bool :=
  match a, b with
  | CPrefix _ k, CPrefix _ k' => bool_decide (k = k')
  | _, _ => bool_decide (a = b)
  end.
Fixpoint same_components (a b : list Component) : bool :=
  match a, b with
  | [], [] => true
  | x :: a', y :: b' => same_component x y && same_components a' b'
  | _, _ => false
  end.
Definition path_eqb (a b : path) : bool := same_components (components a) (components b).

Definition release_absolute_path (p : path) (label : str) : result MigrationError path :=
  if is_empty p then invalid (label ++ $" path is empty")
  else
    let? _ := validate_raw_release_path p label in
    match components p with
    | CPrefix raw (Disk _) :: rest =>
        match rest with
        | RootDir :: names =>
            let? normalized := push_normal (path_join raw ($"\")) names label in
            if negb (path_eqb p normalized) then invalid (label ++ $" path is not normalized")
            else Ok normalized
        | _ => invalid (label ++ $" path must be rooted")
        end
    | CPrefix _ _ :: _ => invalid (label ++ $" path uses an unsupported UNC, device, or verbatim prefix")
    | _ => invalid (label ++ $" path must be an absolute drive path")
    end.

Definition normalized_path_key `{Extern} (p : path) : str :=
  to_lowercase (trim_end_matches (Z.eqb BACKSLASH) (replace_char (Z.eqb FORWARD_SLASH) ($"\") (display p))).
Definition nested_key (outer inner : str) : bool :=
  match strip_prefix outer inner with Some suffix => starts_with ($"\") suffix | None => false end.
Definition paths_overlap `{Extern} (first second : path) : bool :=
  let first := normalized_path_key first in
  let second := normalized_path_key second in
  str_eqb first second || nested_key first second || nested_key second first.

Record ValidatedMigration : Type := {
  vm_source_path : path;
  vm_target_path : path;
  source_directory : SecureDirectory;
  target_parent : SecureDirectory;
  target_leaf : wide;
}.
Record MigrationPreflight : Type := { mp_source_path : path; mp_target_path : path }.

Definition validate_opened_roots (source target : SecureDirectory) : result MigrationError unit :=
  if overlaps source target
  then invalid ($"opened source and destination directory handles overlap") else Ok tt.

Section Validation.
Context {S : Type} `{Fuel} `{Extern}.
Abbreviation VM := (M S MigrationError).

Definition ensure_source_offline (source_sid : str) : VM unit :=
  let canonical_sid := trim (default source_sid (strip_suffix BAK_EXTENSION source_sid)) in
  if is_empty canonical_sid || contains_char canonical_sid BACKSLASH || contains_char canonical_sid FORWARD_SLASH
  then throw (InvalidPlan ($"source SID is invalid"))
  else
    let* opened := attempt (open_key Users canonical_sid KEY_READ) in
    match opened with
    | Ok hkey => do* close_key hkey in throw (SourceLoaded canonical_sid)
    | Err (Win32Error 2%Z) => ret tt
    | Err error =>
        throw (MigSecurity ($"failed to verify whether source profile is loaded: " ++ show_RegistryError error))
    end.

Definition validate_target (source target : path) (source_directory : SecureDirectory)
    : VM ValidatedMigration :=
  match parent target with
  | None => throw (InvalidPlan ($"destination must have an existing parent"))
  | Some target_parent_path =>
      match file_name target with
      | None => throw (InvalidPlan ($"destination must include a final folder name"))
      | Some target_leaf =>
          do* lift (validate_windows_component target_leaf ($"destination folder name")) in
          let* target_parent := map_err (fun error =>
              match error with
              | FsNotFound _ => InvalidPlan ($"destination parent does not exist: " ++ display target_parent_path)
              | other => map_secure_error other
              end) (open_absolute_existing target_parent_path) in
          on_error (drop_directory target_parent)
            (if is_within target_parent source_directory
             then throw (InvalidPlan ($"destination parent is inside the source directory"))
             else
               let* kind := map_err map_secure_error (child_kind target_parent target_leaf) in
               match kind with
               | None => ret {| vm_source_path := source; vm_target_path := target;
                                source_directory := source_directory; target_parent := target_parent;
                                target_leaf := target_leaf |}
               | Some _ => throw (DestinationExists (display target))
               end)
      end
  end.

Definition validate_for_execution (plan : MigrationPlan) : VM ValidatedMigration :=
  if is_empty (trim (source_sid plan)) then throw (InvalidPlan ($"source SID is empty"))
  else if negb (include_roaming_appdata plan) && negb (include_personal_folders plan)
  then throw (InvalidPlan ($"at least one migration scope must be selected"))
  else
    let* source := lift (release_absolute_path (encode_utf16 (source_path plan)) ($"source")) in
    let* target := lift (release_absolute_path (encode_utf16 (target_path plan)) ($"destination")) in
    if paths_overlap source target
    then throw (InvalidPlan ($"source and destination directories must not overlap"))
    else
      do* ensure_source_offline (source_sid plan) in
      let* source_directory :=
        map_err (fun error => map_source_root_error error source) (open_absolute_existing source) in
      on_error (drop_directory source_directory) (validate_target source target source_directory).

Definition drop_validated {E} (v : ValidatedMigration) : M S E unit :=
  do* drop_directory (source_directory v) in drop_directory (target_parent v).
Definition prevalidate_migration_plan (plan : MigrationPlan) : VM MigrationPreflight :=
  let* validated := validate_for_execution plan in
  do* drop_validated validated in
  ret {| mp_source_path := vm_source_path validated; mp_target_path := vm_target_path validated |}.
End Validation.

(** ** Copying *)
Section Copy.
Context `{Fuel} `{Extern} `{Sha2}.
Abbreviation CM := (M MigrationState MigrationError).

Definition modify {E} (f : CopyTransaction -> CopyTransaction) : M MigrationState E unit :=
  let* s := get in put {| mig_app := mig_app s; transaction := f (transaction s) |}.
Definition tx {E} : M MigrationState E CopyTransaction := let* s := get in ret (transaction s).
Definition fs {A} (m : M MigrationState SecureFsError A) : CM A := map_err map_secure_error m.
Definition mig_io {A} (r : result io_error A) : CM A := lift (result_map_err MigIo r).
Definition check_cancelled : CM unit :=
  let* cancelled := call IsCancelled in if (cancelled : bool) then throw Cancelled else ret tt.
Definition report {E} (ph : MigrationPhase) (relative : option str) (files : nat) (bytes : Z)
    : M MigrationState E unit :=
  call (OnProgress {| phase := ph; relative_path := relative; completed_files := files; progress_bytes := bytes |}).

(** The loop that copies; it returns the bytes read, which the hasher was
    updated with. *)
Fixpoint copy_loop (turns : nat) (input output : Z) (relative_path : path) (completed_bytes : Z)
    (read : list Z) (copied : Z) : CM (list Z * Z) :=
  match turns with
  | O => out_of_fuel
  | S turns' =>
      do* check_cancelled in
      let* r := call (FileRead input COPY_BUFFER_BYTES) in
      let* data := mig_io r in
      if is_empty data then ret (read, copied)
      else
        let* r := call (FileWriteAll output data) in
        do* mig_io r in
        let copied := saturating_add_u64 copied (Z.of_nat (length data)) in
        let observed_bytes := saturating_add_u64 completed_bytes copied in
        do* modify (observe_copy relative_path observed_bytes) in
        let* t := tx in
        do* report Copying (Some (display_relative_path relative_path)) (tx_completed_files t) observed_bytes in
        copy_loop turns' input output relative_path completed_bytes (read ++ data) copied
  end.

Fixpoint read_back (turns : nat) (file : Z) (read : list Z) : CM (list Z) :=
  match turns with
  | O => out_of_fuel
  | S turns' =>
      do* check_cancelled in
      let* r := call (FileRead file COPY_BUFFER_BYTES) in
      let* data := mig_io r in
      if is_empty data then ret read else read_back turns' file (read ++ data)
  end.
Definition mig_sha256_file (file : Z) : CM str := let* read := read_back fuel file [] in ret (hex_digest read).

Definition verify_copy (output : Z) (relative_path : path) (source_sha : str) (copied : Z) : CM unit :=
  let* destination_sha := mig_sha256_file output in
  let* differs :=
    if negb (str_eqb source_sha destination_sha) then ret true
    else let* r := call (FileLength output) in let* len := mig_io r in ret (negb (Z.eqb copied len)) in
  if (differs : bool) then throw (VerificationFailed (display relative_path))
  else modify (push_manifest (display_relative_path relative_path, copied, source_sha)).

(** The copy between the files once open. *)
Definition copy_contents (input output : Z) (relative_path : path) : CM unit :=
  let* t := tx in
  let* '(read, copied) := copy_loop fuel input output relative_path (copied_bytes t) [] 0 in
  do* check_cancelled in
  let* r := call (FileFlush output) in do* mig_io r in
  let* r := call (FileSyncAll output) in do* mig_io r in
  let* r := call (FileSeekStart output 0) in do* mig_io r in
  let* t := tx in
  do* report Verifying (Some (display_relative_path relative_path)) (tx_completed_files t) (copied_bytes t) in
  verify_copy output relative_path (hex_digest read) copied.

Definition copy_file_verified (source_directory destination_directory : SecureDirectory) (name : wide)
    (relative_path : path) : CM unit :=
  let* input := fs (open_file source_directory name) in
  defer (call (CloseHandle input))
    (let* '(output, created) := fs (create_file destination_directory name) in
     defer (call (CloseHandle output))
       (do* modify (push_created created) in copy_contents input output relative_path)).

Definition push_optional (created : option SecureCreatedEntry) : CM unit :=
  match created with Some e => modify (push_created e) | None => ret tt end.

(** The depth of the recursion is that of the source tree. *)
Fixpoint copy_tree_verified (depth : nat) (source destination : SecureDirectory) (relative_directory : path)
    : CM unit :=
  match depth with
  | O => out_of_fuel
  | S depth' =>
      let* found := fs (entries source) in
      for_each (fun entry =>
        do* check_cancelled in
        let relative_path := path_join relative_directory (entry_name entry) in
        match entry_kind entry with
        | EntryDirectory =>
            let* source_child := fs (open_directory source (entry_name entry)) in
            defer (drop_directory source_child)
              (let* '(destination_child, created) := fs (open_or_create_directory destination (entry_name entry)) in
               defer (drop_directory destination_child)
                 (do* push_optional created in
                  copy_tree_verified depth' source_child destination_child relative_path))
        | EntryFile => copy_file_verified source destination (entry_name entry) relative_path
        end) found
  end.

(** Descending by names; the directory before the last opened one is dropped
    when the next is open. *)
Definition drop_current {E} (current : option SecureDirectory) : M MigrationState E unit :=
  match current with Some d => drop_directory d | None => ret tt end.
Fixpoint descend_if_present (root : SecureDirectory) (current : option SecureDirectory) (cs : list Component)
    (relative : path) : CM (option SecureDirectory) :=
  match cs with
  | [] => ret current
  | Normal name :: cs' =>
      let* opened := attempt (open_directory (default root current) name) in
      match opened with
      | Ok next => do* drop_current current in descend_if_present root (Some next) cs' relative
      | Err (FsNotFound _) => do* drop_current current in ret None
      | Err error => do* drop_current current in throw (map_secure_error error)
      end
  | _ => do* drop_current current in
         throw (InvalidPlan ($"invalid relative migration root: " ++ display relative))
  end.
Definition open_relative_directory_if_present (root : SecureDirectory) (relative : path)
    : CM (option SecureDirectory) :=
  descend_if_present root None (components relative) relative.

Fixpoint ensure_components (root : SecureDirectory) (current : option SecureDirectory) (cs : list Component)
    (relative : path) : CM SecureDirectory :=
  match cs with
  | [] => match current with
          | Some d => ret d
          | None => throw (InvalidPlan ($"empty relative migration destination"))
          end
  | Normal name :: cs' =>
      let* '(next, created) :=
        on_error (drop_current current) (fs (open_or_create_directory (default root current) name)) in
      do* push_optional created in
      do* drop_current current in
      ensure_components root (Some next) cs' relative
  | _ => do* drop_current current in
         throw (InvalidPlan ($"invalid relative migration destination: " ++ display relative))
  end.
Definition ensure_relative_directory (root : SecureDirectory) (relative : path) : CM SecureDirectory :=
  ensure_components root None (components relative) relative.

Definition secure_directory_exists (root : SecureDirectory) (relative : path) : CM bool :=
  let* found := open_relative_directory_if_present root relative in
  do* drop_current found in
  ret (match found with Some _ => true | None => false end).

(** ** Rolling back: the last created entry first, every one attempted *)
Fixpoint remove_entries {E} (entries : list SecureCreatedEntry) (first_error : option SecureFsError)
    : M MigrationState E (option SecureFsError) :=
  match entries with
  | [] => ret first_error
  | e :: entries' =>
      let* r := attempt (remove e) in
      remove_entries entries'
        (match r, first_error with Err error, None => Some error | _, _ => first_error end)
  end.
Definition forget_entries (t : CopyTransaction) : CopyTransaction :=
  {| created_entries := []; manifest := manifest t; observed_copied_bytes := observed_copied_bytes t;
     last_relative_path := last_relative_path t |}.
Definition transaction_rollback : M MigrationState SecureFsError unit :=
  let* t := tx in
  do* modify forget_entries in
  let* first_error := remove_entries (rev (created_entries t)) None in
  match first_error with Some error => throw error | None => ret tt end.
(** Entries that are kept are closed when the transaction is dropped. *)
Definition drop_transaction {E} : M MigrationState E unit :=
  let* t := tx in for_each (fun e => close_handle (ce_handle e)) (created_entries t).
End Copy.

(** ** The engine *)
Section Engine.
Context `{Fuel} `{Extern} `{Sha2} `{JournalCodec}.
Abbreviation CM := (M MigrationState MigrationError).

Definition on_app {E A} (m : M AppState E A) : M MigrationState E A := fun s =>
  bind (m (mig_app s)) (fun '(r, a) => Ret (r, {| mig_app := a; transaction := transaction s |})).
Definition mig_log (l : AuditLogger) (plan : MigrationPlan) (op : str) (st : AuditStatus) (det : str)
    : M MigrationState AuditError unit :=
  on_app (log l op ($"WinProfile-Admin") (source_sid plan) st det).

Definition DPAPI_PATH : path :=
  path_join (path_join (encode_utf16 APPDATA_ROAMING_REL_PATH) ($"Microsoft")) ($"Protect").
Definition DPAPI_WARNING : str :=
  $"DPAPI material detected; SID-bound secrets are copied but may not decrypt under the destination account.".
Definition migration_roots (plan : MigrationPlan) : list str :=
  (if include_roaming_appdata plan then [APPDATA_ROAMING_REL_PATH] else [])
  ++ (if include_personal_folders plan then PERSONAL_FOLDERS else []).

Definition copy_root (v : ValidatedMigration) (target_directory : SecureDirectory) (relative_root : str) : CM unit :=
  let relative := encode_utf16 relative_root in
  do* check_cancelled in
  let* source := open_relative_directory_if_present (source_directory v) relative in
  match source with
  | None => ret tt
  | Some source =>
      defer (drop_directory source)
        (let* destination := ensure_relative_directory target_directory relative in
         defer (drop_directory destination) (copy_tree_verified fuel source destination relative))
  end.

Definition finish_copy (l : AuditLogger) (plan : MigrationPlan) : CM MigrationReceipt :=
  do* check_cancelled in
  let* t := tx in
  let r := receipt t in
  do* check_cancelled in
  do* report Finalizing None (copied_files r) (receipt_bytes r) in
  do* check_cancelled in
  do* map_err MigAudit (mig_log l plan ($"MigrationSuccess") StatusSuccess
    ($"Verified " ++ dec (Z.of_nat (copied_files r)) ++ $" files (" ++ dec (receipt_bytes r)
     ++ $" bytes); manifest SHA-256 " ++ manifest_sha256 r)) in
  ret r.

Definition migrate (l : AuditLogger) (plan : MigrationPlan) (v : ValidatedMigration) : CM MigrationReceipt :=
  let* '(target_directory, created_target) := fs (create_directory (target_parent v) (target_leaf v)) in
  defer (drop_directory target_directory)
    (do* modify (push_created created_target) in
     do* lift (validate_opened_roots (source_directory v) target_directory) in
     let* dpapi := secure_directory_exists (source_directory v) DPAPI_PATH in
     do* (if (dpapi : bool)
          then map_err MigAudit (mig_log l plan ($"MigrationWarning") StatusWarning DPAPI_WARNING)
          else ret tt) in
     let roots := migration_roots plan in
     if is_empty roots then throw (InvalidPlan ($"at least one migration scope must be selected"))
     else
       do* report Enumerating None 0 0 in
       do* for_each (copy_root v target_directory) roots in
       finish_copy l plan).

Definition failed_migration (l : AuditLogger) (plan : MigrationPlan) (error : MigrationError) : CM MigrationReceipt :=
  let* t := tx in
  do* report RollingBack (last_relative_path t) (tx_completed_files t) (copied_bytes t) in
  let* undone := attempt transaction_rollback in
  match undone with
  | Err rollback_error =>
      let operation_error := show_MigrationError error in
      let failure := RollbackFailed operation_error (show_SecureFsError rollback_error) in
      let* logged := attempt (mig_log l plan ($"MigrationRollbackFailed") StatusFailed (show_MigrationError failure)) in
      throw match logged with
            | Err audit_error =>
                RollbackFailed operation_error
                  (show_SecureFsError rollback_error ++ $"; audit logging also failed: " ++ show_AuditError audit_error)
            | Ok _ => failure
            end
  | Ok _ =>
      do* map_err MigAudit (mig_log l plan ($"MigrationRolledBack") StatusRolledBack (show_MigrationError error)) in
      throw error
  end.

Definition run_migration (l : AuditLogger) (plan : MigrationPlan) (v : ValidatedMigration) : CM MigrationReceipt :=
  do* map_err MigAudit (mig_log l plan ($"MigrationStarted") StatusWarning
    ($"Verified-copy migration started: " ++ display (vm_source_path v) ++ $" -> " ++ display (vm_target_path v))) in
  do* modify (fun _ => empty_transaction) in
  defer drop_transaction
    (let* operation := attempt (migrate l plan v) in
     match operation with
     | Ok r => ret r
     | Err error => failed_migration l plan error
     end).

Definition execute_migration_with_cancel (l : AuditLogger) (plan : MigrationPlan) : CM MigrationReceipt :=
  let* guard := map_err MigAudit (on_app (acquire_operation_guard l)) in
  defer (close_handle guard)
    (let* v := validate_for_execution plan in
     defer (drop_validated v) (run_migration l plan v)).

(** Without cancellation the callback is [|| false]. *)
Fixpoint never_cancelled {R} (m : prog R) : prog R :=
  match m with
  | Ret r => Ret r
  | Halt h => Halt h
  | Call a k =>
      match a return (sys_resp a -> prog R) -> prog R with
      | IsCancelled => fun k' => k' false
      | other => fun k' => Call (other : act) k'
      end (fun x => never_cancelled (k x))
  end.
Definition execute_migration (l : AuditLogger) (plan : MigrationPlan) : CM MigrationReceipt :=
  fun s => never_cancelled (execute_migration_with_cancel l plan s).
End Engine.
