(* ===== verification/MigrationSpec.v ===== *)
(** * MigrationSpec: what a migration may do

    Which calls the secure file system and the copy make, whatever the system
    answers, and that cancellation is prompt. *)

From stdpp Require Import base list gmap strings.
From S2P Require Import Prelude Text Path Effects Models Win32 Registry Security SecureFs Storage Journal Migration.

(** ** The calls of the secure file system

    Existing objects are opened for reading only; anything else is created and
    must not exist. *)
Definition READING_ACCESSES : list Z :=
  [DIRECTORY_READ_ACCESS; FILE_READ_ATTRIBUTES .| SYNCHRONIZE; FILE_GENERIC_READ .| SYNCHRONIZE].
Definition opens_safely (access disposition : Z) : bool :=
  Z.eqb disposition FILE_CREATE
  || (Z.eqb disposition FILE_OPEN && bool_decide (access ∈ READING_ACCESSES)).
Definition secure_call (a : sys) : bool :=
  match a with
  | NtCreateFile _ _ access _ disposition _ _ descriptor => opens_safely access disposition && Z.eqb descriptor 0
  | CreateFileW _ access _ _ => Z.eqb access DIRECTORY_READ_ACCESS
  | GetFileInformationByHandle _ | GetFileAttributeTagInfo _ | GetDirectoryInfo _ _ _ | SetFileDisposition _
  | DuplicateHandle _ | CloseHandle _ | GetLastError => true
  | _ => false
  end.

Section SecureCalls.
Context {S : Type} `{Fuel} `{Extern} (P : sys -> Prop) (HP : forall a, secure_call a = true -> P a).

Lemma secure_close {E} handle : mtame P True (close_handle (S:=S) (E:=E) handle).
Proof. unfold close_handle. solve_tame; by apply HP. Qed.
Hint Resolve secure_close : tame.
Lemma secure_win32_error {A} op p : mtame P True (fs_win32_error (S:=S) (A:=A) op p).
Proof. unfold fs_win32_error, last_os_error. solve_tame; by apply HP. Qed.
Hint Resolve secure_win32_error : tame.
Lemma secure_reject handle p : mtame P True (reject_reparse_handle (S:=S) handle p).
Proof. unfold reject_reparse_handle. solve_tame; by apply HP. Qed.
Lemma secure_identity handle p : mtame P True (fs_file_identity (S:=S) handle p).
Proof. unfold fs_file_identity. solve_tame; by apply HP. Qed.
Lemma secure_delete handle p : mtame P True (delete_open_handle (S:=S) handle p).
Proof. unfold delete_open_handle. solve_tame; by apply HP. Qed.
Hint Resolve secure_reject secure_identity secure_delete : tame.
Lemma secure_nt_open parent name p access share disposition options :
  opens_safely access disposition = true ->
  mtame P True (nt_open_relative (S:=S) parent name p access share disposition options).
Proof.
  intros Ho. unfold nt_open_relative. solve_tame; apply HP; simpl; by rewrite ?Ho.
Qed.
Lemma secure_pending_fail {A} handle p e : mtame P True (pending_fail (S:=S) (A:=A) handle p e).
Proof. unfold pending_fail. by solve_tame. Qed.
Lemma secure_close_all {E} handles : mtame P True (close_all (S:=S) (E:=E) handles).
Proof. unfold close_all. by solve_tame. Qed.
Hint Resolve secure_pending_fail secure_close_all : tame.
Lemma secure_clone_guards guards cloned op p : mtame P True (clone_guards (S:=S) guards cloned op p).
Proof.
  revert cloned. induction guards as [|g guards IH]; intros cloned; simpl; [by solve_tame|].
  unfold try_clone, from_raw_checked, last_os_error. solve_tame; by apply HP.
Qed.
Hint Resolve secure_clone_guards : tame.
Lemma secure_clone_namespace_guards d p : mtame P True (clone_namespace_guards (S:=S) d p).
Proof. unfold clone_namespace_guards. by solve_tame. Qed.
Lemma secure_drop_directory {E} d : mtame P True (drop_directory (S:=S) (E:=E) d).
Proof. unfold drop_directory. by solve_tame. Qed.
Hint Resolve secure_clone_namespace_guards secure_drop_directory : tame.
Lemma secure_open_directory d name : mtame P True (open_directory (S:=S) d name).
Proof.
  unfold open_directory. apply mtame_bind; [by solve_tame|]. intros p.
  apply mtame_bind; [by apply secure_nt_open|]. intros [handle info]. by solve_tame.
Qed.
Lemma secure_child_kind d name : mtame P True (child_kind (S:=S) d name).
Proof.
  unfold child_kind. apply mtame_bind; [by solve_tame|]. intros p.
  apply mtame_bind; [by apply mtame_attempt, secure_nt_open|]. intros opened.
  destruct opened as [[handle info]|[]]; solve_tame; by apply HP.
Qed.
Lemma secure_create_directory d name : mtame P True (create_directory (S:=S) d name).
Proof.
  unfold create_directory. apply mtame_bind; [by solve_tame|]. intros p.
  apply mtame_bind; [by apply mtame_attempt, secure_nt_open|]. intros [[handle info]|[]]; try by solve_tame.
  unfold try_clone, from_raw_checked, last_os_error. solve_tame; by apply HP.
Qed.
Hint Resolve secure_open_directory secure_create_directory : tame.
Lemma secure_open_or_create_directory d name : mtame P True (open_or_create_directory (S:=S) d name).
Proof.
  unfold open_or_create_directory. apply mtame_bind; [by solve_tame|]. intros [dir|[]]; by solve_tame.
Qed.
Lemma secure_open_file d name : mtame P True (open_file (S:=S) d name).
Proof.
  unfold open_file. apply mtame_bind; [by solve_tame|]. intros p.
  apply mtame_bind; [by apply secure_nt_open|]. intros [handle info]. by solve_tame.
Qed.
Lemma secure_create_file d name : mtame P True (create_file (S:=S) d name).
Proof.
  unfold create_file. apply mtame_bind; [by solve_tame|]. intros p.
  apply mtame_bind; [by apply mtame_attempt, secure_nt_open|]. intros [[handle info]|[]]; try by solve_tame.
  - unfold try_clone, from_raw_checked, last_os_error. solve_tame; by apply HP.
  - apply mtame_bind; [by apply mtame_attempt, secure_nt_open|]. intros existing.
    unfold using_handle. by solve_tame.
Qed.
Lemma secure_entries d : mtame P True (entries (S:=S) d).
Proof.
  assert (forall n restart found, mtame P True (entries_loop (S:=S) n d restart found)) as Hl.
  { induction n as [|n IH]; intros restart found; simpl; [by solve_tame|].
    unfold last_os_error. solve_tame; by apply HP. }
  unfold entries. by solve_tame.
Qed.
Lemma secure_remove e : mtame P True (remove (S:=S) e).
Proof. unfold remove. by solve_tame. Qed.
End SecureCalls.

(** ** The calls of the copy *)
Definition copy_call (a : sys) : bool :=
  secure_call a ||
  match a with
  | FileRead _ _ | FileWriteAll _ _ | FileFlush _ | FileSyncAll _ | FileSeekStart _ _ | FileLength _
  | OnProgress _ | IsCancelled => true
  | _ => false
  end.

Section CopyCalls.
Context `{Fuel} `{Extern} `{Sha2} (P : sys -> Prop) (HP : forall a, copy_call a = true -> P a).

Lemma copy_secure a : secure_call a = true -> P a.
Proof. intros Ha. apply HP. unfold copy_call. by rewrite Ha. Qed.
Hint Resolve copy_secure : calls.
Hint Resolve secure_close secure_open_directory secure_open_or_create_directory secure_open_file
  secure_create_file secure_entries secure_drop_directory secure_remove secure_create_directory : tame.
Hint Extern 3 (mcalls _ _) => apply tame_calls_of : calls.

Ltac solve_copy := repeat first [ solve [eauto 4 with calls tame] | mcalls_step ]; try done; try (by apply HP).

Lemma copy_modify {E} f : mcalls P (modify (E:=E) f).
Proof. unfold modify. by solve_copy. Qed.
Lemma copy_tx {E} : mcalls P (tx (E:=E)).
Proof. unfold tx. by solve_copy. Qed.
Lemma copy_check : mcalls P check_cancelled.
Proof. unfold check_cancelled. by solve_copy. Qed.
Lemma copy_report {E} ph relative files bytes : mcalls P (report (E:=E) ph relative files bytes).
Proof. unfold report. by solve_copy. Qed.
Hint Resolve copy_modify copy_tx copy_check copy_report : calls.

Lemma copy_loop_calls n input output relative completed read copied :
  mcalls P (copy_loop n input output relative completed read copied).
Proof.
  revert read copied. induction n as [|n IH]; intros; simpl; unfold mig_io; by solve_copy.
Qed.
Lemma read_back_calls n file read : mcalls P (read_back n file read).
Proof. revert read. induction n as [|n IH]; intros; simpl; unfold mig_io; by solve_copy. Qed.
Hint Resolve copy_loop_calls read_back_calls : calls.
Lemma copy_file_calls source destination name relative :
  mcalls P (copy_file_verified source destination name relative).
Proof. unfold copy_file_verified, copy_contents, verify_copy, mig_sha256_file, fs, mig_io. by solve_copy. Qed.
Hint Resolve copy_file_calls : calls.
Lemma copy_tree_calls depth source destination relative :
  mcalls P (copy_tree_verified depth source destination relative).
Proof.
  revert source destination relative. induction depth as [|depth IH]; intros; simpl; [by solve_copy|].
  unfold push_optional, fs. by solve_copy.
Qed.
Hint Resolve copy_tree_calls : calls.
Lemma copy_drop_current {E} current : mcalls P (drop_current (E:=E) current).
Proof. unfold drop_current. by solve_copy. Qed.
Hint Resolve copy_drop_current : calls.
Lemma descend_calls root current cs relative : mcalls P (descend_if_present root current cs relative).
Proof. revert current. induction cs as [|c cs IH]; intros; simpl; by solve_copy. Qed.
Lemma ensure_calls root current cs relative : mcalls P (ensure_components root current cs relative).
Proof.
  revert current. induction cs as [|c cs IH]; intros; simpl; unfold push_optional, fs; by solve_copy.
Qed.
Hint Resolve descend_calls ensure_calls : calls.
Lemma copy_root_calls v target root : mcalls P (copy_root v target root).
Proof.
  unfold copy_root, open_relative_directory_if_present, ensure_relative_directory. by solve_copy.
Qed.
End CopyCalls.

(** C26: the copy never overwrites.  Whatever the system answers, copying a
    folder opens objects by handle only, either existing ones with a reading
    access, or with the disposition that creates and fails when the object
    exists; it renames nothing, follows no name outside its handles and makes
    no registry call. *)
Theorem copy_root_never_overwrites `{Fuel} `{Extern} `{Sha2} (v : ValidatedMigration)
    (target : SecureDirectory) (relative_root : str) :
  mcalls (fun a => copy_call a = true) (copy_root v target relative_root).
Proof. by apply copy_root_calls. Qed.

(** ** Prompt cancellation *)
Definition closes (a : sys) : Prop := match a with CloseHandle _ => True | _ => False end.
Definition asks (a : sys) : Prop := match a with IsCancelled => True | _ => False end.
Definition unasked (a : sys) : Prop := ~ asks a.
Definition see_cancel (a : sys) : sys_resp a -> bool -> bool :=
  match a return sys_resp a -> bool -> bool with
  | IsCancelled => fun x g => x || g
  | _ => fun _ g => g
  end.
Definition prompt_ok (a : sys) (cancelled : bool) : Prop := cancelled = true -> closes a.
(** Once cancelled, only handles are closed. *)
Definition attentive : protocol bool := @monitor sys_signature bool prompt_ok see_cancel.

Definition prompt {S E A} (m : M S E A) : Prop :=
  forall s, wpM attentive m (fun r _ cancelled => is_ok r = true -> cancelled = false) s false.

Section Prompt.
Context {S : Type}.
Lemma prompt_quiet {E A} (m : M S E A) : mcalls unasked m -> prompt m.
Proof.
  intros Hm s. eapply wpM_mono.
  - apply (@wpM_keeps sys_signature S bool E A attentive unasked (fun g => g = false)).
    + by intros a g _ ->.
    + intros a g x g' Ha -> ->. destruct a; simpl; try done. by destruct Ha.
    + done.
    + exact Hm.
    + done.
  - by intros r s' g' ->.
Qed.
Lemma prompt_bind {E A B} (m : M S E A) (f : A -> M S E B) : prompt m -> (forall a, prompt (f a)) -> prompt (mbind m f).
Proof.
  intros Hm Hf s. apply wpM_bind. eapply wpM_mono; [apply Hm|]. intros [a|e] s' g' Hg; [|done].
  rewrite (Hg eq_refl). apply Hf.
Qed.
Lemma prompt_map_err {E E' A} (f : E -> E') (m : M S E A) : prompt m -> prompt (map_err f m).
Proof. intros Hm s. apply wpM_map_err. eapply wpM_mono; [apply Hm|]. by intros [a|e] s' g' Hg. Qed.
Lemma wp_closes {E A} (m : M S E A) s g :
  mcalls closes m -> wpM attentive m (fun _ _ g' => g' = g) s g.
Proof.
  intros Hm. apply (@wpM_keeps sys_signature S bool E A attentive closes (fun g' => g' = g)); [| |done|exact Hm|done].
  - by intros a g1 Ha _ _.
  - intros a g1 x g2 Ha -> ->. by destruct a.
Qed.
Lemma prompt_defer {E A} cleanup (m : M S E A) : mcalls closes cleanup -> prompt m -> prompt (defer cleanup m).
Proof.
  intros Hc Hm s. apply wpM_defer. eapply wpM_mono; [apply Hm|]. intros r s' g' Hg.
  eapply wpM_mono; [by apply wp_closes|]. by intros r' s'' g'' ->.
Qed.
Lemma prompt_for_each {E A} (f : A -> M S E unit) l : (forall x, prompt (f x)) -> prompt (for_each f l).
Proof. intros Hf. induction l as [|x l IH]; simpl; [done|]. by apply prompt_bind. Qed.
Lemma closes_directory {E} d : mcalls closes (drop_directory (S:=S) (E:=E) d).
Proof. unfold drop_directory, close_all, close_handle. by solve_calls. Qed.
End Prompt.

Lemma prompt_check : prompt check_cancelled.
Proof. intros s. apply wpM_bind. wp_call; [done|]. intros [] g' ->; simpl; [by apply wpM_throw|by apply wpM_ret]. Qed.

Section PromptCopy.
Context `{Fuel} `{Extern} `{Sha2}.

Lemma unasked_secure a : secure_call a = true -> unasked a.
Proof. destruct a; simpl; (done || by intros _ []). Qed.
Hint Resolve unasked_secure : calls.
Hint Resolve secure_close secure_open_directory secure_open_or_create_directory secure_open_file
  secure_create_file secure_entries secure_drop_directory secure_create_directory : tame.
Hint Extern 3 (mcalls _ _) => apply tame_calls_of : calls.

Ltac solve_quiet :=
  apply prompt_quiet;  unfold fs, mig_io, modify, tx, report, push_optional, drop_current;
  repeat first [ solve [eauto 4 with calls tame] | mcalls_step ]; try done; try (by intros []).
Ltac solve_prompt :=
  repeat first
    [ match goal with |- forall _, _ => intros ? end
    | apply prompt_check
    | solve [eauto 2 with calls]
    | match goal with
      | |- prompt (mbind _ _) => apply prompt_bind
      | |- prompt (map_err _ _) => apply prompt_map_err
      | |- prompt (for_each _ _) => apply prompt_for_each
      | |- prompt (defer _ _) => apply prompt_defer; [first [apply closes_directory|by solve_calls]|]
      | |- prompt (match ?x with _ => _ end) => destruct x
      end
    | solve [solve_quiet] ].

Lemma prompt_copy_loop n input output relative completed read copied :
  prompt (copy_loop n input output relative completed read copied).
Proof. revert read copied. induction n as [|n IH]; intros; simpl; by solve_prompt. Qed.
Lemma prompt_read_back n file read : prompt (read_back n file read).
Proof. revert read. induction n as [|n IH]; intros; simpl; by solve_prompt. Qed.
Hint Resolve prompt_copy_loop prompt_read_back : calls.
Lemma prompt_copy_file source destination name relative :
  prompt (copy_file_verified source destination name relative).
Proof. unfold copy_file_verified, copy_contents, verify_copy, mig_sha256_file. by solve_prompt. Qed.
Hint Resolve prompt_copy_file : calls.
Lemma prompt_copy_tree depth source destination relative :
  prompt (copy_tree_verified depth source destination relative).
Proof.
  revert source destination relative. induction depth as [|depth IH]; intros; simpl; by solve_prompt.
Qed.
Lemma prompt_descend root current cs relative : prompt (descend_if_present root current cs relative).
Proof.
  revert current. induction cs as [|c cs IH]; intros; simpl; [by solve_prompt|]. by solve_prompt.
Qed.
Lemma prompt_ensure root current cs relative : prompt (ensure_components root current cs relative).
Proof. revert current. induction cs as [|c cs IH]; intros; simpl; by solve_prompt. Qed.
Hint Resolve prompt_copy_tree prompt_descend prompt_ensure : calls.

Context `{JournalCodec}.
Lemma prompt_log l plan op st det : prompt (mig_log l plan op st det).
Proof.
  apply prompt_quiet. intros s. apply calls_bind; [|by intros [r a]].
  apply (mcalls_log unasked). intros []; simpl; (done || by intros _ []).
Qed.
Hint Resolve prompt_log : calls.
Lemma prompt_migrate l plan v : prompt (migrate l plan v).
Proof.
  unfold migrate, copy_root, finish_copy, secure_directory_exists, open_relative_directory_if_present,
    ensure_relative_directory.
  by solve_prompt.
Qed.
End PromptCopy.

(** C25: cancellation is prompt and honoured.  Whatever the system answers, from
    the moment the cancellation callback answers true, the copy makes no call
    but closing handles: nothing more is read, written, created or logged; and
    it does not succeed. *)
Theorem migrate_cancels `{Fuel} `{Extern} `{Sha2} `{JournalCodec} (l : AuditLogger) (plan : MigrationPlan)
    (v : ValidatedMigration) (s : MigrationState) :
  wpM attentive (migrate l plan v) (fun r _ cancelled => is_ok r = true -> cancelled = false) s false.
Proof. apply prompt_migrate. Qed.
