(* ===== verification/VerifiedCopy.v ===== *)
(** * VerifiedCopy: what the receipt of a migration certifies

    The transcript of a migration is what an observer sees of the open files:
    what was read and written, in order.  A file of the manifest was copied in
    full, made durable, read back with the same digest, and has the length
    copied.  A failed migration removes what it created. *)

From stdpp Require Import base list gmap strings.
From S2P Require Import Prelude Text Path Effects Models Win32 Registry Security SecureFs Storage Journal.
From S2P Require Import Migration MigrationSpec.

Create HintDb certified discriminated.

(** ** Transcripts *)
Inductive copy_event : Type :=
| ReadChunk (file : Z) (data : list Z)
| WroteChunk (file : Z) (data : list Z)
| Flushed (file : Z)
| Synced (file : Z)
| Rewound (file : Z)
| Measured (file len : Z).
Definition when_ok {A} (event : A -> copy_event) (r : result io_error A) (tr : list copy_event) : list copy_event :=
  match r with Ok a => tr ++ [event a] | Err _ => tr end.
Definition see_copy (a : sys) : sys_resp a -> list copy_event -> list copy_event :=
  match a return sys_resp a -> list copy_event -> list copy_event with
  | FileRead file _ => when_ok (ReadChunk file)
  | FileWriteAll file data => when_ok (fun _ => WroteChunk file data)
  | FileFlush file => when_ok (fun _ => Flushed file)
  | FileSyncAll file => when_ok (fun _ => Synced file)
  | FileSeekStart file offset => when_ok (fun _ => Rewound file)
  | FileLength file => when_ok (Measured file)
  | _ => fun _ tr => tr
  end.
Definition transcript : protocol (list copy_event) := @observer sys_signature (list copy_event) see_copy.

Definition copying (input output : Z) (chunks : list (list Z)) : list copy_event :=
  flat_map (fun chunk => [ReadChunk input chunk; WroteChunk output chunk]) chunks ++ [ReadChunk input []].
Definition rereading (output : Z) (chunks : list (list Z)) : list copy_event :=
  map (ReadChunk output) chunks ++ [ReadChunk output []].
Definition verification (input output : Z) (chunks back : list (list Z)) (size : Z) : list copy_event :=
  copying input output chunks ++ [Flushed output; Synced output; Rewound output]
  ++ rereading output back ++ [Measured output size].

(** The entry [(relative_path, size, sha)] of a manifest is justified by a
    stretch of the transcript. *)
Definition verified `{Sha2} (tr : list copy_event) (entry : str * Z * str) : Prop :=
  exists before after input output chunks back,
    tr = before ++ verification input output chunks back entry.1.2 ++ after
    /\ entry.2 = hex_digest (concat chunks) /\ entry.2 = hex_digest (concat back)
    /\ entry.1.2 = Z.min u64_max (Z.of_nat (length (concat chunks))).
Definition justified `{Sha2} (s : MigrationState) (tr : list copy_event) : Prop :=
  Forall (verified tr) (manifest (transaction s)).

Lemma verified_app `{Sha2} tr ext entry : verified tr entry -> verified (tr ++ ext) entry.
Proof.
  intros (before & after & i & o & chunks & back & -> & H1 & H2 & H3).
  exists before, (after ++ ext), i, o, chunks, back. by rewrite <- !app_assoc.
Qed.
Lemma justified_app `{Sha2} s s' tr ext :
  transaction s' = transaction s -> justified s tr -> justified s' (tr ++ ext).
Proof. unfold justified. intros ->. intros Hj. eapply Forall_impl; [exact Hj|]. intros entry. apply verified_app. Qed.

(** ** One file *)
Section File.
Context `{Fuel} `{Extern} `{Sha2}.

Definition extends (tr tr' : list copy_event) : Prop := exists ext, tr' = tr ++ ext.
#[export] Instance extends_preorder : PreOrder extends.
Proof.
  split; [intros tr; exists []; by rewrite app_nil_r|].
  intros tr1 tr2 tr3 [e1 ->] [e2 ->]. exists (e1 ++ e2). by rewrite app_assoc.
Qed.
Lemma extends_app tr ext : extends tr (tr ++ ext). Proof. by exists ext. Qed.
Lemma when_ok_extends {A} (event : A -> copy_event) r tr : extends tr (when_ok event r tr).
Proof. destruct r; simpl; [apply extends_app|done]. Qed.
Lemma see_copy_extends (a : sys) (x : sys_resp a) tr : extends tr (see_copy a x tr).
Proof. destruct a; try apply when_ok_extends; done. Qed.

Definition secure (a : sys) : Prop := secure_call a = true.
Lemma wp_secure {S E A} (m : M S E A) s tr :
  mtame secure True m ->
  wpM transcript m (fun _ s' tr' => s' = s /\ tr' = tr) s tr.
Proof.
  intros Hm. eapply wpM_mono.
  - eapply (@wpM_tame sys_signature S secure True _ E A transcript eq _); [done| |done|exact Hm].
    intros a g x g' Ha ->. by destruct a.
  - by intros r s' g' [-> <-].
Qed.
Lemma copied_more copied (data rest : list Z) :
  (0 <= copied)%Z -> Z.min u64_max (saturating_add_u64 copied (Z.of_nat (length data)) + Z.of_nat (length rest))
  = Z.min u64_max (copied + Z.of_nat (length (data ++ rest))).
Proof. intros. unfold saturating_add_u64, u64_max. rewrite length_app. lia. Qed.

Definition keeps_entries (s s' : MigrationState) : Prop :=
  manifest (transaction s') = manifest (transaction s).

Lemma wp_copy_loop n i o rel completed read copied s tr :
  (0 <= copied <= u64_max)%Z ->
  wpM transcript (copy_loop n i o rel completed read copied) (fun r s' tr' =>
    keeps_entries s s' /\ extends tr tr' /\
    forall all size, r = Ok (all, size) -> exists chunks,
      tr' = tr ++ copying i o chunks /\ all = read ++ concat chunks
      /\ size = Z.min u64_max (copied + Z.of_nat (length (concat chunks)))) s tr.
Proof.
  revert read copied s tr. induction n as [|n IH]; intros read copied s tr Hc; simpl; [done|].
  unfold check_cancelled. apply wpM_bind, wpM_bind. wp_call; [done|]. intros [] g' ->; simpl; [by apply wpM_throw|].
  apply wpM_ret. apply wpM_bind. wp_call; [done|]. intros [data|e] g' ->; simpl; [|by apply wpM_bind].
  apply wpM_bind. apply wpM_lift. simpl. destruct (is_empty data) eqn:Hempty.
  - apply wpM_ret. destruct data; [|done]. split_and!; [done|apply extends_app|].
    intros all size [= <- <-]. exists []. simpl. rewrite app_nil_r. split_and!; [done..|lia].
  - apply wpM_bind. wp_call; [done|]. intros [[]|e] g' ->; simpl; apply wpM_bind, wpM_lift; simpl.
    2: { split_and!; [done|apply extends_app|done]. }
    apply wpM_bind. apply wpM_bind, wpM_get. apply wpM_put.
    apply wpM_bind. apply wpM_bind, wpM_get. apply wpM_ret.
    unfold report. apply wpM_bind. wp_call; [done|]. intros [] g' ->. simpl.
    eapply wpM_mono; [apply IH; apply saturating_add_u64_bound; lia|].
    simpl. intros r s' tr' (Hk & Hx & Hr). split_and!; [done| |].
    + etransitivity; [|exact Hx]. rewrite <- app_assoc. apply extends_app.
    + intros all size Hok. destruct (Hr all size Hok) as (chunks & -> & -> & ->).
      exists (data :: chunks). simpl. rewrite copied_more by lia. by rewrite <- !app_assoc.
Qed.

Lemma wp_read_back n file read s tr :
  wpM transcript (read_back n file read) (fun r s' tr' =>
    s' = s /\ extends tr tr' /\
    forall all, r = Ok all -> exists chunks, tr' = tr ++ rereading file chunks /\ all = read ++ concat chunks) s tr.
Proof.
  revert read s tr. induction n as [|n IH]; intros read s tr; simpl; [done|].
  unfold check_cancelled. apply wpM_bind, wpM_bind. wp_call; [done|]. intros [] g' ->; simpl; [by apply wpM_throw|].
  apply wpM_ret. apply wpM_bind. wp_call; [done|]. intros [data|e] g' ->; simpl; [|by apply wpM_bind].
  apply wpM_bind, wpM_lift. simpl. destruct (is_empty data) eqn:Hempty.
  - apply wpM_ret. destruct data; [|done]. split_and!; [done|apply extends_app|].
    intros all [= <-]. exists []. by rewrite app_nil_r.
  - eapply wpM_mono; [apply IH|]. simpl. intros r s' tr' (-> & Hx & Hr). split_and!; [done| |].
    + etransitivity; [apply extends_app|exact Hx].
    + intros all Hok. destruct (Hr all Hok) as (chunks & -> & ->).
      exists (data :: chunks). unfold rereading. simpl. by rewrite <- !app_assoc.
Qed.

Definition adds_verified (s s' : MigrationState) (tr tr' : list copy_event) : Prop :=
  extends tr tr' /\
  (keeps_entries s s' \/
   exists entry, manifest (transaction s') = manifest (transaction s) ++ [entry] /\ verified tr' entry).

Lemma wp_secure_bind {A B} (m : M MigrationState MigrationError A) (f : A -> M MigrationState MigrationError B) Q s tr :
  mtame secure True m ->
  (forall e, Q (Err e) s tr) -> (forall a, wpM transcript (f a) Q s tr) -> wpM transcript (mbind m f) Q s tr.
Proof.
  intros Hm He Hf. apply wpM_bind. eapply wpM_mono; [by apply wp_secure|].
  intros [a|e] s' g' [-> ->]; [apply Hf|apply He].
Qed.
Lemma wp_close_after {A} handle (m : M MigrationState MigrationError A) Q s tr :
  wpM transcript m Q s tr -> wpM transcript (defer (call (CloseHandle handle)) m) Q s tr.
Proof. intros Hm. apply wpM_defer. eapply wpM_mono; [exact Hm|]. intros r s' g' Hq. wp_call; [done|]. by intros [] g'' ->. Qed.

Lemma wp_verify_copy i o chunks rel sha copied s tr0 tr :
  tr = tr0 ++ copying i o chunks ++ [Flushed o; Synced o; Rewound o] ->
  sha = hex_digest (concat chunks) -> copied = Z.min u64_max (Z.of_nat (length (concat chunks))) ->
  wpM transcript (verify_copy o rel sha copied) (fun _ s' tr' => adds_verified s s' tr tr') s tr.
Proof.
  intros Htr Hsha Hcopied. unfold verify_copy, mig_sha256_file. apply wpM_bind, wpM_bind.
  eapply wpM_mono; [apply wp_read_back|]. intros [back|e] s' tr' (-> & Hx & Hback); [|by split; [|left]].
  destruct (Hback back eq_refl) as (read & -> & ->). apply wpM_ret. simpl.
  destruct (str_eqb sha (hex_digest (concat read))) eqn:Heq; simpl;
    [|apply wpM_bind, wpM_ret, wpM_throw; by split; [|left]].
  apply wpM_bind, wpM_bind. wp_call; [done|]. intros [len|e] g' ->; simpl;
    [|apply wpM_bind, wpM_lift; by split; [|left]].
  apply wpM_bind, wpM_lift, wpM_ret. simpl. destruct (Z.eqb copied len) eqn:Hlen; simpl;
    [|apply wpM_throw; split; [by rewrite <- app_assoc; apply extends_app|by left]].
  apply wpM_bind, wpM_get, wpM_put. split; [by rewrite <- app_assoc; apply extends_app|]. right.
  eexists; split; [done|]. apply Z.eqb_eq in Hlen. subst len.
  exists tr0, [], i, o, chunks, read. simpl. split_and!; [|done|by apply str_eqb_spec in Heq; subst|done].
  unfold verification. rewrite Htr, app_nil_r. by rewrite <- !app_assoc.
Qed.

Hint Resolve secure_close secure_open_directory secure_open_or_create_directory secure_open_file
  secure_create_file secure_entries secure_drop_directory secure_remove secure_create_directory : tame.
Lemma fs_tame {A} (m : M MigrationState SecureFsError A) : mtame secure True m -> mtame secure True (fs m).
Proof. apply mtame_map_err. Qed.
Hint Resolve fs_tame : tame.

Lemma wp_copy_file source destination name rel s tr :
  wpM transcript (copy_file_verified source destination name rel)
    (fun _ s' tr' => adds_verified s s' tr tr') s tr.
Proof.
  assert (adds_verified s s tr tr) as Hrefl by (split; [done|by left]).
  unfold copy_file_verified, copy_contents. apply wp_secure_bind; [eauto with tame|done|]. intros input. apply wp_close_after.
  apply wp_secure_bind; [eauto with tame|done|]. intros [output created]. apply wp_close_after.
  apply wpM_bind, wpM_bind, wpM_get, wpM_put. apply wpM_bind, wpM_bind, wpM_get, wpM_ret. apply wpM_bind.
  eapply wpM_mono; [apply wp_copy_loop; unfold u64_max; lia|].
  simpl. intros [[read copied]|e] s1 tr1 (Hk & Hx & Hr); [|by split; [|left]].
  destruct (Hr read copied eq_refl) as (chunks & -> & -> & ->).
  apply wpM_bind, wpM_bind. wp_call; [done|]. intros [] g' ->; simpl; [by apply wpM_throw; split; [|left]|].
  apply wpM_ret. simpl.
  do 3 (apply wpM_bind; wp_call; [done|]; intros [[]|e] g' ->; simpl; apply wpM_bind, wpM_lift; simpl;
    [|split; [by rewrite <- ?app_assoc; apply extends_app|by left]]).
  apply wpM_bind, wpM_bind, wpM_get, wpM_ret. unfold report. apply wpM_bind. wp_call; [done|]. intros [] g' ->. simpl.
  eapply wpM_mono; [apply (wp_verify_copy input output chunks _ _ _ _ tr); [by rewrite <- !app_assoc|done..]|].
  intros r s' tr' [Hx' Hm]. split.
  - etransitivity; [|exact Hx']. rewrite <- !app_assoc. apply extends_app.
  - revert Hm. unfold keeps_entries in *. simpl. by rewrite Hk.
Qed.
End File.

(** ** The whole migration *)
Section Certified.
Context `{Fuel} `{Extern} `{Sha2}.

(** The function keeps the manifest justified, and its value satisfies [Φ]. *)
Definition certified {E A} (Φ : A -> MigrationState -> Prop) (m : M MigrationState E A) : Prop :=
  forall s tr, justified s tr ->
    wpM transcript m (fun r s' tr' => justified s' tr' /\ forall a, r = Ok a -> Φ a s') s tr.
Definition unspecified {A} (a : A) (s : MigrationState) : Prop := True.

Lemma cert_ret {E A} (a : A) : certified (E:=E) unspecified (ret a).
Proof. by intros s tr Hj. Qed.
Lemma cert_throw {E A} (Φ : A -> MigrationState -> Prop) (e : E) : certified Φ (throw e).
Proof. by intros s tr Hj. Qed.
Lemma cert_lift {E A} (r : result E A) : certified unspecified (lift r).
Proof. by intros s tr Hj. Qed.
Lemma cert_call {E} (a : sys) : certified (E:=E) unspecified (call a).
Proof.
  intros s tr Hj. wp_call; [done|]. intros x tr' ->. split; [|done].
  destruct (see_copy_extends a x tr) as [ext ->]. by apply (justified_app s).
Qed.
Lemma cert_tx {E} : certified (E:=E) unspecified tx.
Proof. by intros s tr Hj. Qed.
Lemma cert_modify {E} f : (forall t, manifest (f t) = manifest t) -> certified (E:=E) unspecified (modify f).
Proof. intros Hf s tr Hj. unfold modify. split; [|done]. unfold justified. simpl. by rewrite Hf. Qed.
Lemma cert_weaken {E A} (Φ : A -> MigrationState -> Prop) (m : M MigrationState E A) :
  certified Φ m -> certified unspecified m.
Proof. intros Hm s tr Hj. eapply wpM_mono; [by apply Hm|]. by intros r s' tr' [Hj' _]. Qed.
Lemma cert_bind {E A B} Φ (m : M MigrationState E A) (f : A -> M MigrationState E B) :
  certified unspecified m -> (forall a, certified Φ (f a)) -> certified Φ (mbind m f).
Proof.
  intros Hm Hf s tr Hj. apply wpM_bind. eapply wpM_mono; [by apply Hm|].
  intros [a|e] s' tr' [Hj' _]; [by apply Hf|done].
Qed.
Lemma cert_map_err {E E' A} Φ (f : E -> E') (m : M MigrationState E A) : certified Φ m -> certified Φ (map_err f m).
Proof.
  intros Hm s tr Hj. apply wpM_map_err. eapply wpM_mono; [by apply Hm|].
  intros [a|e] s' tr' [Hj' HΦ]; (split; [done|]); [intros b [= <-]; by apply HΦ|done].
Qed.
Lemma cert_attempt {E E' A} (m : M MigrationState E A) :
  certified unspecified m -> certified (E:=E') unspecified (attempt m).
Proof. intros Hm s tr Hj. apply wpM_attempt. eapply wpM_mono; [by apply Hm|]. by intros r s' tr' [Hj' _]. Qed.
Lemma cert_tame {E A} (m : M MigrationState E A) : mtame secure True m -> certified unspecified m.
Proof. intros Hm s tr Hj. eapply wpM_mono; [by apply wp_secure|]. by intros r s' tr' [-> ->]. Qed.
Lemma cert_defer {E A} Φ cleanup (m : M MigrationState E A) :
  mtame secure True cleanup -> certified Φ m -> certified Φ (defer cleanup m).
Proof.
  intros Hc Hm s tr Hj. apply wpM_defer. eapply wpM_mono; [by apply Hm|].
  intros r s' tr' Hr. eapply wpM_mono; [by apply wp_secure|]. by intros r' s'' tr'' [-> ->].
Qed.
Lemma cert_on_error {E A} cleanup (m : M MigrationState E A) :
  certified unspecified cleanup -> certified unspecified m -> certified unspecified (on_error cleanup m).
Proof.
  intros Hc Hm s tr Hj. apply wpM_on_error. eapply wpM_mono; [by apply Hm|].
  intros [a|e] s' tr' [Hj' _]; [done|]. eapply wpM_mono; [by apply Hc|]. by intros r s'' tr'' [Hj'' _].
Qed.
Lemma cert_for_each {E A} (f : A -> M MigrationState E unit) l :
  (forall x, certified unspecified (f x)) -> certified unspecified (for_each f l).
Proof. intros Hf. induction l as [|x l IH]; simpl; [apply cert_ret|by apply cert_bind]. Qed.
Lemma wp_whatever {S E A} (m : M S E A) (Q : result E A -> S -> list copy_event -> Prop) s tr :
  (forall r s' tr', extends tr tr' -> Q r s' tr') -> wpM transcript m Q s tr.
Proof.
  intros HQ. eapply wpM_mono; [|intros r s' tr' Hx; by apply HQ, Hx].
  apply (@wpM_keeps sys_signature S _ E A transcript any_call (extends tr)); [done| |done|apply mcalls_any|done].
  intros a g x g' _ Hx ->. etransitivity; [exact Hx|apply see_copy_extends].
Qed.
Lemma cert_on_app {E A} (m : M AppState E A) : certified unspecified (on_app m).
Proof.
  intros s tr Hj. apply wp_bind. eapply wp_mono; [apply (wp_whatever m (fun _ _ tr' => extends tr tr')); by intros|].
  intros [r a] tr' [ext ->]. split; [|done]. by apply (justified_app s).
Qed.
Lemma cert_copy_file source destination name rel :
  certified unspecified (copy_file_verified source destination name rel).
Proof.
  intros s tr Hj. eapply wpM_mono; [apply wp_copy_file|].
  intros r s' tr' [[ext ->] Hm]. split; [|done]. unfold justified in *.
  assert (Forall (verified (tr ++ ext)) (manifest (transaction s))) as Hj'
    by (eapply Forall_impl; [exact Hj|]; intros entry; apply verified_app).
  destruct Hm as [->|(entry & -> & He)]; [done|]. apply Forall_app. split; [done|by constructor].
Qed.

Hint Resolve secure_close secure_open_directory secure_open_or_create_directory secure_open_file
  secure_create_file secure_entries secure_drop_directory secure_remove secure_create_directory fs_tame : tame.
Hint Resolve cert_ret cert_throw cert_lift cert_call cert_tx cert_copy_file cert_on_app : certified.

Ltac solve_certified :=
  repeat first
    [ match goal with |- forall _, _ => intros ? end
    | solve [eauto 2 with certified]
    | match goal with
      | |- certified _ (mbind _ _) => apply cert_bind
      | |- certified _ (map_err _ _) => apply cert_map_err
      | |- certified _ (attempt _) => apply cert_attempt
      | |- certified _ (for_each _ _) => apply cert_for_each
      | |- certified _ (on_error _ _) => apply cert_on_error
      | |- certified _ (defer _ _) => apply cert_defer; [solve [solve_tame]|]
      | |- certified _ (modify _) => by apply cert_modify
      | |- certified _ (match ?x with _ => _ end) => destruct x
      end
    | apply cert_tame; solve [solve_tame] ].

Lemma cert_report {E} ph rel files bytes : certified (E:=E) unspecified (report ph rel files bytes).
Proof. apply cert_call. Qed.
Lemma cert_check : certified unspecified check_cancelled.
Proof. unfold check_cancelled. by solve_certified. Qed.
Lemma cert_push created : certified unspecified (push_optional created).
Proof. unfold push_optional. by solve_certified. Qed.
Lemma cert_drop_current {E} current : certified (E:=E) unspecified (drop_current current).
Proof. unfold drop_current. by solve_certified. Qed.
Hint Resolve cert_report cert_check cert_push cert_drop_current : certified.
Lemma cert_copy_tree depth source destination rel :
  certified unspecified (copy_tree_verified depth source destination rel).
Proof. revert source destination rel. induction depth as [|depth IH]; intros; simpl; [done|by solve_certified]. Qed.
Lemma cert_descend root current cs rel : certified unspecified (descend_if_present root current cs rel).
Proof. revert current. induction cs as [|c cs IH]; intros; simpl; by solve_certified. Qed.
Lemma cert_ensure root current cs rel : certified unspecified (ensure_components root current cs rel).
Proof. revert current. induction cs as [|c cs IH]; intros; simpl; by solve_certified. Qed.
Lemma cert_remove_entries {E} created first : certified (E:=E) unspecified (remove_entries created first).
Proof. revert first. induction created as [|e created IH]; intros; simpl; by solve_certified. Qed.
Hint Resolve cert_copy_tree cert_descend cert_ensure cert_remove_entries : certified.
Lemma cert_copy_root v target root : certified unspecified (copy_root v target root).
Proof. unfold copy_root, open_relative_directory_if_present, ensure_relative_directory. by solve_certified. Qed.
Lemma cert_rollback : certified unspecified transaction_rollback.
Proof. unfold transaction_rollback. by solve_certified. Qed.
Hint Resolve cert_copy_root cert_rollback : certified.

Context `{JournalCodec}.
Lemma cert_log l plan op st det : certified unspecified (mig_log l plan op st det).
Proof. apply cert_on_app. Qed.
Hint Resolve cert_log : certified.

Definition receipted (rc : MigrationReceipt) (s : MigrationState) : Prop := rc = receipt (transaction s).

(** The transaction is the same after a function whose calls are the journal's. *)
Lemma cert_finish l plan : certified receipted (finish_copy l plan).
Proof.
  unfold finish_copy. apply cert_bind; [by solve_certified|]. intros _ s tr Hj.
  apply wpM_bind, wpM_bind, wpM_get, wpM_ret.
  assert (forall (s' : MigrationState) tr', extends tr tr' -> transaction s' = transaction s ->
    justified s' tr' /\ (forall rc, Ok (E:=MigrationError) (receipt (transaction s)) = Ok rc -> receipted rc s')) as Hdone.
  { intros s' tr' [ext ->] Ht. split; [by apply (justified_app s)|]. intros rc [= <-]. unfold receipted. by rewrite Ht. }
  do 3 (try unfold check_cancelled, report; apply wpM_bind; first [apply wpM_bind; wp_call|wp_call]; [done|];
    intros [] g' ->; simpl; [first [by apply wpM_throw|idtac]..]; try apply wpM_ret).
  apply wpM_bind, wpM_map_err. unfold mig_log. apply wp_bind.
  eapply wp_mono; [apply (wp_whatever _ (fun _ _ tr' => extends tr tr')); by intros|].
  intros [[[]|e] a] tr' Hx; simpl; [by apply Hdone|]. split; [|done]. by apply (Hdone _ tr').
Qed.
Hint Resolve cert_finish : certified.
Lemma cert_migrate l plan v : certified receipted (migrate l plan v).
Proof.
  unfold migrate, secure_directory_exists, open_relative_directory_if_present. by solve_certified.
Qed.
Lemma cert_failed Φ l plan error : certified Φ (failed_migration l plan error).
Proof. unfold failed_migration. by solve_certified. Qed.

Definition certifies (r : result MigrationError MigrationReceipt) (s : MigrationState) (tr : list copy_event) : Prop :=
  forall rc, r = Ok rc -> rc = receipt (transaction s) /\ justified s tr.

Lemma wp_cleanup (m : M MigrationState unit unit) r s tr :
  mtame secure True m -> certifies r s tr -> wpM transcript m (fun _ s' tr' => certifies r s' tr') s tr.
Proof. intros Hm Hr. eapply wpM_mono; [by apply wp_secure|]. by intros r' s' tr' [-> ->]. Qed.
Lemma wp_run_migration l plan v s tr : wpM transcript (run_migration l plan v) certifies s tr.
Proof.
  unfold run_migration. apply wpM_bind, wp_whatever. intros [[]|e] s1 tr1 _; [|done].
  apply wpM_bind, wpM_bind, wpM_get, wpM_put. apply wpM_defer, wpM_bind, wpM_attempt.
  eapply wpM_mono; [apply cert_migrate; by apply Forall_nil|]. intros r s2 tr2 [Hj Hr].
  apply (wpM_mono _ _ (fun r' s' tr' => justified s' tr' /\ forall rc, r' = Ok rc -> receipted rc s')).
  - destruct r as [rc|e]; [|by apply cert_failed]. split; [done|]. intros rc' [= <-]. by apply Hr.
  - intros r' s' tr' [Hj' Hr']. eapply wpM_mono; [apply wp_secure; unfold drop_transaction, tx; by solve_tame|].
    intros r'' s'' tr'' [-> ->] rc Hrc. split; [by apply Hr'|done].
Qed.
Lemma wp_execute l plan s tr : wpM transcript (execute_migration_with_cancel l plan) certifies s tr.
Proof.
  unfold execute_migration_with_cancel. apply wpM_bind, wp_whatever. intros [guard|e] s1 tr1 _; [|done].
  apply wpM_defer, wpM_bind, wp_whatever. intros [v|e] s2 tr2 _; [|by apply wp_cleanup; [by solve_tame|]].
  apply wpM_defer. eapply wpM_mono; [apply wp_run_migration|]. intros r s3 tr3 Hr.
  eapply wpM_mono; [apply wp_cleanup; [unfold drop_validated; by solve_tame|exact Hr]|].
  intros r' s4 tr4 Hr'. apply wp_cleanup; [by solve_tame|done].
Qed.
End Certified.

(** C22: a receipt certifies a verified copy.  When a migration succeeds, its
    receipt is that of the manifest of the transaction, and each entry of the
    manifest is justified by the transcript: every chunk read of the source
    was written to the destination in order until the source ended, the
    destination was then flushed, synced and rewound, its chunks read back
    have the SHA-256 of the chunks read of the source, and its length is
    theirs.  No assumption is made on the answers of the system. *)
Theorem migration_certified `{Fuel} `{Extern} `{Sha2} `{JournalCodec} (l : AuditLogger) (plan : MigrationPlan)
    (s : MigrationState) (tr : list copy_event) :
  wpM transcript (execute_migration_with_cancel l plan) (fun r s' tr' =>
    forall rc, r = Ok rc ->
      rc = receipt (transaction s') /\ Forall (verified tr') (manifest (transaction s'))) s tr.
Proof. apply wp_execute. Qed.

(** ** Rolling back *)
Definition removal : Type := Z * bool.
(** What an observer sees of deletions: the handles marked for deletion, and
    whether the system did. *)
Definition see_removal (a : sys) : sys_resp a -> list removal -> list removal :=
  match a return sys_resp a -> list removal -> list removal with
  | SetFileDisposition handle => fun done g => g ++ [(handle, done)]
  | _ => fun _ g => g
  end.
Definition removals : protocol (list removal) := @observer sys_signature (list removal) see_removal.
Definition later (g g' : list removal) : Prop := exists ext, g' = g ++ ext.

Section Rollback.
Context `{Fuel} `{Extern} `{Sha2}.

Definition never_removes (a : sys) : Prop := match a with SetFileDisposition _ => False | _ => True end.
Lemma wp_unremoved {S E A} (m : M S E A) s g :
  mtame never_removes True m -> wpM removals m (fun _ s' g' => s' = s /\ g' = g) s g.
Proof.
  intros Hm. eapply wpM_mono.
  - eapply (@wpM_tame sys_signature S never_removes True _ E A removals eq _); [done| |done|exact Hm].
    intros a g0 x g' Ha ->. by destruct a.
  - by intros r s' g' [-> <-].
Qed.
Lemma wp_remove_entry {S} (e : SecureCreatedEntry) (s : S) g :
  wpM removals (remove e) (fun r s' g' =>
    s' = s /\ exists removed, g' = g ++ [(ce_handle e, removed)] /\ is_ok r = removed) s g.
Proof.
  unfold remove, using_handle. apply wpM_defer. unfold delete_open_handle. apply wpM_bind. wp_call; [done|].
  intros removed g' ->. simpl.
  assert (forall r' : result SecureFsError unit, is_ok r' = removed ->
    wpM removals (close_handle (S:=S) (E:=unit) (ce_handle e)) (fun _ s' g' => s' = s /\ exists removed0,
      g' = g ++ [(ce_handle e, removed0)] /\ is_ok r' = removed0) s (g ++ [(ce_handle e, removed)])) as Hclose.
  { intros r' <-. eapply wpM_mono; [apply wp_unremoved; apply mtame_close_handle; by intros []|].
    intros r s' g' [-> ->]. split; [done|]. by eexists. }
  destruct removed; simpl; [by apply wpM_ret, Hclose|].
  unfold fs_win32_error, last_os_error. apply wpM_bind, wpM_bind. wp_call; [done|]. intros code g' ->.
  apply wpM_ret, wpM_throw. by apply Hclose.
Qed.

Lemma wp_remove_entries {E} created first s g :
  wpM removals (remove_entries (E:=E) created first) (fun r s' g' =>
    s' = s /\ exists outcomes first', g' = g ++ outcomes /\ map fst outcomes = map ce_handle created
      /\ r = Ok first' /\ bool_decide (first' = None) = bool_decide (first = None) && forallb snd outcomes) s g.
Proof.
  revert first s g. induction created as [|e created IH]; intros first s g; simpl.
  { apply wpM_ret. split; [done|]. exists [], first. by rewrite app_nil_r, andb_true_r. }
  apply wpM_bind, wpM_attempt. eapply wpM_mono; [apply wp_remove_entry|].
  intros r s1 g1 [-> (removed & -> & Hr)]. eapply wpM_mono; [apply IH|].
  intros r' s' g' [-> (outcomes & first' & -> & Hf & -> & Hd)]. split; [done|].
  exists ((ce_handle e, removed) :: outcomes), first'. simpl. rewrite <- app_assoc, Hf, Hd.
  split_and!; [done..|]. destruct r, first, removed; by simpl in *.
Qed.

Lemma wp_rollback s g :
  wpM removals transaction_rollback (fun r s' g' =>
    created_entries (transaction s') = [] /\ exists outcomes, g' = g ++ outcomes
    /\ map fst outcomes = rev (map ce_handle (created_entries (transaction s))) /\ is_ok r = forallb snd outcomes) s g.
Proof.
  unfold transaction_rollback. apply wpM_bind, wpM_bind, wpM_get, wpM_ret, wpM_bind, wpM_bind, wpM_get, wpM_put, wpM_bind.
  eapply wpM_mono; [apply wp_remove_entries|].
  intros r s' g' [-> (outcomes & first & -> & Hf & -> & Hd)].
  rewrite map_rev in Hf. destruct first; simpl in *; [apply wpM_throw|apply wpM_ret]; (split; [done|]); by exists outcomes.
Qed.

Context `{JournalCodec}.
Lemma wp_log_later l plan op st det s g :
  wpM removals (mig_log l plan op st det) (fun _ s' g' => transaction s' = transaction s /\ later g g') s g.
Proof.
  apply wp_bind. eapply wp_mono.
  - apply (@wp_keeps sys_signature _ _ removals any_call (later g)); [done| |done|apply mcalls_any|].
    + intros a g1 x g' _ [ext ->] ->. destruct a; try by exists ext.
      exists (ext ++ [(handle, x)]). simpl. by rewrite app_assoc.
    + exists []. by rewrite app_nil_r.
  - intros [r a] g' Hx. by split.
Qed.
End Rollback.

(** C23: a failed migration removes what it created.  It marks for deletion, by
    handle, every object of the transaction, the last created first, once
    each, whatever fails; it always fails; the error is the one that stopped
    the copy (or that of the journal) when every deletion succeeded, and
    otherwise says that the rollback failed after it. *)
Theorem failed_migration_removes `{Fuel} `{Extern} `{Sha2} `{JournalCodec} (l : AuditLogger) (plan : MigrationPlan)
    (error : MigrationError) (s : MigrationState) :
  wpM removals (failed_migration l plan error) (fun r s' g =>
    created_entries (transaction s') = [] /\
    exists outcomes log_outcomes e, g = outcomes ++ log_outcomes
      /\ map fst outcomes = rev (map ce_handle (created_entries (transaction s)))
      /\ r = Err e
      /\ if forallb snd outcomes then e = error \/ exists audit, e = MigAudit audit
         else exists reason, e = RollbackFailed (show_MigrationError error) reason) s [].
Proof.
  unfold failed_migration. apply wpM_bind, wpM_bind, wpM_get, wpM_ret. unfold report.
  apply wpM_bind. wp_call; [done|]. intros [] g ->. simpl. apply wpM_bind, wpM_attempt.
  eapply wpM_mono; [apply wp_rollback|]. intros r s' g (Hc & outcomes & -> & Hf & Hr). simpl.
  destruct r as [[]|undo]; simpl in Hr.
  - apply wpM_bind, wpM_map_err. eapply wpM_mono; [apply wp_log_later|].
    intros [[]|audit] s2 g2 [Ht [ext ->]]; simpl; [apply wpM_throw|]; rewrite Ht; (split; [done|]);
      exists outcomes, ext; eexists; rewrite <- Hr; split_and!; eauto.
  - apply wpM_bind, wpM_attempt. eapply wpM_mono; [apply wp_log_later|].
    intros logged s2 g2 [Ht [ext ->]]. apply wpM_throw. rewrite Ht. split; [done|].
    exists outcomes, ext. eexists. rewrite <- Hr. split_and!; [done..|]. destruct logged; by eexists.
Qed.

(** ** A truthful disk

    What [std::fs::File] documents of two open files and of nothing else: a
    read returns a part of what is left, and an empty one only at the end; a
    write puts the bytes at the cursor; a seek moves it; the length is that of
    the contents.  No call fails, and the migration is not cancelled. *)
Record disk : Type := { unread : list Z; stored : list Z; cursor : nat }.
Definition takes (data left left' : list Z) : Prop := left = data ++ left' /\ (data = [] -> left' = []).
Definition write_at (cursor : nat) (data stored : list Z) : list Z :=
  take cursor stored ++ data ++ drop (cursor + length data) stored.
Definition disk_answers (input output : Z) (a : sys) (g : disk) : sys_resp a -> disk -> Prop :=
  match a return sys_resp a -> disk -> Prop with
  | FileRead file _ => fun r g' => exists data, r = Ok data /\
      if Z.eqb file input
      then exists left, takes data (unread g) left /\ g' = {| unread := left; stored := stored g; cursor := cursor g |}
      else takes data (drop (cursor g) (stored g)) (drop (cursor g + length data) (stored g))
           /\ g' = {| unread := unread g; stored := stored g; cursor := cursor g + length data |}
  | FileWriteAll file data => fun r g' => r = Ok tt /\
      g' = {| unread := unread g; stored := write_at (cursor g) data (stored g); cursor := cursor g + length data |}
  | FileFlush _ | FileSyncAll _ => fun r g' => r = Ok tt /\ g' = g
  | FileSeekStart file offset => fun r g' => r = Ok tt /\
      g' = {| unread := unread g; stored := stored g; cursor := Z.to_nat offset |}
  | FileLength file => fun r g' => r = Ok (Z.of_nat (length (stored g))) /\ g' = g
  | IsCancelled => fun r g' => r = false /\ g' = g
  | OnProgress _ => fun _ g' => g' = g
  | _ => fun _ _ => False
  end.
Definition on_disk (input output : Z) (a : sys) (g : disk) : Prop :=
  match a with
  | FileRead file _ => file = input \/ file = output
  | FileWriteAll file _ | FileFlush file | FileSyncAll file | FileSeekStart file _ | FileLength file => file = output
  | OnProgress _ | IsCancelled => True
  | _ => False
  end.
Definition truthful (input output : Z) : protocol disk :=
  @Protocol sys_signature disk (on_disk input output) (fun a g x g' => disk_answers input output a g x g') False.

Section Disk.
Context `{Fuel} `{Sha2} (input output : Z) (Hio : input <> output).

Lemma is_empty_false {A} (l : list A) : is_empty l = false -> 0 < length l.
Proof. destruct l; simpl; [done|lia]. Qed.
Lemma write_at_end data done : write_at (length done) data done = done ++ data.
Proof. unfold write_at. by rewrite take_ge, drop_ge, app_nil_r by lia. Qed.

Lemma wp_check s g Q :
  Q (Ok tt) s g -> wpM (truthful input output) check_cancelled Q s g.
Proof. intros HQ. unfold check_cancelled. apply wpM_bind. wp_call; [done|]. by intros x g' [-> ->]. Qed.

Lemma copy_loop_disk n rel completed read copied s left done :
  length left < n -> (0 <= copied)%Z ->
  wpM (truthful input output) (copy_loop n input output rel completed read copied) (fun r s' g' =>
    keeps_entries s s' /\
    r = Ok (read ++ left, if is_empty left then copied else Z.min u64_max (copied + Z.of_nat (length left)))
    /\ g' = {| unread := []; stored := done ++ left; cursor := length (done ++ left) |})
    s {| unread := left; stored := done; cursor := length done |}.
Proof.
  revert read copied s left done. induction n as [|n IH]; intros read copied s left done Hn Hc; [lia|].
  simpl. apply wpM_bind, wp_check, wpM_bind. wp_call; [by left|].
  intros r g (data & -> & Hr). rewrite Z.eqb_refl in Hr. destruct Hr as (left' & [Hl He] & ->). simpl in *.
  apply wpM_bind, wpM_lift. simpl. destruct (is_empty data) eqn:Hd.
  { destruct data; [|done]. rewrite (He eq_refl) in Hl |- *. subst left. apply wpM_ret. simpl. by rewrite !app_nil_r. }
  apply is_empty_false in Hd. apply wpM_bind. wp_call; [done|]. intros r g [-> ->]. simpl.
  apply wpM_bind, wpM_lift. simpl. apply wpM_bind, wpM_bind, wpM_get, wpM_put, wpM_bind, wpM_bind, wpM_get, wpM_ret.
  unfold report. apply wpM_bind. wp_call; [done|]. intros x g ->. rewrite write_at_end, <- length_app.
  subst left. rewrite length_app in *. eapply wpM_mono; [apply IH; [lia|unfold saturating_add_u64, u64_max; lia]|].
  simpl. intros r s' g' (Hk & -> & ->). split_and!; [done| |by rewrite <- app_assoc].
  rewrite <- app_assoc. do 2 f_equal. unfold saturating_add_u64. destruct data; [simpl in Hd; lia|]. simpl.
  destruct left'; simpl; lia.
Qed.
Lemma read_back_disk n read s contents pos :
  length contents < pos + n -> pos <= length contents ->
  wpM (truthful input output) (read_back n output read) (fun r s' g' =>
    s' = s /\ r = Ok (read ++ drop pos contents) /\ g' = {| unread := []; stored := contents; cursor := length contents |})
    s {| unread := []; stored := contents; cursor := pos |}.
Proof.
  revert read s pos. induction n as [|n IH]; intros read s pos Hn Hp; [lia|].
  simpl. apply wpM_bind, wp_check, wpM_bind. wp_call; [by right|].
  intros r g (data & -> & Hr). destruct (Z.eqb_spec output input) as [He|_]; [by subst|].
  destruct Hr as [[Hl He] ->]. simpl in *. apply wpM_bind, wpM_lift. simpl.
  assert (length data <= length contents - pos) as Hlen.
  { apply (f_equal length) in Hl. rewrite length_app, !length_drop in Hl. lia. }
  destruct (is_empty data) eqn:Hd.
  - destruct data; [|done]. specialize (He eq_refl). rewrite Nat.add_0_r in *.
    apply wpM_ret. rewrite He, app_nil_r. apply (f_equal length) in He. rewrite length_drop in He. simpl in He.
    by replace pos with (length contents) by lia.
  - apply is_empty_false in Hd. eapply wpM_mono; [apply IH; lia|]. intros r s' g' (-> & -> & ->).
    split_and!; [done| |done]. by rewrite Hl, <- app_assoc.
Qed.
End Disk.

(** C24: a file is copied exactly, and the copy ends.  On a truthful disk, with
    more turns than the source has bytes, the copy of an open file to a new
    one returns success; the destination holds the bytes of the source; and
    the manifest has one more entry, with the path, the length and the SHA-256
    of the source. *)
Theorem copy_contents_exact `{HF : Fuel} `{Sha2} (input output : Z) (rel : path) (contents : list Z)
    (s : MigrationState) (Hio : input <> output) (Hfuel : length contents < fuel)
    (Hsize : (Z.of_nat (length contents) <= u64_max)%Z) :
  wpM (truthful input output) (copy_contents input output rel) (fun r s' g' =>
    r = Ok tt /\ stored g' = contents
    /\ manifest (transaction s') = manifest (transaction s)
         ++ [(display_relative_path rel, Z.of_nat (length contents), hex_digest contents)])
    s {| unread := contents; stored := []; cursor := 0 |}.
Proof.
  unfold copy_contents. apply wpM_bind, wpM_bind, wpM_get, wpM_ret, wpM_bind.
  eapply wpM_mono; [apply (copy_loop_disk input output fuel rel _ [] 0 s contents []); lia|].
  simpl. intros ? s1 g1 (Hk & -> & ->).
  replace (if is_empty contents then _ else _) with (Z.of_nat (length contents)) by (destruct contents; simpl in *; lia).
  apply wpM_bind, wp_check.
  do 2 (apply wpM_bind; wp_call; [done|]; intros ? g [-> ->]; apply wpM_bind, wpM_lift; simpl).
  apply wpM_bind. wp_call; [done|]. intros ? g [-> ->]. apply wpM_bind, wpM_lift. simpl.
  apply wpM_bind, wpM_bind, wpM_get, wpM_ret. unfold report. apply wpM_bind. wp_call; [done|]. intros ? g ->.
  unfold verify_copy, mig_sha256_file. apply wpM_bind, wpM_bind.
  eapply wpM_mono; [apply (read_back_disk input output Hio); simpl; lia|].
  intros ? s2 g2 (-> & -> & ->). apply wpM_ret. simpl. rewrite (proj2 (str_eqb_spec _ _) eq_refl). simpl.
  apply wpM_bind, wpM_bind. wp_call; [done|]. intros ? g [-> ->]. apply wpM_bind, wpM_lift, wpM_ret. simpl.
  rewrite Z.eqb_refl. apply wpM_bind, wpM_get, wpM_put. split_and!; [done..|]. simpl. by rewrite Hk.
Qed.
Lemma copy_contents_exact_witness :
  let s := {| mig_app := {| memory_buffer := []; buffer_poisoned := false; snapshot_sequence := 0 |}; transaction := empty_transaction |} in
  wpM (truthful 1 2) (@copy_contents 4 id 1 2 ($"a.txt")) (fun r s' g' =>
    r = Ok tt /\ stored g' = [104; 105]%Z
    /\ manifest (transaction s') = [($"a.txt", 2%Z, $"6869")])
    s {| unread := [104; 105]%Z; stored := []; cursor := 0 |}.
Proof.
  apply (@copy_contents_exact 4 id 1 2 ($"a.txt") [104; 105]%Z); [by vm_compute|unfold fuel; simpl; lia|by vm_compute].
Defined.
