(* ===== verification/PlanPaths.v ===== *)
(** * PlanPaths: the paths a migration plan may name

    The paths [release_absolute_path] accepts are characterised exactly: the
    canonical drive paths, which it returns unchanged.  Two accepted paths
    overlap when one's key is the other's or a prefix of it that ends at a
    component. *)

From stdpp Require Import base list strings.
From S2P Require Import Prelude Text Path Effects Models Win32 Registry Security SecureFs Storage Journal Migration.

(** ** Names *)
Definition admissible (name : wide) : Prop :=
  let value := display name in
  value <> [] /\ (forall c, last value = Some c -> c <> DOT /\ c <> SPACE)
  /\ Forall (fun c => (31 < c)%Z /\ c ∉ FORBIDDEN_CHARACTERS) value /\ is_reserved value = false.

Lemma contains_char_false s c : contains_char s c = false <-> c ∉ s.
Proof. rewrite <- not_true_iff_false. by rewrite contains_char_spec. Qed.
Lemma existsb_false_Forall {A} (f : A -> bool) l : existsb f l = false <-> Forall (fun x => f x = false) l.
Proof.
  induction l as [|x l IH]; simpl; [done|]. rewrite orb_false_iff, IH. split; [by intros []; constructor|].
  by inversion 1.
Qed.
Lemma is_empty_spec {A} (l : list A) : is_empty l = false <-> l <> [].
Proof. by destruct l. Qed.

Lemma validate_windows_component_spec name label :
  validate_windows_component name label = Ok tt <-> admissible name.
Proof.
  unfold validate_windows_component, admissible, ends_in_dot_or_space.
  set (value := display name). clearbody value. generalize FORBIDDEN_CHARACTERS as forbidden. intros forbidden.
  destruct (is_empty value) eqn:He; simpl.
  { split; [done|]. intros (Hne & _). by destruct value. }
  apply is_empty_spec in He.
  destruct (match last value with Some c => _ | None => false end) eqn:Hl; simpl.
  { split; [done|]. intros (_ & Hd & _). destruct (last value) as [c|]; [|done].
    destruct (Hd c eq_refl). apply orb_true_iff in Hl as [?%Z.eqb_eq|?%Z.eqb_eq]; done. }
  assert (forall c, last value = Some c -> c <> DOT /\ c <> SPACE) as Hd.
  { intros c Hc. rewrite Hc in Hl. apply orb_false_iff in Hl as [?%Z.eqb_neq ?%Z.eqb_neq]. done. }
  destruct (existsb _ value) eqn:Hx; simpl.
  - split; [done|]. intros (_ & _ & Hf & _). apply existsb_exists in Hx as (c & Hc%list_elem_of_In & Hb).
    rewrite Forall_forall in Hf. destruct (Hf c Hc) as [H31 Hnot].
    apply orb_true_iff in Hb as [?%Z.leb_le|?%contains_char_spec]; [lia|done].
  - apply existsb_false_Forall in Hx.
    assert (Forall (fun c => (31 < c)%Z /\ c ∉ forbidden) value) as Hf.
    { eapply Forall_impl; [exact Hx|]. intros c [?%Z.leb_gt ?%contains_char_false]%orb_false_iff. done. }
    destruct (is_reserved value); [by split; [|intros (_ & _ & _ & ?)]|by split].
Qed.

(** What the text functions need of a name. *)
Definition named (name : wide) : Prop := plain name /\ name <> $"." /\ name <> $"..".
Lemma admissible_named name : admissible name -> named name.
Proof.
  intros (Hne & Hlast & Hf & _). rewrite Forall_forall in Hf.
  assert (forall u, u ∈ name -> is_surrogate u = false -> u ∉ FORBIDDEN_CHARACTERS) as Hallowed.
  { intros u Hu Hs. by apply (Hf u), elem_of_lossy. }
  split_and!; [split; [by intros ->|]|intros ->; by destruct (Hlast DOT eq_refl)..].
  apply Forall_forall. intros u Hu. unfold is_separator. rewrite orb_false_iff, !Z.eqb_neq.
  split_and!; intros ->; by apply (Hallowed _ Hu); [|apply contains_char_spec].
Qed.

(** ** Canonical drive paths *)
Definition drive_path (drive : Z) (names : list wide) : path :=
  drive :: COLON :: BACKSLASH :: join [BACKSLASH] names.

Section Drive.
Context (drive : Z) (Hdrive : is_ascii_alphabetic drive = true).

Lemma body_of_names names : Forall named names -> body_of (join [BACKSLASH] names) = map Normal names.
Proof.
  intros Hall. destruct (decide (names = [])) as [->|Hne]; [done|]. unfold body_of.
  rewrite split_on_join; [|done|done|].
  2:{ eapply Forall_impl; [exact Hall|]. intros n [[_ Hs] _]. eapply Forall_impl; [exact Hs|]. by intros u []. }
  clear Hne. induction Hall as [|n names [[Hn _] [Hdot Hdots]] _ IH]; [done|].
  assert (parse_single false n = Some (Normal n)) as Hp.
  { unfold parse_single. destruct n; [done|]. simpl is_empty. unfold str_eqb. by rewrite !bool_decide_false. }
  simpl. rewrite Hp. f_equal. exact IH.
Qed.

(** *** Pushing names *)
Lemma join_snoc names name :
  join [BACKSLASH] (names ++ [name])
  = join [BACKSLASH] names ++ (if is_empty names then [] else [BACKSLASH]) ++ name.
Proof.
  induction names as [|n names IH]; [done|]. destruct names as [|n' names]; [done|].
  change ((n :: n' :: names) ++ [name]) with (n :: (n' :: names) ++ [name]).
  rewrite join_cons by (by destruct names). rewrite (join_cons _ n (n' :: names)) by done.
  rewrite IH. simpl is_empty. by rewrite <- !app_assoc.
Qed.
Lemma named_last name u : named name -> last name = Some u -> is_separator u = false.
Proof.
  intros [[_ Hs] _] Hl. rewrite Forall_forall in Hs. apply Hs. apply last_Some in Hl as [l ->].
  apply elem_of_app. right. by left.
Qed.
Lemma join_last names :
  Forall named names -> names <> [] -> exists u, last (join [BACKSLASH] names) = Some u /\ is_separator u = false.
Proof.
  intros Hall Hne. destruct (exists_last Hne) as (names' & n & ->). apply Forall_app in Hall as [_ Hn].
  inversion_clear Hn as [|? ? Hnamed _]. destruct (last n) as [u|] eqn:Hu.
  - exists u. split; [|by eapply named_last]. apply last_Some in Hu as [l ->].
    by rewrite join_snoc, !app_assoc, last_snoc.
  - apply last_None in Hu as ->. by destruct Hnamed as [[? _] _].
Qed.
Lemma drive_path_push names name :
  Forall named names -> named name ->
  path_join (drive_path drive names) name = drive_path drive (names ++ [name]).
Proof.
  intros Hall Hn. unfold drive_path. rewrite path_join_drive by (done || apply Hn). rewrite join_snoc.
  destruct (decide (names = [])) as [->|Hne]; [done|].
  destruct (join_last names Hall Hne) as (u & -> & ->). rewrite <- app_assoc. by destruct names.
Qed.
Lemma push_normal_names label done names :
  Forall named done -> Forall admissible names ->
  push_normal (drive_path drive done) (map Normal names) label = Ok (drive_path drive (done ++ names)).
Proof.
  intros Hdone Hall. revert done Hdone. induction Hall as [|n names Hn _ IH]; intros done Hdone; simpl.
  { by rewrite app_nil_r. }
  rewrite (proj2 (validate_windows_component_spec n label) Hn). simpl.
  rewrite drive_path_push by (try done; by apply admissible_named). rewrite IH.
  - by rewrite <- app_assoc.
  - apply Forall_app. split; [done|]. constructor; [by apply admissible_named|done].
Qed.
Lemma drive_path_root : path_join [drive; COLON] ($"\") = drive_path drive [].
Proof.
  unfold path_join, prefix_verbatim. by rewrite (parse_prefix_drive drive []).
Qed.
End Drive.

Lemma push_normal_admissible base names label q :
  push_normal base (map Normal names) label = Ok q -> Forall admissible names.
Proof.
  revert base. induction names as [|n names IH]; intros base; simpl; [by constructor|].
  destruct (validate_windows_component n label) as [[]|] eqn:Hn; simpl; [|done].
  intros Hq. constructor; [by eapply validate_windows_component_spec|by eapply IH].
Qed.
Lemma same_components_refl cs : same_components cs cs = true.
Proof.
  induction cs as [|c cs IH]; [done|]. simpl. rewrite IH, andb_true_r.
  destruct c; simpl; try done; by apply bool_decide_true.
Qed.

(** *** The raw check *)
Lemma join_not_empty names : Forall named names -> is_empty (join [BACKSLASH] names) = is_empty names.
Proof.
  intros [|n names' [[Hne _] _] _]; [done|]. destruct n as [|u n]; [done|]. by destruct names'.
Qed.
Lemma join_no_slash names : Forall named names -> FORWARD_SLASH ∉ join [BACKSLASH] names.
Proof.
  induction 1 as [|n names [[_ Hs] _] _ IH]; [by intros ?%not_elem_of_nil|].
  assert (FORWARD_SLASH ∉ n) as Hn.
  { intros Hin. rewrite Forall_forall in Hs. by apply Hs in Hin as [Hin _]. }
  destruct names as [|n' names]; [done|]. rewrite join_cons by done.
  intros [?|[Hb|?]%elem_of_app]%elem_of_app; [done| |done]. by apply list_elem_of_singleton in Hb.
Qed.
Lemma split_join_named names :
  Forall named names -> names <> [] -> split_char BACKSLASH (join [BACKSLASH] names) = names.
Proof.
  intros Hall Hne. unfold split_char. apply split_on_join; [by apply bool_decide_true|done|].
  eapply Forall_impl; [exact Hall|]. intros n [[_ Hs] _]. eapply Forall_impl; [exact Hs|].
  intros u [Hu _]. apply bool_decide_false. by intros ->.
Qed.
Lemma validate_raw_named drive names label :
  is_ascii_alphabetic drive = true -> Forall named names ->
  validate_raw_release_path (drive_path drive names) label = Ok tt.
Proof.
  intros Hd Hall. unfold validate_raw_release_path, drive_path. rewrite Hd, !Z.eqb_refl.
  assert (contains_char (drive :: COLON :: BACKSLASH :: join [BACKSLASH] names) FORWARD_SLASH = false) as ->.
  { apply contains_char_false. intros [Hs|[?|[?|Hin]%elem_of_cons]%elem_of_cons]%elem_of_cons; try done.
    - by rewrite <- Hs in Hd.
    - by apply (join_no_slash names). }
  cbn [orb negb]. rewrite join_not_empty by done. destruct (is_empty names) eqn:Hne; [done|].
  apply is_empty_spec in Hne. rewrite split_join_named by done.
  replace (existsb _ names) with false; [done|]. symmetry. apply existsb_false_Forall.
  eapply Forall_impl; [exact Hall|]. intros n [[Hn _] [Hdot Hdots]]. unfold str_eqb.
  rewrite !bool_decide_false by done. by destruct n.
Qed.
Lemma validate_raw_shape p label :
  validate_raw_release_path p label = Ok tt ->
  exists drive names, p = drive_path drive names /\ is_ascii_alphabetic drive = true
    /\ body_of (join [BACKSLASH] names) = map Normal names.
Proof.
  unfold validate_raw_release_path. destruct p as [|d [|c [|b rest]]]; try done.
  destruct (is_ascii_alphabetic d) eqn:Hd; [|done]. destruct (Z.eqb_spec c COLON) as [->|]; [|done].
  destruct (Z.eqb_spec b BACKSLASH) as [->|]; [|done]. cbn [orb negb].
  destruct (contains_char _ FORWARD_SLASH) eqn:Hs; [done|]. apply contains_char_false in Hs.
  destruct (is_empty rest) eqn:He; [intros _; exists d, []; destruct rest; by split_and!|].
  destruct (existsb _ _) eqn:Hx; [done|]. intros _. apply existsb_false_Forall in Hx.
  exists d, (split_char BACKSLASH rest). unfold drive_path.
  assert (join [BACKSLASH] (split_char BACKSLASH rest) = rest) as -> by apply join_split_on.
  split_and!; [done..|]. unfold body_of.
  assert (split_on is_separator rest = split_char BACKSLASH rest) as ->.
  { assert (FORWARD_SLASH ∉ rest) as Hr by (intros ?; apply Hs; by do 3 right). clear -Hr.
    unfold split_char. induction rest as [|u rest IH]; [done|].
    simpl. rewrite IH by (intros ?; apply Hr; by right). unfold is_separator.
    destruct (Z.eqb_spec u FORWARD_SLASH) as [->|_]; [by destruct Hr; left|]. rewrite orb_false_r.
    by destruct (Z.eqb_spec u BACKSLASH) as [->|]; [rewrite bool_decide_true|rewrite bool_decide_false]. }
  induction Hx as [|n names Hn _ IH]; [done|]. simpl.
  assert (parse_single false n = Some (Normal n)) as ->.
  { apply orb_false_iff in Hn as [[Hn Hdot]%orb_false_iff Hdots]. unfold parse_single. rewrite Hn.
    change ($".") with [DOT]. change ($"..") with [DOT; DOT]. by rewrite Hdot, Hdots. }
  f_equal. exact IH.
Qed.

Lemma released_shape p q label :
  release_absolute_path p label = Ok q ->
  q = p /\ exists drive names,
    p = drive_path drive names /\ is_ascii_alphabetic drive = true /\ Forall admissible names.
Proof.
  unfold release_absolute_path. destruct (is_empty p); [done|].
  destruct (validate_raw_release_path p label) as [[]|] eqn:Hraw; simpl; [|done].
  apply validate_raw_shape in Hraw as (drive & names & -> & Hd & Hnames).
  unfold drive_path at 1. rewrite components_drive, Hnames by done. simpl.
  rewrite drive_path_root by done. destruct (push_normal _ _ _) as [n|] eqn:Hpush; simpl; [|done].
  apply push_normal_admissible in Hpush as Hall.
  rewrite (push_normal_names drive Hd label [] names) in Hpush by done. injection Hpush as <-.
  destruct (negb _); [done|]. intros [= <-]. split; [done|]. by exists drive, names.
Qed.

(** C27: exactly the canonical drive paths are released, unchanged.  A path is
    accepted if and only if it is a letter, a colon, a backslash, and names
    joined by single backslashes, where each name is displayed non-empty,
    without control characters, forbidden characters, or a final dot or
    space, and names no device; and what is returned is the path itself.  A
    released path has no [..], no alternate stream, no share and no verbatim
    prefix. *)
Theorem release_absolute_path_canonical (p q : path) (label : str) :
  release_absolute_path p label = Ok q <->
  q = p /\ exists drive names,
    p = drive_path drive names /\ is_ascii_alphabetic drive = true /\ Forall admissible names.
Proof.
  split.
  - apply released_shape.
  - intros (-> & drive & names & -> & Hd & Hall).
    assert (Forall named names) as Hplain by (eapply Forall_impl; [exact Hall|]; apply admissible_named).
    unfold release_absolute_path. simpl is_empty. rewrite validate_raw_named by done.
    unfold drive_path at 1. rewrite components_drive, body_of_names by done. simpl. rewrite drive_path_root by done.
    rewrite push_normal_names by done. simpl. unfold path_eqb. by rewrite same_components_refl.
Qed.

(** What the prevalidation returns are the paths of the plan. *)
Definition preflight_of (plan : MigrationPlan) (v : MigrationPreflight) : Prop :=
  mp_source_path v = encode_utf16 (source_path plan) /\ mp_target_path v = encode_utf16 (target_path plan).

Section Prevalidation.
Context {S : Type} `{Fuel} `{Extern}.

Lemma validated_target source target directory :
  mvalues (fun v => vm_source_path v = source /\ vm_target_path v = target)
    (validate_target (S:=S) source target directory).
Proof.
  unfold validate_target. destruct (parent target); [|done]. destruct (file_name target); [|done].
  apply mvalues_then. intros _. apply mvalues_then. intros opened. apply mvalues_on_error.
  destruct (is_within _ _); [done|]. apply mvalues_then. by intros [].
Qed.
Lemma prevalidated_paths plan : mvalues (preflight_of plan) (prevalidate_migration_plan (S:=S) plan).
Proof.
  unfold prevalidate_migration_plan, preflight_of.
  apply (mvalues_bind (fun v => vm_source_path v = encode_utf16 (source_path plan)
                                /\ vm_target_path v = encode_utf16 (target_path plan))).
  - unfold validate_for_execution. destruct (is_empty _); [done|]. destruct (_ && _); [done|].
    apply (mvalues_bind (fun p => p = encode_utf16 (source_path plan))).
    { apply mvalues_lift. intros p Hp. by apply released_shape in Hp as [-> _]. }
    intros source ->. apply (mvalues_bind (fun p => p = encode_utf16 (target_path plan))).
    { apply mvalues_lift. intros p Hp. by apply released_shape in Hp as [-> _]. }
    intros target ->.
    destruct (paths_overlap _ _); [done|]. apply mvalues_then. intros _. apply mvalues_then. intros directory.
    apply mvalues_on_error, validated_target.
  - intros v [<- <-]. apply mvalues_then. intros _. by apply mvalues_ret.
Qed.
End Prevalidation.

Example release_profile :
  release_absolute_path ($"D:\Profiles\Ada") ($"source") = Ok ($"D:\Profiles\Ada").
Proof. vm_compute. reflexivity. Qed.
Example release_device : is_ok (release_absolute_path ($"D:\Profiles\com1.txt") ($"source")) = false.
Proof. vm_compute. reflexivity. Qed.
Example release_stream : is_ok (release_absolute_path ($"D:\Profiles\Ada:x") ($"source")) = false.
Proof. vm_compute. reflexivity. Qed.

(** ** Overlap *)
Lemma join_app {A} (sep : list A) ls ls' :
  ls <> [] -> ls' <> [] -> join sep (ls ++ ls') = join sep ls ++ sep ++ join sep ls'.
Proof.
  intros Hne Hne'. induction ls as [|l ls IH]; [done|]. destruct ls as [|l' ls].
  { change ([l] ++ ls') with (l :: ls'). by rewrite join_cons. }
  change ((l :: l' :: ls) ++ ls') with (l :: ((l' :: ls) ++ ls')).
  rewrite join_cons, (join_cons _ l (l' :: ls)), IH by done. by rewrite <- !app_assoc.
Qed.
Lemma nested_key_spec outer inner :
  nested_key outer inner = true <-> exists rest, inner = outer ++ BACKSLASH :: rest.
Proof.
  unfold nested_key. destruct (strip_prefix outer inner) as [suffix|] eqn:Hs.
  - apply strip_prefix_spec in Hs as ->. destruct suffix as [|c suffix].
    + split; [done|]. intros [rest Hr]. apply (f_equal length) in Hr. rewrite !length_app in Hr. simpl in Hr. lia.
    + change ($"\") with [BACKSLASH]. cbn [starts_with]. rewrite andb_true_r, Z.eqb_eq. split.
      * intros <-. by exists suffix.
      * intros [rest [= ->]%app_inv_head]. done.
  - split; [done|]. intros [rest ->]. by rewrite (proj2 (strip_prefix_spec _ _ _) eq_refl) in Hs.
Qed.
Definition key_names `{Extern} (p : path) : list str := split_char BACKSLASH (normalized_path_key p).
Lemma nested_or_equal outer inner :
  outer = inner \/ nested_key outer inner = true
  <-> split_char BACKSLASH outer `prefix_of` split_char BACKSLASH inner.
Proof.
  rewrite nested_key_spec. unfold split_char. split.
  - intros [->|[rest ->]]; [done|]. rewrite split_on_app by (by apply bool_decide_true). by eexists.
  - intros [more Hm]. apply (f_equal (join [BACKSLASH])) in Hm. rewrite (join_split_on BACKSLASH) in Hm.
    destruct (decide (more = [])) as [->|Hne].
    + left. by rewrite app_nil_r, (join_split_on BACKSLASH) in Hm.
    + right. exists (join [BACKSLASH] more). rewrite Hm, join_app by (done || apply split_on_nonempty).
      by rewrite (join_split_on BACKSLASH).
Qed.

(** Two paths overlap exactly when one is, name by name, an ancestor of the
    other or the same, whatever the case, the kind of slash and the trailing
    slashes: a sibling whose name starts with the other's does not overlap. *)
Theorem paths_overlap_names `{Extern} (first second : path) :
  paths_overlap first second = true <->
  key_names first `prefix_of` key_names second \/ key_names second `prefix_of` key_names first.
Proof.
  unfold paths_overlap, key_names. rewrite <- !nested_or_equal, !orb_true_iff, str_eqb_spec. naive_solver.
Qed.
