(* ===== verification/Legacy.v ===== *)
(** * Legacy: detachment of storage left by older releases (audit-journal/src/legacy.rs)

    The object found at the place of the storage root is renamed aside by handle
    and a protected directory takes its name.  A journal of phases, one
    published file each, makes the transition resumable.  [serde_json] on the
    records is the parameter [StateCodec]. *)

From stdpp Require Import base list gmap strings.
From S2P Require Import Prelude Text Path Effects Models Win32 Registry Security SecureFs Storage.

Definition BOOTSTRAP_LOCK : str := $".bootstrap.lock".
Definition BOOTSTRAP_LOCK_TIMEOUT : Z := 2000.
Definition STATE_PREFIX : str := $"migration-".
Definition STATE_SUFFIX : str := $".json".
Definition LEGACY_PREFIX : str := $"WinProfile.Legacy.Untrusted.".
Definition NEXT_PREFIX : str := $"WinProfile.Next.".
Definition AUDIT_OPERATION : str := $"LegacyStorageDetached".
Definition AUDIT_ACTOR : str := $"WinProfile-Admin".

Inductive LegacyStorageError : Type :=
| LegStorage (e : StorageError)
| LegSerialization (reason : str)
| LegIo (e : io_error)
| PublishedStateSync (name : str) (source : io_error)
| StatePublication (name : str) (source : StorageError)
| LegPrivilege (e : SecurityError)
| OperationAndPrivilegeRestore (operation_error restore_error : str)
| LegPrivilegeRestore (reason : str)
| IdentityChanged
| InvalidState (reason : str)
| AmbiguousState
| RandomFailed (status : Z).

Definition show_LegacyStorageError `{Extern} (e : LegacyStorageError) : str :=
  match e with
  | LegStorage e => $"protected storage error: " ++ show_StorageError e
  | LegSerialization reason => $"legacy migration state serialization failed: " ++ reason
  | LegIo e => $"legacy migration state IO failed: " ++ show_io_error e
  | PublishedStateSync name source =>
      $"legacy migration state " ++ name ++ $" was published but final synchronization failed: "
      ++ show_io_error source
  | StatePublication name source =>
      $"legacy migration state " ++ name ++ $" publication failed with an ambiguous durable result: "
      ++ show_StorageError source
  | LegPrivilege e => $"privilege adjustment failed: " ++ show_SecurityError e
  | OperationAndPrivilegeRestore operation_error restore_error =>
      $"legacy namespace operation failed (" ++ operation_error
      ++ $") and privilege restoration failed (" ++ restore_error ++ $")"
  | LegPrivilegeRestore reason =>
      $"privilege restoration failed after a recoverable namespace transition: " ++ reason
  | IdentityChanged => $"legacy source identity changed after consent; no object was moved"
  | InvalidState reason => $"legacy migration state is invalid: " ++ reason
  | AmbiguousState => $"multiple unfinished legacy migrations are present"
  | RandomFailed status => $"Windows secure random generation failed with NTSTATUS " ++ hex_i32 status
  end.

(** ** Phases

    [MigrationPhase] of legacy.rs. *)
Inductive DetachPhase : Type := Prepared | Detached | RootReady | AuditPending | PhaseDone.
#[export] Instance DetachPhase_eq_dec : EqDecision DetachPhase.
Proof. solve_decision. Defined.
Definition phase_number (p : DetachPhase) : Z :=
  match p with Prepared => 0 | Detached => 1 | RootReady => 2 | AuditPending => 3 | PhaseDone => 4 end.
Definition next_phase (p : DetachPhase) : option DetachPhase :=
  match p with
  | Prepared => Some Detached
  | Detached => Some RootReady
  | RootReady => Some AuditPending
  | AuditPending => Some PhaseDone
  | PhaseDone => None
  end.
Definition label (p : DetachPhase) : str :=
  match p with
  | Prepared => $"prepared"
  | Detached => $"detached"
  | RootReady => $"root-ready"
  | AuditPending => $"audit-pending"
  | PhaseDone => $"done"
  end.
Inductive RecoveryPlan : Type :=
| DetachAndActivate | Activate | MarkAuditPending | RetryTerminalAudit | CompletePlan.
Definition recovery_plan (p : DetachPhase) : RecoveryPlan :=
  match p with
  | Prepared => DetachAndActivate
  | Detached => Activate
  | RootReady => MarkAuditPending
  | AuditPending => RetryTerminalAudit
  | PhaseDone => CompletePlan
  end.

Record MigrationStateRecord : Type := {
  schema : Z;
  migration_id : str;
  state_phase : DetachPhase;
  source_identity : StorageObjectIdentity;
  next_identity : StorageObjectIdentity;
  legacy_name : str;
  next_name : str;
}.
#[export] Instance MigrationStateRecord_eq_dec : EqDecision MigrationStateRecord.
Proof. solve_decision. Defined.
Definition with_phase (p : DetachPhase) (state : MigrationStateRecord) : MigrationStateRecord :=
  {| schema := schema state; migration_id := migration_id state; state_phase := p;
     source_identity := source_identity state; next_identity := next_identity state;
     legacy_name := legacy_name state; next_name := next_name state |}.

(** [serde_json] on the records: what it writes, what it reads from a whole
    file, and the prefixes on which a reader stops. *)
Class StateCodec : Type := {
  state_to_vec : MigrationStateRecord -> list Z;
  state_from_slice : list Z -> result str MigrationStateRecord;
  state_rejects : list Z -> option str;
}.

Definition state_file_name (state : MigrationStateRecord) : str :=
  STATE_PREFIX ++ migration_id state ++ $"-" ++ dec (phase_number (state_phase state)) ++ $"-"
  ++ label (state_phase state) ++ STATE_SUFFIX.

(** ** Results *)
Record ProductionStorage : Type := { ps_root : StorageRoot }.
Record LegacyStorageRecovery : Type := {
  reason : str; detected_identity : StorageObjectIdentity; resume : bool }.
Inductive ProductionStorageState : Type :=
| Ready (storage : ProductionStorage)
| NeedsConsent (recovery : LegacyStorageRecovery)
| NeedsResume (recovery : LegacyStorageRecovery).
Record PendingProductionStorage : Type := {
  pending_storage : ProductionStorage;
  bootstrap : StorageDirectory;
  bootstrap_lock : Z;
  pending_state : MigrationStateRecord;
}.
Definition audit_details (p : PendingProductionStorage) : str :=
  $"migration_id=" ++ migration_id (pending_state p) ++ $"; legacy_object=" ++ legacy_name (pending_state p)
  ++ $"; contents are untrusted, opaque, not imported, and retain their previous permissions".

(** ** The inventory of phases

    A [BTreeMap] from the migration's id to its records is the list of its
    entries in the order of the keys. *)
Fixpoint group_record (record : MigrationStateRecord) (grouped : list (str * list MigrationStateRecord))
    : list (str * list MigrationStateRecord) :=
  match grouped with
  | [] => [(migration_id record, [record])]
  | (id, records) :: grouped' =>
      if str_eqb id (migration_id record) then (id, records ++ [record]) :: grouped'
      else if str_le id (migration_id record) then (id, records) :: group_record record grouped'
      else (migration_id record, [record]) :: grouped
  end.
(** [sort_by_key] is stable. *)
Fixpoint insert_phase (record : MigrationStateRecord) (records : list MigrationStateRecord)
    : list MigrationStateRecord :=
  match records with
  | [] => [record]
  | r :: records' =>
      if (phase_number (state_phase record) <=? phase_number (state_phase r))%Z then record :: records
      else r :: insert_phase record records'
  end.
Definition sort_by_phase (records : list MigrationStateRecord) : list MigrationStateRecord :=
  foldr insert_phase [] records.

Definition follows_in_sequence (first second : MigrationStateRecord) : bool :=
  bool_decide (next_phase (state_phase first) = Some (state_phase second))
  && bool_decide (source_identity first = source_identity second)
  && bool_decide (next_identity first = next_identity second)
  && str_eqb (legacy_name first) (legacy_name second)
  && str_eqb (next_name first) (next_name second).
(** [windows(2)] *)
Fixpoint sequence_consistent (records : list MigrationStateRecord) : bool :=
  match records with
  | first :: ((second :: _) as records') => follows_in_sequence first second && sequence_consistent records'
  | _ => true
  end.
Definition latest_unfinished (records : list MigrationStateRecord)
    : result LegacyStorageError (option MigrationStateRecord) :=
  let records := sort_by_phase records in
  if negb (bool_decide (state_phase <$> head records = Some Prepared))
  then Err (InvalidState ($"migration does not start at prepared"))
  else if negb (sequence_consistent records)
  then Err (InvalidState ($"migration state sequence is inconsistent"))
  else Ok (match last records with
           | Some latest => if bool_decide (state_phase latest = PhaseDone) then None else Some latest
           | None => None
           end).
Fixpoint collect_pending (groups : list (str * list MigrationStateRecord)) (pending : list MigrationStateRecord)
    : result LegacyStorageError (list MigrationStateRecord) :=
  match groups with
  | [] => Ok pending
  | (_, records) :: groups' =>
      let? latest := latest_unfinished records in
      collect_pending groups' (pending ++ match latest with Some r => [r] | None => [] end)
  end.
Definition select_pending (grouped : list (str * list MigrationStateRecord))
    : result LegacyStorageError (option MigrationStateRecord) :=
  let? pending := collect_pending grouped [] in
  match pending with
  | [] => Ok None
  | [state] => Ok (Some state)
  | _ => Err AmbiguousState
  end.

Section Legacy.
Context {S : Type} `{Fuel} `{Extern} `{StateCodec}.
Abbreviation LM := (M S LegacyStorageError).

Definition leg {A} (m : M S StorageError A) : LM A := map_err LegStorage m.
Definition leg_io {A} (r : result io_error A) : LM A := lift (result_map_err LegIo r).

Definition random_id : LM str :=
  let* '(status, bytes) := call (BCryptGenRandom 16) in
  if (status <? 0)%Z then throw (RandomFailed status) else ret (flat_map hex2 (written_over 16 bytes)).

(** [Read::read_to_end], in pieces of a size the standard library chooses. *)
Definition READ_CHUNK : Z := 32.
Fixpoint read_to_end (turns : nat) (file : Z) (bytes : list Z) : M S io_error (list Z) :=
  match turns with
  | O => out_of_fuel
  | Datatypes.S turns' =>
      let* r := call (FileRead file READ_CHUNK) in
      let* data := lift r in
      if is_empty data then ret bytes else read_to_end turns' file (bytes ++ data)
  end.

(** ** The phase journal *)
(** An IO error of the reader is a serialization error. *)
Definition read_state (file : Z) : LM MigrationStateRecord :=
  map_err LegSerialization
    (defer (call (CloseHandle file)) (from_reader state_rejects state_from_slice fuel file [])).

(** The new record is written to a hidden temporary file, synced, and published
    under its name, which must be free. *)
Definition write_state (bootstrap : StorageDirectory) (state : MigrationStateRecord) : LM unit :=
  let final_name := state_file_name state in
  let* opened := attempt (st_open_file bootstrap (encode_utf16 final_name) FILE_GENERIC_READ FILE_SHARE_READ) in
  match opened with
  | Ok file =>
      let* existing := read_state file in
      if bool_decide (existing = state) then ret tt
      else throw (InvalidState ($"state collision for " ++ final_name))
  | Err error =>
      if negb (is_not_found error) then throw (LegStorage error)
      else
        let* id := random_id in
        let temp_name := $"." ++ migration_id state ++ $"-" ++ id ++ $".tmp" in
        let* created := leg (create_state_file bootstrap temp_name) in
        do* on_error (drop_created created)
              (let bytes := state_to_vec state in
               let* r := call (FileWriteAll (cf_file created) bytes) in do* leg_io r in
               let* r := call (FileFlush (cf_file created)) in do* leg_io r in
               let* r := call (FileSyncAll (cf_file created)) in leg_io r) in
        let* published := map_err (StatePublication final_name) (publish created bootstrap final_name) in
        defer (call (CloseHandle published))
          (let* r := call (FileSyncAll published) in
           lift (result_map_err (PublishedStateSync final_name) r))
  end.

Fixpoint load_records (bootstrap : StorageDirectory) (names : list wide)
    (grouped : list (str * list MigrationStateRecord)) : LM (list (str * list MigrationStateRecord)) :=
  match names with
  | [] => ret grouped
  | name :: names' =>
      match from_utf16 name with
      | None => load_records bootstrap names' grouped
      | Some text =>
          if negb (starts_with STATE_PREFIX text) || negb (ends_with STATE_SUFFIX text)
          then load_records bootstrap names' grouped
          else
            let* file := leg (st_open_file bootstrap name FILE_GENERIC_READ FILE_SHARE_READ) in
            let* record := defer (call (CloseHandle file))
              (let* bytes := map_err LegIo (read_to_end fuel file []) in
               let* record := lift (result_map_err (fun e => InvalidState (text ++ $": " ++ e))
                                      (state_from_slice bytes)) in
               if negb (Z.eqb (schema record) 1) || negb (str_eqb (state_file_name record) text)
               then throw (InvalidState ($"state filename/content mismatch: " ++ text))
               else ret record) in
            load_records bootstrap names' (group_record record grouped)
      end
  end.
Definition load_pending_from_bootstrap (bootstrap : StorageDirectory) : LM (option MigrationStateRecord) :=
  let* names := leg (st_entries bootstrap) in
  let* grouped := load_records bootstrap names [] in
  lift (select_pending grouped).

Definition load_pending_state (program_data : StorageDirectory) : LM (option MigrationStateRecord) :=
  let* opened := attempt (open_existing_child program_data BOOTSTRAP_DIRECTORY) in
  match opened with
  | Err error => if is_not_found error then ret None else throw (LegStorage error)
  | Ok bootstrap =>
      defer (drop_storage_directory bootstrap)
        (do* leg (validate_production_root (st_handle bootstrap) (st_path bootstrap)) in
         load_pending_from_bootstrap bootstrap)
  end.

Definition open_valid_bootstrap (program_data : StorageDirectory) : LM StorageDirectory :=
  let* d := leg (open_existing_child program_data BOOTSTRAP_DIRECTORY) in
  on_error (drop_storage_directory d)
    (do* leg (validate_production_root (st_handle d) (st_path d)) in ret d).
Definition open_or_create_bootstrap (program_data : StorageDirectory) : LM StorageDirectory :=
  let* opened := attempt (open_existing_child program_data BOOTSTRAP_DIRECTORY) in
  match opened with
  | Ok d =>
      on_error (drop_storage_directory d)
        (do* leg (validate_production_root (st_handle d) (st_path d)) in ret d)
  | Err error =>
      if is_not_found error then
        let* created := attempt (create_protected_child program_data BOOTSTRAP_DIRECTORY) in
        match created with
        | Ok d => ret d
        | Err error =>
            if is_collision error then open_valid_bootstrap program_data else throw (LegStorage error)
        end
      else throw (LegStorage error)
  end.

(** ** Inspection *)
Definition inspect_under (program_data : StorageDirectory) : LM ProductionStorageState :=
  defer (drop_storage_directory program_data)
    (let* pending := load_pending_state program_data in
     match pending with
     | Some p =>
         ret (NeedsResume {| reason := $"interrupted legacy storage migration " ++ migration_id p ++ $" at "
                                       ++ label (state_phase p);
                             detected_identity := source_identity p; resume := true |})
     | None =>
         let* existing := attempt (open_existing_under program_data) in
         match existing with
         | Ok root => ret (Ready {| ps_root := root |})
         | Err error =>
             if is_not_found error then
               let* root := leg (open_or_create_under program_data) in ret (Ready {| ps_root := root |})
             else
               let* identity := leg (open_object_identity program_data PRODUCT_DIRECTORY) in
               ret (NeedsConsent {| reason := show_StorageError error; detected_identity := identity;
                                    resume := false |})
         end
     end).
Definition inspect_production_storage : LM ProductionStorageState :=
  let* program_data := leg production_program_data_directory in inspect_under program_data.

(** ** The namespace transition *)
Definition persist_prepared_state (next : StorageDirectory) (persist : LM unit) : LM StorageDirectory :=
  let* persisted := attempt persist in
  match persisted with
  | Ok _ => ret next
  | Err (PublishedStateSync _ _ as error) | Err (StatePublication _ _ as error) =>
      do* drop_storage_directory next in throw error
  | Err operation_error =>
      let* removed := attempt (remove_directory next) in
      match removed with
      | Ok _ => throw operation_error
      | Err cleanup_error =>
          throw (LegStorage (CleanupFailed (show_LegacyStorageError operation_error)
                               (show_StorageError cleanup_error)))
      end
  end.

Definition finish_privileged_namespace {A} (operation : result LegacyStorageError A)
    (restore : result SecurityError unit) : result LegacyStorageError A :=
  match operation, restore with
  | Ok state, Ok _ => Ok state
  | Err error, Ok _ => Err error
  | Ok _, Err error => Err (LegPrivilegeRestore (show_SecurityError error))
  | Err operation_error, Err restore_error =>
      Err (OperationAndPrivilegeRestore (show_LegacyStorageError operation_error)
             (show_SecurityError restore_error))
  end.
Definition privileged (operation : LM MigrationStateRecord) : LM MigrationStateRecord :=
  let* privileges := map_err LegPrivilege (PrivilegeGuard_new [SE_BACKUP_NAME; SE_RESTORE_NAME]) in
  let* r := attempt operation in
  let* restored := attempt (PrivilegeGuard_restore privileges) in
  lift (finish_privileged_namespace r restored).

Definition verify_ready_root (program_data : StorageDirectory) (state : MigrationStateRecord) : LM unit :=
  let* root := leg (open_existing_under program_data) in
  defer (drop_storage_directory (directory root))
    (let* d := leg (root_directory root) in
     do* defer (drop_storage_directory d)
           (let* identity := leg (directory_identity d) in
            if bool_decide (identity = next_identity state) then ret tt else throw IdentityChanged) in
     let* identity := leg (open_object_identity program_data (legacy_name state)) in
     if bool_decide (identity = source_identity state) then ret tt else throw IdentityChanged).

(** The protected directory takes the name of the root. *)
Definition activate (program_data bootstrap next : StorageDirectory) (state : MigrationStateRecord)
    : LM MigrationStateRecord :=
  let* active := leg (directory_rename_to next program_data PRODUCT_DIRECTORY) in
  defer (drop_storage_directory active)
    (do* leg (validate_production_root (st_handle active) (st_path active)) in
     let* identity := leg (directory_identity active) in
     if negb (bool_decide (identity = next_identity state)) then throw IdentityChanged
     else
       let state := with_phase RootReady state in
       do* write_state bootstrap state in ret state).
Definition begin_namespace (program_data bootstrap : StorageDirectory) (detected : StorageObjectIdentity)
    : LM MigrationStateRecord :=
  let* source := leg (open_object_for_detach program_data PRODUCT_DIRECTORY) in
  defer (close_handle (so_handle source))
    (if negb (bool_decide (detected = so_identity source)) then throw IdentityChanged
     else
       let* id := random_id in
       let* next := leg (create_protected_child program_data (NEXT_PREFIX ++ id)) in
       let* identity := on_error (drop_storage_directory next) (leg (directory_identity next)) in
       let state := {| schema := 1; migration_id := id; state_phase := Prepared;
                       source_identity := so_identity source; next_identity := identity;
                       legacy_name := LEGACY_PREFIX ++ id; next_name := NEXT_PREFIX ++ id |} in
       let* next := persist_prepared_state next (write_state bootstrap state) in
       let state' := with_phase Detached state in
       do* on_error (drop_storage_directory next)
             (do* leg (object_rename_to source program_data (legacy_name state)) in
              write_state bootstrap state') in
       activate program_data bootstrap next state').
Definition start_namespace (program_data bootstrap : StorageDirectory) (detected : StorageObjectIdentity)
    : LM MigrationStateRecord :=
  privileged (begin_namespace program_data bootstrap detected).

(** What is left of an interrupted transition, phase by phase. *)
Definition resume_prepared (program_data bootstrap : StorageDirectory) (state : MigrationStateRecord)
    : LM MigrationStateRecord :=
  if negb (bool_decide (state_phase state = Prepared)) then ret state
  else
    let* opened := attempt (open_object_for_detach program_data PRODUCT_DIRECTORY) in
    do* match opened with
        | Ok source =>
            defer (close_handle (so_handle source))
              (if negb (bool_decide (so_identity source = source_identity state)) then throw IdentityChanged
               else leg (object_rename_to source program_data (legacy_name state)))
        | Err error =>
            if is_not_found error then
              let* identity := leg (open_object_identity program_data (legacy_name state)) in
              if negb (bool_decide (identity = source_identity state)) then throw IdentityChanged else ret tt
            else throw (LegStorage error)
        end in
    let state := with_phase Detached state in
    do* write_state bootstrap state in ret state.
Definition resume_detached (program_data bootstrap : StorageDirectory) (state : MigrationStateRecord)
    : LM MigrationStateRecord :=
  if negb (bool_decide (state_phase state = Detached)) then ret state
  else
    let* identity := leg (open_object_identity program_data (legacy_name state)) in
    if negb (bool_decide (identity = source_identity state)) then throw IdentityChanged
    else
      let* opened := attempt (open_existing_child_for_rename program_data (next_name state)) in
      do* match opened with
          | Ok next =>
              do* on_error (drop_storage_directory next)
                    (let* identity := leg (directory_identity next) in
                     if negb (bool_decide (identity = next_identity state)) then throw IdentityChanged else ret tt) in
              let* active := leg (directory_rename_to next program_data PRODUCT_DIRECTORY) in
              drop_storage_directory active
          | Err error =>
              if is_not_found error then verify_ready_root program_data state else throw (LegStorage error)
          end in
      let state := with_phase RootReady state in
      do* write_state bootstrap state in ret state.
Definition continue_namespace (program_data bootstrap : StorageDirectory) (state : MigrationStateRecord)
    : LM MigrationStateRecord :=
  match recovery_plan (state_phase state) with
  | MarkAuditPending | RetryTerminalAudit | CompletePlan =>
      do* verify_ready_root program_data state in ret state
  | _ =>
      let* state := resume_prepared program_data bootstrap state in
      resume_detached program_data bootstrap state
  end.
Definition resume_namespace (program_data bootstrap : StorageDirectory) (state : MigrationStateRecord)
    : LM MigrationStateRecord :=
  privileged (continue_namespace program_data bootstrap state).

(** ** Recovery *)
Definition ready_for_audit (bootstrap : StorageDirectory) (state : MigrationStateRecord)
    : LM MigrationStateRecord :=
  match recovery_plan (state_phase state) with
  | MarkAuditPending =>
      let state := with_phase AuditPending state in do* write_state bootstrap state in ret state
  | RetryTerminalAudit => ret state
  | _ => throw (InvalidState ($"expected root-ready or audit-pending, found " ++ label (state_phase state)))
  end.
Definition recover (program_data bootstrap : StorageDirectory) (detected : StorageObjectIdentity)
    : LM (MigrationStateRecord * StorageRoot) :=
  let* existing := load_pending_from_bootstrap bootstrap in
  let* state := match existing with
                | Some state => resume_namespace program_data bootstrap state
                | None => start_namespace program_data bootstrap detected
                end in
  let* root := leg (open_existing_under program_data) in
  on_error (drop_storage_directory (directory root))
    (let* state := ready_for_audit bootstrap state in ret (state, root)).
Definition execute_recovery (program_data : StorageDirectory) (detected : StorageObjectIdentity)
    : LM PendingProductionStorage :=
  defer (drop_storage_directory program_data)
    (let* bootstrap := open_or_create_bootstrap program_data in
     on_error (drop_storage_directory bootstrap)
       (let* lock := leg (acquire_protected_named_lock bootstrap BOOTSTRAP_LOCK BOOTSTRAP_LOCK_TIMEOUT) in
        on_error (close_handle lock)
          (let* '(state, root) := recover program_data bootstrap detected in
           ret {| pending_storage := {| ps_root := root |}; bootstrap := bootstrap; bootstrap_lock := lock;
                  pending_state := state |}))).
Definition execute (r : LegacyStorageRecovery) : LM PendingProductionStorage :=
  let* program_data := leg production_program_data_directory in
  execute_recovery program_data (detected_identity r).

(** [complete] consumes the pending storage; the bootstrap directory and its
    lock are released.  The root is shared with the services that were built on
    it, and closed by the last of them. *)
Definition complete (p : PendingProductionStorage) : LM ProductionStorage :=
  defer (do* drop_storage_directory (bootstrap p) in close_handle (bootstrap_lock p))
    (do* write_state (bootstrap p) (with_phase PhaseDone (pending_state p)) in ret (pending_storage p)).
End Legacy.
