(* ===== verification/LegacySpec.v ===== *)
(** * LegacySpec: the inventory of phase records

    The inventory is read as what it is: for each migration an initial segment
    of the phases, in whatever order the record files are enumerated. *)

From stdpp Require Import base list gmap strings.
From S2P Require Import Prelude Text Path Effects Models Win32 Registry Security SecureFs Storage Legacy.

(** ** The inventory *)
Definition PHASES : list DetachPhase := [Prepared; Detached; RootReady; AuditPending; PhaseDone].
Definition same_migration (a b : MigrationStateRecord) : Prop :=
  source_identity a = source_identity b /\ next_identity a = next_identity b
  /\ legacy_name a = legacy_name b /\ next_name a = next_name b.
(** The records of one migration, in the order of the phases. *)
Definition history (records : list MigrationStateRecord) (id : str) : list MigrationStateRecord :=
  sort_by_phase (filter (fun r => migration_id r = id) records).
(** A history is an initial segment of the phases, of one migration. *)
Definition chain (records : list MigrationStateRecord) : Prop :=
  records <> [] /\ map state_phase records = take (length records) PHASES
  /\ forall a b, a ∈ records -> b ∈ records -> same_migration a b.
Definition unfinished (records : list MigrationStateRecord) : option MigrationStateRecord :=
  match last records with
  | Some r => if bool_decide (state_phase r = PhaseDone) then None else Some r
  | None => None
  end.

#[export] Instance same_migration_equiv : Equivalence same_migration.
Proof.
  unfold same_migration. split; [done|by intros a b (? & ? & ? & ?)|].
  intros a b c (-> & -> & -> & ->). done.
Qed.

Lemma follows_spec a b :
  follows_in_sequence a b = true <-> next_phase (state_phase a) = Some (state_phase b) /\ same_migration a b.
Proof.
  unfold follows_in_sequence, same_migration. rewrite !andb_true_iff, !bool_decide_eq_true, !str_eqb_spec. tauto.
Qed.
Lemma phases_from p l n :
  take n (drop (Z.to_nat (phase_number p)) PHASES) = p :: l ->
  match l with [] => True | q :: _ => next_phase p = Some q end.
Proof. destruct p, n as [|[|n]]; simpl; intros [= <-]; try done; by destruct n. Qed.
Lemma phases_next p q :
  next_phase p = Some q -> drop (Z.to_nat (phase_number q)) PHASES = drop (S (Z.to_nat (phase_number p))) PHASES.
Proof. by destruct p; intros [= <-]. Qed.

Lemma sequence_consistent_spec r records :
  sequence_consistent (r :: records) = true <->
  map state_phase (r :: records) = take (length (r :: records)) (drop (Z.to_nat (phase_number (state_phase r))) PHASES)
  /\ Forall (same_migration r) records.
Proof.
  revert r. induction records as [|q records IH]; intros r.
  { simpl. split; [|done]. intros _. split; [|constructor]. by destruct (state_phase r). }
  change (sequence_consistent (r :: q :: records)) with (follows_in_sequence r q && sequence_consistent (q :: records)).
  rewrite andb_true_iff, follows_spec, IH. split.
  - intros [[Hn Hs] [Hm Hf]]. split.
    + rewrite (phases_next _ _ Hn) in Hm. cbn [map length] in *. rewrite Hm. by destruct (state_phase r).
    + constructor; [done|]. eapply Forall_impl; [exact Hf|]. intros x Hx. by rewrite Hs.
  - intros [Hm Hf]. inversion_clear Hf as [|? ? Hs Hf']. cbn [map length] in Hm.
    pose proof (phases_from _ _ _ (eq_sym Hm)) as Hn. simpl in Hn. split_and!; [done|done| |].
    + rewrite (phases_next _ _ Hn). apply (f_equal tail) in Hm. cbn [map length tail] in *. rewrite Hm.
      by destruct (state_phase r).
    + eapply Forall_impl; [exact Hf'|]. intros x Hx. by rewrite <- Hs.
Qed.

(** *** Grouping *)
Definition group_all (records : list MigrationStateRecord) : list (str * list MigrationStateRecord) :=
  foldl (fun grouped r => group_record r grouped) [] records.
Definition below (id : str) (grouped : list (str * list MigrationStateRecord)) : Prop :=
  Forall (fun g => str_le id g.1 = true /\ id <> g.1) grouped.
Fixpoint ordered (grouped : list (str * list MigrationStateRecord)) : Prop :=
  match grouped with [] => True | g :: grouped' => below g.1 grouped' /\ ordered grouped' end.

Lemma group_record_below id r grouped :
  below id grouped -> str_le id (migration_id r) = true -> id <> migration_id r -> below id (group_record r grouped).
Proof.
  intros Hb Hle Hne. induction Hb as [|[id' l] grouped [Hle' Hne'] Hb IH]; simpl; [by repeat constructor|].
  destruct (str_eqb id' (migration_id r)); [by constructor|].
  destruct (str_le id' (migration_id r)); constructor; done || by constructor.
Qed.
Lemma group_record_ordered r grouped : ordered grouped -> ordered (group_record r grouped).
Proof.
  induction grouped as [|[id l] grouped IH]; simpl; [by repeat constructor|]. intros [Hb Ho].
  destruct (str_eqb id (migration_id r)) eqn:Heq; [done|].
  assert (id <> migration_id r) as Hne by (intros Heq'; by apply str_eqb_spec in Heq'; rewrite Heq' in Heq).
  destruct (str_le id (migration_id r)) eqn:Hle; simpl.
  - split; [by apply group_record_below|by apply IH].
  - apply str_le_total in Hle. split; [|done]. constructor; [done|].
    eapply Forall_impl; [exact Hb|]. intros g [Hg Hng]. split; [by eapply str_le_trans|].
    intros Hm. simpl in Hm. apply Hne, str_le_antisym; [by rewrite Hm|done].
Qed.
Lemma group_record_elem r grouped id l :
  ordered grouped ->
  (id, l) ∈ group_record r grouped <->
  if decide (migration_id r = id)
  then exists l', l = l' ++ [r] /\ ((id, l') ∈ grouped \/ (l' = [] /\ forall l'', (id, l'') ∉ grouped))
  else (id, l) ∈ grouped.
Proof.
  induction grouped as [|[id0 l0] grouped IH]; intros Ho; simpl.
  - rewrite list_elem_of_singleton. case_decide as Hid.
    + subst. split; [intros [= ->]; exists []; split; [done|]; right; split; [done|by intros ? ?%not_elem_of_nil]|].
      intros (l' & -> & [?%not_elem_of_nil|[-> _]]); done.
    + split; [by intros [= -> _]|by intros ?%not_elem_of_nil].
  - destruct Ho as [Hb Ho]. assert (forall x, (id0, x) ∉ grouped) as Hnot.
    { intros x Hx. unfold below in Hb. rewrite Forall_forall in Hb. by destruct (Hb _ Hx). }
    destruct (str_eqb id0 (migration_id r)) eqn:Heq.
    + apply str_eqb_spec in Heq. subst id0. rewrite elem_of_cons. case_decide as Hid.
      * subst id. split.
        -- intros [[= ->]|Hx]; [exists l0; split; [done|]; left; by left|by apply Hnot in Hx].
        -- intros (l' & -> & [[[= ->]|Hx]%elem_of_cons|[-> Hno]]); [by left|by apply Hnot in Hx|].
           destruct (Hno l0). by left.
      * rewrite elem_of_cons. split; intros [[= Hx _]|?]; congruence || by right.
    + assert (id0 <> migration_id r) as Hne by (intros Heq'; by apply str_eqb_spec in Heq'; rewrite Heq' in Heq).
      destruct (str_le id0 (migration_id r)) eqn:Hle.
      * rewrite elem_of_cons, IH by done. case_decide as Hid.
        -- subst id. split.
           ++ intros [[= Hx _]|(l' & -> & [Hx|[-> Hno]])]; [congruence|exists l'; split; [done|]; left; by right|].
              exists []. split; [done|]. right. split; [done|]. intros l'' [[= Hx _]|?]%elem_of_cons; [congruence|by apply (Hno l'')].
           ++ intros (l' & -> & [[[= Hx _]|Hx]%elem_of_cons|[-> Hno]]); [congruence| |]; right; eexists; (split; [done|]);
                [by left|right]. split; [done|]. intros l'' Hx. apply (Hno l''). by right.
        -- by rewrite elem_of_cons.
      * apply str_le_total in Hle.
        assert (forall x, (migration_id r, x) ∉ (id0, l0) :: grouped) as Hfresh.
        { intros x [[= Hx _]|Hx]%elem_of_cons; [done|]. unfold below in Hb. rewrite Forall_forall in Hb.
          destruct (Hb _ Hx) as [Hx' _]. simpl in Hx'. by apply Hne, str_le_antisym. }
        rewrite elem_of_cons. case_decide as Hid.
        -- subst id. split.
           ++ intros [[= ->]|Hx]; [|by apply Hfresh in Hx]. exists []. split; [done|]. by right.
           ++ intros (l' & -> & [Hx|[-> _]]); [by apply Hfresh in Hx|by left].
        -- split; [intros [[= Hx _]|?]; congruence|by right].
Qed.
Lemma group_all_spec records :
  ordered (group_all records) /\
  forall id l, (id, l) ∈ group_all records <-> l = filter (fun r => migration_id r = id) records /\ l <> [].
Proof.
  unfold group_all. induction records as [|r records [IHo IH]] using rev_ind.
  { split; [done|]. intros id l. simpl. split; [by intros ?%not_elem_of_nil|]. by intros [-> ?]. }
  rewrite foldl_app. cbn [foldl]. split; [by apply group_record_ordered|]. intros id l.
  rewrite group_record_elem, filter_app by done. case_decide as Hid.
  - rewrite filter_cons_True, filter_nil by done. split.
    + intros (l' & -> & [[-> Hne]%IH|[-> Hno]]); [by split; [|destruct (filter _ _)]|].
      assert (filter (fun r0 => migration_id r0 = id) records = []) as ->; [|done].
      destruct (filter _ records) eqn:Hf; [done|]. destruct (Hno (filter (fun r0 => migration_id r0 = id) records)).
      apply IH. by rewrite Hf.
    + intros [-> _]. eexists; split; [done|].
      destruct (decide (filter (fun r0 => migration_id r0 = id) records = [])) as [Hf|Hne]; [right|left; by apply IH].
      split; [done|]. by intros l'' [-> ?]%IH.
  - rewrite filter_cons_False, filter_nil, app_nil_r by done. apply IH.
Qed.

(** *** Reading the inventory *)
Lemma insert_phase_perm r records : insert_phase r records ≡ₚ r :: records.
Proof.
  induction records as [|q records IH]; simpl; [done|]. destruct (_ <=? _)%Z; [done|].
  rewrite IH. apply perm_swap.
Qed.
Lemma sort_by_phase_perm records : sort_by_phase records ≡ₚ records.
Proof. induction records as [|r records IH]; simpl; [done|]. by rewrite insert_phase_perm, IH. Qed.

Lemma latest_unfinished_spec records out :
  latest_unfinished records = Ok out <->
  chain (sort_by_phase records) /\ out = unfinished (sort_by_phase records).
Proof.
  unfold latest_unfinished. generalize (sort_by_phase records). intros [|r l]; simpl.
  { split; [done|]. by intros [[? _] _]. }
  assert (chain (r :: l) <-> state_phase r = Prepared /\ sequence_consistent (r :: l) = true) as Hchain.
  { rewrite sequence_consistent_spec. unfold chain. split.
    - intros (_ & Hm & Hs). assert (state_phase r = Prepared) as Hp by (by injection Hm).
      rewrite Hp. split_and!; [done|done|]. apply Forall_forall. intros q Hq. apply Hs; [by left|by right].
    - intros (Hp & Hm & Hf). rewrite Hp in Hm. split_and!; [done|done|]. rewrite Forall_forall in Hf.
      assert (forall q, q ∈ r :: l -> same_migration r q) as Hr by (intros q [->|]%elem_of_cons; [done|by apply Hf]).
      intros a b Ha Hb. by rewrite <- (Hr a Ha), <- (Hr b Hb). }
  destruct (bool_decide (Some (state_phase r) = Some Prepared)) eqn:Hp; simpl.
  - apply bool_decide_eq_true in Hp. injection Hp as Hp.
    change (match l with [] => true | second :: _ => follows_in_sequence r second && sequence_consistent l end)
      with (sequence_consistent (r :: l)).
    destruct (sequence_consistent (r :: l)); simpl.
    + split; [intros [= <-]; split; [by apply Hchain|done]|by intros [_ ->]].
    + split; [done|]. by intros [[_ ?]%Hchain _].
  - apply bool_decide_eq_false in Hp. split; [done|]. intros [[Hp' _]%Hchain _]. by rewrite Hp' in Hp.
Qed.
Lemma collect_pending_spec groups pending out :
  collect_pending groups pending = Ok out <->
  Forall (fun g => chain (sort_by_phase g.2)) groups
  /\ out = pending ++ omap (fun g => unfinished (sort_by_phase g.2)) groups.
Proof.
  revert pending. induction groups as [|[id l] groups IH]; intros pending; simpl.
  { rewrite app_nil_r. split; [intros [= <-]; by split|by intros [_ ->]]. }
  destruct (latest_unfinished l) as [o|e] eqn:Hl; simpl.
  - apply latest_unfinished_spec in Hl as [Hc ->]. rewrite IH, Forall_cons, <- app_assoc.
    destruct (unfinished _); simpl; naive_solver.
  - split; [done|]. intros [[Hc _]%Forall_cons _].
    assert (latest_unfinished l = Ok (unfinished (sort_by_phase l))) as Hok by by apply latest_unfinished_spec.
    by rewrite Hl in Hok.
Qed.
Lemma unfinished_elem records id p :
  unfinished (history records id) = Some p -> p ∈ records /\ migration_id p = id.
Proof.
  unfold unfinished. destruct (last _) as [q|] eqn:Hl; [|done]. case_bool_decide; [done|]. intros [= ->].
  apply last_Some in Hl as [l Hl]. assert (p ∈ history records id) as Hp by (rewrite Hl; apply elem_of_app; right; by left).
  unfold history in Hp. rewrite sort_by_phase_perm in Hp. by apply list_elem_of_filter in Hp as [? ?].
Qed.
Lemma ordered_single {B} (f : str * list MigrationStateRecord -> option B) groups g b :
  ordered groups -> g ∈ groups -> f g = Some b ->
  (forall h, h ∈ groups -> h.1 <> g.1 -> f h = None) -> omap f groups = [b].
Proof.
  induction groups as [|g0 groups IH]; intros Ho Hg Hb Hothers; [by apply not_elem_of_nil in Hg|].
  destruct Ho as [Hbelow Ho]. unfold below in Hbelow. rewrite Forall_forall in Hbelow. simpl.
  apply elem_of_cons in Hg as [<-|Hg].
  - rewrite Hb. f_equal. assert (forall h, h ∈ groups -> f h = None) as Hnone.
    { intros h Hh. apply Hothers; [by right|]. destruct (Hbelow h Hh) as [_ Hne]. congruence. }
    clear -Hnone. induction groups as [|h groups IH]; [done|]. simpl. rewrite (Hnone h) by by left.
    apply IH. intros h' Hh'. apply Hnone. by right.
  - rewrite (Hothers g0); [|by left|by destruct (Hbelow g Hg)].
    apply IH; [done..|]. intros h Hh. apply Hothers. by right.
Qed.

Section Inventory.
Context (records : list MigrationStateRecord).
Definition unfinished_group (g : str * list MigrationStateRecord) : option MigrationStateRecord :=
  unfinished (sort_by_phase g.2).

Lemma group_of r :
  r ∈ records -> (migration_id r, filter (fun q => migration_id q = migration_id r) records) ∈ group_all records.
Proof.
  intros Hr. apply group_all_spec. split; [done|]. intros Hnil.
  assert (r ∈ filter (fun q => migration_id q = migration_id r) records) as Hin by by apply list_elem_of_filter.
  rewrite Hnil in Hin. by apply not_elem_of_nil in Hin.
Qed.
Lemma group_history g :
  g ∈ group_all records ->
  sort_by_phase g.2 = history records g.1 /\ exists r, r ∈ records /\ migration_id r = g.1.
Proof.
  destruct g as [id l]. intros [-> Hne]%group_all_spec. split; [done|].
  destruct (filter _ records) as [|r l] eqn:Hf; [done|]. exists r.
  assert (r ∈ filter (fun q => migration_id q = id) records) as Hin by (rewrite Hf; by left).
  by apply list_elem_of_filter in Hin as [? ?].
Qed.
Lemma all_chains :
  Forall (fun g => chain (sort_by_phase g.2)) (group_all records) <->
  forall r, r ∈ records -> chain (history records (migration_id r)).
Proof.
  rewrite Forall_forall. split.
  - intros Hall r Hr. by apply (Hall _ (group_of r Hr)).
  - intros Hall g Hin. destruct (group_history g Hin) as (-> & r & Hr & <-). by apply Hall.
Qed.
Lemma pending_elem b :
  b ∈ omap unfinished_group (group_all records) <->
  exists r, r ∈ records /\ unfinished (history records (migration_id r)) = Some b.
Proof.
  rewrite list_elem_of_omap. split.
  - intros (g & Hin & Hf). destruct (group_history g Hin) as (Hs & r & Hr & Hid). exists r. split; [done|].
    unfold unfinished_group in Hf. by rewrite Hid, <- Hs.
  - intros (r & Hr & Hu). eexists. split; [by apply group_of|done].
Qed.
Lemma pending_single p :
  unfinished (history records (migration_id p)) = Some p ->
  (forall r, r ∈ records -> migration_id r <> migration_id p -> unfinished (history records (migration_id r)) = None) ->
  omap unfinished_group (group_all records) = [p].
Proof.
  intros Hu Hothers. destruct (unfinished_elem _ _ _ Hu) as [Hp _].
  apply (ordered_single _ _ _ p (proj1 (group_all_spec records)) (group_of p Hp)); [done|]. intros h Hh Hne.
  destruct (group_history h Hh) as (Hs & r & Hr & Hid). unfold unfinished_group. rewrite Hs, <- Hid.
  apply Hothers; [done|]. by rewrite Hid.
Qed.
Lemma pending_alone p :
  omap unfinished_group (group_all records) = [p] ->
  unfinished (history records (migration_id p)) = Some p /\
  forall r, r ∈ records -> migration_id r <> migration_id p -> unfinished (history records (migration_id r)) = None.
Proof.
  intros Hone. destruct (proj1 (pending_elem p)) as (r & Hr & Hu); [rewrite Hone; by left|].
  destruct (unfinished_elem _ _ _ Hu) as [_ Hid]. rewrite Hid. split; [done|]. intros r' Hr' Hne.
  destruct (unfinished (history records (migration_id r'))) as [b|] eqn:Hu'; [|done].
  assert (b ∈ omap unfinished_group (group_all records)) as Hb by (apply pending_elem; eauto).
  rewrite Hone, list_elem_of_singleton in Hb. subst b.
  apply unfinished_elem in Hu' as [_ Heq]. congruence.
Qed.
Lemma pending_none :
  omap unfinished_group (group_all records) = [] <->
  forall r, r ∈ records -> unfinished (history records (migration_id r)) = None.
Proof.
  split.
  - intros Hnil r Hr. destruct (unfinished _) as [b|] eqn:Hu; [|done].
    assert (b ∈ omap unfinished_group (group_all records)) as Hb by (apply pending_elem; eauto).
    rewrite Hnil in Hb. by apply not_elem_of_nil in Hb.
  - intros Hnone. destruct (omap _ _) as [|b l] eqn:Hl; [done|].
    destruct (proj1 (pending_elem b)) as (r & Hr & Hu); [rewrite Hl; by left|]. by rewrite (Hnone r Hr) in Hu.
Qed.
End Inventory.

(** C17: the inventory of phases is read for what it is.  Whatever the order in
    which the record files are enumerated, an unfinished migration is reported
    exactly when the records of every migration are an initial segment of the
    phases with the same identities and names, and one migration, and no
    other, has not reached its last phase; what is reported is its latest
    record. *)
Theorem select_pending_exact (records : list MigrationStateRecord) (out : option MigrationStateRecord) :
  select_pending (group_all records) = Ok out <->
  (forall r, r ∈ records -> chain (history records (migration_id r))) /\
  match out with
  | None => forall r, r ∈ records -> unfinished (history records (migration_id r)) = None
  | Some p =>
      unfinished (history records (migration_id p)) = Some p /\
      forall r, r ∈ records -> migration_id r <> migration_id p ->
        unfinished (history records (migration_id r)) = None
  end.
Proof.
  rewrite <- all_chains.
  assert (forall l, collect_pending (group_all records) [] = Ok l <->
    Forall (fun g => chain (sort_by_phase g.2)) (group_all records) /\ l = omap unfinished_group (group_all records))
    as Hc by (intros l; apply collect_pending_spec).
  unfold select_pending. destruct (collect_pending (group_all records) []) as [l|e]; simpl.
  - destruct (proj1 (Hc l) eq_refl) as [Hall Hl]. split.
    + intros Hout. split; [done|]. destruct l as [|p [|q l]]; injection Hout as <- || done.
      * by apply pending_none.
      * by apply pending_alone.
    + intros [_ Hout]. destruct out as [p|].
      * destruct Hout as [Hu Ho]. by rewrite Hl, (pending_single records p Hu Ho).
      * apply pending_none in Hout. by rewrite Hl, Hout.
  - split; [done|]. intros [Hall _]. by assert (Err e = Ok (omap unfinished_group (group_all records))) by by apply Hc.
Qed.
