(* ===== verification/Namespace.v ===== *)
(** * Namespace: the names of the program data directory

    The specification of the storage operations of the transition.  The world is
    the names of the program data directory, the record files of the bootstrap
    directory, and the open handles.  [namespace] states what Windows documents
    of the calls of the transition, any of which may fail and then changes
    nothing but a flag; it permits a call only in a world where an invariant
    holds, so a program that satisfies it can be stopped at any call. *)

From stdpp Require Import base list gmap strings.
From S2P Require Import Prelude Text Path Effects Models Win32 Registry Security SecureFs Storage Legacy.

(** ** Plain names *)
Definition word_char (c : Z) : bool := is_ascii_alphanumeric c || Z.eqb c DASH || Z.eqb c DOT.
Definition word (s : str) : Prop := Forall (fun c => word_char c = true) s /\ 3 <= length s <= 1000.

Lemma word_char_bounds c : word_char c = true -> (0 <= c < 128)%Z /\ c <> BACKSLASH /\ c <> FORWARD_SLASH /\ c <> COLON /\ c <> 0%Z.
Proof.
  unfold word_char, is_ascii_alphanumeric, is_ascii_alphabetic, is_ascii_upper, is_ascii_lower, is_ascii_digit.
  assert (DASH = 45 /\ DOT = 46 /\ BACKSLASH = 92 /\ FORWARD_SLASH = 47 /\ COLON = 58)%Z as (-> & -> & -> & -> & ->) by done.
  lia.
Qed.
Lemma encode_word s : Forall (fun c => word_char c = true) s -> encode_utf16 s = s.
Proof.
  induction 1 as [|c s Hc _ IH]; [done|]. change (encode_utf16 (c :: s)) with (encode_char c ++ encode_utf16 s).
  rewrite IH. unfold encode_char. apply word_char_bounds in Hc. by destruct (Z.ltb_spec c 65536); [|lia].
Qed.
Lemma validate_word s : word s -> validate_component s = Ok tt.
Proof.
  intros [Hs Hlen]. unfold validate_component.
  assert (from_utf16_lossy s = s) as ->.
  { rewrite <- (encode_word s Hs) at 1. apply from_encode_utf16_lossy. eapply Forall_impl; [exact Hs|].
    intros c Hc%word_char_bounds. left. lia. }
  rewrite Forall_forall in Hs.
  assert (forall c, c ∈ s -> c <> BACKSLASH /\ c <> FORWARD_SLASH /\ c <> COLON /\ c <> 0%Z) as Hno.
  { intros c Hc. by apply word_char_bounds, Hs. }
  destruct (is_empty s) eqn:He; [destruct s; simpl in *; [lia|done]|].
  destruct (str_eqb s ($".")) eqn:Hd; [apply str_eqb_spec in Hd; subst; simpl in Hlen; lia|].
  destruct (str_eqb s ($"..")) eqn:Hdd; [apply str_eqb_spec in Hdd; subst; simpl in Hlen; lia|]. simpl.
  destruct (existsb _ s) eqn:Hx.
  { apply existsb_exists in Hx as (c & Hc%list_elem_of_In & Hone). unfold one_of in Hone.
    apply bool_decide_eq_true in Hone. destruct (Hno c Hc) as (Hb & Hf & _). 
    repeat (apply elem_of_cons in Hone as [?|Hone]; [congruence|]). by apply not_elem_of_nil in Hone. }
  destruct (contains_char s COLON) eqn:Hc; [by apply contains_char_spec, Hno in Hc as (_ & _ & ? & _)|].
  destruct (contains_char s 0) eqn:H0; [by apply contains_char_spec, Hno in H0 as (_ & _ & _ & ?)|]. done.
Qed.
Lemma child_word parent s : word s -> child_path parent (encode_utf16 s) = Ok (path_join parent s).
Proof. intros Hs. rewrite encode_word by apply Hs. unfold child_path. by rewrite validate_word. Qed.

Lemma word_product : word PRODUCT_DIRECTORY.
Proof. split; [by repeat constructor|simpl; lia]. Qed.

Lemma hex2_word c : (0 <= c < 256)%Z -> Forall (fun c => word_char c = true) (hex2 c) /\ length (hex2 c) = 2.
Proof.
  intros Hc. assert (Forall (fun n => Forall (fun c => word_char c = true) (hex2 (Z.of_nat n))
                                      /\ length (hex2 (Z.of_nat n)) = 2) (seq 0 256)) as Hall.
  { apply Forall_forall. intros n Hn. assert (forallb (fun n => forallb word_char (hex2 (Z.of_nat n)) && Nat.eqb (length (hex2 (Z.of_nat n))) 2) (seq 0 256) = true) as Hf by by vm_compute.
    rewrite forallb_forall in Hf. apply list_elem_of_In, Hf, andb_true_iff in Hn as [Hw Hl].
    split; [|by apply Nat.eqb_eq]. rewrite forallb_forall in Hw. apply Forall_forall. intros x Hx. by apply Hw, list_elem_of_In. }
  rewrite Forall_forall in Hall. replace c with (Z.of_nat (Z.to_nat c)) by lia. apply Hall, elem_of_seq. lia.
Qed.
Lemma hex2_words bytes : Forall (fun c => 0 <= c < 256)%Z bytes ->
  Forall (fun c => word_char c = true) (flat_map hex2 bytes) /\ length (flat_map hex2 bytes) = 2 * length bytes.
Proof.
  induction 1 as [|c l Hc%hex2_word _ [IH1 IH2]]; [done|]. destruct Hc as [Hw Hl]. cbn [flat_map].
  rewrite Forall_app, length_app, Hl, IH2. split; [done|]. simpl. lia.
Qed.

(** ** The world *)
Inductive target : Type := Obj (id : StorageObjectIdentity) | Rec (name : str).
Record world : Type := {
  dirs : gmap str StorageObjectIdentity;
  files : gmap str (list Z);
  opened : gmap Z target;
}.
Definition open_as (h : Z) (t : target) (w : world) : world :=
  {| dirs := dirs w; files := files w; opened := <[h := t]> (opened w) |}.
Definition closed (h : Z) (w : world) : world :=
  {| dirs := dirs w; files := files w; opened := delete h (opened w) |}.
Definition with_files (f : gmap str (list Z)) (w : world) : world := {| dirs := dirs w; files := f; opened := opened w |}.
Definition with_dirs (d : gmap str StorageObjectIdentity) (w : world) : world :=
  {| dirs := d; files := files w; opened := opened w |}.
(** The names but those of an object. *)
Definition others (id : StorageObjectIdentity) (w : world) : gmap str StorageObjectIdentity :=
  filter (fun kv => kv.2 <> id) (dirs w).
Definition contents (name : str) (w : world) : list Z := default [] (files w !! name).
Definition absent_status (status : Z) : bool :=
  Z.eqb status STATUS_OBJECT_NAME_NOT_FOUND || Z.eqb status STATUS_OBJECT_PATH_NOT_FOUND.

(** The worlds met, and whether a call has failed. *)
Definition ghost : Type := world * bool.

Section Laws.
Context (program_data bootstrap : Z) (protected : StorageObjectIdentity -> Prop).
Context (sid_of : Z -> str) (aces_of : Z -> list ace) (control_of : Z -> Z).

Definition failed (g g' : ghost) : Prop := g' = (g.1, true).
Definition fresh (raw : Z) (w : world) : Prop :=
  OwnedHandle_from_raw raw = Some raw /\ opened w !! raw = None /\ raw <> program_data /\ raw <> bootstrap.
Definition handed (raw : Z) (t : target) (w : world) (b : bool) (g' : ghost) : Prop :=
  fresh raw w /\ g' = (open_as raw t w, b).
Definition place (parent : Z) (name : str) (w : world) : option target :=
  if Z.eqb parent program_data then Obj <$> dirs w !! name
  else match files w !! name with Some _ => Some (Rec name) | None => None end.

Definition opening (parent : Z) (name : str) (disposition : Z) (x : nt_answer) (g g' : ghost) : Prop :=
  let '(w, b) := g in
  if (nt_status x <? 0)%Z then
    if absent_status (nt_status x) then disposition = FILE_OPEN /\ place parent name w = None /\ g' = g
    else failed g g'
  else
    match place parent name w with
    | Some t => disposition = FILE_OPEN /\ handed (nt_handle x) t w b g'
    | None =>
        disposition = FILE_CREATE /\
        if Z.eqb parent program_data
        then exists id, protected id /\ (forall n, dirs w !! n <> Some id)
               /\ handed (nt_handle x) (Obj id) (with_dirs (<[name := id]> (dirs w)) w) b g'
        else handed (nt_handle x) (Rec name) (with_files (<[name := []]> (files w)) w) b g'
    end.
(** A rename takes a free name. *)
Definition renaming (h : Z) (parent : Z) (name : str) (x : Z) (g g' : ghost) : Prop :=
  let '(w, b) := g in
  if (x <? 0)%Z then failed g g'
  else
    place parent name w = None /\
    match opened w !! h with
    | Some (Obj id) => g' = (with_dirs (<[name := id]> (others id w)) w, b)
    | Some (Rec old) => g' = (with_files (<[name := contents old w]> (delete old (files w))) w, b)
    | None => False
    end.
Definition removing (h : Z) (done : bool) (g g' : ghost) : Prop :=
  let '(w, b) := g in
  if negb done then failed g g'
  else match opened w !! h with
       | Some (Obj id) => g' = (with_dirs (others id w) w, b)
       | Some (Rec name) => g' = (with_files (delete name (files w)) w, b)
       | None => False
       end.
Definition writing (h : Z) (data : list Z) (r : result io_error unit) (g g' : ghost) : Prop :=
  let '(w, b) := g in
  match opened w !! h with
  | Some (Rec name) =>
      match r with
      | Ok _ => g' = (with_files (<[name := contents name w ++ data]> (files w)) w, b)
      | Err _ => exists partial, g' = (with_files (<[name := partial]> (files w)) w, true)
      end
  | _ => False
  end.
Definition unused_id (id : str) (w : world) : Prop :=
  dirs w !! (LEGACY_PREFIX ++ id) = None /\ dirs w !! (NEXT_PREFIX ++ id) = None
  /\ forall rest, files w !! (STATE_PREFIX ++ id ++ rest) = None.
Definition random_bytes (n : Z) (bytes : list Z) (w : world) : Prop :=
  Z.of_nat (length bytes) = n /\ Forall (fun c => 0 <= c < 256)%Z bytes /\ unused_id (flat_map hex2 bytes) w.

Definition unless_failed (x : bool) (Q : Prop) (g g' : ghost) : Prop := if x then Q /\ g' = g else failed g g'.
Definition namespace_answers (a : sys) (g : ghost) : sys_resp a -> ghost -> Prop :=
  match a return sys_resp a -> ghost -> Prop with
  | NtCreateFile parent name _ _ disposition _ _ _ => fun x g' => opening parent name disposition x g g'
  | NtSetRenameInformation h parent name _ => fun x g' => renaming h parent name x g g'
  | SetFileDisposition h => fun x g' => removing h x g g'
  | CloseHandle h => fun _ g' => g' = (closed h g.1, g.2)
  | DuplicateHandle h => fun x g' =>
      if fst x then exists t, opened g.1 !! h = Some t /\ handed (snd x) t g.1 g.2 g' else failed g g'
  | GetFileIdInfo h => fun x g' =>
      match x with
      | Some (volume, id) =>
          opened g.1 !! h = Some (Obj {| object_volume := volume; file_id := id |}) /\ g' = g
      | None => failed g g'
      end
  | GetFileInformationByHandle h => fun x g' =>
      match x with
      | Some i => g' = g /\
          match opened g.1 !! h with
          | Some (Obj id) => protected id ->
              has_flag (hi_attributes i) FILE_ATTRIBUTE_REPARSE_POINT = false
              /\ has_flag (hi_attributes i) FILE_ATTRIBUTE_DIRECTORY = true
          | _ => has_flag (hi_attributes i) FILE_ATTRIBUTE_REPARSE_POINT = false
                 /\ has_flag (hi_attributes i) FILE_ATTRIBUTE_DIRECTORY = false
          end
      | None => failed g g'
      end
  | GetSecurityInfo h => fun x g' =>
      if Z.eqb (si_status x) ERROR_SUCCESS then g' = g /\
        forall id, opened g.1 !! h = Some (Obj id) -> protected id ->
          canonical sid_of aces_of control_of (si_descriptor x) (si_owner x) (si_dacl x)
      else failed g g'
  | ConvertStringSidToSidW value => fun x g' =>
      unless_failed (fst x) (forall text, value = to_wide_null text -> sid_of (snd x) = text) g g'
  | EqualSid a b => fun x g' => x = bool_decide (sid_of a = sid_of b) /\ g' = g
  | GetAclAceCount dacl => fun x g' =>
      match x with Some n => n = Z.of_nat (length (aces_of dacl)) /\ g' = g | None => failed g g' end
  | GetAce dacl i => fun x g' =>
      match x with Some a => aces_of dacl !! Z.to_nat i = Some a /\ g' = g | None => failed g g' end
  | GetSecurityDescriptorControl d => fun x g' =>
      match x with Some c => c = control_of d /\ g' = g | None => failed g g' end
  | ParseSecurityDescriptor _ => fun x g' => unless_failed (fst x) (snd x <> 0%Z) g g'
  | BCryptGenRandom n => fun x g' =>
      if (fst x <? 0)%Z then failed g g' else random_bytes n (snd x) g.1 /\ g' = g
  | FileWriteAll h data => fun r g' => writing h data r g g'
  | FileFlush _ | FileSyncAll _ => fun r g' => if is_ok r then g' = g else failed g g'
  | _ => fun _ g' => g' = g
  end.

(** The handle is open on an object that still has the name it was opened by:
    the other handles of a renamed record may only be synced and closed. *)
Definition live (h : Z) (w : world) : Prop :=
  match opened w !! h with
  | Some (Obj _) => True
  | Some (Rec name) => is_Some (files w !! name)
  | None => False
  end.
(** No object is enumerated, read, moved by name or given a descriptor. *)
Definition namespace_call (a : sys) (w : world) : Prop :=
  match a with
  | NtCreateFile parent _ _ _ disposition _ _ descriptor =>
      (parent = program_data \/ parent = bootstrap)
      /\ (disposition = FILE_OPEN \/ disposition = FILE_CREATE /\ (parent = program_data -> descriptor <> 0%Z))
  | NtSetRenameInformation h parent _ replace =>
      replace = 0%Z /\ match opened w !! h with
                       | Some (Obj _) => parent = program_data
                       | Some (Rec old) => parent = bootstrap /\ is_Some (files w !! old)
                       | None => False
                       end
  | GetFileIdInfo h | GetSecurityInfo h => exists id, opened w !! h = Some (Obj id)
  | FileFlush h | FileSyncAll h => exists name, opened w !! h = Some (Rec name)
  | FileWriteAll h _ => exists name, opened w !! h = Some (Rec name) /\ is_Some (files w !! name)
  | GetFileInformationByHandle h | DuplicateHandle h | SetFileDisposition h => live h w
  | CloseHandle _ | ConvertStringSidToSidW _ | EqualSid _ _ | GetAclAceCount _ | GetAce _ _
  | GetSecurityDescriptorControl _ | ParseSecurityDescriptor _ | LocalFree _ | GetLastError
  | BCryptGenRandom _ | OpenProcessToken _ _ | LookupPrivilegeValueW _ | AdjustTokenPrivileges _ _ _
  | SetLastError _ | TracingError _ => True
  | _ => False
  end.
Definition namespace (I : world -> Prop) : protocol ghost :=
  @Protocol sys_signature ghost (fun a g => I g.1 /\ namespace_call a g.1) (fun a g x g' => namespace_answers a g x g') False.
End Laws.

(** ** Programs that succeed unless a call fails

    [does m g O Q]: from a world of the invariant, every call of [m] is made in
    a world of the invariant; [m] succeeds with [Q], or a call has failed and
    [O] holds. *)
Definition at_world (w : world) (b : bool) (g : ghost) : Prop := g.1 = w /\ (b = true -> g.2 = true).
Definition fault (g : ghost) : Prop := g.2 = true.
Definition same (w w' : world) : Prop :=
  dirs w = dirs w' /\ forall name, head name <> Some DOT -> files w !! name = files w' !! name.
#[export] Instance same_equiv : Equivalence same.
Proof.
  split; [by intros w|by intros w w' [? Hf]; split; [|intros n Hn; rewrite Hf]|].
  intros w w' w'' [Hd Hf] [Hd' Hf']. split; [congruence|]. intros n Hn. by rewrite Hf, Hf'.
Qed.
Lemma same_open h t w : same w (open_as h t w). Proof. by split. Qed.
Lemma same_closed h w : same w (closed h w). Proof. by split. Qed.
Lemma closed_open h t w : opened w !! h = None -> closed h (open_as h t w) = w.
Proof. intros Hh. destruct w as [d f o]. unfold closed, open_as. simpl in *. by rewrite delete_insert_id. Qed.

Definition keeps_open (w w' : world) : Prop := opened w' = opened w.
(** Nothing is published, and no handle is left open. *)
Definition unpublished (w w' : world) : Prop := same w w' /\ keeps_open w w'.
Lemma unpublished_refl w : unpublished w w. Proof. done. Qed.

Section Runs.
Context {S : Type} `{Fuel} `{Extern} (program_data bootstrap : Z) (protected : StorageObjectIdentity -> Prop).
Context (sid_of : Z -> str) (aces_of : Z -> list ace) (control_of : Z -> Z).
Context (I : world -> Prop) (HI : forall w w', same w w' -> I w -> I w').
Abbreviation ns := (namespace program_data bootstrap protected sid_of aces_of control_of I).
Abbreviation ask := (namespace_answers program_data bootstrap protected sid_of aces_of control_of).
Abbreviation is_fresh := (fresh program_data bootstrap).
Abbreviation object_at := (place program_data).
Abbreviation may := (namespace_call program_data bootstrap).

Definition tainted (g g' : ghost) : Prop := g.2 = true -> g'.2 = true.
Lemma ask_tainted a g x g' : ask a g x g' -> tainted g g'.
Proof.
  destruct g as [w b]. unfold tainted. intros Hx Hb. simpl in Hb. subst b.
  destruct a; simpl in Hx; unfold opening, renaming, removing, writing, handed, unless_failed, failed in Hx;
    simpl in Hx; repeat case_match; naive_solver.
Qed.
(** What holds after an error may depend on the error. *)
Definition ends {E A} (m : M S E A) (g : ghost) (O : E -> world -> Prop) (Q : A -> world -> Prop) : Prop :=
  I g.1 -> forall s, wpM ns m (fun r _ g' => I g'.1 /\ tainted g g' /\ match r with
                                            | Ok a => Q a g'.1
                                            | Err e => fault g' /\ O e g'.1
                                            end) s g.
Definition does {E A} (m : M S E A) (g : ghost) (O : world -> Prop) (Q : A -> world -> Prop) : Prop :=
  ends m g (fun _ => O) Q.
Lemma ends_bind {E A B} (m : M S E A) (f : A -> M S E B) g O Q Q' :
  ends m g O Q -> (forall a w b, Q a w -> tainted g (w, b) -> ends (f a) (w, b) O Q') -> ends (mbind m f) g O Q'.
Proof.
  intros Hm Hf Hi s. apply wpM_bind. eapply wpM_mono; [by apply Hm|].
  intros [a|e] s' [w b] (Hi' & Ht & HQ); [|done]. eapply wpM_mono; [by apply (Hf a w b HQ Ht)|].
  intros r s'' g'' (Hi'' & Ht' & Hr). split; [done|]. split; [|done]. intros Hb. by apply Ht', Ht.
Qed.
Lemma ends_mono {E A} (m : M S E A) g (O O' : E -> world -> Prop) (Q Q' : A -> world -> Prop) :
  ends m g O Q -> (forall a w, Q a w -> Q' a w) -> (forall e w, O e w -> O' e w) -> ends m g O' Q'.
Proof.
  intros Hm HQ HO Hi s. eapply wpM_mono; [by apply Hm|]. intros [a|e] s' g' (Hi' & Ht & Hr); naive_solver.
Qed.
(** The errors of [m] are of a kind. *)
Lemma ends_errors {E A} (K : E -> Prop) (m : M S E A) g (O : E -> world -> Prop) (Q : A -> world -> Prop) :
  merrors K m -> ends m g O Q -> ends m g (fun e w => K e /\ O e w) Q.
Proof.
  intros Hk Hm Hi s. eapply wpM_mono; [apply wpM_errors; [exact Hk|by apply Hm]|].
  intros [a|e] s' g' (He & Hi' & Ht & Hr); [done|]. destruct Hr as [Hb HO].
  split; [done|]. split; [done|]. split; [done|]. split; [by apply He|done].
Qed.

Lemma does_ret {E A} (a : A) g O (Q : A -> world -> Prop) : Q a g.1 -> does (E:=E) (ret a) g O Q.
Proof. intros HQ Hi s. apply wpM_ret. split; [done|]. by split; [intros Hb|]. Qed.
Lemma does_throw {E A} (e : E) g O (Q : A -> world -> Prop) :
  fault g -> O g.1 -> does (throw e) g O Q.
Proof. intros Hb HO Hi s. apply wpM_throw. split; [done|]. by split; [intros _|]. Qed.
Lemma does_bind {E A B} (m : M S E A) (f : A -> M S E B) g O Q Q' :
  does m g O Q -> (forall a w b, Q a w -> tainted g (w, b) -> does (f a) (w, b) O Q') -> does (mbind m f) g O Q'.
Proof. apply ends_bind. Qed.
Lemma does_mono {E A} (m : M S E A) g (O O' : world -> Prop) (Q Q' : A -> world -> Prop) :
  does m g O Q -> (forall a w, Q a w -> Q' a w) -> (forall w, O w -> O' w) -> does m g O' Q'.
Proof. intros Hm HQ HO. by eapply ends_mono; [exact Hm|..]. Qed.
Lemma does_map_err {E E' A} (f : E -> E') (m : M S E A) g O Q : does m g O Q -> does (map_err f m) g O Q.
Proof. intros Hm Hi s. apply wpM_map_err. eapply wpM_mono; [by apply Hm|]. by intros [a|e] s' g'. Qed.
(** A call and what follows its answers. *)
Lemma does_call {E B} a (f : resp a -> M S E B) g O Q :
  may a g.1 -> (I g.1 -> forall x g', ask a g x g' -> I g'.1 /\ does (f x) g' O Q) ->
  does (mbind (call a) f) g O Q.
Proof.
  intros Hp Hf Hi s. apply wpM_bind. wp_call; [done|]. intros x g' Hx.
  pose proof (ask_tainted _ _ _ _ Hx) as Ht. apply (Hf Hi) in Hx as [Hi' Hd].
  eapply wpM_mono; [by apply Hd|]. intros r s'' g'' (Hi'' & Ht' & Hr).
  split; [done|]. split; [|done]. intros Hb. by apply Ht', Ht.
Qed.
(** A call that leaves the world. *)
Lemma does_look {E B} a (f : resp a -> M S E B) g O Q :
  may a g.1 -> (forall x g', ask a g x g' -> g'.1 = g.1 /\ does (f x) g' O Q) ->
  does (mbind (call a) f) g O Q.
Proof. intros Hp Hf. apply does_call; [done|]. intros Hi x g' [Hs Hd]%Hf. by rewrite Hs. Qed.

Lemma wp_close_world {E} h w b (s : S) (Q : world -> Prop) :
  OwnedHandle_from_raw h = Some h -> I w -> Q (closed h w) ->
  wpM ns (close_handle (E:=E) h) (fun _ _ g' => I g'.1 /\ g'.2 = b /\ Q g'.1) s (w, b).
Proof.
  unfold OwnedHandle_from_raw, close_handle. intros Hh Hi HQ.
  destruct (Z.eqb h 0), (Z.eqb h INVALID_HANDLE_VALUE); try done. simpl.
  wp_call; [done|]. intros x g' ->. split; [|done]. eapply HI; [apply same_closed|done].
Qed.
Lemma does_close {E} h g O (Q : unit -> world -> Prop) :
  OwnedHandle_from_raw h = Some h -> Q tt (closed h g.1) -> does (E:=E) (close_handle h) g O Q.
Proof.
  destruct g as [w b]. unfold OwnedHandle_from_raw, close_handle. intros Hh HQ.
  destruct (Z.eqb h 0), (Z.eqb h INVALID_HANDLE_VALUE); try done. simpl. intros Hi s.
  wp_call; [done|]. intros [] g' ->. split; [eapply HI; [apply same_closed|done]|]. by split; [intros Hb|].
Qed.
Lemma does_using {E A} h (m : M S E A) g O O' Q Q' :
  OwnedHandle_from_raw h = Some h -> does m g O Q -> (forall w, O w -> O' (closed h w)) ->
  (forall a w, Q a w -> Q' a (closed h w)) -> does (defer (close_handle h) m) g O' Q'.
Proof.
  intros Hh Hm HO HQ Hi s. apply wpM_defer. eapply wpM_mono; [by apply Hm|].
  intros r s' [w b] (Hi' & Ht & Hr). unfold tainted, fault in *. simpl in *.
  eapply wpM_mono.
  - apply (wp_close_world h w b s' (fun w => match r with Ok a => Q' a w | Err _ => b = true /\ O' w end)); [done..|].
    destruct r as [a|e]; [by apply HQ|]. by destruct Hr as [-> HO'%HO].
  - simpl. intros _ s'' g'' (Hi'' & Hb & Hr'). rewrite Hb. by split.
Qed.
Lemma does_using_call {E A} h (m : M S E A) g O O' Q Q' :
  does m g O Q -> (forall w, O w -> O' (closed h w)) -> (forall a w, Q a w -> Q' a (closed h w)) ->
  does (defer (call (CloseHandle h)) m) g O' Q'.
Proof.
  intros Hm HO HQ Hi s. apply wpM_defer. eapply wpM_mono; [by apply Hm|].
  intros r s' [w b] (Hi' & Ht & Hr). unfold tainted, fault in *. simpl in *.
  wp_call; [done|]. intros [] g'' Hx. simpl in Hx. subst g''. simpl. split; [eapply HI; [apply same_closed|done]|]. split; [done|].
  destruct r as [a|e]; [by apply HQ|]. destruct Hr as [-> Hw%HO]. done.
Qed.
Lemma does_guarded {E A} h (m : M S E A) g O O' Q :
  OwnedHandle_from_raw h = Some h -> does m g O Q -> (forall w, O w -> O' (closed h w)) ->
  does (on_error (close_handle h) m) g O' Q.
Proof.
  intros Hh Hm HO Hi s. apply wpM_on_error. eapply wpM_mono; [by apply Hm|].
  intros [a|e] s' [w b] (Hi' & Ht & Hr); [done|]. unfold tainted, fault in *. simpl in *.
  destruct Hr as [-> Hw%HO]. eapply wpM_mono.
  - by apply (wp_close_world h w true s' O').
  - simpl. intros _ s'' g'' (Hi'' & Hb & Hr'). by rewrite Hb.
Qed.
Lemma does_io_error {A} operation p g O (Q : A -> world -> Prop) :
  fault g -> O g.1 -> does (st_io_error operation p) g O Q.
Proof. intros Hb HO Hi s. apply wpM_bind, wpM_bind. wp_call; [done|]. intros x g' ->. split; [done|]. by split; [intros _|]. Qed.

(** ** Objects by handle *)
Lemma does_validate_kind h p w b (d : bool) :
  live h w ->
  match opened w !! h with Some (Obj id) => protected id /\ d = true | _ => d = false end ->
  does (validate_kind h p d) (w, b) (eq w) (fun _ w' => w' = w).
Proof.
  intros Hl Ho. apply does_look; [done|]. intros [i|] g' Hx; simpl in Hx; unfold failed in Hx; [|subst; split; [done|by apply does_io_error]].
  destruct Hx as [-> Hx]. split; [done|].
  assert (has_flag (hi_attributes i) FILE_ATTRIBUTE_REPARSE_POINT = false
          /\ has_flag (hi_attributes i) FILE_ATTRIBUTE_DIRECTORY = d) as [-> ->].
  { destruct (opened w !! h) as [[id|name]|]; simpl in Hx; [destruct Ho as [Hp ->]; by apply Hx|by subst d..]. }
  rewrite Bool.eqb_reflx. by apply does_ret.
Qed.
Lemma does_identity h p w b id :
  opened w !! h = Some (Obj id) ->
  does (storage_object_identity h p) (w, b) (eq w) (fun i w' => i = id /\ w' = w).
Proof.
  intros Ho. apply does_look; [by exists id|]. intros [[v i]|] g' Hx; simpl in Hx; unfold failed in Hx.
  - destruct Hx as [Hx ->]. split; [done|]. apply does_ret. simpl. by rewrite Ho in Hx; injection Hx as ->.
  - subst. split; [done|]. by apply does_io_error.
Qed.

Lemma namespace_descriptor_laws w b : I w ->
  descriptor_laws sid_of aces_of control_of (at_world w b) fault ns.
Proof.
  intros Hi. split.
  - intros a g Ha [<- _]. split; [done|]. by destruct a.
  - intros a g x g' Ha [Hw Hb] Hx. pose proof (ask_tainted _ _ _ _ Hx) as Ht.
    assert (g'.1 = w) as Hw'.
    { destruct g as [w' b'], a; simpl in *; unfold unless_failed, failed in *; try done;
        repeat case_match; naive_solver. }
    unfold at_world, fault, tainted in *. naive_solver.
  - intros text g [[] sid] g' Hx; simpl in *; [by apply Hx|]. by rewrite Hx.
  - by intros l r g x g' [-> _].
  - intros d g [n|] g' Hx; simpl in *; [by destruct Hx|by rewrite Hx].
  - intros d i g [a|] g' Hx; simpl in *; [rewrite Nat2Z.id in Hx; by destruct Hx|by rewrite Hx].
  - intros d g [n|] g' Hx; simpl in *; [by destruct Hx|by rewrite Hx].
Qed.
Lemma does_validate_root h p w b id :
  opened w !! h = Some (Obj id) -> protected id ->
  does (validate_production_root h p) (w, b) (eq w) (fun _ w' => w' = w).
Proof.
  intros Ho Hp. apply does_look; [by exists id|]. intros x g' Hx. simpl in Hx. unfold failed in Hx.
  destruct (Z.eqb_spec (si_status x) ERROR_SUCCESS) as [Hs|Hs].
  2:{ subst g'. split; [done|]. simpl. apply (does_bind _ _ _ _ (fun _ w' => w' = w)).
      - destruct (Z.eqb (si_descriptor x) 0); simpl; [by apply does_ret|]. intros Hi s. wp_call; [done|].
        intros y g' ->. by split; [|split; [intros _|]].
      - intros y w' b' -> Hb. apply does_throw; [by apply Hb|done]. }
  destruct Hx as [-> Hx]. split; [done|]. specialize (Hx id Ho Hp). intros Hi s. simpl.
  apply wpM_bind, wpM_attempt. eapply wpM_mono.
  { apply (validate_descriptor_canonical sid_of aces_of control_of (at_world w b) fault ns
             (namespace_descriptor_laws w b Hi)). by split. }
  intros r s' [w' b'] [[Hw Hb] Hr]. unfold fault, tainted in *. simpl in *. subst w'.
  apply wpM_bind. wp_call; [done|]. intros y g' ->. apply wpM_lift. split; [done|]. split; [done|].
  destruct r as [u|e]; [done|]. by destruct e.
Qed.

(** ** Opening by name *)
(** [m] opens an object, and may report that it is absent when [N] holds. *)
Definition tries {A} (m : M S StorageError A) (g : ghost) (O : world -> Prop) (Q : A -> world -> Prop)
    (N : world -> Prop) : Prop :=
  I g.1 -> forall s, wpM ns m (fun r _ g' => I g'.1 /\ tainted g g' /\ match r with
      | Ok a => Q a g'.1
      | Err e => if is_not_found e then N g'.1 else fault g' /\ O g'.1
      end) s g.
Lemma tries_does {A} (m : M S StorageError A) g O Q (N : world -> Prop) :
  tries m g O Q N -> (forall w, ~ N w) -> does m g O Q.
Proof.
  intros Hm HN Hi s. eapply wpM_mono; [by apply Hm|]. intros [a|e] s' g' (Hi' & Ht & Hr); [done|].
  destruct (is_not_found e); [by apply HN in Hr|done].
Qed.
Lemma ends_attempt {E A B} (m : M S StorageError A) (f : result StorageError A -> M S E B) g O O' Q Q' N :
  tries m g O Q N ->
  (forall a w b, Q a w -> tainted g (w, b) -> ends (f (Ok a)) (w, b) O' Q') ->
  (forall e w b, is_not_found e = true -> N w -> tainted g (w, b) -> ends (f (Err e)) (w, b) O' Q') ->
  (forall e g', is_not_found e = false -> fault g' -> O g'.1 -> ends (f (Err e)) g' O' Q') ->
  ends (mbind (attempt m) f) g O' Q'.
Proof.
  intros Hm Hok Hno Herr Hi s. apply wpM_bind, wpM_attempt. eapply wpM_mono; [by apply Hm|].
  intros r s' [w b] (Hi' & Ht & Hr).
  assert (ends (f r) (w, b) O' Q') as Hf.
  { destruct r as [a|e]; [by apply Hok|]. destruct (is_not_found e) eqn:He; [by apply Hno|].
    destruct Hr. by apply Herr. }
  eapply wpM_mono; [by apply Hf|]. intros r' s'' g'' (Hi'' & Ht' & Hr').
  split; [done|]. split; [|done]. intros Hb. by apply Ht', Ht.
Qed.
Lemma does_attempt {E A B} (m : M S StorageError A) (f : result StorageError A -> M S E B) g O O' Q Q' N :
  tries m g O Q N ->
  (forall a w b, Q a w -> tainted g (w, b) -> does (f (Ok a)) (w, b) O' Q') ->
  (forall e w b, is_not_found e = true -> N w -> tainted g (w, b) -> does (f (Err e)) (w, b) O' Q') ->
  (forall e g', is_not_found e = false -> fault g' -> O g'.1 -> does (f (Err e)) g' O' Q') ->
  does (mbind (attempt m) f) g O' Q'.
Proof. apply ends_attempt. Qed.
Lemma tries_bind {A B} (m : M S StorageError A) (f : A -> M S StorageError B) g O Q Q' N :
  tries m g O Q N -> (forall a, merrors (fun e => is_not_found e = false) (f a)) ->
  (forall a w b, Q a w -> tainted g (w, b) -> does (f a) (w, b) O Q') -> tries (mbind m f) g O Q' N.
Proof.
  intros Hm He Hf Hi s. apply wpM_bind. eapply wpM_mono; [by apply Hm|].
  intros [a|e] s' [w b] (Hi' & Ht & HQ); [|done].
  eapply wpM_mono; [apply wpM_errors; [apply He|by apply (Hf a w b HQ Ht)]|].
  intros r s'' g'' (He' & Hi'' & Ht' & Hr). split; [done|]. split; [intros Hb; by apply Ht', Ht|].
  destruct r as [|e]; [done|]. by rewrite (He' e).
Qed.
Lemma tries_word {A} parent name (f : path -> M S StorageError A) g O Q N :
  word name -> (forall p, tries (f p) g O Q N) ->
  tries (mbind (lift (child_path parent (encode_utf16 name))) f) g O Q N.
Proof. intros Hw Hf. rewrite child_word by done. apply Hf. Qed.
Lemma does_word {A} parent name (f : path -> M S StorageError A) g O Q :
  word name -> (forall p, does (f p) g O Q) ->
  does (mbind (lift (child_path parent (encode_utf16 name))) f) g O Q.
Proof. intros Hw Hf. rewrite child_word by done. apply Hf. Qed.

Definition is_parent (parent : Z) : Prop := parent = program_data \/ parent = bootstrap.
Lemma tries_nt_open parent name p access share options w b :
  word name -> is_parent parent ->
  tries (st_nt_open_relative parent (encode_utf16 name) p access share FILE_OPEN options) (w, b) (eq w)
    (fun h w' => exists t, object_at parent name w = Some t /\ is_fresh h w /\ w' = open_as h t w)
    (fun w' => object_at parent name w = None /\ w' = w).
Proof.
  intros Hw Hp Hi s. pose proof Hw as [Hc Hl]. rewrite (encode_word name Hc).
  unfold st_nt_open_relative, nt_open_with_descriptor. apply wpM_bind, wpM_lift. rewrite validate_word by done.
  destruct (Z.ltb_spec u16_max (2 * Z.of_nat (length name))) as [Hu|Hu]; [unfold u16_max in Hu; lia|].
  apply wpM_bind. wp_call; [split; [done|]; split; [done|by left]|]. intros x g' Hx.
  pose proof (ask_tainted _ _ _ _ Hx) as Ht. simpl in Hx.
  destruct (nt_status x <? 0)%Z.
  - apply wpM_throw. simpl. unfold absent_status in Hx. destruct (_ || _).
    + by destruct Hx as (_ & Hn & ->).
    + by rewrite Hx in *.
  - destruct (object_at parent name w) as [t|] eqn:Hn; [|by destruct Hx].
    destruct Hx as (_ & Hf & ->). unfold StorageHandle_new. rewrite (proj1 Hf). apply wpM_ret.
    split; [by eapply HI; [apply same_open|]|]. split; [done|]. by exists t.
Qed.
Lemma tries_with_handle {A} open (body : Z -> M S StorageError A) parent name w b Q N :
  tries open (w, b) (eq w)
    (fun h w' => exists t, object_at parent name w = Some t /\ is_fresh h w /\ w' = open_as h t w) N ->
  (forall h, merrors (fun e => is_not_found e = false) (body h)) ->
  (forall h t b', object_at parent name w = Some t -> is_fresh h w ->
     does (body h) (open_as h t w, b') (eq (open_as h t w)) Q) ->
  tries (with_handle open body) (w, b) (eq w) Q N.
Proof.
  intros Ho He Hb. eapply tries_bind; [exact Ho|intros h; by apply merrors_on_error|].
  intros h w' b' (t & Hn & Hf & ->) _. eapply does_guarded; [apply Hf|by apply Hb|].
  intros w' <-. symmetry. apply closed_open, Hf.
Qed.

(** ** The operations of the storage *)
Lemma found_io_error {A} operation p : merrors (fun e => is_not_found e = false) (st_io_error (S:=S) (A:=A) operation p).
Proof. unfold st_io_error, last_os_error. by solve_errors. Qed.
Hint Resolve found_io_error : errors.
Lemma found_validate_kind h p d : merrors (fun e => is_not_found e = false) (validate_kind (S:=S) h p d).
Proof. unfold validate_kind. by solve_errors. Qed.
Lemma found_identity h p : merrors (fun e => is_not_found e = false) (storage_object_identity (S:=S) h p).
Proof. unfold storage_object_identity. by solve_errors. Qed.
Hint Resolve found_validate_kind found_identity : errors.

Lemma object_at_dirs name w :
  object_at program_data name w = Obj <$> dirs w !! name.
Proof. unfold place. by rewrite Z.eqb_refl. Qed.
Definition opens_object (name : str) (w : world) (h : Z) (id : StorageObjectIdentity) (w' : world) : Prop :=
  dirs w !! name = Some id /\ is_fresh h w /\ w' = open_as h (Obj id) w.
Definition absent (name : str) (w w' : world) : Prop := dirs w !! name = None /\ w' = w.

Lemma tries_open {A} d name access share options (body : path -> Z -> M S StorageError A) w b Q :
  st_handle d = program_data -> word name ->
  (forall p h, merrors (fun e => is_not_found e = false) (body p h)) ->
  (forall p h id b', dirs w !! name = Some id -> is_fresh h w ->
     does (body p h) (open_as h (Obj id) w, b') (eq (open_as h (Obj id) w)) Q) ->
  tries (let* p := lift (child_path (st_path d) (encode_utf16 name)) in
         with_handle (st_nt_open_relative (st_handle d) (encode_utf16 name) p access share FILE_OPEN options) (body p))
    (w, b) (eq w) Q (absent name w).
Proof.
  intros Hd Hw He Hb. apply tries_word; [done|]. intros p. rewrite Hd.
  eapply (tries_with_handle _ _ program_data name); [|apply He|].
  - intros Hi s. eapply wpM_mono; [by apply tries_nt_open; [|left|]|].
    intros r s' g' (Hi' & Ht & Hr). split; [done|]. split; [done|]. destruct r as [h|e]; [done|].
    destruct (is_not_found e); [|done]. rewrite object_at_dirs in Hr. unfold absent.
    by destruct (dirs w !! name), Hr.
  - intros h t b' Hn Hf. rewrite object_at_dirs in Hn. destruct (dirs w !! name) as [id|] eqn:Hid; [|done].
    injection Hn as <-. by apply Hb.
Qed.
Lemma tries_detach d name w b :
  st_handle d = program_data -> word name ->
  tries (open_object_for_detach d name) (w, b) (eq w)
    (fun o w' => opens_object name w (so_handle o) (so_identity o) w') (absent name w).
Proof.
  intros Hd Hw. unfold open_object_for_detach. apply tries_open; [done..|by solve_errors|].
  intros p h id b' Hid Hf. eapply does_bind; [apply does_identity; apply lookup_insert_eq|].
  intros i w' b'' [-> ->] _. by apply does_ret.
Qed.
Lemma tries_open_child d name access options w b :
  st_handle d = program_data -> word name -> (forall id, dirs w !! name = Some id -> protected id) ->
  tries (open_child_as d (encode_utf16 name) access FILE_OPEN options) (w, b) (eq w)
    (fun d' w' => exists id, opens_object name w (st_handle d') id w') (absent name w).
Proof.
  intros Hd Hw Hp. unfold open_child_as. apply tries_open; [done..|by solve_errors|].
  intros p h id b' Hid Hf. eapply does_bind.
  - apply does_validate_kind; simpl; unfold live; simpl; rewrite lookup_insert_eq; [done|]. by split; [apply Hp|].
  - intros _ w' b'' -> _. apply does_ret. by exists id.
Qed.
Lemma does_object_identity d name w b id :
  st_handle d = program_data -> word name -> dirs w !! name = Some id ->
  does (open_object_identity d name) (w, b) (eq w) (fun i w' => i = id /\ w' = w).
Proof.
  intros Hd Hw Hid. unfold open_object_identity. apply does_word; [done|]. intros p. rewrite Hd.
  eapply does_bind.
  - eapply tries_does; [apply tries_nt_open; [done|by left]|]. intros w' [Hn _]. rewrite object_at_dirs, Hid in Hn. done.
  - intros h w' b' (t & Hn & Hf & ->) _. rewrite object_at_dirs, Hid in Hn. injection Hn as <-.
    eapply (does_using h _ _ (eq (open_as h (Obj id) w))); [apply Hf|apply does_identity, lookup_insert_eq| |].
    + intros w' <-. symmetry. apply closed_open, Hf.
    + intros i w' [-> ->]. split; [done|]. apply closed_open, Hf.
Qed.

(** An object takes a name. *)
Definition renamed (id : StorageObjectIdentity) (name : str) (w : world) : world :=
  with_dirs (<[name := id]> (others id w)) w.
Lemma does_rename h sp name tp w b id :
  word name -> opened w !! h = Some (Obj id) ->
  (I w -> dirs w !! name = None -> I (renamed id name w)) ->
  does (rename_by_handle h sp program_data name tp) (w, b) (eq w)
    (fun _ w' => dirs w !! name = None /\ w' = renamed id name w).
Proof.
  intros Hw Ho Hr. unfold rename_by_handle. rewrite (encode_word name) by apply Hw. rewrite validate_word by done.
  pose proof Hw as [_ Hl]. destruct (Z.ltb_spec u32_max (2 * Z.of_nat (length name))) as [Hu|Hu]; [unfold u32_max in Hu; lia|].
  apply (does_call (NtSetRenameInformation h program_data name 0)); [split; [done|simpl; by rewrite Ho]|].
  intros Hi x g' Hx. simpl in Hx. destruct (x <? 0)%Z.
  - unfold failed in Hx. subst g'. split; [done|]. by apply does_throw.
  - destruct Hx as [Hn Hx]. rewrite Ho in Hx. subst g'. rewrite object_at_dirs in Hn.
    assert (dirs w !! name = None) as Hn' by by destruct (dirs w !! name).
    split; [by apply Hr|]. by apply does_ret.
Qed.
Lemma does_object_rename o d name w b :
  st_handle d = program_data -> word name -> opened w !! so_handle o = Some (Obj (so_identity o)) ->
  (I w -> dirs w !! name = None -> I (renamed (so_identity o) name w)) ->
  does (object_rename_to o d name) (w, b) (eq w)
    (fun _ w' => dirs w !! name = None /\ w' = renamed (so_identity o) name w).
Proof.
  intros Hd Hw Ho Hr. unfold object_rename_to. apply does_word; [done|]. intros p. rewrite Hd. by apply does_rename.
Qed.
(** The renamed directory is consumed on an error. *)
Lemma does_directory_rename c d name w b id :
  st_handle d = program_data -> word name ->
  OwnedHandle_from_raw (st_handle c) = Some (st_handle c) -> opened w !! st_handle c = Some (Obj id) ->
  (I w -> dirs w !! name = None -> I (renamed id name w)) ->
  does (directory_rename_to c d name) (w, b) (eq (closed (st_handle c) w))
    (fun c' w' => st_handle c' = st_handle c /\ dirs w !! name = None /\ w' = renamed id name w).
Proof.
  intros Hd Hw Hc Ho Hr. apply (does_guarded (st_handle c) _ _ (eq w)); [done| |by intros w' <-].
  apply does_word; [done|]. intros p. rewrite Hd.
  eapply does_bind; [by apply does_rename|]. intros _ w' b' [Hn ->] _. by apply does_ret.
Qed.

Lemma does_open_root d w b id :
  st_handle d = program_data -> dirs w !! PRODUCT_DIRECTORY = Some id -> protected id ->
  does (open_existing_under d) (w, b) (eq w)
    (fun r w' => trust r = Production /\ is_fresh (st_handle (directory r)) w
                 /\ w' = open_as (st_handle (directory r)) (Obj id) w).
Proof.
  intros Hd Hid Hp. unfold open_existing_under. eapply does_bind.
  - eapply tries_does; [apply tries_open_child; [done| |]|].
    + apply word_product.
    + intros id' Hid'. congruence.
    + intros w' [Hn _]. congruence.
  - intros c w' b' (id' & Hid' & Hf & ->) _. assert (id' = id) as -> by congruence.
    apply (does_guarded _ _ _ (eq (open_as (st_handle c) (Obj id) w)));
      [apply Hf| |intros w' <-; symmetry; apply closed_open, Hf].
    eapply does_bind; [eapply does_validate_root; [apply lookup_insert_eq|done]|].
    intros _ w' b'' -> _. by apply does_ret.
Qed.
Lemma does_root_directory r w b id :
  trust r = Production -> opened w !! st_handle (directory r) = Some (Obj id) -> protected id ->
  does (root_directory r) (w, b) (eq w)
    (fun c w' => is_fresh (st_handle c) w /\ w' = open_as (st_handle c) (Obj id) w).
Proof.
  intros Ht Ho Hp. unfold root_directory, revalidate. rewrite Ht. eapply (does_bind _ _ _ _ (fun _ w' => w' = w)).
  - eapply does_bind; [apply does_validate_kind; unfold live; by rewrite Ho|].
    intros _ w' b' -> _. by eapply does_validate_root.
  - intros _ w' b' -> _. unfold duplicate_directory, duplicate.
    eapply (does_bind _ _ _ _ (fun h w' => is_fresh h w /\ w' = open_as h (Obj id) w)).
    + apply does_call; [simpl; unfold live; by rewrite Ho|]. intros Hi [[] h] g' Hx; simpl in Hx.
      * destruct Hx as (t & Ho' & Hf & ->). rewrite Ho in Ho'. injection Ho' as <-.
        split; [by eapply HI; [apply same_open|]|]. simpl. unfold StorageHandle_new. rewrite (proj1 Hf).
        by apply does_ret.
      * rewrite Hx. split; [done|]. by apply does_io_error.
    + intros h w' b'' [Hf ->] _. by apply does_ret.
Qed.
(** Creating a protected directory, and removing it. *)
Lemma does_free {E A} pointer (m : M S E A) g O Q : does m g O Q -> does (defer (call (LocalFree pointer)) m) g O Q.
Proof.
  intros Hm Hi s. apply wpM_defer. eapply wpM_mono; [by apply Hm|]. intros r s' g' Hr.
  wp_call; [split; [apply Hr|done]|]. intros x g'' Hx. simpl in Hx. by subst g''.
Qed.
Lemma does_parse_descriptor sddl p w b :
  does (LocalSecurityDescriptor_parse sddl p) (w, b) (eq w) (fun d w' => d <> 0%Z /\ w' = w).
Proof.
  apply does_look; [done|]. intros [[] d] g' Hx; simpl in Hx; unfold unless_failed, failed in Hx; simpl in Hx.
  - destruct Hx as [Hd ->]. split; [done|]. by apply does_ret.
  - subst g'. split; [done|]. by apply does_io_error.
Qed.
Definition created (name : str) (id : StorageObjectIdentity) (w : world) : world :=
  with_dirs (<[name := id]> (dirs w)) w.
Definition unused (id : StorageObjectIdentity) (name : str) (w : world) : Prop :=
  protected id /\ (forall n, dirs w !! n <> Some id) /\ dirs w !! name = None.
Lemma does_nt_create_directory name p access share options descriptor w b :
  word name -> descriptor <> 0%Z -> (forall id, unused id name w -> I w -> I (created name id w)) ->
  does (nt_open_with_descriptor program_data (encode_utf16 name) p access share FILE_CREATE options descriptor)
    (w, b) (eq w)
    (fun h w' => exists id, unused id name w /\ is_fresh h w /\ w' = open_as h (Obj id) (created name id w)).
Proof.
  intros Hw Hd Hnew Hi s. pose proof Hw as [Hc Hl]. rewrite (encode_word name Hc).
  unfold nt_open_with_descriptor. apply wpM_bind, wpM_lift. rewrite validate_word by done.
  destruct (Z.ltb_spec u16_max (2 * Z.of_nat (length name))) as [Hu|Hu]; [unfold u16_max in Hu; lia|].
  apply wpM_bind. wp_call; [split; [done|]; split; [by left|by right]|]. intros x g' Hx.
  pose proof (ask_tainted _ _ _ _ Hx) as Ht. simpl in Hx. destruct (nt_status x <? 0)%Z.
  - apply wpM_throw. destruct (absent_status _); [by destruct Hx|]. by rewrite Hx in *.
  - rewrite object_at_dirs, Z.eqb_refl in Hx. destruct (dirs w !! name) eqn:Hn; [by destruct Hx|].
    destruct Hx as (_ & id & Hp & Hu' & Hf & ->). unfold StorageHandle_new. rewrite (proj1 Hf). apply wpM_ret.
    assert (unused id name w) as Hun by done.
    split; [eapply HI; [apply same_open|by apply Hnew]|]. split; [done|]. by exists id.
Qed.
Lemma does_create_protected d name w b :
  st_handle d = program_data -> word name -> (forall id, unused id name w -> I w -> I (created name id w)) ->
  does (create_protected_child d name) (w, b) (keeps_open w)
    (fun c w' => exists id, unused id name w /\ is_fresh (st_handle c) w
                 /\ w' = open_as (st_handle c) (Obj id) (created name id w)).
Proof.
  intros Hd Hw Hnew. unfold create_protected_child. apply does_word; [done|]. intros p. rewrite Hd.
  eapply does_bind; [eapply does_mono; [apply does_parse_descriptor|done|by intros w' <-]|].
  intros descriptor w' b' [Hne ->] _. apply does_free. eapply does_bind.
  { eapply does_mono; [by apply does_nt_create_directory|done|by intros w' <-]. }
  intros h w' b2 (id & Hid & Hf & ->) _. set (w1 := open_as h (Obj id) (created name id w)).
  assert (opened w1 !! h = Some (Obj id)) as Ho by apply lookup_insert_eq.
  apply does_guarded with (O := eq w1); [apply Hf| |].
  2:{ intros w' <-. unfold keeps_open, w1. simpl. apply delete_insert_id, Hf. }
  eapply does_bind.
  { apply does_validate_kind; [unfold live|]; rewrite Ho; [done|]. by destruct Hid. }
  intros [] w' b3 -> _. eapply does_bind; [eapply does_validate_root; [exact Ho|apply Hid]|].
  intros [] w' b4 -> _. apply does_ret. by exists id.
Qed.
Lemma does_remove_directory c w b id :
  OwnedHandle_from_raw (st_handle c) = Some (st_handle c) -> opened w !! st_handle c = Some (Obj id) ->
  (I w -> I (with_dirs (others id w) w)) ->
  does (remove_directory c) (w, b) (fun w' => opened w' = delete (st_handle c) (opened w))
    (fun _ w' => opened w' = delete (st_handle c) (opened w)).
Proof.
  intros Hc Ho Hrem. unfold remove_directory, using_handle.
  apply does_using with (O := keeps_open w) (Q := fun _ => keeps_open w); [done| |by intros w' Hk; simpl; rewrite Hk|by intros [] w' Hk; simpl; rewrite Hk].
  apply does_call; [unfold namespace_call, live; simpl; by rewrite Ho|]. intros Hi [] g' Hx; simpl in Hx.
  - rewrite Ho in Hx. subst g'. split; [by apply Hrem|]. by apply does_ret.
  - rewrite Hx. split; [done|]. by apply does_io_error.
Qed.

Lemma does_leg {A} (m : M S StorageError A) g O Q : does m g O Q -> does (leg m) g O Q.
Proof. apply does_map_err. Qed.
Lemma does_verify_ready d st w b :
  st_handle d = program_data -> word (legacy_name st) -> protected (next_identity st) ->
  dirs w !! PRODUCT_DIRECTORY = Some (next_identity st) -> dirs w !! legacy_name st = Some (source_identity st) ->
  does (verify_ready_root d st) (w, b) (eq w) (fun _ w' => w' = w).
Proof.
  intros Hd Hw Hp Hroot Hleg. unfold verify_ready_root.
  eapply does_bind; [by apply does_leg, does_open_root|]. intros r w' b' (Ht & Hf & ->) _.
  set (h := st_handle (directory r)) in *. set (w1 := open_as h (Obj (next_identity st)) w).
  apply (does_using h _ _ (eq w1) _ (fun _ w' => w' = w1)); [apply Hf| |intros w' <-; symmetry; apply closed_open, Hf|].
  2:{ intros _ w' ->. apply closed_open, Hf. }
  eapply does_bind; [apply does_leg, (does_root_directory _ _ _ (next_identity st)); [done|apply lookup_insert_eq|done]|].
  intros c w' b'' [Hf' ->] _. set (w2 := open_as (st_handle c) (Obj (next_identity st)) w1).
  eapply (does_bind _ _ _ _ (fun _ w' => w' = w1)).
  - apply (does_using (st_handle c) _ _ (eq w2) _ (fun _ w' => w' = w2)); [apply Hf'| |intros w' <-; symmetry; apply closed_open, Hf'|].
    2:{ intros _ w' ->. apply closed_open, Hf'. }
    eapply does_bind; [by apply does_leg, does_identity, lookup_insert_eq|].
    intros i w' b3 [-> ->] _. rewrite bool_decide_eq_true_2 by done. by apply does_ret.
  - intros _ w' b3 -> _. eapply does_bind; [by apply does_leg, does_object_identity|].
    intros i w' b4 [-> ->] _. rewrite bool_decide_eq_true_2 by done. by apply does_ret.
Qed.

(** ** The journal of phases *)
Lemma does_attempt_or {E E' A B} (m : M S E' A) (f : result E' A -> M S E B) g O O' Q Q' :
  ends m g O Q ->
  (forall a w b, Q a w -> tainted g (w, b) -> does (f (Ok a)) (w, b) O' Q') ->
  (forall e g', fault g' -> O e g'.1 -> does (f (Err e)) g' O' Q') ->
  does (mbind (attempt m) f) g O' Q'.
Proof.
  intros Hm Hok Herr Hi s. apply wpM_bind, wpM_attempt. eapply wpM_mono; [by apply Hm|].
  intros r s' [w b] (Hi' & Ht & Hr).
  assert (does (f r) (w, b) O' Q') as Hf.
  { destruct r as [a|e]; [by apply Hok|]. destruct Hr. by apply Herr. }
  eapply wpM_mono; [by apply Hf|]. intros r' s'' g'' (Hi'' & Ht' & Hr').
  split; [done|]. split; [|done]. intros Hb. by apply Ht', Ht.
Qed.
Lemma does_on_error {E A} cleanup (m : M S E A) g (O O' : world -> Prop) Q :
  does m g O Q -> (forall g', fault g' -> O g'.1 -> does cleanup g' O' (fun _ => O')) ->
  does (on_error cleanup m) g O' Q.
Proof.
  intros Hm Hc Hi s. apply wpM_on_error. eapply wpM_mono; [by apply Hm|].
  intros [a|e] s' g' (Hi' & Ht & Hr); [done|]. destruct Hr as [Hb HO].
  eapply wpM_mono; [by apply (Hc g' Hb HO)|]. intros r s'' g'' (Hi'' & Ht' & Hr').
  assert (fault g'') as Hb' by by apply Ht'. split; [done|]. split; [by intros _|]. split; [done|].
  by destruct r; [|destruct Hr'].
Qed.
Lemma does_random w b :
  does random_id (w, b) (eq w)
    (fun id w' => w' = w /\ Forall (fun c => word_char c = true) id /\ length id = 32 /\ unused_id id w).
Proof.
  apply does_look; [done|]. intros [status bytes] g' Hx. simpl in Hx. simpl. destruct (status <? 0)%Z.
  - rewrite Hx. split; [done|]. by apply does_throw.
  - destruct Hx as [(Hl & Hb & Hu) ->]. split; [done|]. apply does_ret. split; [done|].
    rewrite written_over_full by lia. pose proof (hex2_words bytes Hb) as [Hw Hn]. split; [done|]. split; [lia|done].
Qed.

Lemma object_at_files name w :
  program_data <> bootstrap ->
  object_at bootstrap name w = match files w !! name with Some _ => Some (Rec name) | None => None end.
Proof. intros Hne. unfold place. by rewrite (proj2 (Z.eqb_neq _ _)). Qed.
Definition hidden (name : str) : Prop := head name = Some DOT.
Definition with_file (name : str) (data : list Z) (w : world) : world :=
  with_files (<[name := data]> (files w)) w.
Lemma same_hidden name f w :
  hidden name -> (forall n, n <> name -> f !! n = files w !! n) -> same w (with_files f w).
Proof.
  intros Hh Hf. split; [done|]. intros n Hn. simpl. rewrite Hf; [done|]. intros ->. by apply Hn.
Qed.
Lemma same_with_file name data w : hidden name -> same w (with_file name data w).
Proof. intros Hh. apply (same_hidden name); [done|]. intros n Hn. by rewrite lookup_insert_ne. Qed.

(** The record file [name] is open as [h] and present. *)
Definition open_record (h : Z) (name : str) (w : world) : Prop :=
  opened w !! h = Some (Rec name) /\ is_Some (files w !! name).
Lemma open_record_live h name w : open_record h name w -> live h w.
Proof. intros [Ho Hf]. unfold live. by rewrite Ho. Qed.
Lemma does_delete_record h p name w b :
  hidden name -> open_record h name w ->
  does (delete_by_handle h p) (w, b) (eq w) (fun _ w' => w' = with_files (delete name (files w)) w).
Proof.
  intros Hh Ho. apply does_call; [by eapply open_record_live|]. intros Hi x g' Hx. simpl in Hx.
  destruct Ho as [Ho _]. destruct x; simpl in *.
  - rewrite Ho in Hx. subst g'. split; [|by apply does_ret].
    eapply HI; [apply (same_hidden name); [done|]|done]. intros n Hn. by rewrite lookup_delete_ne.
  - rewrite Hx. split; [done|]. by apply does_io_error.
Qed.
Lemma does_drop_created {E} c temp g (O : gmap Z target) :
  hidden temp -> OwnedHandle_from_raw (cf_file c) = Some (cf_file c) ->
  OwnedHandle_from_raw (cf_cleanup c) = Some (cf_cleanup c) ->
  open_record (cf_cleanup c) temp g.1 -> delete (cf_cleanup c) (delete (cf_file c) (opened g.1)) = O ->
  does (E:=E) (drop_created c) g (fun w => same g.1 w /\ opened w = O) (fun _ w => same g.1 w /\ opened w = O).
Proof.
  intros Hh Hf Hc Ho HO. destruct g as [w b]. simpl in *. unfold drop_created.
  assert (forall g', unpublished w g'.1 ->
    does (E:=E) (do* close_handle (cf_file c) in close_handle (cf_cleanup c)) g'
      (fun w' => same w w' /\ opened w' = O) (fun _ w' => same w w' /\ opened w' = O)) as Hrest.
  { intros g' [Hs Hg]. eapply does_bind; [apply (does_close _ _ _ (fun _ w' => w' = closed (cf_file c) g'.1)); [done|reflexivity]|].
    intros [] w' b' -> _. apply does_close; [done|]. split; [by rewrite Hs|]. simpl. by rewrite Hg. }
  eapply does_attempt_or; [by apply (does_delete_record _ _ temp)| |].
  - intros [] w' b' -> _. apply Hrest. split; [|done].
    apply (same_hidden temp); [done|]. intros n Hn. by rewrite lookup_delete_ne.
  - intros e g' _ Hg. apply Hrest. by rewrite <- Hg.
Qed.

(** The created file is hidden, empty, and open twice. *)
Definition created_file (c : CreatedStorageFile) (temp : str) (w w' : world) : Prop :=
  files w !! temp = None /\ is_fresh (cf_file c) w /\ OwnedHandle_from_raw (cf_cleanup c) = Some (cf_cleanup c)
  /\ cf_cleanup c <> cf_file c /\ opened w !! cf_cleanup c = None
  /\ w' = open_as (cf_cleanup c) (Rec temp) (open_as (cf_file c) (Rec temp) (with_file temp [] w)).
Lemma does_nt_create d temp p share access options w b :
  program_data <> bootstrap -> word temp -> hidden temp -> st_handle d = bootstrap ->
  does (st_nt_open_relative (st_handle d) (encode_utf16 temp) p access share FILE_CREATE options) (w, b) (eq w)
    (fun h w' => files w !! temp = None /\ is_fresh h w /\ w' = open_as h (Rec temp) (with_file temp [] w)).
Proof.
  intros Hne Hw Hh Hd Hi s. pose proof Hw as [Hc Hl]. rewrite (encode_word temp Hc), Hd.
  unfold st_nt_open_relative, nt_open_with_descriptor. apply wpM_bind, wpM_lift. rewrite validate_word by done.
  destruct (Z.ltb_spec u16_max (2 * Z.of_nat (length temp))) as [Hu|Hu]; [unfold u16_max in Hu; lia|].
  apply wpM_bind. wp_call.
  { split; [done|]. split; [by right|]. right. split; [done|]. by intros Heq; destruct Hne. }
  intros x g' Hx. pose proof (ask_tainted _ _ _ _ Hx) as Ht. simpl in Hx.
  destruct (nt_status x <? 0)%Z.
  - apply wpM_throw. destruct (absent_status _); [by destruct Hx|]. by rewrite Hx in *.
  - rewrite object_at_files in Hx by done. destruct (files w !! temp) eqn:Hn; [by destruct Hx|].
    rewrite (proj2 (Z.eqb_neq bootstrap program_data)) in Hx by done. destruct Hx as (_ & Hf & ->).
    unfold StorageHandle_new. rewrite (proj1 Hf). apply wpM_ret.
    split; [|done]. eapply HI; [|exact Hi]. etransitivity; [by apply (same_with_file temp [])|apply same_open].
Qed.
Lemma does_create_state_file d temp w b :
  program_data <> bootstrap -> word temp -> hidden temp -> st_handle d = bootstrap ->
  does (create_state_file d temp) (w, b) (unpublished w) (fun c w' => created_file c temp w w').
Proof.
  intros Hne Hw Hh Hd. unfold create_state_file, st_create_file. apply does_word; [done|]. intros p.
  eapply does_bind.
  { eapply does_mono; [by apply does_nt_create|done|by intros w' <-]. }
  intros h w' b' (Hn & Hf & ->) _. set (w1 := with_file temp [] w). set (w2 := open_as h (Rec temp) w1).
  assert (open_record h temp w2) as Ho.
  { split; [apply lookup_insert_eq|]. simpl. rewrite lookup_insert_eq. by eexists. }
  assert (same w w2) as Hsame by (etransitivity; [by apply (same_with_file temp [])|apply same_open]).
  assert (unpublished w2 (with_files (delete temp (files w2)) w2)) as Hdel.
  { split; [|done]. apply (same_hidden temp); [done|]. intros n Hne'. by rewrite lookup_delete_ne. }
  apply (does_guarded h _ _ (unpublished w2)); [apply Hf| |].
  2:{ intros w' [Hs Hk]. split; [by rewrite Hsame, Hs|]. unfold keeps_open in *. simpl. rewrite Hk.
      apply delete_insert_id, Hf. }
  eapply does_attempt_or; [apply (does_validate_kind h p w2); [by eapply open_record_live|]| |].
  { by replace (opened w2 !! h) with (Some (Rec temp)) by by rewrite <- (proj1 Ho). }
  - intros [] w' b2 -> _. eapply (does_attempt_or (E':=StorageError) _ _ _ (fun _ => eq w2) _
      (fun c w' => OwnedHandle_from_raw c = Some c /\ opened w2 !! c = None /\ w' = open_as c (Rec temp) w2)).
    + unfold duplicate. apply does_call; [by eapply open_record_live|]. intros Hi [[] c] g' Hx; simpl in Hx.
      * destruct Hx as (t & Ht & Hfc & ->). rewrite lookup_insert_eq in Ht. injection Ht as <-.
        split; [by eapply HI; [apply same_open|]|]. cbv beta iota. cbn [negb].
        unfold StorageHandle_new. rewrite (proj1 Hfc). apply does_ret. split; [apply Hfc|]. split; [apply Hfc|done].
      * rewrite Hx. split; [done|]. by apply does_io_error.
    + intros c w' b3 (Hc & Hcn & ->) _. apply does_ret. unfold created_file. simpl.
      destruct (decide (c = h)) as [->|Hch].
      { simpl in Hcn. by rewrite lookup_insert_eq in Hcn. }
      simpl in Hcn. by rewrite lookup_insert_ne in Hcn.
    + intros e [w' b4] Hb Hg. unfold fault in Hb. simpl in *. subst w' b4.
      eapply does_attempt_or; [by apply (does_delete_record _ _ temp)| |].
      * intros [] w'' b'' -> Ht. apply does_throw; [by apply Ht|done].
      * intros e' g' Hb' Hg. apply does_throw; [done|]. by rewrite <- Hg.
  - intros e [w' b4] Hb Hg. unfold fault in Hb. simpl in *. subst w' b4.
    eapply does_attempt_or; [by apply (does_delete_record _ _ temp)| |].
    + intros [] w'' b'' -> Ht. apply does_throw; [by apply Ht|done].
    + intros e' g' Hb' Hg. apply does_throw; [done|]. by rewrite <- Hg.
Qed.

Lemma does_lift {E A} (r : result E A) g (O : world -> Prop) (Q : A -> world -> Prop) :
  match r with Ok a => Q a g.1 | Err _ => fault g /\ O g.1 end -> does (lift r) g O Q.
Proof. destruct r; [by apply does_ret|]. intros []. by apply does_throw. Qed.
Lemma does_bind_lift {E A B} (r : result E A) (f : A -> M S E B) g (O : world -> Prop) Q :
  match r with Ok a => does (f a) g O Q | Err _ => fault g /\ O g.1 end -> does (mbind (lift r) f) g O Q.
Proof. destruct r; [done|]. intros []. by apply (does_throw e). Qed.

(** Writing, flushing and syncing the created file. *)
Lemma does_write_created (file : Z) temp bytes w b :
  hidden temp -> open_record file temp w -> contents temp w = [] ->
  does (let* r := call (FileWriteAll file bytes) in do* leg_io r in
        let* r := call (FileFlush file) in do* leg_io r in
        let* r := call (FileSyncAll file) in leg_io r) (w, b)
    (fun w' => exists x, w' = with_file temp x w) (fun _ w' => w' = with_file temp bytes w).
Proof.
  intros Hh Ho Hc. apply does_call; [by exists temp|]. intros Hi r g' Hx. simpl in Hx.
  unfold writing in Hx. rewrite (proj1 Ho), Hc in Hx.
  assert (forall x, I (with_file temp x w)) as Hix by by intros x; eapply HI; [apply same_with_file|].
  assert (may (FileFlush file) (with_file temp bytes w)) as Hm by by exists temp; destruct Ho.
  destruct r as [[]|e].
  2:{ destruct Hx as [x ->]. split; [apply Hix|]. apply does_bind_lift. by split; [|exists x]. }
  subst g'. split; [apply Hix|]. apply does_bind_lift. simpl.
  apply does_look; [done|]. intros r g' Hr. simpl in Hr. destruct r as [[]|e]; simpl in Hr; unfold failed in Hr; subst g'; (split; [done|]).
  2:{ apply does_bind_lift. by split; [|exists bytes]. }
  apply does_bind_lift. simpl. apply does_look; [done|]. intros r g' Hr. simpl in Hr.
  destruct r as [[]|e]; simpl in Hr; unfold failed in Hr; subst g'; (split; [done|]); apply does_lift; [done|]. by split; [|exists bytes].
Qed.

(** A record takes its name. *)
Lemma does_rename_record h sp name tp w b old :
  program_data <> bootstrap -> word name -> open_record h old w ->
  (I w -> files w !! name = None -> I (with_files (<[name := contents old w]> (delete old (files w))) w)) ->
  does (rename_by_handle h sp bootstrap name tp) (w, b) (eq w)
    (fun _ w' => w' = with_files (<[name := contents old w]> (delete old (files w))) w).
Proof.
  intros Hne Hw [Ho Hl] Hr. unfold rename_by_handle. rewrite (encode_word name) by apply Hw. rewrite validate_word by done.
  pose proof Hw as [_ Hlen]. destruct (Z.ltb_spec u32_max (2 * Z.of_nat (length name))) as [Hu|Hu]; [unfold u32_max in Hu; lia|].
  apply (does_call (NtSetRenameInformation h bootstrap name 0)); [split; [done|simpl; by rewrite Ho]|].
  intros Hi x g' Hx. simpl in Hx. destruct (x <? 0)%Z.
  - unfold failed in Hx. subst g'. split; [done|]. by apply does_throw.
  - destruct Hx as [Hn Hx]. rewrite Ho in Hx. subst g'. rewrite object_at_files in Hn by done.
    assert (files w !! name = None) as Hn' by by destruct (files w !! name).
    split; [by apply Hr|]. by apply does_ret.
Qed.
Lemma does_publish c d name tmp data w b :
  program_data <> bootstrap -> st_handle d = bootstrap -> word name -> hidden tmp ->
  OwnedHandle_from_raw (cf_file c) = Some (cf_file c) -> OwnedHandle_from_raw (cf_cleanup c) = Some (cf_cleanup c) ->
  opened w !! cf_cleanup c = Some (Rec tmp) -> files w !! tmp = Some data ->
  (I w -> files w !! name = None -> I (with_files (<[name := data]> (delete tmp (files w))) w)) ->
  does (publish c d name) (w, b) (fun w' => opened w' = delete (cf_cleanup c) (delete (cf_file c) (opened w)))
    (fun h w' => h = cf_file c /\
       w' = closed (cf_cleanup c) (with_files (<[name := data]> (delete tmp (files w))) w)).
Proof.
  intros Hne Hd Hw Hh Hf Hc Ho Hdata Hpub.
  assert (open_record (cf_cleanup c) tmp w) as Hrec by by split; [|eexists].
  assert (contents tmp w = data) as Hcon by by unfold contents; rewrite Hdata.
  unfold publish. apply (does_on_error _ _ _ (eq w)).
  2:{ intros g' Hb Hg. eapply does_mono; [by apply (does_drop_created c tmp); [done..| |]; rewrite <- Hg|..]; by intros * []. }
  apply does_word; [done|]. intros p. rewrite Hd.
  eapply does_bind; [apply does_rename_record; [done|done|done|by rewrite Hcon]|].
  rewrite Hcon. intros [] w' b' -> _. unfold commit. eapply does_bind.
  - by apply (does_close _ _ _ (fun _ w' => w' = closed (cf_cleanup c) (with_files (<[name := data]> (delete tmp (files w))) w))).
  - intros [] w' b2 -> _. by apply does_ret.
Qed.

Context `{StateCodec}.
Definition recorded (st : MigrationStateRecord) (w : world) : world :=
  with_file (state_file_name st) (state_to_vec st) w.
Lemma hidden_not_record st : ~ hidden (state_file_name st).
Proof. by intros [=]. Qed.
(** Only the last two steps of a publication may leave the record published. *)
Definition unless_published (w : world) (e : LegacyStorageError) (w' : world) : Prop :=
  keeps_open w w' /\ match e with PublishedStateSync _ _ | StatePublication _ _ => True | _ => same w w' end.
Definition publishing (e : LegacyStorageError) : Prop :=
  match e with PublishedStateSync _ _ | StatePublication _ _ => True | _ => False end.
Lemma merrors_any {E A} (Q : E -> Prop) (m : M S E A) : (forall e, Q e) -> merrors Q m.
Proof. intros HQ s. generalize (m s). intros p. induction p as [[[a|e] s']|a k IH|h]; simpl; auto. Qed.
Lemma unpublished_unless w e w' : unpublished w w' -> unless_published w e w'.
Proof. intros [Hs Hk]. split; [done|]. by destruct e. Qed.
Lemma after_publishing {A} (m : M S LegacyStorageError A) g w Q :
  merrors publishing m -> does m g (keeps_open w) Q -> ends m g (unless_published w) Q.
Proof.
  intros He Hm. eapply ends_mono; [by apply ends_errors|done|]. intros e w' [Hk Hw]. split; [done|]. by destruct e.
Qed.
(** What is known once the temporary file is there. *)
Lemma created_back c tmp w w2 :
  created_file c tmp w w2 -> delete (cf_cleanup c) (delete (cf_file c) (opened w2)) = opened w.
Proof.
  intros (Hn & (Hf & Hfo & _) & Hc & Hcf & Hco & ->). apply map_eq. intros h.
  destruct (decide (h = cf_cleanup c)) as [->|Hn1]; [by rewrite lookup_delete_eq|].
  rewrite lookup_delete_ne by done. destruct (decide (h = cf_file c)) as [->|Hn2]; [by rewrite lookup_delete_eq|].
  rewrite lookup_delete_ne by done. simpl. by rewrite !lookup_insert_ne.
Qed.
Lemma created_opened c tmp w w2 :
  created_file c tmp w w2 ->
  opened w2 !! cf_cleanup c = Some (Rec tmp) /\ opened w2 !! cf_file c = Some (Rec tmp).
Proof.
  intros (Hn & _ & _ & Hcf & _ & ->). split; [apply lookup_insert_eq|]. simpl.
  rewrite lookup_insert_ne by done. apply lookup_insert_eq.
Qed.
Lemma created_files c tmp w w2 data :
  created_file c tmp w w2 -> delete tmp (<[tmp := data]> (files w2)) = files w.
Proof.
  intros (Hn & _ & _ & _ & _ & ->). simpl. by rewrite delete_insert_eq, delete_insert_id.
Qed.
Lemma created_same c tmp w w2 data : hidden tmp -> created_file c tmp w w2 -> same w (with_file tmp data w2).
Proof.
  intros Hh (_ & _ & _ & _ & _ & ->). split; [done|]. intros n Hnh. simpl.
  rewrite !lookup_insert_ne; [done|by intros ->; apply Hnh..].
Qed.
Lemma does_fill_created c tmp bytes w w2 b :
  hidden tmp -> created_file c tmp w w2 ->
  does (on_error (drop_created c)
          (let* r := call (FileWriteAll (cf_file c) bytes) in do* leg_io r in
           let* r := call (FileFlush (cf_file c)) in do* leg_io r in
           let* r := call (FileSyncAll (cf_file c)) in leg_io r)) (w2, b)
    (unpublished w) (fun _ w' => w' = with_file tmp bytes w2).
Proof.
  intros Hh Hcreated. pose proof (created_back _ _ _ _ Hcreated) as Hback.
  pose proof (created_opened _ _ _ _ Hcreated) as [Hoc Hof].
  assert (files w2 !! tmp = Some []) as Hempty.
  { destruct Hcreated as (_ & _ & _ & _ & _ & ->). apply lookup_insert_eq. }
  eapply (does_on_error _ _ _ _ (unpublished w)); [apply (does_write_created _ tmp); [done| |]|].
  - split; [done|]. by eexists.
  - unfold contents. by rewrite Hempty.
  - intros g' Hb [x Hg]. pose proof (created_same _ _ _ _ x Hh Hcreated) as Hsg.
    pose proof Hcreated as (_ & (Hf & _) & Hc & _).
    eapply does_mono; [apply (does_drop_created c tmp); [done..| |reflexivity]; rewrite Hg|..].
    + split; [done|]. simpl. rewrite lookup_insert_eq. by eexists.
    + intros _ w' [Hs Ho]. rewrite Hg in Hs, Ho. split; [by etrans|]. unfold keeps_open. by rewrite Ho.
    + intros w' [Hs Ho]. rewrite Hg in Hs, Ho. split; [by etrans|]. unfold keeps_open. by rewrite Ho.
Qed.
Lemma does_publish_created d st c tmp w w2 b :
  program_data <> bootstrap -> st_handle d = bootstrap -> word (state_file_name st) -> hidden tmp ->
  (forall w', same w w' -> I w' -> I (recorded st w')) -> created_file c tmp w w2 ->
  does (let* published := map_err (StatePublication (state_file_name st)) (publish c d (state_file_name st)) in
        defer (call (CloseHandle published))
          (let* r := call (FileSyncAll published) in
           lift (result_map_err (PublishedStateSync (state_file_name st)) r)))
    (with_file tmp (state_to_vec st) w2, b) (keeps_open w) (fun _ w' => w' = recorded st w).
Proof.
  intros Hne Hd Hw Hh Hrec Hcreated. pose proof (created_back _ _ _ _ Hcreated) as Hback.
  pose proof (created_opened _ _ _ _ Hcreated) as [Hoc Hof].
  pose proof (created_files _ _ _ _ (state_to_vec st) Hcreated) as Hfiles.
  pose proof (created_same _ _ _ _ (state_to_vec st) Hh Hcreated) as Hsame.
  pose proof Hcreated as (_ & (Hf & _) & Hc & _ & _ & Hw2).
  eapply does_bind.
  { apply does_map_err. eapply does_mono; [apply (does_publish c d _ tmp (state_to_vec st)); try done|done|].
    - apply lookup_insert_eq.
    - intros Hi _. apply (HI (recorded st w)).
      + split; [by rewrite Hw2|]. intros n _. simpl. by rewrite Hfiles.
      + apply Hrec; [reflexivity|]. eapply HI; [|exact Hi]. by symmetry.
    - unfold keeps_open. intros w' ->. exact Hback. }
  intros h w' b4 [-> ->] _. set (w3 := closed (cf_cleanup c) _).
  assert (closed (cf_file c) w3 = recorded st w) as Hend.
  { unfold w3, closed, recorded, with_file, with_files. simpl. rewrite Hfiles.
    f_equal; [by rewrite Hw2|]. by rewrite delete_delete. }
  apply (does_using_call (cf_file c) _ _ (eq w3) _ (fun _ w' => w' = w3)).
  - apply does_look; [exists tmp; simpl; by rewrite lookup_delete_ne by (by destruct Hcreated as (_ & _ & _ & ? & _))|].
    intros r g' Hr. simpl in Hr.
    destruct r as [[]|e]; simpl in Hr; unfold failed in Hr; subst g'; (split; [done|]); by apply does_lift.
  - intros w' <-. unfold keeps_open. by rewrite Hend.
  - by intros _ w' ->.
Qed.
Lemma ends_write_new d st w b :
  program_data <> bootstrap -> st_handle d = bootstrap -> word (state_file_name st) ->
  Forall (fun c => word_char c = true) (migration_id st) -> length (migration_id st) <= 100 ->
  (forall w', same w w' -> I w' -> I (recorded st w')) ->
  ends (let* id := random_id in
        let temp_name := $"." ++ migration_id st ++ $"-" ++ id ++ $".tmp" in
        let* created := leg (create_state_file d temp_name) in
        do* on_error (drop_created created)
              (let bytes := state_to_vec st in
               let* r := call (FileWriteAll (cf_file created) bytes) in do* leg_io r in
               let* r := call (FileFlush (cf_file created)) in do* leg_io r in
               let* r := call (FileSyncAll (cf_file created)) in leg_io r) in
        let* published := map_err (StatePublication (state_file_name st)) (publish created d (state_file_name st)) in
        defer (call (CloseHandle published))
          (let* r := call (FileSyncAll published) in
           lift (result_map_err (PublishedStateSync (state_file_name st)) r))) (w, b) (unless_published w)
    (fun _ w' => w' = recorded st w).
Proof.
  intros Hne Hd Hw Hid Hlen Hrec.
  eapply ends_bind; [eapply ends_mono; [apply does_random|done|intros e w' <-; apply unpublished_unless, unpublished_refl]|].
  intros id w' b' (-> & Hidw & Hidl & _) _. cbv zeta. set (tmp := $"." ++ migration_id st ++ $"-" ++ id ++ $".tmp").
  assert (hidden tmp) as Hh by done.
  assert (word tmp) as Hwt.
  { split; [|unfold tmp; rewrite !length_app, Hidl; simpl; lia].
    unfold tmp. rewrite !Forall_app. split_and!; try done; by repeat constructor. }
  eapply ends_bind.
  { eapply ends_mono; [by apply does_leg, does_create_state_file|done|]. apply unpublished_unless. }
  intros c w2 b2 Hcreated _. eapply ends_bind.
  { eapply ends_mono; [by apply (does_fill_created c tmp (state_to_vec st) w)|done|apply unpublished_unless]. }
  intros [] w' b3 -> _. apply after_publishing; [|by apply does_publish_created].
  apply merrors_bind; [by apply merrors_map_err, merrors_any|]. intros h. apply merrors_defer, merrors_bind; [apply merrors_call|].
  intros r. apply merrors_lift. intros e He. destruct r; [done|]. by injection He as <-.
Qed.
Lemma ends_write_state d st w b :
  program_data <> bootstrap -> st_handle d = bootstrap -> word (state_file_name st) ->
  Forall (fun c => word_char c = true) (migration_id st) -> length (migration_id st) <= 100 ->
  files w !! state_file_name st = None ->
  (forall w', same w w' -> I w' -> I (recorded st w')) ->
  ends (write_state d st) (w, b) (unless_published w) (fun _ w' => w' = recorded st w).
Proof.
  intros Hne Hd Hw Hid Hlen Hnew Hrec. unfold write_state.
  eapply (ends_attempt _ _ _ (eq w) _ (fun _ _ => False) _ (fun w' => w' = w)).
  - unfold st_open_file. apply tries_word; [done|]. intros p. rewrite Hd.
    intros Hi s. apply wpM_bind. eapply wpM_mono; [apply tries_nt_open; [done|by right|done]|].
    intros [h|e] s' g' (Hi' & Ht & Hr).
    + destruct Hr as (t & Hr & _). rewrite object_at_files, Hnew in Hr by done. done.
    + split; [done|]. split; [done|]. destruct (is_not_found e); [by destruct Hr|done].
  - done.
  - intros e w' b' He -> _. rewrite He. by apply ends_write_new.
  - intros e g' He Hb Hg. rewrite He. intros Hi s. apply wpM_throw. split; [done|]. split; [by intros _|].
    split; [done|]. apply unpublished_unless. rewrite <- Hg. apply unpublished_refl.
Qed.
Lemma does_write_state d st w b :
  program_data <> bootstrap -> st_handle d = bootstrap -> word (state_file_name st) ->
  Forall (fun c => word_char c = true) (migration_id st) -> length (migration_id st) <= 100 ->
  files w !! state_file_name st = None ->
  (forall w', same w w' -> I w' -> I (recorded st w')) ->
  does (write_state d st) (w, b) (keeps_open w) (fun _ w' => w' = recorded st w).
Proof. intros. eapply ends_mono; [by apply ends_write_state|done|]. by intros e w' []. Qed.

End Runs.
