(* ===== verification/NamespaceSpec.v ===== *)
(** * NamespaceSpec: an interrupted detachment can be resumed

    In a resumable world the journal holds the records of the phases up to one
    of them, and the two objects have the names of that phase, the rename that
    follows its record included.  The transition makes each of its calls in a
    resumable world, so it can be stopped at any of them; resuming it ends with
    the protected directory in place and the legacy object set aside. *)

From stdpp Require Import base list gmap strings.
From S2P Require Import Prelude Text Path Effects Models Win32 Registry Security SecureFs Storage Legacy Namespace.

Section Worlds.
Context (protected : StorageObjectIdentity -> Prop) `{StateCodec}.

Record well_formed (st : MigrationStateRecord) : Prop := {
  wf_id : Forall (fun c => word_char c = true) (migration_id st);
  wf_length : length (migration_id st) = 32;
  wf_legacy : legacy_name st = LEGACY_PREFIX ++ migration_id st;
  wf_next : next_name st = NEXT_PREFIX ++ migration_id st;
  wf_distinct : source_identity st <> next_identity st;
  wf_protected : protected (next_identity st);
}.
(** The names in a phase: the object of the next one may have been renamed. *)
Definition placed (st : MigrationStateRecord) (p : DetachPhase) (w : world) : Prop :=
  match p with
  | Prepared =>
      dirs w !! next_name st = Some (next_identity st) /\
      (dirs w !! PRODUCT_DIRECTORY = Some (source_identity st) /\ dirs w !! legacy_name st = None \/
       dirs w !! PRODUCT_DIRECTORY = None /\ dirs w !! legacy_name st = Some (source_identity st))
  | Detached =>
      dirs w !! legacy_name st = Some (source_identity st) /\
      (dirs w !! PRODUCT_DIRECTORY = None /\ dirs w !! next_name st = Some (next_identity st) \/
       dirs w !! PRODUCT_DIRECTORY = Some (next_identity st) /\ dirs w !! next_name st = None)
  | _ =>
      dirs w !! legacy_name st = Some (source_identity st) /\
      dirs w !! PRODUCT_DIRECTORY = Some (next_identity st) /\ dirs w !! next_name st = None
  end.
(** The published records are those of the phases up to [p]. *)
Definition journalled (st : MigrationStateRecord) (p : DetachPhase) (w : world) : Prop :=
  forall q, files w !! state_file_name (with_phase q st) =
    if (phase_number q <=? phase_number p)%Z then Some (state_to_vec (with_phase q st)) else None.
Definition stands (st : MigrationStateRecord) (p : DetachPhase) (w : world) : Prop :=
  journalled st p w /\ placed st p w.
Definition resumable (st : MigrationStateRecord) (w : world) : Prop := exists p, stands st p w.

Lemma state_file_name_inj st p q :
  state_file_name (with_phase p st) = state_file_name (with_phase q st) -> p = q.
Proof.
  unfold state_file_name. simpl. intros Heq%(app_inv_head STATE_PREFIX)%(app_inv_head (migration_id st)).
  destruct p, q; try done; vm_compute in Heq; congruence.
Qed.
Lemma journalled_same st p w w' : same w w' -> journalled st p w -> journalled st p w'.
Proof. intros [_ Hf] Hj q. rewrite <- Hj. symmetry. by apply Hf. Qed.
Lemma placed_same st p w w' : dirs w = dirs w' -> placed st p w -> placed st p w'.
Proof. unfold placed. by intros <-. Qed.
Lemma stands_same st p w w' : same w w' -> stands st p w -> stands st p w'.
Proof. intros Hs [Hj Hp]. split; [by eapply journalled_same|]. eapply placed_same; [apply Hs|done]. Qed.
Lemma resumable_same st w w' : same w w' -> resumable st w -> resumable st w'.
Proof. intros Hs [p Hp]. exists p. by eapply stands_same. Qed.
(** Publishing the next record moves to its phase. *)
Lemma stands_recorded st p q w :
  next_phase p = Some q -> journalled st p w -> placed st q w -> stands st q (recorded (with_phase q st) w).
Proof.
  intros Hn Hj Hp. split; [|done]. intros r. unfold recorded. simpl. destruct (decide (r = q)) as [->|Hr].
  - by rewrite lookup_insert_eq, Z.leb_refl.
  - rewrite lookup_insert_ne by (intros Heq; by apply state_file_name_inj in Heq). rewrite (Hj r).
    by destruct p, q, r.
Qed.
Lemma journalled_next st p q w :
  next_phase p = Some q -> journalled st p w -> files w !! state_file_name (with_phase q st) = None.
Proof. intros Hn Hj. rewrite (Hj q). by destruct p, q. Qed.

Section Names.
Context (st : MigrationStateRecord) (Hst : well_formed st).
Lemma word_prefixed prefix :
  Forall (fun c => word_char c = true) prefix -> length prefix <= 100 -> word (prefix ++ migration_id st).
Proof.
  intros Hp Hl. split; [apply Forall_app; split; [done|apply (wf_id _ Hst)]|].
  rewrite length_app, (wf_length _ Hst). lia.
Qed.
Lemma word_legacy : word (legacy_name st).
Proof. rewrite (wf_legacy _ Hst). apply word_prefixed; [by repeat constructor|simpl; lia]. Qed.
Lemma word_next : word (next_name st).
Proof. rewrite (wf_next _ Hst). apply word_prefixed; [by repeat constructor|simpl; lia]. Qed.
Lemma word_record p : word (state_file_name (with_phase p st)).
Proof.
  change (word (STATE_PREFIX ++ migration_id st
                ++ ($"-" ++ dec (phase_number p) ++ $"-" ++ label p ++ STATE_SUFFIX))). split.
  - apply Forall_app; split; [by repeat constructor|]. apply Forall_app; split; [apply (wf_id _ Hst)|].
    destruct p; by repeat constructor.
  - rewrite length_app, length_app, (wf_length _ Hst). destruct p; vm_compute length; lia.
Qed.
Lemma product_not_legacy : PRODUCT_DIRECTORY <> legacy_name st.
Proof. rewrite (wf_legacy _ Hst). done. Qed.
Lemma product_not_next : PRODUCT_DIRECTORY <> next_name st.
Proof. rewrite (wf_next _ Hst). done. Qed.
Lemma legacy_not_next : legacy_name st <> next_name st.
Proof. rewrite (wf_legacy _ Hst), (wf_next _ Hst). done. Qed.
End Names.
End Worlds.

(** ** Resuming *)
Section Resume.
Context {S : Type} `{Fuel} `{Extern} `{StateCodec} (program_data bootstrap : Z) (Hne : program_data <> bootstrap).
Context (protected : StorageObjectIdentity -> Prop).
Context (sid_of : Z -> str) (aces_of : Z -> list ace) (control_of : Z -> Z).
Context (pd bs : StorageDirectory) (Hpd : st_handle pd = program_data) (Hbs : st_handle bs = bootstrap).
Context (st : MigrationStateRecord) (Hst : well_formed protected st).
Abbreviation I := (resumable st).
Abbreviation HI := (resumable_same st).
Abbreviation does := (does (S:=S) program_data bootstrap protected sid_of aces_of control_of I).

(** From [w], the transition stands at [p] and no handle is left open. *)
Definition reaches (p : DetachPhase) (w : world) (r : MigrationStateRecord) (w' : world) : Prop :=
  r = with_phase p st /\ stands st p w' /\ opened w' = opened w.

Lemma does_record p q w w0 b :
  next_phase p = Some q -> journalled st p w -> placed st q w -> opened w = opened w0 ->
  does (write_state bs (with_phase q st)) (w, b) (keeps_open w0)
    (fun _ w' => stands st q w' /\ opened w' = opened w0).
Proof.
  intros Hn Hj Hp Ho. eapply does_mono; [apply (does_write_state _ _ _ _ _ _ _ HI)|..]; try done.
  - by apply (word_record _ _ Hst).
  - apply (wf_id _ _ Hst).
  - simpl. rewrite (wf_length _ _ Hst). lia.
  - by eapply journalled_next.
  - intros w' Hs _. exists q. apply (stands_recorded st p); [done|by eapply journalled_same|].
    eapply placed_same; [apply Hs|done].
  - intros _ w' ->. split; [by eapply stands_recorded|done].
  - unfold keeps_open. congruence.
Qed.

Lemma renamed_eq id n w : dirs (renamed id n w) !! n = Some id.
Proof. apply lookup_insert_eq. Qed.
Lemma renamed_ne id n m w :
  n <> m -> dirs (renamed id n w) !! m = match dirs w !! m with
                                         | Some x => if decide (x = id) then None else Some x
                                         | None => None
                                         end.
Proof.
  intros Hnm. simpl. rewrite lookup_insert_ne by done. unfold others. rewrite map_lookup_filter.
  destruct (dirs w !! m) as [x|]; simpl; [|done]. by destruct (decide (x = id)) as [->|]; repeat case_guard.
Qed.
(** Setting the legacy object aside, and giving its name to the directory. *)
Lemma detach_places w h : stands st Prepared w -> dirs w !! PRODUCT_DIRECTORY = Some (source_identity st) ->
  let w' := closed h (renamed (source_identity st) (legacy_name st) (open_as h (Obj (source_identity st)) w)) in
  stands st Prepared w' /\ placed st Detached w'.
Proof.
  intros [Hj [Hn Hp]] Hroot. pose proof (wf_distinct _ _ Hst) as Hd.
  pose proof (product_not_legacy _ _ Hst). pose proof (legacy_not_next _ _ Hst).
  set (w1 := renamed (source_identity st) (legacy_name st) w).
  assert (dirs w1 !! legacy_name st = Some (source_identity st)) as Hl by apply renamed_eq.
  assert (dirs w1 !! PRODUCT_DIRECTORY = None) as Hr.
  { unfold w1. rewrite renamed_ne, Hroot by done. by rewrite decide_True. }
  assert (dirs w1 !! next_name st = Some (next_identity st)) as Hx.
  { unfold w1. rewrite renamed_ne, Hn by done. by rewrite decide_False. }
  split; [split; [exact Hj|]|]; simpl; eauto.
Qed.

Lemma does_resume_prepared w b :
  stands st Prepared w ->
  does (resume_prepared pd bs (with_phase Prepared st)) (w, b) (keeps_open w) (reaches Detached w).
Proof.
  intros Hs. pose proof Hs as [Hj [Hn Hp]]. unfold resume_prepared. cbn [state_phase with_phase].
  rewrite bool_decide_eq_true_2 by done. cbn [negb].
  set (Mid := fun w' => journalled st Prepared w' /\ placed st Detached w' /\ opened w' = opened w).
  assert (forall w' b', Mid w' ->
    does (do* write_state bs (with_phase Detached st) in ret (with_phase Detached st)) (w', b') (keeps_open w)
      (reaches Detached w)) as Hrest.
  { intros w' b' (Hj' & Hp' & Ho). eapply does_bind; [by apply (does_record Prepared)|].
    intros [] w2 b2 [Hs' Ho'] _. by apply does_ret. }
  eapply does_attempt with (O := eq w) (N := absent PRODUCT_DIRECTORY w).
  { apply tries_detach; [apply HI|done|apply word_product]. }
  - intros o w' b' (Hroot & Hf & ->) _.
    assert (source_identity st = so_identity o) as Hid by (destruct Hp as [[Hp _]|[Hp _]]; congruence).
    eapply does_bind with (Q := fun _ => Mid).
    + apply does_using with (O := eq (open_as (so_handle o) (Obj (so_identity o)) w))
        (Q := fun _ w' => w' = renamed (source_identity st) (legacy_name st) (open_as (so_handle o) (Obj (source_identity st)) w)).
      * apply HI.
      * apply Hf.
      * cbn [source_identity with_phase legacy_name]. rewrite bool_decide_eq_true_2 by done. cbn [negb].
        apply does_leg. eapply does_mono; [apply does_object_rename; [done|by apply (word_legacy _ _ Hst)| |]| |done].
        -- apply lookup_insert_eq.
        -- intros _ _. exists Prepared. rewrite <- Hid in *.
           apply (stands_same st Prepared (closed (so_handle o) (renamed (source_identity st) (legacy_name st) (open_as (so_handle o) (Obj (source_identity st)) w)))); [done|].
           by apply detach_places.
        -- intros _ w' [_ ->]. by rewrite Hid.
      * intros w' <-. unfold keeps_open. by rewrite closed_open by apply Hf.
      * intros _ w' ->. rewrite <- Hid in Hroot. destruct (detach_places w (so_handle o) Hs Hroot) as [[Hj' _] Hp'].
        split; [done|]. split; [done|]. simpl. apply delete_insert_id, Hf.
    + intros [] w' b2 Hmid _. by apply Hrest.
  - intros e w' b' He [Hroot ->] _. rewrite He.
    assert (dirs w !! legacy_name st = Some (source_identity st)) as Hleg.
    { destruct Hp as [[Hp _]|[_ Hp]]; [|done]. by rewrite Hroot in Hp. }
    eapply does_bind with (Q := fun _ => Mid); [|intros [] w' b2 Hmid _; by apply Hrest].
    eapply does_bind.
    { apply does_leg. eapply does_mono; [apply does_object_identity; [apply HI|done|by apply (word_legacy _ _ Hst)|done]|done|].
      by intros w' <-. }
    intros i w' b3 [-> ->] _. cbn [source_identity with_phase]. rewrite bool_decide_eq_true_2 by done.
    apply does_ret. split; [done|]. by repeat split; [|left].
  - intros e g' He Hb Hg. rewrite He. eapply does_bind with (Q := fun _ _ => False); [|done].
    apply does_throw; [done|]. unfold keeps_open. by rewrite <- Hg.
Qed.

Lemma activate_places w h : stands st Detached w -> dirs w !! next_name st = Some (next_identity st) ->
  let w' := closed h (renamed (next_identity st) PRODUCT_DIRECTORY (open_as h (Obj (next_identity st)) w)) in
  stands st Detached w' /\ placed st RootReady w'.
Proof.
  intros [Hj [Hl Hp]] Hnext. pose proof (wf_distinct _ _ Hst) as Hd.
  pose proof (product_not_legacy _ _ Hst). pose proof (product_not_next _ _ Hst).
  set (w1 := renamed (next_identity st) PRODUCT_DIRECTORY w).
  assert (dirs w1 !! PRODUCT_DIRECTORY = Some (next_identity st)) as Hr by apply renamed_eq.
  assert (dirs w1 !! next_name st = None) as Hx.
  { unfold w1. rewrite renamed_ne, Hnext by done. by rewrite decide_True. }
  assert (dirs w1 !! legacy_name st = Some (source_identity st)) as Hl'.
  { unfold w1. rewrite renamed_ne, Hl by done. by rewrite decide_False. }
  split; [split; [exact Hj|]|]; simpl; eauto.
Qed.
(** The directory, opened by its hidden name, takes the name of the root. *)
Lemma does_take_root next w b :
  stands st Detached w -> opens_object program_data bootstrap (next_name st) w (st_handle next) (next_identity st)
    (open_as (st_handle next) (Obj (next_identity st)) w) ->
  does (do* on_error (drop_storage_directory next)
              (let* identity := leg (directory_identity next) in
               if negb (bool_decide (identity = next_identity st)) then throw IdentityChanged else ret tt) in
        let* active := leg (directory_rename_to next pd PRODUCT_DIRECTORY) in drop_storage_directory active)
    (open_as (st_handle next) (Obj (next_identity st)) w, b) (keeps_open w)
    (fun _ w' => journalled st Detached w' /\ placed st RootReady w' /\ opened w' = opened w).
Proof.
  intros Hs (Hnext & Hf & _). set (h := st_handle next) in *. set (w1 := open_as h (Obj (next_identity st)) w).
  eapply does_bind with (Q := fun _ w' => w' = w1).
  - apply does_guarded with (O := eq w1); [apply HI|apply Hf| |].
    2:{ intros w' <-. unfold keeps_open, w1. by rewrite closed_open by apply Hf. }
    eapply does_bind; [apply does_leg, does_identity, lookup_insert_eq|].
    intros i w' b' [-> ->] _. rewrite bool_decide_eq_true_2 by done. by apply does_ret.
  - intros [] w' b' -> _. destruct (activate_places w h Hs Hnext) as [Hs' Hp'].
    eapply does_bind.
    { apply does_leg. eapply does_mono; [apply (does_directory_rename _ _ _ _ _ _ _ HI next pd PRODUCT_DIRECTORY w1 b' (next_identity st))| |].
      - done.
      - apply word_product.
      - apply Hf.
      - apply lookup_insert_eq.
      - intros _ _. exists Detached. by eapply stands_same; [|exact Hs'].
      - done.
      - intros w' <-. unfold keeps_open, w1. by rewrite closed_open by apply Hf. }
    intros active w' b2 (Ha & _ & ->) _. unfold drop_storage_directory. rewrite Ha.
    apply does_close; [apply HI|apply Hf|]. split; [apply Hs'|]. split; [done|]. simpl. apply delete_insert_id, Hf.
Qed.
Lemma does_resume_detached w b :
  stands st Detached w ->
  does (resume_detached pd bs (with_phase Detached st)) (w, b) (keeps_open w) (reaches RootReady w).
Proof.
  intros Hs. pose proof Hs as [Hj [Hl Hp]]. unfold resume_detached.
  cbn [state_phase with_phase source_identity legacy_name next_name next_identity].
  rewrite bool_decide_eq_true_2 by done. cbn [negb].
  set (Mid := fun w' => journalled st Detached w' /\ placed st RootReady w' /\ opened w' = opened w).
  assert (forall w' b', Mid w' ->
    does (do* write_state bs (with_phase RootReady st) in ret (with_phase RootReady st)) (w', b') (keeps_open w)
      (reaches RootReady w)) as Hrest.
  { intros w' b' (Hj' & Hp' & Ho). eapply does_bind; [by apply (does_record Detached)|].
    intros [] w2 b2 [Hs' Ho'] _. by apply does_ret. }
  eapply does_bind.
  { apply does_leg. eapply does_mono; [apply does_object_identity; [apply HI|done|by apply (word_legacy _ _ Hst)|done]|done|].
    by intros w' <-. }
  intros i w' b' [-> ->] _. rewrite bool_decide_eq_true_2 by done. cbn [negb].
  eapply does_attempt with (O := eq w) (N := absent (next_name st) w).
  { apply tries_open_child; [apply HI|done|by apply (word_next _ _ Hst)|]. intros id Hid.
    destruct Hp as [[_ Hp]|[_ Hp]]; rewrite Hp in Hid; [|done]. injection Hid as <-. apply (wf_protected _ _ Hst). }
  - intros next w' b2 (id & Hid & Hf & ->) _.
    assert (id = next_identity st) as ->.
    { destruct Hp as [[_ Hp]|[_ Hp]]; rewrite Hp in Hid; [congruence|done]. }
    eapply does_bind with (Q := fun _ => Mid); [by apply does_take_root|].
    intros [] w' b3 Hmid _. by apply Hrest.
  - intros e w' b2 He [Hn ->] _. rewrite He.
    assert (dirs w !! PRODUCT_DIRECTORY = Some (next_identity st)) as Hroot.
    { destruct Hp as [[_ Hp]|[Hp _]]; [|done]. by rewrite Hn in Hp. }
    eapply does_bind with (Q := fun _ => Mid); [|intros [] w' b3 Hmid _; by apply Hrest].
    eapply does_mono; [apply does_verify_ready; [apply HI|done|by apply (word_legacy _ _ Hst)|apply (wf_protected _ _ Hst)|done|done]| |].
    + intros [] w' ->. split; [done|]. by repeat split.
    + by intros w' <-.
  - intros e g' He Hb Hg. rewrite He. eapply does_bind with (Q := fun _ _ => False); [|done].
    apply does_throw; [done|]. unfold keeps_open. by rewrite <- Hg.
Qed.
Lemma does_continue p w b :
  stands st p w ->
  does (continue_namespace pd bs (with_phase p st)) (w, b) (keeps_open w)
    (fun r w' => exists q, (2 <= phase_number q)%Z /\ reaches q w r w').
Proof.
  intros Hs. unfold continue_namespace. cbn [state_phase with_phase].
  assert (forall r w' b', reaches RootReady w r w' ->
    does (ret r : M S LegacyStorageError _) (w', b') (keeps_open w)
      (fun r w' => exists q, (2 <= phase_number q)%Z /\ reaches q w r w')) as Hdone.
  { intros r w' b' Hr. apply does_ret. by exists RootReady. }
  assert (placed st PhaseDone w -> (2 <= phase_number p)%Z ->
    does (do* verify_ready_root pd (with_phase p st) in ret (with_phase p st)) (w, b) (keeps_open w)
      (fun r w' => exists q, (2 <= phase_number q)%Z /\ reaches q w r w')) as Hready.
  { intros (Hl & Hr & _) Hp. eapply does_bind.
    - eapply does_mono; [apply does_verify_ready; [apply HI|done|by apply (word_legacy _ _ Hst)|apply (wf_protected _ _ Hst)|done|done]|done|].
      by intros w' <-.
    - intros [] w' b' -> _. apply does_ret. by exists p. }
  destruct p; cbn [recovery_plan]; [| |by apply Hready; [apply Hs|]..].
  - eapply does_bind; [by apply does_resume_prepared|]. intros r w' b' (-> & Hs' & Ho) _.
    eapply does_mono; [by apply does_resume_detached| |by intros w2 Hk; unfold keeps_open in *; congruence].
    intros r w2 (-> & Hs2 & Ho2). exists RootReady. split; [done|]. repeat split; [apply Hs2..|congruence].
  - unfold resume_prepared. cbn [state_phase with_phase]. rewrite bool_decide_eq_false_2 by done.
    cbn [negb]. eapply does_bind with (Q := fun r w' => r = with_phase Detached st /\ w' = w); [by apply does_ret|].
    intros r w' b' [-> ->] _. eapply does_mono; [by apply does_resume_detached| |done].
    intros r w' Hr. by exists RootReady.
Qed.

(** C15: an interrupted detachment can be stopped at any call and completed.
    In a resumable world the journal holds the records of the phases up to one,
    and the two objects have the names of that phase, or those of the next one
    when the crash came between the rename and its record.  Under the documented
    behaviour of the calls, any of which may fail, resuming from the latest
    record makes each of its calls in a resumable world, opens, replaces and
    leaks nothing, and ends: with the protected directory under the name of the
    root, the legacy object set aside and the journal at root-ready or later,
    or because a call failed, in a resumable world. *)
Theorem resume_converges (p : DetachPhase) (w : world) (b : bool) (s : S) (Hs : stands st p w) :
  wpM (namespace program_data bootstrap protected sid_of aces_of control_of (resumable st))
    (continue_namespace pd bs (with_phase p st))
    (fun r _ g' => resumable st g'.1 /\ opened g'.1 = opened w /\
       match r with
       | Ok st' => exists q, st' = with_phase q st /\ (2 <= phase_number q)%Z /\ stands st q g'.1
       | Err _ => fault g'
       end) s (w, b).
Proof.
  eapply wpM_mono; [apply does_continue; [exact Hs|by exists p]|].
  intros [r|e] s' g' (Hi & _ & Hr); (split; [done|]).
  - destruct Hr as (q & Hq & -> & Hs' & Ho). split; [done|]. by exists q.
  - by destruct Hr.
Qed.
End Resume.

(** A crash between the first rename and its record. *)
Definition sample_id (n : Z) : StorageObjectIdentity := {| object_volume := 1; file_id := [n] |}.
Definition sample_state : MigrationStateRecord :=
  {| schema := 1; migration_id := $"00112233445566778899aabbccddeeff"; state_phase := Prepared;
     source_identity := sample_id 7; next_identity := sample_id 8;
     legacy_name := $"WinProfile.Legacy.Untrusted.00112233445566778899aabbccddeeff";
     next_name := $"WinProfile.Next.00112233445566778899aabbccddeeff" |}.
Definition sample_codec : StateCodec := {|
  state_to_vec := fun st => state_file_name st;
  state_from_slice := fun _ => Err ($"unused");
  state_rejects := fun _ => None |}.
Definition sample_world : world := {|
  dirs := <[legacy_name sample_state := sample_id 7]> {[next_name sample_state := sample_id 8]};
  files := {[state_file_name sample_state := state_file_name sample_state]};
  opened := ∅ |}.
Definition sample_directory (h : Z) (name : string) : StorageDirectory := {| st_handle := h; st_path := $name |}.
Lemma resume_converges_witness :
  wpM (namespace 1 2 (eq (sample_id 8)) (fun _ => $"") (fun _ => []) (fun _ => 0%Z)
         (resumable (H:=sample_codec) sample_state))
    (continue_namespace (S:=unit) (H:=5) (H0:=sample_extern) (H1:=sample_codec)
       (sample_directory 1 "C:\ProgramData") (sample_directory 2 "C:\ProgramData\WinProfile.Bootstrap")
       (with_phase Prepared sample_state))
    (fun r _ g' => resumable (H:=sample_codec) sample_state g'.1 /\ opened g'.1 = opened sample_world /\
       match r with
       | Ok st' => exists q, st' = with_phase q sample_state /\ (2 <= phase_number q)%Z
                             /\ stands (H:=sample_codec) sample_state q g'.1
       | Err _ => fault g'
       end) tt (sample_world, false).
Proof.
  refine (resume_converges (H:=5) (H0:=sample_extern) (H1:=sample_codec) 1 2 _ (eq (sample_id 8)) _ _ _ _ _ _ _
            sample_state _ Prepared sample_world false tt _); [done|done|done| |].
  - split; try done. by repeat constructor.
  - split; [by intros []; vm_compute|]. split; [done|]. by right.
Defined.
