(* ===== verification/NamespaceStart.v ===== *)
(** * NamespaceStart: a detachment that is started can be resumed

    Until the record of the first phase is published, the object found at the
    place of the root keeps its name and no record is published; from then on
    the world is resumable.  So a detachment that is stopped at any call either
    has not begun or is completed by [NamespaceSpec.resume_converges]. *)

From stdpp Require Import base list gmap strings.
From S2P Require Import Prelude Text Path Effects Models Win32 Registry Security SecureFs Storage Legacy Namespace NamespaceSpec.

Section Start.
Context {S : Type} `{Fuel} `{Extern} `{StateCodec} (program_data bootstrap : Z) (Hne : program_data <> bootstrap).
Context (protected : StorageObjectIdentity -> Prop).
Context (sid_of : Z -> str) (aces_of : Z -> list ace) (control_of : Z -> Z).
Context (pd bs : StorageDirectory) (Hpd : st_handle pd = program_data) (Hbs : st_handle bs = bootstrap).
Context (source : StorageObjectIdentity) (w0 : world).

Definition untouched (w : world) : Prop :=
  dirs w !! PRODUCT_DIRECTORY = Some source /\ forall name, ~ hidden name -> files w !! name = files w0 !! name.
Definition begun (w : world) : Prop :=
  exists st, well_formed protected st /\ source_identity st = source /\ resumable st w.
Definition recoverable (w : world) : Prop := untouched w \/ begun w.
Abbreviation does := (does (S:=S) program_data bootstrap protected sid_of aces_of control_of recoverable).

Lemma recoverable_same w w' : same w w' -> recoverable w -> recoverable w'.
Proof.
  intros Hs [[Hr Hf]|(st & Hst & Hsrc & Hw)].
  - left. destruct Hs as [Hd Hf']. split; [by rewrite <- Hd|]. intros n Hn. rewrite <- Hf by done. symmetry. by apply Hf'.
  - right. exists st. split; [done|]. split; [done|]. by eapply resumable_same.
Qed.
Lemma untouched_same w w' : same w w' -> untouched w -> untouched w'.
Proof.
  intros [Hd Hf'] [Hr Hf]. split; [by rewrite <- Hd|]. intros n Hn. rewrite <- Hf by done. symmetry. by apply Hf'.
Qed.
Abbreviation HI := recoverable_same.

Section Started.
Context (st : MigrationStateRecord) (Hst : well_formed protected st) (Hsrc : source_identity st = source).

Lemma stands_recoverable p w : stands st p w -> recoverable w.
Proof. intros Hs. right. exists st. split; [done|]. split; [done|]. by exists p. Qed.

(** Publishing the record of phase [q] where it follows what is published. *)
Lemma ends_record q w b :
  files w !! state_file_name (with_phase q st) = None ->
  (forall w', same w w' -> stands st q (recorded (with_phase q st) w')) ->
  ends (S:=S) program_data bootstrap protected sid_of aces_of control_of recoverable
    (write_state bs (with_phase q st)) (w, b) (unless_published w)
    (fun _ w' => w' = recorded (with_phase q st) w).
Proof.
  intros Hnew Hs. apply ends_write_state; try done.
  - apply HI.
  - by apply (word_record _ _ Hst).
  - apply (wf_id _ _ Hst).
  - simpl. rewrite (wf_length _ _ Hst). lia.
  - intros w' Hw' _. by eapply stands_recoverable, Hs.
Qed.
Lemma does_next_record p q w b :
  next_phase p = Some q -> journalled st p w -> placed st q w ->
  does (write_state bs (with_phase q st)) (w, b) (keeps_open w)
    (fun _ w' => stands st q w' /\ opened w' = opened w /\ dirs w' = dirs w).
Proof.
  intros Hn Hj Hp. eapply ends_mono; [apply ends_record| |by intros e w' []].
  - by eapply journalled_next.
  - intros w' Hs. apply (stands_recorded st p); [done|by eapply journalled_same|].
    eapply placed_same; [apply Hs|done].
  - intros _ w' ->. split; [by eapply stands_recorded|done].
Qed.

(** The first record: what cannot be published is taken back. *)
Lemma stands_first w :
  (forall q, files w !! state_file_name (with_phase q st) = None) -> placed st Prepared w ->
  stands st Prepared (recorded (with_phase Prepared st) w).
Proof.
  intros Hnone Hp. split; [|done]. intros q. unfold recorded. simpl. destruct (decide (q = Prepared)) as [->|Hq].
  - by rewrite lookup_insert_eq.
  - rewrite lookup_insert_ne by (intros Heq; by apply state_file_name_inj in Heq). rewrite Hnone. by destruct q.
Qed.
Lemma untouched_removed w : untouched w -> untouched (with_dirs (others (next_identity st) w) w).
Proof.
  intros [Hr Hf]. split; [|done]. simpl. unfold others. rewrite map_lookup_filter, Hr. simpl.
  rewrite option_guard_True; [done|]. simpl. rewrite <- Hsrc. apply (wf_distinct _ _ Hst).
Qed.
Lemma does_persist next w b :
  OwnedHandle_from_raw (st_handle next) = Some (st_handle next) ->
  opened w !! st_handle next = Some (Obj (next_identity st)) -> untouched w ->
  (forall q, files w !! state_file_name (with_phase q st) = None) -> placed st Prepared w ->
  does (persist_prepared_state next (write_state bs (with_phase Prepared st))) (w, b)
    (fun w' => opened w' = delete (st_handle next) (opened w))
    (fun n w' => n = next /\ w' = recorded (with_phase Prepared st) w).
Proof.
  intros Hn Ho Hu Hnone Hp. unfold persist_prepared_state. eapply does_attempt_or; [apply ends_record; [done|]|..].
  - intros w' Hs. apply stands_first; [|eapply placed_same; [apply Hs|done]].
    intros q. rewrite <- (Hnone q). symmetry. apply Hs. by intros [=].
  - intros [] w' b' -> _. by apply does_ret.
  - intros e [w' b'] Hb [Hk He]. unfold keeps_open in Hk. simpl in Hk, He.
    assert (same w w' -> forall f : StorageError -> LegacyStorageError,
      does (let* removed := attempt (remove_directory next) in
            match removed with Ok _ => throw e | Err c => throw (f c) end) (w', b')
        (fun w' => opened w' = delete (st_handle next) (opened w))
        (fun n w' => n = next /\ w' = recorded (with_phase Prepared st) w)) as Hremove.
    { intros Hs f. eapply does_attempt_or; [apply (does_remove_directory _ _ _ _ _ _ _ HI _ _ _ (next_identity st))|..].
      - done.
      - simpl. by rewrite Hk.
      - intros _. left. by apply untouched_removed, (untouched_same w).
      - intros [] w2 b2 Ho2 Ht. apply does_throw; [by apply Ht|]. simpl in *. by rewrite Ho2, Hk.
      - intros c g2 Hb2 Ho2. apply does_throw; [done|]. by rewrite Ho2, Hk. }
    assert (does (do* drop_storage_directory next in throw e) (w', b')
        (fun w' => opened w' = delete (st_handle next) (opened w))
        (fun n w' => n = next /\ w' = recorded (with_phase Prepared st) w)) as Hdrop.
    { eapply does_bind; [by apply (does_close _ _ _ _ _ _ _ HI _ _ _ (fun _ w2 => opened w2 = delete (st_handle next) (opened w')))|].
      intros [] w2 b2 Ho2 Ht. apply does_throw; [by apply Ht|]. simpl. by rewrite Ho2, Hk. }
    destruct e; try exact Hdrop; by apply Hremove.
Qed.

(** The object is renamed aside, and the record follows. *)
Lemma does_detach o next w b :
  OwnedHandle_from_raw (st_handle next) = Some (st_handle next) ->
  opened w !! so_handle o = Some (Obj (so_identity o)) -> so_identity o = source_identity st ->
  stands st Prepared w -> dirs w !! PRODUCT_DIRECTORY = Some (source_identity st) ->
  does (on_error (drop_storage_directory next)
          (do* leg (object_rename_to o pd (legacy_name (with_phase Prepared st))) in
           write_state bs (with_phase Detached st))) (w, b)
    (fun w' => opened w' = delete (st_handle next) (opened w))
    (fun _ w' => stands st Detached w' /\ opened w' = opened w /\ dirs w' !! next_name st = Some (next_identity st)).
Proof.
  intros Hn Ho Hid Hs Hroot. set (w1 := renamed (source_identity st) (legacy_name st) w).
  assert (stands st Prepared w1 /\ placed st Detached w1) as [[Hj Hp1] Hp] by apply (detach_places _ _ Hst w 0 Hs Hroot).
  apply does_guarded with (O := keeps_open w); [apply HI|done| |by intros w' Hk; simpl; rewrite Hk].
  eapply does_bind.
  { apply does_leg. eapply does_mono; [apply does_object_rename; [done|by apply (word_legacy _ _ Hst)|done|]|done|by intros w' <-].
    intros _ _. rewrite Hid. by apply (stands_recoverable Prepared). }
  intros [] w' b' [_ ->] _. rewrite Hid. cbn [legacy_name with_phase].
  eapply does_mono; [by apply (does_next_record Prepared Detached w1)| |done].
  intros _ w' (Hs' & Ho' & Hd'). split; [done|]. split; [done|]. rewrite Hd'. unfold w1.
  pose proof (legacy_not_next _ _ Hst). pose proof (wf_distinct _ _ Hst). destruct Hs as [_ [Hx _]].
  rewrite renamed_ne, Hx by done. by rewrite decide_False.
Qed.
(** The protected directory takes the name of the root, and the record follows. *)
Lemma does_activate next w b :
  OwnedHandle_from_raw (st_handle next) = Some (st_handle next) ->
  opened w !! st_handle next = Some (Obj (next_identity st)) -> stands st Detached w ->
  dirs w !! next_name st = Some (next_identity st) ->
  does (activate pd bs next (with_phase Detached st)) (w, b)
    (fun w' => opened w' = delete (st_handle next) (opened w))
    (fun r w' => r = with_phase RootReady st /\ stands st RootReady w'
                 /\ opened w' = delete (st_handle next) (opened w)).
Proof.
  intros Hn Ho Hs Hnext. set (w1 := renamed (next_identity st) PRODUCT_DIRECTORY w).
  assert (stands st Detached w1 /\ placed st RootReady w1) as [[Hj Hp1] Hp] by apply (activate_places _ _ Hst w 0 Hs Hnext).
  unfold activate. eapply does_bind.
  { apply does_leg. eapply does_mono; [apply (does_directory_rename _ _ _ _ _ _ _ HI next pd PRODUCT_DIRECTORY w b (next_identity st))| |].
    - done.
    - apply word_product.
    - done.
    - done.
    - intros _ _. by apply (stands_recoverable Detached).
    - done.
    - by intros w' <-. }
  intros active w' b' (Ha & _ & ->) _. unfold drop_storage_directory. rewrite Ha. change (renamed _ _ w) with w1.
  apply does_using with (O := keeps_open w1)
    (Q := fun r w' => r = with_phase RootReady st /\ stands st RootReady w' /\ opened w' = opened w);
    [apply HI|done| |by intros w' Hk; simpl; rewrite Hk|by intros r w' (-> & Hs' & Ho'); simpl; rewrite Ho'].
  eapply does_bind.
  { apply does_leg. eapply does_mono; [eapply does_validate_root; [exact Ho|apply (wf_protected _ _ Hst)]|done|by intros w' <-]. }
  intros [] w' b2 -> _. eapply does_bind.
  { apply does_leg. eapply does_mono; [unfold directory_identity; rewrite Ha; apply does_identity; exact Ho|done|by intros w' <-]. }
  intros i w' b3 [-> ->] _. cbn [next_identity with_phase]. rewrite bool_decide_eq_true_2 by done. cbn [negb].
  eapply does_bind; [by apply (does_next_record Detached RootReady w1)|].
  intros [] w' b4 (Hs' & Ho' & _) _. by apply does_ret.
Qed.
(** The three phases, once the protected directory stands under its temporary name. *)
Lemma does_phases o next w b :
  OwnedHandle_from_raw (st_handle next) = Some (st_handle next) ->
  opened w !! st_handle next = Some (Obj (next_identity st)) -> opened w !! so_handle o = Some (Obj (so_identity o)) ->
  so_identity o = source_identity st -> untouched w ->
  (forall q, files w !! state_file_name (with_phase q st) = None) -> placed st Prepared w ->
  does (let* next := persist_prepared_state next (write_state bs (with_phase Prepared st)) in
        do* on_error (drop_storage_directory next)
              (do* leg (object_rename_to o pd (legacy_name (with_phase Prepared st))) in
               write_state bs (with_phase Detached st)) in
        activate pd bs next (with_phase Detached st)) (w, b)
    (fun w' => opened w' = delete (st_handle next) (opened w))
    (fun r w' => r = with_phase RootReady st /\ stands st RootReady w'
                 /\ opened w' = delete (st_handle next) (opened w)).
Proof.
  intros Hn Hon Hoo Hid Hu Hnone Hp. eapply does_bind; [by apply does_persist|].
  intros n w' b2 [-> ->] _. set (w1 := recorded (with_phase Prepared st) w). eapply does_bind.
  { eapply does_mono; [apply (does_detach o next w1); [done|exact Hoo|done| |]|done|done].
    - by apply stands_first.
    - rewrite Hsrc. apply Hu. }
  intros [] w2 b3 (Hs & Ho & Hx) _. change (opened w1) with (opened w) in Ho. rewrite <- Ho in Hon |- *.
  by apply does_activate.
Qed.
End Started.

(** What an unused identifier gives. *)
Definition new_state (id : str) (next : StorageObjectIdentity) : MigrationStateRecord :=
  {| schema := 1; migration_id := id; state_phase := Prepared; source_identity := source; next_identity := next;
     legacy_name := LEGACY_PREFIX ++ id; next_name := NEXT_PREFIX ++ id |}.
Lemma well_formed_new id next w name :
  Forall (fun c => word_char c = true) id -> length id = 32 -> unused protected next name w ->
  dirs w !! PRODUCT_DIRECTORY = Some source -> well_formed protected (new_state id next).
Proof.
  intros Hid Hl (Hp & Hu & _) Hr. split; try done. simpl. intros ->. by apply (Hu PRODUCT_DIRECTORY).
Qed.
Lemma placed_new id next w :
  dirs w !! PRODUCT_DIRECTORY = Some source -> dirs w !! (LEGACY_PREFIX ++ id) = None ->
  placed (new_state id next) Prepared (created (NEXT_PREFIX ++ id) next w).
Proof.
  intros Hr Hl. split; [apply lookup_insert_eq|]. left.
  split; simpl; rewrite lookup_insert_ne; done.
Qed.
Lemma unrecorded_new id next w q :
  unused_id id w -> files w !! state_file_name (with_phase q (new_state id next)) = None.
Proof. intros (_ & _ & Hf). apply Hf. Qed.
Lemma untouched_created id next w : untouched w -> untouched (created (NEXT_PREFIX ++ id) next w).
Proof. intros [Hr Hf]. split; [|done]. simpl. by rewrite lookup_insert_ne. Qed.

Lemma does_begin b :
  dirs w0 !! PRODUCT_DIRECTORY = Some source ->
  does (begin_namespace pd bs source) (w0, b) (keeps_open w0)
    (fun r w' => exists st, r = with_phase RootReady st /\ well_formed protected st /\ source_identity st = source
                 /\ stands st RootReady w' /\ opened w' = opened w0).
Proof.
  intros Hroot. assert (untouched w0) as Hu0 by done. unfold begin_namespace. eapply does_bind.
  { apply does_leg. eapply does_mono; [eapply tries_does; [apply tries_detach; [apply HI|done|apply word_product]|]|done|by intros w' <-].
    intros w' [Hn _]. congruence. }
  intros o w' b' (Hid & Hf & ->) _. assert (so_identity o = source) as Ho by congruence.
  set (w1 := open_as (so_handle o) (Obj (so_identity o)) w0).
  assert (untouched w1) as Hu1 by done.
  apply does_using with (O := keeps_open w1)
    (Q := fun r w' => exists st, r = with_phase RootReady st /\ well_formed protected st /\ source_identity st = source
                 /\ stands st RootReady w' /\ opened w' = opened w1); [apply HI|apply Hf| | |].
  2:{ intros w' Hk. unfold keeps_open in *. simpl. rewrite Hk. apply delete_insert_id, Hf. }
  2:{ intros r w' (st & -> & Hst & Hsrc & Hs & Hk). exists st. do 4 (split; [done|]). simpl. rewrite Hk.
      apply delete_insert_id, Hf. }
  rewrite bool_decide_eq_true_2 by done. cbn [negb].
  eapply does_bind; [eapply does_mono; [apply does_random|done|by intros w' <-]|].
  intros id w' b2 (-> & Hw & Hl & Hun) _. eapply does_bind.
  { apply does_leg, does_create_protected; [apply HI|done| |].
    - split; [apply Forall_app; split; [by repeat constructor|done]|]. rewrite length_app, Hl. simpl. lia.
    - intros nid _ _. left. by apply untouched_created. }
  intros next w' b3 (nid & Hnid & Hfn & ->) _. set (w2 := open_as (st_handle next) (Obj nid) (created (NEXT_PREFIX ++ id) nid w1)).
  assert (opened w2 !! st_handle next = Some (Obj nid)) as Hon by apply lookup_insert_eq.
  assert (delete (st_handle next) (opened w2) = opened w1) as Hback by apply delete_insert_id, Hfn.
  eapply does_bind with (Q := fun i w' => i = nid /\ w' = w2).
  { apply does_guarded with (O := eq w2); [apply HI|apply Hfn| |by intros w' <-].
    apply does_leg, does_identity, Hon. }
  intros i w' b4 [-> ->] _. rewrite Ho.
  set (st := new_state id nid). assert (well_formed protected st) as Hst by by apply (well_formed_new id nid w1 (NEXT_PREFIX ++ id)).
  assert (opened w2 !! so_handle o = Some (Obj (so_identity o))) as Hoo.
  { simpl. rewrite lookup_insert_ne; [apply lookup_insert_eq|]. intros Heq. destruct Hfn as (_ & Hfn & _).
    rewrite Heq in Hfn. simpl in Hfn. by rewrite lookup_insert_eq in Hfn. }
  assert (placed st Prepared w2) as Hp by (apply (placed_new id nid w1); [done|apply Hun]).
  assert (forall q, files w2 !! state_file_name (with_phase q st) = None) as Hnone by (intros q; by apply (unrecorded_new id nid w1)).
  eapply does_mono; [apply (does_phases st Hst eq_refl o next w2); try done; [apply Hfn|by apply untouched_created]|..].
  - intros r w' (-> & Hs & Hk). exists st. do 4 (split; [done|]). by rewrite Hk.
  - intros w' Hk. unfold keeps_open. by rewrite Hk.
Qed.

(** C16: a detachment can be stopped at any call without losing anything.  Under
    the documented behaviour of the calls, any of which may fail, and when the
    random identifier is not in use: every call of a detachment is made in a
    world where either the consented object is still in place and nothing has
    been published, or a resumable migration of that object is recorded; the
    transition ends with the protected directory in place at the phase
    root-ready, or because a call failed, in such a world, and no handle is
    left open. *)
Theorem start_recoverable (b : bool) (s : S) (Hroot : dirs w0 !! PRODUCT_DIRECTORY = Some source) :
  wpM (namespace program_data bootstrap protected sid_of aces_of control_of recoverable)
    (begin_namespace pd bs source)
    (fun r _ g' => recoverable g'.1 /\ opened g'.1 = opened w0 /\
       match r with
       | Ok st' => exists st, st' = with_phase RootReady st /\ well_formed protected st
                              /\ source_identity st = source /\ stands st RootReady g'.1
       | Err _ => fault g'
       end) s (w0, b).
Proof.
  eapply wpM_mono; [by apply does_begin; [|left]|].
  intros [r|e] s' g' (Hi & _ & Hr); (split; [done|]).
  - destruct Hr as (st & -> & Hst & Hsrc & Hs & Ho). split; [done|]. by exists st.
  - by destruct Hr.
Qed.
End Start.

(** A legacy directory at the place of the root. *)
Definition legacy_world : world := {| dirs := {[PRODUCT_DIRECTORY := sample_id 7]}; files := ∅; opened := ∅ |}.
Lemma start_recoverable_witness :
  wpM (namespace 1 2 (eq (sample_id 8)) (fun _ => $"") (fun _ => []) (fun _ => 0%Z)
         (recoverable (H1:=sample_codec) (eq (sample_id 8)) (sample_id 7) legacy_world))
    (begin_namespace (S:=unit) (H:=5) (H0:=sample_extern) (H1:=sample_codec)
       (sample_directory 1 "C:\ProgramData") (sample_directory 2 "C:\ProgramData\WinProfile.Bootstrap") (sample_id 7))
    (fun r _ g' => recoverable (H1:=sample_codec) (eq (sample_id 8)) (sample_id 7) legacy_world g'.1
       /\ opened g'.1 = ∅ /\
       match r with
       | Ok st' => exists st, st' = with_phase RootReady st /\ well_formed (eq (sample_id 8)) st
                              /\ source_identity st = sample_id 7 /\ stands (H:=sample_codec) st RootReady g'.1
       | Err _ => fault g'
       end) tt (legacy_world, false).
Proof.
  refine (start_recoverable (H:=5) (H0:=sample_extern) (H1:=sample_codec) 1 2 _ (eq (sample_id 8)) _ _ _ _ _ _ _
            (sample_id 7) legacy_world false tt _); done.
Defined.
