(* ===== verification/Tokens.v ===== *)
(** * Tokens: the elevated console (platform-win32/src/tokens.rs)

    The requesting session, the TrustedInstaller service and its token, the
    launch of a process under it and its compensation, and the quoting of its
    command line.  The traits of the source are classes whose handles have an
    explicit drop; the instances are the implementations over Win32. *)

From stdpp Require Import base list gmap strings.
From S2P Require Import Prelude Text Path Effects Models Win32 Registry Security.

(** ** Constants *)
Definition PROCESS_QUERY_LIMITED_INFORMATION : Z := 4096.
Definition TOKEN_ASSIGN_PRIMARY : Z := 1.
Definition TOKEN_DUPLICATE : Z := 2.
Definition SecurityImpersonation : Z := 2.
Definition TokenPrimary : Z := 1.
Definition TH32CS_SNAPPROCESS : Z := 2.
Definition SC_MANAGER_CONNECT : Z := 1.
Definition SERVICE_QUERY_STATUS : Z := 4.
Definition SERVICE_START : Z := 16.
Definition SERVICE_START_PENDING : Z := 2.
Definition SERVICE_RUNNING : Z := 4.
Definition SERVICE_CONTINUE_PENDING : Z := 5.
Definition WTSConnectState : Z := 8.
Definition WTSActive : Z := 0.
Definition WTSConnected : Z := 1.
Definition WAIT_OBJECT_0 : Z := 0.
Definition WAIT_TIMEOUT : Z := 258.
Definition WAIT_FAILED : Z := u32_max.
Definition CREATE_UNICODE_ENVIRONMENT : Z := 1024.
Definition SIZE_OF_CONNECT_STATE : Z := 4.

Definition TRUSTED_INSTALLER_SERVICE : str := $"TrustedInstaller".
Definition SERVICE_START_POLL_ATTEMPTS : nat := 20.
Definition SERVICE_START_POLL_INTERVAL : Z := 150.
Definition SYSTEM_COMMAND_NAME : str := $"cmd.exe".
Definition TRUSTED_INSTALLER_CONSOLE_TITLE : str := $"TrustedInstaller Elevated Console".
Definition INITIAL_SYSTEM_DIRECTORY_CAPACITY : Z := 260.
Definition PROCESS_COMPENSATION_EXIT_CODE : Z := 1.
Definition PROCESS_COMPENSATION_TIMEOUT : Z := 5000.
Definition TRUSTED_INSTALLER_PROCESS_ACCESS : Z := PROCESS_QUERY_LIMITED_INFORMATION.
Definition TRUSTED_INSTALLER_SOURCE_TOKEN_ACCESS : Z := TOKEN_DUPLICATE.
Definition TRUSTED_INSTALLER_LAUNCH_TOKEN_ACCESS : Z := TOKEN_QUERY .| TOKEN_DUPLICATE .| TOKEN_ASSIGN_PRIMARY.

(** ** Errors *)
Inductive TokenError : Type :=
| TokWin32Error (code : Z)
| Win32Operation (operation : str) (code : Z)
| ProcessNotFound (name : str)
| TrustedInstallerServiceState (state win32_exit_code service_exit_code process_id : Z)
| NonInteractiveRequestSession (session_id : Z)
| RequestSessionNotConnected (session_id state : Z)
| InvalidSessionStateData (session_id bytes_returned : Z)
| InvalidSystemDirectory (details : str)
| SystemExecutableUnavailable (path : str) (source : io_error)
| ProcessWaitTimeout (ms : Z)
| ProcessWaitFailed (code : Z)
| InvalidProcessInformationCompensated (pid : Z)
| InvalidProcessInformationCompensationFailed (pid : Z) (compensation_error : str)
| InvalidProcessInformationMissingProcessHandle (pid : Z) (thread_handle_present : bool)
| OperationAndPrivilegeRestoreFailed (operation_error restore_error : str)
| PrivilegeRestoreCompensated (pid : Z) (restore_error : str)
| PrivilegeRestoreCompensationFailed (pid : Z) (restore_error compensation_error : str)
| TokSecurityError (e : SecurityError).

Definition show_bool (b : bool) : str := if b then $"true" else $"false".
Definition show_TokenError `{Extern} (e : TokenError) : str :=
  match e with
  | TokWin32Error code => $"Token operation failed with Win32 error code: " ++ dec code
  | Win32Operation operation code => operation ++ $" failed with Win32 error code: " ++ dec code
  | ProcessNotFound name => $"Process '" ++ name ++ $"' not found"
  | TrustedInstallerServiceState state win32 service pid =>
      $"TrustedInstaller did not reach RUNNING (state " ++ dec state ++ $", Win32 exit " ++ dec win32
      ++ $", service exit " ++ dec service ++ $", PID " ++ dec pid ++ $")"
  | NonInteractiveRequestSession id => $"Requesting process session " ++ dec id ++ $" is not interactive"
  | RequestSessionNotConnected id state =>
      $"Requesting process session " ++ dec id ++ $" is not active or connected (state " ++ dec_signed state ++ $")"
  | InvalidSessionStateData id bytes =>
      $"WTS returned invalid connection-state data for session " ++ dec id ++ $" (" ++ dec bytes ++ $" bytes)"
  | InvalidSystemDirectory details => $"Windows system directory returned an invalid path: " ++ details
  | SystemExecutableUnavailable p source =>
      $"Windows system executable is unavailable at " ++ p ++ $": " ++ show_io_error source
  | ProcessWaitTimeout ms => $"Process termination wait timed out after " ++ dec ms ++ $" milliseconds"
  | ProcessWaitFailed code => $"Process termination wait failed with Win32 error code: " ++ dec code
  | InvalidProcessInformationCompensated pid =>
      $"CreateProcessWithTokenW returned incomplete process information for PID " ++ dec pid
      ++ $"; child was terminated and reaped"
  | InvalidProcessInformationCompensationFailed pid compensation_error =>
      $"CreateProcessWithTokenW returned incomplete process information for PID " ++ dec pid
      ++ $"; compensation failed: " ++ compensation_error
  | InvalidProcessInformationMissingProcessHandle pid thread_handle_present =>
      $"CreateProcessWithTokenW returned success without a process handle for PID " ++ dec pid
      ++ $" (thread handle present: " ++ show_bool thread_handle_present ++ $"); child cannot be compensated"
  | OperationAndPrivilegeRestoreFailed operation_error restore_error =>
      $"Privileged operation failed: " ++ operation_error ++ $"; privilege restoration also failed: " ++ restore_error
  | PrivilegeRestoreCompensated pid restore_error =>
      $"Privilege restoration failed after launching PID " ++ dec pid ++ $": " ++ restore_error
      ++ $"; process was terminated and reaped"
  | PrivilegeRestoreCompensationFailed pid restore_error compensation_error =>
      $"Privilege restoration failed after launching PID " ++ dec pid ++ $": " ++ restore_error
      ++ $"; process compensation failed: " ++ compensation_error
  | TokSecurityError e => $"Security or privilege error: " ++ show_SecurityError e
  end.

(** ** Data *)
Record ProcessLaunchSpec : Type := {
  application_path : path; working_directory : path; arguments : list wide }.
Record LaunchedProcess : Type := { lp_handle : Z; lp_pid : Z }.
Record TrustedInstallerLaunchToken : Type := {
  launch_token : Z; impersonate_privilege : PrivilegeGuard }.

(** ** Command lines *)
Definition quoted_unit (backslashes : nat) (unit : Z) : wide :=
  if Z.eqb unit QUOTE then repeat BACKSLASH (backslashes * 2 + 1) ++ [unit]
  else repeat BACKSLASH backslashes ++ [unit].
Fixpoint quote_units (units : wide) (backslashes : nat) : wide :=
  match units with
  | [] => repeat BACKSLASH (backslashes * 2)
  | unit :: units' =>
      if Z.eqb unit BACKSLASH then quote_units units' (Datatypes.S backslashes)
      else quoted_unit backslashes unit ++ quote_units units' 0
  end.
Definition needs_quotes (units : wide) : bool :=
  is_empty units || existsb (fun unit => Z.eqb unit SPACE || Z.eqb unit TAB || Z.eqb unit QUOTE) units.
Definition append_quoted_argument (command_line argument : wide) : wide :=
  if negb (needs_quotes argument) then command_line ++ argument
  else command_line ++ [QUOTE] ++ quote_units argument 0 ++ [QUOTE].
Definition build_windows_command_line (application : path) (arguments : list wide) : wide :=
  fold_left (fun command_line argument => append_quoted_argument (command_line ++ [SPACE]) argument) arguments
    (append_quoted_argument [] application) ++ [0%Z].

(** ** Owned service handles and environment blocks (handles.rs) *)
Definition OwnedScHandle_from_raw (raw : Z) : option Z := if Z.eqb raw 0 then None else Some raw.
Definition close_service_handle {S E} (handle : Z) : M S E unit :=
  if negb (Z.eqb handle 0) then call (CloseServiceHandle handle) else ret tt.
Definition OwnedEnvironmentBlock_from_raw (pointer : Z) : option Z := if Z.eqb pointer 0 then None else Some pointer.
Definition destroy_environment_block {S E} (block : Z) : M S E unit :=
  if negb (Z.eqb block 0) then call (DestroyEnvironmentBlock block) else ret tt.

(** A raw handle that is owned, or the last error. *)
Definition owned_or_last_error {S E} (owned : option Z) (error : Z -> E) : M S E Z :=
  match owned with
  | Some handle => ret handle
  | None => let* code := call GetLastError in throw (error code)
  end.
Definition last_token_error {S A} : M S TokenError A :=
  let* code := call GetLastError in throw (TokWin32Error code).
Definition last_code {S A} : M S Z A := let* code := call GetLastError in throw code.

(** ** Sessions *)
Class RequestSessionApi (S : Type) : Type := {
  current_process_id : M S TokenError Z;
  process_session_id : Z -> M S TokenError Z;
  session_connect_state : Z -> M S TokenError Z;
}.
Definition drop_wts_memory {S E} (pointer : Z) : M S E unit :=
  if negb (Z.eqb pointer 0) then call (WTSFreeMemory pointer) else ret tt.
#[export] Instance WindowsRequestSessionApi {S} : RequestSessionApi S := {|
  current_process_id := call ProcessId;
  process_session_id pid :=
    let* '(success, session_id) := call (ProcessIdToSessionId pid) in
    if negb success then last_token_error else ret session_id;
  session_connect_state session_id :=
    let* '(success, buffer, bytes_returned, state) := call (WTSQuerySessionInformationW session_id WTSConnectState) in
    defer (drop_wts_memory buffer)
      (if negb success then last_token_error
       else if Z.eqb buffer 0 || (bytes_returned <? SIZE_OF_CONNECT_STATE)%Z
       then throw (InvalidSessionStateData session_id bytes_returned)
       else ret state)
|}.
Definition get_requesting_process_session_with_api {S} `{RequestSessionApi S} : M S TokenError Z :=
  let* process_id := current_process_id in
  let* session_id := process_session_id process_id in
  if Z.eqb session_id 0 then throw (NonInteractiveRequestSession session_id)
  else
    let* state := session_connect_state session_id in
    if negb (Z.eqb state WTSActive) && negb (Z.eqb state WTSConnected)
    then throw (RequestSessionNotConnected session_id state) else ret session_id.
Definition get_requesting_process_session {S} : M S TokenError Z := get_requesting_process_session_with_api.

(** ** Processes by name *)
Section Processes.
Context {S : Type} `{Fuel}.
Fixpoint find_loop (turns : nat) (snapshot : Z) (image_name : str) (success : option (wide * Z))
    : M S TokenError Z :=
  match turns with
  | O => out_of_fuel
  | Datatypes.S turns' =>
      match success with
      | None => throw (ProcessNotFound image_name)
      | Some (exe_file, pid) =>
          let current_name := from_utf16_lossy (take (default (length exe_file) (position is_nul exe_file)) exe_file) in
          if eq_ignore_ascii_case current_name image_name then ret pid
          else
            let* success := call (Process32NextW snapshot) in
            find_loop turns' snapshot image_name success
      end
  end.
Definition find_process_id_by_name (image_name : str) : M S TokenError Z :=
  let* snapshot := call (CreateToolhelp32Snapshot TH32CS_SNAPPROCESS) in
  if Z.eqb snapshot INVALID_HANDLE_VALUE then last_token_error
  else
    let* owned_snapshot := owned_or_last_error (OwnedHandle_from_raw snapshot) TokWin32Error in
    using_handle owned_snapshot
      (let* success := call (Process32FirstW owned_snapshot) in
       find_loop fuel owned_snapshot image_name success).
End Processes.

(** ** The TrustedInstaller service *)
Class TrustedInstallerServiceApi (S : Type) : Type := {
  service_handle : Type;
  open_manager : Z -> M S Z service_handle;
  open_service : service_handle -> wide -> Z -> M S Z service_handle;
  start_service : service_handle -> M S Z unit;
  query_status : service_handle -> M S Z service_status;
  wait_interval : Z -> M S TokenError unit;
  drop_service_handle : service_handle -> M S unit unit;
}.
#[export] Instance WindowsTrustedInstallerServiceApi {S} : TrustedInstallerServiceApi S := {|
  service_handle := Z;
  open_manager access :=
    let* handle := call (OpenSCManagerW access) in owned_or_last_error (OwnedScHandle_from_raw handle) id;
  open_service manager name access :=
    let* handle := call (OpenServiceW manager name access) in owned_or_last_error (OwnedScHandle_from_raw handle) id;
  start_service service :=
    let* started := call (StartServiceW service) in if negb started then last_code else ret tt;
  query_status service :=
    let* status := call (QueryServiceStatusEx service) in
    match status with None => last_code | Some status => ret status end;
  wait_interval ms := call (ThreadSleepMs ms);
  drop_service_handle handle := close_service_handle handle
|}.
Definition service_state_error (status : service_status) : TokenError :=
  TrustedInstallerServiceState (ss_state status) (ss_win32_exit_code status) (ss_service_exit_code status)
    (ss_process_id status).

Section Service.
Context {S : Type} `{TrustedInstallerServiceApi S}.
(** [left] turns of the poll loop remain. *)
Fixpoint poll_service (left : nat) (service : service_handle) : M S TokenError Z :=
  match left with
  | O => panic ($"the bounded service poll loop always returns")
  | Datatypes.S left' =>
      let* status := map_err (Win32Operation ($"QueryServiceStatusEx for TrustedInstaller")) (query_status service) in
      if Z.eqb (ss_state status) SERVICE_RUNNING && negb (Z.eqb (ss_process_id status) 0)
      then ret (ss_process_id status)
      else
        let transitional :=
          Z.eqb (ss_state status) SERVICE_START_PENDING || Z.eqb (ss_state status) SERVICE_CONTINUE_PENDING in
        if negb transitional || Nat.eqb left' 0 then throw (service_state_error status)
        else do* wait_interval SERVICE_START_POLL_INTERVAL in poll_service left' service
  end.
Definition ensure_trustedinstaller_service_running_with_api : M S TokenError Z :=
  let* manager := map_err (Win32Operation ($"OpenSCManagerW for TrustedInstaller")) (open_manager SC_MANAGER_CONNECT) in
  defer (drop_service_handle manager)
    (let* service := map_err (Win32Operation ($"OpenServiceW for TrustedInstaller"))
       (open_service manager (to_wide_null TRUSTED_INSTALLER_SERVICE) (SERVICE_START .| SERVICE_QUERY_STATUS)) in
     defer (drop_service_handle service)
       (let* started := attempt (start_service service) in
        do* match started with
            | Err code =>
                if negb (Z.eqb code ERROR_SERVICE_ALREADY_RUNNING)
                then throw (Win32Operation ($"StartServiceW for TrustedInstaller") code) else ret tt
            | Ok _ => ret tt
            end in
        poll_service SERVICE_START_POLL_ATTEMPTS service)).
End Service.
Definition ensure_trustedinstaller_service_running {S} : M S TokenError Z :=
  ensure_trustedinstaller_service_running_with_api.

(** ** The token *)
Class TrustedInstallerCaptureApi (S : Type) : Type := {
  capture_handle : Type;
  open_process : Z -> Z -> M S Z capture_handle;
  capture_open_process_token : capture_handle -> Z -> M S Z capture_handle;
  duplicate_primary_token : capture_handle -> Z -> M S Z capture_handle;
  drop_capture_handle : capture_handle -> M S unit unit;
}.
#[export] Instance WindowsTrustedInstallerCaptureApi {S} : TrustedInstallerCaptureApi S := {|
  capture_handle := Z;
  open_process pid access :=
    let* handle := call (OpenProcess access pid) in owned_or_last_error (OwnedHandle_from_raw handle) id;
  capture_open_process_token process access :=
    let* '(success, handle) := call (OpenProcessToken process access) in
    if negb success then last_code else owned_or_last_error (OwnedHandle_from_raw handle) id;
  duplicate_primary_token source access :=
    let* '(success, handle) := call (DuplicateTokenEx source access SecurityImpersonation TokenPrimary) in
    if negb success then last_code else owned_or_last_error (OwnedHandle_from_raw handle) id;
  drop_capture_handle handle := close_handle handle
|}.
Definition capture_trustedinstaller_token_with_api {S} `{TrustedInstallerCaptureApi S} (pid : Z)
    : M S TokenError capture_handle :=
  let* process := map_err (Win32Operation ($"OpenProcess for TrustedInstaller"))
    (open_process pid TRUSTED_INSTALLER_PROCESS_ACCESS) in
  defer (drop_capture_handle process)
    (let* source_token := map_err (Win32Operation ($"OpenProcessToken for TrustedInstaller"))
       (capture_open_process_token process TRUSTED_INSTALLER_SOURCE_TOKEN_ACCESS) in
     defer (drop_capture_handle source_token)
       (map_err (Win32Operation ($"DuplicateTokenEx for TrustedInstaller"))
          (duplicate_primary_token source_token TRUSTED_INSTALLER_LAUNCH_TOKEN_ACCESS))).

Section Launch.
Context {S : Type} `{Fuel} `{Extern}.
Abbreviation TM := (M S TokenError).

Definition capture_trustedinstaller_token (pid : Z) : TM Z := capture_trustedinstaller_token_with_api pid.

(** The operation has run; [drop_value] drops its value when the restoration
    fails. *)
Definition restore_after_operation {T} (operation_result : result TokenError T) (restorer : PrivilegeGuard)
    (drop_value : T -> M S unit unit) : TM T :=
  let* restored := attempt (PrivilegeGuard_restore restorer) in
  match operation_result, restored with
  | Ok value, Ok _ => ret value
  | Err operation_error, Ok _ => throw operation_error
  | Ok value, Err restore_error =>
      defer (drop_value value) (throw (TokSecurityError restore_error))
  | Err operation_error, Err restore_error =>
      throw (OperationAndPrivilegeRestoreFailed (show_TokenError operation_error) (show_SecurityError restore_error))
  end.
Definition duplicate_trustedinstaller_token : TM TrustedInstallerLaunchToken :=
  let* pid := ensure_trustedinstaller_service_running in
  let* debug_privilege := map_err TokSecurityError (PrivilegeGuard_new [SE_DEBUG_NAME]) in
  let* capture_result := attempt (capture_trustedinstaller_token pid) in
  let* owned_dup := restore_after_operation capture_result debug_privilege close_handle in
  let* impersonate_privilege :=
    on_error (close_handle owned_dup) (map_err TokSecurityError (PrivilegeGuard_new [SE_IMPERSONATE_NAME])) in
  ret {| launch_token := owned_dup; impersonate_privilege := impersonate_privilege |}.

(** ** The console *)
Fixpoint system_directory_loop (turns : nat) (capacity : Z) : TM path :=
  match turns with
  | O => out_of_fuel
  | Datatypes.S turns' =>
      let* '(length, units) := call (GetSystemDirectoryW (capacity mod (u32_max + 1))) in
      if Z.eqb length 0 then last_token_error
      else if (length <? capacity)%Z then
        let p := written_over (Z.to_nat length) units in
        if negb (is_absolute p) then throw (InvalidSystemDirectory (display p)) else ret p
      else system_directory_loop turns' (length + 1)
  end.
Definition system_directory : TM path := system_directory_loop fuel INITIAL_SYSTEM_DIRECTORY_CAPACITY.

Definition trustedinstaller_console_launch_spec : TM ProcessLaunchSpec :=
  let* directory := system_directory in
  let unresolved_application := path_join directory SYSTEM_COMMAND_NAME in
  let* resolved := call (FsCanonicalize unresolved_application) in
  let* application := lift (result_map_err (SystemExecutableUnavailable (display unresolved_application)) resolved) in
  let* is_file := if is_absolute application then call (PathIsFile application) else ret false in
  if negb is_file then throw (InvalidSystemDirectory (display application))
  else
    let* working := match parent application with
                    | Some p => ret p
                    | None => throw (InvalidSystemDirectory (display application))
                    end in
    ret {| application_path := application; working_directory := working;
           arguments := [$"/k"; $"title"; TRUSTED_INSTALLER_CONSOLE_TITLE] |}.

(** ** Launched processes *)
Definition terminate (p : LaunchedProcess) (exit_code : Z) : TM unit :=
  let* terminated := call (TerminateProcess (lp_handle p) exit_code) in
  if negb terminated then last_token_error else ret tt.
Definition wait_for_exit (p : LaunchedProcess) (timeout : Z) : TM unit :=
  let timeout_ms := Z.min timeout (u32_max - 1) in
  let* waited := call (WaitForSingleObject (lp_handle p) timeout_ms) in
  if Z.eqb waited WAIT_OBJECT_0 then ret tt
  else if Z.eqb waited WAIT_TIMEOUT then throw (ProcessWaitTimeout timeout_ms)
  else if Z.eqb waited WAIT_FAILED then let* code := call GetLastError in throw (ProcessWaitFailed code)
  else throw (ProcessWaitFailed waited).
Definition drop_process {E} (p : LaunchedProcess) : M S E unit := close_handle (lp_handle p).
End Launch.

(** ** Compensation *)
Class CompensatableProcess (S P : Type) : Type := {
  compensated_id : P -> Z;
  terminate_for_compensation : P -> M S TokenError unit;
  wait_for_compensation : P -> M S TokenError unit;
  drop_compensated : P -> M S (Z * str) unit;
}.
#[export] Instance LaunchedProcessCompensation {S} : CompensatableProcess S LaunchedProcess := {|
  compensated_id := lp_pid;
  terminate_for_compensation p := terminate p PROCESS_COMPENSATION_EXIT_CODE;
  wait_for_compensation p := wait_for_exit p PROCESS_COMPENSATION_TIMEOUT;
  drop_compensated p := drop_process p
|}.

Section Compensation.
Context {S P : Type} `{Extern} `{CompensatableProcess S P}.

(** The error of a compensation is the process and what failed. *)
Definition compensation_failures (terminate_error wait_error : option TokenError) : list str :=
  match terminate_error with Some error => [$"terminate: " ++ show_TokenError error] | None => [] end
  ++ match wait_error with Some error => [$"wait: " ++ show_TokenError error] | None => [] end.
Definition compensate_process (process : P) : M S (Z * str) Z :=
  let pid := compensated_id process in
  let* terminated := attempt (terminate_for_compensation process) in
  let* waited := attempt (wait_for_compensation process) in
  do* drop_compensated process in
  match result_err terminated, result_err waited with
  | None, None => ret pid
  | terminate_error, wait_error =>
      throw (pid, join ($"; ") (compensation_failures terminate_error wait_error))
  end.
Definition validate_created_process_information (process : option P) (thread_handle_present : bool) (pid : Z)
    : M S TokenError P :=
  match process with
  | Some process =>
      if thread_handle_present then ret process
      else
        let* compensated := attempt (compensate_process process) in
        throw (match compensated with
               | Ok pid => InvalidProcessInformationCompensated pid
               | Err (pid, compensation_error) => InvalidProcessInformationCompensationFailed pid compensation_error
               end)
  | None => throw (InvalidProcessInformationMissingProcessHandle pid thread_handle_present)
  end.
Definition finalize_process_privilege_restore (process_result : result TokenError P) (restorer : PrivilegeGuard)
    : M S TokenError P :=
  let* restore_result := attempt (PrivilegeGuard_restore restorer) in
  match process_result, restore_result with
  | Ok process, Ok _ => ret process
  | Err launch_error, Ok _ => throw launch_error
  | Err launch_error, Err restore_error =>
      throw (OperationAndPrivilegeRestoreFailed (show_TokenError launch_error) (show_SecurityError restore_error))
  | Ok process, Err restore_error =>
      let restore_error := show_SecurityError restore_error in
      let* compensated := attempt (compensate_process process) in
      match compensated with
      | Ok pid => throw (PrivilegeRestoreCompensated pid restore_error)
      | Err (pid, compensation_error) =>
          throw (PrivilegeRestoreCompensationFailed pid restore_error compensation_error)
      end
  end.
End Compensation.

Section CreateProcess.
Context {S : Type} `{Extern}.

Definition create_process_with_api (token : Z) (spec : ProcessLaunchSpec) (environment : Z)
    : M S TokenError LaunchedProcess :=
  let* '(created, information) :=
    call (CreateProcessWithTokenW token 0 (wide_null (application_path spec))
            (build_windows_command_line (application_path spec) (arguments spec))
            CREATE_UNICODE_ENVIRONMENT environment (wide_null (working_directory spec))) in
  if negb created then
    let* code := call GetLastError in throw (Win32Operation ($"CreateProcessWithTokenW for TrustedInstaller") code)
  else
    let process := OwnedHandle_from_raw (pi_process information) in
    let thread := OwnedHandle_from_raw (pi_thread information) in
    do* match thread with Some handle => close_handle handle | None => ret tt end in
    validate_created_process_information
      ((fun handle => {| lp_handle := handle; lp_pid := pi_process_id information |}) <$> process)
      (match thread with Some _ => true | None => false end) (pi_process_id information).

(** The token is closed when the function returns. *)
Definition launch_process_with_token (launch : TrustedInstallerLaunchToken) (spec : ProcessLaunchSpec)
    : M S TokenError LaunchedProcess :=
  defer (close_handle (launch_token launch))
    (let* launch_result := attempt
       (let* '(success, env_block) := call (CreateEnvironmentBlock (launch_token launch)) in
        if negb success || Z.eqb env_block 0 then
          let* code := call GetLastError in throw (Win32Operation ($"CreateEnvironmentBlock for TrustedInstaller") code)
        else
          let* owned_env := owned_or_last_error (OwnedEnvironmentBlock_from_raw env_block) TokWin32Error in
          defer (destroy_environment_block owned_env)
            (create_process_with_api (launch_token launch) spec env_block)) in
     finalize_process_privilege_restore launch_result (impersonate_privilege launch)).
End CreateProcess.
