(* ===== verification/TokensSpec.v ===== *)
(** * TokensSpec: command lines, waiting for the service, compensated launches *)

From stdpp Require Import base list gmap strings.
From S2P Require Import Prelude Text Path Effects Models Win32 Registry Security Tokens.

(** ** The documented rules for splitting a command line

    The program name ends at the next quote when it is quoted and at white
    space otherwise.  In an argument, [2n] backslashes before a quote are [n]
    backslashes and the quote opens or closes a quoted part, [2n+1] are [n]
    backslashes and a literal quote, and other backslashes are literal.  A
    quote right after a closing one is read differently by different versions
    of the rules: [None]. *)
Definition is_blank (u : Z) : bool := Z.eqb u SPACE || Z.eqb u TAB.
Definition argument (current : option wide) (backslashes : nat) : list wide :=
  match current with Some c => [c ++ repeat BACKSLASH backslashes] | None => [] end.
Fixpoint split_args (line : wide) (quoted : bool) (backslashes : nat) (current : option wide)
    : option (list wide) :=
  match line with
  | [] => Some (argument current backslashes)
  | u :: line' =>
      if Z.eqb u BACKSLASH then split_args line' quoted (S backslashes) (Some (default [] current))
      else if Z.eqb u QUOTE then
        let current' := default [] current ++ repeat BACKSLASH (Nat.div2 backslashes) in
        if Nat.odd backslashes then split_args line' quoted 0 (Some (current' ++ [QUOTE]))
        else if quoted && bool_decide (head line' = Some QUOTE) then None
        else split_args line' (negb quoted) 0 (Some current')
      else if is_blank u && negb quoted then
        app (argument current backslashes) <$> split_args line' false 0 None
      else split_args line' quoted 0 (Some (default [] current ++ repeat BACKSLASH backslashes ++ [u]))
  end.
Definition split_command_line (line : wide) : option (list wide) :=
  match line with
  | u :: rest =>
      if Z.eqb u QUOTE then
        let n := default (length rest) (position (Z.eqb QUOTE) rest) in
        cons (take n rest) <$> split_args (drop (S n) rest) false 0 None
      else
        let n := default (length line) (position is_blank line) in
        cons (take n line) <$> split_args (drop n line) false 0 None
  | [] => None
  end.
(** The units before the NUL. *)
Definition until_nul (line : wide) : wide := take (default (length line) (position is_nul line)) line.

Example split_spaces : split_args ($"a \\b\" ++ [QUOTE] ++ $"c d" ++ [QUOTE]) false 0 None
  = Some [$"a"; $"\\b" ++ [QUOTE] ++ $"c"; $"d"].
Proof. reflexivity. Qed.

(** ** Quoting *)
Definition ends_argument (rest : wide) : Prop := rest = [] \/ head rest = Some SPACE.
Definition finish (arg : wide) (rest : wide) : option (list wide) :=
  match rest with
  | [] => Some [arg]
  | _ :: rest' => cons arg <$> split_args rest' false 0 None
  end.

Lemma split_backslashes n line quoted b c :
  split_args (repeat BACKSLASH n ++ line) quoted b (Some c) = split_args line quoted (b + n) (Some c).
Proof.
  revert b. induction n as [|n IH]; intros b; simpl; [by rewrite Nat.add_0_r|]. rewrite IH. f_equal. lia.
Qed.
Lemma split_closing rest b c :
  ends_argument rest -> Nat.odd b = false ->
  split_args (QUOTE :: rest) true b (Some c) = finish (c ++ repeat BACKSLASH (Nat.div2 b)) rest.
Proof.
  intros Hr Hb. cbn [split_args]. change (Z.eqb QUOTE BACKSLASH) with false. change (Z.eqb QUOTE QUOTE) with true.
  cbv beta iota zeta. rewrite Hb. rewrite bool_decide_eq_false_2 by (by destruct Hr as [->| ->]).
  destruct Hr as [->|Hr]; [simpl; by rewrite app_nil_r|]. destruct rest as [|u rest]; [done|].
  injection Hr as ->. simpl. by rewrite app_nil_r.
Qed.
Lemma odd_double n : Nat.odd (n * 2) = false.
Proof. rewrite Nat.mul_comm. rewrite Nat.odd_mul. done. Qed.
Lemma div2_double n : Nat.div2 (n * 2) = n.
Proof. rewrite Nat.mul_comm. apply Nat.div2_double. Qed.
Lemma div2_odd_double n : Nat.div2 (S (n * 2)) = n.
Proof. rewrite Nat.mul_comm. apply Nat.div2_succ_double. Qed.
Lemma split_quoted units rest b c :
  ends_argument rest ->
  split_args (quote_units units b ++ QUOTE :: rest) true 0 (Some c) = finish (c ++ repeat BACKSLASH b ++ units) rest.
Proof.
  intros Hr. revert b c. induction units as [|u units IH]; intros b c; cbn [quote_units].
  - rewrite split_backslashes, split_closing by (done || apply odd_double). simpl. by rewrite div2_double, app_nil_r.
  - destruct (Z.eqb_spec u BACKSLASH) as [->|Hb].
    + rewrite IH. f_equal. f_equal. change (S b) with (1 + b). rewrite Nat.add_comm, repeat_app. by rewrite <- app_assoc.
    + unfold quoted_unit. destruct (Z.eqb_spec u QUOTE) as [->|Hq]; rewrite <- !app_assoc, split_backslashes; cbn [app split_args].
      * change (Z.eqb QUOTE BACKSLASH) with false. change (Z.eqb QUOTE QUOTE) with true. cbv beta iota zeta.
        rewrite Nat.add_0_l, Nat.add_1_r, Nat.odd_succ, <- Nat.negb_odd, odd_double. cbn [negb].
        rewrite IH, div2_odd_double. simpl. by rewrite <- !app_assoc.
      * rewrite !(proj2 (Z.eqb_neq _ _)) by done. rewrite andb_false_r, IH. simpl. by rewrite <- !app_assoc.
Qed.

Lemma split_plain arg rest b c :
  ends_argument rest -> Forall (fun u => is_blank u = false /\ Z.eqb u QUOTE = false) arg ->
  split_args (arg ++ rest) false b (Some c) = finish (c ++ repeat BACKSLASH b ++ arg) rest.
Proof.
  intros Hr Ha. revert b c. induction Ha as [|u arg [Hu Hq] _ IH]; intros b c.
  - rewrite app_nil_r. destruct Hr as [->|Hr]; [done|]. destruct rest as [|u rest]; [done|]. by injection Hr as ->.
  - cbn [app split_args]. destruct (Z.eqb_spec u BACKSLASH) as [->|Hb].
    + rewrite IH. cbn [default]. f_equal. f_equal. change (S b) with (1 + b).
      rewrite Nat.add_comm, repeat_app. by rewrite <- app_assoc.
    + rewrite Hq, Hu. cbn [andb]. rewrite IH. simpl. by rewrite <- !app_assoc.
Qed.
Lemma needs_quotes_false arg :
  needs_quotes arg = false -> arg <> [] /\ Forall (fun u => is_blank u = false /\ Z.eqb u QUOTE = false) arg.
Proof.
  unfold needs_quotes. intros [He Hx]%orb_false_iff. split; [by intros ->|]. apply Forall_forall. intros u Hu.
  apply not_true_iff_false in Hx. rewrite existsb_exists in Hx. unfold is_blank.
  destruct (Z.eqb u SPACE || Z.eqb u TAB || Z.eqb u QUOTE) eqn:Hb; [destruct Hx; exists u; by rewrite <- list_elem_of_In|].
  by apply orb_false_iff in Hb as [-> ->].
Qed.
(** A written argument is read back. *)
Lemma split_argument arg rest :
  ends_argument rest -> split_args (append_quoted_argument [] arg ++ rest) false 0 None = finish arg rest.
Proof.
  intros Hr. unfold append_quoted_argument. destruct (needs_quotes arg) eqn:Hn; cbn [negb].
  - cbn [app]. rewrite <- !app_assoc. cbn [app split_args]. change (Z.eqb QUOTE BACKSLASH) with false.
    change (Z.eqb QUOTE QUOTE) with true. cbn. by rewrite split_quoted.
  - apply needs_quotes_false in Hn as [Hne Ha]. destruct arg as [|u arg]; [done|]. inversion_clear Ha as [|? ? [Hu Hq] Ha'].
    cbn [app split_args]. destruct (Z.eqb_spec u BACKSLASH) as [->|Hb].
    + rewrite split_plain by done. done.
    + rewrite Hq, Hu. cbn [andb]. by rewrite split_plain.
Qed.
Lemma append_quoted_app line arg : append_quoted_argument line arg = line ++ append_quoted_argument [] arg.
Proof. unfold append_quoted_argument. by destruct (negb _). Qed.

(** The text of the arguments, each after a space. *)
Definition written_arguments (args : list wide) : wide :=
  flat_map (fun a => SPACE :: append_quoted_argument [] a) args.
Lemma build_written application args :
  build_windows_command_line application args =
  append_quoted_argument [] application ++ written_arguments args ++ [0%Z].
Proof.
  unfold build_windows_command_line. rewrite app_assoc. f_equal.
  generalize (append_quoted_argument [] application). induction args as [|a args IH]; intros line; simpl.
  - by rewrite app_nil_r.
  - rewrite IH, append_quoted_app. by rewrite <- !app_assoc.
Qed.
Lemma split_written args : split_args (written_arguments args) false 0 None = Some args.
Proof.
  assert (forall a args, split_args (append_quoted_argument [] a ++ written_arguments args) false 0 None
          = Some (a :: args)) as Hs.
  { intros a l. revert a. induction l as [|a' l IH]; intros a.
    - rewrite split_argument by (by left). done.
    - rewrite split_argument by (by right). simpl. by rewrite IH. }
  destruct args as [|a args]; [done|]. cbn [written_arguments flat_map app]. simpl. by rewrite Hs.
Qed.

Definition no_nul (w : wide) : Prop := Forall (fun u => is_nul u = false) w.
Lemma no_nul_repeat u n : is_nul u = false -> no_nul (repeat u n).
Proof. intros Hu. induction n; by constructor. Qed.
Lemma no_nul_quoted units b : no_nul units -> no_nul (quote_units units b).
Proof.
  intros Hu. revert b. induction Hu as [|u units Hu _ IH]; intros b; simpl; [by apply no_nul_repeat|].
  destruct (Z.eqb u BACKSLASH); [apply IH|]. apply Forall_app. split; [|apply IH]. unfold quoted_unit.
  destruct (Z.eqb u QUOTE); apply Forall_app; (split; [by apply no_nul_repeat|by constructor]).
Qed.
Lemma no_nul_argument arg : no_nul arg -> no_nul (append_quoted_argument [] arg).
Proof.
  intros Ha. unfold append_quoted_argument. destruct (negb _); [done|]. cbn [app].
  constructor; [done|]. apply Forall_app. split; [by apply no_nul_quoted|by constructor].
Qed.
Lemma no_nul_written args : Forall no_nul args -> no_nul (written_arguments args).
Proof.
  induction 1 as [|a args Ha _ IH]; [by constructor|]. cbn [written_arguments flat_map app].
  constructor; [done|]. apply Forall_app. split; [by apply no_nul_argument|done].
Qed.

(** A name without quotes and without a trailing backslash is quoted as it is. *)
Lemma quote_name name b :
  Forall (fun u => Z.eqb QUOTE u = false) name -> last name <> Some BACKSLASH -> (name = [] -> b = 0) ->
  quote_units name b = repeat BACKSLASH b ++ name.
Proof.
  intros Hq. revert b. induction Hq as [|u name Hu _ IH]; intros b Hl Hb; cbn [quote_units]; [by rewrite Hb|].
  assert (name = [] -> u <> BACKSLASH) as Hne by (intros -> ->; by apply Hl).
  assert (last name <> Some BACKSLASH) as Hl' by (destruct name; [done|exact Hl]).
  rewrite Z.eqb_sym in Hu. destruct (Z.eqb_spec u BACKSLASH) as [->|Hb'].
  - rewrite IH by (done || intros ->; by destruct Hne). change (S b) with (1 + b).
    rewrite Nat.add_comm, repeat_app. by rewrite <- app_assoc.
  - unfold quoted_unit. rewrite Hu, IH by done. simpl. by rewrite <- app_assoc.
Qed.
Lemma split_name name args :
  Forall (fun u => Z.eqb QUOTE u = false) name -> (needs_quotes name = true -> last name <> Some BACKSLASH) ->
  split_command_line (append_quoted_argument [] name ++ written_arguments args) = Some (name :: args).
Proof.
  intros Hq Hl. unfold append_quoted_argument. destruct (needs_quotes name) eqn:Hn; cbn [negb app].
  - rewrite quote_name by (try done; by apply Hl). rewrite <- app_assoc. cbn [app repeat split_command_line].
    change (Z.eqb QUOTE QUOTE) with true. cbv beta iota zeta. rewrite position_app_hit by done. cbn [from_option default id].
    rewrite take_app_length, drop_app_ge by lia. replace (S (length name) - length name) with 1 by lia.
    cbn [drop]. rewrite drop_0. by rewrite split_written.
  - apply needs_quotes_false in Hn as [Hne Ha]. destruct name as [|u name]; [done|].
    assert (Forall (fun u => is_blank u = false) (u :: name)) as Hb by (eapply Forall_impl; [exact Ha|by intros ? []]).
    cbn [app split_command_line]. inversion_clear Ha as [|? ? [Hu Hq'] _]. rewrite Hq'. cbv zeta.
    assert (default (length (u :: name ++ written_arguments args)) (position is_blank ((u :: name) ++ written_arguments args))
            = length (u :: name)) as Hpos.
    { destruct args as [|a args]; [|].
      2:{ change (written_arguments (a :: args)) with (SPACE :: (append_quoted_argument [] a ++ written_arguments args)).
          by rewrite position_app_hit. }
      change (written_arguments []) with (@nil Z). rewrite !app_nil_r. by rewrite (proj2 (position_None _ _)). }
    cbn [app] in Hpos. rewrite Hpos. change (u :: name ++ written_arguments args) with ((u :: name) ++ written_arguments args).
    by rewrite take_app_length, drop_app_length, split_written.
Qed.

(** C18: a started process receives the arguments it was meant to.  The command
    line built for an application and its arguments, split by the documented
    rules, gives them back unit by unit, whatever spaces, tabs, quotes and
    backslashes the arguments hold; the application is a file name, which holds
    no quote, and if it must be quoted does not end in a backslash. *)
Theorem build_windows_command_line_splits (application : path) (arguments : list wide)
    (Hq : Forall (fun u => Z.eqb QUOTE u = false) application)
    (Hl : needs_quotes application = true -> last application <> Some BACKSLASH)
    (Hn : no_nul application) (Ha : Forall no_nul arguments) :
  split_command_line (until_nul (build_windows_command_line application arguments))
  = Some (application :: arguments).
Proof.
  rewrite build_written, app_assoc. unfold until_nul. rewrite position_app_hit; [|apply Forall_app|done].
  - cbn [from_option default id]. rewrite take_app_length. by apply split_name.
  - split; [by apply no_nul_argument|by apply no_nul_written].
Qed.
Lemma build_windows_command_line_splits_witness :
  split_command_line (until_nul (build_windows_command_line ($"C:\Windows Dir\cmd.exe")
    [$"/k"; $"a b\"; [QUOTE; BACKSLASH]; []]))
  = Some [$"C:\Windows Dir\cmd.exe"; $"/k"; $"a b\"; [QUOTE; BACKSLASH]; []].
Proof.
  apply build_windows_command_line_splits; [by repeat constructor|by vm_compute|by repeat constructor|by repeat constructor].
Defined.

(** ** Waiting for the service *)
Record service_watch : Type := { asked : list (option service_status); slept : nat }.
Definition watch_service : protocol service_watch :=
  Protocol (fun a _ => match a with ThreadSleepMs ms => ms = SERVICE_START_POLL_INTERVAL | _ => True end)
    (fun a g x g' => g' =
       match a return resp a -> service_watch with
       | QueryServiceStatusEx _ => fun x => {| asked := asked g ++ [x]; slept := slept g |}
       | ThreadSleepMs _ => fun _ => {| asked := asked g; slept := S (slept g) |}
       | _ => fun _ => g
       end x) False.

Definition is_running (st : service_status) : bool :=
  Z.eqb (ss_state st) SERVICE_RUNNING && negb (Z.eqb (ss_process_id st) 0).
Definition is_transitional (st : service_status) : bool :=
  Z.eqb (ss_state st) SERVICE_START_PENDING || Z.eqb (ss_state st) SERVICE_CONTINUE_PENDING.
(** The statuses that were not the last are those of a starting service. *)
Definition waited_through (g : service_watch) (before : list service_status) (last : option service_status) : Prop :=
  asked g = map Some before ++ [last] /\ slept g = length before /\
  Forall (fun st => is_running st = false /\ is_transitional st = true) before.
Definition service_verdict (attempts : nat) (r : result TokenError Z) (g : service_watch) : Prop :=
  match r with
  | Ok pid => exists before st, waited_through g before (Some st) /\ length before < attempts
                /\ is_running st = true /\ pid = ss_process_id st
  | Err (TrustedInstallerServiceState _ _ _ _ as e) =>
      exists before st, waited_through g before (Some st) /\ e = service_state_error st /\ is_running st = false /\
        (is_transitional st = false /\ length before < attempts \/ S (length before) = attempts)
  | Err (Win32Operation operation code) =>
      asked g = [] \/ operation = $"QueryServiceStatusEx for TrustedInstaller" /\
        exists before, waited_through g before None /\ length before < attempts
  | Err _ => False
  end.

Lemma wp_watch_close {S E} handle (s : S) (Q : result E unit -> S -> service_watch -> Prop) g :
  (forall r, Q r s g) -> wpM watch_service (close_service_handle handle) Q s g.
Proof. intros HQ. unfold close_service_handle. destruct (negb _); [wp_call; [done|]; by intros x g' ->|by apply wpM_ret]. Qed.
Lemma wp_watch_code {S E A} (f : Z -> M S E A) (Q : result E A -> S -> service_watch -> Prop) s g :
  (forall code, wpM watch_service (f code) Q s g) ->
  wpM watch_service (let* code := call GetLastError in f code) Q s g.
Proof. intros HQ. apply wpM_bind. wp_call; [done|]. intros code g' ->. apply HQ. Qed.

Lemma wp_poll_service {S} left service before (s : S) g :
  1 <= left -> asked g = map Some before -> slept g = length before ->
  Forall (fun st => is_running st = false /\ is_transitional st = true) before ->
  length before + left = SERVICE_START_POLL_ATTEMPTS ->
  wpM watch_service (poll_service (S:=S) left service)
    (fun r _ g' => service_verdict SERVICE_START_POLL_ATTEMPTS r g') s g.
Proof.
  revert before g. induction left as [|left IH]; intros before g Hleft Ha Hs Hb Hl; [lia|]. cbn [poll_service].
  apply wpM_bind, wpM_map_err, wpM_bind. wp_call; [done|]. intros [st|] g1 ->.
  2:{ apply wp_watch_code. intros code. apply wpM_throw. right. split; [done|]. exists before.
      split; [|lia]. unfold waited_through. simpl. by rewrite Ha. }
  apply wpM_ret. cbn [result_map_err]. fold (is_running st). fold (is_transitional st). cbv zeta.
  set (g1 := {| asked := asked g ++ [Some st]; slept := slept g |}).
  assert (waited_through g1 before (Some st)) as Hw by (unfold waited_through; simpl; by rewrite Ha).
  destruct (is_running st) eqn:Hr; [apply wpM_ret; exists before, st; repeat (split; [done|]); split; [lia|done]|].
  destruct (is_transitional st) eqn:Ht; cbn [negb orb].
  2:{ apply wpM_throw. exists before, st. repeat (split; [done|]). left. split; [done|lia]. }
  destruct (Nat.eqb_spec left 0) as [->|Hne].
  - apply wpM_throw. exists before, st. repeat (split; [done|]). right. lia.
  - apply wpM_bind. cbn [wait_interval WindowsTrustedInstallerServiceApi]. wp_call; [done|]. intros [] g2 ->. apply (IH (before ++ [st])); simpl.
    + lia.
    + by rewrite Ha, map_app.
    + rewrite length_app. simpl. lia.
    + apply Forall_app. split; [done|]. by constructor.
    + rewrite length_app. simpl. lia.
Qed.

(** What follows the request to start: the poll, and the two handles closed. *)
Definition closing {S} (service manager : Z) (r : result TokenError Z) (s : S) (g : service_watch) : Prop :=
  wpM watch_service (close_service_handle (E:=unit) service) (fun _ s' g' =>
    wpM watch_service (close_service_handle (E:=unit) manager) (fun _ _ g'' =>
      service_verdict SERVICE_START_POLL_ATTEMPTS r g'') s' g') s g.
Lemma closing_verdict {S} service manager r (s : S) g :
  service_verdict SERVICE_START_POLL_ATTEMPTS r g -> closing service manager r s g.
Proof. intros Hv. apply wp_watch_close. intros _. by apply wp_watch_close. Qed.
Lemma wp_watch_started {S} service manager (r : result Z unit) (s : S) :
  wpM watch_service
    (do* match r with
         | Err code =>
             if negb (Z.eqb code ERROR_SERVICE_ALREADY_RUNNING)
             then throw (Win32Operation ($"StartServiceW for TrustedInstaller") code) else ret tt
         | Ok _ => ret tt
         end in poll_service SERVICE_START_POLL_ATTEMPTS service)
    (closing service manager) s {| asked := []; slept := 0 |}.
Proof.
  apply wpM_bind.
  assert (wpM watch_service (poll_service SERVICE_START_POLL_ATTEMPTS service)
    (closing service manager) s {| asked := []; slept := 0 |}) as Hp.
  { eapply wpM_mono; [apply (wp_poll_service _ _ []); done || (unfold SERVICE_START_POLL_ATTEMPTS; lia)|].
    intros r' s' g' Hv. by apply closing_verdict. }
  destruct r as [[]|code]; [by apply wpM_ret|]. destruct (negb _); [|by apply wpM_ret].
  apply wpM_throw, closing_verdict. by left.
Qed.

(** C34: waiting for the TrustedInstaller service ends, after at most twenty
    queries.  Whatever the system answers, the wait never reaches its
    [unreachable!], sleeps exactly between two queries, and its verdict is that
    of the last status: its process when it is running with one, its error when
    it is neither running nor starting, or when it still starts at the
    twentieth query. *)
Theorem ensure_trustedinstaller_service_running_ends {S : Type} (s : S) :
  wpM watch_service ensure_trustedinstaller_service_running
    (fun r _ g' => service_verdict SERVICE_START_POLL_ATTEMPTS r g') s {| asked := []; slept := 0 |}.
Proof.
  unfold ensure_trustedinstaller_service_running, ensure_trustedinstaller_service_running_with_api.
  cbn [open_manager open_service start_service drop_service_handle WindowsTrustedInstallerServiceApi].
  set (g0 := {| asked := []; slept := 0 |}).
  assert (forall raw (Q : result Z Z -> S -> service_watch -> Prop),
    (forall h, Q (Ok h) s g0) -> (forall code, Q (Err code) s g0) ->
    wpM watch_service (owned_or_last_error (OwnedScHandle_from_raw raw) id) Q s g0) as Hopen.
  { intros raw Q Hok Herr. unfold owned_or_last_error.
    destruct (OwnedScHandle_from_raw raw) as [h|]; [apply wpM_ret, Hok|].
    apply wp_watch_code. intros code. apply wpM_throw, Herr. }
  apply wpM_bind, wpM_map_err, wpM_bind. wp_call; [done|]. intros raw g1 ->.
  apply Hopen; [intros manager|by left]. cbn [result_map_err].
  apply wpM_defer, wpM_bind, wpM_map_err, wpM_bind. wp_call; [done|]. intros raw' g1 ->.
  apply Hopen; [intros service|intros code; by apply wp_watch_close; left]. cbn [result_map_err].
  apply wpM_defer, wpM_bind, wpM_attempt, wpM_bind. wp_call; [done|]. intros started g1 ->.
  destruct started; [apply wpM_ret, (wp_watch_started service manager (Ok tt))|].
  apply wp_watch_code. intros code. apply wpM_throw, (wp_watch_started service manager (Err code)).
Qed.

(** ** Launches that are not handed over are taken back *)
Inductive launch_stage : Type :=
| NotLaunched
| Launched (i : process_information)
| Terminating (process : Z)
| Waited (process : Z)
| Reaped (process : Z).
Definition see_launch (a : sys) : sys_resp a -> launch_stage -> launch_stage :=
  match a return sys_resp a -> launch_stage -> launch_stage with
  | CreateProcessWithTokenW _ _ _ _ _ _ _ => fun x g => if fst x then Launched (snd x) else g
  | TerminateProcess h code => fun _ g =>
      match g with
      | Launched i => if Z.eqb h (pi_process i) && Z.eqb code PROCESS_COMPENSATION_EXIT_CODE then Terminating h else g
      | _ => g
      end
  | WaitForSingleObject h ms => fun _ g =>
      match g with
      | Terminating h' => if Z.eqb h h' && Z.eqb ms PROCESS_COMPENSATION_TIMEOUT then Waited h else g
      | _ => g
      end
  | CloseHandle h => fun _ g => match g with Waited h' => if Z.eqb h h' then Reaped h else g | _ => g end
  | _ => fun _ g => g
  end.
(** One process is created, with the paths of the spec, and no other is ever
    terminated. *)
Definition launch_permitted (token : Z) (spec : ProcessLaunchSpec) (a : sys) (g : launch_stage) : Prop :=
  match a with
  | CreateProcessWithTokenW t _ application command _ _ directory =>
      g = NotLaunched /\ t = token /\ application = wide_null (application_path spec)
      /\ command = build_windows_command_line (application_path spec) (arguments spec)
      /\ directory = wide_null (working_directory spec)
  | TerminateProcess h _ => exists i, g = Launched i /\ h = pi_process i
  | _ => True
  end.
Definition launching (token : Z) (spec : ProcessLaunchSpec) : protocol launch_stage :=
  monitor (launch_permitted token spec) see_launch.

Definition handed_over (p : LaunchedProcess) (g : launch_stage) : Prop :=
  exists i, g = Launched i /\ lp_handle p = pi_process i /\ lp_pid p = pi_process_id i
            /\ is_Some (OwnedHandle_from_raw (pi_thread i)).
Definition taken_back (g : launch_stage) : Prop :=
  match g with
  | NotLaunched | Reaped _ => True
  | Launched i => OwnedHandle_from_raw (pi_process i) = None
  | _ => False
  end.
Definition launch_outcome (r : result TokenError LaunchedProcess) (g : launch_stage) : Prop :=
  match r with
  | Ok p => handed_over p g /\ OwnedHandle_from_raw (lp_handle p) = Some (lp_handle p)
  | Err _ => taken_back g
  end.
(** A step that leaves the stage, unless it closes the waited process. *)
Definition later (g g' : launch_stage) : Prop := (forall h, g <> Waited h) -> g' = g.
#[export] Instance later_preorder : PreOrder later.
Proof. split; [by intros g _|]. intros g g1 g2 H1 H2 Hg. rewrite <- (H1 Hg). apply H2. by rewrite (H1 Hg). Qed.

Section LaunchProof.
Context {S : Type} `{Extern} (token : Z) (spec : ProcessLaunchSpec).
Abbreviation LP := (launching token spec).

Definition quiet (a : sys) : Prop :=
  match a with
  | CreateProcessWithTokenW _ _ _ _ _ _ _ | TerminateProcess _ _ | WaitForSingleObject _ _ => False
  | _ => True
  end.
Lemma wp_launch_quiet {E A} (m : M S E A) (s : S) g :
  mtame quiet False m -> wpM LP m (fun _ s' g' => s' = s /\ later g g') s g.
Proof.
  intros Hm. eapply wpM_tame; [..|exact Hm]; [typeclasses eauto| | |done].
  - intros a g0 Ha. by destruct a.
  - intros a g0 x g' Ha ->. intros Hg. destruct a; try done. destruct g0; try done. by destruct (Hg process).
Qed.
Lemma wp_launch_close {E} handle (s : S) (Q : result E unit -> S -> launch_stage -> Prop) g :
  (forall h, g <> Waited h) -> Q (Ok tt) s g -> wpM LP (close_handle handle) Q s g.
Proof.
  intros Hg HQ. unfold close_handle. destruct (_ && _); [|by apply wpM_ret].
  wp_call; [done|]. intros [] g' ->. cbn [see_launch]. destruct g; try done. by destruct (Hg process).
Qed.
Lemma wp_launch_code {E A} (f : Z -> M S E A) (s : S) (Q : result E A -> S -> launch_stage -> Prop) g :
  (forall code, wpM LP (f code) Q s g) -> wpM LP (let* code := call GetLastError in f code) Q s g.
Proof. intros HQ. apply wpM_bind. wp_call; [done|]. intros code g' ->. apply HQ. Qed.

(** Compensation is attempted on the process, and its handle is closed. *)
Section Compensated.
Context (p : LaunchedProcess) (i : process_information) (Hp : lp_handle p = pi_process i).
Context (Hh : OwnedHandle_from_raw (lp_handle p) = Some (lp_handle p)).
Lemma wp_terminate (s : S) :
  wpM LP (terminate p PROCESS_COMPENSATION_EXIT_CODE)
    (fun _ s' g' => s' = s /\ g' = Terminating (pi_process i)) s (Launched i).
Proof.
  apply wpM_bind. wp_call; [by exists i|]. intros ok g1 ->. cbn [see_launch]. rewrite Hp, Z.eqb_refl. cbn.
  destruct ok; [by apply wpM_ret|]. apply wp_launch_code. intros code. by apply wpM_throw.
Qed.
Lemma wp_wait (s : S) :
  wpM LP (wait_for_exit p PROCESS_COMPENSATION_TIMEOUT)
    (fun _ s' g' => s' = s /\ g' = Waited (pi_process i)) s (Terminating (pi_process i)).
Proof.
  apply wpM_bind. wp_call; [done|]. intros w g1 ->. cbn [see_launch]. rewrite Hp, Z.eqb_refl. cbn [andb].
  change (Z.eqb (Z.min _ _) _) with true. cbv iota.
  destruct (Z.eqb w WAIT_OBJECT_0); [by apply wpM_ret|]. destruct (Z.eqb w WAIT_TIMEOUT); [by apply wpM_throw|].
  destruct (Z.eqb w WAIT_FAILED); [|by apply wpM_throw]. apply wp_launch_code. intros code. by apply wpM_throw.
Qed.
Lemma wp_drop_waited {E} (s : S) :
  wpM LP (drop_process (E:=E) p) (fun _ s' g' => s' = s /\ g' = Reaped (pi_process i)) s (Waited (pi_process i)).
Proof.
  unfold drop_process, close_handle. rewrite <- Hp. unfold OwnedHandle_from_raw in Hh.
  destruct (Z.eqb _ 0), (Z.eqb _ INVALID_HANDLE_VALUE); try done. cbn [negb andb].
  wp_call; [done|]. intros [] g3 ->. cbn [see_launch]. by rewrite Z.eqb_refl.
Qed.
Lemma wp_compensate (s : S) :
  wpM LP (compensate_process p) (fun _ _ g' => g' = Reaped (pi_process i)) s (Launched i).
Proof.
  unfold compensate_process. cbn [terminate_for_compensation wait_for_compensation drop_compensated LaunchedProcessCompensation].
  apply wpM_bind, wpM_attempt. eapply wpM_mono; [apply wp_terminate|]. intros r s1 g1 [-> ->].
  apply wpM_bind, wpM_attempt. eapply wpM_mono; [apply wp_wait|]. intros w s2 g2 [-> ->].
  apply wpM_bind. eapply wpM_mono; [apply wp_drop_waited|]. intros [[]|e] s3 g3 [-> ->]; [|done].
  by destruct (result_err r), (result_err w); apply wpM_ret || apply wpM_throw.
Qed.
End Compensated.

Lemma wp_validate_created i (s : S) :
  wpM LP (validate_created_process_information
            ((fun handle => {| lp_handle := handle; lp_pid := pi_process_id i |}) <$> OwnedHandle_from_raw (pi_process i))
            (match OwnedHandle_from_raw (pi_thread i) with Some _ => true | None => false end) (pi_process_id i))
    (fun r _ g' => launch_outcome r g') s (Launched i).
Proof.
  destruct (OwnedHandle_from_raw (pi_process i)) as [h|] eqn:Hi; cbn [fmap option_fmap option_map validate_created_process_information].
  2:{ by apply wpM_throw. }
  assert (h = pi_process i) as -> by (unfold OwnedHandle_from_raw in Hi; destruct (_ || _); congruence).
  destruct (OwnedHandle_from_raw (pi_thread i)) as [t|] eqn:Ht.
  - apply wpM_ret. split; [|done]. exists i. rewrite Ht. split_and!; [done..|by eexists].
  - apply wpM_bind, wpM_attempt. eapply wpM_mono; [by apply wp_compensate|]. intros r s' g' ->. by apply wpM_throw.
Qed.
Lemma wp_create_process environment (s : S) :
  wpM LP (create_process_with_api token spec environment) (fun r _ g' => launch_outcome r g') s NotLaunched.
Proof.
  apply wpM_bind. wp_call; [by repeat split|]. intros [[] i] g ->; cbn [see_launch fst snd negb].
  - apply wpM_bind. destruct (OwnedHandle_from_raw (pi_thread i)) as [t|] eqn:Ht.
    + apply wp_launch_close; [done|].
      pose proof (wp_validate_created i s) as Hv. by rewrite Ht in Hv.
    + apply wpM_ret. pose proof (wp_validate_created i s) as Hv. by rewrite Ht in Hv.
  - apply wp_launch_code. intros code. by apply wpM_throw.
Qed.
Lemma outcome_not_waited r g : launch_outcome r g -> forall h, g <> Waited h.
Proof. intros Hr h ->. destruct r as [p|e]; [by destruct Hr as [(i & [=] & _) _]|done]. Qed.
Lemma wp_finalize r guard (s : S) g :
  launch_outcome r g ->
  wpM LP (finalize_process_privilege_restore r guard) (fun r' _ g' => launch_outcome r' g') s g.
Proof.
  intros Hr. apply wpM_bind, wpM_attempt.
  eapply wpM_mono; [apply wp_launch_quiet, mtame_PrivilegeGuard_restore; by intros []|].
  intros restored s' g' [-> ->%(fun Hl => Hl (outcome_not_waited r g Hr))].
  destruct r as [p|e], restored as [[]|e']; try (by apply wpM_ret || apply wpM_throw).
  destruct Hr as [(i & -> & Hp & Hid & _) Hh]. apply wpM_bind, wpM_attempt.
  eapply wpM_mono; [by apply wp_compensate|]. intros [pid|[pid m]] s' g' ->; by apply wpM_throw.
Qed.
End LaunchProof.

(** C19: no elevated process is left without an owner.  Whatever the system
    answers, a launch creates at most one process, with the paths and arguments
    of its spec and under its token, and terminates no other.  When the launch
    succeeds the caller owns the handle of that process, which has a thread; when it fails after
    the creation, because the information was incomplete or the privilege could
    not be restored, the process was terminated, waited for and its handle
    closed; the exception is a creation that gave no process handle. *)
Theorem launch_process_with_token_owned {S : Type} `{Extern} (launch : TrustedInstallerLaunchToken)
    (spec : ProcessLaunchSpec) (s : S) :
  wpM (launching (launch_token launch) spec) (launch_process_with_token launch spec)
    (fun r _ g' => launch_outcome r g') s NotLaunched.
Proof.
  apply wpM_defer, wpM_bind, wpM_attempt.
  assert (forall r (s' : S) g', launch_outcome r g' ->
    wpM (launching (launch_token launch) spec)
      (finalize_process_privilege_restore r (impersonate_privilege launch))
      (fun r s'' g'' => wpM (launching (launch_token launch) spec) (close_handle (E:=unit) (launch_token launch))
         (fun _ _ g3 => launch_outcome r g3) s'' g'') s' g') as Hfin.
  { intros r s' g' Hr. eapply wpM_mono; [by apply wp_finalize|]. intros r' s'' g'' Hr'.
    apply wp_launch_close; [exact (outcome_not_waited _ _ Hr')|done]. }
  apply wpM_bind. wp_call; [done|]. intros [ok block] g ->. cbn [see_launch].
  destruct (negb ok || Z.eqb block 0).
  { apply wp_launch_code. intros code. by apply wpM_throw, Hfin. }
  unfold owned_or_last_error. apply wpM_bind. destruct (OwnedEnvironmentBlock_from_raw block) as [env|].
  2:{ apply wp_launch_code. intros code. by apply wpM_throw, Hfin. }
  apply wpM_ret, wpM_defer. eapply wpM_mono; [apply wp_create_process|]. intros r s' g' Hr.
  eapply wpM_mono; [apply wp_launch_quiet; unfold destroy_environment_block; by solve_tame|].
  intros u s'' g'' [-> ->%(fun Hl => Hl (outcome_not_waited r g' Hr))]. by apply Hfin.
Qed.
