(* ===== verification/Window.v ===== *)
(** * Window: the window and what it shows (app-ui/src/state.rs, locale.rs,
    the properties of app-ui/ui/main-window.slint)

    A Slint window is a store of typed properties, read and written one by one.
    The text shown depends on the bundles of [I18n] and on the atomic byte
    [CURRENT_LOCALE]. *)

From stdpp Require Import base list strings.
From S2P Require Import Prelude Text Effects I18n Models Win32 Security Journal.

(** The [OnceLock] of the translation bundles, [Display] of its error, and
    [chrono]'s format "%Y-%m-%d %H:%M:%SZ" of a UTC time. *)
Class Presentation : Type := {
  i18n_instance : result I18nError I18nManager;
  show_I18nError : I18nError -> str;
  format_display : Z -> str;
}.
Definition tr `{Presentation} (current : Z) (key : str) : str :=
  I18n.t show_I18nError i18n_instance current key.
Definition tr_args `{Presentation} (current : Z) (key : str) (args : list (str * str)) : str :=
  I18n.t_args show_I18nError i18n_instance current key args.

(** [as i32] of an unsigned value. *)
Definition as_i32 (n : Z) : Z := (n + 2147483648) mod 4294967296 - 2147483648.
Definition i32_max : Z := 2147483647.

(** A mutex only one thread takes: its content, and the flag of a poisoned
    lock. *)
Record Mutex (A : Type) : Type := { content : A; is_poisoned : bool }.
Arguments content {A} m.
Arguments is_poisoned {A} m.
Definition Mutex_new {A} (a : A) : Mutex A := {| content := a; is_poisoned := false |}.
Definition lock {A} (m : Mutex A) : option A := if is_poisoned m then None else Some (content m).
Definition locked {A} (a : A) (m : Mutex A) : Mutex A := {| content := a; is_poisoned := is_poisoned m |}.

(** ** The rows of the window (main-window.slint) *)
Record ProfileIssueEntry : Type := { issue_code : str; issue_summary : str; technical_details : str }.
Record ProfileEntry : Type := {
  pe_sid : str;
  pe_canonical_sid : str;
  pe_username : str;
  pe_domain : str;
  pe_profile_path : str;
  status_text : str;
  health_type : Z;
  pe_loaded : bool;
  pe_is_bak : bool;
  suggest_fix_bak : bool;
  suggest_reset_state : bool;
  pe_locking_processes : list str;
  has_locking_processes : bool;
  pe_lock_inspection_failure : str;
  repair_blocked_by_lock_inspection : bool;
  state_raw : str;
  pe_anomalies : str;
  pe_issues : list ProfileIssueEntry;
}.
Record AuditLogEntry : Type := {
  ale_timestamp : str; ale_operation : str; ale_target : str;
  ale_status : str; ale_status_type : Z; ale_details : str;
}.

(** ** Conversions (state.rs) *)
Record RepairSuggestions : Type := { sg_fix_bak : bool; sg_reset_state : bool }.

Definition repair_suggestions (profile : UserProfile) : RepairSuggestions := {|
  sg_fix_bak := existsb (fun a => match a with BakSuffix => true | _ => false end) (anomalies profile);
  sg_reset_state :=
    existsb (fun a => match a with DirtyStateMask _ => true | _ => false end) (anomalies profile);
|}.

Definition locking_processes (profile : UserProfile) : list str :=
  concat (omap (fun a => match a with LockedNtUserDat processes => Some processes | _ => None end)
            (anomalies profile)).

Definition lock_inspection_failure (profile : UserProfile) : option str :=
  head (omap (fun a => match a with LockInspectionFailure details => Some details | _ => None end)
          (anomalies profile)).

Definition SEMICOLON_SPACE : str := $"; ".
Definition LINE_FEED : str := [10%Z].

Section Rows.
Context (t : str -> str).

Definition anomaly_to_issue (anomaly : ProfileAnomaly) : ProfileIssueEntry :=
  let '(code, technical) :=
    match anomaly with
    | BakSuffix => ($"BAK_SUFFIX", [])
    | TempSession => ($"TEMP_SESSION", [])
    | OrphanSid => ($"ORPHAN_SID", [])
    | PathCollision details => ($"PATH_COLLISION", details)
    | DirtyStateMask mask => ($"DIRTY_STATE_MASK", hex8_upper mask)
    | LockedNtUserDat processes => ($"LOCKED_NTUSER_DAT", join LINE_FEED processes)
    | MissingDirectory details => ($"MISSING_DIRECTORY", details)
    | RegistryReadFailure details => ($"REGISTRY_READ_FAILURE", details)
    | SidResolutionFailure details => ($"SID_RESOLUTION_FAILURE", details)
    | FilesystemScanFailure details => ($"FILESYSTEM_SCAN_FAILURE", details)
    | LockInspectionFailure details => ($"LOCK_INSPECTION_FAILURE", details)
    end in
  {| issue_code := code; issue_summary := localized_description t anomaly; technical_details := technical |}.

Definition health_code (h : ProfileHealth) : Z :=
  match h with Healthy => 0 | Warning => 1 | Corrupted => 2 end.

Definition user_profile_to_slint (profile : UserProfile) : ProfileEntry :=
  let descriptions := join SEMICOLON_SPACE (map (localized_description t) (anomalies profile)) in
  let suggestions := repair_suggestions profile in
  let processes := locking_processes profile in
  let has_processes := negb (is_empty processes) in
  let failure := default [] (lock_inspection_failure profile) in
  {| pe_sid := sid profile;
     pe_canonical_sid := canonical_sid profile;
     pe_username := username profile;
     pe_domain := domain profile;
     pe_profile_path := profile_path profile;
     status_text := if is_empty (anomalies profile) then t ($"profile.status.healthy") else descriptions;
     health_type := health_code (health profile);
     pe_loaded := loaded profile;
     pe_is_bak := is_bak profile;
     suggest_fix_bak := sg_fix_bak suggestions;
     suggest_reset_state := sg_reset_state suggestions;
     pe_locking_processes := processes;
     has_locking_processes := has_processes;
     pe_lock_inspection_failure := failure;
     repair_blocked_by_lock_inspection := has_processes || negb (is_empty failure);
     state_raw := hex4_upper (state_mask profile);
     pe_anomalies := descriptions;
     pe_issues := map anomaly_to_issue (anomalies profile) |}.

Definition audit_entry_to_slint (show_time : Z -> str) (entry : AuditEntry) : AuditLogEntry :=
  let '(status_str, status_code) :=
    match status entry with
    | StatusSuccess => (t ($"audit.status.success"), 0%Z)
    | StatusWarning => (t ($"audit.status.warning"), 1%Z)
    | StatusFailed => (t ($"audit.status.failed"), 2%Z)
    | StatusRolledBack => (t ($"audit.status.rolled_back"), 3%Z)
    end in
  {| ale_timestamp := show_time (ae_timestamp entry);
     ale_operation := operation entry;
     ale_target := target entry;
     ale_status := status_str;
     ale_status_type := status_code;
     ale_details := details entry |}.
End Rows.

(** ** The properties (main-window.slint)

    One name per property the Rust code reads or writes, by its Slint type;
    the progress bar, a [float], is only ever 0 or 1. *)
Module Ui.
Inductive TextProperty : Set :=
| status_message | status_details_content | current_locale
| selected_sid | selected_path | selected_username | selected_account | selected_anomalies
| selected_lock_inspection_failure
| migration_target_path | migration_status | migration_phase | migration_relative_path
| migration_copied_bytes | confirmation_title | confirmation_message
| startup_title | startup_message | startup_details | startup_action_text | startup_quit_text
| startup_consent_text.
Inductive FlagProperty : Set :=
| is_elevated | operation_busy | migration_running
| selected_has_locking_processes | selected_repair_blocked_by_lock_inspection | selected_loaded
| repair_fix_bak | repair_reset_state | migration_include_roaming | migration_include_docs
| migration_preflight_valid | confirmation_visible | about_visible | details_visible
| startup_visible | startup_busy | startup_consent_required | startup_consent_granted.
Inductive NumberProperty : Set :=
| total_profiles_count | healthy_count | warning_count | corrupted_count | temp_count
| selected_idx | selected_health_type | migration_progress | migration_completed_files
| confirmation_kind.
#[global] Instance TextProperty_eq_dec : EqDecision TextProperty.
Proof. solve_decision. Defined.
#[global] Instance FlagProperty_eq_dec : EqDecision FlagProperty.
Proof. solve_decision. Defined.
#[global] Instance NumberProperty_eq_dec : EqDecision NumberProperty.
Proof. solve_decision. Defined.
End Ui.

Record MainWindow : Type := {
  text_of : Ui.TextProperty -> str;
  flag_of : Ui.FlagProperty -> bool;
  number_of : Ui.NumberProperty -> Z;
  ui_profiles : list ProfileEntry;
  ui_audit_entries : list AuditLogEntry;
  selected_issues : list ProfileIssueEntry;
  selected_locking_processes : list str;
  app_strings : str -> str;
}.

Definition set_text (p : Ui.TextProperty) (v : str) (w : MainWindow) : MainWindow :=
  {| text_of := fun q => if decide (q = p) then v else text_of w q;
     flag_of := flag_of w; number_of := number_of w; ui_profiles := ui_profiles w;
     ui_audit_entries := ui_audit_entries w; selected_issues := selected_issues w;
     selected_locking_processes := selected_locking_processes w; app_strings := app_strings w |}.
Definition set_flag (p : Ui.FlagProperty) (v : bool) (w : MainWindow) : MainWindow :=
  {| text_of := text_of w;
     flag_of := fun q => if decide (q = p) then v else flag_of w q;
     number_of := number_of w; ui_profiles := ui_profiles w;
     ui_audit_entries := ui_audit_entries w; selected_issues := selected_issues w;
     selected_locking_processes := selected_locking_processes w; app_strings := app_strings w |}.
Definition set_number (p : Ui.NumberProperty) (v : Z) (w : MainWindow) : MainWindow :=
  {| text_of := text_of w; flag_of := flag_of w;
     number_of := fun q => if decide (q = p) then v else number_of w q;
     ui_profiles := ui_profiles w;
     ui_audit_entries := ui_audit_entries w; selected_issues := selected_issues w;
     selected_locking_processes := selected_locking_processes w; app_strings := app_strings w |}.
Definition set_profiles (l : list ProfileEntry) (w : MainWindow) : MainWindow :=
  {| text_of := text_of w; flag_of := flag_of w; number_of := number_of w; ui_profiles := l;
     ui_audit_entries := ui_audit_entries w; selected_issues := selected_issues w;
     selected_locking_processes := selected_locking_processes w; app_strings := app_strings w |}.
Definition set_audit_entries (l : list AuditLogEntry) (w : MainWindow) : MainWindow :=
  {| text_of := text_of w; flag_of := flag_of w; number_of := number_of w;
     ui_profiles := ui_profiles w; ui_audit_entries := l; selected_issues := selected_issues w;
     selected_locking_processes := selected_locking_processes w; app_strings := app_strings w |}.
Definition set_selected_issues (l : list ProfileIssueEntry) (w : MainWindow) : MainWindow :=
  {| text_of := text_of w; flag_of := flag_of w; number_of := number_of w;
     ui_profiles := ui_profiles w; ui_audit_entries := ui_audit_entries w; selected_issues := l;
     selected_locking_processes := selected_locking_processes w; app_strings := app_strings w |}.
Definition set_selected_locking_processes (l : list str) (w : MainWindow) : MainWindow :=
  {| text_of := text_of w; flag_of := flag_of w; number_of := number_of w;
     ui_profiles := ui_profiles w; ui_audit_entries := ui_audit_entries w;
     selected_issues := selected_issues w; selected_locking_processes := l;
     app_strings := app_strings w |}.
Definition set_app_string (name v : str) (w : MainWindow) : MainWindow :=
  {| text_of := text_of w; flag_of := flag_of w; number_of := number_of w;
     ui_profiles := ui_profiles w; ui_audit_entries := ui_audit_entries w;
     selected_issues := selected_issues w;
     selected_locking_processes := selected_locking_processes w;
     app_strings := fun q => if str_eqb q name then v else app_strings w q |}.

(** The computed properties of the window. *)
Definition modal_visible (w : MainWindow) : bool :=
  flag_of w Ui.startup_visible || flag_of w Ui.confirmation_visible
  || flag_of w Ui.about_visible || flag_of w Ui.details_visible.
Definition language_switch_enabled (w : MainWindow) : bool :=
  flag_of w Ui.startup_visible || negb (flag_of w Ui.operation_busy) && negb (modal_visible w).

(** ** Localised strings (locale.rs) *)
Definition ENGLISH_AUTONYM : str := $"English".
Definition FRENCH_AUTONYM : str := $"Fran" ++ [231%Z] ++ $"ais".

Definition app_string_table (t : str -> str) : list (str * str) :=
  [
   ($"window-title", t ($"app.window_title"));
   ($"app-title", t ($"app.title"));
   ($"app-subtitle", t ($"app.subtitle"));
   ($"app-version", t ($"app.version"));
   ($"app-license", t ($"app.license"));
   ($"language-english", ENGLISH_AUTONYM);
   ($"language-french", FRENCH_AUTONYM);
   ($"nav-dashboard", t ($"nav.dashboard"));
   ($"nav-repair", t ($"nav.repair"));
   ($"nav-migration", t ($"nav.migration"));
   ($"nav-maintenance", t ($"nav.maintenance"));
   ($"nav-logs", t ($"nav.logs"));
   ($"elevated", t ($"status.elevated"));
   ($"unelevated", t ($"status.unelevated"));
   ($"scan", t ($"dashboard.scan_btn"));
   ($"total", t ($"dashboard.total_profiles"));
   ($"healthy", t ($"dashboard.healthy_profiles"));
   ($"warning", t ($"dashboard.warning_profiles"));
   ($"corrupted", t ($"dashboard.corrupted_profiles"));
   ($"temporary", t ($"dashboard.temporary_profiles"));
   ($"column-account", t ($"dashboard.column.username"));
   ($"column-sid", t ($"dashboard.column.sid"));
   ($"column-path", t ($"dashboard.column.path"));
   ($"column-status", t ($"dashboard.column.status"));
   ($"column-loaded", t ($"dashboard.column.loaded"));
   ($"column-action", t ($"dashboard.column.actions"));
   ($"select", t ($"common.select"));
   ($"yes", t ($"common.yes"));
   ($"no", t ($"common.no"));
   ($"no-profiles", t ($"dashboard.no_profiles"));
   ($"selected-details-title", t ($"dashboard.selected_details"));
   ($"issue-code", t ($"dashboard.issue_code"));
   ($"technical-details", t ($"dashboard.technical_details"));
   ($"examine-repair", t ($"dashboard.action.examine_repair"));
   ($"prepare-migration", t ($"dashboard.action.prepare_migration"));
   ($"choose-profile", t ($"dashboard.action.choose_profile"));
   ($"choose-profile-instruction", t ($"dashboard.choose_profile_instruction"));
   ($"repair-title", t ($"repair.title"));
   ($"target-account", t ($"repair.target_account"));
   ($"target-sid", t ($"repair.target_sid"));
   ($"profile-path", t ($"repair.profile_path"));
   ($"anomalies", t ($"repair.anomalies"));
   ($"none-selected", t ($"common.none"));
   ($"loaded-warning", t ($"repair.warning.loaded_session"));
   ($"repair-pipeline", t ($"repair.pipeline"));
   ($"fix-bak", t ($"repair.action.fix_bak"));
   ($"reset-state", t ($"repair.action.reset_state"));
   ($"lock-title", t ($"repair.locked.title"));
   ($"lock-instruction", t ($"repair.locked.instruction"));
   ($"lock-status", t ($"repair.locked.status"));
   ($"dry-run", t ($"repair.btn.dry_run"));
   ($"execute-repair", t ($"repair.btn.execute"));
   ($"migration-title", t ($"migration.title"));
   ($"migration-warning", t ($"migration.warning_dpapi"));
   ($"migration-source", t ($"migration.source"));
   ($"migration-target", t ($"migration.target"));
   ($"migration-placeholder", t ($"migration.target_placeholder"));
   ($"migration-parent-help", t ($"migration.parent_help"));
   ($"migration-browse-parent", t ($"migration.btn.browse_parent"));
   ($"migration-validate", t ($"migration.btn.validate"));
   ($"include-roaming", t ($"migration.include_roaming"));
   ($"include-docs", t ($"migration.include_docs"));
   ($"start-migration", t ($"migration.btn.start"));
   ($"cancel-migration", t ($"migration.btn.cancel"));
   ($"maintenance-title", t ($"maintenance.title"));
   ($"maintenance-description", t ($"maintenance.description"));
   ($"launch-ti", t ($"maintenance.btn.launch_ti"));
   ($"audit-title", t ($"audit.title"));
   ($"clear-audit", t ($"audit.btn.clear"));
   ($"export-audit", t ($"audit.btn.export"));
   ($"audit-timestamp", t ($"audit.column.timestamp"));
   ($"audit-operation", t ($"audit.column.operation"));
   ($"audit-target", t ($"audit.column.target"));
   ($"audit-result", t ($"audit.column.result"));
   ($"audit-details", t ($"audit.column.details"));
   ($"view-details", t ($"common.view_details"));
   ($"details-copy-hint", t ($"details.copy_hint"));
   ($"status-details-title", t ($"details.status_title"));
   ($"navigation-label", t ($"accessibility.navigation"));
   ($"main-content-label", t ($"accessibility.main_content"));
   ($"profiles-list-label", t ($"accessibility.profiles_list"));
   ($"profile-details-label", t ($"accessibility.profile_details"));
   ($"profile-issues-list-label", t ($"accessibility.profile_issues_list"));
   ($"audit-list-label", t ($"accessibility.audit_list"));
   ($"blockers-list-label", t ($"accessibility.blockers_list"));
   ($"migration-progress-label", t ($"accessibility.migration_progress"));
   ($"status-region-label", t ($"accessibility.status_region"));
   ($"about", t ($"about.title"));
   ($"close", t ($"common.close"));
   ($"confirm", t ($"common.confirm"));
   ($"cancel", t ($"common.cancel"))
  ].

Definition apply_app_strings (t : str -> str) (w : MainWindow) : MainWindow :=
  foldl (fun w '(name, text) => set_app_string name text w) w (app_string_table t).

(** [set_locale_and_app_strings]: the new locale byte and the window. *)
Definition set_locale_and_app_strings `{Presentation} (locale : str) (w : MainWindow) :
    result I18nError (Z * MainWindow) :=
  let? current := I18n.set_locale locale in
  Ok (current, set_text Ui.current_locale locale (apply_app_strings (tr current) w)).

Inductive StartupPresentation : Type :=
| Checking
| FreshRecovery (reason : str)
| ResumeRecovery (reason : str)
| Working
| Error (details : str).

(** [StartupPresentation::apply]. *)
Definition startup_keys `{Presentation} (current : Z) (p : StartupPresentation) : str * str * str * str :=
  match p with
  | Checking => ($"startup.checking.title", $"startup.checking.message", [], $"startup.retry")
  | FreshRecovery reason =>
      ($"startup.legacy.title", $"startup.legacy.message",
       tr_args current ($"startup.legacy.details") [($"reason", reason)], $"startup.legacy.action")
  | ResumeRecovery reason =>
      ($"startup.resume.title", $"startup.legacy.message",
       tr_args current ($"startup.legacy.details") [($"reason", reason)], $"startup.resume.action")
  | Working =>
      ($"startup.working.title", $"startup.working.message", tr current ($"startup.working.details"),
       $"startup.retry")
  | Error details =>
      ($"startup.error.title", $"startup.error.message", details, $"startup.retry")
  end.
Definition startup_apply `{Presentation} (current : Z) (p : StartupPresentation) (w : MainWindow) : MainWindow :=
  let '(title_key, message_key, details, action_key) := startup_keys current p in
  set_text Ui.startup_consent_text (tr current ($"startup.legacy.consent"))
  (set_text Ui.startup_quit_text (tr current ($"startup.quit"))
  (set_text Ui.startup_action_text (tr current action_key)
  (set_text Ui.startup_details details
  (set_text Ui.startup_message (tr current message_key)
  (set_text Ui.startup_title (tr current title_key) w))))).

(** [detect_initial_locale]: any failure of Windows gives English. *)
Definition detect_initial_locale_with (query : result LocaleError (list str)) : str :=
  match query with
  | Ok tags => resolve_supported_locale tags
  | Err _ => ENGLISH_LOCALE
  end.
Definition detect_initial_locale {S E} : M S E str :=
  let* query := attempt query_user_preferred_ui_languages in
  ret (detect_initial_locale_with query).
