(* ===== verification/Shared.v ===== *)
(** * Shared: the memory of the application (app-ui/src/controller.rs)

    Two kinds of threads run: the event loop of the window, and the worker an
    operation starts.  What only the event loop touches is its state
    ([UiThread]).  What both touch is reached through calls, one per atomic
    access, so that a thread is a tree of [shared] calls and an execution of
    the application is an interleaving of the calls of its threads.  A closure
    the source moves to a thread or to the event loop is a constructor with
    the values it captures. *)

From stdpp Require Import base list gmap strings.
From S2P Require Import Prelude Text Path Effects I18n Models Win32 Security Storage Journal Snapshot Repair Migration Window.

(** ** Operations *)
Inductive OperationKind : Type :=
| OpIdle | OpScan | OpRepair | OpMigration | OpTrustedInstaller | OpExport | OpUnknown.
#[export] Instance OperationKind_eq_dec : EqDecision OperationKind.
Proof. solve_decision. Defined.

(** The [repr(u8)] of the enumeration. *)
Definition raw (k : OperationKind) : Z :=
  match k with
  | OpIdle => 0 | OpScan => 1 | OpRepair => 2 | OpMigration => 3
  | OpTrustedInstaller => 4 | OpExport => 5 | OpUnknown => u8_max
  end.
Definition from_raw (value : Z) : OperationKind :=
  if Z.eqb value (raw OpIdle) then OpIdle
  else if Z.eqb value (raw OpScan) then OpScan
  else if Z.eqb value (raw OpRepair) then OpRepair
  else if Z.eqb value (raw OpMigration) then OpMigration
  else if Z.eqb value (raw OpTrustedInstaller) then OpTrustedInstaller
  else if Z.eqb value (raw OpExport) then OpExport
  else OpUnknown.

Inductive ClosePolicy : Type := Allow | Block | CancelMigration.
Definition close_policy (k : OperationKind) : ClosePolicy :=
  match k with
  | OpScan | OpRepair | OpTrustedInstaller | OpExport | OpUnknown => Block
  | OpMigration => CancelMigration
  | OpIdle => Allow
  end.

(** ** What is shown of an operation *)
Inductive OperatorStatusOperation : Type :=
| ForApplication | ForScan | ForRepair | ForMigration | ForTrustedInstaller | ForExport | ForAudit.
Definition operation_key (o : OperatorStatusOperation) : str :=
  match o with
  | ForApplication => $"status.operation.application"
  | ForScan => $"status.operation.scan"
  | ForRepair => $"status.operation.repair"
  | ForMigration => $"status.operation.migration"
  | ForTrustedInstaller => $"status.operation.trusted_installer"
  | ForExport => $"status.operation.export"
  | ForAudit => $"status.operation.audit"
  end.
Definition status_operation (k : OperationKind) : OperatorStatusOperation :=
  match k with
  | OpScan => ForScan
  | OpRepair => ForRepair
  | OpMigration => ForMigration
  | OpTrustedInstaller => ForTrustedInstaller
  | OpExport => ForExport
  | OpIdle | OpUnknown => ForApplication
  end.

Inductive OperatorStatusOutcome : Type := Ready | Running | Success | Warned | Failed | WasCancelled.
#[export] Instance OperatorStatusOutcome_eq_dec : EqDecision OperatorStatusOutcome.
Proof. solve_decision. Defined.
Definition outcome_key (o : OperatorStatusOutcome) : str :=
  match o with
  | Ready => $"status.outcome.ready"
  | Running => $"status.outcome.running"
  | Success => $"status.outcome.success"
  | Warned => $"status.outcome.warning"
  | Failed => $"status.outcome.failed"
  | WasCancelled => $"status.outcome.cancelled"
  end.

Inductive OperatorStatusPayload : Type :=
| Localized (key : str) (arguments : list (str * str))
| ScanSummary (total warnings corrupted : nat).
Record OperatorStatus : Type := {
  os_operation : OperatorStatusOperation;
  os_outcome : OperatorStatusOutcome;
  os_target : str;
  os_timestamp : Z;
  os_payload : OperatorStatusPayload;
  raw_details : option str;
  recovery_hint_key : option str;
}.

Inductive MigrationTerminalPresentation : Type :=
| TerminalSuccess (files : nat) (bytes : Z) (manifest_hash : str)
| TerminalCancelled
| TerminalError (details : str).
Inductive MigrationPreflightPresentation : Type :=
| NoPresentation
| PreflightReady (target : str)
| Changed
| ValidationError (summary_key : str)
| RawFailure (details : str).

(** ** The authorisation of a migration *)
Record MigrationPreflightToken : Type := {
  mt_source_sid : str;
  mt_source_path : str;
  mt_target_path : str;
  mt_include_roaming_appdata : bool;
  mt_include_personal_folders : bool;
  validated : MigrationPreflight;
}.
Definition MigrationPreflightToken_new (plan : MigrationPlan) (v : MigrationPreflight) : MigrationPreflightToken :=
  {| mt_source_sid := source_sid plan;
     mt_source_path := source_path plan;
     mt_target_path := target_path plan;
     mt_include_roaming_appdata := include_roaming_appdata plan;
     mt_include_personal_folders := include_personal_folders plan;
     validated := v |}.
Definition matches (token : MigrationPreflightToken) (plan : MigrationPlan) : bool :=
  str_eqb (mt_source_sid token) (source_sid plan)
  && str_eqb (mt_source_path token) (source_path plan)
  && str_eqb (mt_target_path token) (target_path plan)
  && Bool.eqb (mt_include_roaming_appdata token) (include_roaming_appdata plan)
  && Bool.eqb (mt_include_personal_folders token) (include_personal_folders plan)
  && path_eqb (mp_source_path (validated token)) (encode_utf16 (source_path plan))
  && path_eqb (mp_target_path (validated token)) (encode_utf16 (target_path plan)).

Record MigrationProgressQueue : Type := { queue_pending : option MigrationProgress; scheduled : bool }.
Definition empty_queue : MigrationProgressQueue := {| queue_pending := None; scheduled := false |}.

(** ** The state of the event loop

    The mutexes only the event loop takes are values ([Window.Mutex]);
    [current] is the locale byte of [I18n]. *)
Record UiThread : Type := {
  window : MainWindow;
  current : Z;
  migration_preflight : Mutex (option MigrationPreflightToken);
  migration_preflight_presentation : Mutex (MigrationPreflightPresentation);
  last_report : Mutex (option DiagnosticReport);
  last_audit_entries : Mutex (option (list AuditEntry));
  last_migration_terminal : Mutex (option MigrationTerminalPresentation);
  last_operator_status : Mutex (OperatorStatus);
}.
Definition put_window (v : MainWindow) (s : UiThread) : UiThread :=
  {| window := v; current := current s; migration_preflight := migration_preflight s;
     migration_preflight_presentation := migration_preflight_presentation s; last_report :=
     last_report s; last_audit_entries := last_audit_entries s; last_migration_terminal :=
     last_migration_terminal s; last_operator_status := last_operator_status s |}.
Definition put_current (v : Z) (s : UiThread) : UiThread :=
  {| window := window s; current := v; migration_preflight := migration_preflight s;
     migration_preflight_presentation := migration_preflight_presentation s; last_report :=
     last_report s; last_audit_entries := last_audit_entries s; last_migration_terminal :=
     last_migration_terminal s; last_operator_status := last_operator_status s |}.
Definition put_migration_preflight (v : Mutex (option MigrationPreflightToken)) (s : UiThread) :
     UiThread :=
  {| window := window s; current := current s; migration_preflight := v;
     migration_preflight_presentation := migration_preflight_presentation s; last_report :=
     last_report s; last_audit_entries := last_audit_entries s; last_migration_terminal :=
     last_migration_terminal s; last_operator_status := last_operator_status s |}.
Definition put_migration_preflight_presentation (v : Mutex (MigrationPreflightPresentation)) (s :
     UiThread) : UiThread :=
  {| window := window s; current := current s; migration_preflight := migration_preflight s;
     migration_preflight_presentation := v; last_report := last_report s; last_audit_entries :=
     last_audit_entries s; last_migration_terminal := last_migration_terminal s;
     last_operator_status := last_operator_status s |}.
Definition put_last_report (v : Mutex (option DiagnosticReport)) (s : UiThread) : UiThread :=
  {| window := window s; current := current s; migration_preflight := migration_preflight s;
     migration_preflight_presentation := migration_preflight_presentation s; last_report := v;
     last_audit_entries := last_audit_entries s; last_migration_terminal := last_migration_terminal
     s; last_operator_status := last_operator_status s |}.
Definition put_last_audit_entries (v : Mutex (option (list AuditEntry))) (s : UiThread) : UiThread :=
  {| window := window s; current := current s; migration_preflight := migration_preflight s;
     migration_preflight_presentation := migration_preflight_presentation s; last_report :=
     last_report s; last_audit_entries := v; last_migration_terminal := last_migration_terminal s;
     last_operator_status := last_operator_status s |}.
Definition put_last_migration_terminal (v : Mutex (option MigrationTerminalPresentation)) (s :
     UiThread) : UiThread :=
  {| window := window s; current := current s; migration_preflight := migration_preflight s;
     migration_preflight_presentation := migration_preflight_presentation s; last_report :=
     last_report s; last_audit_entries := last_audit_entries s; last_migration_terminal := v;
     last_operator_status := last_operator_status s |}.
Definition put_last_operator_status (v : Mutex (OperatorStatus)) (s : UiThread) : UiThread :=
  {| window := window s; current := current s; migration_preflight := migration_preflight s;
     migration_preflight_presentation := migration_preflight_presentation s; last_report :=
     last_report s; last_audit_entries := last_audit_entries s; last_migration_terminal :=
     last_migration_terminal s; last_operator_status := v |}.

(** ** Closures that move to another thread *)
Inductive Worker : Type :=
| ScanWorker
| RepairWorker (plan : RepairPlan) (is_loaded : bool) (status_target : str)
| MigrationWorker (plan : MigrationPlan) (cancellation : nat) (status_target : str)
| TrustedInstallerWorker
| ExportWorker.
Definition kind_of (w : Worker) : OperationKind :=
  match w with
  | ScanWorker => OpScan
  | RepairWorker _ _ _ => OpRepair
  | MigrationWorker _ _ _ => OpMigration
  | TrustedInstallerWorker => OpTrustedInstaller
  | ExportWorker => OpExport
  end.

Abbreviation audit_result := (result AuditError (list AuditEntry)).
Inductive UiClosure : Type :=
| ScanFinished (r : result str DiagnosticReport) (audit_entries : audit_result)
| RepairFinished (r : result str unit) (report : option (result str DiagnosticReport))
    (status_target : str) (audit_entries : audit_result)
| MigrationFinished (r : result MigrationError MigrationReceipt) (close_after_operation : bool)
    (status_target : str) (audit_entries : audit_result)
| TrustedInstallerFinished (r : result str Z) (audit_entries : audit_result)
| ExportFinished (r : result AuditError path)
| ProgressUpdate (queue : nat).

(** ** The accesses

    Locking a mutex answers [None] when it is poisoned (the guard inside the
    error is dropped at once), its content otherwise; the guard is dropped by
    the release, which carries the content it leaves.  An
    [Arc] of an atomic or of a queue is the number of its allocation. *)
Inductive shared : Type :=
| Win (a : sys)
| ActiveCompareExchange (expected new : Z)
| ActiveLoad
| ActiveStore (value : Z)
| CloseLoad
| CloseStore (value : bool)
| CloseSwap (value : bool)
| FlagNew (value : bool)
| FlagLoad (flag : nat)
| FlagStore (flag : nat) (value : bool)
| LockCancellation
| ReleaseCancellation (slot : option nat)
| QueueNew
| LockQueue (queue : nat)
| ReleaseQueue (queue : nat) (state : MigrationProgressQueue)
| LockMemory
| ReleaseMemory (memory : AppState)
| Spawn (w : Worker)
| UpgradeInEventLoop (c : UiClosure)
| HideWindow.

Definition shared_resp (a : shared) : Type :=
  match a with
  | Win a => sys_resp a
  | ActiveCompareExchange _ _ | CloseLoad | CloseSwap _ | FlagLoad _ => bool
  | ActiveLoad => Z
  | ActiveStore _ | CloseStore _ | FlagStore _ _ | ReleaseCancellation _ | ReleaseQueue _ _
  | ReleaseMemory _ => unit
  | FlagNew _ | QueueNew => nat
  | LockCancellation => option (option nat)
  | LockQueue _ => option MigrationProgressQueue
  | LockMemory => AppState
  | Spawn _ | UpgradeInEventLoop _ | HideWindow => bool
  end.
#[export] Instance shared_signature : Signature := {| act := shared; resp := shared_resp |}.

(** ** Functions of the other crates

    They call the system only, and the callbacks of a migration, which [h]
    interprets; the display buffer of the journal is held from the beginning
    to the end of a call of the logger or of an engine. *)
Fixpoint embed {R} (h : forall a : sys, @prog shared_signature (sys_resp a))
    (m : @prog sys_signature R) : @prog shared_signature R :=
  match m with
  | Ret r => Ret r
  | Call a k => bind (h a) (fun x => embed h (k x))
  | Halt e => Halt e
  end.
Definition pass (a : sys) : @prog shared_signature (sys_resp a) :=
  Call (Win a) (fun x => Ret x).

Definition windows {S E A} (m : @M sys_signature unit E A) : M S E A :=
  fun s => bind (embed pass (m tt)) (fun '(r, _) => Ret (r, s)).
Definition with_memory {S E A} (h : forall a : sys, @prog shared_signature (sys_resp a))
    (m : @M sys_signature AppState E A) : M S E A :=
  let* memory := call LockMemory in
  let* '(r, memory') := (fun s => bind (embed h (m memory)) (fun x => Ret (Ok x, s))) in
  do* call (ReleaseMemory memory') in
  lift r.
Definition audited {S E A} (m : @M sys_signature AppState E A) : M S E A := with_memory pass m.

(** ** [OperationState] *)
Section OperationState.
Context {S E : Type}.
Definition try_begin (k : OperationKind) : M S E bool := call (ActiveCompareExchange (raw OpIdle) (raw k)).
Definition active_operation : M S E OperationKind :=
  let* value := call ActiveLoad in ret (from_raw value).
Definition request_close_after_finish : M S E unit := call (CloseStore true).
Definition cancel_if_close_deferred (cancellation : nat) : M S E unit :=
  let* deferred := call CloseLoad in
  if (deferred : bool) then call (FlagStore cancellation true) else ret tt.
Definition finish : M S E bool :=
  do* call (ActiveStore (raw OpIdle)) in
  call (CloseSwap false).
End OperationState.
