(* ===== verification/Launch.v ===== *)
(** * Launch: the audited TrustedInstaller console (app-ui/src/controller.rs)

    The launch is written against the traits of the source: an audit with an
    operation lock, and a process that can be stopped.  The theorem is proved
    against the interfaces; [Controller] instantiates them with the journal and
    with [Tokens.LaunchedProcess]. *)

From stdpp Require Import base list strings.
From S2P Require Import Prelude Text Effects Models Win32 Journal.

Definition TI_REQUEST_OPERATION : str := $"LaunchTrustedInstallerConsoleRequested".
Definition TI_TERMINAL_OPERATION : str := $"LaunchTrustedInstallerConsole".
Definition TI_AUDIT_ACTOR : str := $"WinProfile-Admin".
Definition TI_AUDIT_TARGET : str := $"Windows system command interpreter".
Definition TI_REQUEST_DETAIL : str := $"TrustedInstaller console launch request accepted".
Definition TI_TERMINATION_EXIT_CODE : Z := 1.
Definition TI_TERMINATION_TIMEOUT : Z := 5000.

Inductive TrustedInstallerLaunchError : Type :=
| OperationLock (reason : str)
| RequestAudit (reason : str)
| LaunchFailed (reason : str)
| LaunchAndFailureAudit (launch_error audit_error : str)
| TerminalAuditCompensated (pid : Z) (audit_error : str)
| TerminalAuditCompensationFailed (pid : Z) (audit_error compensation_error : str).

Definition show_TrustedInstallerLaunchError (e : TrustedInstallerLaunchError) : str :=
  match e with
  | OperationLock reason =>
      $"TrustedInstaller operation lock acquisition failed before audit or process effects: " ++ reason
  | RequestAudit reason =>
      $"TrustedInstaller launch request audit failed before process acquisition: " ++ reason
  | LaunchFailed reason => $"TrustedInstaller process launch failed: " ++ reason
  | LaunchAndFailureAudit launch_error audit_error =>
      $"TrustedInstaller process launch failed: " ++ launch_error ++ $"; FAILED audit also failed: " ++ audit_error
  | TerminalAuditCompensated pid audit_error =>
      $"TrustedInstaller SUCCESS audit failed for PID " ++ dec pid ++ $": " ++ audit_error
      ++ $"; process was terminated and reaped"
  | TerminalAuditCompensationFailed pid audit_error compensation_error =>
      $"TrustedInstaller SUCCESS audit failed for PID " ++ dec pid ++ $": " ++ audit_error
      ++ $"; compensation failed: " ++ compensation_error
  end.

(** ** The traits; [drop_guard] and [drop_managed] are the drop glue of their
    values. *)
Class TrustedInstallerAudit {Σ : Signature} (S Guard : Type) : Type := {
  record : str -> AuditStatus -> str -> M S str unit;
  acquire_trustedinstaller_operation_guard : M S str Guard;
  drop_guard : Guard -> M S unit unit;
}.
Class ManagedTrustedInstallerProcess {Σ : Signature} (S P : Type) : Type := {
  managed_pid : P -> Z;
  terminate : P -> M S str unit;
  wait_for_exit : P -> M S str unit;
  drop_managed : forall {E}, P -> M S E unit;
}.

Section Launch.
Context {Σ : Signature} {S Guard P : Type}.
Context `{!TrustedInstallerAudit S Guard} `{!ManagedTrustedInstallerProcess S P}.
Abbreviation LM := (M S TrustedInstallerLaunchError).

Definition failure_text (label : str) (error : option str) : list str :=
  match error with Some error => [label ++ $": " ++ error] | None => [] end.

(** The process is stopped and waited for; it is closed before the result is
    built. *)
Definition compensate (process : P) (pid : Z) (audit_error : str) : LM Z :=
  let* terminated := attempt (terminate process) in
  let* waited := attempt (wait_for_exit process) in
  do* drop_managed process in
  match result_err terminated, result_err waited with
  | None, None => throw (TerminalAuditCompensated pid audit_error)
  | terminate_error, wait_error =>
      throw (TerminalAuditCompensationFailed pid audit_error
               (join ($"; ") (failure_text ($"terminate") terminate_error ++ failure_text ($"wait") wait_error)))
  end.

Definition settle_launch (process : P) (session_id : Z) : LM Z :=
  let pid := managed_pid process in
  let* terminal_audit := attempt
    (record TI_TERMINAL_OPERATION StatusSuccess
       ($"Spawned PID " ++ dec pid ++ $" in session " ++ dec session_id)) in
  match terminal_audit with
  | Ok _ => do* drop_managed process in ret pid
  | Err audit_error => compensate process pid audit_error
  end.

Definition failed_launch (launch_error : str) : LM Z :=
  let* audit_result := attempt (record TI_TERMINAL_OPERATION StatusFailed launch_error) in
  match audit_result with
  | Ok _ => throw (LaunchFailed launch_error)
  | Err audit_error => throw (LaunchAndFailureAudit launch_error audit_error)
  end.

Definition execute_trustedinstaller_launch (launcher : M S str (P * Z)) : LM Z :=
  let* operation_guard := map_err OperationLock acquire_trustedinstaller_operation_guard in
  defer (drop_guard operation_guard)
    (do* map_err RequestAudit (record TI_REQUEST_OPERATION StatusSuccess TI_REQUEST_DETAIL) in
     let* launched := attempt launcher in
     match launched with
     | Ok (process, session_id) => settle_launch process session_id
     | Err launch_error => failed_launch launch_error
     end).
End Launch.

(** ** What a launch does, in order

    [launch_run]: the runs a launch may have, as the sequence of what was done
    with its outcome, and the result each of them ends with. *)
Inductive launch_event (P : Type) : Type :=
| GuardRequested (r : result str unit)
| Recorded (operation : str) (status : AuditStatus) (details : str) (r : result str unit)
| Launched (r : result str (P * Z))
| Terminated (p : P) (r : result str unit)
| Waited (p : P) (r : result str unit)
| ProcessClosed (p : P)
| GuardReleased.
Arguments GuardRequested {P} r.
Arguments Recorded {P} operation status details r.
Arguments Launched {P} r.
Arguments Terminated {P} p r.
Arguments Waited {P} p r.
Arguments ProcessClosed {P} p.
Arguments GuardReleased {P}.

Definition forget {E A} (r : result E A) : result E unit := result_map (fun _ => tt) r.
Definition request_recorded {P} (r : result str unit) : launch_event P :=
  Recorded TI_REQUEST_OPERATION StatusSuccess TI_REQUEST_DETAIL r.
Definition success_recorded {P} (pid session_id : Z) (r : result str unit) : launch_event P :=
  Recorded TI_TERMINAL_OPERATION StatusSuccess
    ($"Spawned PID " ++ dec pid ++ $" in session " ++ dec session_id) r.

Section Runs.
Context {P : Type} (pid_of : P -> Z).

(** After the request was audited: no process, or a process whose success is
    audited, or a process that is stopped, waited for and reported. *)
Inductive settled_run : list (launch_event P) -> result TrustedInstallerLaunchError Z -> Prop :=
| run_failed e r :
    settled_run [Launched (Err e); Recorded TI_TERMINAL_OPERATION StatusFailed e r]
      (Err (match r with Ok _ => LaunchFailed e | Err a => LaunchAndFailureAudit e a end))
| run_launched p session :
    settled_run [Launched (Ok (p, session)); success_recorded (pid_of p) session (Ok tt); ProcessClosed p]
      (Ok (pid_of p))
| run_compensated p session a :
    settled_run
      [Launched (Ok (p, session)); success_recorded (pid_of p) session (Err a);
       Terminated p (Ok tt); Waited p (Ok tt); ProcessClosed p]
      (Err (TerminalAuditCompensated (pid_of p) a))
| run_compensation_failed p session a t w :
    (t <> Ok tt \/ w <> Ok tt) ->
    settled_run
      [Launched (Ok (p, session)); success_recorded (pid_of p) session (Err a);
       Terminated p t; Waited p w; ProcessClosed p]
      (Err (TerminalAuditCompensationFailed (pid_of p) a
              (join ($"; ") (failure_text ($"terminate") (result_err t)
                             ++ failure_text ($"wait") (result_err w))))).

Inductive launch_run : list (launch_event P) -> result TrustedInstallerLaunchError Z -> Prop :=
| run_locked e : launch_run [GuardRequested (Err e)] (Err (OperationLock e))
| run_unaudited e :
    launch_run [GuardRequested (Ok tt); request_recorded (Err e); GuardReleased] (Err (RequestAudit e))
| run_settled events r :
    settled_run events r ->
    launch_run (GuardRequested (Ok tt) :: request_recorded (Ok tt) :: events ++ [GuardReleased]) r.
End Runs.

(** *** The interface: each operation is one event, whatever its outcome *)
Section Laws.
Context {Σ : Signature} {S Guard P G : Type}.
Context `{!TrustedInstallerAudit S Guard} `{!ManagedTrustedInstallerProcess S P}.
Context (proto : protocol G) (history : G -> list (launch_event P)) (launcher : M S str (P * Z)).

Definition is_event {E A} (m : M S E A) (event : result E A -> launch_event P) : Prop :=
  forall s g, wpM proto m (fun r _ g' => history g' = history g ++ [event r]) s g.
Definition is_drop {E} (m : M S E unit) (event : launch_event P) : Prop :=
  forall s g, wpM proto m (fun r _ g' => r = Ok tt /\ history g' = history g ++ [event]) s g.

Class LaunchLaws : Prop := {
  guard_law : is_event acquire_trustedinstaller_operation_guard (fun r => GuardRequested (forget r));
  record_law operation status details :
    is_event (record operation status details) (Recorded operation status details);
  launcher_law : is_event launcher Launched;
  terminate_law p : is_event (terminate p) (Terminated p);
  wait_law p : is_event (wait_for_exit p) (Waited p);
  close_law E p : is_drop (E:=E) (drop_managed p) (ProcessClosed p);
  release_law guard : is_drop (drop_guard guard) GuardReleased;
}.
Context `{!LaunchLaws}.

Definition extends (g : G) (events : list (launch_event P)) (g' : G) : Prop :=
  history g' = history g ++ events.
Lemma extends_trans g events g1 events' g2 :
  extends g events g1 -> extends g1 events' g2 -> extends g (events ++ events') g2.
Proof. unfold extends. intros -> ->. by rewrite (assoc_L (++)). Qed.

Lemma wp_compensate_launched p session a g0 s g :
  extends g0 [Launched (Ok (p, session)); success_recorded (managed_pid p) session (Err a)] g ->
  wpM proto (compensate p (managed_pid p) a)
    (fun r _ g' => exists events, extends g0 events g' /\ settled_run managed_pid events r) s g.
Proof.
  intros Hg. apply wpM_bind, wpM_attempt. eapply wpM_mono; [apply terminate_law|].
  intros t s1 g1 H1. apply wpM_bind, wpM_attempt. eapply wpM_mono; [apply wait_law|].
  intros w s2 g2 H2. apply wpM_bind. eapply wpM_mono; [apply close_law|].
  intros c s3 g3 [-> H3].
  pose proof (extends_trans _ _ _ _ _ Hg (extends_trans _ _ _ _ _ H1 (extends_trans _ _ _ _ _ H2 H3))) as Hall.
  destruct t as [[]|t], w as [[]|w]; cbn [result_err]; apply wpM_throw; eexists; (split; [exact Hall|]).
  - apply run_compensated.
  - apply (run_compensation_failed _ p session a (Ok tt) (Err w)). by right.
  - apply (run_compensation_failed _ p session a (Err t) (Ok tt)). by left.
  - apply (run_compensation_failed _ p session a (Err t) (Err w)). by left.
Qed.
Lemma wp_settle p session g0 s g :
  extends g0 [Launched (Ok (p, session))] g ->
  wpM proto (settle_launch p session)
    (fun r _ g' => exists events, extends g0 events g' /\ settled_run managed_pid events r) s g.
Proof.
  intros Hg. apply wpM_bind, wpM_attempt. eapply wpM_mono; [apply record_law|].
  intros [[]|a] s1 g1 H1.
  - apply wpM_bind. eapply wpM_mono; [apply close_law|]. intros c s2 g2 [-> H2]. apply wpM_ret.
    eexists. split; [exact (extends_trans _ _ _ _ _ Hg (extends_trans _ _ _ _ _ H1 H2))|]. apply run_launched.
  - apply (wp_compensate_launched _ session). exact (extends_trans _ _ _ _ _ Hg H1).
Qed.
Lemma wp_failed e g0 s g :
  extends g0 [Launched (Err e)] g ->
  wpM proto (failed_launch e)
    (fun r _ g' => exists events, extends g0 events g' /\ settled_run managed_pid events r) s g.
Proof.
  intros Hg. apply wpM_bind, wpM_attempt. eapply wpM_mono; [apply record_law|].
  intros r s1 g1 H1. pose proof (extends_trans _ _ _ _ _ Hg H1) as Hall.
  destruct r as [[]|a]; apply wpM_throw; eexists; (split; [exact Hall|]).
  - apply (run_failed _ _ (Ok tt)).
  - apply (run_failed _ _ (Err a)).
Qed.

(** C14: a console is never launched unaudited.  With an audit and a process whose
    operations do what their traits say, every run of the launch is one of
    [launch_run]: the operation lock is taken first and released last; no
    process is launched before the request is recorded; a launched process is
    reported by its identifier only after its success is recorded, and is
    otherwise terminated and waited for, both attempted even if the first
    fails; its handle is closed once in every case; and the error says which
    of these steps failed. *)
Theorem execute_trustedinstaller_launch_audited (s : S) (g : G) :
  wpM proto (execute_trustedinstaller_launch launcher)
    (fun r _ g' => exists events, history g' = history g ++ events /\ launch_run managed_pid events r) s g.
Proof.
  apply wpM_bind, wpM_map_err. eapply wpM_mono; [apply guard_law|].
  intros [guard|e] s1 g1 H1; [|eexists; split; [exact H1|apply run_locked]].
  apply wpM_defer, wpM_bind, wpM_map_err. eapply wpM_mono; [apply record_law|].
  assert (forall r events s2 g2,
            extends g1 events g2 -> launch_run managed_pid (GuardRequested (Ok tt) :: events ++ [GuardReleased]) r ->
            wpM proto (drop_guard guard) (fun _ _ g' => exists events, history g' = history g ++ events
                                            /\ launch_run managed_pid events r) s2 g2) as Hend.
  { intros r events s2 g2 H2 Hrun. eapply wpM_mono; [apply release_law|]. intros c s3 g3 [_ H3].
    eexists. split; [exact (extends_trans _ _ _ _ _ H1 (extends_trans _ _ _ _ _ H2 H3))|exact Hrun]. }
  intros [[]|e] s2 g2 H2; [|by eapply (Hend _ [_]); [exact H2|apply run_unaudited]].
  apply wpM_bind, wpM_attempt. eapply wpM_mono; [apply launcher_law|]. intros [[p session]|e] s3 g3 H3.
  - eapply wpM_mono; [by apply (wp_settle p session g2)|]. intros r s4 g4 (events & H4 & Hrun).
    eapply (Hend _ (request_recorded (Ok tt) :: events)).
    + exact (extends_trans _ _ _ _ _ H2 H4).
    + by apply run_settled.
  - eapply wpM_mono; [by apply (wp_failed e g2)|]. intros r s4 g4 (events & H4 & Hrun).
    eapply (Hend _ (request_recorded (Ok tt) :: events)).
    + exact (extends_trans _ _ _ _ _ H2 H4).
    + by apply run_settled.
Qed.
End Laws.

(** *** A world whose calls are the operations of the traits *)
Section Sample.
Inductive sample_call : Type :=
| SGuard | SRecord (operation : str) (status : AuditStatus) (details : str) | SLaunch
| STerminate (p : Z) | SWait (p : Z) | SClose (p : Z) | SRelease.
Definition sample_answer (a : sample_call) : Type :=
  match a with
  | SGuard | SRecord _ _ _ | STerminate _ | SWait _ => result str unit
  | SLaunch => result str (Z * Z)
  | SClose _ | SRelease => unit
  end.
#[local] Instance sample_calls : Signature := {| act := sample_call; resp := sample_answer |}.
Definition sample_event (a : sample_call) : sample_answer a -> launch_event Z :=
  match a return sample_answer a -> launch_event Z with
  | SGuard => fun r => GuardRequested r
  | SRecord operation status details => fun r => Recorded operation status details r
  | SLaunch => fun r => Launched r
  | STerminate p => fun r => Terminated p r
  | SWait p => fun r => Waited p r
  | SClose p => fun _ => ProcessClosed p
  | SRelease => fun _ => GuardReleased
  end.
Definition sample_history : protocol (list (launch_event Z)) :=
  @observer sample_calls _ (fun a x g => g ++ [sample_event a x]).
Definition asked (a : sample_call) (f : sample_answer a -> result str unit) : M unit str unit :=
  let* x := call (a : act) in lift (f x).
#[local] Instance sample_audit : TrustedInstallerAudit unit unit := {|
  record := fun operation status details => asked (SRecord operation status details) (fun r => r);
  acquire_trustedinstaller_operation_guard := asked SGuard (fun r => r);
  drop_guard := fun _ => call (SRelease : act);
|}.
#[local] Instance sample_process : ManagedTrustedInstallerProcess unit Z := {|
  managed_pid := fun p => p;
  terminate := fun p => asked (STerminate p) (fun r => r);
  wait_for_exit := fun p => asked (SWait p) (fun r => r);
  drop_managed := fun _ p => call (SClose p : act);
|}.
Definition sample_launcher : M unit str (Z * Z) := let* x := call (SLaunch : act) in lift x.

Lemma sample_laws : LaunchLaws sample_history id sample_launcher.
Proof.
  assert (forall E a Q s g, (forall x, Q (Ok x) s (g ++ [sample_event a x])) ->
            wpM (S:=unit) (E:=E) sample_history (call (a : act)) Q s g) as Hcall.
  { intros E a Q s g HQ. split; [exact I|]. intros x g' ->. apply HQ. }
  split; intros; intros s g; cbn [record acquire_trustedinstaller_operation_guard drop_guard terminate
    wait_for_exit drop_managed sample_audit sample_process]; unfold asked, sample_launcher;
    try apply wpM_bind; apply Hcall; intros x; cbn beta iota; try apply wpM_lift; try (by destruct x as [[]|]); by destruct x.
Qed.
Lemma execute_trustedinstaller_launch_audited_witness :
  LaunchLaws sample_history id sample_launcher /\
  wpM sample_history (execute_trustedinstaller_launch sample_launcher)
    (fun r _ g' => exists events, g' = [] ++ events /\ launch_run managed_pid events r) tt [].
Proof.
  split; [exact sample_laws|].
  exact (execute_trustedinstaller_launch_audited (H := sample_laws) sample_history id sample_launcher tt []).
Defined.
End Sample.
