(* ===== verification/Controller.v ===== *)
(** * Controller: the operations of the window (app-ui/src/controller.rs)

    A method of [AppController] called by the event loop is a program over
    [UiThread] whose calls are the shared accesses; the body of a
    [thread::spawn] is [worker_body] of the captured values, and the closure of
    an [upgrade_in_event_loop] is [ui_closure] of them.  What the process
    prints to its standard error is left out. *)

From stdpp Require Import base list gmap strings.
From S2P Require Import Prelude Text Path Effects I18n Models Win32 Registry Security SecureFs Storage Journal Rotation Snapshot Repair Scanner Migration Tokens Window Shared Launch.

Definition CONFIRM_REPAIR : Z := 0.
Definition CONFIRM_TRUSTED_INSTALLER : Z := 1.
Definition MIGRATION_SOURCE_LOADED_ERROR : str := $"error.migration_source_loaded".
Definition RETRY : option str := Some ($"status.recovery.retry").

(** ** Plans and paths *)
Definition validate_migration_source (is_loaded : bool) : result str unit :=
  if is_loaded then Err MIGRATION_SOURCE_LOADED_ERROR else Ok tt.

Definition migration_plan_from_ui (ui : MainWindow) : MigrationPlan :=
  {| source_sid := text_of ui Ui.selected_sid;
     source_path := text_of ui Ui.selected_path;
     target_path := text_of ui Ui.migration_target_path;
     include_roaming_appdata := flag_of ui Ui.migration_include_roaming;
     include_personal_folders := flag_of ui Ui.migration_include_docs |}.

Definition forbidden_in_name (c : Z) : bool := (c <=? 31)%Z || contains_char FORBIDDEN_CHARACTERS c.

Definition valid_target_leaf (candidate : wide) : bool :=
  let value := display candidate in
  if is_empty value || ends_in_dot_or_space value || existsb forbidden_in_name value then false
  else
    let upper := to_ascii_uppercase (match split_char DOT value with stem :: _ => stem | [] => [] end) in
    negb (existsb (str_eqb upper) DEVICE_NAMES)
    && negb (numbered_device ($"COM") upper) && negb (numbered_device ($"LPT") upper).

(** The loop over the trimmed name: a run of invalid characters becomes one
    dash. *)
Fixpoint replace_invalid (characters : str) (previous_replacement : bool) : str :=
  match characters with
  | [] => []
  | c :: cs =>
      if forbidden_in_name c
      then (if previous_replacement then [] else [DASH]) ++ replace_invalid cs true
      else c :: replace_invalid cs false
  end.
Definition default_target_leaf (username : str) : wide :=
  let sanitized := trim_matches (one_of [DOT; SPACE; DASH]) (replace_invalid (trim username) false) in
  let base := if is_empty sanitized then $"profile" else sanitized in
  encode_utf16 (base ++ $"-migrated").

Definition migration_validation_summary_key (e : MigrationError) : str :=
  match e with
  | DestinationExists _ => $"error.migration_target_exists"
  | SourceLoaded _ => MIGRATION_SOURCE_LOADED_ERROR
  | _ => $"error.migration_validation"
  end.
Definition migration_phase_key (p : MigrationPhase) : str :=
  match p with
  | Enumerating => $"migration.phase.enumerating"
  | Copying => $"migration.phase.copying"
  | Verifying => $"migration.phase.verifying"
  | Finalizing => $"migration.phase.finalizing"
  | RollingBack => $"migration.phase.rolling_back"
  end.

(** [str::trim_end_matches(".bak")]. *)
Fixpoint trim_end_bak (turns : nat) (s : str) : str :=
  match turns with
  | O => s
  | S turns' => match strip_suffix BAK_EXTENSION s with Some s' => trim_end_bak turns' s' | None => s end
  end.

Definition scan_audit_status (r : DiagnosticReport) : AuditStatus :=
  if (0 <? Models.warning_count r)%nat || (0 <? Models.corrupted_count r)%nat
  then StatusWarning else StatusSuccess.

Definition show_usize (n : nat) : str := dec (Z.of_nat n).

(** ** Rendering *)
Section Rendering.
Context `{Presentation} (current : Z).

Definition render_preflight (p : MigrationPreflightPresentation) : option str :=
  match p with
  | NoPresentation => None
  | PreflightReady target => Some (tr_args current ($"migration.validation.ready") [($"target", target)])
  | Changed => Some (tr current ($"migration.validation.changed"))
  | ValidationError summary_key => Some (tr current summary_key)
  | RawFailure details => Some details
  end.
Definition render_terminal (p : MigrationTerminalPresentation) : str :=
  match p with
  | TerminalSuccess files bytes manifest_hash =>
      tr_args current ($"migration.success")
        [($"files", show_usize files); ($"bytes", dec bytes); ($"hash", manifest_hash)]
  | TerminalCancelled => tr current ($"status.cancelled")
  | TerminalError details => details
  end.

Definition render_summary (s : OperatorStatus) : str :=
  match os_payload s with
  | Localized key arguments => tr_args current key arguments
  | ScanSummary total warnings corrupted =>
      let key := if decide (os_outcome s = Warned) then $"status.scan.warning" else $"status.scan.success" in
      tr_args current key [($"total", show_usize total); ($"warnings", show_usize warnings);
                           ($"corrupted", show_usize corrupted)]
  end.
Definition labelled (key value : str) : str := tr current key ++ $": " ++ value.
Definition render_details (s : OperatorStatus) : str :=
  join LINE_FEED
    ([labelled ($"status.details.operation") (tr current (operation_key (os_operation s)));
      labelled ($"status.details.outcome") (tr current (outcome_key (os_outcome s)));
      labelled ($"status.details.target") (os_target s);
      labelled ($"status.details.timestamp") (format_display (os_timestamp s));
      labelled ($"status.details.summary") (render_summary s)]
     ++ match raw_details s with
        | Some details => [tr current ($"status.details.technical") ++ $":" ++ LINE_FEED ++ details]
        | None => []
        end
     ++ match recovery_hint_key s with
        | Some key => [labelled ($"status.details.recovery") (tr current key)]
        | None => []
        end).

Definition apply_operator_status (s : OperatorStatus) (ui : MainWindow) : MainWindow :=
  set_text Ui.status_details_content (render_details s)
    (set_text Ui.status_message (render_summary s) ui).

Definition apply_migration_progress (p : MigrationProgress) (ui : MainWindow) : MainWindow :=
  let phase_text := tr current (migration_phase_key (phase p)) in
  let path_text :=
    match relative_path p with Some path => path | None => tr current ($"migration.progress.no_file") end in
  let files := show_usize (completed_files p) in
  let bytes := dec (progress_bytes p) in
  set_text Ui.migration_status
    (tr_args current ($"migration.progress.detail")
       [($"phase", phase_text); ($"path", path_text); ($"files", files); ($"bytes", bytes)])
  (set_text Ui.migration_copied_bytes bytes
  (set_number Ui.migration_completed_files
     (let n := Z.of_nat (completed_files p) in if (n <=? i32_max)%Z then n else i32_max)
  (set_text Ui.migration_relative_path path_text
  (set_text Ui.migration_phase phase_text ui)))).

Definition selected_repair_actions (ui : MainWindow) : list str :=
  (if flag_of ui Ui.repair_fix_bak then [tr current ($"repair.confirm.fix_bak")] else [])
  ++ (if flag_of ui Ui.repair_reset_state then [tr current ($"repair.confirm.reset_state")] else []).

Definition apply_selected_profile (p : ProfileEntry) (ui : MainWindow) : MainWindow :=
  let account := if is_empty (pe_domain p) then pe_username p
                 else pe_domain p ++ [BACKSLASH] ++ pe_username p in
  set_flag Ui.selected_loaded (pe_loaded p)
  (set_flag Ui.selected_repair_blocked_by_lock_inspection (repair_blocked_by_lock_inspection p)
  (set_text Ui.selected_lock_inspection_failure (pe_lock_inspection_failure p)
  (set_flag Ui.selected_has_locking_processes (has_locking_processes p)
  (set_selected_locking_processes (pe_locking_processes p)
  (set_selected_issues (pe_issues p)
  (set_text Ui.selected_anomalies (pe_anomalies p)
  (set_number Ui.selected_health_type (health_type p)
  (set_text Ui.selected_account account
  (set_text Ui.selected_username (pe_username p)
  (set_text Ui.selected_path (pe_profile_path p)
  (set_text Ui.selected_sid (pe_sid p) ui))))))))))).

Definition clear_draft (ui : MainWindow) : MainWindow :=
  set_text Ui.migration_status []
  (set_text Ui.migration_copied_bytes ($"0")
  (set_number Ui.migration_completed_files 0
  (set_text Ui.migration_relative_path []
  (set_text Ui.migration_phase []
  (set_number Ui.migration_progress 0 ui))))).
Definition clear_selection (ui : MainWindow) : MainWindow :=
  clear_draft
  (set_flag Ui.migration_preflight_valid false
  (set_flag Ui.migration_include_docs false
  (set_flag Ui.migration_include_roaming false
  (set_text Ui.migration_target_path []
  (set_flag Ui.repair_reset_state false
  (set_flag Ui.repair_fix_bak false
  (set_flag Ui.selected_loaded false
  (set_flag Ui.selected_repair_blocked_by_lock_inspection false
  (set_text Ui.selected_lock_inspection_failure []
  (set_flag Ui.selected_has_locking_processes false
  (set_selected_locking_processes []
  (set_selected_issues []
  (set_text Ui.selected_anomalies []
  (set_number Ui.selected_health_type (-1)
  (set_text Ui.selected_account []
  (set_text Ui.selected_username []
  (set_text Ui.selected_path []
  (set_text Ui.selected_sid []
  (set_number Ui.selected_idx (-1) ui))))))))))))))))))).

(** The row that stays selected when a report is drawn again. *)
Definition still_selected (rows : list ProfileEntry) (ui : MainWindow) : option ProfileEntry :=
  let index := number_of ui Ui.selected_idx in
  if (index <? 0)%Z then None
  else match rows !! Z.to_nat index with
       | Some p => if str_eqb (pe_sid p) (text_of ui Ui.selected_sid)
                      && str_eqb (pe_profile_path p) (text_of ui Ui.selected_path)
                   then Some p else None
       | None => None
       end.
Definition render_report (r : DiagnosticReport) (reset_selection : bool) (ui : MainWindow) : MainWindow :=
  let rows := map (user_profile_to_slint (tr current)) (Models.profiles r) in
  let selected_profile := if reset_selection then None else still_selected rows ui in
  let drawn :=
    set_number Ui.temp_count (as_i32 (Z.of_nat (Models.temporary_count r)))
    (set_number Ui.corrupted_count (as_i32 (Z.of_nat (Models.corrupted_count r)))
    (set_number Ui.warning_count (as_i32 (Z.of_nat (Models.warning_count r)))
    (set_number Ui.healthy_count (as_i32 (Z.of_nat (Models.healthy_count r)))
    (set_number Ui.total_profiles_count (as_i32 (Z.of_nat (Models.total_count r)))
    (set_profiles rows ui))))) in
  if reset_selection then clear_selection drawn
  else match selected_profile with Some p => apply_selected_profile p drawn | None => drawn end.

Definition render_audit_entries (entries : list AuditEntry) (ui : MainWindow) : MainWindow :=
  set_audit_entries (map (audit_entry_to_slint (tr current) format_display) entries) ui.
End Rendering.

Definition tracing_error {S E} (message : str) : M S E unit := call (Win (TracingError message)).

(** ** The state of the event loop *)
Section EventLoop.
Context {E : Type}.
Abbreviation UM := (M UiThread E).

Definition modify (f : UiThread -> UiThread) : UM unit := let* s := get in put (f s).
Definition ui : UM MainWindow := let* s := get in ret (window s).
Definition update (f : MainWindow -> MainWindow) : UM unit := modify (fun s => put_window (f (window s)) s).
Definition redraw (f : Z -> MainWindow -> MainWindow) : UM unit :=
  modify (fun s => put_window (f (current s) (window s)) s).
End EventLoop.

Section Status.
Context `{Presentation}.

Definition OperatorStatus_localized {S E} (operation : OperatorStatusOperation)
    (outcome : OperatorStatusOutcome) (target key : str) (arguments : list (str * str))
    : M S E OperatorStatus :=
  let* now := call (Win UtcNow) in
  ret {| os_operation := operation; os_outcome := outcome; os_target := target; os_timestamp := now;
         os_payload := Localized key arguments; raw_details := None; recovery_hint_key := None |}.
Definition OperatorStatus_failure {S E} (operation : OperatorStatusOperation) (target details : str)
    (hint : option str) : M S E OperatorStatus :=
  let* now := call (Win UtcNow) in
  ret {| os_operation := operation; os_outcome := Failed; os_target := target; os_timestamp := now;
         os_payload := Localized ($"status.operator.failed") []; raw_details := Some details;
         recovery_hint_key := hint |}.
Definition scan_completed (r : DiagnosticReport) : OperatorStatus :=
  let has_issues := (0 <? Models.warning_count r)%nat || (0 <? Models.corrupted_count r)%nat in
  {| os_operation := ForScan;
     os_outcome := if has_issues then Warned else Success;
     os_target := $"System";
     os_timestamp := timestamp r;
     os_payload := ScanSummary (Models.total_count r) (Models.warning_count r) (Models.corrupted_count r);
     raw_details := None;
     recovery_hint_key := if has_issues then Some ($"status.recovery.review_issues") else None |}.

(** *** Caches *)
Definition cache_and_apply_operator_status (status : OperatorStatus) : M UiThread str unit :=
  let* s := get in
  match lock (last_operator_status s) with
  | None => throw ($"operator status cache is unavailable")
  | Some _ =>
      do* put (put_last_operator_status (locked status (last_operator_status s)) s) in
      redraw (fun current => apply_operator_status current status)
  end.
Definition publish_operator_status {E} (status : OperatorStatus) : M UiThread E unit :=
  let* r := attempt (cache_and_apply_operator_status status) in
  match r with
  | Ok _ => ret tt
  | Err error =>
      do* update (set_text Ui.status_message error) in
      update (set_text Ui.status_details_content error)
  end.
Definition publish_status {E} (operation : OperatorStatusOperation) (outcome : OperatorStatusOutcome)
    (target key : str) (arguments : list (str * str)) : M UiThread E unit :=
  let* status := OperatorStatus_localized operation outcome target key arguments in
  publish_operator_status status.
Definition publish_localized_status {E} (operation : OperatorStatusOperation)
    (outcome : OperatorStatusOutcome) (target key : str) : M UiThread E unit :=
  publish_status operation outcome target key [].
Definition publish_failure {E} (operation : OperatorStatusOperation) (target details : str)
    (hint : option str) : M UiThread E unit :=
  let* status := OperatorStatus_failure operation target details hint in
  publish_operator_status status.

Definition migration_preflight_presentation_of : M UiThread str MigrationPreflightPresentation :=
  let* s := get in
  match lock (migration_preflight_presentation s) with
  | None => throw ($"migration preflight presentation is unavailable")
  | Some p => ret p
  end.
Definition cache_and_apply_migration_preflight_presentation {E} (p : MigrationPreflightPresentation)
    : M UiThread E unit :=
  let* s := get in
  let rendered := render_preflight (current s) p in
  match lock (migration_preflight_presentation s) with
  | None => tracing_error ($"Migration preflight presentation is unavailable")
  | Some _ =>
      do* put (put_migration_preflight_presentation (locked p (migration_preflight_presentation s)) s) in
      match rendered with
      | Some message => update (set_text Ui.migration_status message)
      | None => ret tt
      end
  end.

Definition cache_and_apply_audit_entries (entries : list AuditEntry) : M UiThread str unit :=
  let* s := get in
  match lock (last_audit_entries s) with
  | None => throw ($"audit entry cache is unavailable")
  | Some _ =>
      do* put (put_last_audit_entries (locked (Some entries) (last_audit_entries s)) s) in
      redraw (fun current => render_audit_entries current entries)
  end.

Definition cache_and_apply_migration_terminal (p : MigrationTerminalPresentation) : M UiThread str str :=
  let* s := get in
  let message := render_terminal (current s) p in
  match lock (last_migration_terminal s) with
  | None => throw ($"migration status cache is unavailable")
  | Some _ =>
      do* put (put_last_migration_terminal (locked (Some p) (last_migration_terminal s)) s) in
      let* s := get in
      match lock (migration_preflight_presentation s) with
      | None => throw ($"migration preflight presentation is unavailable")
      | Some _ =>
          do* put (put_migration_preflight_presentation
                     (locked NoPresentation (migration_preflight_presentation s)) s) in
          do* update (set_text Ui.migration_status message) in
          ret message
      end
  end.

(** The three guards are taken before anything is written; the presentation is
    locked last, with the others held. *)
Definition cache_and_apply_report (report : DiagnosticReport) (reset_selection : bool)
    : M UiThread str unit :=
  let* s := get in
  match lock (last_report s) with
  | None => throw ($"profile report cache is unavailable")
  | Some _ =>
      if reset_selection && is_poisoned (last_migration_terminal s)
      then throw ($"migration status cache is unavailable")
      else if reset_selection && is_poisoned (migration_preflight s)
      then throw ($"migration preflight token state is unavailable")
      else
        do* put (put_last_report (locked (Some report) (last_report s)) s) in
        do* (if reset_selection then
               do* modify (fun s => put_last_migration_terminal
                                      (locked None (last_migration_terminal s)) s) in
               do* modify (fun s => put_migration_preflight (locked None (migration_preflight s)) s) in
               let* s := get in
               match lock (migration_preflight_presentation s) with
               | Some _ => put (put_migration_preflight_presentation
                                  (locked NoPresentation (migration_preflight_presentation s)) s)
               | None => throw ($"migration preflight presentation is unavailable")
               end
             else ret tt) in
        redraw (fun current => render_report current report reset_selection)
  end.

Definition apply_audit_result `{Extern} {E} (r : audit_result) : M UiThread E unit :=
  match r with
  | Ok entries =>
      let* applied := attempt (cache_and_apply_audit_entries entries) in
      match applied with
      | Ok _ => ret tt
      | Err error => publish_failure ForAudit ($"Display") error RETRY
      end
  | Err error => publish_failure ForAudit ($"Display") (show_AuditError error) RETRY
  end.

(** *** The migration draft *)
Definition clear_migration_preflight {E} (announce_edit : bool) : M UiThread E unit :=
  let* s := get in
  do* match lock (migration_preflight s) with
      | Some _ => put (put_migration_preflight (locked None (migration_preflight s)) s)
      | None => tracing_error ($"Migration preflight token state is unavailable")
      end in
  do* update (set_flag Ui.migration_preflight_valid false) in
  cache_and_apply_migration_preflight_presentation (if announce_edit then Changed else NoPresentation).
Definition invalidate_migration_preflight {E} : M UiThread E unit := clear_migration_preflight true.

Definition reset_migration_draft {E} : M UiThread E unit :=
  do* clear_migration_preflight false in
  let* s := get in
  do* match lock (last_migration_terminal s) with
      | Some _ => put (put_last_migration_terminal (locked None (last_migration_terminal s)) s)
      | None => tracing_error ($"Migration status cache is unavailable")
      end in
  update (fun w =>
    clear_draft (set_flag Ui.migration_include_docs false
      (set_flag Ui.migration_include_roaming false (set_text Ui.migration_target_path [] w)))).
End Status.

(** ** Handlers of the event loop *)
Section Handlers.
Context `{Fuel} `{Extern} `{Presentation}.

(** An operation is running, its result is not shown yet, or a dialog is open. *)
Definition not_editable {E} : M UiThread E bool :=
  let* operation := active_operation in
  let* w := ui in
  ret (negb (bool_decide (operation = OpIdle)) || flag_of w Ui.operation_busy
       || negb (language_switch_enabled w)).

(** The cached models are rendered again in the new locale. *)
Definition render_cached (report : option DiagnosticReport) (audit_entries : option (list AuditEntry))
    (migration_preflight : MigrationPreflightPresentation)
    (migration_terminal : option MigrationTerminalPresentation) (operator_status : OperatorStatus)
    (current : Z) (w : MainWindow) : MainWindow :=
  let w := match report with Some r => render_report current r false w | None => w end in
  let w := match audit_entries with Some entries => render_audit_entries current entries w | None => w end in
  let w := match render_preflight current migration_preflight, migration_terminal with
           | Some message, _ => set_text Ui.migration_status message w
           | None, Some p => set_text Ui.migration_status (render_terminal current p) w
           | None, None => w
           end in
  apply_operator_status current operator_status w.
Definition change_locale (locale : str) : M UiThread str bool :=
  let* refused := not_editable in
  if (refused : bool) then ret false
  else
    let* s := get in
    match lock (last_report s), lock (last_audit_entries s), lock (last_migration_terminal s) with
    | None, _, _ => throw ($"profile report cache is unavailable")
    | _, None, _ => throw ($"audit entry cache is unavailable")
    | _, _, None => throw ($"migration status cache is unavailable")
    | Some report, Some audit_entries, Some migration_terminal =>
        let* migration_preflight := migration_preflight_presentation_of in
        match lock (last_operator_status s) with
        | None => throw ($"operator status cache is unavailable")
        | Some operator_status =>
            let* '(locale_byte, w) :=
              lift (result_map_err show_I18nError (set_locale_and_app_strings locale (window s))) in
            do* put (put_window w (put_current locale_byte s)) in
            do* redraw (render_cached report audit_entries migration_preflight migration_terminal
                          operator_status) in
            ret true
        end
    end.

Definition begin_operation {E} (operation : OperationKind) : M UiThread E bool :=
  let* begun := try_begin operation in
  if negb begun then
    do* publish_localized_status (status_operation operation) Warned ($"System") ($"error.operation_busy") in
    ret false
  else
    do* update (set_flag Ui.operation_busy true) in
    ret true.

Definition require_elevation {E} (operation : OperatorStatusOperation) : M UiThread E bool :=
  let* elevated := attempt (windows is_process_elevated) in
  match elevated with
  | Ok true => ret true
  | Ok false =>
      do* publish_localized_status operation Warned ($"System") ($"error.elevation_required") in
      ret false
  | Err error =>
      do* publish_failure operation ($"System") (show_SecurityError error) RETRY in
      ret false
  end.

(** [thread::spawn] panics when the thread cannot be created. *)
Definition spawn {E} (w : Worker) : M UiThread E unit :=
  let* spawned := call (Spawn w) in
  if (spawned : bool) then ret tt else panic ($"failed to spawn thread").

Definition scan_profiles {E} : M UiThread E unit :=
  let* begun := begin_operation OpScan in
  if negb begun then ret tt
  else
    do* publish_localized_status ForScan Running ($"System") ($"status.scanning") in
    spawn ScanWorker.

Definition select_profile {E} (index : nat) : M UiThread E unit :=
  let* w := ui in
  match ui_profiles w !! index with
  | None => ret tt
  | Some p =>
      let profile_changed :=
        negb (str_eqb (text_of w Ui.selected_sid) (pe_sid p))
        || negb (str_eqb (text_of w Ui.selected_path) (pe_profile_path p)) in
      do* (if profile_changed then reset_migration_draft else ret tt) in
      update (fun w =>
        set_flag Ui.repair_reset_state (suggest_reset_state p)
        (set_flag Ui.repair_fix_bak (suggest_fix_bak p)
        (apply_selected_profile p (set_number Ui.selected_idx (as_i32 (Z.of_nat index)) w))))
  end.

Definition apply_migration_parent {E} (parent : path) : M UiThread E unit :=
  let* refused := not_editable in
  if (refused : bool) then ret tt
  else
    let* w := ui in
    let leaf :=
      match file_name (encode_utf16 (text_of w Ui.migration_target_path)) with
      | Some candidate =>
          if valid_target_leaf candidate then candidate
          else default_target_leaf (text_of w Ui.selected_username)
      | None => default_target_leaf (text_of w Ui.selected_username)
      end in
    do* update (set_text Ui.migration_target_path (display (path_join parent leaf))) in
    invalidate_migration_preflight.

Definition prevalidate_migration {E} : M UiThread E unit :=
  let* refused := not_editable in
  if (refused : bool) then ret tt
  else
    let* w := ui in
    let plan := migration_plan_from_ui w in
    match validate_migration_source (flag_of w Ui.selected_loaded) with
    | Err message_key =>
        do* clear_migration_preflight false in
        do* cache_and_apply_migration_preflight_presentation (ValidationError message_key) in
        publish_localized_status ForMigration Warned (source_path plan) message_key
    | Ok _ =>
        let* prevalidated := attempt (windows (prevalidate_migration_plan plan)) in
        match prevalidated with
        | Ok v =>
            let target := display (mp_target_path v) in
            let* s := get in
            match lock (migration_preflight s) with
            | Some _ =>
                do* put (put_migration_preflight
                           (locked (Some (MigrationPreflightToken_new plan v)) (migration_preflight s)) s) in
                do* update (set_flag Ui.migration_preflight_valid true) in
                cache_and_apply_migration_preflight_presentation (PreflightReady target)
            | None =>
                publish_failure ForMigration target
                  ($"migration preflight token state is unavailable") RETRY
            end
        | Err error =>
            do* clear_migration_preflight false in
            do* cache_and_apply_migration_preflight_presentation
                  (ValidationError (migration_validation_summary_key error)) in
            publish_failure ForMigration (target_path plan) (show_MigrationError error) RETRY
        end
    end.

Definition report_migration_picker_failure {E} (details : str) : M UiThread E unit :=
  do* cache_and_apply_migration_preflight_presentation (RawFailure details) in
  let* w := ui in
  publish_failure ForMigration (text_of w Ui.migration_target_path) details RETRY.

Definition ask_confirmation {E} (kind : Z) (title message : MainWindow -> Z -> str) : M UiThread E unit :=
  redraw (fun current w =>
    set_flag Ui.confirmation_visible true
      (set_text Ui.confirmation_message (message w current)
        (set_text Ui.confirmation_title (title w current) (set_number Ui.confirmation_kind kind w)))).

Definition request_repair_confirmation {E} : M UiThread E unit :=
  let* s := get in
  let w := window s in
  let sid := text_of w Ui.selected_sid in
  let actions := selected_repair_actions (current s) w in
  if flag_of w Ui.selected_repair_blocked_by_lock_inspection
  then publish_localized_status ForRepair Warned sid ($"repair.locked.status")
  else if is_empty sid
  then publish_localized_status ForRepair Warned ($"Inventory") ($"error.profile_not_selected")
  else if is_empty actions
  then publish_localized_status ForRepair Warned sid ($"error.no_repair_action")
  else
    ask_confirmation CONFIRM_REPAIR (fun _ current => tr current ($"repair.confirm.title"))
      (fun _ current => tr_args current ($"repair.confirm.summary")
                          [($"sid", sid); ($"actions", join ($", ") actions)]).

Definition request_ti_confirmation {E} : M UiThread E unit :=
  ask_confirmation CONFIRM_TRUSTED_INSTALLER (fun _ current => tr current ($"maintenance.confirm.title"))
    (fun _ current => tr current ($"maintenance.confirm.message")).

Definition repair_plan_from_ui (w : MainWindow) (dry : bool) : RepairPlan :=
  let sid := text_of w Ui.selected_sid in
  {| rp_sid := sid;
     rp_canonical_sid := trim_end_bak (length sid) sid;
     rp_profile_path := text_of w Ui.selected_path;
     fix_bak := flag_of w Ui.repair_fix_bak;
     reset_state := flag_of w Ui.repair_reset_state;
     unlock_hive := false;
     dry_run := dry |}.

(** [require_elevation(..) && begin_operation(..)] of the source. *)
Definition elevated_begin {E} (operation : OperationKind) : M UiThread E bool :=
  let* elevated := require_elevation (status_operation operation) in
  if (elevated : bool) then begin_operation operation else ret false.

Definition execute_repair {E} (dry : bool) : M UiThread E unit :=
  let* w := ui in
  if flag_of w Ui.selected_repair_blocked_by_lock_inspection then
    publish_localized_status ForRepair Warned (text_of w Ui.selected_sid) ($"repair.locked.status")
  else
    let* begun := elevated_begin OpRepair in
    if negb begun then ret tt
    else
      let* w := ui in
      let plan := repair_plan_from_ui w dry in
      do* publish_localized_status ForRepair Running (rp_sid plan) ($"status.repairing") in
      spawn (RepairWorker plan (flag_of w Ui.selected_loaded) (rp_sid plan)).

(** The preflight token is taken: it authorises one attempt. *)
Definition take_preflight {E} : M UiThread E (option (option MigrationPreflightToken)) :=
  let* s := get in
  match lock (migration_preflight s) with
  | Some token =>
      do* put (put_migration_preflight (locked None (migration_preflight s)) s) in
      ret (Some token)
  | None => ret None
  end.
Definition authorised (token : option MigrationPreflightToken) (plan : MigrationPlan) : bool :=
  match token with Some token => matches token plan | None => false end.

(** The cancellation token is published under its mutex, after a close that was
    deferred meanwhile has been looked for. *)
Definition publish_cancellation {E} (cancellation : nat) : M UiThread E bool :=
  let* slot := call LockCancellation in
  match slot with
  | Some _ =>
      do* cancel_if_close_deferred cancellation in
      do* call (ReleaseCancellation (Some cancellation)) in
      ret true
  | None => ret false
  end.

Definition begin_migration {E} (plan : MigrationPlan) : M UiThread E unit :=
  let* begun := elevated_begin OpMigration in
  if negb begun then ret tt
  else
    let* cancellation := call (FlagNew false) in
    let* published := publish_cancellation cancellation in
    if negb published then
      let* _ := finish in
      do* update (set_flag Ui.operation_busy false) in
      publish_failure ForMigration (source_path plan)
        ($"migration cancellation state is unavailable") RETRY
    else
      do* update (set_flag Ui.migration_running true) in
      do* update (set_number Ui.migration_progress 0) in
      do* publish_localized_status ForMigration Running (source_path plan) ($"status.migrating") in
      spawn (MigrationWorker plan cancellation (source_path plan)).

Definition start_migration {E} : M UiThread E unit :=
  let* w := ui in
  match validate_migration_source (flag_of w Ui.selected_loaded) with
  | Err message_key =>
      publish_localized_status ForMigration Warned (text_of w Ui.selected_path) message_key
  | Ok _ =>
      let plan := migration_plan_from_ui w in
      if is_empty (source_path plan) || is_empty (target_path plan)
         || (negb (include_roaming_appdata plan) && negb (include_personal_folders plan))
      then
        let* _ := finish in
        do* update (set_flag Ui.operation_busy false) in
        publish_localized_status ForMigration Warned (source_path plan) ($"error.migration_scope")
      else
        let* preflight := take_preflight in
        match preflight with
        | None =>
            publish_failure ForMigration (target_path plan)
              ($"migration preflight token state is unavailable") RETRY
        | Some token =>
            if negb (authorised token plan) then
              do* cache_and_apply_migration_preflight_presentation Changed in
              do* update (set_flag Ui.migration_preflight_valid false) in
              publish_localized_status ForMigration Warned (target_path plan)
                ($"error.migration_prevalidation_required")
            else
              do* cache_and_apply_migration_preflight_presentation NoPresentation in
              do* update (set_flag Ui.migration_preflight_valid false) in
              begin_migration plan
        end
  end.

Definition signal (slot : option nat) {E} : M UiThread E unit :=
  match slot with Some cancellation => call (FlagStore cancellation true) | None => ret tt end.

Definition cancel_migration {E} : M UiThread E unit :=
  let* slot := call LockCancellation in
  let* w := ui in
  match slot with
  | Some slot =>
      do* match slot with
          | Some _ =>
              do* signal slot in
              publish_localized_status ForMigration Running (text_of w Ui.selected_path) ($"status.cancelling")
          | None => ret tt
          end in
      call (ReleaseCancellation slot)
  | None =>
      publish_failure ForMigration (text_of w Ui.selected_path)
        ($"migration cancellation state is unavailable") RETRY
  end.

Inductive CloseRequestResponse : Type := HideTheWindow | KeepWindowShown.

(** The deferred close is recorded and the token signalled under the mutex. *)
Definition defer_close {E} : M UiThread E unit :=
  let* slot := call LockCancellation in
  let* w := ui in
  match slot with
  | Some slot =>
      do* request_close_after_finish in
      do* signal slot in
      do* publish_localized_status ForMigration Running (text_of w Ui.selected_path) ($"status.cancelling") in
      call (ReleaseCancellation slot)
  | None =>
      publish_failure ForMigration (text_of w Ui.selected_path)
        ($"migration cancellation state is unavailable") RETRY
  end.
Definition handle_close_requested {E} : M UiThread E CloseRequestResponse :=
  let* operation := active_operation in
  match close_policy operation with
  | Allow => ret HideTheWindow
  | Block =>
      do* publish_localized_status (status_operation operation) Warned ($"WinProfile")
            ($"status.close_blocked_repair") in
      ret KeepWindowShown
  | CancelMigration =>
      do* defer_close in
      ret KeepWindowShown
  end.

Definition launch_ti_console {E} : M UiThread E unit :=
  let* begun := elevated_begin OpTrustedInstaller in
  if negb begun then ret tt
  else
    do* publish_localized_status ForTrustedInstaller Running TI_AUDIT_TARGET ($"status.launching_ti") in
    spawn TrustedInstallerWorker.

Definition export_audit {E} : M UiThread E unit :=
  let* begun := begin_operation OpExport in
  if negb begun then ret tt
  else
    do* publish_localized_status ForExport Running ($"Exports") ($"status.exporting") in
    spawn ExportWorker.

Definition clear_audit_logs {E} : M UiThread E unit :=
  let* cleared := attempt (audited clear_memory) in
  match cleared with
  | Ok _ =>
      let* applied := attempt (cache_and_apply_audit_entries []) in
      match applied with
      | Ok _ => publish_localized_status ForAudit Success ($"Display") ($"status.audit_cleared")
      | Err error => publish_failure ForAudit ($"Display") error RETRY
      end
  | Err error => publish_failure ForAudit ($"Display") (show_AuditError error) RETRY
  end.

Definition read_audit_entries {S E} : M S E audit_result := attempt (audited get_entries).
Definition refresh_audit_logs {E} : M UiThread E unit :=
  let* entries := read_audit_entries in apply_audit_result entries.
End Handlers.

(** ** Bodies of the worker threads *)
Section Workers.
Context `{Fuel} `{Extern} `{JournalCodec} `{SnapshotCodec} `{Sha2}.
Context (snapshot_engine : SnapshotEngine) (audit_logger : AuditLogger).
Abbreviation WM := (M unit Empty_set).

Definition scan_details (r : DiagnosticReport) : str :=
  $"Discovered " ++ show_usize (Models.total_count r) ++ $" profiles ("
  ++ show_usize (Models.healthy_count r) ++ $" healthy, "
  ++ show_usize (Models.warning_count r) ++ $" warnings, "
  ++ show_usize (Models.corrupted_count r) ++ $" corrupted, "
  ++ show_usize (Models.temporary_count r) ++ $" temporary transversal)".
Definition log_scan (st : AuditStatus) (det : str) : WM (result AuditError unit) :=
  attempt (audited (log audit_logger ($"ProfileScan") ($"WinProfile-Admin") ($"System") st det)).

Definition audited_scan : WM (result str DiagnosticReport) :=
  let* scanned := attempt (windows scan_all) in
  match scanned with
  | Ok report =>
      let* logged := log_scan (scan_audit_status report) (scan_details report) in
      match logged with
      | Ok _ => ret (Ok report)
      | Err error => ret (Err ($"scan completed but audit logging failed: " ++ show_AuditError error))
      end
  | Err error => ret (Err (show_ScannerError error))
  end.
Definition scan_result : WM (result str DiagnosticReport) :=
  let* r := audited_scan in
  match r with
  | Ok report => ret (Ok report)
  | Err error =>
      let* logged := log_scan StatusFailed error in
      match logged with
      | Ok _ => ret (Err error)
      | Err audit_error =>
          ret (Err (error ++ $"; audit logging also failed: " ++ show_AuditError audit_error))
      end
  end.

(** [upgrade_in_event_loop]; a failure is only printed. *)
Definition post (c : UiClosure) : WM unit := let* _ := call (UpgradeInEventLoop c) in ret tt.

Definition scan_worker : WM unit :=
  let* r := scan_result in
  let* audit_entries := read_audit_entries in
  let* _ := finish in
  post (ScanFinished r audit_entries).

Definition repair_worker (plan : RepairPlan) (is_loaded : bool) (status_target : str) : WM unit :=
  let engine := {| Repair.snapshot_engine := snapshot_engine; Repair.audit_logger := audit_logger |} in
  let* repair_result := attempt (audited (execute_plan engine plan is_loaded)) in
  let* report :=
    if is_ok repair_result && negb (dry_run plan) then
      let* scanned := attempt (windows scan_all) in
      ret (Some (result_map_err show_ScannerError scanned))
    else ret None in
  let* audit_entries := read_audit_entries in
  let* _ := finish in
  post (RepairFinished (result_map_err show_RepairError repair_result) report status_target audit_entries).

(** The progress callback: at most one update is queued, with the newest
    progress. *)
Definition queue_migration_progress (queue : nat) (progress : MigrationProgress) : WM unit :=
  let* state := call (LockQueue queue) in
  let* should_schedule :=
    match state with
    | Some state =>
        do* call (ReleaseQueue queue {| queue_pending := Some progress; scheduled := true |}) in
        ret (negb (scheduled state))
    | None =>
        do* tracing_error ($"Migration progress queue is unavailable") in
        ret false
    end in
  if negb should_schedule then ret tt
  else
    let* queued := call (UpgradeInEventLoop (ProgressUpdate queue)) in
    if (queued : bool) then ret tt
    else
      let* state := call (LockQueue queue) in
      do* match state with
          | Some _ => call (ReleaseQueue queue empty_queue)
          | None => ret tt
          end in
      tracing_error ($"Failed to queue migration progress").

(** The callbacks of the engine: progress is queued, cancellation is the flag. *)
Definition migration_callbacks (queue cancellation : nat) (a : sys) : @prog shared_signature (sys_resp a) :=
  match a return @prog shared_signature (sys_resp a) with
  | OnProgress progress => bind (queue_migration_progress queue progress tt) (fun _ => Ret tt)
  | IsCancelled => Call (FlagLoad cancellation) (fun b => Ret b)
  | a => pass a
  end.
Definition on_transaction {E A} (m : @M sys_signature MigrationState E A) : @M sys_signature AppState E A :=
  fun memory => bind (m {| mig_app := memory; transaction := empty_transaction |})
                  (fun '(r, s) => Ret (r, mig_app s)).

Definition retire_cancellation (r : result MigrationError MigrationReceipt)
    : WM (result MigrationError MigrationReceipt) :=
  let* slot := call LockCancellation in
  match slot with
  | Some _ => do* call (ReleaseCancellation None) in ret r
  | None =>
      let operation := match r with Err e => show_MigrationError e | Ok _ => $"copy completed" end in
      ret (Err (InternalState (operation ++ $"; cancellation state is poisoned")))
  end.
(** What a migration does after the engine has returned. *)
Definition settle_migration (r : result MigrationError MigrationReceipt) (status_target : str) : WM unit :=
  let* r := retire_cancellation r in
  let* audit_entries := read_audit_entries in
  let* close_after_operation := finish in
  post (MigrationFinished r close_after_operation status_target audit_entries).
Definition migration_worker (plan : MigrationPlan) (cancellation : nat) (status_target : str) : WM unit :=
  let* queue := call QueueNew in
  let* r := attempt (with_memory (migration_callbacks queue cancellation)
                       (on_transaction (execute_migration_with_cancel audit_logger plan))) in
  settle_migration r status_target.

#[export] Instance JournalAudit : TrustedInstallerAudit unit Z := {|
  record := fun operation status details =>
    map_err show_AuditError (audited (log audit_logger operation TI_AUDIT_ACTOR TI_AUDIT_TARGET status details));
  acquire_trustedinstaller_operation_guard :=
    map_err show_AuditError (audited (acquire_operation_guard audit_logger));
  drop_guard := fun guard => windows (close_handle guard);
|}.
#[export] Instance LaunchedManagedProcess : ManagedTrustedInstallerProcess unit LaunchedProcess := {|
  managed_pid := lp_pid;
  terminate := fun p => map_err show_TokenError (windows (Tokens.terminate p TI_TERMINATION_EXIT_CODE));
  wait_for_exit := fun p => map_err show_TokenError (windows (Tokens.wait_for_exit p TI_TERMINATION_TIMEOUT));
  drop_managed := fun _ p => windows (drop_process p);
|}.
Definition console_launcher : M unit str (LaunchedProcess * Z) :=
  map_err show_TokenError (windows
    (let* launch_spec := trustedinstaller_console_launch_spec in
     let* session_id := get_requesting_process_session in
     let* token := duplicate_trustedinstaller_token in
     let* process := launch_process_with_token token launch_spec in
     ret (process, session_id))).
Definition trustedinstaller_worker : WM unit :=
  let* r := attempt (map_err show_TrustedInstallerLaunchError
                       (execute_trustedinstaller_launch console_launcher)) in
  let* audit_entries := read_audit_entries in
  let* _ := finish in
  post (TrustedInstallerFinished r audit_entries).

Definition export_worker : WM unit :=
  let* r := attempt (audited (export_copy audit_logger)) in
  let* _ := finish in
  post (ExportFinished r).

Definition worker_body (w : Worker) : WM unit :=
  match w with
  | ScanWorker => scan_worker
  | RepairWorker plan is_loaded status_target => repair_worker plan is_loaded status_target
  | MigrationWorker plan cancellation status_target => migration_worker plan cancellation status_target
  | TrustedInstallerWorker => trustedinstaller_worker
  | ExportWorker => export_worker
  end.
End Workers.

(** ** Closures queued on the event loop *)
Section Closures.
Context `{Fuel} `{Extern} `{Presentation}.

Definition not_busy {E} : M UiThread E unit := update (set_flag Ui.operation_busy false).

Definition scan_finished {E} (r : result str DiagnosticReport) (audit_entries : audit_result)
    : M UiThread E unit :=
  do* not_busy in
  do* match r with
      | Ok report =>
          let* applied := attempt (cache_and_apply_report report true) in
          match applied with
          | Ok _ => publish_operator_status (scan_completed report)
          | Err error => publish_failure ForScan ($"System") error RETRY
          end
      | Err error => publish_failure ForScan ($"System") error RETRY
      end in
  apply_audit_result audit_entries.

Definition repair_refresh_warning {E} (status_target error : str) : M UiThread E unit :=
  let* s := OperatorStatus_localized ForRepair Warned status_target ($"status.repair_refresh_warning") [] in
  publish_operator_status
    {| os_operation := os_operation s; os_outcome := os_outcome s; os_target := os_target s;
       os_timestamp := os_timestamp s; os_payload := os_payload s;
       raw_details := Some error; recovery_hint_key := RETRY |}.
Definition repair_finished {E} (r : result str unit) (report : option (result str DiagnosticReport))
    (status_target : str) (audit_entries : audit_result) : M UiThread E unit :=
  do* not_busy in
  do* match r with
      | Ok _ =>
          match report with
          | Some (Ok report) =>
              let* applied := attempt (cache_and_apply_report report true) in
              match applied with
              | Ok _ => publish_localized_status ForRepair Success status_target ($"repair.success.message")
              | Err error => publish_failure ForRepair status_target error RETRY
              end
          | Some (Err error) => repair_refresh_warning status_target error
          | None => publish_localized_status ForRepair Success status_target ($"status.completed")
          end
      | Err error => publish_failure ForRepair status_target error RETRY
      end in
  apply_audit_result audit_entries.

(** The terminal presentation is cached, then the status is published; [publish]
    is left out when caching fails. *)
Definition terminal {E} (p : MigrationTerminalPresentation) (status_target : str)
    (publish : M UiThread E unit) : M UiThread E unit :=
  let* applied := attempt (cache_and_apply_migration_terminal p) in
  match applied with
  | Ok _ => publish
  | Err error => publish_failure ForMigration status_target error RETRY
  end.
Definition migration_outcome {E} (r : result MigrationError MigrationReceipt) (status_target : str)
    : M UiThread E unit :=
  match r with
  | Ok receipt =>
      let files := copied_files receipt in
      let bytes := receipt_bytes receipt in
      let manifest_hash := take 16 (manifest_sha256 receipt) in
      do* update (set_number Ui.migration_progress 1) in
      terminal (TerminalSuccess files bytes manifest_hash) status_target
        (publish_status ForMigration Success status_target ($"migration.success")
           [($"files", show_usize files); ($"bytes", dec bytes); ($"hash", manifest_hash)])
  | Err Cancelled =>
      terminal TerminalCancelled status_target
        (publish_localized_status ForMigration WasCancelled status_target ($"status.cancelled"))
  | Err error =>
      terminal (TerminalError (show_MigrationError error)) status_target
        (publish_failure ForMigration status_target (show_MigrationError error) RETRY)
  end.
Definition migration_finished {E} (r : result MigrationError MigrationReceipt)
    (close_after_operation : bool) (status_target : str) (audit_entries : audit_result)
    : M UiThread E unit :=
  do* not_busy in
  do* update (set_flag Ui.migration_running false) in
  do* migration_outcome r status_target in
  do* apply_audit_result audit_entries in
  if close_after_operation then let* _ := call HideWindow in ret tt else ret tt.

Definition trustedinstaller_finished {E} (r : result str Z) (audit_entries : audit_result)
    : M UiThread E unit :=
  do* not_busy in
  do* match r with
      | Ok pid =>
          publish_status ForTrustedInstaller Success TI_AUDIT_TARGET ($"status.ti_success")
            [($"pid", dec pid)]
      | Err error => publish_failure ForTrustedInstaller TI_AUDIT_TARGET error RETRY
      end in
  apply_audit_result audit_entries.

Definition export_finished {E} (r : result AuditError path) : M UiThread E unit :=
  do* not_busy in
  match r with
  | Ok path =>
      publish_status ForExport Success (display path) ($"status.export_success") [($"path", display path)]
  | Err error => publish_failure ForExport ($"Exports") (show_AuditError error) RETRY
  end.

(** The newest progress is shown; the queue is free for the next one. *)
Definition progress_update {E} (queue : nat) : M UiThread E unit :=
  let* state := call (LockQueue queue) in
  match state with
  | Some state =>
      do* call (ReleaseQueue queue empty_queue) in
      match queue_pending state with
      | Some progress => redraw (fun current => apply_migration_progress current progress)
      | None => ret tt
      end
  | None => ret tt
  end.

Definition ui_closure {E} (c : UiClosure) : M UiThread E unit :=
  match c with
  | ScanFinished r audit_entries => scan_finished r audit_entries
  | RepairFinished r report status_target audit_entries =>
      repair_finished r report status_target audit_entries
  | MigrationFinished r close_after_operation status_target audit_entries =>
      migration_finished r close_after_operation status_target audit_entries
  | TrustedInstallerFinished r audit_entries => trustedinstaller_finished r audit_entries
  | ExportFinished r => export_finished r
  | ProgressUpdate queue => progress_update queue
  end.
End Closures.

(** [AppController::new]. *)
Definition fresh_ui_thread (w : MainWindow) (locale_byte : Z) (now : Z) : UiThread :=
  {| window := w; current := locale_byte;
     migration_preflight := Mutex_new None;
     migration_preflight_presentation := Mutex_new NoPresentation;
     last_report := Mutex_new None;
     last_audit_entries := Mutex_new None;
     last_migration_terminal := Mutex_new None;
     last_operator_status := Mutex_new
       {| os_operation := ForApplication; os_outcome := Ready; os_target := $"WinProfile";
          os_timestamp := now; os_payload := Localized ($"status.ready") [];
          raw_details := None; recovery_hint_key := None |} |}.
