(* ===== verification/System.v ===== *)
(** * System: the window, its threads and their interleavings (app-ui/src/main.rs,
    app-ui/ui/main-window.slint)

    The event loop runs one handler or one queued closure at a time; workers
    run beside it.  A step of the system is one call of one thread on the shared
    memory, the beginning of an event, or its end.  Each thread carries what it
    has done to the shared memory so far, which the steps record and do not
    read. *)

From stdpp Require Import base list gmap strings.
From S2P Require Import Prelude Text Path Effects I18n Models Win32 Journal Snapshot Migration Window Shared Launch Controller.

(** ** Events of the window

    A bound property is written before the callback of its control runs.  The
    first event is the binding of the controller, which refreshes the journal
    and scans. *)
Inductive UserEvent : Type :=
| ControllerBound
| SwitchLocale (locale : str)
| ClickScan
| ClickSelect (index : nat)
| ToggleFixBak (v : bool)
| ToggleResetState (v : bool)
| ClickDryRun
| ClickRepair
| EditTarget (v : str)
| PickParent (picked : result str (option path))
| ToggleRoaming (v : bool)
| ToggleDocs (v : bool)
| ClickValidate
| ClickStart
| ClickCancel
| ClickTi
| ClickConfirm
| ClickDismiss
| ClickExport
| ClickClear
| RequestClose.

Definition idle_controls (w : MainWindow) : bool :=
  negb (flag_of w Ui.operation_busy) && negb (modal_visible w).
Definition row_selected (w : MainWindow) : bool :=
  (0 <=? number_of w Ui.selected_idx)%Z && idle_controls w.
Definition repair_execution_enabled (w : MainWindow) : bool :=
  flag_of w Ui.is_elevated && idle_controls w && negb (is_empty (text_of w Ui.selected_sid))
  && negb (flag_of w Ui.selected_loaded)
  && negb (flag_of w Ui.selected_repair_blocked_by_lock_inspection)
  && (flag_of w Ui.repair_fix_bak || flag_of w Ui.repair_reset_state).
Definition migration_plan_complete (w : MainWindow) : bool :=
  negb (is_empty (text_of w Ui.selected_path)) && negb (flag_of w Ui.selected_loaded)
  && negb (is_empty (text_of w Ui.migration_target_path))
  && (flag_of w Ui.migration_include_roaming || flag_of w Ui.migration_include_docs).
Definition start_enabled (w : MainWindow) : bool :=
  flag_of w Ui.is_elevated && flag_of w Ui.migration_preflight_valid && idle_controls w
  && migration_plan_complete w.

Definition enabled (e : UserEvent) (w : MainWindow) : bool :=
  match e with
  | ControllerBound => negb (flag_of w Ui.operation_busy) && negb (flag_of w Ui.confirmation_visible)
  | SwitchLocale _ => language_switch_enabled w
  | ClickScan | ClickSelect _ | ClickExport | ClickClear => idle_controls w
  | ToggleFixBak _ | ToggleResetState _ | EditTarget _ | PickParent _ | ToggleRoaming _ | ToggleDocs _ =>
      row_selected w
  | ClickDryRun | ClickRepair => repair_execution_enabled w
  | ClickValidate => idle_controls w && migration_plan_complete w
  | ClickStart => start_enabled w
  | ClickCancel => flag_of w Ui.migration_running && negb (modal_visible w)
  | ClickTi => flag_of w Ui.is_elevated && idle_controls w
  | ClickConfirm | ClickDismiss => flag_of w Ui.confirmation_visible
  | RequestClose => true
  end.

Section Handler.
Context `{Fuel} `{Extern} `{Presentation}.
Abbreviation UM := (M UiThread Empty_set).

Definition ignore {E A} (m : M UiThread E A) : UM unit := let* _ := attempt m in ret tt.

(** The dialog hides itself, runs the action and forgets its kind. *)
Definition confirm_action (kind : Z) : UM unit :=
  if Z.eqb kind CONFIRM_REPAIR then execute_repair false
  else if Z.eqb kind CONFIRM_TRUSTED_INSTALLER then launch_ti_console
  else ret tt.
Definition confirm : UM unit :=
  do* update (set_flag Ui.confirmation_visible false) in
  let* w := ui in
  do* confirm_action (number_of w Ui.confirmation_kind) in
  update (set_number Ui.confirmation_kind (-1)).

Definition pick_migration_parent (picked : result str (option path)) : UM unit :=
  match picked with
  | Ok (Some parent) => apply_migration_parent parent
  | Ok None => ret tt
  | Err error => report_migration_picker_failure error
  end.

(** The window closes when the handler lets it. *)
Definition close_requested : UM unit :=
  let* response := handle_close_requested in
  match response with
  | HideTheWindow => let* _ := call HideWindow in ret tt
  | KeepWindowShown => ret tt
  end.

Definition handle (e : UserEvent) : UM unit :=
  match e with
  | ControllerBound => do* refresh_audit_logs in scan_profiles
  | SwitchLocale locale => ignore (change_locale locale)
  | ClickScan => scan_profiles
  | ClickSelect index => select_profile index
  | ToggleFixBak v => update (set_flag Ui.repair_fix_bak v)
  | ToggleResetState v => update (set_flag Ui.repair_reset_state v)
  | ClickDryRun => execute_repair true
  | ClickRepair => request_repair_confirmation
  | EditTarget v =>
      do* update (set_text Ui.migration_target_path v) in invalidate_migration_preflight
  | PickParent picked => pick_migration_parent picked
  | ToggleRoaming v =>
      do* update (set_flag Ui.migration_include_roaming v) in invalidate_migration_preflight
  | ToggleDocs v =>
      do* update (set_flag Ui.migration_include_docs v) in invalidate_migration_preflight
  | ClickValidate => prevalidate_migration
  | ClickStart => start_migration
  | ClickCancel => cancel_migration
  | ClickTi => request_ti_confirmation
  | ClickConfirm => confirm
  | ClickDismiss =>
      update (fun w => set_number Ui.confirmation_kind (-1) (set_flag Ui.confirmation_visible false w))
  | ClickExport => export_audit
  | ClickClear => clear_audit_logs
  | RequestClose => close_requested
  end.
End Handler.

(** ** The shared memory *)
Record Memory : Type := {
  active : Z;
  close_after_finish : bool;
  cancellation_slot : Mutex (option nat);
  slot_held : bool;
  flags : gmap nat bool;
  queues : gmap nat (Mutex MigrationProgressQueue * bool);
  memory : AppState;
  memory_held : bool;
}.

Definition with_active (v : Z) (m : Memory) : Memory :=
  {| active := v; close_after_finish := close_after_finish m; cancellation_slot := cancellation_slot m;
     slot_held := slot_held m; flags := flags m; queues := queues m; memory := memory m;
     memory_held := memory_held m |}.
Definition with_close (v : bool) (m : Memory) : Memory :=
  {| active := active m; close_after_finish := v; cancellation_slot := cancellation_slot m;
     slot_held := slot_held m; flags := flags m; queues := queues m; memory := memory m;
     memory_held := memory_held m |}.
Definition with_slot (v : Mutex (option nat)) (h : bool) (m : Memory) : Memory :=
  {| active := active m; close_after_finish := close_after_finish m; cancellation_slot := v;
     slot_held := h; flags := flags m; queues := queues m; memory := memory m;
     memory_held := memory_held m |}.
Definition with_flag (f : nat) (v : bool) (m : Memory) : Memory :=
  {| active := active m; close_after_finish := close_after_finish m;
     cancellation_slot := cancellation_slot m; slot_held := slot_held m; flags := <[f := v]> (flags m);
     queues := queues m; memory := memory m; memory_held := memory_held m |}.
Definition with_queue (q : nat) (v : Mutex MigrationProgressQueue * bool) (m : Memory) : Memory :=
  {| active := active m; close_after_finish := close_after_finish m;
     cancellation_slot := cancellation_slot m; slot_held := slot_held m; flags := flags m;
     queues := <[q := v]> (queues m); memory := memory m; memory_held := memory_held m |}.
Definition with_app_state (v : AppState) (h : bool) (m : Memory) : Memory :=
  {| active := active m; close_after_finish := close_after_finish m;
     cancellation_slot := cancellation_slot m; slot_held := slot_held m; flags := flags m;
     queues := queues m; memory := v; memory_held := h |}.

(** One access: which answer it may have and the memory after it.  A lock that
    is held blocks; a call of the system may answer anything. *)
Definition access (a : shared) (m : Memory) : shared_resp a -> Memory -> Prop :=
  match a return shared_resp a -> Memory -> Prop with
  | Win _ | Spawn _ | UpgradeInEventLoop _ | HideWindow => fun _ m' => m' = m
  | ActiveCompareExchange expected new => fun x m' =>
      x = Z.eqb (active m) expected /\ m' = if x then with_active new m else m
  | ActiveLoad => fun x m' => x = active m /\ m' = m
  | ActiveStore v => fun _ m' => m' = with_active v m
  | CloseLoad => fun x m' => x = close_after_finish m /\ m' = m
  | CloseStore v => fun _ m' => m' = with_close v m
  | CloseSwap v => fun x m' => x = close_after_finish m /\ m' = with_close v m
  | FlagNew v => fun f m' => flags m !! f = None /\ m' = with_flag f v m
  | FlagLoad f => fun x m' => flags m !! f = Some x /\ m' = m
  | FlagStore f v => fun _ m' => m' = with_flag f v m
  | LockCancellation => fun x m' =>
      slot_held m = false /\ x = lock (cancellation_slot m)
      /\ m' = with_slot (cancellation_slot m) (bool_decide (is_Some x)) m
  | ReleaseCancellation v => fun _ m' => m' = with_slot (locked v (cancellation_slot m)) false m
  | QueueNew => fun q m' => queues m !! q = None /\ m' = with_queue q (Mutex_new empty_queue, false) m
  | LockQueue q => fun x m' => exists mutex,
      queues m !! q = Some (mutex, false) /\ x = lock mutex
      /\ m' = with_queue q (mutex, bool_decide (is_Some x)) m
  | ReleaseQueue q v => fun _ m' => exists mutex held,
      queues m !! q = Some (mutex, held) /\ m' = with_queue q (locked v mutex, false) m
  | LockMemory => fun x m' =>
      memory_held m = false /\ x = memory m /\ m' = with_app_state (memory m) true m
  | ReleaseMemory v => fun _ m' => m' = with_app_state v false m
  end.

(** ** What each thread has done to the shared memory *)
Record Held : Type := {
  origin : option nat;   (* the slot when it was locked *)
  deferred : bool;       (* a close was recorded since *)
  clear : bool;          (* no close was pending when the flag was read *)
  marks : list nat;      (* tokens signalled since *)
}.
Record UiGhost : Type := { begun : option OperationKind; held : option Held }.
Definition at_rest : UiGhost := {| begun := None; held := None |}.

Definition on_held (f : Held -> Held) (g : UiGhost) : UiGhost :=
  {| begun := begun g; held := f <$> held g |}.
Definition ui_see (a : shared) : shared_resp a -> UiGhost -> UiGhost :=
  match a return shared_resp a -> UiGhost -> UiGhost with
  | ActiveCompareExchange _ new => fun x g =>
      if x then {| begun := Some (from_raw new); held := held g |} else g
  | ActiveStore _ => fun _ g => {| begun := None; held := held g |}
  | Spawn _ => fun x g => if x then {| begun := None; held := held g |} else g
  | LockCancellation => fun x g =>
      match x with
      | Some slot =>
          {| begun := begun g;
             held := Some {| origin := slot; deferred := false; clear := false; marks := [] |} |}
      | None => g
      end
  | ReleaseCancellation _ => fun _ g => {| begun := begun g; held := None |}
  | CloseLoad => fun x g =>
      if x then g
      else on_held (fun h => {| origin := origin h; deferred := deferred h; clear := true;
                                marks := marks h |}) g
  | CloseStore true => fun _ g =>
      on_held (fun h => {| origin := origin h; deferred := true; clear := false; marks := marks h |}) g
  | FlagStore f true => fun _ g =>
      on_held (fun h => {| origin := origin h; deferred := deferred h; clear := clear h;
                           marks := f :: marks h |}) g
  | _ => fun _ g => g
  end.

(** The closures a worker queues when its work is over. *)
Definition finishing (c : UiClosure) : bool := match c with ProgressUpdate _ => false | _ => true end.
(** [posted]: the event loop has accepted the closure with its result. *)
Record WorkerGhost : Type := { finished : bool; holding : bool; posted : bool }.
Definition started : WorkerGhost := {| finished := false; holding := false; posted := false |}.
(** What it leaves when it returns; its closure may have been refused. *)
Definition retired (g : WorkerGhost) : Prop := finished g = true /\ holding g = false.
Definition worker_see (a : shared) : shared_resp a -> WorkerGhost -> WorkerGhost :=
  match a return shared_resp a -> WorkerGhost -> WorkerGhost with
  | ActiveStore _ => fun _ g => {| finished := true; holding := holding g; posted := posted g |}
  | LockCancellation => fun x g =>
      {| finished := finished g; holding := holding g || bool_decide (is_Some x); posted := posted g |}
  | ReleaseCancellation _ => fun _ g => {| finished := finished g; holding := false; posted := posted g |}
  | UpgradeInEventLoop c => fun x g =>
      {| finished := finished g; holding := holding g; posted := posted g || finishing c && x |}
  | _ => fun _ g => g
  end.

(** ** The authorisation of a migration

    The Start button is lit by a property; what authorises a migration is the
    token.  [ready]: the button is lit only for a plan the token matches. *)
Definition authorises (s : UiThread) : Prop :=
  flag_of (window s) Ui.migration_preflight_valid = true ->
  authorised (content (migration_preflight s)) (migration_plan_from_ui (window s)) = true.
Definition ready (s : UiThread) : Prop :=
  is_poisoned (migration_preflight_presentation s) = false /\ authorises s.

(** ** The system *)
Record Thread : Type := {
  running_kind : OperationKind;
  code : prog (result Empty_set unit * unit);
  did : WorkerGhost;
}.
Record App : Type := {
  ui_thread : UiThread;                                       (* between events *)
  ui_code : option (prog (result Empty_set unit * UiThread)); (* the event being handled *)
  ui_did : UiGhost;
  workers : list Thread;
  closures : list UiClosure;                                  (* the queue of the event loop *)
  shared_memory : Memory;
}.

Section System.
Context `{Fuel} `{Extern} `{JournalCodec} `{SnapshotCodec} `{Sha2} `{Presentation}.
Context (snapshot_engine : SnapshotEngine) (audit_logger : AuditLogger).

(** Starting a thread and queuing a closure succeed with the answer [true]. *)
Definition spawned (a : shared) : shared_resp a -> list Thread :=
  match a return shared_resp a -> list Thread with
  | Spawn w => fun x =>
      if x then [{| running_kind := kind_of w; code := worker_body snapshot_engine audit_logger w tt;
                    did := started |}]
      else []
  | _ => fun _ => []
  end.
Definition queued (a : shared) : shared_resp a -> list UiClosure :=
  match a return shared_resp a -> list UiClosure with
  | UpgradeInEventLoop c => fun x => if x then [c] else []
  | _ => fun _ => []
  end.

Inductive step (s : App) : App -> Prop :=
| step_event e :
    ui_code s = None -> enabled e (window (ui_thread s)) = true ->
    step s {| ui_thread := ui_thread s; ui_code := Some (handle e (ui_thread s)); ui_did := ui_did s;
              workers := workers s; closures := closures s; shared_memory := shared_memory s |}
| step_closure c cs :
    ui_code s = None -> closures s = c :: cs ->
    step s {| ui_thread := ui_thread s; ui_code := Some (ui_closure c (ui_thread s)); ui_did := ui_did s;
              workers := workers s; closures := cs; shared_memory := shared_memory s |}
| step_ui a k x m :
    ui_code s = Some (Call a k) -> access a (shared_memory s) x m ->
    step s {| ui_thread := ui_thread s; ui_code := Some (k x); ui_did := ui_see a x (ui_did s);
              workers := workers s ++ spawned a x; closures := closures s ++ queued a x;
              shared_memory := m |}
| step_ui_done r t :
    ui_code s = Some (Ret (r, t)) ->
    step s {| ui_thread := t; ui_code := None; ui_did := ui_did s; workers := workers s;
              closures := closures s; shared_memory := shared_memory s |}
| step_worker before t after a k x m :
    workers s = before ++ t :: after -> code t = Call a k -> access a (shared_memory s) x m ->
    step s {| ui_thread := ui_thread s; ui_code := ui_code s; ui_did := ui_did s;
              workers := before ++ {| running_kind := running_kind t; code := k x;
                                      did := worker_see a x (did t) |} :: after ++ spawned a x;
              closures := closures s ++ queued a x; shared_memory := m |}.

(** The system starts at rest: nothing runs or is queued, and the window is
    ready and not busy, as it is when the controller is bound to it. *)
Record initial (s : App) : Prop := {
  initial_code : ui_code s = None;
  initial_ghost : ui_did s = at_rest;
  initial_workers : workers s = [];
  initial_closures : closures s = [];
  initial_active : active (shared_memory s) = raw OpIdle;
  initial_close : close_after_finish (shared_memory s) = false;
  initial_held : slot_held (shared_memory s) = false;
  initial_slot : content (cancellation_slot (shared_memory s)) = None;
  initial_ready : ready (ui_thread s);
  initial_idle : flag_of (window (ui_thread s)) Ui.operation_busy = false;
  initial_memory : memory_held (shared_memory s) = false;
  initial_queues : queues (shared_memory s) = ∅;
}.

Inductive reachable : App -> Prop :=
| reachable_initial s : initial s -> reachable s
| reachable_step s s' : reachable s -> step s s' -> reachable s'.
End System.

Lemma fresh_ready w locale_byte now :
  flag_of w Ui.migration_preflight_valid = false -> ready (fresh_ui_thread w locale_byte now).
Proof. intros Hv. split; [done|]. intros Hl. cbn in Hl. congruence. Qed.
