(* ===== verification/Threads.v ===== *)
(** * Threads: each thread of the application, verified alone

    A thread is checked against a monitor of its own calls.  A worker releases
    the operation once, when its work is done.  A function of the event loop
    moves the state of the window along a preorder ([moves]): most keep the
    draft of a migration ([kept]), all keep it authorised ([stays_ready]). *)

From stdpp Require Import base list gmap strings.
From S2P Require Import Prelude Text Path Effects I18n Models Win32 Security SecureFs Storage Journal Snapshot Repair Scanner Migration PlanPaths Tokens Window Shared Launch Controller System.

(** ** What each thread may do *)
Definition may_release (h : Held) (slot : option nat) : Prop :=
  match slot with
  | None => True
  | Some f => f ∈ marks h \/ clear h = true \/ (slot = origin h /\ deferred h = false)
  end.

Definition ui_ok (a : shared) (g : UiGhost) : Prop :=
  match a with
  | ActiveCompareExchange expected new =>
      expected = raw OpIdle /\ begun g = None /\ exists k, k <> OpIdle /\ new = raw k
  | ActiveStore v => v = raw OpIdle /\ begun g <> None
  | Spawn w => begun g = Some (kind_of w)
  | LockCancellation => held g = None
  | ReleaseCancellation slot => exists h, held g = Some h /\ may_release h slot
  | CloseStore v => v = true /\ held g <> None
  | CloseSwap v => v = false
  | FlagStore _ v => v = true
  | _ => True
  end.
Definition ui_protocol : protocol UiGhost := monitor ui_ok ui_see.

(** What a worker may still do once it has released the operation: take the
    deferred close and queue its result.  It makes no call of the system. *)
Definition winding_down (a : shared) : Prop :=
  match a with CloseSwap _ | UpgradeInEventLoop _ => True | _ => False end.
Definition worker_call_ok (a : shared) (g : WorkerGhost) : Prop :=
  match a with
  | ActiveStore v => v = raw OpIdle /\ finished g = false
  | CloseSwap v => v = false
  | LockCancellation => holding g = false
  | ReleaseCancellation slot => holding g = true /\ slot = None
  | FlagStore _ v => v = true
  | UpgradeInEventLoop c => finishing c = true -> finished g = true /\ posted g = false
  | LockMemory => posted g = false
  | ActiveCompareExchange _ _ | CloseStore _ | Spawn _ => False
  | _ => True
  end.
Definition worker_ok (a : shared) (g : WorkerGhost) : Prop :=
  (finished g = true -> winding_down a) /\ worker_call_ok a g.
Definition worker_protocol : protocol WorkerGhost := monitor worker_ok worker_see.

(** Calls that change neither record, and are allowed until the result is posted. *)
Definition quiet (a : shared) : Prop :=
  match a with
  | Win _ | ActiveLoad | FlagNew _ | FlagLoad _ | QueueNew | LockQueue _ | ReleaseQueue _ _
  | LockMemory | ReleaseMemory _ | HideWindow => True
  | UpgradeInEventLoop c => finishing c = false
  | _ => False
  end.

Lemma calls_embed {R} (P : shared -> Prop) h (m : @prog sys_signature R) :
  (forall a, calls P (h a)) -> calls P (embed h m).
Proof.
  intros Hh. induction m as [r|a k IH|e]; simpl; [done| |done].
  by apply calls_bind.
Qed.
Lemma calls_pass (P : shared -> Prop) a : P (Win a) -> calls P (pass a).
Proof. by split. Qed.
Lemma mcalls_windows {S E A} (P : shared -> Prop) (m : @M sys_signature unit E A) :
  (forall a, P (Win a)) -> mcalls P (windows (S:=S) m).
Proof.
  intros HP s. apply calls_bind; [|by intros [r s']]. apply calls_embed. intros a. by apply calls_pass.
Qed.
Lemma mcalls_with_memory {S E A} (P : shared -> Prop) h (m : @M sys_signature AppState E A) :
  P LockMemory -> (forall v, P (ReleaseMemory v)) -> (forall a, calls P (h a)) ->
  mcalls P (with_memory (S:=S) h m).
Proof.
  intros Hl Hr Hh. apply mcalls_bind; [by apply mcalls_call|]. intros v.
  apply mcalls_bind.
  { intros s. apply calls_bind; [by apply calls_embed|by intros r]. }
  intros [r v']. apply mcalls_bind; [apply mcalls_call, Hr|]. intros _. apply mcalls_lift.
Qed.
Lemma mcalls_audited {S E A} (P : shared -> Prop) (m : @M sys_signature AppState E A) :
  P LockMemory -> (forall v, P (ReleaseMemory v)) -> (forall a, P (Win a)) ->
  mcalls P (audited (S:=S) m).
Proof. intros Hl Hr Hw. apply mcalls_with_memory; [done..|]. intros a. by apply calls_pass. Qed.

Lemma quiet_windows {S E A} (m : @M sys_signature unit E A) : mcalls quiet (windows (S:=S) m).
Proof. by apply mcalls_windows. Qed.
Lemma quiet_audited {S E A} (m : @M sys_signature AppState E A) : mcalls quiet (audited (S:=S) m).
Proof. by apply mcalls_audited. Qed.
#[export] Hint Resolve quiet_windows quiet_audited : calls.

(** A quiet function leaves the record of its thread alone. *)
Lemma wp_quiet_worker {S E A} (m : M S E A) s g :
  mcalls quiet m -> finished g = false -> posted g = false -> wpM worker_protocol m (fun _ _ g' => g' = g) s g.
Proof.
  intros Hm Hf Hp. eapply (@wpM_keeps shared_signature _ _ _ _ _ quiet (fun g' => g' = g)); [| |done|done|done].
  - intros a g' Hq ->. split; [congruence|]. destruct a; simpl in *; try done; congruence.
  - intros [] g' x g'' Hq -> Ha; simpl in *; try done; by rewrite Ha, ?Hq, ?andb_false_l, ?orb_false_r; destruct g.
Qed.

Lemma wp_quiet_prog {R} (m : prog R) g : calls quiet m -> wp ui_protocol m (fun _ g' => g' = g) g.
Proof.
  intros Hm. eapply (wp_keeps ui_protocol quiet (fun g' => g' = g)); [| |done|done|done].
  - by intros [].
  - intros [] g' x g'' Hq -> Ha; simpl in *; by subst.
Qed.

(** ** Workers *)

Section Workers.
Context `{Fuel} `{Extern} `{JournalCodec} `{SnapshotCodec} `{Sha2}.
Context (snapshot_engine : SnapshotEngine) (audit_logger : AuditLogger).
Abbreviation WM := (M unit Empty_set).
Abbreviation ends := (fun m g => wpM worker_protocol (m : WM unit) (fun _ _ g' => retired g') tt g).

Lemma worker_then {A} (m : WM A) (f : A -> WM unit) g :
  finished g = false -> posted g = false -> mcalls quiet m -> (forall a, ends (f a) g) -> ends (mbind m f) g.
Proof.
  intros Hd Hp Hm Hf. apply wpM_bind. eapply wpM_mono; [by apply wp_quiet_worker|].
  intros [a|[]] [] g' ->. apply Hf.
Qed.
Lemma worker_finish (c : bool -> UiClosure) :
  (forall b, finishing (c b) = true) -> ends (let* b := finish in post (c b)) started.
Proof.
  intros Hc. apply wpM_bind, wpM_bind. wp_call; [done|]. intros [] g ->.
  wp_call; [done|]. intros b g ->. apply wpM_bind. wp_call; [done|]. intros x g ->.
  by apply wpM_ret.
Qed.

Lemma quiet_log_scan st det : mcalls quiet (log_scan audit_logger st det).
Proof. unfold log_scan. by solve_calls. Qed.
Lemma quiet_read_audit_entries {S E} : mcalls quiet (read_audit_entries (S:=S) (E:=E)).
Proof. unfold read_audit_entries. by solve_calls. Qed.
#[local] Hint Resolve quiet_log_scan quiet_read_audit_entries : calls.

Lemma quiet_scan_result : mcalls quiet (scan_result audit_logger).
Proof. unfold scan_result, audited_scan. by solve_calls. Qed.
Lemma quiet_queue_progress queue progress : mcalls quiet (queue_migration_progress queue progress).
Proof. unfold queue_migration_progress, tracing_error. by solve_calls. Qed.
Lemma quiet_callbacks queue cancellation a : calls quiet (migration_callbacks queue cancellation a).
Proof.
  destruct a; try (by apply calls_pass); [|by split].
  apply calls_bind; [apply quiet_queue_progress|done].
Qed.
Lemma quiet_launch :
  mcalls quiet (execute_trustedinstaller_launch (S:=unit)
    (TrustedInstallerAudit0 := JournalAudit audit_logger) console_launcher).
Proof.
  unfold execute_trustedinstaller_launch, settle_launch, failed_launch, compensate, console_launcher.
  cbn [record acquire_trustedinstaller_operation_guard drop_guard managed_pid terminate wait_for_exit
       drop_managed JournalAudit LaunchedManagedProcess]. by solve_calls.
Qed.

Lemma worker_settle r status_target : ends (settle_migration r status_target) started.
Proof.
  unfold settle_migration, retire_cancellation. apply wpM_bind, wpM_bind. wp_call; [done|].
  intros slot g ->. destruct slot as [slot|].
  - apply wpM_bind. wp_call; [by split|]. intros [] g ->. apply wpM_ret.
    apply worker_then; [done|done|by auto with calls|]. intros entries. by apply worker_finish.
  - apply wpM_ret. apply worker_then; [done|done|by auto with calls|]. intros entries. by apply worker_finish.
Qed.

(** A worker releases the operation exactly once, after its work, then queues
    its closure once, and does not keep the mutex of the slot. *)
Lemma worker_ends w : ends (worker_body snapshot_engine audit_logger w) started.
Proof.
  destruct w as [|plan is_loaded target|plan cancellation target| |]; cbn [worker_body].
  - apply worker_then; [done|done|apply quiet_scan_result|]. intros r.
    apply worker_then; [done|done|by auto with calls|]. intros entries. by apply worker_finish.
  - apply worker_then; [done|done|by solve_calls|]. intros r. apply worker_then; [done|done|by solve_calls|]. intros report.
    apply worker_then; [done|done|by auto with calls|]. intros entries. by apply worker_finish.
  - apply worker_then; [done|done|by solve_calls|]. intros queue. apply worker_then; [done|done| |intros r; apply worker_settle].
    apply mcalls_attempt, mcalls_with_memory; [done..|]. apply quiet_callbacks.
  - apply worker_then; [done|done| |intros r]. { apply mcalls_attempt, mcalls_map_err, quiet_launch. }
    apply worker_then; [done|done|by auto with calls|]. intros entries. by apply worker_finish.
  - apply worker_then; [done|done|by solve_calls|]. intros r. by apply worker_finish.
Qed.
End Workers.

(** ** The draft of a migration *)

(** The part of the window and of the caches [ready] depends on. *)
Definition draft (w : MainWindow) : MigrationPlan * bool :=
  (migration_plan_from_ui w, flag_of w Ui.migration_preflight_valid).
Record kept (s s' : UiThread) : Prop := {
  kept_draft : draft (window s') = draft (window s);
  kept_token : migration_preflight s' = migration_preflight s;
  kept_poison : is_poisoned (migration_preflight_presentation s')
                = is_poisoned (migration_preflight_presentation s);
}.
#[export] Instance kept_preorder : PreOrder kept.
Proof.
  split; [by split|]. intros s1 s2 s3 [? ? ?] [? ? ?]. split; congruence.
Qed.
Definition stays_ready (s s' : UiThread) : Prop := ready s -> ready s'.
#[export] Instance stays_ready_preorder : PreOrder stays_ready.
Proof. split; [by intros s Hs|]. intros s1 s2 s3 H1 H2 Hr. by apply H2, H1. Qed.
Lemma kept_ready s s' : kept s s' -> stays_ready s s'.
Proof.
  intros [Hd Ht Hp] [Hpoison Ha]. split; [by rewrite Hp|]. unfold authorises in *. rewrite Ht.
  pose proof (f_equal fst Hd) as Hplan. pose proof (f_equal snd Hd) as Hv. cbn [fst snd draft] in *.
  by rewrite Hplan, Hv.
Qed.

(** [moves R m]: the function [m] of the event loop leaves the record of its
    thread alone and moves its state along [R]. *)
Definition moves (R : UiThread -> UiThread -> Prop) {E A} (m : M UiThread E A) : Prop :=
  forall s g, wpM ui_protocol m (fun _ s' g' => R s s' /\ g' = g) s g.

Lemma moves_mono (R R' : UiThread -> UiThread -> Prop) {E A} (m : M UiThread E A) :
  (forall s s', R s s' -> R' s s') -> moves R m -> moves R' m.
Proof. intros HR Hm s g. eapply wpM_mono; [apply Hm|]. intros r s' g' [? ->]. by split; [apply HR|]. Qed.

Section Moves.
Context (R : UiThread -> UiThread -> Prop) `{!PreOrder R}.

Lemma moves_ret {E A} (a : A) : moves R (ret (E:=E) a).
Proof. by intros s g. Qed.
Lemma moves_throw {E A} (e : E) : moves R (throw (A:=A) e).
Proof. by intros s g. Qed.
Lemma moves_lift {E A} (r : result E A) : moves R (lift r).
Proof. by intros s g. Qed.
Lemma moves_panic {E A} message : moves R (panic (E:=E) (A:=A) message).
Proof. by intros s g. Qed.
Lemma moves_call {E} a : quiet a -> moves R (call (E:=E) a).
Proof. intros Ha s g. wp_call; [by destruct a|]. intros x g' ->. split; [done|]. by destruct a. Qed.
Lemma moves_bind {E A B} (m : M UiThread E A) (f : A -> M UiThread E B) :
  moves R m -> (forall a, moves R (f a)) -> moves R (mbind m f).
Proof.
  intros Hm Hf s g. apply wpM_bind. eapply wpM_mono; [apply Hm|].
  intros [a|e] s' g' [HR ->]; [|done]. eapply wpM_mono; [apply Hf|].
  intros r s'' g'' [HR' ->]. split; [by transitivity s'|done].
Qed.
Lemma moves_attempt {E E' A} (m : M UiThread E A) : moves R m -> moves R (attempt (E':=E') m).
Proof. intros Hm s g. apply wpM_attempt. apply Hm. Qed.
(** Reading the state: the rest starts from the state that was read. *)
Lemma moves_get {E A} (f : UiThread -> M UiThread E A) :
  (forall s g, wpM ui_protocol (f s) (fun _ s' g' => R s s' /\ g' = g) s g) ->
  moves R (let* s := get in f s).
Proof. intros Hf s g. apply wpM_bind, wpM_get, Hf. Qed.
Lemma moves_put_then {E A} s s1 (m : M UiThread E A) g :
  R s s1 -> moves R m ->
  wpM ui_protocol (do* put s1 in m) (fun _ s' g' => R s s' /\ g' = g) s g.
Proof.
  intros Hs Hm. apply wpM_bind, wpM_put. eapply wpM_mono; [apply Hm|].
  intros r s' g' [HR ->]. split; [by transitivity s1|done].
Qed.
Lemma moves_put {E} s s1 g :
  R s s1 -> wpM ui_protocol (put (E:=E) s1) (fun _ s' g' => R s s' /\ g' = g) s g.
Proof. by intros Hs. Qed.
Lemma moves_modify {E} (f : UiThread -> UiThread) : (forall s, R s (f s)) -> moves R (modify (E:=E) f).
Proof. intros Hf. apply moves_get. intros s g. by apply moves_put. Qed.
Lemma moves_update {E} (f : MainWindow -> MainWindow) :
  (forall s, R s (put_window (f (window s)) s)) -> moves R (update (E:=E) f).
Proof. apply moves_modify. Qed.
Lemma moves_redraw {E} (f : Z -> MainWindow -> MainWindow) :
  (forall s, R s (put_window (f (current s) (window s)) s)) -> moves R (redraw (E:=E) f).
Proof. apply moves_modify. Qed.
Lemma moves_ui {E} : moves R (ui (E:=E)).
Proof. by apply moves_get. Qed.
Lemma moves_windows {E A} (m : @M sys_signature unit E A) : moves R (windows m).
Proof.
  intros s g. apply wp_bind. eapply wp_mono; [by apply wp_quiet_prog, calls_embed|].
  by intros [r []] g' ->.
Qed.
Lemma moves_audited {E A} (m : @M sys_signature AppState E A) : moves R (audited m).
Proof.
  apply moves_bind; [by apply moves_call|]. intros v. apply moves_bind.
  { intros s g. apply wp_bind. eapply wp_mono; [by apply wp_quiet_prog, calls_embed|]. by intros x g' ->. }
  intros [r v']. apply moves_bind; [by apply moves_call|]. intros _. apply moves_lift.
Qed.
End Moves.

Create HintDb moves discriminated.
#[export] Hint Resolve moves_ret moves_throw moves_lift moves_panic moves_ui moves_windows moves_audited : moves.
(** A step of a proof that a function moves the state along a preorder; a
    function that writes the state has its lemma in the database [moves]. *)
Ltac moves_step :=
  first
    [ match goal with |- forall _, _ => intros ? end
    | apply moves_call; [apply _|exact I]
    | apply moves_bind; [apply _| |]
    | apply moves_attempt
    | apply moves_update; intros ?
    | apply moves_redraw; intros ?
    | match goal with |- moves _ (match ?x with _ => _ end) => destruct x end ].
Ltac solve_moves := repeat first [ solve [eauto 2 with moves typeclass_instances] | moves_step ].

(** What the status, the caches and the rows of the journal may change. *)
Record shown (s s' : UiThread) : Prop := {
  shown_flags : flag_of (window s') = flag_of (window s);
  shown_plan : migration_plan_from_ui (window s') = migration_plan_from_ui (window s);
  shown_token : migration_preflight s' = migration_preflight s;
  shown_poison : is_poisoned (migration_preflight_presentation s')
                 = is_poisoned (migration_preflight_presentation s);
}.
Class Shows (R : UiThread -> UiThread -> Prop) : Prop := {
  shows_preorder :: PreOrder R;
  shows s s' : shown s s' -> R s s';
}.
#[export] Hint Mode Shows ! : typeclass_instances.
#[export] Instance shown_preorder : PreOrder shown.
Proof. split; [by split|]. intros s1 s2 s3 [] []. split; congruence. Qed.
#[export] Instance shown_shows : Shows shown.
Proof. by split; [apply _|]. Qed.
#[export] Instance kept_shows : Shows kept.
Proof.
  split; [apply _|]. intros s s' [Hf Hp Ht Hpo]. split; [|done..]. unfold draft. by rewrite Hp, Hf.
Qed.
#[export] Instance stays_ready_shows : Shows stays_ready.
Proof. split; [apply _|]. intros s s' Hs. by apply kept_ready, shows. Qed.

Section Status.
Context `{Presentation} {R : UiThread -> UiThread -> Prop} `{!Shows R}.
#[local] Hint Extern 0 (R _ _) => apply shows; by split : core.

Lemma moves_cache_status status : moves R (cache_and_apply_operator_status status).
Proof.
  apply moves_get. intros s g. destruct (lock _); [|apply moves_throw, _].
  apply moves_put_then; [apply _|by auto|]. apply moves_redraw. by auto.
Qed.
Lemma moves_publish {E} status : moves R (publish_operator_status (E:=E) status).
Proof.
  apply moves_bind; [apply _|apply moves_attempt, moves_cache_status|]. intros [[]|error]; [apply moves_ret, _|].
  apply moves_bind; [apply _| |intros _]; (apply moves_update; by auto).
Qed.
Lemma moves_publish_status {E} operation outcome target key arguments :
  moves R (publish_status (E:=E) operation outcome target key arguments).
Proof.
  apply moves_bind; [apply _| |intros st; apply moves_publish].
  apply moves_bind; [apply _|by apply moves_call; [apply _|]|]. intros now. apply moves_ret, _.
Qed.
Lemma moves_localized {E} operation outcome target key :
  moves R (publish_localized_status (E:=E) operation outcome target key).
Proof. apply moves_publish_status. Qed.
Lemma moves_failure {E} operation target details hint :
  moves R (publish_failure (E:=E) operation target details hint).
Proof.
  apply moves_bind; [apply _| |intros st; apply moves_publish].
  apply moves_bind; [apply _|by apply moves_call; [apply _|]|]. intros now. apply moves_ret, _.
Qed.
Lemma moves_presentation {E} p : moves R (cache_and_apply_migration_preflight_presentation (E:=E) p).
Proof.
  apply moves_get. intros s g. destruct (lock _); [|by apply moves_call; [apply _|]].
  apply moves_put_then; [apply _|by auto|]. destruct (render_preflight _ _); [|apply moves_ret, _].
  apply moves_update. by auto.
Qed.
Lemma moves_cache_entries entries : moves R (cache_and_apply_audit_entries entries).
Proof.
  apply moves_get. intros s g. destruct (lock _); [|apply moves_throw, _].
  apply moves_put_then; [apply _|by auto|]. apply moves_redraw. by auto.
Qed.
Lemma moves_terminal_cache p : moves R (cache_and_apply_migration_terminal p).
Proof.
  apply moves_get. intros s g. destruct (lock _); [|apply moves_throw, _].
  apply moves_put_then; [apply _|by auto|]. apply moves_get. intros s1 g1.
  destruct (lock (migration_preflight_presentation s1)); [|apply moves_throw, _].
  apply moves_put_then; [apply _|by auto|]. apply moves_bind; [apply _|apply moves_update; by auto|].
  intros _. apply moves_ret, _.
Qed.
Lemma moves_apply_audit `{Extern} {E} r : moves R (apply_audit_result (E:=E) r).
Proof.
  destruct r as [entries|error]; [|apply moves_failure].
  apply moves_bind; [apply _|apply moves_attempt, moves_cache_entries|].
  intros [[]|error]; [apply moves_ret, _|apply moves_failure].
Qed.
End Status.
#[export] Hint Resolve moves_publish moves_publish_status moves_localized moves_failure moves_presentation
  moves_apply_audit : moves.
