(* ===== verification/Drafts.v ===== *)
(** * Drafts: every event of the window keeps the Start button honest

    For each handler and closure: what it leaves in the record of the event
    loop, and that a lit Start button stays authorised by the token. *)

From stdpp Require Import base list gmap strings.
From S2P Require Import Prelude Text Path Effects I18n Models Win32 Security SecureFs Storage Journal Snapshot Repair Scanner Migration PlanPaths Tokens Window Shared Launch Controller System Threads.

(** A state where the button is dark is ready. *)
Definition dark (s s' : UiThread) : Prop :=
  flag_of (window s') Ui.migration_preflight_valid = false
  /\ is_poisoned (migration_preflight_presentation s') = is_poisoned (migration_preflight_presentation s).
Lemma dark_ready s s' : dark s s' -> stays_ready s s'.
Proof.
  intros [Hd Hp] [Hr _]. split; [by rewrite Hp|]. intros Hv. by rewrite Hd in Hv.
Qed.
Lemma dark_kept s s1 s2 : dark s s1 -> kept s1 s2 -> dark s s2.
Proof.
  intros [Hd Hp] [Hk _ Hp']. split; [|by rewrite Hp'].
  pose proof (f_equal snd Hk) as Hv. cbn [snd draft] in Hv. by rewrite Hv.
Qed.

Lemma moves_kept {E A} (m : M UiThread E A) : moves kept m -> moves stays_ready m.
Proof. apply moves_mono, kept_ready. Qed.

(** The value of a call of the system, with the state it leaves alone. *)
Lemma wp_windows {E A} (F : A -> Prop) (m : @M sys_signature unit E A)
    (Q : result E A -> UiThread -> UiGhost -> Prop) s g :
  mvalues F m -> (forall e, Q (Err e) s g) -> (forall a, F a -> Q (Ok a) s g) ->
  wpM ui_protocol (windows m) Q s g.
Proof.
  intros Hm He Ha. apply wp_bind.
  assert (returns (fun '(r, _) => match r with Ok a => F a | Err _ => True end) (embed pass (m tt))) as Hr.
  { specialize (Hm tt). induction (m tt) as [r|a k IH|h]; [done| |done]. intros x. apply IH, Hm. }
  eapply wp_mono; [eapply wp_returns; [exact Hr|by apply wp_quiet_prog, calls_embed]|].
  intros [[a|e] []] g' [HF ->]; [by apply Ha|by apply He].
Qed.

Section Drafts.
Context `{Presentation}.

Lemma wp_clear_preflight {E} announce s g :
  wpM ui_protocol (clear_migration_preflight (E:=E) announce) (fun _ s' g' => dark s s' /\ g' = g) s g.
Proof.
  apply wpM_bind, wpM_get, wpM_bind.
  apply (wpM_mono _ _ (fun r s1 g1 => r = Ok tt /\ is_poisoned (migration_preflight_presentation s1)
                                      = is_poisoned (migration_preflight_presentation s) /\ g1 = g)).
  { destruct (lock _); [done|]. unfold tracing_error. wp_call; [done|]. by intros [] g1 ->. }
  intros r s1 g1 (-> & Hp & ->). apply wpM_bind.
  apply (wpM_mono _ _ (fun r s2 g1 => r = Ok tt /\ dark s s2 /\ g1 = g)); [by repeat split|].
  intros r s2 g1 (-> & Hd & ->). eapply wpM_mono; [apply (moves_presentation (R:=kept))|].
  intros r s3 g1 [Hk ->]. split; [by eapply dark_kept|done].
Qed.
(** What follows a cleared preflight may keep the draft or change it. *)
Lemma wp_clear_then {E B} announce (f : unit -> M UiThread E B) s s0 g :
  is_poisoned (migration_preflight_presentation s) = is_poisoned (migration_preflight_presentation s0) ->
  (forall s1, dark s0 s1 -> wpM ui_protocol (f tt) (fun _ s' g' => stays_ready s0 s' /\ g' = g) s1 g) ->
  wpM ui_protocol (let* x := clear_migration_preflight announce in f x)
    (fun _ s' g' => stays_ready s0 s' /\ g' = g) s g.
Proof.
  intros Hp Hf. apply wpM_bind. eapply wpM_mono; [apply wp_clear_preflight|].
  assert (forall s1, dark s s1 -> dark s0 s1) as Hd0.
  { intros s1 [Hd Hp1]. split; [done|congruence]. }
  intros [[]|e] s1 g1 [Hd ->]; [by apply Hf, Hd0|]. split; [by apply dark_ready, Hd0|done].
Qed.
Lemma dark_then {E A} (m : M UiThread E A) s s1 g :
  dark s s1 -> moves kept m -> wpM ui_protocol m (fun _ s' g' => stays_ready s s' /\ g' = g) s1 g.
Proof.
  intros Hd Hm. eapply wpM_mono; [apply Hm|]. intros r s2 g2 [Hk ->].
  split; [by eapply dark_ready, dark_kept|done].
Qed.

(** An edit of the plan clears the token. *)
Lemma moves_edit {E} (f : MainWindow -> MainWindow) :
  moves stays_ready (do* update f in invalidate_migration_preflight (E:=E)).
Proof.
  intros s g. apply wpM_bind, wpM_bind, wpM_get, wpM_put.
  eapply wpM_mono; [apply wp_clear_preflight|]. intros r s' g' [[Hd Hp] ->].
  split; [by apply dark_ready|done].
Qed.

Lemma wp_reset_dark {E} s g :
  wpM ui_protocol (reset_migration_draft (E:=E)) (fun _ s' g' => dark s s' /\ g' = g) s g.
Proof.
  apply wpM_bind. eapply wpM_mono; [apply wp_clear_preflight|].
  intros [[]|e] s1 g1 [Hd ->]; [|done]. apply wpM_bind, wpM_get, wpM_bind.
  apply (wpM_mono _ _ (fun r s2 g1 => dark s s2 /\ g1 = g)).
  { destruct (lock _); [by apply wpM_put|]. unfold tracing_error. wp_call; [done|]. by intros [] g1 ->. }
  intros [[]|e] s2 g1 [Hd2 ->]; [|done]. by apply wpM_bind, wpM_get, wpM_put.
Qed.

Lemma moves_report report : moves stays_ready (cache_and_apply_report report true).
Proof.
  apply moves_get. intros s g. destruct (lock (last_report s)); [|apply moves_throw, _].
  destruct (_ && _); [apply moves_throw, _|]. destruct (_ && _); [apply moves_throw, _|].
  apply wpM_bind, wpM_put, wpM_bind, wpM_bind, wpM_bind, wpM_get, wpM_put, wpM_bind, wpM_bind, wpM_get, wpM_put.
  apply wpM_bind, wpM_get. unfold lock.
  cbn [migration_preflight_presentation put_migration_preflight put_last_migration_terminal put_last_report].
  destruct (is_poisoned _) eqn:Hp.
  - apply wpM_throw. split; [|done]. intros [Hr _]. congruence.
  - apply wpM_put. apply wpM_bind, wpM_get, wpM_put. split; [|done]. by apply dark_ready.
Qed.
End Drafts.

(** ** Handlers that begin an operation *)
Definition begun_with (k : OperationKind) : UiGhost := {| begun := Some k; held := None |}.
Definition settles_in (R : UiThread -> UiThread -> Prop) {A} (m : M UiThread Empty_set A)
    (s : UiThread) (g : UiGhost) : Prop :=
  wpM ui_protocol m (fun _ s' g' => R s s' /\ g' = at_rest) s g.
Abbreviation settles := (settles_in stays_ready).

Lemma moves_settles R {A} (m : M UiThread Empty_set A) s : moves R m -> settles_in R m s at_rest.
Proof. intros Hm. apply Hm. Qed.
Lemma settles_mono (R R' : UiThread -> UiThread -> Prop) {A} (m : M UiThread Empty_set A) s g :
  (forall s1 s2, R s1 s2 -> R' s1 s2) -> settles_in R m s g -> settles_in R' m s g.
Proof. intros HR Hm. eapply wpM_mono; [exact Hm|]. intros r s' g' [Hs ->]. by split; [apply HR|]. Qed.

Lemma settles_kept R `{!PreOrder R} {A B} (m : M UiThread Empty_set A)
    (f : A -> M UiThread Empty_set B) s g :
  moves R m -> (forall a s1, R s s1 -> settles_in R (f a) s1 g) ->
  settles_in R (let* x := m in f x) s g.
Proof.
  intros Hm Hf. apply wpM_bind. eapply wpM_mono; [apply Hm|]. intros [a|[]] s1 g1 [Hs ->].
  eapply wpM_mono; [by apply Hf|]. intros r s2 g2 [Hs2 ->]. split; [|done]. by transitivity s1.
Qed.
Lemma settles_spawn R `{!PreOrder R} w s : settles_in R (spawn w) s (begun_with (kind_of w)).
Proof.
  apply wpM_bind. wp_call; [done|]. intros [] g ->; [by apply wpM_ret|exact I].
Qed.
(** An operation is announced and its thread started. *)
Lemma settles_announced `{Presentation} {R} `{!Shows R} operation outcome target key w s :
  settles_in R (do* publish_localized_status operation outcome target key in spawn w) s
    (begun_with (kind_of w)).
Proof. apply (settles_kept R); [by apply moves_localized|]. intros _ s1 _. apply settles_spawn, _. Qed.

Section Handlers.
Context `{Fuel} `{Extern} `{Presentation}.

(** An operation begins, or nothing has changed but the status. *)
Definition begins (k : OperationKind) (m : M UiThread Empty_set bool) : Prop :=
  forall s, wpM ui_protocol m (fun r s' g' =>
    kept s s' /\ g' = match r with Ok true => begun_with k | _ => at_rest end) s at_rest.

Lemma begins_operation k : k <> OpIdle -> begins k (begin_operation k).
Proof.
  intros Hk s. apply wpM_bind. unfold try_begin. wp_call; [by repeat split; [..|exists k]|].
  intros b g ->. destruct b; cbn [negb ui_see].
  - apply wpM_bind, wpM_bind, wpM_get, wpM_put, wpM_ret. split; [by split|].
    unfold begun_with. f_equal. by destruct k.
  - apply wpM_bind. eapply wpM_mono; [apply (moves_localized (R:=kept))|]. intros [[]|[]] s1 g1 [Hs ->]. by apply wpM_ret.
Qed.
Lemma moves_elevation {R} `{!Shows R} o : moves R (require_elevation (E:=Empty_set) o).
Proof.
  apply moves_bind; [apply _|apply moves_attempt, moves_windows, _|].
  intros [[]|error]; [apply moves_ret, _| |].
  - apply moves_bind; [apply _|apply moves_localized|]. intros _. apply moves_ret, _.
  - apply moves_bind; [apply _|apply moves_failure|]. intros _. apply moves_ret, _.
Qed.
Lemma begins_elevated k : k <> OpIdle -> begins k (elevated_begin k).
Proof.
  intros Hk s. apply wpM_bind. eapply wpM_mono; [apply (moves_elevation (R:=kept))|].
  intros [[]|[]] s1 g1 [Hs ->]; [|by apply wpM_ret].
  eapply wpM_mono; [by apply begins_operation|]. intros r s2 g2 [Hs2 ->]. split; [|done].
  by transitivity s1.
Qed.

(** A handler that does nothing unless the operation begins. *)
Lemma settles_begin {A} k (m : M UiThread Empty_set bool) (f : bool -> M UiThread Empty_set A) s :
  begins k m -> (forall s1, kept s s1 -> settles_in kept (f true) s1 (begun_with k)) ->
  moves kept (f false) -> settles_in kept (let* b := m in f b) s at_rest.
Proof.
  intros Hm Ht Hf. apply wpM_bind. eapply wpM_mono; [apply Hm|]. intros [[]|[]] s1 g1 [Hs ->].
  - eapply wpM_mono; [by apply Ht|]. intros r s2 g2 [Hs2 ->]. split; [by transitivity s1|done].
  - eapply wpM_mono; [apply Hf|]. intros r s2 g2 [Hs2 ->]. split; [by transitivity s1|done].
Qed.

Lemma settles_scan s : settles_in kept scan_profiles s at_rest.
Proof.
  apply (settles_begin OpScan); [by apply begins_operation| |apply moves_ret, _].
  intros s1 _. apply settles_announced.
Qed.
Lemma settles_export s : settles_in kept export_audit s at_rest.
Proof.
  apply (settles_begin OpExport); [by apply begins_operation| |apply moves_ret, _].
  intros s1 _. apply settles_announced.
Qed.
Lemma settles_ti s : settles_in kept launch_ti_console s at_rest.
Proof.
  apply (settles_begin OpTrustedInstaller); [by apply begins_elevated| |apply moves_ret, _].
  intros s1 _. apply settles_announced.
Qed.
Lemma settles_repair dry s : settles_in kept (execute_repair dry) s at_rest.
Proof.
  apply (settles_kept kept); [apply moves_ui, _|]. intros w s1 _.
  destruct (flag_of w _); [by apply moves_settles, moves_localized|].
  apply (settles_begin OpRepair); [by apply begins_elevated| |apply moves_ret, _].
  intros s2 _. apply (settles_kept kept); [apply moves_ui, _|]. intros w' s3 _.
  apply (settles_announced _ _ _ _ (RepairWorker _ _ _)).
Qed.

(** *** The slot of the cancellation token *)
Lemma wp_publish_cancellation c s Q :
  (forall b, Q (Ok b) s (begun_with OpMigration)) ->
  wpM ui_protocol (publish_cancellation (E:=Empty_set) c) Q s (begun_with OpMigration).
Proof.
  intros HQ. apply wpM_bind. wp_call; [done|]. intros [slot|] g ->; [|by apply wpM_ret].
  apply wpM_bind, wpM_bind. wp_call; [done|]. intros [] g ->.
  - wp_call; [done|]. intros [] g ->. apply wpM_bind.
    wp_call; [eexists; split; [done|]; left; by left|]. intros [] g ->. by apply wpM_ret.
  - apply wpM_ret, wpM_bind.
    wp_call; [eexists; split; [done|]; by right; left|]. intros [] g ->. by apply wpM_ret.
Qed.
Lemma settles_begin_migration plan s : settles_in kept (begin_migration plan) s at_rest.
Proof.
  apply (settles_begin OpMigration); [by apply begins_elevated| |apply moves_ret, _].
  intros s1 _. cbn [negb]. apply wpM_bind. wp_call; [done|]. intros c g ->. apply wpM_bind.
  apply wp_publish_cancellation. intros [].
  - cbn [negb]. apply (settles_kept kept); [by apply moves_update|]. intros _ s2 _.
    apply (settles_kept kept); [by apply moves_update|]. intros _ s3 _.
    apply (settles_announced _ _ _ _ (MigrationWorker _ _ _)).
  - cbn [negb]. apply wpM_bind, wpM_bind. wp_call; [done|]. intros [] g ->.
    wp_call; [done|]. intros b g ->. apply (settles_kept kept); [by apply moves_update|]. intros _ s2 _.
    by apply moves_settles, moves_failure.
Qed.

(** The plan is complete, and its source is not loaded. *)
Definition startable (w : MainWindow) : Prop :=
  flag_of w Ui.selected_loaded = false
  /\ is_empty (text_of w Ui.selected_path) || is_empty (text_of w Ui.migration_target_path)
     || (negb (flag_of w Ui.migration_include_roaming) && negb (flag_of w Ui.migration_include_docs)) = false.
Lemma start_complete w : start_enabled w = true -> startable w.
Proof.
  unfold start_enabled, migration_plan_complete. intros [_ Hc]%andb_prop.
  apply andb_prop in Hc as [Hc Hscope]. apply andb_prop in Hc as [Hc Ht]. apply andb_prop in Hc as [Hp Hl].
  apply negb_true_iff in Hl, Ht, Hp. split; [done|]. rewrite Hp, Ht. cbn [orb].
  by rewrite <- negb_orb, Hscope.
Qed.

(** The button is dark and the token is gone. *)
Definition spent (s s' : UiThread) : Prop := dark s s' /\ content (migration_preflight s') = None.
Lemma spent_kept s s1 s2 : spent s s1 -> kept s1 s2 -> spent s s2.
Proof. intros [Hd Ht] Hk. split; [by eapply dark_kept|]. by rewrite (kept_token _ _ Hk). Qed.

Lemma settles_refuse_or_begin (m : M UiThread Empty_set unit) p s :
  (forall s1, settles_in kept m s1 at_rest) ->
  settles_in spent
    (do* cache_and_apply_migration_preflight_presentation p in
     do* update (set_flag Ui.migration_preflight_valid false) in m)
    (put_migration_preflight (locked None (migration_preflight s)) s) at_rest.
Proof.
  intros Hm. apply wpM_bind. eapply wpM_mono; [apply (moves_presentation (R:=kept))|].
  intros [[]|[]] s1 g1 [Hs ->]. apply wpM_bind, wpM_bind, wpM_get, wpM_put.
  eapply wpM_mono; [apply Hm|]. intros r s2 g2 [Hs2 ->]. split; [|done].
  eapply spent_kept; [|exact Hs2]. split; [split; [done|exact (kept_poison _ _ Hs)]|].
  cbn [migration_preflight put_window]. by rewrite (kept_token _ _ Hs).
Qed.
Lemma settles_take s :
  startable (window s) ->
  wpM ui_protocol (start_migration (E:=Empty_set))
    (fun _ s' g' => (if is_poisoned (migration_preflight s) then kept s s' else spent s s') /\ g' = at_rest)
    s at_rest.
Proof.
  intros [Hl Hc]. apply wpM_bind, wpM_bind, wpM_get, wpM_ret.
  unfold validate_migration_source. rewrite Hl.
  cbn [source_path target_path include_roaming_appdata include_personal_folders migration_plan_from_ui].
  rewrite Hc. apply wpM_bind, wpM_bind, wpM_get.
  unfold lock. destruct (is_poisoned (migration_preflight s)) eqn:Hpoison.
  { apply wpM_ret. apply (moves_settles kept), moves_failure. }
  apply wpM_bind, wpM_put, wpM_ret.
  destruct (negb (authorised _ _)).
  - refine (settles_refuse_or_begin _ Changed s _). intros s2. apply moves_settles, moves_localized.
  - refine (settles_refuse_or_begin _ NoPresentation s _). intros s2. apply settles_begin_migration.
Qed.
Lemma settles_start s : start_enabled (window s) = true -> settles start_migration s at_rest.
Proof.
  intros He%start_complete. eapply wpM_mono; [by apply settles_take|].
  intros r s' g' [Hs ->]. split; [|done].
  destruct (is_poisoned _); [by apply kept_ready|by apply dark_ready; destruct Hs].
Qed.

(** Signalling under the mutex of the slot. *)
Definition holds (slot : option nat) (d : bool) (l : list nat) : UiGhost :=
  {| begun := None; held := Some {| origin := slot; deferred := d; clear := false; marks := l |} |}.
Definition signalled (slot : option nat) : list nat := match slot with Some f => [f] | None => [] end.

Lemma settles_lock R {A} (f : option (option nat) -> M UiThread Empty_set A) s :
  settles_in R (f None) s at_rest ->
  (forall slot, settles_in R (f (Some slot)) s (holds slot false [])) ->
  settles_in R (let* x := call LockCancellation in f x) s at_rest.
Proof.
  intros Hn Hs. apply wpM_bind. wp_call; [done|]. intros [slot|] g ->; [apply Hs|apply Hn].
Qed.
Lemma settles_signal R {A} slot d (f : unit -> M UiThread Empty_set A) s :
  settles_in R (f tt) s (holds slot d (signalled slot)) ->
  settles_in R (let* x := signal slot in f x) s (holds slot d []).
Proof.
  intros Hf. apply wpM_bind. destruct slot as [c|]; [|by apply wpM_ret].
  unfold signal. wp_call; [done|]. by intros [] g ->.
Qed.
Lemma settles_release R `{!PreOrder R} slot d s :
  settles_in R (call (ReleaseCancellation slot)) s (holds slot d (signalled slot)).
Proof.
  unfold settles_in. wp_call; [|by intros [] g ->]. eexists. split; [done|].
  destruct slot; [left; by left|done].
Qed.

Lemma settles_cancel R `{!Shows R} s : settles_in R cancel_migration s at_rest.
Proof.
  apply (settles_lock R).
  - apply (settles_kept R); [apply moves_ui, _|]. intros w s1 _. by apply moves_settles, moves_failure.
  - intros slot. apply (settles_kept R); [apply moves_ui, _|]. intros w s1 _. apply wpM_bind.
    destruct slot as [c|].
    + apply wpM_bind. unfold signal. wp_call; [done|]. intros [] g ->.
      eapply wpM_mono; [apply (moves_localized (R:=R))|]. intros [[]|[]] s2 g2 [Hs ->].
      eapply wpM_mono; [apply (settles_release R (Some c))|]. intros r s3 g3 [Hs3 ->]. split; [by transitivity s2|done].
    + apply wpM_ret. apply (settles_release R None).
Qed.
Lemma settles_defer R `{!Shows R} s : settles_in R defer_close s at_rest.
Proof.
  apply (settles_lock R).
  - apply (settles_kept R); [apply moves_ui, _|]. intros w s2 _. by apply moves_settles, moves_failure.
  - intros slot. apply (settles_kept R); [apply moves_ui, _|]. intros w s2 _. apply wpM_bind.
    unfold request_close_after_finish. wp_call; [done|]. intros [] g ->. apply (settles_signal R).
    apply (settles_kept R); [apply moves_localized|]. intros _ s3 _. apply (settles_release R).
Qed.
Lemma settles_close R `{!Shows R} s : settles_in R handle_close_requested s at_rest.
Proof.
  apply (settles_kept R); [|intros k s1 _].
  { apply moves_bind; [apply _|by apply moves_call; [apply _|]|]. intros v. apply moves_ret, _. }
  destruct (close_policy k); [apply moves_settles, moves_ret, _| |].
  { apply moves_settles, moves_bind; [apply _|apply moves_localized|].
    intros _. apply moves_ret, _. }
  apply wpM_bind. eapply wpM_mono; [by apply (settles_defer R)|]. by intros [[]|[]] s2 g2 [Hs ->].
Qed.
Lemma settles_close_requested R `{!Shows R} s : settles_in R close_requested s at_rest.
Proof.
  apply wpM_bind. eapply wpM_mono; [by apply (settles_close R)|]. intros [[]|[]] s1 g1 [Hs ->].
  - apply wpM_bind. wp_call; [done|]. by intros b g ->.
  - by apply wpM_ret.
Qed.
End Handlers.

(** ** The other handlers *)
Section Others.
Context `{Fuel} `{Extern} `{Presentation}.

Lemma draft_selected p w :
  pe_sid p = text_of w Ui.selected_sid -> pe_profile_path p = text_of w Ui.selected_path ->
  draft (apply_selected_profile p w) = draft w.
Proof. intros Hs Hp. unfold draft, migration_plan_from_ui. cbn. by rewrite Hs, Hp. Qed.
Lemma draft_report current r w : draft (render_report current r false w) = draft w.
Proof.
  unfold render_report, still_selected. cbv zeta.
  destruct (_ <? _)%Z; [done|]. destruct (_ !! _) as [p|]; [|done].
  destruct (str_eqb _ _) eqn:Hs; [|done]. destruct (str_eqb (pe_profile_path p) _) eqn:Hp; [|done].
  apply bool_decide_eq_true in Hs, Hp. cbn [andb]. by rewrite draft_selected.
Qed.
Lemma draft_app_strings t w : draft (apply_app_strings t w) = draft w.
Proof.
  unfold apply_app_strings. generalize (app_string_table t) as l. intros l. revert w.
  induction l as [|[name text] l IH]; intros w; [done|]. simpl. by rewrite IH.
Qed.

Lemma moves_not_editable {R} `{!Shows R} {E} : moves R (not_editable (E:=E)).
Proof.
  apply moves_bind; [apply _| |intros k].
  { apply moves_bind; [apply _|by apply moves_call; [apply _|]|]. intros v. apply moves_ret, _. }
  apply moves_bind; [apply _|apply moves_ui, _|]. intros w. apply moves_ret, _.
Qed.
Lemma draft_cached report entries presentation terminal status current w :
  draft (render_cached report entries presentation terminal status current w) = draft w.
Proof.
  unfold render_cached.
  assert (draft (match report with Some r => render_report current r false w | None => w end) = draft w) as <-.
  { destruct report; [apply draft_report|done]. }
  by destruct entries, (render_preflight current presentation), terminal.
Qed.
Lemma moves_change_locale locale : moves kept (change_locale locale).
Proof.
  apply moves_bind; [apply _|apply moves_not_editable|]. intros []; [apply moves_ret, _|].
  apply moves_get. intros s g.
  destruct (lock (last_report s)), (lock (last_audit_entries s)), (lock (last_migration_terminal s));
    try (apply moves_throw, _).
  apply wpM_bind, wpM_bind, wpM_get. destruct (lock (migration_preflight_presentation s)); [|by apply wpM_throw].
  apply wpM_ret. destruct (lock (last_operator_status s)); [|by apply wpM_throw].
  apply wpM_bind, wpM_lift. unfold set_locale_and_app_strings.
  destruct (I18n.set_locale locale) as [c|e]; cbn [result_bind result_map_err]; [|done].
  pose proof (draft_app_strings (tr c) (window s)) as Hd. revert Hd.
  generalize (apply_app_strings (tr c) (window s)) as w. intros w Hd.
  apply moves_put_then; [apply _|by split|]. apply moves_bind; [apply _| |intros _; apply moves_ret, _].
  apply moves_redraw. intros s1. split; [apply draft_cached|done..].
Qed.

Lemma moves_select {E} index : moves stays_ready (select_profile (E:=E) index).
Proof.
  intros s g. apply wpM_bind, wpM_bind, wpM_get, wpM_ret.
  destruct (ui_profiles (window s) !! index) as [p|]; [|by apply wpM_ret]. apply wpM_bind.
  destruct (str_eqb (text_of (window s) Ui.selected_sid) (pe_sid p)) eqn:Hs;
    [destruct (str_eqb (text_of (window s) Ui.selected_path) (pe_profile_path p)) eqn:Hp|]; cbn [negb orb].
  1:{ apply bool_decide_eq_true in Hs, Hp. apply wpM_ret, wpM_bind, wpM_get, wpM_put.
      split; [|done]. apply kept_ready. split; [|done..].
      apply (draft_selected p (set_number Ui.selected_idx (as_i32 (Z.of_nat index)) (window s))); by symmetry. }
  all: eapply wpM_mono; [apply wp_reset_dark|]; intros [[]|e] s1 g1 [[Hd Hpp] ->];
    [|by split; [apply dark_ready|]]; apply wpM_bind, wpM_get, wpM_put; (split; [by apply dark_ready|done]).
Qed.

Lemma moves_parent {E} parent : moves stays_ready (apply_migration_parent (E:=E) parent).
Proof.
  apply moves_bind; [apply _|apply moves_kept, moves_not_editable|]. intros []; [apply moves_ret, _|].
  apply moves_bind; [apply _|apply moves_ui, _|]. intros w. apply moves_edit.
Qed.
Lemma moves_picker_failure {R} `{!Shows R} {E} details : moves R (report_migration_picker_failure (E:=E) details).
Proof.
  apply moves_bind; [apply _|apply moves_presentation|]. intros _.
  apply moves_bind; [apply _|apply moves_ui, _|]. intros w. apply moves_failure.
Qed.
Lemma moves_repair_confirmation {E} : moves kept (request_repair_confirmation (E:=E)).
Proof.
  apply moves_get. intros s g. destruct (flag_of _ _); [apply moves_localized|].
  destruct (is_empty _); [apply moves_localized|]. destruct (is_empty _); [apply moves_localized|].
  by apply moves_redraw.
Qed.
Lemma moves_clear_logs {R} `{!Shows R} {E} : moves R (clear_audit_logs (E:=E)).
Proof.
  apply moves_bind; [apply _|apply moves_attempt, moves_audited, _|]. intros [[]|error]; [|apply moves_failure].
  apply moves_bind; [apply _|apply moves_attempt, moves_cache_entries|].
  intros [[]|error]; [apply moves_localized|apply moves_failure].
Qed.

(** The token a successful prevalidation leaves authorises the plan it read. *)
Lemma token_authorises plan v :
  preflight_of plan v -> authorised (Some (MigrationPreflightToken_new plan v)) plan = true.
Proof.
  intros [Hs Ht]. unfold authorised, matches, path_eqb. simpl. rewrite Hs, Ht, !same_components_refl.
  rewrite !eqb_reflx. unfold str_eqb. by rewrite !bool_decide_true.
Qed.
Lemma moves_prevalidate {E} : moves stays_ready (prevalidate_migration (E:=E)).
Proof.
  apply moves_bind; [apply _|apply moves_kept, moves_not_editable|]. intros []; [apply moves_ret, _|].
  intros s g. apply wpM_bind, wpM_bind, wpM_get, wpM_ret. unfold validate_migration_source.
  destruct (flag_of _ _).
  { apply wp_clear_then; [done|]. intros s1 Hd. eapply dark_then; [exact Hd|].
    apply moves_bind; [apply _|apply moves_presentation|]. intros _. apply moves_localized. }
  apply wpM_bind, wpM_attempt. eapply (wp_windows (preflight_of (migration_plan_from_ui (window s)))).
  { apply prevalidated_paths. }
  - intros e. apply wp_clear_then; [done|]. intros s1 Hd. eapply dark_then; [exact Hd|].
    apply moves_bind; [apply _|apply moves_presentation|]. intros _. apply moves_failure.
  - intros v Hv. apply wpM_bind, wpM_get. destruct (lock (migration_preflight s)) eqn:Hlock.
    2:{ by apply moves_kept, moves_failure. }
    apply wpM_bind, wpM_put, wpM_bind, wpM_bind, wpM_get, wpM_put.
    eapply wpM_mono; [apply (moves_presentation (R:=kept))|]. intros r s2 g2 [Hk ->]. split; [|done].
    intros [Hpoison _]. apply (kept_ready _ _ Hk). split; [done|]. intros _. by apply token_authorises.
Qed.
End Others.

(** ** Closures *)
Section Closures.
Context `{Fuel} `{Extern} `{Presentation}.

Lemma moves_not_busy {E} : moves kept (not_busy (E:=E)).
Proof. by apply moves_update. Qed.
Lemma moves_then_audit {E} (m : M UiThread E unit) r :
  moves stays_ready m -> moves stays_ready (do* not_busy in do* m in apply_audit_result r).
Proof.
  intros Hm. apply moves_bind; [apply _|apply moves_kept, moves_not_busy|]. intros _.
  apply moves_bind; [apply _|exact Hm|]. intros _. apply moves_kept, moves_apply_audit.
Qed.
Lemma moves_applied {E} report (f : result str unit -> M UiThread E unit) :
  (forall r, moves kept (f r)) ->
  moves stays_ready (let* r := attempt (cache_and_apply_report report true) in f r).
Proof.
  intros Hf. apply moves_bind; [apply _|apply moves_attempt, moves_report|]. intros r.
  apply moves_kept, Hf.
Qed.
Lemma moves_scan_finished {E} r entries : moves stays_ready (scan_finished (E:=E) r entries).
Proof.
  apply moves_then_audit. destruct r as [report|error]; [|apply moves_kept, moves_failure].
  apply moves_applied. intros [[]|error]; [apply moves_publish|apply moves_failure].
Qed.
Lemma moves_refresh_warning {R} `{!Shows R} {E} target error : moves R (repair_refresh_warning (E:=E) target error).
Proof.
  apply moves_bind; [apply _| |intros st; apply moves_publish].
  apply moves_bind; [apply _|by apply moves_call; [apply _|]|]. intros now. apply moves_ret, _.
Qed.
Lemma moves_repair_finished {E} r report target entries :
  moves stays_ready (repair_finished (E:=E) r report target entries).
Proof.
  apply moves_then_audit. destruct r as [[]|error]; [|apply moves_kept, moves_failure].
  destruct report as [[report|error]|]; [|apply moves_kept, moves_refresh_warning|apply moves_kept, moves_localized].
  apply moves_applied. intros [[]|error]; [apply moves_localized|apply moves_failure].
Qed.
Lemma moves_terminal {R} `{!Shows R} {E} p target (publish : M UiThread E unit) :
  moves R publish -> moves R (terminal p target publish).
Proof.
  intros Hp. apply moves_bind; [apply _|apply moves_attempt, moves_terminal_cache|].
  intros [message|error]; [exact Hp|apply moves_failure].
Qed.
Lemma moves_migration_outcome {E} r target : moves kept (migration_outcome (E:=E) r target).
Proof.
  destruct r as [receipt|e].
  2:{ destruct e eqn:He; cbn [migration_outcome];
        match goal with
        | |- moves kept (terminal TerminalCancelled _ _) => apply moves_terminal, moves_localized
        | _ => apply moves_terminal, moves_failure
        end. }
  apply moves_bind; [apply _|by apply moves_update|]. intros _. apply moves_terminal, moves_publish_status.
Qed.
Lemma moves_migration_finished {E} r close target entries :
  moves kept (migration_finished (E:=E) r close target entries).
Proof.
  apply moves_bind; [apply _|apply moves_not_busy|]. intros _.
  apply moves_bind; [apply _|by apply moves_update|]. intros _.
  apply moves_bind; [apply _|apply moves_migration_outcome|]. intros _.
  apply moves_bind; [apply _|apply moves_apply_audit|]. intros _. destruct close; [|apply moves_ret, _].
  apply moves_bind; [apply _|by apply moves_call; [apply _|]|]. intros b. apply moves_ret, _.
Qed.
Lemma moves_progress {R} `{!Shows R} {E} queue : moves R (progress_update (E:=E) queue).
Proof.
  apply moves_bind; [apply _|by apply moves_call; [apply _|]|]. intros [state|]; [|apply moves_ret, _].
  apply moves_bind; [apply _|by apply moves_call; [apply _|]|]. intros _.
  destruct (queue_pending state); [apply moves_redraw; intros s; apply shows; by split|apply moves_ret, _].
Qed.

Lemma moves_closure c : moves stays_ready (ui_closure (E:=Empty_set) c).
Proof.
  destruct c as [r entries|r report target entries|r close target entries|r entries|r|queue]; cbn [ui_closure].
  - apply moves_scan_finished.
  - apply moves_repair_finished.
  - apply moves_kept, moves_migration_finished.
  - apply moves_then_audit, moves_kept. destruct r; [apply moves_publish_status|apply moves_failure].
  - apply moves_kept, moves_bind; [apply _|apply moves_not_busy|]. intros _.
    destruct r; [apply moves_publish_status|apply moves_failure].
  - apply moves_kept, moves_progress.
Qed.

Lemma settles_confirm s : settles_in kept confirm s at_rest.
Proof.
  apply (settles_kept kept); [by apply moves_update|]. intros _ s1 _.
  apply (settles_kept kept); [apply moves_ui, _|]. intros w s2 _. apply wpM_bind.
  apply (wpM_mono _ _ (fun _ s' g' => kept s2 s' /\ g' = at_rest)).
  - unfold confirm_action. destruct (Z.eqb _ _); [apply settles_repair|].
    destruct (Z.eqb _ _); [apply settles_ti|]. by apply wpM_ret.
  - intros [[]|[]] s3 g3 [Hs ->]. apply wpM_bind, wpM_get, wpM_put. split; [|done].
    transitivity s3; [exact Hs|by split].
Qed.
Lemma settles_of {A} (m : M UiThread Empty_set A) s :
  settles_in kept m s at_rest -> settles m s at_rest.
Proof. apply settles_mono, kept_ready. Qed.

(** Every event the window can deliver leaves its record at rest and a lit
    Start button authorised. *)
Lemma settles_event e s : enabled e (window s) = true -> settles (handle e) s at_rest.
Proof.
  intros He. destruct e; cbn [handle enabled] in *.
  - apply settles_of, (settles_kept kept); [|intros _ s1 _; apply settles_scan].
    apply moves_bind; [apply _|apply moves_attempt, moves_audited, _|]. intros r. apply moves_apply_audit.
  - apply moves_settles, moves_kept, moves_bind; [apply _|apply moves_attempt, moves_change_locale|].
    intros r. apply moves_ret, _.
  - apply settles_of, settles_scan.
  - apply moves_settles, moves_select.
  - by apply moves_settles, moves_kept, moves_update.
  - by apply moves_settles, moves_kept, moves_update.
  - apply settles_of, settles_repair.
  - apply moves_settles, moves_kept, moves_repair_confirmation.
  - apply moves_settles, moves_edit.
  - apply moves_settles. destruct picked as [[parent|]|error];
      [apply moves_parent|apply moves_ret, _|apply moves_kept, moves_picker_failure].
  - apply moves_settles, moves_edit.
  - apply moves_settles, moves_edit.
  - apply moves_settles, moves_prevalidate.
  - by apply settles_start.
  - apply settles_of, settles_cancel, _.
  - by apply moves_settles, moves_kept, moves_redraw.
  - apply settles_of, settles_confirm.
  - by apply moves_settles, moves_kept, moves_update.
  - apply settles_of, settles_export.
  - apply moves_settles, moves_kept, moves_clear_logs.
  - apply settles_of, settles_close_requested, _.
Qed.
End Closures.
