(* ===== verification/Schedules.v ===== *)
(** * Schedules: executions of the application that can be computed

    A schedule says which thread moves next; the system answers its calls with
    fixed values.  A state reached by a schedule is reachable ([play_reachable]),
    so the examples below are executions of the model. *)

From stdpp Require Import base list gmap strings.
From S2P Require Import Prelude Text Path Effects I18n Models Win32 SecureFs Storage Journal Rotation Snapshot Repair Migration Window Shared Launch Controller System.

Section Play.
Context `{Fuel} `{Extern} `{JournalCodec} `{SnapshotCodec} `{Sha2} `{Presentation}.
Context (snapshot_engine : SnapshotEngine) (audit_logger : AuditLogger).
Context (system : forall a : sys, sys_resp a).

Definition fresh {A} (m : gmap nat A) : nat := base.fresh (dom m).

(** The answer of an access when it is not blocked; threads start and closures
    are queued. *)
Definition answer (a : shared) (m : Memory) : option (shared_resp a * Memory) :=
  match a return option (shared_resp a * Memory) with
  | Win a => Some (system a, m)
  | ActiveCompareExchange expected new =>
      Some (Z.eqb (active m) expected, if Z.eqb (active m) expected then with_active new m else m)
  | ActiveLoad => Some (active m, m)
  | ActiveStore v => Some (tt, with_active v m)
  | CloseLoad => Some (close_after_finish m, m)
  | CloseStore v => Some (tt, with_close v m)
  | CloseSwap v => Some (close_after_finish m, with_close v m)
  | FlagNew v => Some (fresh (flags m), with_flag (fresh (flags m)) v m)
  | FlagLoad f => match flags m !! f with Some v => Some (v, m) | None => None end
  | FlagStore f v => Some (tt, with_flag f v m)
  | LockCancellation =>
      if slot_held m then None
      else Some (lock (cancellation_slot m),
                 with_slot (cancellation_slot m) (bool_decide (is_Some (lock (cancellation_slot m)))) m)
  | ReleaseCancellation v => Some (tt, with_slot (locked v (cancellation_slot m)) false m)
  | QueueNew => Some (fresh (queues m), with_queue (fresh (queues m)) (Mutex_new empty_queue, false) m)
  | LockQueue q =>
      match queues m !! q with
      | Some (mutex, false) => Some (lock mutex, with_queue q (mutex, bool_decide (is_Some (lock mutex))) m)
      | _ => None
      end
  | ReleaseQueue q v =>
      match queues m !! q with
      | Some (mutex, held) => Some (tt, with_queue q (locked v mutex, false) m)
      | None => None
      end
  | LockMemory => if memory_held m then None else Some (memory m, with_app_state (memory m) true m)
  | ReleaseMemory v => Some (tt, with_app_state v false m)
  | Spawn _ | UpgradeInEventLoop _ | HideWindow => Some (true, m)
  end.

Lemma answer_access a m x m' : answer a m = Some (x, m') -> access a m x m'.
Proof.
  destruct a; cbn [answer access]; intros Ha;
    try (injection Ha as <- <-; done).
  - injection Ha as <- <-. split; [|done]. apply not_elem_of_dom, is_fresh.
  - destruct (flags m !! flag) eqn:Hf; [|done]. by injection Ha as <- <-.
  - destruct (slot_held m); [done|]. by injection Ha as <- <-.
  - injection Ha as <- <-. split; [|done]. apply not_elem_of_dom, is_fresh.
  - destruct (queues m !! queue) as [[mutex []]|] eqn:Hq; [done| |done]. injection Ha as <- <-.
    by exists mutex.
  - destruct (queues m !! queue) as [[mutex held]|] eqn:Hq; [|done]. injection Ha as <- <-.
    by exists mutex, held.
  - destruct (memory_held m) eqn:Hm; [done|]. by injection Ha as <- <-.
Qed.

(** A move: an event begins, a closure begins, or a thread makes its next call;
    [Loop n] lets the event loop move [n] times, [Work n] the first worker. *)
Inductive move : Type := Event (e : UserEvent) | Closure | Loop (n : nat) | Work (n : nat).

Definition begin_event (e : UserEvent) (s : App) : option App :=
  match ui_code s with
  | None =>
      if enabled e (window (ui_thread s))
      then Some {| ui_thread := ui_thread s; ui_code := Some (handle e (ui_thread s)); ui_did := ui_did s;
                   workers := workers s; closures := closures s; shared_memory := shared_memory s |}
      else None
  | Some _ => None
  end.
Definition begin_closure (s : App) : option App :=
  match ui_code s, closures s with
  | None, c :: cs =>
      Some {| ui_thread := ui_thread s; ui_code := Some (ui_closure c (ui_thread s)); ui_did := ui_did s;
              workers := workers s; closures := cs; shared_memory := shared_memory s |}
  | _, _ => None
  end.
Definition loop_once (s : App) : option App :=
  match ui_code s with
  | Some (Call a k) =>
      match answer a (shared_memory s) with
      | Some (x, m) =>
          Some {| ui_thread := ui_thread s; ui_code := Some (k x); ui_did := ui_see a x (ui_did s);
                  workers := workers s ++ spawned snapshot_engine audit_logger a x;
                  closures := closures s ++ queued a x; shared_memory := m |}
      | None => None
      end
  | Some (Ret (r, t)) =>
      Some {| ui_thread := t; ui_code := None; ui_did := ui_did s; workers := workers s;
              closures := closures s; shared_memory := shared_memory s |}
  | _ => None
  end.
Definition work_once (s : App) : option App :=
  match workers s with
  | t :: after =>
      match code t with
      | Call a k =>
          match answer a (shared_memory s) with
          | Some (x, m) =>
              Some {| ui_thread := ui_thread s; ui_code := ui_code s; ui_did := ui_did s;
                      workers := {| running_kind := running_kind t; code := k x;
                                    did := worker_see a x (did t) |}
                                 :: after ++ spawned snapshot_engine audit_logger a x;
                      closures := closures s ++ queued a x; shared_memory := m |}
          | None => None
          end
      | _ => None
      end
  | [] => None
  end.

(** A thread that is blocked or has ended does not move. *)
Fixpoint repeat_move (n : nat) (f : App -> option App) (s : App) : App :=
  match n with
  | O => s
  | S n' => match f s with Some s' => repeat_move n' f s' | None => s end
  end.
Definition make (v : move) (s : App) : App :=
  match v with
  | Event e => default s (begin_event e s)
  | Closure => default s (begin_closure s)
  | Loop n => repeat_move n loop_once s
  | Work n => repeat_move n work_once s
  end.
Definition play (schedule : list move) (s : App) : App := foldl (fun s v => make v s) s schedule.

Lemma loop_once_step s s' : loop_once s = Some s' -> step snapshot_engine audit_logger s s'.
Proof.
  unfold loop_once. destruct (ui_code s) as [[[r t]|a k|h]|] eqn:Hc; try done.
  - intros [= <-]. by eapply step_ui_done.
  - destruct (answer a _) as [[x m]|] eqn:Ha; [|done]. intros [= <-].
    eapply step_ui; [done|by apply answer_access].
Qed.
Lemma work_once_step s s' : work_once s = Some s' -> step snapshot_engine audit_logger s s'.
Proof.
  unfold work_once. destruct (workers s) as [|t after] eqn:Hw; [done|].
  destruct (code t) as [r|a k|h] eqn:Ht; try done. destruct (answer a _) as [[x m]|] eqn:Ha; [|done].
  intros [= <-]. eapply (step_worker _ _ s []); [done|done|by apply answer_access].
Qed.
Abbreviation steps := (rtc (step snapshot_engine audit_logger)).
Lemma repeat_steps n f s :
  (forall s s', f s = Some s' -> step snapshot_engine audit_logger s s') -> steps s (repeat_move n f s).
Proof.
  intros Hf. revert s. induction n as [|n IH]; intros s; [done|]. simpl.
  destruct (f s) as [s'|] eqn:Hs'; [|done]. eapply rtc_l; [by apply Hf|apply IH].
Qed.
Lemma make_steps v s : steps s (make v s).
Proof.
  destruct v; cbn [make].
  - unfold begin_event. destruct (ui_code s) eqn:Hc; [done|]. destruct (enabled _ _) eqn:He; [|done].
    by apply rtc_once, step_event.
  - unfold begin_closure. destruct (ui_code s) eqn:Hc; [done|]. destruct (closures s) as [|c cs] eqn:Hq; [done|].
    by apply rtc_once, step_closure.
  - apply repeat_steps, loop_once_step.
  - apply repeat_steps, work_once_step.
Qed.
Lemma play_steps schedule s : steps s (play schedule s).
Proof.
  unfold play. revert s. induction schedule as [|v l IH]; intros s; [done|].
  etransitivity; [apply (make_steps v)|apply IH].
Qed.
Lemma steps_reachable s s' :
  reachable snapshot_engine audit_logger s -> steps s s' -> reachable snapshot_engine audit_logger s'.
Proof. intros Hs. induction 1 as [|s s1 s' Hstep _ IH]; [done|]. apply IH. by eapply reachable_step. Qed.
Lemma play_reachable schedule s :
  reachable snapshot_engine audit_logger s -> reachable snapshot_engine audit_logger (play schedule s).
Proof. intros Hs. eapply steps_reachable, play_steps. exact Hs. Qed.
End Play.

(** ** A sample application *)
Section Sample.

(** Every call answers with a success, a one or an empty value; a call that
    reports bytes reports none. *)
Definition agreeable (a : sys) : sys_resp a.
Proof.
  destruct a; cbn;
    repeat first
      [ exact true | exact 1%Z | exact tt | exact [] | exact None
      | exact (Err (IoOther [])) | exact (Ok tt) | split | constructor ].
Defined.

Definition sample_presentation : Presentation := {|
  i18n_instance := Err (UnsupportedLocale []);
  show_I18nError := fun _ => [];
  format_display := fun _ => [];
|}.
Definition sample_window : MainWindow := {|
  text_of := fun p => match p with
                      | Ui.selected_sid => $"S-1-5-21-7"
                      | Ui.selected_path => $"C:\Users\Ada"
                      | Ui.migration_target_path => $"D:\Ada-migrated"
                      | _ => []
                      end;
  flag_of := fun p => match p with
                      | Ui.is_elevated | Ui.migration_preflight_valid | Ui.migration_include_docs => true
                      | _ => false
                      end;
  number_of := fun _ => 0%Z;
  ui_profiles := []; ui_audit_entries := []; selected_issues := []; selected_locking_processes := [];
  app_strings := fun _ => [];
|}.
Definition sample_token : MigrationPreflightToken :=
  MigrationPreflightToken_new (migration_plan_from_ui sample_window)
    {| mp_source_path := encode_utf16 ($"C:\Users\Ada"); mp_target_path := encode_utf16 ($"D:\Ada-migrated") |}.
Definition sample_thread : UiThread :=
  put_migration_preflight (Mutex_new (Some sample_token)) (fresh_ui_thread sample_window 0 0).
Definition sample_app : App := {|
  ui_thread := sample_thread; ui_code := None; ui_did := at_rest; workers := []; closures := [];
  shared_memory := {|
    active := raw OpIdle; close_after_finish := false; cancellation_slot := Mutex_new None;
    slot_held := false; flags := ∅; queues := ∅;
    memory := {| memory_buffer := []; buffer_poisoned := false; snapshot_sequence := 0 |};
    memory_held := false |};
|}.
Lemma sample_initial : initial sample_app.
Proof. split; try done. Qed.

#[local] Instance sample_fuel : Fuel := 20.
#[local] Existing Instance sample_extern.
#[local] Existing Instance sample_codec.
#[local] Existing Instance sample_metadata_codec.
#[local] Instance sample_sha2 : Sha2 := id.
#[local] Existing Instance sample_presentation.
Definition sample_engine : SnapshotEngine := {| se_storage := sample_root; se_directory := directory sample_root |}.
Definition sample_play : list move -> App -> App :=
  play sample_engine sample_logger agreeable.

Lemma sample_reachable schedule : reachable sample_engine sample_logger (sample_play schedule sample_app).
Proof. apply play_reachable, reachable_initial, sample_initial. Qed.

(** The migration has begun and its thread has not run yet. *)
Definition sample_started : App := sample_play [Event ClickStart; Loop 40] sample_app.
(** The window is asked to close while it runs. *)
Definition sample_closing : App :=
  sample_play [Event ClickStart; Loop 40; Event RequestClose; Loop 40] sample_app.

Example started_operation :
  active (shared_memory sample_started) = raw OpMigration /\ length (workers sample_started) = 1
  /\ ui_code sample_started = None.
Proof. vm_compute. done. Qed.
Example closing_cancels :
  close_after_finish (shared_memory sample_closing) = true
  /\ content (cancellation_slot (shared_memory sample_closing)) = Some 0
  /\ flags (shared_memory sample_closing) !! 0 = Some true.
Proof. vm_compute. done. Qed.

(** A system in which the profile and the parent of the destination exist and
    the destination does not, so that a plan validates. *)
Definition file_system (a : sys) : sys_resp a :=
  match a return sys_resp a with
  | RegOpenKeyExW _ _ _ => (ERROR_FILE_NOT_FOUND, 0%Z)
  | CreateFileW path _ _ _ => match path with drive :: _ => drive | [] => 0%Z end
  | NtCreateFile parent name _ _ _ _ _ _ =>
      if bool_decide (name = encode_utf16 ($"Ada-migrated"))
      then {| nt_status := STATUS_OBJECT_NAME_NOT_FOUND; nt_handle := 0; nt_information := 0 |}
      else {| nt_status := 0; nt_handle := 100 + parent; nt_information := 0 |}
  | GetFileAttributeTagInfo _ => Some FILE_ATTRIBUTE_DIRECTORY
  | GetFileInformationByHandle handle =>
      Some {| hi_attributes := FILE_ATTRIBUTE_DIRECTORY; hi_volume_serial := 7; hi_index_high := 0;
              hi_index_low := handle |}
  | DuplicateHandle handle => (true, 1000 + handle)%Z
  | a => agreeable a
  end.
Definition late_play : list move -> App -> App := play sample_engine sample_logger file_system.

(** Every worker has returned: none can take a deferred close any more. *)
Definition returned (s : App) : bool :=
  forallb (fun t => match code t with Ret _ => true | _ => false end) (workers s).
(** Nothing runs and nothing is queued. *)
Definition quiescent (s : App) : bool :=
  bool_decide (active (shared_memory s) = raw OpIdle) && returned s && is_empty (closures s)
  && match ui_code s with None => true | Some _ => false end.
(** A second migration is handed over, and its token is already signalled. *)
Definition stillborn (s : App) : bool :=
  match workers s, ui_code s, content (cancellation_slot (shared_memory s)) with
  | [_; t], None, Some f =>
      bool_decide (running_kind t = OpMigration /\ active (shared_memory s) = raw OpMigration)
      && negb (finished (did t)) && bool_decide (flags (shared_memory s) !! f = Some true)
  | _, _, _ => false
  end.

(** C40: a close can be recorded too late.  The close request reads that a
    migration is active; the migration ends and takes the deferred close, and
    its thread returns (the first state); then the request records the close.
    When everything has been handled, with no thread or closure left to take
    it, the record is still there (the second state); and when the operator
    validates and starts another migration, without asking for a close again,
    that migration is cancelled before its thread makes a step (the third). *)
Theorem late_close_is_left_behind :
  exists s1, let s2 := late_play [Loop 40; Closure; Loop 40] s1 in
    let s3 := late_play [Event ClickValidate; Loop 100; Event ClickStart; Loop 40] s2 in
    (reachable sample_engine sample_logger s1 /\ returned s1 = true
     /\ active (shared_memory s1) = raw OpIdle /\ close_after_finish (shared_memory s1) = false)
    /\ (reachable sample_engine sample_logger s2 /\ quiescent s2 = true
        /\ close_after_finish (shared_memory s2) = true)
    /\ (reachable sample_engine sample_logger s3 /\ stillborn s3 = true).
Proof.
  exists (late_play [Event ClickStart; Loop 40; Event RequestClose; Loop 1; Work 400] sample_app).
  cbv zeta. split_and!; first [by repeat apply play_reachable; apply reachable_initial, sample_initial
                              |by vm_compute].
Qed.
End Sample.
