(* ===== verification/SystemSpec.v ===== *)
(** * SystemSpec: what holds of the application in every interleaving

    The invariant relates what the threads have done to the shared memory.
    Each thread was verified alone ([Threads], [Drafts]); here a step of one
    thread keeps the invariant, whatever the others are doing. *)

From stdpp Require Import base list gmap strings.
From S2P Require Import Prelude Text Path Effects I18n Models Win32 Journal Snapshot Migration Window Shared Launch Controller System Threads Drafts Schedules.

(** ** The invariant of the shared memory *)
Definition unfinished (ts : list Thread) : list OperationKind :=
  running_kind <$> filter (fun t => finished (did t) = false) ts.
Definition holders (ts : list Thread) : nat := length (filter (fun t => holding (did t) = true) ts).

(** The operation in progress is the one the event loop has begun and not yet
    handed over, or the one of the only thread that has not finished. *)
Definition operation_of (begun : option OperationKind) (kinds : list OperationKind) (v : Z) : Prop :=
  match begun, kinds with
  | None, [] => v = raw OpIdle
  | Some k, [] | None, [k] => k <> OpIdle /\ v = raw k
  | _, _ => False
  end.
(** The mutex of the slot is held by at most one thread. *)
Definition one_holder (h : option Held) (n : nat) (taken : bool) : Prop :=
  match h, n with
  | None, 0 => taken = false
  | Some _, 0 | None, 1 => taken = true
  | _, _ => False
  end.

Definition signalled_at (m : Memory) (slot : option nat) : Prop :=
  match slot with Some f => flags m !! f = Some true | None => True end.
(** A recorded close has cancelled the migration whose token is in the slot. *)
Definition cancels (m : Memory) (slot : option nat) : Prop :=
  close_after_finish m = true -> signalled_at m slot.
(** What the event loop knows while it holds the slot. *)
Definition knows (h : Held) (m : Memory) : Prop :=
  (clear h = true -> close_after_finish m = false)
  /\ Forall (fun f => flags m !! f = Some true) (marks h)
  /\ (deferred h = false -> cancels m (origin h)).

Record memory_ok (g : UiGhost) (ts : list Thread) (m : Memory) : Prop := {
  ok_operation : operation_of (begun g) (unfinished ts) (active m);
  ok_holder : one_holder (held g) (holders ts) (slot_held m);
  ok_held : match held g with Some h => knows h m | None => True end;
  ok_cancels : slot_held m = false -> cancels m (content (cancellation_slot m));
}.

Section System.
Context `{Fuel} `{Extern} `{JournalCodec} `{SnapshotCodec} `{Sha2} `{Presentation}.
Context (snapshot_engine : SnapshotEngine) (audit_logger : AuditLogger).

Definition thread_ok (t : Thread) : Prop :=
  wp worker_protocol (code t) (fun _ => retired) (did t).
Definition ui_code_ok (s : App) : Prop :=
  match ui_code s with
  | None => ui_did s = at_rest /\ ready (ui_thread s)
  | Some p => wp ui_protocol p (fun '(_, t) g => g = at_rest /\ ready t) (ui_did s)
  end.
Record invariant (s : App) : Prop := {
  inv_ui : ui_code_ok s;
  inv_threads : Forall thread_ok (workers s);
  inv_memory : memory_ok (ui_did s) (workers s) (shared_memory s);
}.

Lemma invariant_initial s : initial s -> invariant s.
Proof.
  intros [Hc Hg Hw _ Ha Hcl Hh Hs Hr _ _ _]. split.
  - unfold ui_code_ok. by rewrite Hc.
  - by rewrite Hw.
  - rewrite Hg, Hw. split; [done|done|done|]. intros _ Hclose. congruence.
Qed.

(** *** The record of one thread among the others *)
Lemma unfinished_app l l' : unfinished (l ++ l') = unfinished l ++ unfinished l'.
Proof. unfold unfinished. by rewrite filter_app, fmap_app. Qed.
Lemma holders_app l l' : holders (l ++ l') = holders l + holders l'.
Proof. unfold holders. by rewrite filter_app, length_app. Qed.
Lemma unfinished_cons t l :
  unfinished (t :: l) = (if finished (did t) then [] else [running_kind t]) ++ unfinished l.
Proof.
  unfold unfinished. rewrite filter_cons. destruct (finished (did t)) eqn:Hf; case_decide; done.
Qed.
Lemma holders_cons t l : holders (t :: l) = (if holding (did t) then 1 else 0) + holders l.
Proof.
  unfold holders. rewrite filter_cons. destruct (holding (did t)) eqn:Hf; case_decide; done.
Qed.

(** The accesses that leave the operation, the close and the tokens alone. *)
Definition same_memory (m m' : Memory) : Prop :=
  active m' = active m /\ close_after_finish m' = close_after_finish m
  /\ cancellation_slot m' = cancellation_slot m /\ slot_held m' = slot_held m
  /\ (forall f, flags m !! f = Some true -> flags m' !! f = Some true).
Lemma memory_ok_same g ts m m' : same_memory m m' -> memory_ok g ts m -> memory_ok g ts m'.
Proof.
  intros (Ha & Hc & Hs & Hh & Hf) [Ho Hl Hk Hd].
  assert (forall slot, cancels m slot -> cancels m' slot) as Hcancels.
  { intros [f|] Hm; unfold cancels, signalled_at in *; rewrite Hc; [auto|done]. }
  split; [by rewrite Ha|by rewrite Hh| |rewrite Hh, Hs; auto].
  destruct (held g) as [h|]; [|done]. destruct Hk as (Hcl & Hmarks & Hdef).
  split_and!; [by rewrite Hc|by eapply Forall_impl; [exact Hmarks|]|auto].
Qed.
Definition aside (a : shared) : Prop :=
  match a with UpgradeInEventLoop _ => True | a => quiet a end.
Lemma access_aside a m x m' : aside a -> access a m x m' -> same_memory m m'.
Proof.
  destruct a; try done; intros _; cbn [access]; intros Hacc;
    repeat match goal with
    | H : _ /\ _ |- _ => destruct H
    | H : exists _, _ |- _ => destruct H
    end; subst; try done.
  repeat split; try done. intros f Hf. unfold with_flag, shared_resp in *. cbn [flags].
  rewrite lookup_insert_ne; [done|]. intros ->. by rewrite Hf in *.
Qed.

(** *** An access of the event loop *)
Lemma raw_idle k : raw k = raw OpIdle -> k = OpIdle.
Proof. by destruct k. Qed.
Lemma from_raw_raw k : from_raw (raw k) = k.
Proof. by destruct k. Qed.

Lemma flags_store_cancels f m slot : cancels m slot -> cancels (with_flag f true m) slot.
Proof.
  intros Hm Hc. specialize (Hm Hc). destruct slot as [f'|]; [|done]. cbn [signalled_at flags with_flag] in *.
  destruct (decide (f' = f)) as [->|Hne]; [by rewrite lookup_insert_eq|by rewrite lookup_insert_ne].
Qed.
Lemma knows_store f h m :
  knows h m ->
  knows {| origin := origin h; deferred := deferred h; clear := clear h; marks := f :: marks h |}
    (with_flag f true m).
Proof.
  intros (Hc & Hm & Hd). split_and!; [done| |].
  - constructor; [by apply lookup_insert_eq|]. eapply Forall_impl; [exact Hm|]. intros f' Hf'.
    cbn [flags with_flag]. destruct (decide (f' = f)) as [->|Hne]; [by rewrite lookup_insert_eq|].
    by rewrite lookup_insert_ne.
  - intros Hdef. by apply flags_store_cancels, Hd.
Qed.
Lemma released_cancels h m slot m' :
  knows h m -> may_release h slot ->
  close_after_finish m' = close_after_finish m -> flags m' = flags m -> cancels m' slot.
Proof.
  intros (Hc & Hm & Hd) Hr Hclose Hflags. unfold cancels. rewrite Hclose. intros Hset.
  destruct slot as [f|]; [|done]. cbn [signalled_at]. rewrite Hflags.
  destruct Hr as [Hin|[Hcl|[Ho Hdef]]].
  - rewrite Forall_forall in Hm. by apply Hm.
  - rewrite Hc in Hset by done. done.
  - specialize (Hd Hdef Hset). by rewrite <- Ho in Hd.
Qed.

Lemma ui_access a x g ts m m' :
  ui_ok a g -> access a m x m' -> memory_ok g ts m ->
  memory_ok (ui_see a x g) (ts ++ spawned snapshot_engine audit_logger a x) m'.
Proof.
  intros Hok Hacc Hinv. destruct Hinv as [Ho Hl Hk Hd] eqn:Hinv0. destruct a; cbn [spawned];
    try (rewrite app_nil_r; apply (memory_ok_same _ _ m); [by eapply access_aside, Hacc|exact Hinv]);
    cbn [access ui_ok ui_see] in *; clear Hinv0.
  - (* the compare-and-exchange *)
    rewrite app_nil_r. destruct Hok as (-> & Hb & k & Hk0 & ->), Hacc as [-> ->]. rewrite Hb in Ho.
    destruct (Z.eqb_spec (active m) (raw OpIdle)) as [He|He]; [|by split; rewrite ?Hb].
    split; cbn [begun held active slot_held with_active]; [|done..]. rewrite from_raw_raw.
    destruct (unfinished ts) as [|k' [|? ?]]; cbn in Ho |- *; [done| |done].
    destruct Ho as [Hk' Ha]. rewrite Ha in He. by apply raw_idle in He.
  - rewrite app_nil_r. destruct Hok as [-> Hb]. rewrite Hacc. split; cbn [begun held]; [|done..].
    destruct (begun g) as [k|]; [|done]. by destruct (unfinished ts).
  - rewrite app_nil_r. destruct Hacc as [-> ->]. destruct (close_after_finish m) eqn:Hc; [by split|].
    split; cbn [begun held on_held]; [done| | |done].
    + by destruct (held g).
    + destruct (held g) as [h|]; [|done]. destruct Hk as (Hcl & Hm & Hdef). by split_and!.
  - rewrite app_nil_r. destruct Hok as [-> Hh]. rewrite Hacc. split; cbn [begun held on_held]; [done| | |].
    + by destruct (held g).
    + destruct (held g) as [h|]; [|done]. destruct Hk as (Hcl & Hm & Hdef). by split_and!.
    + cbn [slot_held with_close]. intros Hs. destruct (held g) as [h|]; [|done]. unfold one_holder in Hl.
      destruct (holders ts); [|done]. congruence.
  - rewrite app_nil_r. rewrite Hok in Hacc. destruct Hacc as [-> ->]. split; [done|done| |by intros _].
    destruct (held g) as [h|]; [|done]. destruct Hk as (Hcl & Hm & Hdef). split_and!; [done|done|by intros _].
  - rewrite app_nil_r. rewrite Hok in *. rewrite Hacc. split; cbn [begun held on_held]; [done| | |].
    + by destruct (held g).
    + destruct (held g) as [h|]; [|done]. by apply knows_store.
    + intros Hs. by apply flags_store_cancels, Hd.
  - rewrite app_nil_r. destruct Hacc as (Hs & -> & ->). rewrite Hok, Hs in *. unfold one_holder in Hl.
    unfold lock. destruct (is_poisoned (cancellation_slot m)).
    + split; cbn [slot_held with_slot]; rewrite ?Hok; auto.
    + split; cbn [begun held]; [done| | |done]; [unfold one_holder; by destruct (holders ts) as [|[|?]]|]. split_and!; [done|done|].
      intros _. by apply Hd.
  - rewrite app_nil_r. destruct Hok as (h & Hh & Hr). rewrite Hacc. rewrite Hh in Hl, Hk.
    split; cbn [begun held]; [done| |done|].
    + unfold one_holder in *. by destruct (holders ts).
    + intros _. by eapply released_cancels.
  - rewrite Hacc. rewrite Hok in Ho. destruct x; [|rewrite app_nil_r; split; [by rewrite Hok|done..]].
    split; cbn [begun held]; [| |done|done].
    + rewrite unfinished_app. unfold operation_of in Ho. destruct (unfinished ts); [exact Ho|done].
    + unfold one_holder in *. rewrite holders_app, Nat.add_0_r. exact Hl.
Qed.

(** *** An access of a worker *)
Lemma operation_one begun before k after v :
  operation_of begun (before ++ [k] ++ after) v ->
  begun = None /\ before = [] /\ after = [] /\ v = raw k.
Proof.
  unfold operation_of. destruct begun as [k'|], before as [|k1 before]; cbn [app]; try done.
  - by destruct after; [intros [_ ->]|].
  - by destruct before.
Qed.
Lemma holds_alone h before n after taken :
  one_holder h (before + (n + after)) taken -> n = 0 /\ taken = false \/ n = 1 ->
  h = None /\ before = 0 /\ after = 0.
Proof.
  unfold one_holder. destruct h as [h|], (before + (n + after))%nat as [|[|k]] eqn:Hn; try done;
    intros Ht Hc; split_and!; try done; try lia; destruct Hc as [[? ?]|?]; congruence || lia.
Qed.
Lemma thread_same t c d g before after m :
  finished d = finished (did t) -> holding d = holding (did t) ->
  memory_ok g (before ++ t :: after) m ->
  memory_ok g (before ++ {| running_kind := running_kind t; code := c; did := d |} :: after) m.
Proof.
  intros Hf Hh [Ho Hl Hk Hd]. split; [| |done|done].
  - rewrite unfinished_app, unfinished_cons in *. cbn [did]. by rewrite Hf.
  - rewrite holders_app, holders_cons in *. cbn [did]. by rewrite Hh.
Qed.

Lemma worker_access a x t c before after g m m' :
  worker_call_ok a (did t) -> access a m x m' -> memory_ok g (before ++ t :: after) m ->
  memory_ok g (before ++ {| running_kind := running_kind t; code := c; did := worker_see a x (did t) |}
                :: after ++ spawned snapshot_engine audit_logger a x) m'.
Proof.
  intros Hok Hacc Hinv. destruct a; cbn [spawned worker_call_ok] in *; try done; rewrite app_nil_r;
    try (apply (memory_ok_same _ _ m); [by eapply access_aside, Hacc|by apply thread_same]);
    destruct Hinv as [Ho Hl Hk Hd]; rewrite unfinished_app, unfinished_cons in Ho;
    rewrite holders_app, holders_cons in Hl; cbn [access worker_see] in *.
  - (* the operation is over *)
    destruct Hok as [-> Hf]. rewrite Hacc. rewrite Hf in Ho.
    apply operation_one in Ho as (Hb & Hbefore & Hafter & Ha).
    split; [|by rewrite holders_app, holders_cons|done|done].
    by rewrite unfinished_app, unfinished_cons, Hbefore, Hafter, Hb.
  - destruct Hacc as [-> ->]. split; [by rewrite unfinished_app, unfinished_cons
                                     |by rewrite holders_app, holders_cons|done|done].
  - rewrite Hok in Hacc. destruct Hacc as [-> ->].
    split; [by rewrite unfinished_app, unfinished_cons
           |by rewrite holders_app, holders_cons| |by intros _].
    destruct (held g) as [h|]; [|done]. destruct Hk as (Hcl & Hm & Hdef). split_and!; [done|done|by intros _].
  - rewrite Hok in Hacc. rewrite Hacc.
    split; [by rewrite unfinished_app, unfinished_cons
           |by rewrite holders_app, holders_cons| |].
    + destruct (held g) as [h|]; [|done]. destruct Hk as (Hcl & Hm & Hdef). split_and!; [done| |].
      * eapply Forall_impl; [exact Hm|]. intros f' Hf'. cbn [flags with_flag].
        destruct (decide (f' = flag)) as [->|Hne]; [by rewrite lookup_insert_eq|by rewrite lookup_insert_ne].
      * intros Hdef'. by apply flags_store_cancels, Hdef.
    + intros Hs. by apply flags_store_cancels, Hd.
  - destruct Hacc as (Hs & -> & ->). rewrite Hok, Hs in Hl.
    assert (held g = None /\ holders before = 0 /\ holders after = 0) as (Hg & Hb & Hafter).
    { eapply holds_alone; [exact Hl|auto]. }
    split; [by rewrite unfinished_app, unfinished_cons| |by rewrite Hg|].
    + rewrite holders_app, holders_cons, Hg, Hb, Hafter. cbn [did holding].
      unfold lock. rewrite Hok. by destruct (is_poisoned _).
    + cbn [slot_held with_slot]. intros _. by apply Hd.
  - destruct Hok as [Hh ->]. rewrite Hacc. rewrite Hh in Hl.
    assert (held g = None /\ holders before = 0 /\ holders after = 0) as (Hg & Hb & Hafter).
    { eapply holds_alone; [exact Hl|auto]. }
    split; [by rewrite unfinished_app, unfinished_cons| |by rewrite Hg|done].
    by rewrite holders_app, holders_cons, Hg, Hb, Hafter.
Qed.

Lemma spawned_ok a x : Forall thread_ok (spawned snapshot_engine audit_logger a x).
Proof.
  destruct a; cbn [spawned]; try constructor. destruct x; [|constructor]. constructor; [|constructor].
  unfold thread_ok. cbn [code did]. eapply wp_mono; [apply worker_ends|]. by intros [r []] g.
Qed.

Lemma invariant_step s s' :
  invariant s -> step snapshot_engine audit_logger s s' -> invariant s'.
Proof.
  intros [Hui Hts Hm] Hstep. unfold ui_code_ok in Hui.
  destruct Hstep as [e Hc He|c cs Hc Hq|a k x m Hc Hacc|r t Hc|before t after a k x m Hw Ht Hacc];
    cbn [ui_thread ui_code ui_did workers closures shared_memory] in *.
  - rewrite Hc in Hui. destruct Hui as [Hg Hr]. split; cbn; [|done|done]. unfold ui_code_ok; cbn.
    rewrite Hg. eapply wp_mono; [by apply settles_event|]. intros [r t] g [Hs ->]. split; [done|by apply Hs].
  - rewrite Hc in Hui. destruct Hui as [Hg Hr]. split; cbn; [|done|done]. unfold ui_code_ok; cbn.
    eapply wp_mono; [apply moves_closure|]. intros [r t] g [Hs ->]. split; [done|by apply Hs].
  - rewrite Hc in Hui. destruct Hui as [Hok Hk]. split; cbn.
    + by apply Hk.
    + apply Forall_app. split; [done|apply spawned_ok].
    + by eapply ui_access.
  - rewrite Hc in Hui. by split.
  - rewrite Hw in Hts, Hm. apply Forall_app in Hts as [Hbefore [Hthis Hafter]%Forall_cons].
    unfold thread_ok in Hthis. rewrite Ht in Hthis. destruct Hthis as [[_ Hok] Hk]. split; cbn; [done| |].
    + apply Forall_app. split; [done|]. constructor; [by apply Hk|].
      apply Forall_app. split; [done|apply spawned_ok].
    + by eapply worker_access.
Qed.
Lemma reachable_invariant s : reachable snapshot_engine audit_logger s -> invariant s.
Proof.
  induction 1 as [s Hs|s s' _ IH Hstep]; [by apply invariant_initial|by eapply invariant_step].
Qed.

(** ** What holds in every interleaving *)

(** C5: one operation at a time, and none is left behind.  In every reachable
    state of the application, whatever its threads are doing and whatever the
    system answers, at most one worker has not finished; while one has not, the
    byte [active] names its operation, so no other begins; and a worker whose
    code has returned has finished. *)
Theorem operations_exclusive (s : App) (Hs : reachable snapshot_engine audit_logger s) :
  length (unfinished (workers s)) <= 1
  /\ Forall (fun k => from_raw (active (shared_memory s)) = k /\ k <> OpIdle) (unfinished (workers s))
  /\ Forall (fun t => forall r, code t = Ret r -> finished (did t) = true) (workers s).
Proof.
  apply reachable_invariant in Hs as [_ Hts [Ho _ _ _]]. split_and!.
  - unfold operation_of in Ho. destruct (begun (ui_did s)), (unfinished (workers s)) as [|k [|]];
      simpl; done || lia.
  - unfold operation_of in Ho. destruct (begun (ui_did s)), (unfinished (workers s)) as [|k [|? ?]]; try done.
    destruct Ho as [Hk ->]. constructor; [|done]. by rewrite from_raw_raw.
  - eapply Forall_impl; [exact Hts|]. intros t Ht r Hr. unfold thread_ok in Ht. rewrite Hr in Ht.
    by destruct Ht.
Qed.

(** C6: a recorded close stops the migration.  In every reachable state in which
    the mutex of the cancellation slot is free, when a close has been recorded
    and a migration's token is in the slot, the token is signalled: neither
    order of the close request and the start of the migration loses it. *)
Theorem deferred_close_cancels (s : App) (f : nat)
    (Hs : reachable snapshot_engine audit_logger s)
    (Hfree : slot_held (shared_memory s) = false)
    (Hclose : close_after_finish (shared_memory s) = true)
    (Hslot : content (cancellation_slot (shared_memory s)) = Some f) :
  flags (shared_memory s) !! f = Some true.
Proof.
  apply reachable_invariant in Hs as [_ _ [_ _ _ Hc]]. specialize (Hc Hfree Hclose).
  by rewrite Hslot in Hc.
Qed.

(** C8: a lit Start button is authorised.  In every reachable state between two
    events, if the Start button is enabled, the preflight token matches the
    migration the window shows, so a click starts it unless the process is not
    elevated or another operation runs. *)
Theorem start_button_authorised (s : App)
    (Hs : reachable snapshot_engine audit_logger s)
    (Hrest : ui_code s = None) (Hstart : start_enabled (window (ui_thread s)) = true) :
  authorised (content (migration_preflight (ui_thread s))) (migration_plan_from_ui (window (ui_thread s))) = true.
Proof.
  apply reachable_invariant in Hs as [Hui _ _]. unfold ui_code_ok in Hui. rewrite Hrest in Hui.
  destruct Hui as [_ [_ Ha]]. apply Ha. unfold start_enabled in Hstart.
  by apply andb_prop in Hstart as [[[_ Hv]%andb_prop _]%andb_prop _].
Qed.
End System.

(** ** One token, one migration *)
Section Start.
Context `{Fuel} `{Extern} `{Presentation}.

(** A thread may be started only for the migration the window shows, and only if
    the token matches it. *)
Definition starts_only (s : UiThread) (a : shared) : Prop :=
  match a with
  | Spawn (MigrationWorker plan _ _) =>
      plan = migration_plan_from_ui (window s) /\ authorised (content (migration_preflight s)) plan = true
  | Spawn _ => False
  | _ => True
  end.
Definition starting (s : UiThread) : protocol unit := monitor (fun a _ => starts_only s a) (fun _ _ g => g).

Lemma wp_starting {A} (m : M UiThread Empty_set A) s0 s :
  mcalls (starts_only s0) m -> wpM (starting s0) m (fun _ _ _ => True) s tt.
Proof. intros Hm. by apply (@wpM_keeps shared_signature _ _ _ _ (starting s0) (starts_only s0)). Qed.

Section Tails.
Context (s0 : UiThread).
Lemma starts_status {E} o oc tg key args : mcalls (starts_only s0) (publish_status (E:=E) o oc tg key args).
Proof.
  unfold publish_status, publish_operator_status, cache_and_apply_operator_status, OperatorStatus_localized,
    update, redraw, modify. by solve_calls.
Qed.
Lemma starts_failure {E} o tg det hint : mcalls (starts_only s0) (publish_failure (E:=E) o tg det hint).
Proof.
  unfold publish_failure, publish_operator_status, cache_and_apply_operator_status, OperatorStatus_failure,
    update, redraw, modify. by solve_calls.
Qed.
Lemma starts_presentation {E} p :
  mcalls (starts_only s0) (cache_and_apply_migration_preflight_presentation (E:=E) p).
Proof.
  unfold cache_and_apply_migration_preflight_presentation, update, modify, tracing_error. by solve_calls.
Qed.
Lemma starts_windows {E A} (m : @M sys_signature unit E A) : mcalls (starts_only s0) (windows (S:=UiThread) m).
Proof. by apply mcalls_windows. Qed.
#[local] Hint Resolve starts_status starts_failure starts_presentation starts_windows : calls.

Lemma starts_migration plan :
  plan = migration_plan_from_ui (window s0) -> authorised (content (migration_preflight s0)) plan = true ->
  mcalls (starts_only s0) (begin_migration (E:=Empty_set) plan).
Proof.
  intros Hplan Ha. unfold begin_migration, elevated_begin, require_elevation, begin_operation, try_begin,
    publish_cancellation, cancel_if_close_deferred, finish, spawn, publish_localized_status, update, modify.
  by solve_calls.
Qed.

Lemma wp_start_authorised :
  wpM (starting s0) (start_migration (E:=Empty_set)) (fun _ _ _ => True) s0 tt.
Proof.
  apply wpM_bind, wpM_bind, wpM_get, wpM_ret.
  destruct (validate_migration_source _); [|by apply wp_starting, starts_status].
  cbv zeta. match goal with |- context [if ?c then _ else _] => destruct c end.
  { apply wp_starting. unfold finish, update, modify, publish_localized_status. by solve_calls. }
  apply wpM_bind, wpM_bind, wpM_get. unfold lock. destruct (is_poisoned (migration_preflight s0)).
  { by apply wpM_ret, wp_starting, starts_failure. }
  apply wpM_bind, wpM_put, wpM_ret. destruct (authorised _ _) eqn:Ha; cbn [negb]; apply wp_starting;
    unfold update, modify, publish_localized_status; repeat apply mcalls_bind; try (by solve_calls);
    intros; by apply starts_migration.
Qed.
End Tails.

(** C9: a migration runs only as it was validated, and once.  Whatever the
    system and the other threads answer, [start_migration] starts no thread but
    a migration of the plan the window shows, and only if the preflight token
    matches that plan; and when the plan is complete and its source offline, the
    token is gone and the button dark afterwards. *)
Theorem start_migration_authorised (s : UiThread) :
  calls (starts_only s) (start_migration (E:=Empty_set) s) /\
  (startable (window s) -> is_poisoned (migration_preflight s) = false ->
   returns (fun '(_, s') => content (migration_preflight s') = None
                            /\ flag_of (window s') Ui.migration_preflight_valid = false)
     (start_migration (E:=Empty_set) s)).
Proof.
  split; [eapply wp_monitor_calls, wp_start_authorised|]. intros Hs Hp.
  pose proof (settles_take s Hs) as Hw. rewrite Hp in Hw. apply wp_monitor_returns in Hw.
  clear -Hw. induction (start_migration s) as [[r s']|a k IH|h]; [|by intros x; apply IH, Hw|done].
  destruct Hw as (g & [[Hd _] Ht] & _). by split.
Qed.
End Start.

(** A migration runs. *)
Lemma operations_exclusive_witness :
  unfinished (workers sample_started) = [OpMigration] /\
  length (unfinished (workers sample_started)) <= 1 /\
  Forall (fun k => from_raw (active (shared_memory sample_started)) = k /\ k <> OpIdle)
    (unfinished (workers sample_started)) /\
  Forall (fun t => forall r, code t = Ret r -> finished (did t) = true) (workers sample_started).
Proof.
  split; [vm_compute; reflexivity|].
  apply (operations_exclusive _ _ _ (sample_reachable [Event ClickStart; Loop 40])).
Defined.

(** A migration runs and the window has been asked to close. *)
Lemma deferred_close_cancels_witness :
  close_after_finish (shared_memory sample_closing) = true /\
  flags (shared_memory sample_closing) !! 0 = Some true.
Proof.
  split; [vm_compute; reflexivity|].
  apply (deferred_close_cancels _ _ _ 0
           (sample_reachable [Event ClickStart; Loop 40; Event RequestClose; Loop 40]));
    vm_compute; reflexivity.
Defined.

(** The Start button is lit for a prevalidated plan. *)
Lemma start_button_authorised_witness :
  start_enabled (window (ui_thread sample_app)) = true /\
  authorised (content (migration_preflight (ui_thread sample_app)))
    (migration_plan_from_ui (window (ui_thread sample_app))) = true.
Proof.
  split; [vm_compute; reflexivity|].
  apply (start_button_authorised _ _ _ (sample_reachable [])); vm_compute; reflexivity.
Defined.
