(* ===== verification/Startup.v ===== *)
(** * Startup: from the storage found to a bound controller
    (app-ui/src/startup.rs, the startup part of app-ui/src/main.rs)

    The services are opened by a thread started for the purpose; the event loop
    shows what it found, asks for consent where a foreign object stands at the
    place of the storage, and starts the thread again.  [StartupRuntime] is only
    touched by the event loop. *)

From stdpp Require Import base list strings.
From S2P Require Import Prelude Text Path Effects I18n Models Win32 Security Storage Journal Snapshot Legacy Window.

(** ** Opening the services (startup.rs) *)
Inductive StartupError : Type :=
| StartLegacy (e : LegacyStorageError)
| StartAudit (e : AuditError)
| StartSnapshot (e : SnapshotError).
Definition show_StartupError `{Extern} (e : StartupError) : str :=
  match e with
  | StartLegacy e => $"legacy storage recovery failed: " ++ show_LegacyStorageError e
  | StartAudit e => $"audit service initialization failed: " ++ show_AuditError e
  | StartSnapshot e => $"snapshot service initialization failed: " ++ show_SnapshotError e
  end.

(** The services [AppController::new] is given. *)
Record Services : Type := { sv_snapshots : SnapshotEngine; sv_logger : AuditLogger }.
Inductive StartupDecision : Type :=
| ServicesReady (services : Services)
| Recovery (recovery : LegacyStorageRecovery).

Definition requires_fresh_consent (is_resume : bool) : bool := negb is_resume.

Section Startup.
Context `{Fuel} `{Extern} `{JournalCodec} `{StateCodec}.
Abbreviation UM := (M AppState StartupError).

(** The storage root is shared by the services and closed with the last of
    them; here it is closed when none was built. *)
Definition build_controller (storage : ProductionStorage) : UM Services :=
  let root := ps_root storage in
  on_error (drop_storage_directory (directory root))
    (let* logger := map_err StartAudit (AuditLogger_from_storage root 500) in
     let* snapshots := map_err StartSnapshot (SnapshotEngine_from_storage root) in
     ret {| sv_snapshots := snapshots; sv_logger := logger |}).

Definition inspect : UM StartupDecision :=
  let* state := map_err StartLegacy inspect_production_storage in
  match state with
  | Legacy.Ready storage => let* services := build_controller storage in ret (ServicesReady services)
  | NeedsConsent recovery | NeedsResume recovery => ret (Recovery recovery)
  end.

Definition drop_pending (p : PendingProductionStorage) : M AppState unit unit :=
  do* drop_storage_directory (directory (ps_root (pending_storage p))) in
  do* drop_storage_directory (bootstrap p) in
  close_handle (bootstrap_lock p).

(** The detachment is journalled in the new storage before the transition is
    marked as done. *)
Definition complete_recovery (recovery : LegacyStorageRecovery) : UM Services :=
  let* pending := map_err StartLegacy (execute recovery) in
  let root := ps_root (pending_storage pending) in
  let* services :=
    on_error (drop_pending pending)
      (let* logger := map_err StartAudit (AuditLogger_from_storage root 500) in
       let* snapshots := map_err StartSnapshot (SnapshotEngine_from_storage root) in
       on_error (drop_storage_directory (se_directory snapshots))
         (do* map_err StartAudit
                (log logger AUDIT_OPERATION AUDIT_ACTOR (legacy_name (pending_state pending)) StatusWarning
                   (audit_details pending)) in
          ret {| sv_snapshots := snapshots; sv_logger := logger |})) in
  on_error (do* drop_storage_directory (se_directory (sv_snapshots services)) in
            drop_storage_directory (directory root))
    (let* _ := map_err StartLegacy (complete pending) in ret services).

(** The body of the thread [spawn_startup_work] starts. *)
Definition startup_work (recovery : option LegacyStorageRecovery) : UM StartupDecision :=
  match recovery with
  | Some recovery => let* services := complete_recovery recovery in ret (ServicesReady services)
  | None => inspect
  end.
End Startup.

(** ** The event loop before the controller (main.rs) *)
Record StartupRuntime : Type := {
  rt_controller : Mutex (option Services);
  rt_recovery : Mutex (option LegacyStorageRecovery);
  rt_presentation : Mutex StartupPresentation;
  rt_startup_busy : bool;
}.
Definition StartupRuntime_new : StartupRuntime :=
  {| rt_controller := Mutex_new None; rt_recovery := Mutex_new None;
     rt_presentation := Mutex_new Checking; rt_startup_busy := true |}.

Record StartupState : Type := { su_window : MainWindow; su_current : Z; su_runtime : StartupRuntime }.
(** What a handler asks for: a thread, the bound controller's first calls
    (refresh the journal, then scan), or the end of the window. *)
Inductive StartupAction : Type :=
| SpawnStartupWork (recovery : option LegacyStorageRecovery)
| BindController (services : Services)
| HideMainWindow.

Definition on_window (f : MainWindow -> MainWindow) (s : StartupState) : StartupState :=
  {| su_window := f (su_window s); su_current := su_current s; su_runtime := su_runtime s |}.
Definition on_runtime (f : StartupRuntime -> StartupRuntime) (s : StartupState) : StartupState :=
  {| su_window := su_window s; su_current := su_current s; su_runtime := f (su_runtime s) |}.
Definition set_controller (v : option Services) (r : StartupRuntime) : StartupRuntime :=
  {| rt_controller := locked v (rt_controller r); rt_recovery := rt_recovery r;
     rt_presentation := rt_presentation r; rt_startup_busy := rt_startup_busy r |}.
(** A poisoned lock leaves its content; so do the other two setters. *)
Definition set_recovery (v : option LegacyStorageRecovery) (r : StartupRuntime) : StartupRuntime :=
  {| rt_controller := rt_controller r;
     rt_recovery := if is_poisoned (rt_recovery r) then rt_recovery r else locked v (rt_recovery r);
     rt_presentation := rt_presentation r; rt_startup_busy := rt_startup_busy r |}.
Definition set_presentation (v : StartupPresentation) (r : StartupRuntime) : StartupRuntime :=
  {| rt_controller := rt_controller r; rt_recovery := rt_recovery r;
     rt_presentation := if is_poisoned (rt_presentation r) then rt_presentation r
                        else locked v (rt_presentation r);
     rt_startup_busy := rt_startup_busy r |}.
Definition set_startup_busy (v : bool) (r : StartupRuntime) : StartupRuntime :=
  {| rt_controller := rt_controller r; rt_recovery := rt_recovery r;
     rt_presentation := rt_presentation r; rt_startup_busy := v |}.

Section EventLoop.
Context `{Extern} `{Presentation}.

Definition present_startup (p : StartupPresentation) (s : StartupState) : StartupState :=
  on_window (startup_apply (su_current s) p) (on_runtime (set_presentation p) s).

Definition present_startup_error (error : str) (s : StartupState) : StartupState :=
  let s := on_runtime (set_recovery None) s in
  let s := on_runtime (set_startup_busy false) s in
  let s := on_window (fun w =>
    set_flag Ui.startup_consent_granted true
      (set_flag Ui.startup_consent_required false
        (set_flag Ui.startup_busy false (set_flag Ui.startup_visible true w)))) s in
  present_startup (Error error) s.

Definition present_startup_decision (decision : StartupDecision) (s : StartupState)
    : StartupState * list StartupAction :=
  match decision with
  | ServicesReady services =>
      if is_poisoned (rt_controller (su_runtime s))
      then (present_startup_error ($"startup controller state is unavailable") s, [])
      else
        let s := on_runtime (set_controller (Some services)) s in
        let s := on_runtime (set_startup_busy false) s in
        (on_window (fun w =>
           set_text Ui.status_message (tr (su_current s) ($"status.ready"))
             (set_flag Ui.startup_visible false
               (set_flag Ui.startup_consent_granted true
                 (set_flag Ui.startup_consent_required false (set_flag Ui.startup_busy false w))))) s,
         [BindController services])
  | Recovery recovery =>
      if is_poisoned (rt_recovery (su_runtime s))
      then (present_startup_error ($"startup recovery state is unavailable") s, [])
      else
        let s := on_runtime (set_recovery (Some recovery)) s in
        let s := on_runtime (set_startup_busy false) s in
        let consent_required := requires_fresh_consent (resume recovery) in
        let s := on_window (fun w =>
          set_flag Ui.startup_consent_granted (negb consent_required)
            (set_flag Ui.startup_consent_required consent_required
              (set_flag Ui.startup_busy false (set_flag Ui.startup_visible true w)))) s in
        (present_startup
           (if resume recovery then ResumeRecovery (reason recovery) else FreshRecovery (reason recovery)) s,
         [])
  end.

Definition finish_startup (r : result StartupError StartupDecision) (s : StartupState)
    : StartupState * list StartupAction :=
  match r with
  | Ok decision => present_startup_decision decision s
  | Err error => (present_startup_error (show_StartupError error) s, [])
  end.

Definition start_or_retry (s : StartupState) : StartupState * list StartupAction :=
  let w := su_window s in
  if flag_of w Ui.startup_consent_required && negb (flag_of w Ui.startup_consent_granted) then (s, [])
  else if rt_startup_busy (su_runtime s) then (s, [])
  else
    let s := on_runtime (set_startup_busy true) s in
    let s := present_startup Working (on_window (set_flag Ui.startup_busy true) s) in
    let recovery := default None (lock (rt_recovery (su_runtime s))) in
    (on_runtime (set_recovery None) s, [SpawnStartupWork recovery]).

Definition startup_quit (s : StartupState) : StartupState * list StartupAction :=
  (s, if rt_startup_busy (su_runtime s) then [] else [HideMainWindow]).

(** A language chosen while the startup is visible. *)
Definition startup_change_locale (locale : str) (s : StartupState) : StartupState :=
  match lock (rt_presentation (su_runtime s)) with
  | None => s
  | Some presentation =>
      match set_locale_and_app_strings locale (su_window s) with
      | Err _ => s
      | Ok (current, w) =>
          {| su_window := startup_apply current presentation w; su_current := current;
             su_runtime := su_runtime s |}
      end
  end.
End EventLoop.

(** ** Consent

    [consented]: the operator has ticked the box since the object was shown.
    Events may come in any order; the window enables fewer. *)
Inductive StartupEvent : Type :=
| Proceed
| TickConsent (v : bool)
| Quit
| ChooseLocale (locale : str)
| WorkFinished (r : result StartupError StartupDecision).

Record Startup : Type := {
  startup_state : StartupState;
  consented : bool;
  in_flight : list (option LegacyStorageRecovery);
}.

Section Consent.
Context `{Extern} `{Presentation}.

Definition spawned_work (actions : list StartupAction) : list (option LegacyStorageRecovery) :=
  omap (fun a => match a with SpawnStartupWork r => Some r | _ => None end) actions.
Definition shows_recovery (r : result StartupError StartupDecision) : bool :=
  match r with Ok (Recovery _) => true | _ => false end.

Inductive startup_step (s : Startup) : Startup -> Prop :=
| startup_proceed :
    startup_step s {| startup_state := fst (start_or_retry (startup_state s)); consented := consented s;
                      in_flight := in_flight s ++ spawned_work (snd (start_or_retry (startup_state s))) |}
| startup_tick v :
    startup_step s {| startup_state := on_window (set_flag Ui.startup_consent_granted v) (startup_state s);
                      consented := v; in_flight := in_flight s |}
| startup_asked_to_quit :
    startup_step s {| startup_state := fst (startup_quit (startup_state s)); consented := consented s;
                      in_flight := in_flight s |}
| startup_locale locale :
    startup_step s {| startup_state := startup_change_locale locale (startup_state s);
                      consented := consented s; in_flight := in_flight s |}
| startup_finished r work works :
    in_flight s = work :: works ->
    startup_step s {| startup_state := fst (finish_startup r (startup_state s));
                      consented := consented s && negb (shows_recovery r); in_flight := works |}.

Definition consent_of (s : StartupState) : bool * bool :=
  (flag_of (su_window s) Ui.startup_consent_required, flag_of (su_window s) Ui.startup_consent_granted).
Definition pending_of (s : StartupState) : option LegacyStorageRecovery :=
  default None (lock (rt_recovery (su_runtime s))).

(** [main]: the storage is inspected first. *)
Definition startup_initial (s : Startup) : Prop :=
  rt_startup_busy (su_runtime (startup_state s)) = true
  /\ pending_of (startup_state s) = None
  /\ consented s = false /\ in_flight s = [None].
Inductive startup_reachable : Startup -> Prop :=
| startup_begin s : startup_initial s -> startup_reachable s
| startup_next s s' : startup_reachable s -> startup_step s s' -> startup_reachable s'.

Record startup_ok (s : Startup) : Prop := {
  ok_busy : in_flight s = [] \/ (length (in_flight s) = 1
                                 /\ rt_startup_busy (su_runtime (startup_state s)) = true
                                 /\ pending_of (startup_state s) = None);
  ok_pending : match pending_of (startup_state s) with
               | Some r => fst (consent_of (startup_state s)) = requires_fresh_consent (resume r)
                           /\ (resume r = false -> snd (consent_of (startup_state s)) = true -> consented s = true)
               | None => True
               end;
}.

Lemma pending_set v r : default None (lock (rt_recovery (set_recovery v r)))
  = if is_poisoned (rt_recovery r) then None else v.
Proof. unfold set_recovery, lock. simpl. destruct (is_poisoned (rt_recovery r)) eqn:Hp; cbn; by rewrite Hp. Qed.
Lemma flags_app_strings t w : flag_of (apply_app_strings t w) = flag_of w.
Proof.
  unfold apply_app_strings. generalize (app_string_table t) as l. intros l. revert w.
  induction l as [|[name text] l IH]; intros w; [done|]. simpl. by rewrite IH.
Qed.
Lemma startup_apply_flags current p w : flag_of (startup_apply current p w) = flag_of w.
Proof. unfold startup_apply. by destruct (startup_keys current p) as [[[title message] d] action]. Qed.
Lemma localised_flags locale w current w' :
  set_locale_and_app_strings locale w = Ok (current, w') -> flag_of w' = flag_of w.
Proof.
  unfold set_locale_and_app_strings. destruct (I18n.set_locale locale) as [c|]; [|done]. cbn [result_bind].
  pose proof (flags_app_strings (tr c) w) as Hf. revert Hf.
  generalize (apply_app_strings (tr c) w) as w1. by intros w1 Hf [= <- <-].
Qed.
Lemma locale_keeps locale s :
  consent_of (startup_change_locale locale s) = consent_of s
  /\ su_runtime (startup_change_locale locale s) = su_runtime s.
Proof.
  unfold startup_change_locale. destruct (lock _); [|done].
  destruct (set_locale_and_app_strings locale (su_window s)) as [[current w]|] eqn:Hl; [|done].
  split; [|done]. unfold consent_of. cbn [su_window].
  by rewrite startup_apply_flags, (localised_flags _ _ _ _ Hl).
Qed.
Lemma present_startup_flags p s : consent_of (present_startup p s) = consent_of s.
Proof. unfold consent_of, present_startup. cbn [su_window on_window on_runtime]. by rewrite startup_apply_flags. Qed.
Lemma present_startup_pending p s : pending_of (present_startup p s) = pending_of s.
Proof. done. Qed.
Lemma error_pending e s : pending_of (present_startup_error e s) = None.
Proof.
  unfold present_startup_error. rewrite present_startup_pending. unfold pending_of.
  cbn [su_runtime on_window on_runtime]. unfold set_startup_busy. cbn [rt_recovery].
  rewrite pending_set. by destruct (is_poisoned _).
Qed.

Lemma finished_ok r s :
  pending_of s = None ->
  match pending_of (fst (finish_startup r s)) with
  | Some recovery =>
      shows_recovery r = true
      /\ consent_of (fst (finish_startup r s))
         = (requires_fresh_consent (resume recovery), negb (requires_fresh_consent (resume recovery)))
  | None => True
  end.
Proof.
  intros Hp. destruct r as [[services|recovery]|error]; cbn [finish_startup present_startup_decision].
  - destruct (is_poisoned (rt_controller _)); [cbn [fst]; by rewrite error_pending|]. cbn [fst].
    replace (pending_of _) with (@None LegacyStorageRecovery) by (symmetry; exact Hp). done.
  - destruct (is_poisoned (rt_recovery _)) eqn:Hpoison; [cbn [fst]; by rewrite error_pending|]. cbn [fst].
    rewrite present_startup_pending, present_startup_flags. unfold pending_of.
    cbn [su_runtime on_window on_runtime]. unfold set_startup_busy. cbn [rt_recovery].
    rewrite pending_set, Hpoison. done.
  - cbn [fst]. by rewrite error_pending.
Qed.

Lemma startup_ok_step s s' : startup_ok s -> startup_step s s' -> startup_ok s'.
Proof.
  intros Hok Hstep. pose proof Hok as [Hb Hp].
  assert (startup_ok {| startup_state := startup_state s; consented := consented s;
                        in_flight := in_flight s ++ [] |}) as Hsame by (rewrite app_nil_r; by destruct s).
  destruct Hstep as [|v| |locale|r work works Hf].
  - unfold start_or_retry. destruct (_ && negb _) eqn:Hc; [exact Hsame|].
    destruct (rt_startup_busy _) eqn:Hbusy; [exact Hsame|].
    assert (in_flight s = []) as Hnone by (destruct Hb as [?|(_ & Hb & _)]; congruence).
    cbn [fst snd spawned_work omap list_omap]. rewrite Hnone.
    assert (forall t, pending_of (on_runtime (set_recovery None) t) = None) as Hpend.
    { intros t. unfold pending_of. cbn [su_runtime on_runtime]. rewrite pending_set. by destruct (is_poisoned _). }
    split; cbn [startup_state in_flight]; rewrite Hpend; [right|done]. done.
  - split; [exact Hb|]. cbn [startup_state consented].
    change (pending_of (on_window _ (startup_state s))) with (pending_of (startup_state s)).
    destruct (pending_of (startup_state s)) as [r|]; [|done]. by destruct Hp as [Hp _].
  - by split.
  - cbn [startup_state].
    assert (consent_of (startup_change_locale locale (startup_state s)) = consent_of (startup_state s)
            /\ su_runtime (startup_change_locale locale (startup_state s)) = su_runtime (startup_state s)) as [Hcon Hrt].
    { apply locale_keeps. }
    split; cbn [startup_state in_flight consented]; unfold pending_of; rewrite Hrt; [exact Hb|].
    by rewrite Hcon.
  - rewrite Hf in Hb. destruct Hb as [?|(Hlen & Hbusy & Hpend)]; [done|].
    destruct works; [|done]. pose proof (finished_ok r (startup_state s) Hpend) as Hfin.
    split; [by left|]. cbn [startup_state consented].
    destruct (pending_of (fst _)) as [recovery|]; [|done]. destruct Hfin as [_ ->]. split; [done|].
    cbn [snd]. by intros ->.
Qed.
Lemma startup_reachable_ok s : startup_reachable s -> startup_ok s.
Proof.
  induction 1 as [s (Hb & Hp & Hc & Hf)|s s' _ IH Hstep]; [|by eapply startup_ok_step].
  split; [right; by rewrite Hf|]. by rewrite Hp.
Qed.

(** C10: a foreign object is not moved without consent.  In every order of the
    events of the startup, at most one thread opens the services; and the
    thread that detaches an object is started only if the transition had
    already been consented to and begun ([resume]), or the operator has ticked
    the box since that object was shown. *)
Theorem recovery_needs_consent (s : Startup) (Hs : startup_reachable s) :
  length (in_flight s) <= 1 /\
  (forall recovery, spawned_work (snd (start_or_retry (startup_state s))) = [Some recovery] ->
   resume recovery = true \/ consented s = true).
Proof.
  apply startup_reachable_ok in Hs as [Hb Hp].
  split; [destruct Hb as [->|(-> & _)]; simpl; lia|].
  intros recovery. unfold start_or_retry. destruct (_ && negb _) eqn:Hc; [done|].
  destruct (rt_startup_busy _) eqn:Hbusy; [done|]. cbn [snd spawned_work omap list_omap].
  change (default None (lock (rt_recovery (su_runtime (present_startup _ _))))) with (pending_of (startup_state s)).
  intros [= Hr]. rewrite Hr in Hp. unfold consent_of in Hp. cbn [fst snd] in Hp.
  destruct Hp as [Hreq Hgiven]. rewrite Hreq in Hc. unfold requires_fresh_consent in Hc.
  destruct (resume recovery); [by left|]. right. apply Hgiven; [done|].
  cbn [negb andb] in Hc. by apply negb_false_iff in Hc.
Qed.
End Consent.

(** An object is found, shown, and consented to. *)
Definition silent_presentation : Presentation := {|
  i18n_instance := Err (UnsupportedLocale []); show_I18nError := fun _ => []; format_display := fun _ => [] |}.
Definition sample_recovery : LegacyStorageRecovery := {|
  reason := $"foreign owner"; detected_identity := {| object_volume := 1; file_id := [2%Z] |}; resume := false |}.
Definition blank_window : MainWindow := {|
  text_of := fun _ => []; flag_of := fun _ => false; number_of := fun _ => 0%Z; ui_profiles := [];
  ui_audit_entries := []; selected_issues := []; selected_locking_processes := []; app_strings := fun _ => [] |}.
Definition sample_startup : Startup := {|
  startup_state := {| su_window := blank_window; su_current := 0; su_runtime := StartupRuntime_new |};
  consented := false; in_flight := [None] |}.
Definition sample_shown : Startup := {|
  startup_state := fst (finish_startup (H:=sample_extern) (H0:=silent_presentation) (Ok (Recovery sample_recovery))
                          (startup_state sample_startup));
  consented := false; in_flight := [] |}.
Definition sample_consented : Startup := {|
  startup_state := on_window (set_flag Ui.startup_consent_granted true) (startup_state sample_shown);
  consented := true; in_flight := [] |}.
Lemma sample_consented_reachable : startup_reachable (H:=sample_extern) (H0:=silent_presentation) sample_consented.
Proof.
  eapply startup_next; [|apply (startup_tick sample_shown true)].
  eapply startup_next; [|by apply (startup_finished sample_startup (Ok (Recovery sample_recovery)) None [])].
  apply startup_begin. by repeat split.
Qed.
Lemma recovery_needs_consent_witness :
  spawned_work (snd (start_or_retry (H0:=silent_presentation) (startup_state sample_consented)))
    = [Some sample_recovery] /\
  (resume sample_recovery = true \/ consented sample_consented = true).
Proof.
  split; [vm_compute; reflexivity|].
  apply (recovery_needs_consent sample_consented sample_consented_reachable). vm_compute. reflexivity.
Defined.
