(* ===== verification/Closing.v ===== *)
(** * Closing: the window closes at rest

    A second invariant of every interleaving: from the moment an operation is
    handed to its thread until its result is shown, the window is busy and no
    confirmation is open, so none of its controls begins another operation; and
    the window is closed only when no operation is running.  What the event
    loop may do meanwhile is a monitor of its own ([closing_protocol]); the
    functions are those [Threads] and [Drafts] have verified. *)

From stdpp Require Import base list gmap strings.
From S2P Require Import Prelude Text Path Effects I18n Models Win32 Journal Snapshot Migration Window Shared Launch Controller System Threads Drafts Schedules SystemSpec.

(** ** Results that are not shown yet *)
Definition unposted (ts : list Thread) : nat := length (filter (fun t => posted (did t) = false) ts).
Definition finishing_closures (cs : list UiClosure) : nat := length (filter (fun c => finishing c = true) cs).
Definition pending (ts : list Thread) (cs : list UiClosure) : nat := unposted ts + finishing_closures cs.

Definition busy_window (w : MainWindow) : Prop :=
  flag_of w Ui.operation_busy = true /\ flag_of w Ui.confirmation_visible = false.

(** [free]: nothing is pending, and an operation may be handed over.  [calm]: no
    operation has begun since the byte [active] was known to be idle. *)
Record Calm : Type := { free : bool; calm : bool }.
Definition closing_ok (a : shared) (g : Calm) : Prop :=
  match a with
  | Spawn _ => free g = true
  | HideWindow => calm g = true
  | UpgradeInEventLoop _ => False
  | LockMemory => free g = true
  | _ => True
  end.
Definition closing_see (a : shared) : shared_resp a -> Calm -> Calm :=
  match a return shared_resp a -> Calm -> Calm with
  | ActiveLoad => fun x g => {| free := free g; calm := calm g || bool_decide (from_raw x = OpIdle) |}
  | ActiveCompareExchange _ _ => fun _ g => {| free := free g; calm := false |}
  | ActiveStore _ => fun _ g => {| free := free g; calm := false |}
  | Spawn _ => fun x g => if x then {| free := false; calm := false |} else g
  | _ => fun _ g => g
  end.
Definition closing_protocol : protocol Calm := monitor closing_ok closing_see.

(** Calls that hand nothing over; those that also leave the journal's buffer
    alone; and those that begin nothing. *)
Definition lenient (a : shared) : Prop :=
  match a with Spawn _ | HideWindow | UpgradeInEventLoop _ => False | _ => True end.
Definition gentle (a : shared) : Prop := match a with LockMemory => False | a => lenient a end.
Definition showing (a : shared) : Prop :=
  match a with
  | Spawn _ | UpgradeInEventLoop _ | ActiveCompareExchange _ _ | ActiveStore _ => False
  | _ => True
  end.

Section Rules.
Context {E A : Type}.

Lemma wp_gentle (m : M UiThread E A) s g :
  mcalls gentle m -> wpM closing_protocol m (fun _ _ g' => free g' = free g) s g.
Proof.
  intros Hm. apply (@wpM_keeps shared_signature _ _ _ _ closing_protocol gentle (fun g' => free g' = free g));
    [..|done|done|done]; [by intros []|]. by intros [] g1 x g2 Ha Hf ->.
Qed.
Lemma wp_lenient (m : M UiThread E A) s g :
  mcalls lenient m -> free g = true -> wpM closing_protocol m (fun _ _ g' => free g' = free g) s g.
Proof.
  intros Hm Hf. apply (@wpM_keeps shared_signature _ _ _ _ closing_protocol lenient (fun g' => free g' = free g));
    [..|done|done|done]; [intros [] g' Ha Hg; cbn in *; first [done|congruence]|]. by intros [] g1 x g2 Ha Hg ->.
Qed.
Lemma wp_showing (m : M UiThread E A) s g :
  mcalls showing m -> free g = true -> calm g = true ->
  wpM closing_protocol m (fun _ _ g' => free g' = true) s g.
Proof.
  intros Hm Hf Hc. apply (wpM_mono _ _ (fun _ _ g' => free g' = true /\ calm g' = true)); [|by intros r s' g' []].
  apply (@wpM_keeps shared_signature _ _ _ _ closing_protocol showing
           (fun g' => free g' = true /\ calm g' = true)); [..|done|done|done].
  - by intros [] g' Ha [Hf' Hc'].
  - intros [] g1 x g2 Ha [Hf' Hc'] ->; try done. cbn. by rewrite Hc'.
Qed.
End Rules.

(** What is known of the state a function of the event loop leaves. *)
Lemma monitored_by {A} (R : UiThread -> UiThread -> Prop) (m : M UiThread Empty_set A) s g :
  settles_in R m s at_rest -> wpM closing_protocol m (fun _ _ g' => free g' = free g) s g ->
  wpM closing_protocol m (fun _ s' g' => R s s' /\ free g' = free g) s g.
Proof.
  intros Hm Hc. eapply wp_mono; [eapply wp_returns; [exact (wp_monitor_returns _ _ _ _ _ Hm)|exact Hc]|].
  by intros [r s'] g' [(_ & Hs & _) Hf].
Qed.
Lemma monitored_state {A} (R : UiThread -> UiThread -> Prop) (m : M UiThread Empty_set A) s g :
  settles_in R m s at_rest -> mcalls gentle m ->
  wpM closing_protocol m (fun _ s' g' => R s s' /\ free g' = free g) s g.
Proof. intros Hm Hc. by apply monitored_by, wp_gentle. Qed.
Lemma shown_busy s s' : shown s s' -> busy_window (window s) -> busy_window (window s').
Proof. intros [Hf _ _ _]. unfold busy_window. by rewrite Hf. Qed.
Lemma shown_flag s s' p : shown s s' -> flag_of (window s') p = flag_of (window s) p.
Proof. intros [Hf _ _ _]. by rewrite Hf. Qed.

(** ** Handlers *)
#[export] Hint Unfold publish_status publish_localized_status publish_failure publish_operator_status
  cache_and_apply_operator_status OperatorStatus_localized OperatorStatus_failure update redraw modify ui
  tracing_error cache_and_apply_migration_preflight_presentation migration_preflight_presentation_of
  cache_and_apply_audit_entries cache_and_apply_migration_terminal cache_and_apply_report
  apply_audit_result clear_migration_preflight invalidate_migration_preflight reset_migration_draft
  active_operation not_editable change_locale select_profile apply_migration_parent prevalidate_migration
  report_migration_picker_failure ask_confirmation request_repair_confirmation request_ti_confirmation
  take_preflight signal cancel_migration defer_close request_close_after_finish clear_audit_logs
  pick_migration_parent ignore refresh_audit_logs read_audit_entries require_elevation cancel_if_close_deferred finish : calls.
Lemma gentle_windows {S E A} (m : @M sys_signature unit E A) : mcalls gentle (windows (S:=S) m).
Proof. by apply mcalls_windows. Qed.
Lemma lenient_windows {S E A} (m : @M sys_signature unit E A) : mcalls lenient (windows (S:=S) m).
Proof. by apply mcalls_windows. Qed.
Lemma lenient_audited {S E A} (m : @M sys_signature AppState E A) : mcalls lenient (audited (S:=S) m).
Proof. by apply mcalls_audited. Qed.
Lemma showing_windows {S E A} (m : @M sys_signature unit E A) : mcalls showing (windows (S:=S) m).
Proof. by apply mcalls_windows. Qed.
Lemma showing_audited {S E A} (m : @M sys_signature AppState E A) : mcalls showing (audited (S:=S) m).
Proof. by apply mcalls_audited. Qed.
#[local] Hint Resolve gentle_windows lenient_windows lenient_audited showing_windows showing_audited : calls.

Section Handlers.
Context `{Fuel} `{Extern} `{Presentation}.
Abbreviation shut := (fun s (g : Calm) => free g = true \/ busy_window (window s)).
Abbreviation closes := (fun m s g => wpM closing_protocol (m : M UiThread Empty_set unit) (fun _ s' g' => shut s' g') s g).

(** A function that hands nothing over, when nothing is pending. *)
Lemma closes_lenient m s g : mcalls lenient m -> free g = true -> closes m s g.
Proof.
  intros Hm Hf. eapply wpM_mono; [by apply wp_lenient|]. intros r s' g' ->. by left.
Qed.

(** An operation is handed over by a busy window. *)
Lemma closes_announced operation outcome target key w s g :
  free g = true -> busy_window (window s) ->
  closes (do* publish_localized_status operation outcome target key in spawn w) s g.
Proof.
  intros Hf Hb. apply wpM_bind. eapply wpM_mono; [apply (monitored_state shown)|].
  - apply moves_settles, moves_localized.
  - by solve_calls.
  - intros [[]|[]] s1 g1 [Hs Hf1]. apply wpM_bind. wp_call; [cbn; congruence|].
    intros [] g2 ->; [|exact I]. apply wpM_ret. right. by eapply shown_busy.
Qed.

Definition begins_busy (m : M UiThread Empty_set bool) : Prop :=
  forall s g, free g = true -> flag_of (window s) Ui.confirmation_visible = false ->
  wpM closing_protocol m (fun r s' g' => free g' = true /\ (r = Ok true -> busy_window (window s'))) s g.
Lemma begins_busy_operation k : begins_busy (begin_operation k).
Proof.
  intros s g Hf Hc. apply wpM_bind. unfold try_begin. wp_call; [done|]. intros [] g1 ->; cbn [negb].
  - apply wpM_bind, wpM_bind, wpM_get, wpM_put, wpM_ret. by split.
  - apply wpM_bind. eapply wpM_mono; [apply wp_gentle; by solve_calls|].
    intros [[]|[]] s1 g2 Hg. apply wpM_ret. split; [by rewrite Hg|done].
Qed.
Lemma begins_busy_elevated k : begins_busy (elevated_begin k).
Proof.
  intros s g Hf Hc. apply wpM_bind. eapply wpM_mono; [apply (monitored_state shown)|].
  - apply moves_settles, moves_elevation.
  - by solve_calls.
  - intros [[]|[]] s1 g1 [Hs Hf1]; [|apply wpM_ret; split; [congruence|done]].
    apply begins_busy_operation; [congruence|].
    by rewrite (shown_flag _ _ _ Hs).
Qed.
Lemma closes_begin m (f : bool -> M UiThread Empty_set unit) s g :
  begins_busy m -> free g = true -> flag_of (window s) Ui.confirmation_visible = false ->
  (forall s1 g1, free g1 = true -> busy_window (window s1) -> closes (f true) s1 g1) ->
  f false = ret tt -> closes (let* b := m in f b) s g.
Proof.
  intros Hm Hf Hc Ht Hn. apply wpM_bind. eapply wpM_mono; [by apply Hm|].
  intros [[]|[]] s1 g1 [Hf1 Hb]; [by apply Ht; auto|]. rewrite Hn. by apply closes_lenient; [apply mcalls_ret|].
Qed.
Lemma closes_scan s g :
  free g = true -> flag_of (window s) Ui.confirmation_visible = false -> closes scan_profiles s g.
Proof.
  intros Hf Hc. apply closes_begin; [apply begins_busy_operation|done|done| |done].
  intros s1 g1 Hf1 Hb. by apply closes_announced.
Qed.
Lemma closes_export s g :
  free g = true -> flag_of (window s) Ui.confirmation_visible = false -> closes export_audit s g.
Proof.
  intros Hf Hc. apply closes_begin; [apply begins_busy_operation|done|done| |done].
  intros s1 g1 Hf1 Hb. by apply closes_announced.
Qed.
Lemma closes_ti s g :
  free g = true -> flag_of (window s) Ui.confirmation_visible = false -> closes launch_ti_console s g.
Proof.
  intros Hf Hc. apply closes_begin; [apply begins_busy_elevated|done|done| |done].
  intros s1 g1 Hf1 Hb. by apply closes_announced.
Qed.
Lemma closes_repair dry s g :
  free g = true -> flag_of (window s) Ui.confirmation_visible = false -> closes (execute_repair dry) s g.
Proof.
  intros Hf Hc. apply wpM_bind, wpM_bind, wpM_get, wpM_ret.
  destruct (flag_of _ Ui.selected_repair_blocked_by_lock_inspection).
  { apply closes_lenient; [by solve_calls|done]. }
  apply closes_begin; [apply begins_busy_elevated|done|done| |done].
  intros s1 g1 Hf1 Hb. apply wpM_bind, wpM_bind, wpM_get, wpM_ret. by apply closes_announced.
Qed.
Lemma closes_begin_migration plan s g :
  free g = true -> flag_of (window s) Ui.confirmation_visible = false -> closes (begin_migration plan) s g.
Proof.
  intros Hf Hc. apply closes_begin; [apply begins_busy_elevated|done|done| |done].
  intros s1 g1 Hf1 Hb. apply wpM_bind. wp_call; [done|]. intros c g2 ->. apply wpM_bind.
  apply (wpM_mono _ _ (fun _ s' g' => s' = s1 /\ free g' = true)).
  { apply wpM_bind. wp_call; [done|]. intros [slot|] g2 ->; [|by apply wpM_ret].
    apply wpM_bind, wpM_bind. wp_call; [done|]. intros [] g2 ->.
    - wp_call; [done|]. intros [] g2 ->. apply wpM_bind. by wp_call; [done|]; intros [] g2 ->.
    - apply wpM_ret, wpM_bind. by wp_call; [done|]; intros [] g2 ->. }
  intros [[]|[]] s2 g2 [-> Hf2]; cbn [negb].
  - apply wpM_bind, wpM_bind, wpM_get, wpM_put, wpM_bind, wpM_bind, wpM_get, wpM_put. by apply closes_announced.
  - apply closes_lenient; [by solve_calls|done].
Qed.
Lemma closes_start s g :
  start_enabled (window s) = true -> free g = true ->
  flag_of (window s) Ui.confirmation_visible = false -> closes start_migration s g.
Proof.
  intros [Hl Hs]%start_complete Hf Hc. apply wpM_bind, wpM_bind, wpM_get, wpM_ret.
  unfold validate_migration_source. rewrite Hl.
  cbn [source_path target_path include_roaming_appdata include_personal_folders migration_plan_from_ui].
  rewrite Hs. apply wpM_bind, wpM_bind, wpM_get. destruct (lock (migration_preflight s)) as [token|].
  2:{ apply wpM_ret, closes_lenient; [by solve_calls|done]. }
  apply wpM_bind, wpM_put, wpM_ret. destruct (negb (authorised _ _)).
  { apply closes_lenient; [by solve_calls|done]. }
  apply wpM_bind. eapply wpM_mono; [apply (monitored_state shown)|].
  - apply moves_settles, moves_presentation.
  - by solve_calls.
  - intros [[]|[]] s1 g1 [Hs1 Hf1]. apply wpM_bind, wpM_bind, wpM_get, wpM_put.
    apply closes_begin_migration; [congruence|]. rewrite <- Hc.
    apply (shown_flag _ _ Ui.confirmation_visible Hs1).
Qed.
Lemma closes_confirm s g : free g = true -> closes confirm s g.
Proof.
  intros Hf. apply wpM_bind, wpM_bind, wpM_get, wpM_put, wpM_bind, wpM_bind, wpM_get, wpM_ret, wpM_bind.
  apply (wpM_mono _ _ (fun _ s' g' => shut s' g')).
  - unfold confirm_action. destruct (Z.eqb _ _); [by apply closes_repair|].
    destruct (Z.eqb _ _); [by apply closes_ti|]. by left.
  - intros [[]|[]] s1 g1 Hs. apply wpM_bind, wpM_get, wpM_put. exact Hs.
Qed.

(** A busy window refuses a change of language; a close is deferred. *)
Lemma closes_locale_busy locale s g : busy_window (window s) -> closes (ignore (change_locale locale)) s g.
Proof.
  intros [Hb Hc]. apply wpM_bind, wpM_attempt, wpM_bind, wpM_bind, wpM_bind. wp_call; [done|].
  intros v g1 ->. apply wpM_ret, wpM_bind, wpM_bind, wpM_get, wpM_ret, wpM_ret. rewrite Hb, orb_true_r. cbn [orb].
  apply wpM_ret, wpM_ret. by right.
Qed.
Lemma closes_shown m s g :
  settles_in shown m s at_rest -> mcalls gentle m -> shut s g -> closes m s g.
Proof.
  intros Hm Hc Hs. eapply wpM_mono; [by apply (monitored_state shown)|]. intros r s1 g1 [Hs1 Hf].
  destruct Hs as [Hs|Hs]; [left; congruence|right; by eapply shown_busy].
Qed.
Lemma closes_close s g : shut s g -> closes close_requested s g.
Proof.
  intros Hs. apply wpM_bind, wpM_bind, wpM_bind. wp_call; [done|]. intros v g1 ->. apply wpM_ret.
  destruct (from_raw v) eqn:Hv; cbn [close_policy];
    try (apply wpM_bind; eapply wpM_mono; [apply closes_shown; [..|exact Hs]|]).
  1:{ apply wpM_ret, wpM_bind. wp_call; [cbn; rewrite Hv; apply orb_true_r|]. intros x g2 ->. by apply wpM_ret. }
  all: try (apply moves_settles, moves_localized); try (apply settles_defer, _); try (by solve_calls).
  all: intros [[]|[]] s1 g2 Hs1; by apply wpM_ret, wpM_ret.
Qed.

Lemma idle_window w : idle_controls w = true ->
  flag_of w Ui.operation_busy = false /\ flag_of w Ui.confirmation_visible = false.
Proof.
  unfold idle_controls, modal_visible. intros [Hb%negb_true_iff Hm%negb_true_iff]%andb_prop.
  rewrite !orb_false_iff in Hm. naive_solver.
Qed.
Definition idle_only (e : UserEvent) : bool :=
  match e with
  | SwitchLocale _ | ClickCancel | ClickConfirm | ClickDismiss | RequestClose => false
  | _ => true
  end.
Lemma idle_enabled e w : idle_only e = true -> enabled e w = true ->
  flag_of w Ui.operation_busy = false /\ flag_of w Ui.confirmation_visible = false.
Proof.
  intros Hi. unfold enabled, row_selected, repair_execution_enabled, start_enabled.
  destruct e; try done; [by intros [Hb%negb_true_iff Hc%negb_true_iff]%andb_prop|..];
    intros He; apply idle_window; revert He; rewrite ?andb_true_iff; naive_solver.
Qed.

(** Every event the window can deliver, when nothing is pending or the window
    is busy. *)
Lemma closes_event e s g : enabled e (window s) = true -> shut s g -> closes (handle e) s g.
Proof.
  intros He Hs. destruct (idle_only e) eqn:Hi.
  - pose proof (idle_enabled _ _ Hi He) as [Hb Hc].
    destruct Hs as [Hf|[Hb' _]]; [|congruence].
    destruct e; try done; cbn [handle];
      try (by apply closes_lenient; [solve_calls|]).
    + apply wpM_bind. eapply wpM_mono; [apply (monitored_by shown)|].
      * apply moves_settles, moves_bind; [apply _|apply moves_attempt, moves_audited, _|].
        intros r. apply moves_apply_audit.
      * apply wp_lenient; [by solve_calls|done].
      * intros [[]|[]] s1 g1 [Hs1 Hf1]. apply closes_scan; [congruence|].
        by rewrite (shown_flag _ _ Ui.confirmation_visible Hs1).
    + by apply closes_scan.
    + by apply closes_repair.
    + by apply closes_start.
    + by apply closes_export.
  - destruct e; try done; cbn [handle enabled] in *.
    + destruct Hs as [Hf|Hb]; [by apply closes_lenient; [solve_calls|]|by apply closes_locale_busy].
    + by apply closes_shown; [apply settles_cancel, _|solve_calls|].
    + destruct Hs as [Hf|[_ Hc]]; [by apply closes_confirm|congruence].
    + destruct Hs as [Hf|[_ Hc]]; [by apply closes_lenient; [solve_calls|]|congruence].
    + by apply closes_close.
Qed.
End Handlers.

(** ** Closures *)
#[export] Hint Unfold not_busy scan_finished repair_finished repair_refresh_warning terminal
  migration_outcome migration_finished trustedinstaller_finished export_finished progress_update : calls.
Section Closures.
Context `{Fuel} `{Extern} `{Presentation}.

Lemma showing_closure c : finishing c = true -> mcalls showing (ui_closure (E:=Empty_set) c).
Proof. intros Hc. destruct c; try done; cbn [ui_closure]; by solve_calls. Qed.
Lemma closes_closure c s g :
  (if finishing c then free g = true /\ calm g = true else free g = true \/ busy_window (window s)) ->
  wpM closing_protocol (ui_closure (E:=Empty_set) c)
    (fun _ s' g' => free g' = true \/ busy_window (window s')) s g.
Proof.
  intros Hg. destruct (finishing c) eqn:Hc.
  - destruct Hg as [Hf Hcalm]. eapply wpM_mono; [apply wp_showing; [by apply showing_closure|done..]|].
    intros r s1 g1 Hf1. by left.
  - destruct c; try done. cbn [ui_closure]. apply closes_shown; [apply moves_settles, moves_progress| |done].
    by solve_calls.
Qed.
End Closures.

(** ** The invariant *)
Lemma unposted_nil : unposted [] = 0.
Proof. done. Qed.
Lemma finishing_nil : finishing_closures [] = 0.
Proof. done. Qed.
Lemma unposted_app l l' : unposted (l ++ l') = unposted l + unposted l'.
Proof. unfold unposted. by rewrite filter_app, length_app. Qed.
Lemma unposted_cons t l : unposted (t :: l) = (if posted (did t) then 0 else 1) + unposted l.
Proof. unfold unposted. rewrite filter_cons. destruct (posted (did t)) eqn:Hp; case_decide; done. Qed.
Lemma finishing_app l l' : finishing_closures (l ++ l') = finishing_closures l + finishing_closures l'.
Proof. unfold finishing_closures. by rewrite filter_app, length_app. Qed.
Lemma finishing_cons c l : finishing_closures (c :: l) = (if finishing c then 1 else 0) + finishing_closures l.
Proof. unfold finishing_closures. rewrite filter_cons. destruct (finishing c) eqn:Hc; case_decide; done. Qed.

Section Invariant.
Context `{Fuel} `{Extern} `{JournalCodec} `{SnapshotCodec} `{Sha2} `{Presentation}.
Context (snapshot_engine : SnapshotEngine) (audit_logger : AuditLogger).

Record closing_invariant (s : App) : Prop := {
  closing_pending : pending (workers s) (closures s) <= 1;
  closing_posted : Forall (fun t => posted (did t) = true -> finished (did t) = true) (workers s);
  closing_ui :
    match ui_code s with
    | None => pending (workers s) (closures s) = 0 \/ busy_window (window (ui_thread s))
    | Some p => exists g,
        wp closing_protocol p (fun '(_, t) g => free g = true \/ busy_window (window t)) g
        /\ (free g = true -> pending (workers s) (closures s) = 0)
        /\ (calm g = true -> active (shared_memory s) = raw OpIdle)
    end;
}.

Lemma closing_initial s : initial s -> closing_invariant s.
Proof.
  intros [Hc Hg Hw Hq _ _ _ _ _ _ _ _]. split; rewrite ?Hc, ?Hw, ?Hq; [cbv; lia|done|by left].
Qed.

Lemma all_finished ts :
  Forall (fun t => posted (did t) = true -> finished (did t) = true) ts -> unposted ts = 0 -> unfinished ts = [].
Proof.
  induction 1 as [|t ts Ht _ IH]; [done|]. rewrite unposted_cons, unfinished_cons.
  destruct (posted (did t)); [|done]. intros Hn. rewrite Ht, IH; done.
Qed.
Lemma idle_alone g ts m : memory_ok g ts m -> active m = raw OpIdle -> unfinished ts = [].
Proof.
  intros [Ho _ _ _] Ha. unfold operation_of in Ho. rewrite Ha in Ho.
  destruct (begun g), (unfinished ts) as [|k [|]]; try done. destruct Ho as [Hk Hr].
  by destruct Hk, (raw_idle k).
Qed.

(** What a call of the event loop adds to what is pending. *)
Lemma ui_pending a x g ts cs :
  closing_ok a g -> (free g = true -> pending ts cs = 0) -> pending ts cs <= 1 ->
  let ts' := ts ++ spawned snapshot_engine audit_logger a x in
  let cs' := cs ++ queued a x in
  pending ts' cs' <= 1 /\ (free (closing_see a x g) = true -> pending ts' cs' = 0).
Proof.
  intros Hok Hf Hp. cbv zeta. unfold pending in *. rewrite unposted_app, finishing_app.
  destruct a; cbn [spawned queued closing_see closing_ok] in *; try done;
    rewrite ?unposted_nil, ?finishing_nil, ?Nat.add_0_r; try (by split).
  specialize (Hf Hok). destruct x; rewrite ?unposted_cons, ?unposted_nil; cbn; split; intros; lia || done.
Qed.
Lemma ui_calm a x g m m' :
  access a m x m' -> (calm g = true -> active m = raw OpIdle) ->
  calm (closing_see a x g) = true -> active m' = raw OpIdle.
Proof.
  intros Hacc Hc. destruct a; cbn [access closing_see] in *;
    repeat match goal with
    | H : _ /\ _ |- _ => destruct H
    | H : exists _, _ |- _ => destruct H
    end; subst; cbn; try done; try (destruct x; done).
  intros [Hg|Hx%bool_decide_eq_true]%orb_true_iff; [by apply Hc|]. revert Hx. unfold from_raw.
  repeat case_match; try done; intros _; by apply Z.eqb_eq.
Qed.
(** A worker's call does not add to it. *)
Lemma worker_pending a x t c before after cs :
  worker_call_ok a (did t) ->
  pending (before ++ {| running_kind := running_kind t; code := c; did := worker_see a x (did t) |}
             :: after ++ spawned snapshot_engine audit_logger a x) (cs ++ queued a x)
  <= pending (before ++ t :: after) cs.
Proof.
  intros Hok. unfold pending. rewrite !unposted_app, !unposted_cons, unposted_app, finishing_app.
  cbn [did]. destruct a; cbn [spawned queued worker_see posted worker_call_ok] in *; try done;
    rewrite ?unposted_nil, ?finishing_nil; try lia.
  destruct (finishing c0) eqn:Hc; [destruct Hok as [_ ->]; [done|]|]; destruct x; cbn [andb];
    rewrite ?orb_false_r, ?orb_true_r, ?finishing_cons, ?finishing_nil, ?Hc; lia.
Qed.
Lemma worker_posted a x d :
  worker_call_ok a d -> (posted d = true -> finished d = true) ->
  posted (worker_see a x d) = true -> finished (worker_see a x d) = true.
Proof.
  intros Hok Hp. destruct a; cbn [worker_see posted finished worker_call_ok] in *; try done.
  intros [Hd|[Hc _]%andb_prop]%orb_true_iff; [by apply Hp|]. by destruct Hok.
Qed.
Lemma worker_calm a x d m m' :
  worker_call_ok a d -> access a m x m' -> active m = raw OpIdle -> active m' = raw OpIdle.
Proof.
  intros Hok Hacc Ha. destruct a; cbn [access worker_call_ok] in *;
    repeat match goal with
    | H : _ /\ _ |- _ => destruct H
    | H : exists _, _ |- _ => destruct H
    end; subst; done.
Qed.

(** *** Beginning an event *)
Lemma closing_event e s g :
  ui_code s = None -> enabled e (window (ui_thread s)) = true -> closing_invariant s ->
  closing_invariant {| ui_thread := ui_thread s; ui_code := Some (handle e (ui_thread s)); ui_did := g;
                       workers := workers s; closures := closures s; shared_memory := shared_memory s |}.
Proof.
  intros Hc He [Hp Hd Hui]. rewrite Hc in Hui. split; cbn; [done..|].
  exists {| free := bool_decide (pending (workers s) (closures s) = 0); calm := false |}. split_and!; cbn.
  - apply (closes_event e); [done|]. destruct Hui as [->|Hb]; [by left|by right].
  - apply bool_decide_eq_true.
  - done.
Qed.
Lemma closing_closure c cs s :
  ui_code s = None -> closures s = c :: cs -> memory_ok (ui_did s) (workers s) (shared_memory s) ->
  begun (ui_did s) = None -> closing_invariant s ->
  closing_invariant {| ui_thread := ui_thread s; ui_code := Some (ui_closure c (ui_thread s));
                       ui_did := ui_did s; workers := workers s; closures := cs;
                       shared_memory := shared_memory s |}.
Proof.
  intros Hc Hq [Ho _ _ _] Hb [Hp Hd Hui]. rewrite Hc in Hui. rewrite Hq in Hp, Hui.
  unfold pending in Hp, Hui. rewrite finishing_cons in Hp, Hui.
  destruct (finishing c) eqn:Hf; split;
    cbn [workers closures ui_code ui_thread shared_memory]; unfold pending; [lia|done| |lia|done|].
  - exists {| free := true; calm := true |}. split_and!; cbn.
    + apply (closes_closure c). by rewrite Hf.
    + lia.
    + intros _. rewrite Hb, all_finished in Ho; [done|done|lia].
  - exists {| free := bool_decide (unposted (workers s) + finishing_closures cs = 0); calm := false |}.
    split_and!; cbn; [|apply bool_decide_eq_true|done].
    apply (closes_closure c). rewrite Hf. destruct Hui as [Hn|Hw]; [|by right].
    left. by apply bool_decide_eq_true.
Qed.

Lemma closing_step s s' :
  invariant s -> closing_invariant s -> step snapshot_engine audit_logger s s' -> closing_invariant s'.
Proof.
  intros [Hcode Hts Hm] Hinv Hstep.
  destruct Hstep as [e Hc He|c cs Hc Hq|a k x m Hc Hacc|r t Hc|before t after a k x m Hw Ht Hacc].
  - by apply closing_event.
  - unfold ui_code_ok in Hcode. rewrite Hc in Hcode. apply closing_closure; try done.
    destruct Hcode as [Hg _]. by rewrite Hg.
  - destruct Hinv as [Hp Hd Hui]. rewrite Hc in Hui. destruct Hui as (g & [Hok Hk] & Hf & Hca).
    apply (ui_pending _ x) in Hf as [Hp' Hf']; [|done..]. split; cbn [workers closures ui_code ui_thread shared_memory]; [exact Hp'| |].
    + apply Forall_app. split; [done|]. destruct a; cbn [spawned]; try constructor.
      destruct x; repeat constructor. by intros ?.
    + exists (closing_see a x g). split_and!; [by apply Hk|exact Hf'|by eapply ui_calm].
  - destruct Hinv as [Hp Hd Hui]. rewrite Hc in Hui. destruct Hui as (g & Hend & Hf & _).
    split; cbn [workers closures ui_code ui_thread shared_memory]; [done..|]. destruct Hend as [Hg|Hb]; [left; by apply Hf|by right].
  - destruct Hinv as [Hp Hd Hui]. rewrite Hw in *. apply Forall_app in Hts as [_ [Hthis _]%Forall_cons].
    unfold thread_ok in Hthis. rewrite Ht in Hthis. destruct Hthis as [[_ Hok] _].
    pose proof (worker_pending a x t (k x) before after (closures s) Hok) as Hle.
    split; cbn [workers closures ui_code ui_thread shared_memory]; [lia| |].
    + apply Forall_app in Hd as [Hbefore [Hthis Hafter]%Forall_cons]. apply Forall_app. split; [done|].
      constructor; [by apply worker_posted|]. apply Forall_app. split; [done|].
      destruct a; cbn [spawned]; by try constructor.
    + destruct (ui_code s) as [p|].
      * destruct Hui as (g & Hwp & Hf & Hca). exists g. split_and!; [done| |].
        -- intros Hg. specialize (Hf Hg). lia.
        -- intros Hg. by eapply worker_calm, Hca.
      * destruct Hui as [Hn|Hb]; [left; lia|by right].
Qed.
Lemma reachable_closing s : reachable snapshot_engine audit_logger s -> closing_invariant s.
Proof.
  induction 1 as [s Hs|s s' Hr IH Hstep]; [by apply closing_initial|].
  eapply closing_step; [by eapply reachable_invariant|done|done].
Qed.

(** ** What holds in every interleaving *)

(** A worker that has released the operation has done all of its work: what it
    still runs, whatever the answers, makes no call of the system. *)
Definition spent (t : Thread) : Prop := calls winding_down (code t).
Lemma finished_spent t : thread_ok t -> finished (did t) = true -> spent t.
Proof.
  intros Ht. apply (@wp_monitor_kept shared_signature _ _ worker_ok worker_see (fun g => finished g = true) _ (fun _ => retired));
    [|by intros [] x g|exact Ht].
  intros a g Hf [Hw _]. by apply Hw.
Qed.
Lemma all_spent ts : Forall thread_ok ts -> unfinished ts = [] -> Forall spent ts.
Proof.
  induction 1 as [|t ts Ht _ IH]; [by constructor|]. rewrite unfinished_cons. intros Hu.
  apply app_eq_nil in Hu as [Hd Hu]. constructor; [|by apply IH].
  apply finished_spent; [done|]. by destruct (finished (did t)).
Qed.

(** C7: the window closes at rest.  In every reachable state of the application,
    when the event loop is about to hide the window, on the request of the
    operator or at the end of a migration that was asked to close, the byte
    [active] is idle and no worker has work left: in every continuation of
    every thread, whatever the answers, no call of the system remains, only
    the taking of a deferred close and the queuing of a result.  The process
    never ends in the middle of a repair, a migration, a launch or an export. *)
Theorem window_closes_at_rest (s : App) (k : bool -> prog (result Empty_set unit * UiThread))
    (Hs : reachable snapshot_engine audit_logger s) (Hhide : ui_code s = Some (Call HideWindow k)) :
  active (shared_memory s) = raw OpIdle /\ Forall spent (workers s).
Proof.
  pose proof (reachable_invariant _ _ _ Hs) as [_ Hts Hm].
  apply reachable_closing in Hs as [_ _ Hui]. rewrite Hhide in Hui.
  destruct Hui as (g & [Hok _] & _ & Hca). specialize (Hca Hok). split; [done|].
  apply all_spent; [done|by eapply idle_alone].
Qed.

(** The events that begin an operation, edit a draft or confirm an action. *)
Definition exclusive (e : UserEvent) : bool :=
  match e with SwitchLocale _ | ClickCancel | RequestClose => false | _ => true end.

(** The window offers none of them while a result is pending. *)
Lemma dark_while_pending s e :
  reachable snapshot_engine audit_logger s -> ui_code s = None ->
  0 < pending (workers s) (closures s) -> exclusive e = true ->
  busy_window (window (ui_thread s)) /\ enabled e (window (ui_thread s)) = false.
Proof.
  intros Hs Hrest Hp He. apply reachable_closing in Hs as [_ _ Hui]. rewrite Hrest in Hui.
  destruct Hui as [Hn|[Hb Hc]]; [lia|]. split; [done|].
  destruct (enabled e _) eqn:Hen; [|done]. destruct (idle_only e) eqn:Hi; [|by destruct e; cbn in Hen; try congruence].
  apply (idle_enabled e) in Hen as [Hb' _]; [congruence|done].
Qed.
End Invariant.

(** A migration was started and cancelled by the request to close; its thread
    has returned, and its result closes the window. *)
Lemma window_closes_at_rest_witness :
  let s := sample_play [Event ClickStart; Loop 40; Event RequestClose; Loop 40; Work 400; Closure; Loop 1] sample_app in
  match ui_code s with Some (Call HideWindow _) => True | _ => False end
  /\ length (workers s) = 1 /\ active (shared_memory s) = raw OpIdle.
Proof.
  split; [vm_compute; exact I|]. split; [vm_compute; reflexivity|].
  eapply (window_closes_at_rest _ _ _ _
            (sample_reachable [Event ClickStart; Loop 40; Event RequestClose; Loop 40; Work 400; Closure; Loop 1])).
  vm_compute. reflexivity.
Defined.
