(* ===== verification/Idle.v ===== *)
(** * Idle: the window is busy only while a result is expected

    The converse of [Closing]: whenever the event loop is at rest and the window
    is busy, a worker has not delivered its result, or the closure with it is
    queued.  So no handler, on any of its paths, leaves the controls dark with
    nothing to light them again. *)

From stdpp Require Import base list gmap strings.
From S2P Require Import Prelude Text Path Effects I18n Models Win32 Journal Snapshot Migration Window Shared Launch Controller System Threads Drafts Schedules SystemSpec Startup Closing.

Definition is_busy (s : UiThread) : bool := flag_of (window s) Ui.operation_busy.
Definition steady (s s' : UiThread) : Prop := is_busy s' = is_busy s.
#[export] Instance steady_preorder : PreOrder steady.
Proof. split; [by intros s|]. unfold steady. intros s1 s2 s3. congruence. Qed.
#[export] Instance steady_shows : Shows steady.
Proof. split; [apply _|]. intros s s' [Hf _ _ _]. unfold steady, is_busy. by rewrite Hf. Qed.

(** [g]: a result is expected, since a thread was started or from before. *)
Definition handing : protocol bool :=
  monitor (fun _ _ => True)
    (fun a => match a return shared_resp a -> bool -> bool with Spawn _ => fun x g => g || x | _ => fun _ g => g end).
Definition accounted (s : UiThread) (g : bool) : Prop := is_busy s = true -> g = true.

(** ** Functions that leave the flag alone *)
Lemma calls_any {R} (m : prog R) : @calls shared_signature R (fun _ => True) m.
Proof. induction m; simpl; auto. Qed.
Lemma wp_expected {E A} (m : M UiThread E A) s (g : bool) :
  wpM handing m (fun _ _ g' => g = true -> g' = true) s g.
Proof.
  apply (wpM_keeps handing (fun _ => True) (fun g' => g = true -> g' = true)); [done| |done|intros s1; apply calls_any|done].
  intros a g1 x g2 _ Hg ->. destruct a; try done. intros Ht. by rewrite Hg.
Qed.
Lemma accounted_steady {A} (m : M UiThread Empty_set A) s g :
  settles_in steady m s at_rest -> accounted s g -> wpM handing m (fun _ s' g' => accounted s' g') s g.
Proof.
  intros Hm Hg. eapply wp_mono; [eapply wp_returns; [exact (wp_monitor_returns _ _ _ _ _ Hm)|apply wp_expected]|].
  intros [r s'] g' [(_ & Hs & _) Hg'] Hb. apply Hg', Hg. by rewrite <- Hs.
Qed.

#[local] Hint Extern 0 (steady _ _) => reflexivity : moves.
#[local] Hint Resolve moves_publish moves_publish_status moves_localized moves_failure moves_presentation
  moves_cache_entries moves_terminal_cache moves_apply_audit moves_progress : moves.

(** A function that has read the state it starts from. *)
Lemma moves_from (R : UiThread -> UiThread -> Prop) `{!PreOrder R} {E A B} (m : M UiThread E A)
    (f : A -> M UiThread E B) s g :
  wpM ui_protocol m (fun _ s' g' => R s s' /\ g' = g) s g -> (forall a, moves R (f a)) ->
  wpM ui_protocol (let* x := m in f x) (fun _ s' g' => R s s' /\ g' = g) s g.
Proof.
  intros Hm Hf. apply wpM_bind. eapply wpM_mono; [exact Hm|]. intros [a|e] s1 g1 [Hs ->]; [|done].
  eapply wpM_mono; [apply Hf|]. intros r s2 g2 [Hs2 ->]. split; [by transitivity s1|done].
Qed.

Section Steady.
Context `{Fuel} `{Extern} `{Presentation}.

Lemma steady_clear_preflight {E} announce : moves steady (clear_migration_preflight (E:=E) announce).
Proof.
  apply moves_get. intros s g. apply (moves_from steady).
  - destruct (lock _); [by apply moves_put|]. by apply moves_call; [apply _|].
  - intros _. apply moves_bind; [apply _|by apply moves_update|]. intros _. apply moves_presentation.
Qed.
Lemma steady_reset {E} : moves steady (reset_migration_draft (E:=E)).
Proof.
  apply moves_bind; [apply _|apply steady_clear_preflight|]. intros _. apply moves_get. intros s g.
  apply (moves_from steady).
  - destruct (lock _); [by apply moves_put|]. by apply moves_call; [apply _|].
  - intros _. by apply moves_update.
Qed.
Lemma steady_select {E} index : moves steady (select_profile (E:=E) index).
Proof.
  apply moves_bind; [apply _|apply moves_ui, _|]. intros w. destruct (_ !! index); [|apply moves_ret, _].
  apply moves_bind; [apply _| |intros _; by apply moves_update].
  destruct (_ || _); [apply steady_reset|apply moves_ret, _].
Qed.
Lemma steady_parent {E} parent : moves steady (apply_migration_parent (E:=E) parent).
Proof.
  apply moves_bind; [apply _|apply moves_not_editable|]. intros []; [apply moves_ret, _|].
  apply moves_bind; [apply _|apply moves_ui, _|]. intros w.
  apply moves_bind; [apply _|by apply moves_update|]. intros _. apply steady_clear_preflight.
Qed.
Lemma steady_repair_confirmation {E} : moves steady (request_repair_confirmation (E:=E)).
Proof.
  apply moves_get. intros s g. destruct (flag_of _ _); [apply moves_localized|].
  destruct (is_empty _); [apply moves_localized|]. destruct (is_empty _); [apply moves_localized|].
  by apply moves_redraw.
Qed.
Lemma steady_prevalidate {E} : moves steady (prevalidate_migration (E:=E)).
Proof.
  apply moves_bind; [apply _|apply moves_not_editable|]. intros []; [apply moves_ret, _|].
  apply moves_bind; [apply _|apply moves_ui, _|]. intros w.
  assert (forall p (m : M UiThread E unit), moves steady m ->
    moves steady (do* clear_migration_preflight false in
                  do* cache_and_apply_migration_preflight_presentation p in m)) as Hclear.
  { intros p m Hm. apply moves_bind; [apply _|apply steady_clear_preflight|]. intros _.
    by apply moves_bind; [apply _|apply moves_presentation|]. }
  destruct (validate_migration_source _); [|apply Hclear, moves_localized].
  apply moves_bind; [apply _|apply moves_attempt, moves_windows, _|]. intros [v|error].
  - apply moves_get. intros s g. destruct (lock _); [|apply moves_failure].
    apply moves_put_then; [apply _|done|]. apply moves_bind; [apply _|by apply moves_update|].
    intros _. apply moves_presentation.
  - apply Hclear, moves_failure.
Qed.

(** *** The window drawn again *)
Lemma busy_report current r reset w :
  flag_of (render_report current r reset w) Ui.operation_busy = flag_of w Ui.operation_busy.
Proof.
  unfold render_report. destruct reset; [done|]. cbv zeta. by destruct (still_selected _ _).
Qed.
Lemma busy_cached report entries presentation terminal status current w :
  flag_of (render_cached report entries presentation terminal status current w) Ui.operation_busy
  = flag_of w Ui.operation_busy.
Proof.
  unfold render_cached.
  assert (flag_of (match report with Some r => render_report current r false w | None => w end) Ui.operation_busy
          = flag_of w Ui.operation_busy) as <-.
  { destruct report; [apply busy_report|done]. }
  by destruct entries, (render_preflight current presentation), terminal.
Qed.
Lemma steady_change_locale locale : moves steady (change_locale locale).
Proof.
  apply moves_bind; [apply _|apply moves_not_editable|]. intros []; [apply moves_ret, _|].
  apply moves_get. intros s g.
  destruct (lock (last_report s)), (lock (last_audit_entries s)), (lock (last_migration_terminal s));
    try (apply moves_throw, _).
  apply wpM_bind, wpM_bind, wpM_get. destruct (lock (migration_preflight_presentation s)); [|by apply wpM_throw].
  apply wpM_ret. destruct (lock (last_operator_status s)); [|by apply wpM_throw].
  apply wpM_bind, wpM_lift.
  destruct (set_locale_and_app_strings locale (window s)) as [[c w]|] eqn:Hl; cbn [result_map_err]; [|done].
  apply localised_flags in Hl.
  apply moves_put_then; [apply _|unfold steady, is_busy; cbn [put_window put_current window]; by rewrite Hl|].
  apply moves_bind; [apply _| |intros _; apply moves_ret, _].
  apply moves_redraw. intros s1. apply busy_cached.
Qed.
Lemma steady_report report : moves steady (cache_and_apply_report report true).
Proof.
  apply moves_get. intros s g. destruct (lock _); [|apply moves_throw, _].
  destruct (_ && _); [apply moves_throw, _|]. destruct (_ && _); [apply moves_throw, _|].
  apply moves_put_then; [apply _|done|]. apply moves_bind; [apply _| |intros _; by apply moves_redraw].
  apply moves_bind; [apply _|by apply moves_modify|]. intros _.
  apply moves_bind; [apply _|by apply moves_modify|]. intros _.
  apply moves_get. intros s1 g1. destruct (lock _); [by apply moves_put|apply moves_throw, _].
Qed.
End Steady.

(** ** Handlers *)
Section Handlers.
Context `{Fuel} `{Extern} `{Presentation}.
Abbreviation accounts :=
  (fun m s g => wpM handing (m : M UiThread Empty_set unit) (fun _ s' g' => accounted s' g') s g).

Lemma accounts_moves m s g : moves steady m -> accounted s g -> accounts m s g.
Proof. intros Hm. apply accounted_steady, moves_settles, Hm. Qed.
Lemma accounts_then {A} (m : M UiThread Empty_set A) f s g :
  moves steady m -> accounted s g -> (forall a s1 g1, accounted s1 g1 -> accounts (f a) s1 g1) ->
  accounts (let* x := m in f x) s g.
Proof.
  intros Hm Hg Hf. apply wpM_bind. eapply wpM_mono; [apply accounted_steady; [by apply moves_settles|done]|].
  intros [a|[]] s1 g1 Hg1. by apply Hf.
Qed.
Lemma accounts_any {A} (m : M UiThread Empty_set A) f s g :
  (forall a s1 g1, accounts (f a) s1 g1) -> accounts (let* x := m in f x) s g.
Proof. intros Hf. apply wpM_bind. eapply wpM_mono; [apply wp_expected|]. intros [a|[]] s1 g1 _. apply Hf. Qed.
Lemma accounts_idle m s g :
  moves steady m -> accounts (do* update (set_flag Ui.operation_busy false) in m) s g.
Proof. intros Hm. apply wpM_bind, wpM_bind, wpM_get, wpM_put. by apply accounts_moves. Qed.

(** Whatever the flag, a thread that is started will answer. *)
Lemma accounts_announced operation outcome target key w s g :
  accounts (do* publish_localized_status operation outcome target key in spawn w) s g.
Proof.
  apply accounts_any. intros _ s1 g1. apply wpM_bind. wp_call; [done|]. intros [] g2 ->; [|exact I].
  apply wpM_ret. intros _. apply orb_true_r.
Qed.

Definition begins_accounted (m : M UiThread Empty_set bool) : Prop :=
  forall s g, accounted s g -> wpM handing m (fun r s' g' => r = Ok true \/ accounted s' g') s g.
Lemma accounted_operation k : begins_accounted (begin_operation k).
Proof.
  intros s g Hg. apply wpM_bind. unfold try_begin. wp_call; [done|]. intros [] g1 ->; cbn [negb].
  - apply wpM_bind, wpM_bind, wpM_get, wpM_put, wpM_ret. by left.
  - apply wpM_bind. eapply wpM_mono; [apply accounted_steady; [apply moves_settles, moves_localized|exact Hg]|].
    intros [[]|[]] s1 g2 Hg2. apply wpM_ret. by right.
Qed.
Lemma accounted_elevated k : begins_accounted (elevated_begin k).
Proof.
  intros s g Hg. apply wpM_bind.
  eapply wpM_mono; [apply accounted_steady; [apply moves_settles, moves_elevation|exact Hg]|].
  intros [[]|[]] s1 g1 Hg1; [by apply accounted_operation|]. apply wpM_ret. by right.
Qed.
Lemma accounts_begin m (f : bool -> M UiThread Empty_set unit) s g :
  begins_accounted m -> accounted s g -> (forall s1 g1, accounts (f true) s1 g1) -> f false = ret tt ->
  accounts (let* b := m in f b) s g.
Proof.
  intros Hm Hg Ht Hn. apply wpM_bind. eapply wpM_mono; [by apply Hm|].
  intros [[]|[]] s1 g1 Hr; [apply Ht|]. rewrite Hn. apply wpM_ret. by destruct Hr.
Qed.

Lemma accounts_scan s g : accounted s g -> accounts scan_profiles s g.
Proof.
  intros Hg. apply accounts_begin; [apply accounted_operation|done| |done]. intros. apply accounts_announced.
Qed.
Lemma accounts_export s g : accounted s g -> accounts export_audit s g.
Proof.
  intros Hg. apply accounts_begin; [apply accounted_operation|done| |done]. intros. apply accounts_announced.
Qed.
Lemma accounts_ti s g : accounted s g -> accounts launch_ti_console s g.
Proof.
  intros Hg. apply accounts_begin; [apply accounted_elevated|done| |done]. intros. apply accounts_announced.
Qed.
Lemma accounts_repair dry s g : accounted s g -> accounts (execute_repair dry) s g.
Proof.
  intros Hg. apply accounts_then; [apply moves_ui, _|done|]. intros w s1 g1 Hg1.
  destruct (flag_of _ _); [apply accounts_moves; [apply moves_localized|done]|].
  apply accounts_begin; [apply accounted_elevated|done| |done]. intros s2 g2. cbn [negb].
  apply accounts_any. intros w2 s3 g3. apply accounts_announced.
Qed.
Lemma accounts_begin_migration plan s g : accounted s g -> accounts (begin_migration plan) s g.
Proof.
  intros Hg. apply accounts_begin; [apply accounted_elevated|done| |done]. intros s1 g1. cbn [negb].
  apply accounts_any. intros c s2 g2. apply accounts_any. intros [] s3 g3; cbn [negb].
  - apply accounts_any. intros _ s4 g4. apply accounts_any. intros _ s5 g5. apply accounts_announced.
  - apply accounts_any. intros _ s4 g4. apply accounts_idle, moves_failure.
Qed.
Lemma steady_take : moves steady (take_preflight (E:=Empty_set)).
Proof.
  apply moves_get. intros s g. destruct (lock _); [|apply moves_ret, _].
  by apply moves_put_then; [apply _| |apply moves_ret, _].
Qed.
Lemma accounts_start s g : accounted s g -> accounts start_migration s g.
Proof.
  intros Hg. apply accounts_then; [apply moves_ui, _|done|]. intros w s1 g1 Hg1.
  destruct (validate_migration_source _); [|apply accounts_moves; [apply moves_localized|done]].
  cbv zeta. destruct (_ || _); [apply accounts_any; intros _ s2 g2; apply accounts_idle, moves_localized|].
  apply accounts_then; [apply steady_take|done|]. intros [token|] s2 g2 Hg2;
    [|apply accounts_moves; [apply moves_failure|done]].
  destruct (negb _); (apply accounts_then; [apply moves_presentation|done|]); intros _ s3 g3 Hg3;
    (apply accounts_then; [by apply moves_update|done|]); intros _ s4 g4 Hg4.
  - apply accounts_moves; [apply moves_localized|done].
  - by apply accounts_begin_migration.
Qed.
Lemma accounts_confirm s g : accounted s g -> accounts confirm s g.
Proof.
  intros Hg. apply accounts_then; [by apply moves_update|done|]. intros _ s1 g1 Hg1.
  apply accounts_then; [apply moves_ui, _|done|]. intros w s2 g2 Hg2. apply wpM_bind.
  apply (wpM_mono _ _ (fun _ s' g' => accounted s' g')).
  - unfold confirm_action. destruct (Z.eqb _ _); [by apply accounts_repair|].
    destruct (Z.eqb _ _); [by apply accounts_ti|]. by apply wpM_ret.
  - intros [[]|[]] s3 g3 Hg3. by apply wpM_bind, wpM_get, wpM_put.
Qed.

(** Every event, whether the window had enabled it or not. *)
Lemma accounts_event e s g : accounted s g -> accounts (handle e) s g.
Proof.
  intros Hg. destruct e; cbn [handle];
    try (by apply accounts_moves; [apply moves_update|]);
    try (apply accounts_then; [by apply moves_update|done|]; intros _ s1 g1 Hg1;
         by apply accounts_moves; [apply steady_clear_preflight|]).
  - apply accounts_then; [|done|intros _; apply accounts_scan].
    apply moves_bind; [apply _|apply moves_attempt, moves_audited, _|]. intros r. apply moves_apply_audit.
  - apply accounts_moves; [|done]. apply moves_bind; [apply _|apply moves_attempt, steady_change_locale|].
    intros r. apply moves_ret, _.
  - by apply accounts_scan.
  - by apply accounts_moves; [apply steady_select|].
  - by apply accounts_repair.
  - by apply accounts_moves; [apply steady_repair_confirmation|].
  - apply accounts_moves; [|done]. destruct picked as [[parent|]|error]; cbn [pick_migration_parent];
      [apply steady_parent|apply moves_ret, _|apply moves_picker_failure].
  - by apply accounts_moves; [apply steady_prevalidate|].
  - by apply accounts_start.
  - by apply accounted_steady; [apply settles_cancel, _|].
  - by apply accounts_moves; [apply moves_redraw|].
  - by apply accounts_confirm.
  - by apply accounts_export.
  - by apply accounts_moves; [apply moves_clear_logs|].
  - by apply accounted_steady; [apply settles_close_requested, _|].
Qed.
End Handlers.

(** ** Closures: the one with a result lights the controls, whatever they were *)
Section Closures.
Context `{Fuel} `{Extern} `{Presentation}.
Abbreviation accounts :=
  (fun m s g => wpM handing (m : M UiThread Empty_set unit) (fun _ s' g' => accounted s' g') s g).

Lemma steady_applied {E} report (f : result str unit -> M UiThread E unit) :
  (forall r, moves steady (f r)) ->
  moves steady (let* r := attempt (cache_and_apply_report report true) in f r).
Proof. intros Hf. by apply moves_bind; [apply _|apply moves_attempt, steady_report|]. Qed.
Lemma steady_outcome {E} r target : moves steady (migration_outcome (E:=E) r target).
Proof.
  destruct r as [receipt|e].
  2:{ destruct e; cbn [migration_outcome];
        match goal with
        | |- moves _ (terminal TerminalCancelled _ _) => apply moves_terminal, moves_localized
        | _ => apply moves_terminal, moves_failure
        end. }
  apply moves_bind; [apply _|by apply moves_update|]. intros _. apply moves_terminal, moves_publish_status.
Qed.
Lemma accounts_shown (m : M UiThread Empty_set unit) r s g :
  moves steady m -> accounts (do* not_busy in do* m in apply_audit_result r) s g.
Proof.
  intros Hm. apply accounts_idle, moves_bind; [apply _|exact Hm|]. intros _. apply moves_apply_audit.
Qed.
Lemma accounts_finishing c s g : finishing c = true -> accounts (ui_closure c) s g.
Proof.
  destruct c as [r entries|r report target entries|r close target entries|r entries|r|queue]; try done; intros _;
    cbn [ui_closure].
  - apply accounts_shown. destruct r; [|apply moves_failure].
    apply steady_applied. intros [[]|error]; [apply moves_publish|apply moves_failure].
  - apply accounts_shown. destruct r; [|apply moves_failure].
    destruct report as [[report|error]|]; [|apply moves_refresh_warning|apply moves_localized].
    apply steady_applied. intros [[]|error]; [apply moves_localized|apply moves_failure].
  - apply accounts_idle, moves_bind; [apply _|by apply moves_update|]. intros _.
    apply moves_bind; [apply _|apply steady_outcome|]. intros _.
    apply moves_bind; [apply _|apply moves_apply_audit|]. intros _. destruct close; [|apply moves_ret, _].
    apply moves_bind; [apply _|by apply moves_call; [apply _|]|]. intros b. apply moves_ret, _.
  - apply accounts_shown. destruct r; [apply moves_publish_status|apply moves_failure].
  - apply accounts_idle. destruct r; [apply moves_publish_status|apply moves_failure].
Qed.
End Closures.

(** ** The invariant *)
Section Invariant.
Context `{Fuel} `{Extern} `{JournalCodec} `{SnapshotCodec} `{Sha2} `{Presentation}.
Context (snapshot_engine : SnapshotEngine) (audit_logger : AuditLogger).

Definition idle_invariant (s : App) : Prop :=
  match ui_code s with
  | None => is_busy (ui_thread s) = true -> 0 < pending (workers s) (closures s)
  | Some p => exists g : bool,
      wp handing p (fun '(_, t) g => accounted t g) g /\ (g = true -> 0 < pending (workers s) (closures s))
  end.

(** No call makes less pending; starting a thread makes more. *)
Lemma pending_grows a x ts cs :
  pending ts cs <= pending (ts ++ spawned snapshot_engine audit_logger a x) (cs ++ queued a x).
Proof. unfold pending. rewrite unposted_app, finishing_app. lia. Qed.
Lemma pending_spawned w ts cs :
  0 < pending (ts ++ spawned snapshot_engine audit_logger (Spawn w) true) (cs ++ queued (Spawn w) true).
Proof. unfold pending. rewrite unposted_app. cbn [spawned]. rewrite unposted_cons. cbn. lia. Qed.
Lemma pending_moved a x t c before after cs :
  pending (before ++ t :: after) cs
  <= pending (before ++ {| running_kind := running_kind t; code := c; did := worker_see a x (did t) |}
                :: after ++ spawned snapshot_engine audit_logger a x) (cs ++ queued a x).
Proof.
  unfold pending. rewrite !unposted_app, !unposted_cons, unposted_app, finishing_app. cbn [did].
  destruct a; cbn [worker_see posted queued]; try (rewrite ?finishing_nil; lia).
  destruct x; cbn [andb]; rewrite ?andb_true_r, ?andb_false_r, ?orb_false_r, ?finishing_cons, ?finishing_nil; [|lia].
  destruct (posted (did t)), (finishing c0); cbn [orb]; lia.
Qed.

Lemma idle_step s s' : idle_invariant s -> step snapshot_engine audit_logger s s' -> idle_invariant s'.
Proof.
  unfold idle_invariant. intros Hinv Hstep.
  destruct Hstep as [e Hc He|c cs Hc Hq|a k x m Hc Hacc|r t Hc|before t after a k x m Hw Ht Hacc];
    cbn [ui_code ui_thread workers closures]; rewrite ?Hc in Hinv.
  - exists (is_busy (ui_thread s)). split; [apply (accounts_event e); by intros Hb|done].
  - rewrite Hq in Hinv. unfold pending in Hinv. rewrite finishing_cons in Hinv.
    destruct (finishing c) eqn:Hf.
    + exists (bool_decide (0 < pending (workers s) cs)). split; [by apply (accounts_finishing c)|].
      apply bool_decide_eq_true.
    + exists (is_busy (ui_thread s)). split; [|done]. destruct c; try done.
      apply (accounts_moves (progress_update queue)); [apply moves_progress|by intros Hb].
  - destruct Hinv as (g & [_ Hk] & Hg). eexists. split; [by apply Hk|].
    pose proof (pending_grows a x (workers s) (closures s)) as Hle. intros Hg'.
    destruct a; try (specialize (Hg Hg'); lia). destruct x; [apply pending_spawned|].
    rewrite orb_false_r in Hg'. specialize (Hg Hg'). lia.
  - destruct Hinv as (g & Hend & Hg). intros Hb. by apply Hg, Hend.
  - rewrite Hw in Hinv. pose proof (pending_moved a x t (k x) before after (closures s)) as Hle.
    destruct (ui_code s) as [p|].
    + destruct Hinv as (g & Hp & Hg). exists g. split; [done|]. intros Ht'. specialize (Hg Ht'). lia.
    + intros Hb. specialize (Hinv Hb). lia.
Qed.
Lemma reachable_idle s : reachable snapshot_engine audit_logger s -> idle_invariant s.
Proof.
  induction 1 as [s Hs|s s' _ IH Hstep]; [|by eapply idle_step].
  destruct Hs as [Hc _ _ _ _ _ _ _ _ Hb _ _]. unfold idle_invariant, is_busy. rewrite Hc. congruence.
Qed.

(** A worker has not delivered its result, or the closure with it is queued. *)
Definition expecting (s : App) : Prop :=
  Exists (fun t => posted (did t) = false) (workers s) \/ Exists (fun c => finishing c = true) (closures s).
Lemma expecting_pending s : expecting s <-> 0 < pending (workers s) (closures s).
Proof.
  unfold expecting, pending.
  assert (Exists (fun t => posted (did t) = false) (workers s) <-> 0 < unposted (workers s)) as ->.
  { induction (workers s) as [|t ts IH]; [by rewrite Exists_nil, unposted_nil; split; [|lia]|].
    rewrite Exists_cons, unposted_cons, IH. destruct (posted (did t)); split; intros; naive_solver lia. }
  assert (Exists (fun c => finishing c = true) (closures s) <-> 0 < finishing_closures (closures s)) as ->; [|lia].
  induction (closures s) as [|c cs IH]; [by rewrite Exists_nil, finishing_nil; split; [|lia]|].
  rewrite Exists_cons, finishing_cons, IH. destruct (finishing c); split; intros; naive_solver lia.
Qed.

(** C11: the controls are dark exactly while a result is expected.  In every
    reachable state between two events the window is busy if and only if a
    worker has not delivered its result or the closure with the result waits in
    the queue; and then every control that begins an operation, edits the draft
    of a migration or confirms an action is disabled.  So two operations never
    overlap on the screen, and no path of a handler, errors included, leaves
    the controls dark for good. *)
Theorem busy_exactly_while_expecting (s : App)
    (Hs : reachable snapshot_engine audit_logger s) (Hrest : ui_code s = None) :
  (flag_of (window (ui_thread s)) Ui.operation_busy = true <-> expecting s)
  /\ (expecting s -> forall e, exclusive e = true -> enabled e (window (ui_thread s)) = false).
Proof.
  rewrite expecting_pending. split; [split|].
  - apply reachable_idle in Hs. unfold idle_invariant in Hs. by rewrite Hrest in Hs.
  - intros Hp. by eapply (dark_while_pending _ _ _ ClickScan).
  - intros Hp e He. by eapply dark_while_pending.
Qed.
End Invariant.

(** A migration runs: it cannot be started again. *)
Lemma busy_exactly_while_expecting_witness :
  ui_code sample_started = None
  /\ (flag_of (window (ui_thread sample_started)) Ui.operation_busy = true <-> expecting sample_started)
  /\ enabled ClickStart (window (ui_thread sample_started)) = false.
Proof.
  assert (ui_code sample_started = None) as Hrest by (vm_compute; reflexivity).
  assert (flag_of (window (ui_thread sample_started)) Ui.operation_busy = true) as Hlit by (vm_compute; reflexivity).
  destruct (busy_exactly_while_expecting _ _ sample_started (sample_reachable [Event ClickStart; Loop 40]) Hrest)
    as [Hb Hd].
  split; [exact Hrest|]. split; [exact Hb|]. exact (Hd (proj1 Hb Hlit) ClickStart eq_refl).
Defined.
