(* ===== verification/Locks.v ===== *)
(** * Locks: the application does not deadlock

    Three kinds of mutexes are shared: the slot of the cancellation token, the
    display buffer of the journal, and the queues of progress.  Every thread
    takes them in one order: the slot and the buffer are taken by a thread that
    holds nothing, a queue by one that may hold the buffer, and each is given
    back before the thread ends.  So whenever a thread has a call to make, some
    thread can make its call; and no thread ever waits for the buffer.  The
    caches of the controller have mutexes that only the event loop takes; they
    are values of its state. *)

From stdpp Require Import base list gmap strings.
From S2P Require Import Prelude Text Path Effects I18n Models Win32 Security SecureFs Storage Journal Snapshot Repair Scanner Migration Tokens Window Shared Launch Controller System Threads Drafts Schedules SystemSpec Closing.

(** ** What a thread holds, and the shared objects it knows *)
Record Locks : Type := {
  slot : bool;
  buffer : bool;
  queue_held : option nat;
  known_queues : list nat;
  known_flags : list nat;
}.
Definition holding_nothing (g : Locks) : Prop := slot g = false /\ buffer g = false /\ queue_held g = None.

Definition locking_ok (a : shared) (g : Locks) : Prop :=
  match a with
  | LockCancellation | LockMemory => holding_nothing g
  | ReleaseCancellation _ => slot g = true
  | ReleaseMemory _ => buffer g = true
  | LockQueue q => slot g = false /\ queue_held g = None /\ q ∈ known_queues g
  | ReleaseQueue q _ => queue_held g = Some q
  | FlagLoad f => f ∈ known_flags g
  | UpgradeInEventLoop (ProgressUpdate q) => q ∈ known_queues g
  | UpgradeInEventLoop _ => buffer g = false
  | Spawn w => buffer g = false /\ match w with MigrationWorker _ f _ => f ∈ known_flags g | _ => True end
  | _ => True
  end.
Definition with_locks (s b : bool) (q : option nat) (g : Locks) : Locks :=
  {| slot := s; buffer := b; queue_held := q; known_queues := known_queues g; known_flags := known_flags g |}.
Definition locking_see (a : shared) : shared_resp a -> Locks -> Locks :=
  match a return shared_resp a -> Locks -> Locks with
  | LockCancellation => fun x g => with_locks (bool_decide (is_Some x)) (buffer g) (queue_held g) g
  | ReleaseCancellation _ => fun _ g => with_locks false (buffer g) (queue_held g) g
  | LockMemory => fun _ g => with_locks (slot g) true (queue_held g) g
  | ReleaseMemory _ => fun _ g => with_locks (slot g) false (queue_held g) g
  | LockQueue q => fun x g => with_locks (slot g) (buffer g) (match x with Some _ => Some q | None => None end) g
  | ReleaseQueue _ _ => fun _ g => with_locks (slot g) (buffer g) None g
  | QueueNew => fun q g =>
      {| slot := slot g; buffer := buffer g; queue_held := queue_held g; known_queues := q :: known_queues g;
         known_flags := known_flags g |}
  | FlagNew _ => fun f g =>
      {| slot := slot g; buffer := buffer g; queue_held := queue_held g; known_queues := known_queues g;
         known_flags := f :: known_flags g |}
  | _ => fun _ g => g
  end.
Definition locking : protocol Locks := monitor locking_ok locking_see.

(** A thread does not forget what it knows. *)
Definition richer (g g' : Locks) : Prop :=
  known_queues g ⊆ known_queues g' /\ known_flags g ⊆ known_flags g'.
#[export] Instance richer_preorder : PreOrder richer.
Proof. split; [by intros g|]. intros g1 g2 g3 [] []. split; by etrans. Qed.
Lemma richer_see a x g : richer g (locking_see a x g).
Proof. destruct a; split; cbn; set_solver. Qed.

(** Calls that concern no mutex and name no shared object; those of a thread
    that does not hold the buffer may also start a thread or post a result. *)
Definition plain (a : shared) : Prop :=
  match a with
  | LockCancellation | ReleaseCancellation _ | LockMemory | ReleaseMemory _ | LockQueue _ | ReleaseQueue _ _
  | FlagLoad _ | QueueNew | UpgradeInEventLoop _ | Spawn _ => False
  | _ => True
  end.
Definition unheld (a : shared) : Prop :=
  match a with
  | UpgradeInEventLoop c => finishing c = true
  | Spawn w => match w with MigrationWorker _ _ _ => False | _ => True end
  | a => plain a
  end.
Definition same_locks (g g' : Locks) : Prop :=
  slot g' = slot g /\ buffer g' = buffer g /\ queue_held g' = queue_held g /\ richer g g'.
#[export] Instance same_locks_preorder : PreOrder same_locks.
Proof.
  split; [by intros g; split_and!|]. intros g1 g2 g3 (? & ? & ? & ?) (? & ? & ? & ?).
  split_and!; [congruence..|by etrans].
Qed.
Lemma plain_ok a g : plain a -> locking_ok a g.
Proof. by destruct a. Qed.
Lemma unheld_ok a g : unheld a -> buffer g = false -> locking_ok a g.
Proof. intros Hu Hb. destruct a; try (by apply plain_ok); [by destruct w|by destruct c]. Qed.
Lemma unheld_see a x g : unheld a -> same_locks g (locking_see a x g).
Proof. intros Hp. split_and!; try apply richer_see; by destruct a. Qed.
Lemma plain_see a x g : plain a -> same_locks g (locking_see a x g).
Proof. intros Hp. apply unheld_see. by destruct a. Qed.
Lemma wp_plain {R} (m : prog R) g : calls plain m -> wp locking m (fun _ g' => same_locks g g') g.
Proof.
  intros Hm. apply (wp_keeps locking plain (same_locks g)); [| |done|done|done].
  - intros a g' Ha _. by apply plain_ok.
  - intros a g' x g'' Ha Hg ->. etrans; [exact Hg|by apply plain_see].
Qed.

Lemma wp_unheld {R} (m : prog R) g :
  calls unheld m -> buffer g = false -> wp locking m (fun _ g' => same_locks g g') g.
Proof.
  intros Hm Hb. apply (wp_keeps locking unheld (same_locks g)); [| |done|done|done].
  - intros a g' Ha (_ & Hb' & _). apply unheld_ok; [done|congruence].
  - intros a g' x g'' Ha Hg ->. etrans; [exact Hg|by apply unheld_see].
Qed.

(** ** Functions that begin and end with nothing held *)
Definition clean {S E A} (m : M S E A) : Prop :=
  forall s g, holding_nothing g -> wpM locking m (fun _ _ g' => holding_nothing g' /\ richer g g') s g.
Lemma same_nothing g g' : same_locks g g' -> holding_nothing g -> holding_nothing g'.
Proof. intros (H1 & H2 & H3 & _) (? & ? & ?). unfold holding_nothing. by rewrite H1, H2, H3. Qed.

Section Clean.
Context {S : Type}.
Lemma clean_unheld {E A} (m : M S E A) : mcalls unheld m -> clean m.
Proof.
  intros Hm s g Hg. eapply wp_mono; [apply wp_unheld; [apply Hm|apply Hg]|]. intros [r s'] g' Hs.
  split; [by eapply same_nothing|]. apply Hs.
Qed.
Lemma clean_ends {E A} (m : M S E A) s g :
  clean m -> holding_nothing g -> wpM locking m (fun _ _ g' => holding_nothing g') s g.
Proof. intros Hm Hg. eapply wpM_mono; [by apply Hm|]. by intros r s' g' []. Qed.
Lemma clean_ret {E A} (a : A) : clean (ret (S:=S) (E:=E) a).
Proof. by intros s g. Qed.
Lemma clean_bind {E A B} (m : M S E A) (f : A -> M S E B) :
  clean m -> (forall a, clean (f a)) -> clean (mbind m f).
Proof.
  intros Hm Hf s g Hg. apply wpM_bind. eapply wpM_mono; [by apply Hm|]. intros [a|e] s1 g1 [Hg1 Hr]; [|done].
  eapply wpM_mono; [by apply Hf|]. intros r s2 g2 [Hg2 Hr2]. split; [done|by etrans].
Qed.
Lemma clean_attempt {E E' A} (m : M S E A) : clean m -> clean (attempt (E':=E') m).
Proof. intros Hm s g Hg. by apply wpM_attempt, Hm. Qed.
Lemma clean_map_err {E E' A} (f : E -> E') (m : M S E A) : clean m -> clean (map_err f m).
Proof. intros Hm s g Hg. by apply wpM_map_err, Hm. Qed.
Lemma clean_defer {E A} (c : M S unit unit) (m : M S E A) : clean c -> clean m -> clean (defer c m).
Proof.
  intros Hc Hm s g Hg. apply wpM_defer. eapply wpM_mono; [by apply Hm|]. intros r s1 g1 [Hg1 Hr].
  eapply wpM_mono; [by apply Hc|]. intros _ s2 g2 [Hg2 Hr2]. split; [done|by etrans].
Qed.

Lemma wp_embed {R} (I : Locks -> Prop) h (m : @prog sys_signature R) :
  (forall a g, I g -> wp locking (h a) (fun _ g' => I g') g) ->
  forall g, I g -> wp locking (embed h m) (fun _ g' => I g') g.
Proof.
  intros Hh. induction m as [r|a k IH|e]; intros g Hg; cbn [embed]; [done| |done].
  apply wp_bind. eapply wp_mono; [by apply Hh|]. intros x g' Hg'. by apply IH.
Qed.
(** The display buffer is held while a function of the other crates runs. *)
Definition holding_buffer (g : Locks) : Prop := slot g = false /\ buffer g = true /\ queue_held g = None.
Lemma wp_with_memory {E A} h (m : @M sys_signature AppState E A) s g :
  holding_nothing g ->
  (forall a g', holding_buffer g' -> richer g g' ->
     wp locking (h a) (fun _ g'' => holding_buffer g'' /\ richer g g'') g') ->
  wpM locking (with_memory (S:=S) h m) (fun _ _ g' => holding_nothing g' /\ richer g g') s g.
Proof.
  intros (Hs & Hb & Hq) Hh. apply wpM_bind. wp_call; [done|]. intros v g1 ->. apply wpM_bind, wp_bind.
  eapply wp_mono; [apply (wp_embed (fun g' => holding_buffer g' /\ richer g g'))|].
  - intros a g' [Hg' Hr']. by apply Hh.
  - split; [by split_and!|apply (richer_see LockMemory v)].
  - intros [r v'] g2 [(Hs2 & Hb2 & Hq2) Hr2]. apply wpM_bind. wp_call; [done|]. intros [] g3 ->.
    apply wpM_lift. split; [by split_and!|]. etrans; [exact Hr2|apply (richer_see (ReleaseMemory v') tt)].
Qed.
Lemma clean_audited {E A} (m : @M sys_signature AppState E A) : clean (audited (S:=S) m).
Proof.
  intros s g Hg. apply wp_with_memory; [done|]. intros a g' Hb Hr. split; [done|]. by intros x g'' ->.
Qed.
Lemma clean_windows {E A} (m : @M sys_signature unit E A) : clean (windows (S:=S) m).
Proof. apply clean_unheld. by apply mcalls_windows. Qed.
End Clean.

Create HintDb clean discriminated.
#[local] Hint Resolve clean_ret clean_audited clean_windows : clean.
Ltac clean_step :=
  first
    [ match goal with |- forall _, _ => intros ? end
    | apply clean_bind | apply clean_attempt | apply clean_map_err | apply clean_defer
    | match goal with |- clean (match ?x with _ => _ end) => destruct x end ].
Ltac solve_clean := repeat first [ solve [eauto 2 with clean] | clean_step ].

(** ** Workers *)
Section Workers.
Context `{Fuel} `{Extern} `{JournalCodec} `{SnapshotCodec} `{Sha2}.
Context (snapshot_engine : SnapshotEngine) (audit_logger : AuditLogger).

(** A thread starts with the token it was given. *)
Definition starting (w : Worker) : Locks :=
  {| slot := false; buffer := false; queue_held := None; known_queues := [];
     known_flags := match w with MigrationWorker _ f _ => [f] | _ => [] end |}.

Lemma clean_read_entries {S E} : clean (read_audit_entries (S:=S) (E:=E)).
Proof. unfold read_audit_entries. solve_clean. Qed.
#[local] Hint Resolve clean_read_entries : clean.
Lemma clean_conclusion (c : bool -> UiClosure) :
  (forall b, finishing (c b) = true) -> clean (let* b := finish in post (c b)).
Proof.
  intros Hc. apply clean_unheld. unfold finish, post. solve_calls. specialize (Hc a). by destruct (c a).
Qed.
Lemma clean_scan_worker : clean (scan_worker audit_logger).
Proof.
  unfold scan_worker, scan_result, audited_scan, log_scan.
  apply clean_bind; [solve_clean|intros r]. apply clean_bind; [apply clean_read_entries|].
  intros entries. by apply (clean_conclusion (fun _ => ScanFinished r entries)).
Qed.
Lemma clean_repair_worker plan is_loaded target :
  clean (repair_worker snapshot_engine audit_logger plan is_loaded target).
Proof.
  unfold repair_worker. apply clean_bind; [solve_clean|intros r]. apply clean_bind; [solve_clean|intros report].
  apply clean_bind; [apply clean_read_entries|]. intros entries.
  by apply (clean_conclusion (fun _ => RepairFinished _ report target entries)).
Qed.
Lemma clean_trustedinstaller_worker : clean (trustedinstaller_worker audit_logger).
Proof.
  unfold trustedinstaller_worker. apply clean_bind; [|intros r].
  - unfold execute_trustedinstaller_launch, settle_launch, failed_launch, compensate, console_launcher.
    cbn [record acquire_trustedinstaller_operation_guard drop_guard managed_pid terminate wait_for_exit
         drop_managed JournalAudit LaunchedManagedProcess].
    solve_clean; try (by apply clean_unheld).
  - apply clean_bind; [apply clean_read_entries|]. intros entries.
    by apply (clean_conclusion (fun _ => TrustedInstallerFinished r entries)).
Qed.
Lemma clean_export_worker : clean (export_worker audit_logger).
Proof.
  unfold export_worker. apply clean_bind; [solve_clean|intros r].
  by apply (clean_conclusion (fun _ => ExportFinished r)).
Qed.

(** The slot is emptied under its mutex, and the mutex given back. *)
Lemma clean_retire r : clean (retire_cancellation r).
Proof.
  intros s g (Hs & Hb & Hq). apply wpM_bind. wp_call; [done|]. intros [v|] g1 ->.
  - apply wpM_bind. wp_call; [done|]. intros [] g2 ->. by apply wpM_ret.
  - by apply wpM_ret.
Qed.
Lemma clean_settle r target : clean (settle_migration r target).
Proof.
  apply clean_bind; [apply clean_retire|]. intros r'. apply clean_bind; [apply clean_read_entries|].
  intros entries. by apply (clean_conclusion (fun b => MigrationFinished r' b target entries)).
Qed.

(** The callbacks run with the buffer held and take a queue at most. *)
Lemma wp_queue_progress q progress g :
  holding_buffer g -> q ∈ known_queues g ->
  wpM locking (queue_migration_progress q progress)
    (fun _ _ g' => holding_buffer g' /\ richer g g') tt g.
Proof.
  intros (Hs & Hb & Hq) Hk. apply wpM_bind. wp_call; [done|]. intros state g1 ->. apply wpM_bind.
  apply (wpM_mono _ _ (fun _ _ g' => holding_buffer g' /\ known_queues g' = known_queues g
                                     /\ known_flags g' = known_flags g)).
  { destruct state as [state|].
    - apply wpM_bind. wp_call; [done|]. intros [] g2 ->. by apply wpM_ret.
    - apply wpM_bind. unfold tracing_error. wp_call; [done|]. intros [] g2 ->. by apply wpM_ret. }
  intros [[]|[]] [] g2 ((Hs2 & Hb2 & Hq2) & Hkq & Hkf); cbn [negb].
  2:{ apply wpM_ret. split; [done|]. unfold richer. by rewrite Hkq, Hkf. }
  apply wpM_bind. wp_call; [cbn; by rewrite Hkq|]. intros [] g3 ->.
  { apply wpM_ret. split; [done|]. unfold richer. cbn [locking_see]. by rewrite Hkq, Hkf. }
  apply wpM_bind. wp_call; [cbn; by rewrite Hkq|]. intros state2 g3 ->. apply wpM_bind.
  apply (wpM_mono _ _ (fun _ _ g' => holding_buffer g' /\ known_queues g' = known_queues g
                                     /\ known_flags g' = known_flags g)).
  { destruct state2 as [state2|]; [wp_call; [done|]; by intros [] g3 ->|by apply wpM_ret]. }
  intros [[]|[]] [] g3 (Hh3 & Hkq3 & Hkf3). unfold tracing_error. wp_call; [done|]. intros [] g4 ->.
  split; [done|]. unfold richer. cbn [locking_see]. by rewrite Hkq3, Hkf3.
Qed.
Lemma wp_callbacks q cancellation a g :
  holding_buffer g -> q ∈ known_queues g -> cancellation ∈ known_flags g ->
  wp locking (migration_callbacks q cancellation a) (fun _ g' => holding_buffer g' /\ richer g g') g.
Proof.
  intros Hg Hq Hf. destruct a; try (by split; [|intros x g' ->]).
  apply wp_bind. eapply wp_mono; [by apply wp_queue_progress|]. by intros [r []] g'.
Qed.
Lemma migration_worker_locks plan cancellation target :
  wpM locking (migration_worker audit_logger plan cancellation target)
    (fun _ _ g' => holding_nothing g') tt (starting (MigrationWorker plan cancellation target)).
Proof.
  apply wpM_bind. wp_call; [done|]. intros q g1 ->. apply wpM_bind, wpM_attempt.
  eapply wpM_mono; [apply wp_with_memory; [done|]|].
  - intros a g' Hb [Hkq Hkf]. eapply wp_mono; [apply wp_callbacks; [done|set_solver..]|].
    intros x g'' [Hb' Hr']. split; [done|]. by etrans; [split|].
  - intros r [] g2 [Hg2 _]. by apply clean_ends; [apply clean_settle|].
Qed.
Lemma worker_locks w :
  wpM locking (worker_body snapshot_engine audit_logger w) (fun _ _ g' => holding_nothing g') tt (starting w).
Proof.
  destruct w; [|..|apply migration_worker_locks| |]; cbn [worker_body]; apply clean_ends; try done.
  - apply clean_scan_worker.
  - apply clean_repair_worker.
  - apply clean_trustedinstaller_worker.
  - apply clean_export_worker.
Qed.
End Workers.

(** ** Events and closures *)
#[local] Hint Unfold scan_profiles begin_operation elevated_begin execute_repair launch_ti_console export_audit
  confirm confirm_action spawn try_begin handle_close_requested : calls.
Lemma plain_windows {S E A} (m : @M sys_signature unit E A) : mcalls plain (windows (S:=S) m).
Proof. by apply mcalls_windows. Qed.
Lemma unheld_windows {S E A} (m : @M sys_signature unit E A) : mcalls unheld (windows (S:=S) m).
Proof. by apply mcalls_windows. Qed.
#[local] Hint Resolve plain_windows unheld_windows : calls.

Section Handlers.
Context `{Fuel} `{Extern} `{Presentation}.

(** Functions given a cancellation token that exists. *)
Definition clean_with (f : nat) {A} (m : M UiThread Empty_set A) : Prop :=
  forall s g, holding_nothing g -> f ∈ known_flags g ->
  wpM locking m (fun _ _ g' => holding_nothing g' /\ richer g g') s g.
Lemma clean_with_bind f {A B} (m : M UiThread Empty_set A) (k : A -> M UiThread Empty_set B) :
  clean m -> (forall a, clean_with f (k a)) -> clean_with f (mbind m k).
Proof.
  intros Hm Hk s g Hg Hf. apply wpM_bind. eapply wpM_mono; [by apply Hm|]. intros [a|e] s1 g1 [Hg1 Hr]; [|done].
  eapply wpM_mono; [apply Hk; [done|by apply Hr]|]. intros r s2 g2 [Hg2 Hr2]. split; [done|by etrans].
Qed.

Lemma clean_publish_cancellation c : clean (publish_cancellation (E:=Empty_set) c).
Proof.
  intros s g (Hs & Hb & Hq). apply wpM_bind. wp_call; [done|]. intros [v|] g1 ->; [|by apply wpM_ret].
  apply wpM_bind, wpM_bind. wp_call; [done|]. intros [] g2 ->.
  - wp_call; [done|]. intros [] g2 ->. apply wpM_bind. wp_call; [done|]. intros [] g2 ->. by apply wpM_ret.
  - apply wpM_ret, wpM_bind. wp_call; [done|]. intros [] g2 ->. by apply wpM_ret.
Qed.
Lemma clean_begin_migration plan : clean (begin_migration (E:=Empty_set) plan).
Proof.
  apply clean_bind; [apply clean_unheld; by solve_calls|]. intros begun. destruct (negb begun); [apply clean_ret|].
  intros s g Hg. apply wpM_bind. wp_call; [done|]. intros c g1 ->.
  apply (wpM_mono _ _ (fun _ _ g' => holding_nothing g' /\ richer (locking_see (FlagNew false) c g) g')).
  2:{ intros r s2 g2 [Hg2 Hr]. split; [done|]. etrans; [apply (richer_see (FlagNew false) c)|exact Hr]. }
  apply (clean_with_bind c); [apply clean_publish_cancellation| |done|cbn; set_solver]. intros [] s1 g1 Hg1 Hc; cbn [negb].
  - revert s1 g1 Hg1 Hc. change (clean_with c (do* update (set_flag Ui.migration_running true) in
      do* update (set_number Ui.migration_progress 0) in
      do* publish_localized_status ForMigration Running (source_path plan) ($"status.migrating") in
      spawn (MigrationWorker plan c (source_path plan)))).
    do 3 (apply clean_with_bind; [apply clean_unheld; by solve_calls|intros _]).
    intros s1 g1 Hg1 Hc. apply wpM_bind. wp_call; [split; [apply Hg1|done]|]. by intros [] g2 ->.
  - by apply (clean_unheld (do* finish in _)); [solve_calls|].
Qed.
Lemma clean_start : clean (start_migration (E:=Empty_set)).
Proof.
  apply clean_bind; [apply clean_unheld; by solve_calls|]. intros w.
  destruct (validate_migration_source _); [|apply clean_unheld; by solve_calls]. cbv zeta.
  destruct (_ || _); [apply clean_unheld; by solve_calls|].
  apply clean_bind; [apply clean_unheld; by solve_calls|]. intros [token|]; [|apply clean_unheld; by solve_calls].
  destruct (negb _); [apply clean_unheld; by solve_calls|].
  apply clean_bind; [apply clean_unheld; by solve_calls|]. intros _.
  apply clean_bind; [apply clean_unheld; by solve_calls|]. intros _. apply clean_begin_migration.
Qed.

(** What follows the locking of the slot. *)
Definition slot_only (g : Locks) : Prop := slot g = true /\ buffer g = false /\ queue_held g = None.
Definition releases {A} (m : M UiThread Empty_set A) : Prop :=
  forall s g, slot_only g -> wpM locking m (fun _ _ g' => holding_nothing g' /\ richer g g') s g.
Lemma releases_bind {A B} (m : M UiThread Empty_set A) (f : A -> M UiThread Empty_set B) :
  mcalls plain m -> (forall a, releases (f a)) -> releases (mbind m f).
Proof.
  intros Hm Hf s g (Hs & Hb & Hq). apply wpM_bind. eapply wp_mono; [apply wp_plain, Hm|].
  intros [[a|[]] s1] g1 (Hs1 & Hb1 & Hq1 & Hr).
  eapply wpM_mono; [apply Hf; split_and!; congruence|]. intros r s2 g2 [Hg2 Hr2]. split; [done|by etrans].
Qed.
Lemma releases_call v : releases (call (ReleaseCancellation v)).
Proof. intros s g (Hs & Hb & Hq). wp_call; [done|]. intros [] g2 ->. by split; [split_and!|]. Qed.
Lemma clean_locked {A} (f : option (option nat) -> M UiThread Empty_set A) :
  (forall v, releases (f (Some v))) -> clean (f None) -> clean (let* x := call LockCancellation in f x).
Proof.
  intros Hs Hn s g (Hs1 & Hb & Hq). apply wpM_bind. wp_call; [done|]. intros [v|] g1 ->.
  - eapply wpM_mono; [by apply Hs|]. intros r s2 g2 [Hg2 Hr]. by split.
  - eapply wpM_mono; [by apply Hn|]. intros r s2 g2 [Hg2 Hr]. by split.
Qed.
Lemma clean_cancel : clean (cancel_migration (E:=Empty_set)).
Proof.
  apply clean_locked; [|apply clean_unheld; by solve_calls]. intros v.
  apply releases_bind; [by solve_calls|]. intros w. apply releases_bind; [by solve_calls|]. intros _. apply releases_call.
Qed.
Lemma clean_defer_close : clean (defer_close (E:=Empty_set)).
Proof.
  apply clean_locked; [|apply clean_unheld; by solve_calls]. intros v.
  do 4 (apply releases_bind; [by solve_calls|]; intros ?). apply releases_call.
Qed.
Lemma clean_close : clean close_requested.
Proof.
  apply clean_bind; [|intros []; apply clean_unheld; by solve_calls].
  apply clean_bind; [apply clean_unheld; by solve_calls|]. intros operation.
  destruct (close_policy operation); [apply clean_ret|apply clean_unheld; by solve_calls|].
  apply clean_bind; [apply clean_defer_close|]. intros _. apply clean_ret.
Qed.

Lemma clean_audit_shown {E} r : clean (apply_audit_result (E:=E) r).
Proof. apply clean_unheld. by solve_calls. Qed.
Lemma clean_event e : clean (handle e).
Proof.
  destruct e; cbn [handle]; try (apply clean_unheld; by solve_calls).
  - apply clean_bind; [|intros _; apply clean_unheld; by solve_calls].
    apply clean_bind; [apply clean_read_entries|]. intros r. apply clean_audit_shown.
  - apply clean_start.
  - apply clean_cancel.
  - apply clean_bind; [apply clean_attempt, clean_audited|]. intros r. apply clean_unheld. by solve_calls.
  - apply clean_close.
Qed.

(** A closure starts with the queue it was given. *)
Definition running (c : UiClosure) : Locks :=
  {| slot := false; buffer := false; queue_held := None;
     known_queues := match c with ProgressUpdate q => [q] | _ => [] end; known_flags := [] |}.
Lemma closure_locks c s :
  wpM locking (ui_closure (E:=Empty_set) c) (fun _ _ g' => holding_nothing g') s (running c).
Proof.
  destruct c as [r entries|r report target entries|r close target entries|r entries|r|queue];
    try (apply clean_ends; [apply clean_unheld; cbn [ui_closure]; by solve_calls|done]).
  cbn [ui_closure running]. apply wpM_bind. wp_call; [cbn; split_and!; [done..|set_solver]|].
  intros [state|] g1 ->; [|by apply wpM_ret]. apply wpM_bind. wp_call; [done|]. intros [] g2 ->.
  apply clean_ends; [|done]. apply clean_unheld. by solve_calls.
Qed.
End Handlers.

(** ** The invariant *)
Definition valid (m : Memory) (g : Locks) : Prop :=
  (forall q, q ∈ known_queues g -> is_Some (queues m !! q))
  /\ (forall f, f ∈ known_flags g -> is_Some (flags m !! f))
  /\ (forall q, queue_held g = Some q -> q ∈ known_queues g).
(** A mutex that is taken is held by a thread. *)
Record guarded (m : Memory) (gs : list Locks) : Prop := {
  guarded_slot : slot_held m = true -> Exists (fun g => slot g = true) gs;
  guarded_memory : memory_held m = true -> Exists (fun g => buffer g = true) gs;
  guarded_queue q mutex : queues m !! q = Some (mutex, true) -> Exists (fun g => queue_held g = Some q) gs;
}.

Ltac break_access :=
  repeat match goal with
  | H : _ /\ _ |- _ => destruct H
  | H : exists _, _ |- _ => destruct H
  end; subst; cbn.
Lemma access_grows a x m m' :
  access a m x m' ->
  (forall q, is_Some (queues m !! q) -> is_Some (queues m' !! q))
  /\ (forall f, is_Some (flags m !! f) -> is_Some (flags m' !! f)).
Proof.
  destruct a; cbn [access]; intros Ha; break_access; try done; try (by case_match).
  all: split; intros i Hi; rewrite ?lookup_insert_is_Some'; tauto.
Qed.
Lemma valid_grows a x m m' g : access a m x m' -> valid m g -> valid m' g.
Proof. intros [Hq Hf]%access_grows (H1 & H2 & H3). split_and!; auto. Qed.
Lemma valid_access a x m m' g :
  locking_ok a g -> access a m x m' -> valid m g -> valid m' (locking_see a x g).
Proof.
  intros Hok Ha Hv. pose proof (valid_grows _ _ _ _ _ Ha Hv) as (H1 & H2 & H3).
  destruct a; cbn [locking_see]; try done; cbn [locking_ok] in Hok.
  - split_and!; cbn; [done| |done]. intros f Hf%elem_of_cons. destruct Hf as [->|Hf]; [|by apply H2].
    destruct Ha as [_ ->]. cbn. rewrite lookup_insert_is_Some'. by left.
  - split_and!; cbn; [|done|intros q Hq; apply elem_of_cons; right; by apply H3].
    intros q Hq%elem_of_cons. destruct Hq as [->|Hq]; [|by apply H1].
    destruct Ha as [_ ->]. cbn. rewrite lookup_insert_is_Some'. by left.
  - split_and!; cbn; [done..|]. intros q. destruct x; [|done]. intros [= <-]. apply Hok.
Qed.

Lemma Exists_swap (P : Locks -> Prop) g g' before after :
  (P g -> P g') -> Exists P (before ++ g :: after) -> Exists P (before ++ g' :: after).
Proof. intros Hg. rewrite !Exists_app, !Exists_cons. tauto. Qed.
Lemma Exists_here (P : Locks -> Prop) g before after : P g -> Exists P (before ++ g :: after).
Proof. intros Hg. apply Exists_app. right. by apply Exists_cons_hd. Qed.

Lemma guarded_queue_access a x m m' g before after q mutex :
  locking_ok a g -> access a m x m' -> guarded m (before ++ g :: after) ->
  queues m' !! q = Some (mutex, true) ->
  Exists (fun g => queue_held g = Some q) (before ++ locking_see a x g :: after).
Proof.
  intros Hok Ha [_ _ Hq]. destruct a; cbn [access locking_see locking_ok] in *; break_access; try done;
    try case_match; try (intros Ht; eapply Exists_swap; [|by eapply Hq]; done);
    intros [[<- Hb]|[Hne Ht]]%lookup_insert_Some; try done; try (by apply Exists_here);
    (eapply Exists_swap; [|by eapply Hq]); cbn; congruence.
Qed.
Lemma guarded_access a x m m' g before after :
  locking_ok a g -> access a m x m' -> guarded m (before ++ g :: after) ->
  guarded m' (before ++ locking_see a x g :: after).
Proof.
  intros Hok Ha Hg. split; [| |intros q mutex; by apply guarded_queue_access with (m := m) (m' := m')].
  all: destruct Hg as [Hs Hm _]; destruct a; cbn [access locking_see] in *; break_access; try case_match; try done;
    try (intros Ht; eapply Exists_swap; [|by auto]; done).
  all: intros Ht; by apply Exists_here.
Qed.

Lemma guarded_more m gs gs' : guarded m gs -> guarded m (gs ++ gs').
Proof. intros [Hs Hm Hq]. split; intros; apply Exists_app; left; eauto. Qed.
(** The event loop holds nothing between two events. *)
Lemma guarded_idle m g g' gs : holding_nothing g -> guarded m (g :: gs) -> guarded m (g' :: gs).
Proof.
  intros (H1 & H2 & H3) [Hs Hm Hq].
  assert (forall P : Locks -> Prop, ~ P g -> Exists P (g :: gs) -> Exists P (g' :: gs)) as Hskip.
  { intros P Hn [Hg|He]%Exists_cons; [done|by apply Exists_cons_tl]. }
  split; intros; eapply Hskip; eauto; cbn; congruence.
Qed.

Section Invariant.
Context `{Fuel} `{Extern} `{JournalCodec} `{SnapshotCodec} `{Sha2} `{Presentation}.
Context (snapshot_engine : SnapshotEngine) (audit_logger : AuditLogger).
Abbreviation follows := (fun p g => wp locking p (fun _ g' => holding_nothing g') g).

Definition queue_exists (m : Memory) (c : UiClosure) : Prop :=
  match c with ProgressUpdate q => is_Some (queues m !! q) | _ => True end.
Definition unlocked : Locks :=
  {| slot := false; buffer := false; queue_held := None; known_queues := []; known_flags := [] |}.
Record locked_by (s : App) (gu : Locks) (gs : list Locks) : Prop := {
  locked_ui : match ui_code s with None => holding_nothing gu | Some p => follows p gu end;
  locked_workers : Forall2 (fun t g => follows (code t) g) (workers s) gs;
  locked_valid : Forall (valid (shared_memory s)) (gu :: gs);
  locked_guarded : guarded (shared_memory s) (gu :: gs);
  locked_closures : Forall (queue_exists (shared_memory s)) (closures s);
}.

(** The threads a call starts, and the closures it queues. *)
Definition newborn (a : shared) : shared_resp a -> list Locks :=
  match a return shared_resp a -> list Locks with
  | Spawn w => fun x => if x then [starting w] else []
  | _ => fun _ => []
  end.
Lemma newborn_follow a x :
  Forall2 (fun t g => follows (code t) g) (spawned snapshot_engine audit_logger a x) (newborn a x).
Proof.
  destruct a; try by constructor. destruct x; constructor; [|by constructor]. cbn [code].
  eapply wp_mono; [apply worker_locks|]. by intros [r []] g'.
Qed.
Lemma newborn_valid a x m g : locking_ok a g -> valid m g -> Forall (valid m) (newborn a x).
Proof.
  intros Hok (_ & Hf & _). destruct a; try by constructor. destruct x; [|by constructor].
  constructor; [|by constructor]. split_and!; cbn; [set_solver| |done]. destruct w; set_solver.
Qed.
Lemma queued_exists a x m g : locking_ok a g -> valid m g -> Forall (queue_exists m) (queued a x).
Proof.
  intros Hok (Hq & _). destruct a; try by constructor. destruct x; [|by constructor].
  constructor; [|by constructor]. destruct c; try done. by apply Hq.
Qed.
Lemma queue_exists_grows a x m m' c : access a m x m' -> queue_exists m c -> queue_exists m' c.
Proof. intros [Hq _]%access_grows. destruct c; try done. apply Hq. Qed.

Lemma locked_initial s : initial s -> locked_by s unlocked [].
Proof.
  intros [Hc _ Hw Hq _ _ Hh _ _ _ Hm Hqs]. split; rewrite ?Hc, ?Hw, ?Hq; try done.
  - constructor; [|done]. split_and!; cbn; set_solver.
  - split; [congruence..|]. intros q mutex. by rewrite Hqs, lookup_empty.
Qed.
Lemma locked_ui_step s a k x m gu gs :
  ui_code s = Some (Call a k) -> access a (shared_memory s) x m -> locked_by s gu gs ->
  locked_by {| ui_thread := ui_thread s; ui_code := Some (k x); ui_did := ui_see a x (ui_did s);
               workers := workers s ++ spawned snapshot_engine audit_logger a x;
               closures := closures s ++ queued a x; shared_memory := m |}
    (locking_see a x gu) (gs ++ newborn a x).
Proof.
  intros Hc Ha [Hui Hw Hv Hg Hcl]. rewrite Hc in Hui. destruct Hui as [Hok Hk].
  apply Forall_cons in Hv as [Hvu Hv]. pose proof (valid_grows _ _ _ _ _ Ha Hvu) as Hvu'.
  split; cbn [ui_code workers shared_memory closures].
  - by apply Hk.
  - apply Forall2_app; [done|apply newborn_follow].
  - constructor; [by eapply valid_access|]. apply Forall_app. split; [|by eapply newborn_valid].
    eapply Forall_impl; [exact Hv|]. intros g. by eapply valid_grows.
  - by apply (guarded_more _ (_ :: gs)), (guarded_access a x (shared_memory s) m gu []).
  - apply Forall_app. split; [|by eapply queued_exists].
    eapply Forall_impl; [exact Hcl|]. intros c. by eapply queue_exists_grows.
Qed.
Lemma locked_worker_step s before t after a k x m gu g1 g g3 :
  workers s = before ++ t :: after -> length before = length g1 ->
  code t = Call a k -> access a (shared_memory s) x m -> locked_by s gu (g1 ++ g :: g3) ->
  locked_by
    {| ui_thread := ui_thread s; ui_code := ui_code s; ui_did := ui_did s;
       workers := before ++ {| running_kind := running_kind t; code := k x; did := worker_see a x (did t) |}
                    :: after ++ spawned snapshot_engine audit_logger a x;
       closures := closures s ++ queued a x; shared_memory := m |}
    gu (g1 ++ locking_see a x g :: g3 ++ newborn a x).
Proof.
  intros Hw Hlen Ht Ha [Hui Hf Hv Hg Hcl]. rewrite Hw in Hf.
  apply Forall2_app_inv in Hf as [Hb [Hthis Hafter]%Forall2_cons]; [|done]. rewrite Ht in Hthis. destruct Hthis as [Hok Hk].
  apply Forall_cons in Hv as [Hvu [Hv1 [Hvg Hv3]%Forall_cons]%Forall_app].
  pose proof (valid_grows _ _ _ _ _ Ha Hvg) as Hvg'.
  assert (forall l, Forall (valid (shared_memory s)) l -> Forall (valid m) l) as Hgrow.
  { intros l Hl. eapply Forall_impl; [exact Hl|]. intros g0. by eapply valid_grows. }
  split; cbn [ui_code workers shared_memory closures].
  - done.
  - apply Forall2_app; [done|]. constructor; [by apply Hk|]. apply Forall2_app; [done|apply newborn_follow].
  - constructor; [by eapply valid_grows|]. apply Forall_app. split; [by apply Hgrow|].
    constructor; [by eapply valid_access|]. apply Forall_app. split; [by apply Hgrow|by eapply newborn_valid].
  - change (guarded m ((gu :: g1) ++ (locking_see a x g :: g3) ++ newborn a x)).
    rewrite (assoc_L (++)). by apply guarded_more, (guarded_access a x (shared_memory s) m g (gu :: g1) g3).
  - apply Forall_app. split; [|by eapply queued_exists].
    eapply Forall_impl; [exact Hcl|]. intros c. by eapply queue_exists_grows.
Qed.
Lemma locked_event s e gu gs :
  ui_code s = None -> locked_by s gu gs ->
  locked_by {| ui_thread := ui_thread s; ui_code := Some (handle e (ui_thread s)); ui_did := ui_did s;
               workers := workers s; closures := closures s; shared_memory := shared_memory s |} unlocked gs.
Proof.
  intros Hc [Hui Hw Hv Hg Hcl]. rewrite Hc in Hui. apply Forall_cons in Hv as [_ Hv].
  split; cbn [ui_code workers shared_memory closures]; try done.
  - eapply wp_mono; [by apply (clean_ends (handle e)); [apply clean_event|]|]. by intros [r t] g'.
  - constructor; [|done]. split_and!; cbn; set_solver.
  - by eapply guarded_idle.
Qed.
Lemma locked_closure s c cs gu gs :
  ui_code s = None -> closures s = c :: cs -> locked_by s gu gs ->
  locked_by {| ui_thread := ui_thread s; ui_code := Some (ui_closure c (ui_thread s)); ui_did := ui_did s;
               workers := workers s; closures := cs; shared_memory := shared_memory s |} (running c) gs.
Proof.
  intros Hc Hq [Hui Hw Hv Hg Hcl]. rewrite Hc in Hui. apply Forall_cons in Hv as [_ Hv].
  rewrite Hq in Hcl. apply Forall_cons in Hcl as [Hthis Hcl].
  split; cbn [ui_code workers shared_memory closures]; try done.
  - eapply wp_mono; [apply closure_locks|]. by intros [r t] g'.
  - constructor; [|done]. split_and!; cbn; [|set_solver|done]. destruct c; set_solver.
  - by eapply guarded_idle.
Qed.
Lemma locked_ui_done s r t gu gs :
  ui_code s = Some (Ret (r, t)) -> locked_by s gu gs ->
  locked_by {| ui_thread := t; ui_code := None; ui_did := ui_did s; workers := workers s;
               closures := closures s; shared_memory := shared_memory s |} gu gs.
Proof. intros Hc [Hui Hw Hv Hg Hcl]. rewrite Hc in Hui. by split. Qed.

(** *** The buffer is the operation's while its result is pending *)
(** A thread that has posted its result does not hold the buffer, and the event
    loop holds it only when nothing is pending. *)
Record buffer_owned (s : App) (gu : Locks) (gs : list Locks) : Prop := {
  owned_posted : Forall2 (fun t g => posted (did t) = true -> buffer g = false) (workers s) gs;
  owned_ui : buffer gu = true -> pending (workers s) (closures s) = 0;
}.
Lemma owned_see a x d g :
  worker_call_ok a d -> locking_ok a g -> (posted d = true -> buffer g = false) ->
  posted (worker_see a x d) = true -> buffer (locking_see a x g) = false.
Proof.
  intros Hw Hl Hp. destruct a; cbn [worker_call_ok locking_ok worker_see locking_see posted buffer with_locks] in *;
    try done; [congruence|].
  intros [Hd|[Hf _]%andb_prop]%orb_true_iff; [by apply Hp|]. by destruct c.
Qed.
Lemma newborn_owned a x :
  Forall2 (fun t g => posted (did t) = true -> buffer g = false)
    (spawned snapshot_engine audit_logger a x) (newborn a x).
Proof. destruct a; try by constructor. destruct x; repeat constructor. Qed.
Lemma ui_owned a x gu gc ts cs :
  locking_ok a gu -> closing_ok a gc -> (free gc = true -> pending ts cs = 0) ->
  (buffer gu = true -> pending ts cs = 0) -> buffer (locking_see a x gu) = true ->
  pending (ts ++ spawned snapshot_engine audit_logger a x) (cs ++ queued a x) = 0.
Proof.
  intros Hl Hc Hf Hp Hb.
  destruct a; cbn [spawned queued locking_see locking_ok closing_ok buffer with_locks] in *;
    rewrite ?app_nil_r; try done; auto. by destruct Hl as [Hl _]; rewrite Hl in Hb.
Qed.

Lemma locked_step s s' gu gs :
  invariant s -> closing_invariant s -> step snapshot_engine audit_logger s s' ->
  locked_by s gu gs -> buffer_owned s gu gs -> exists gu' gs', locked_by s' gu' gs' /\ buffer_owned s' gu' gs'.
Proof.
  intros [_ Hts _] Hclosing Hstep Hl [Hp Hu].
  destruct Hstep as [e Hc He|c cs Hc Hq|a k x m Hc Ha|r t Hc|before t after a k x m Hw Ht Ha].
  - exists unlocked, gs. split; [by apply (locked_event s e gu)|]. by split.
  - exists (running c), gs. split; [by apply (locked_closure s c cs gu)|]. by split.
  - eexists _, _. split; [by eapply locked_ui_step|]. split; cbn [workers closures].
    + by apply Forall2_app; [|apply newborn_owned].
    + destruct Hclosing as [_ _ Hui]. rewrite Hc in Hui. destruct Hui as (gc & [Hok _] & Hf & _).
      destruct Hl as [Hfollow _ _ _ _]. rewrite Hc in Hfollow. by eapply ui_owned; [apply Hfollow|..].
  - exists gu, gs. split; [by eapply locked_ui_done|]. by split.
  - rewrite Hw in Hp, Hu, Hts. apply Forall2_app_inv_l in Hp as (g1 & g2 & Hb & Hrest & ->).
    apply Forall2_cons_inv_l in Hrest as (g & g3 & Hthis & Hafter & ->).
    apply Forall_app in Hts as [_ [Hok _]%Forall_cons]. unfold thread_ok in Hok. rewrite Ht in Hok.
    destruct Hok as [[_ Hok] _]. exists gu. eexists. split.
    { eapply locked_worker_step; [done|by eapply Forall2_length|done..]. }
    split; cbn [workers closures].
    + apply Forall2_app; [done|]. constructor; [|by apply Forall2_app; [|apply newborn_owned]].
      apply (owned_see a x); [done| |done]. destruct Hl as [_ Hfollow _ _ _]. rewrite Hw in Hfollow.
      apply Forall2_app_inv in Hfollow as [_ [Hfollow _]%Forall2_cons]; [|by eapply Forall2_length].
      rewrite Ht in Hfollow. apply Hfollow.
    + intros Hbuffer. pose proof (worker_pending snapshot_engine audit_logger a x t (k x) before after (closures s) Hok).
      specialize (Hu Hbuffer). lia.
Qed.
Lemma reachable_owned s :
  reachable snapshot_engine audit_logger s -> exists gu gs, locked_by s gu gs /\ buffer_owned s gu gs.
Proof.
  induction 1 as [s Hs|s s' Hr (gu & gs & Hl & Ho) Hstep].
  - exists unlocked, []. split; [by apply locked_initial|]. destruct Hs as [_ _ Hw _ _ _ _ _ _ _ _ _].
    split; [by rewrite Hw|done].
  - eapply locked_step; [by eapply reachable_invariant|by eapply reachable_closing|done..].
Qed.
Lemma reachable_locked s : reachable snapshot_engine audit_logger s -> exists gu gs, locked_by s gu gs.
Proof. intros (gu & gs & Hl & _)%reachable_owned. by exists gu, gs. Qed.

(** ** Nobody waits for the buffer *)
Definition next_call {R} (p : @prog shared_signature R) : option shared :=
  match p with Call a _ => Some a | _ => None end.
Lemma next_calls {R} (p : @prog shared_signature R) a : next_call p = Some a -> exists k, p = Call a k.
Proof. destruct p as [|b k|]; try done. intros [= ->]. by exists k. Qed.
Lemma unposted_zero ts i t : unposted ts = 0 -> ts !! i = Some t -> posted (did t) = true.
Proof.
  revert i. induction ts as [|t0 ts IH]; [done|]. intros [|i] Hn Ht; rewrite unposted_cons in Hn.
  - injection Ht as ->. by destruct (posted (did t)).
  - apply (IH i); [lia|done].
Qed.
Lemma unposted_one ts i j t t' :
  unposted ts <= 1 -> ts !! i = Some t -> posted (did t) = false -> ts !! j = Some t' -> i <> j ->
  posted (did t') = true.
Proof.
  revert i j. induction ts as [|t0 ts IH]; [done|]. intros i j Hn Hi Hp Hj Hne. rewrite unposted_cons in Hn.
  destruct i as [|i], j as [|j]; try done; cbn in Hi, Hj.
  - injection Hi as ->. rewrite Hp in Hn. apply (unposted_zero ts j); [lia|done].
  - injection Hj as ->. destruct (posted (did t')) eqn:Hp'; [done|].
    rewrite (unposted_zero ts i t) in Hp; [done|lia|done].
  - apply (IH i j); [lia|done|done|done|congruence].
Qed.

Lemma buffer_holder s gu gs :
  buffer_owned s gu gs -> Exists (fun g => buffer g = true) (gu :: gs) ->
  (buffer gu = true /\ pending (workers s) (closures s) = 0)
  \/ exists i t g, workers s !! i = Some t /\ gs !! i = Some g /\ buffer g = true /\ posted (did t) = false.
Proof.
  intros [Hp Hu] [Hb|Hex]%Exists_cons; [by left; auto|right].
  apply Exists_exists in Hex as (g & [i Hg]%list_elem_of_lookup & Hb).
  destruct (Forall2_lookup_r _ _ _ _ _ Hp Hg) as (t & Ht & Hq). exists i, t, g. split_and!; try done.
  destruct (posted (did t)); [|done]. rewrite Hq in Hb; done.
Qed.

(** In every reachable state a thread that is about to take the display buffer
    of the journal finds it free: a worker takes it before it posts its result,
    and the event loop only when no result is pending.  So it makes no
    difference that it is held here for a whole call of an engine, where the
    source takes it for each access. *)
Theorem buffer_never_contended (s : App) (Hs : reachable snapshot_engine audit_logger s)
    (Hlock : (exists p, ui_code s = Some p /\ next_call p = Some LockMemory)
             \/ Exists (fun t => next_call (code t) = Some LockMemory) (workers s)) :
  memory_held (shared_memory s) = false.
Proof.
  pose proof (reachable_invariant _ _ _ Hs) as [_ Hts _].
  pose proof (reachable_closing _ _ _ Hs) as [Hpending _ Hui]. unfold pending in Hpending, Hui.
  apply reachable_owned in Hs as (gu & gs & [Hcode Hw _ [_ Hheld _] _] & Ho).
  apply not_true_is_false. intros Hm%Hheld%(buffer_holder _ _ _ Ho).
  destruct Hlock as [(p & Hc & (k & ->)%next_calls)|Hlock].
  - rewrite Hc in Hcode, Hui. destruct Hcode as [(_ & Hb & _) _], Hui as (gc & [Hf _] & Hn & _).
    specialize (Hn Hf). destruct Hm as [[Hm _]|(i & t & g & Ht & _ & _ & Hp)]; [congruence|].
    rewrite (unposted_zero (workers s) i t) in Hp; [done|lia|done].
  - apply Exists_exists in Hlock as (t & [i Ht]%list_elem_of_lookup & (k & Hk)%next_calls).
    destruct (Forall2_lookup_l _ _ _ _ _ Hw Ht) as (g & Hg & Hfollow).
    pose proof (Forall_lookup_1 _ _ _ _ Hts Ht) as Hok. unfold thread_ok in Hok. rewrite Hk in Hok, Hfollow.
    destruct Hok as [[_ Hp] _], Hfollow as [(_ & Hb & _) _]. cbn in Hp.
    destruct Hm as [[_ Hn]|(j & t' & g' & Ht' & Hg' & Hb' & Hp')].
    + unfold pending in Hn. rewrite (unposted_zero (workers s) i t) in Hp; [done|lia|done].
    + rewrite (unposted_one (workers s) i j t t') in Hp'; [done|lia|done..|]. intros ->. congruence.
Qed.

(** ** Somebody can move *)
Definition halted {R} (p : @prog shared_signature R) : Prop := match p with Halt _ => True | _ => False end.
Definition calling {R} (p : @prog shared_signature R) : bool := match p with Call _ _ => true | _ => false end.
Lemma calling_live {R} (p : @prog shared_signature R) : calling p = true -> ~ halted p.
Proof. by destruct p; cbn; [| |done]; intros _ []. Qed.
Lemma some_calling {R} (o : option (@prog shared_signature R)) :
  match o with Some p => calling p | None => false end = true -> exists p, o = Some p /\ calling p = true.
Proof. destruct o as [p|]; [by exists p|done]. Qed.
(** The access a thread asks for is answered at once. *)
Definition can_move (m : Memory) {R} (p : @prog shared_signature R) : Prop :=
  match p with Call a _ => exists x m', access a m x m' | _ => False end.

Lemma can_move_intro {R} (p : @prog shared_signature R) g m :
  follows p g -> valid m g -> calling p = true ->
  (holding_nothing g -> slot_held m = false /\ memory_held m = false) ->
  (slot g = false -> queue_held g = None -> forall q mutex, queues m !! q <> Some (mutex, true)) ->
  can_move m p.
Proof.
  destruct p as [r|a k|e]; try done. intros [Hok _] (Hq & Hf & Hh) _ Hfree Hqueues. cbn [can_move].
  assert (answer agreeable a m <> None) as Ha.
  { destruct a; cbn [answer permitted locking monitor locking_ok shared_resp] in *; try done.
    - apply Hf in Hok as [v ->]. done.
    - by destruct (Hfree Hok) as [-> _].
    - destruct Hok as (Hs & Hn & Hk). apply Hq in Hk as [[mutex []] Hmutex]; rewrite Hmutex; [|done].
      by destruct (Hqueues Hs Hn queue mutex).
    - by apply Hh, Hq in Hok as [[mutex held] ->].
    - by destruct (Hfree Hok) as [_ ->]. }
  destruct (answer agreeable a m) as [[x m']|] eqn:Hx; [|done]. exists x, m'. by eapply answer_access.
Qed.
(** A thread that holds something has a call to make. *)
Lemma holder_calling {R} (p : @prog shared_signature R) g :
  follows p g -> ~ halted p -> ~ holding_nothing g -> calling p = true.
Proof. by destruct p. Qed.

Definition someone_moves (s : App) : Prop :=
  (exists p, ui_code s = Some p /\ can_move (shared_memory s) p)
  \/ Exists (fun t => can_move (shared_memory s) (code t)) (workers s).
Lemma holder_moves s gu gs (P : Locks -> Prop) :
  locked_by s gu gs -> (forall p, ui_code s = Some p -> ~ halted p) ->
  Forall (fun t => ~ halted (code t)) (workers s) ->
  (forall g, P g -> ~ holding_nothing g) ->
  (forall g, P g -> slot g = false -> queue_held g = None ->
     forall q mutex, queues (shared_memory s) !! q <> Some (mutex, true)) ->
  Exists P (gu :: gs) -> someone_moves s.
Proof.
  intros [Hui Hw Hv Hg _] Hlive Hlives Hn Hq Hex. apply Forall_cons in Hv as [Hvu Hv].
  apply Exists_cons in Hex as [Hp|Hex].
  - destruct (ui_code s) as [p|] eqn:Hc; [|by destruct (Hn gu Hp)]. left. exists p. split; [done|].
    eapply can_move_intro; eauto; [|by intros ?%Hn]. by eapply holder_calling; eauto.
  - right. apply Exists_exists in Hex as (g & Hin & Hp). apply list_elem_of_lookup in Hin as [i Hi].
    destruct (Forall2_lookup_r _ _ _ _ _ Hw Hi) as (t & Ht & Hf). apply Exists_exists. exists t.
    split; [by eapply list_elem_of_lookup_2|].
    assert (~ halted (code t)) as Hl by exact (Forall_lookup_1 _ _ _ _ Hlives Ht).
    eapply can_move_intro; eauto; [by eapply Forall_lookup_1|by eapply holder_calling; eauto|by intros ?%Hn].
Qed.

(** C12: the application does not deadlock.  In every reachable state in which
    no thread has panicked, if a thread has a call to make, some thread's call
    is answered at once: whatever mutexes are taken, a thread that holds one
    can go on and gives it back. *)
Theorem never_deadlocks (s : App) (Hs : reachable snapshot_engine audit_logger s)
    (Hui : forall p, ui_code s = Some p -> ~ halted p)
    (Hworkers : Forall (fun t => ~ halted (code t)) (workers s))
    (Hcalling : (exists p, ui_code s = Some p /\ calling p = true)
                \/ Exists (fun t => calling (code t) = true) (workers s)) :
  someone_moves s.
Proof.
  apply reachable_locked in Hs as (gu & gs & Hl). pose proof Hl as [Hcode Hw Hv [Hslot Hmem Hqueue] _].
  destruct (decide (Exists (fun g => queue_held g <> None) (gu :: gs))) as [Hex|Hnq].
  { eapply holder_moves; eauto; [by intros g Hg (_ & _ & ?)|by intros g Hg _ ?]. }
  assert (forall q mutex, queues (shared_memory s) !! q <> Some (mutex, true)) as Hfree.
  { intros q mutex Hq%Hqueue. apply Hnq. eapply Exists_impl; [exact Hq|]. cbn. congruence. }
  destruct (decide (Exists (fun g => buffer g = true \/ slot g = true) (gu :: gs))) as [Hex|Hnm].
  { eapply holder_moves; eauto. intros g Hg (Hs & Hb & _). destruct Hg; congruence. }
  assert (slot_held (shared_memory s) = false /\ memory_held (shared_memory s) = false) as Hnone.
  { split; apply not_true_is_false; [intros Hx%Hslot|intros Hx%Hmem]; apply Hnm;
      (eapply Exists_impl; [exact Hx|]); cbn; tauto. }
  apply Forall_cons in Hv as [Hvu Hv]. destruct Hcalling as [(p & Hp & Hc)|Hex].
  - left. exists p. split; [done|]. rewrite Hp in Hcode. eapply can_move_intro; eauto.
  - right. apply Exists_exists in Hex as (t & Hin & Hc). apply list_elem_of_lookup in Hin as [i Hi].
    destruct (Forall2_lookup_l _ _ _ _ _ Hw Hi) as (g & Hg & Hf). apply Exists_exists. exists t.
    split; [by eapply list_elem_of_lookup_2|]. eapply can_move_intro; eauto. by eapply Forall_lookup_1.
Qed.
End Invariant.

(** A migration works while the window asks to cancel it. *)
Definition sample_waiting : App :=
  sample_play [Event ClickStart; Loop 40; Work 2; Event ClickCancel; Loop 1] sample_app.
Lemma never_deadlocks_witness :
  length (workers sample_waiting) = 1 /\ someone_moves sample_waiting.
Proof.
  assert (match ui_code sample_waiting with Some p => calling p | None => false end = true) as Hui
    by (vm_compute; reflexivity).
  assert (forallb (fun t => calling (code t)) (workers sample_waiting) = true) as Hworkers
    by (vm_compute; reflexivity).
  split; [vm_compute; reflexivity|].
  apply (never_deadlocks _ _ sample_waiting
           (sample_reachable [Event ClickStart; Loop 40; Work 2; Event ClickCancel; Loop 1])).
  - intros p Hp. apply calling_live. rewrite Hp in Hui. exact Hui.
  - apply Forall_forall. intros t Ht. apply calling_live.
    exact (proj1 (forallb_forall _ _) Hworkers t (proj1 (list_elem_of_In _ _) Ht)).
  - left. apply some_calling, Hui.
Defined.
