(* ===== verification/Locales.v ===== *)
(** * Locales: a change of language draws the window again

    The caches of the controller hold what was shown without its language, and
    [change_locale] renders them again.  Windows are compared by what each of
    their properties reads ([≡]); the setters respect that, and the rendering of
    the caches leaves nothing of the language used before. *)

From stdpp Require Import base list strings.
From S2P Require Import Prelude Text Path Effects I18n Models Win32 Journal Window Shared Launch Controller System Threads Drafts Schedules.

(** ** Windows that read the same *)
#[export] Instance window_equiv : Equiv MainWindow := fun w w' =>
  (forall p, text_of w p = text_of w' p) /\ (forall p, flag_of w p = flag_of w' p)
  /\ (forall p, number_of w p = number_of w' p) /\ ui_profiles w = ui_profiles w'
  /\ ui_audit_entries w = ui_audit_entries w' /\ selected_issues w = selected_issues w'
  /\ selected_locking_processes w = selected_locking_processes w'
  /\ (forall name, app_strings w name = app_strings w' name).
#[export] Instance window_equivalence : Equivalence (≡@{MainWindow}).
Proof.
  split; unfold equiv, window_equiv.
  - by intros w.
  - intros w w' H. destruct_and! H. split_and!; done.
  - intros w1 w2 w3 H1 H2. destruct_and! H1. destruct_and! H2. split_and!; intros; etrans; eauto.
Qed.

(** A setter gives the same windows from the same windows. *)
Ltac solve_setter :=
  let w := fresh "w" in let w' := fresh "w'" in let H := fresh "H" in
  intros w w' H; unfold equiv, window_equiv in *; destruct_and! H; split_and!; cbn; intros;
  first [ done | case_match; done ].
#[export] Instance set_text_proper p v : Proper ((≡) ==> (≡)) (set_text p v).
Proof. solve_setter. Qed.
#[export] Instance set_flag_proper p v : Proper ((≡) ==> (≡)) (set_flag p v).
Proof. solve_setter. Qed.
#[export] Instance set_number_proper p v : Proper ((≡) ==> (≡)) (set_number p v).
Proof. solve_setter. Qed.
#[export] Instance set_profiles_proper l : Proper ((≡) ==> (≡)) (set_profiles l).
Proof. solve_setter. Qed.
#[export] Instance set_audit_entries_proper l : Proper ((≡) ==> (≡)) (set_audit_entries l).
Proof. solve_setter. Qed.
#[export] Instance set_selected_issues_proper l : Proper ((≡) ==> (≡)) (set_selected_issues l).
Proof. solve_setter. Qed.
#[export] Instance set_selected_locking_processes_proper l :
  Proper ((≡) ==> (≡)) (set_selected_locking_processes l).
Proof. solve_setter. Qed.
#[export] Instance set_app_string_proper name v : Proper ((≡) ==> (≡)) (set_app_string name v).
Proof. solve_setter. Qed.

(** ** Drawing the caches *)
Section Drawing.
Context `{Presentation}.
Context (report : option DiagnosticReport) (audit_entries : option (list AuditEntry))
  (preflight : MigrationPreflightPresentation) (terminal : option MigrationTerminalPresentation)
  (status : OperatorStatus).

(** The window in which the strings have been replaced. *)
Definition relabelled (locale : str) (c : Z) (w : MainWindow) : MainWindow :=
  set_text Ui.current_locale locale (apply_app_strings (tr c) w).
(** A window after a change to a language. *)
Definition drawn (locale : str) (c : Z) (w : MainWindow) : MainWindow :=
  render_cached report audit_entries preflight terminal status c (relabelled locale c w).

(** The profile that stays selected, whatever the language. *)
Definition still_chosen (r : DiagnosticReport) (w : MainWindow) : option UserProfile :=
  let index := number_of w Ui.selected_idx in
  if (index <? 0)%Z then None
  else match Models.profiles r !! Z.to_nat index with
       | Some u => if str_eqb (sid u) (text_of w Ui.selected_sid)
                      && str_eqb (profile_path u) (text_of w Ui.selected_path) then Some u else None
       | None => None
       end.
Definition chosen (w : MainWindow) : option UserProfile :=
  match report with Some r => still_chosen r w | None => None end.
Abbreviation row c u := (user_profile_to_slint (tr c) u).

Lemma still_selected_chosen c r w :
  still_selected (map (user_profile_to_slint (tr c)) (Models.profiles r)) w
  = option_map (user_profile_to_slint (tr c)) (still_chosen r w).
Proof.
  unfold still_selected, still_chosen. cbv zeta. destruct (_ <? _)%Z; [done|].
  rewrite list_lookup_fmap. destruct (_ !! _) as [u|]; [|done]. cbn. by destruct (_ && _).
Qed.
Lemma still_chosen_names r w u :
  still_chosen r w = Some u -> sid u = text_of w Ui.selected_sid /\ profile_path u = text_of w Ui.selected_path.
Proof.
  unfold still_chosen. cbv zeta. destruct (_ <? _)%Z; [done|]. destruct (_ !! _) as [v|]; [|done].
  destruct (_ && _) eqn:Hn; [|done]. intros [= ->].
  apply andb_prop in Hn as [Hs Hp]. by apply bool_decide_eq_true in Hs, Hp.
Qed.

(** The strings: their names do not depend on the language. *)
Lemma strings_text l w p :
  text_of (foldl (fun w '(name, text) => set_app_string name text w) w l) p = text_of w p.
Proof. revert w. induction l as [|[n v] l IH]; intros w; [done|]. cbn. by rewrite IH. Qed.
Lemma strings_rest l w :
  let w' := foldl (fun w '(name, text) => set_app_string name text w) w l in
  flag_of w' = flag_of w /\ number_of w' = number_of w /\ ui_profiles w' = ui_profiles w
  /\ ui_audit_entries w' = ui_audit_entries w /\ selected_issues w' = selected_issues w
  /\ selected_locking_processes w' = selected_locking_processes w.
Proof. cbv zeta. revert w. induction l as [|[n v] l IH]; intros w; [done|]. cbn. exact (IH _). Qed.
Fixpoint named (l : list (str * str)) (name : str) : option str :=
  match l with
  | [] => None
  | (n, v) :: l' => match named l' name with Some v' => Some v' | None => if str_eqb name n then Some v else None end
  end.
Lemma strings_named l w name :
  app_strings (foldl (fun w '(name, text) => set_app_string name text w) w l) name
  = default (app_strings w name) (named l name).
Proof.
  revert w. induction l as [|[n v] l IH]; intros w; [done|]. cbn. rewrite IH.
  destruct (named l name); [done|]. cbn. by destruct (str_eqb name n).
Qed.
Lemma strings_applied t w name :
  app_strings (apply_app_strings t w) name = default (app_strings w name) (named (app_string_table t) name).
Proof. unfold apply_app_strings. apply strings_named. Qed.
Lemma set_text_strings p v w : app_strings (set_text p v w) = app_strings w.
Proof. done. Qed.
Lemma named_domain l l' name :
  map fst l = map fst l' -> is_Some (named l name) -> is_Some (named l' name).
Proof.
  revert l'. induction l as [|[n v] l IH]; intros [|[n' v'] l'] Hn; try done.
  injection Hn as -> Hn. cbn. intros Hl. destruct (named l name) eqn:E.
  - destruct (IH l' Hn) as [x ->]; eauto.
  - destruct (named l' name); [eauto|]. by destruct (str_eqb name n').
Qed.

(** What each property of a drawn window reads. *)
Lemma still_chosen_same r w w' :
  number_of w' Ui.selected_idx = number_of w Ui.selected_idx ->
  text_of w' Ui.selected_sid = text_of w Ui.selected_sid ->
  text_of w' Ui.selected_path = text_of w Ui.selected_path -> still_chosen r w' = still_chosen r w.
Proof. unfold still_chosen. by intros -> -> ->. Qed.
Lemma report_drawn c r w :
  render_report c r false w
  = let counted := set_number Ui.temp_count (as_i32 (Z.of_nat (Models.temporary_count r)))
      (set_number Ui.corrupted_count (as_i32 (Z.of_nat (Models.corrupted_count r)))
      (set_number Ui.warning_count (as_i32 (Z.of_nat (Models.warning_count r)))
      (set_number Ui.healthy_count (as_i32 (Z.of_nat (Models.healthy_count r)))
      (set_number Ui.total_profiles_count (as_i32 (Z.of_nat (Models.total_count r)))
      (set_profiles (map (user_profile_to_slint (tr c)) (Models.profiles r)) w))))) in
    match still_chosen r w with Some u => apply_selected_profile (row c u) counted | None => counted end.
Proof. unfold render_report. rewrite still_selected_chosen. by destruct (still_chosen r w). Qed.

(** The texts of the selected profile, in a language. *)
Definition selected_text (c : Z) (u : option UserProfile) (before : str) (p : Ui.TextProperty) : str :=
  match u with
  | Some u =>
      let shown := row c u in
      match p with
      | Ui.selected_username => pe_username shown
      | Ui.selected_account =>
          if is_empty (pe_domain shown) then pe_username shown
          else pe_domain shown ++ [BACKSLASH] ++ pe_username shown
      | Ui.selected_anomalies => pe_anomalies shown
      | Ui.selected_lock_inspection_failure => pe_lock_inspection_failure shown
      | _ => before
      end
  | None => before
  end.
Definition selected_flag (c : Z) (u : option UserProfile) (before : bool) (p : Ui.FlagProperty) : bool :=
  match u with
  | Some u =>
      let shown := row c u in
      match p with
      | Ui.selected_loaded => pe_loaded shown
      | Ui.selected_repair_blocked_by_lock_inspection => repair_blocked_by_lock_inspection shown
      | Ui.selected_has_locking_processes => has_locking_processes shown
      | _ => before
      end
  | None => before
  end.
Definition number_drawn (w : MainWindow) (p : Ui.NumberProperty) : Z :=
  match p, report with
  | Ui.total_profiles_count, Some r => as_i32 (Z.of_nat (Models.total_count r))
  | Ui.healthy_count, Some r => as_i32 (Z.of_nat (Models.healthy_count r))
  | Ui.warning_count, Some r => as_i32 (Z.of_nat (Models.warning_count r))
  | Ui.corrupted_count, Some r => as_i32 (Z.of_nat (Models.corrupted_count r))
  | Ui.temp_count, Some r => as_i32 (Z.of_nat (Models.temporary_count r))
  | Ui.selected_health_type, _ =>
      match chosen w with Some u => health_code (health u) | None => number_of w p end
  | _, _ => number_of w p
  end.
Definition text_drawn (locale : str) (c : Z) (w : MainWindow) (p : Ui.TextProperty) : str :=
  match p with
  | Ui.status_message => render_summary c status
  | Ui.status_details_content => render_details c status
  | Ui.migration_status =>
      match render_preflight c preflight, terminal with
      | Some message, _ => message
      | None, Some t => render_terminal c t
      | None, None => text_of w p
      end
  | Ui.current_locale => locale
  | _ => selected_text c (chosen w) (text_of w p) p
  end.
(** The rows and the selection, then the rest. *)
Definition redrawn_rows (c : Z) (w : MainWindow) : MainWindow :=
  match report with Some r => render_report c r false w | None => w end.
Lemma text_rows c w p :
  text_of (redrawn_rows c w) p
  = selected_text c (chosen w) (text_of w p) p.
Proof.
  unfold redrawn_rows, chosen. destruct report as [r|]; [|by destruct p]. rewrite report_drawn.
  destruct (still_chosen r w) as [u|] eqn:Hu; [|by destruct p].
  apply still_chosen_names in Hu as [Hs Hp]. by destruct p.
Qed.
Lemma text_rest c w p :
  text_of (render_cached report audit_entries preflight terminal status c w) p
  = match p with
    | Ui.status_message => render_summary c status
    | Ui.status_details_content => render_details c status
    | Ui.migration_status =>
        match render_preflight c preflight, terminal with
        | Some message, _ => message
        | None, Some t => render_terminal c t
        | None, None => text_of (redrawn_rows c w) p
        end
    | _ => text_of (redrawn_rows c w) p
    end.
Proof.
  unfold render_cached. fold (redrawn_rows c w). generalize (redrawn_rows c w) as w1. intros w1.
  by destruct p, audit_entries, (render_preflight c preflight), terminal.
Qed.

Lemma relabelled_same locale c w :
  (forall p, text_of (relabelled locale c w) p = if decide (p = Ui.current_locale) then locale else text_of w p)
  /\ flag_of (relabelled locale c w) = flag_of w /\ number_of (relabelled locale c w) = number_of w
  /\ ui_profiles (relabelled locale c w) = ui_profiles w
  /\ ui_audit_entries (relabelled locale c w) = ui_audit_entries w
  /\ selected_issues (relabelled locale c w) = selected_issues w
  /\ selected_locking_processes (relabelled locale c w) = selected_locking_processes w.
Proof.
  unfold relabelled, apply_app_strings. generalize (app_string_table (tr c)) as l. intros l. split.
  - intros p. cbn. case_decide; [done|apply strings_text].
  - exact (strings_rest l w).
Qed.
Lemma chosen_relabelled locale c w : chosen (relabelled locale c w) = chosen w.
Proof.
  destruct (relabelled_same locale c w) as (Ht & _ & Hn & _). unfold chosen. destruct report as [r|]; [|done].
  apply still_chosen_same; [by rewrite Hn|by rewrite Ht..].
Qed.
Lemma text_of_drawn locale c w p : text_of (drawn locale c w) p = text_drawn locale c w p.
Proof.
  unfold drawn, text_drawn. rewrite text_rest.
  rewrite !text_rows, chosen_relabelled. destruct (relabelled_same locale c w) as (Ht & _).
  rewrite !Ht. destruct p; try done; cbn [decide]; destruct (chosen w); by rewrite ?Ht.
Qed.

Lemma rest_same c w :
  let w' := render_cached report audit_entries preflight terminal status c w in
  flag_of w' = flag_of (redrawn_rows c w) /\ number_of w' = number_of (redrawn_rows c w)
  /\ ui_profiles w' = ui_profiles (redrawn_rows c w)
  /\ ui_audit_entries w' = match audit_entries with
                          | Some entries => map (audit_entry_to_slint (tr c) format_display) entries
                          | None => ui_audit_entries (redrawn_rows c w)
                          end
  /\ selected_issues w' = selected_issues (redrawn_rows c w)
  /\ selected_locking_processes w' = selected_locking_processes (redrawn_rows c w)
  /\ app_strings w' = app_strings (redrawn_rows c w).
Proof.
  cbv zeta. unfold render_cached. fold (redrawn_rows c w). generalize (redrawn_rows c w) as w1. intros w1.
  by destruct audit_entries, (render_preflight c preflight), terminal.
Qed.
Lemma rows_same c w :
  let w' := redrawn_rows c w in
  (forall p, flag_of w' p = selected_flag c (chosen w) (flag_of w p) p)
  /\ ui_profiles w' = match report with
                      | Some r => map (user_profile_to_slint (tr c)) (Models.profiles r)
                      | None => ui_profiles w
                      end
  /\ ui_audit_entries w' = ui_audit_entries w
  /\ selected_issues w' = match chosen w with Some u => pe_issues (row c u) | None => selected_issues w end
  /\ selected_locking_processes w'
     = match chosen w with Some u => pe_locking_processes (row c u) | None => selected_locking_processes w end
  /\ app_strings w' = app_strings w.
Proof.
  cbv zeta. unfold redrawn_rows, chosen. destruct report as [r|]; [|done]. rewrite report_drawn.
  destruct (still_chosen r w); [|done]. split_and!; try done. by intros [].
Qed.
Lemma number_rows c w p :
  number_of (redrawn_rows c w) p = number_drawn w p.
Proof.
  unfold redrawn_rows, number_drawn, chosen. destruct report as [r|]; [|by destruct p]. rewrite report_drawn.
  by destruct p; destruct (still_chosen r w).
Qed.
Lemma chosen_drawn locale c w : chosen (drawn locale c w) = chosen w.
Proof.
  assert (text_of (drawn locale c w) Ui.selected_sid = text_of w Ui.selected_sid
          /\ text_of (drawn locale c w) Ui.selected_path = text_of w Ui.selected_path) as [Hs Hp].
  { rewrite !text_of_drawn. cbn [text_drawn]. unfold selected_text. by destruct (chosen w). }
  assert (number_of (drawn locale c w) Ui.selected_idx = number_of w Ui.selected_idx) as Hn.
  { unfold drawn. destruct (rest_same c (relabelled locale c w)) as (_ & -> & _). rewrite number_rows.
    unfold number_drawn. destruct (relabelled_same locale c w) as (_ & _ & -> & _). by destruct report. }
  unfold chosen. destruct report as [r|]; [|done]. by apply still_chosen_same.
Qed.

Lemma flag_of_drawn locale c w p :
  flag_of (drawn locale c w) p = selected_flag c (chosen w) (flag_of w p) p.
Proof.
  unfold drawn. destruct (rest_same c (relabelled locale c w)) as (-> & _).
  destruct (rows_same c (relabelled locale c w)) as (-> & _). rewrite chosen_relabelled.
  destruct (relabelled_same locale c w) as (_ & Hf & _).
  destruct (chosen w); [|by rewrite Hf]. destruct p; cbn; by rewrite ?Hf.
Qed.
Lemma number_of_drawn locale c w p :
  number_of (drawn locale c w) p = number_drawn w p.
Proof.
  unfold drawn. destruct (rest_same c (relabelled locale c w)) as (_ & -> & _).
  rewrite number_rows. unfold number_drawn. rewrite chosen_relabelled. by destruct (relabelled_same locale c w) as (_ & _ & -> & _).
Qed.
Lemma lists_drawn locale c w :
  let w' := drawn locale c w in
  ui_profiles w' = match report with
                   | Some r => map (user_profile_to_slint (tr c)) (Models.profiles r)
                   | None => ui_profiles w
                   end
  /\ ui_audit_entries w' = match audit_entries with
                          | Some entries => map (audit_entry_to_slint (tr c) format_display) entries
                          | None => ui_audit_entries w
                          end
  /\ selected_issues w' = match chosen w with Some u => pe_issues (row c u) | None => selected_issues w end
  /\ selected_locking_processes w'
     = match chosen w with Some u => pe_locking_processes (row c u) | None => selected_locking_processes w end.
Proof.
  cbv zeta. unfold drawn. destruct (rest_same c (relabelled locale c w)) as (_ & _ & -> & -> & -> & -> & _).
  destruct (rows_same c (relabelled locale c w)) as (_ & -> & -> & -> & -> & _). rewrite chosen_relabelled.
  by destruct (relabelled_same locale c w) as (_ & _ & _ & -> & -> & -> & ->).
Qed.
Lemma strings_drawn locale c w name :
  app_strings (drawn locale c w) name = default (app_strings w name) (named (app_string_table (tr c)) name).
Proof.
  unfold drawn. destruct (rest_same c (relabelled locale c w)) as (_ & _ & _ & _ & _ & _ & ->).
  destruct (rows_same c (relabelled locale c w)) as (_ & _ & _ & _ & _ & ->).
  unfold relabelled. rewrite set_text_strings. apply strings_applied.
Qed.

Lemma app_string_names t t' : map fst (app_string_table t) = map fst (app_string_table t').
Proof. reflexivity. Qed.

(** What the window [w] reads after a change to a language: every property is
    either the rendering, in that language, of what its cache holds, or has no
    text of a language and is as it was. *)
Record in_language (locale : str) (c : Z) (w w' : MainWindow) : Prop := {
  shown_strings : forall name, app_strings w' name
    = default (app_strings w name) (named (app_string_table (tr c)) name);
  shown_texts : forall p, text_of w' p = text_drawn locale c w p;
  shown_flags : forall p, flag_of w' p = selected_flag c (chosen w) (flag_of w p) p;
  shown_numbers : forall p, number_of w' p = number_drawn w p;
  shown_profiles : ui_profiles w' = match report with
                                    | Some r => map (user_profile_to_slint (tr c)) (Models.profiles r)
                                    | None => ui_profiles w
                                    end;
  shown_journal : ui_audit_entries w' = match audit_entries with
                                        | Some entries => map (audit_entry_to_slint (tr c) format_display) entries
                                        | None => ui_audit_entries w
                                        end;
  shown_issues : selected_issues w'
    = match chosen w with Some u => pe_issues (row c u) | None => selected_issues w end;
  shown_processes : selected_locking_processes w'
    = match chosen w with Some u => pe_locking_processes (row c u) | None => selected_locking_processes w end;
}.
Lemma drawn_in_language locale c w : in_language locale c w (drawn locale c w).
Proof.
  destruct (lists_drawn locale c w) as (Hp & Ha & Hi & Hl). split; try done.
  - apply strings_drawn.
  - apply text_of_drawn.
  - apply flag_of_drawn.
  - apply number_of_drawn.
Qed.

(** Nothing is left of the language used before. *)
Lemma drawn_again l1 c1 l2 c2 w : drawn l2 c2 (drawn l1 c1 w) ≡ drawn l2 c2 w.
Proof.
  pose proof (chosen_drawn l1 c1 w) as Hch. pose proof (text_of_drawn l1 c1 w) as Ht.
  pose proof (flag_of_drawn l1 c1 w) as Hf. pose proof (number_of_drawn l1 c1 w) as Hn.
  pose proof (lists_drawn l1 c1 w) as (Hp1 & Ha1 & Hi1 & Hl1). pose proof (strings_drawn l1 c1 w) as Hs.
  revert Hch Ht Hf Hn Hp1 Ha1 Hi1 Hl1 Hs. generalize (drawn l1 c1 w) as w1. intros w1 Hch Ht Hf Hn Hp1 Ha1 Hi1 Hl1 Hs.
  destruct (lists_drawn l2 c2 w1) as (Hp & Ha & Hi & Hl), (lists_drawn l2 c2 w) as (Hp' & Ha' & Hi' & Hl').
  rewrite Hch in Hi, Hl. unfold equiv, window_equiv. split_and!.
  - intros p. rewrite !text_of_drawn. unfold text_drawn. rewrite Hch.
    destruct p; rewrite ?Ht; unfold text_drawn; try reflexivity; destruct (chosen w); try reflexivity;
      by destruct preflight, terminal.
  - intros p. rewrite !flag_of_drawn, Hch. destruct (chosen w) as [u|] eqn:Hu; [|by rewrite Hf, ?Hu].
    destruct p; cbn; rewrite ?Hf, ?Hu; reflexivity.
  - intros p. rewrite !number_of_drawn. unfold number_drawn. rewrite Hch, Hn. unfold number_drawn.
    by destruct p, report, (chosen w).
  - rewrite Hp, Hp', Hp1. by destruct report.
  - rewrite Ha, Ha', Ha1. by destruct audit_entries.
  - rewrite Hi, Hi', Hi1. by destruct (chosen w).
  - rewrite Hl, Hl', Hl1. by destruct (chosen w).
  - intros name. rewrite !strings_drawn, Hs.
    destruct (named (app_string_table (tr c2)) name) eqn:Hn2; [reflexivity|].
    destruct (named (app_string_table (tr c1)) name) as [v|] eqn:Hn1; [|reflexivity].
    destruct (named_domain (app_string_table (tr c1)) (app_string_table (tr c2)) name) as [x Hx];
      [apply app_string_names|by rewrite Hn1|congruence].
Qed.
End Drawing.

(** ** A change of language *)
Section Change.
Context `{Presentation}.

(** The window drawn from the caches of [s]. *)
Definition drawn_from (s : UiThread) (locale : str) (c : Z) : MainWindow -> MainWindow :=
  drawn (content (last_report s)) (content (last_audit_entries s))
    (content (migration_preflight_presentation s)) (content (last_migration_terminal s))
    (content (last_operator_status s)) locale c.

Definition changed (locale : str) (s : UiThread) (r : result str bool) (s' : UiThread) : Prop :=
  (r <> Ok true /\ s' = s)
  \/ exists c, r = Ok true /\ set_locale locale = Ok c
       /\ s' = put_window (drawn_from s locale c (window s)) (put_current c s).
Lemma locked_content {A} (m : Mutex A) a : lock m = Some a -> a = content m.
Proof. unfold lock. destruct (is_poisoned m); [done|]. by intros [= <-]. Qed.
Lemma wp_change_locale locale s g :
  wpM ui_protocol (change_locale locale) (fun r s' _ => changed locale s r s') s g.
Proof.
  apply wpM_bind, wpM_bind, wpM_bind. wp_call; [done|]. intros v g1 ->.
  apply wpM_ret, wpM_bind, wpM_bind, wpM_get, wpM_ret, wpM_ret.
  destruct (_ || _); [apply wpM_ret; by left|]. apply wpM_bind, wpM_get.
  destruct (lock (last_report s)) as [report|] eqn:H1; [|by left].
  destruct (lock (last_audit_entries s)) as [entries|] eqn:H2; [|by left].
  destruct (lock (last_migration_terminal s)) as [terminal|] eqn:H3; [|by left].
  apply wpM_bind, wpM_bind, wpM_get.
  destruct (lock (migration_preflight_presentation s)) as [preflight|] eqn:H4; [|by left]. apply wpM_ret.
  destruct (lock (last_operator_status s)) as [status|] eqn:H5; [|by left].
  apply locked_content in H1, H2, H3, H4, H5. subst.
  apply wpM_bind, wpM_lift. unfold set_locale_and_app_strings.
  destruct (I18n.set_locale locale) as [c|e] eqn:Hc; cbn [result_bind result_map_err]; [|by left].
  apply wpM_bind, wpM_put, wpM_bind, wpM_bind, wpM_get, wpM_put, wpM_ret. right. by exists c.
Qed.

Definition switched (locale : str) (s : UiThread) (Q : UiThread -> Prop) : Prop :=
  returns (fun '(r, s') => r = Ok true -> Q s') (change_locale locale s).
Lemma switched_drawn locale s (Q : UiThread -> Prop) :
  (forall c w, set_locale locale = Ok c -> w = drawn_from s locale c (window s) ->
   Q (put_window w (put_current c s))) -> switched locale s Q.
Proof.
  intros HQ. pose proof (wp_change_locale locale s at_rest) as Hw. apply wp_monitor_returns in Hw.
  unfold switched. revert Hw. generalize (change_locale locale s) as m. intros m.
  induction m as [[r s']|a k IH|h]; cbn; [|auto|done]. intros [g [[Hr _]|(c & _ & Hc & ->)]] ->; [done|by apply (HQ c)].
Qed.

Lemma switch_again l1 l2 s c1 c2 w1 w2 w3 :
  w1 = drawn_from s l1 c1 (window s) -> w2 = drawn_from (put_window w1 (put_current c1 s)) l2 c2 w1 ->
  w3 = drawn_from s l2 c2 (window s) -> w2 ≡ w3.
Proof.
  unfold drawn_from. cbn [put_window put_current last_report last_audit_entries migration_preflight_presentation
    last_migration_terminal last_operator_status]. intros -> -> ->. apply drawn_again.
Qed.

(** What the caches of [s] say, shown in a language. *)
Definition shows (s : UiThread) (locale : str) (c : Z) : MainWindow -> Prop :=
  in_language (content (last_report s)) (content (last_audit_entries s))
    (content (migration_preflight_presentation s)) (content (last_migration_terminal s))
    (content (last_operator_status s)) locale c (window s).
(** The window accepts a change of language: no dialog, no operation, and no
    thread panicked over a cache. *)
Definition accepts_language (s : UiThread) : Prop :=
  flag_of (window s) Ui.operation_busy = false /\ language_switch_enabled (window s) = true
  /\ is_poisoned (last_report s) = false /\ is_poisoned (last_audit_entries s) = false
  /\ is_poisoned (last_migration_terminal s) = false
  /\ is_poisoned (migration_preflight_presentation s) = false
  /\ is_poisoned (last_operator_status s) = false.
Lemma change_accepted locale s c :
  accepts_language s -> set_locale locale = Ok c ->
  exists s', exec (change_locale locale s) [ev ActiveLoad (raw OpIdle)] (Ok true, s').
Proof.
  intros (Hb & Hd & Hreport & Hentries & Hterminal & Hpreflight & Hstatus) Hc. eexists.
  unfold change_locale, not_editable, active_operation, ui, migration_preflight_presentation_of,
    set_locale_and_app_strings. exists (raw OpIdle), []. split; [done|].
  cbn. rewrite Hb, Hd, bool_decide_eq_true_2 by done. cbn. unfold lock. rewrite Hreport, Hentries, Hterminal. cbn.
  rewrite Hpreflight. cbn. rewrite Hstatus. cbn. rewrite Hc. by cbn.
Qed.

(** C38: a change of language draws everything again.  [change_locale] makes no
    call but the reading of the operation byte, and unless it answers
    [Ok(true)] it changes nothing.  When it does, the language is the one asked
    for, the caches are as they were, and every string, profile row, journal
    row, counter and text of the window is the rendering of its cache in the
    new language, what has no cache being left as it was; so that changing to
    one language and then to a second reads the same as changing to the second
    at once.  And it does answer [Ok(true)] when no operation runs, no dialog
    is open, no cache is poisoned and the language is supported. *)
Theorem change_locale_leaves_nothing (l1 l2 : str) (s : UiThread) :
  calls (fun a => a = ActiveLoad) (change_locale l1 s)
  /\ returns (fun '(r, s') => r <> Ok true -> s' = s) (change_locale l1 s)
  /\ switched l1 s (fun s' => exists c, set_locale l1 = Ok c /\ shows s l1 c (window s')
       /\ s' = put_window (window s') (put_current c s))
  /\ switched l1 s (fun s1 => switched l2 s1 (fun s2 => switched l2 s (fun s3 =>
       window s2 ≡ window s3 /\ put_window (window s3) s2 = s3)))
  /\ (accepts_language s -> is_Some (result_ok (set_locale l1)) ->
       exists s', exec (change_locale l1 s) [ev ActiveLoad (raw OpIdle)] (Ok true, s')).
Proof.
  split_and!.
  - revert s. change (mcalls (S:=UiThread) (fun a => a = ActiveLoad) (change_locale l1)).
    unfold change_locale, not_editable, active_operation, ui, redraw, modify, migration_preflight_presentation_of.
    by solve_calls.
  - pose proof (wp_change_locale l1 s at_rest) as Hw. apply wp_monitor_returns in Hw. revert Hw.
    generalize (change_locale l1 s) as m. intros m. induction m as [[r s']|a k IH|h]; cbn; [|auto|done].
    by intros [g [[_ ->]|(c & -> & _)]].
  - apply switched_drawn. intros c w Hc Hw. exists c. split; [exact Hc|]. split; [|reflexivity].
    rewrite Hw. unfold shows, drawn_from. cbn [window put_window]. apply drawn_in_language.
  - apply switched_drawn. intros c1 w1 _ Hw1. apply switched_drawn. intros c2 w2 Hc2 Hw2.
    apply switched_drawn. intros c3 w3 Hc3 Hw3. rewrite Hc2 in Hc3. injection Hc3 as <-.
    split; [exact (switch_again _ _ _ _ _ _ _ _ Hw1 Hw2 Hw3)|reflexivity].
  - intros Ha [c Hc]. destruct (set_locale l1) as [c'|e] eqn:Hl; [|done]. by apply (change_accepted _ _ c').
Qed.
End Change.

(** The sample window changes to French. *)
#[local] Existing Instance sample_presentation.
Example change_to_french :
  match change_locale FRENCH_LOCALE (ui_thread sample_app) with
  | Call ActiveLoad k => match k 0%Z with Ret (Ok b, s') => b && Z.eqb (current s') 1 | _ => false end
  | _ => false
  end = true.
Proof. vm_compute. reflexivity. Qed.
