(* ===== verification/Shell.v ===== *)
(** * Shell: the native folder picker and the browser
    (platform-win32/src/folder_dialog.rs, webbrowser-shim/src/lib.rs)

    Both talk to the Windows shell only, through calls of their own.  A COM
    interface is an address; it is released when the variable that holds it goes
    out of scope.  A failed COM call answers an error, of which the model keeps
    the HRESULT: its text is that of the crate [windows] ([WindowsErrors]). *)

From stdpp Require Import base list strings.
From S2P Require Import Prelude Text Path Effects Win32.

(** ** Constants of the Windows headers *)
Definition COINIT_APARTMENTTHREADED : Z := 2.
Definition COINIT_DISABLE_OLE1DDE : Z := 4.
Definition RPC_E_CHANGED_MODE : Z := -2147417850.
Definition FOS_NOCHANGEDIR : Z := 8.
Definition FOS_PICKFOLDERS : Z := 32.
Definition FOS_FORCEFILESYSTEM : Z := 64.
Definition FOS_PATHMUSTEXIST : Z := 2048.
Definition FOS_DONTADDTORECENT : Z := 33554432.
Definition SIGDN_FILESYSPATH : Z := -2147123200.
Definition SW_SHOWNORMAL : Z := 1.

Definition CANCELLED_HRESULT : Z := -2147023673.

(** ** The calls *)
Inductive shell : Type :=
| CoInitializeEx (flags : Z)
| CoUninitialize
| CoCreateFileOpenDialog
| GetOptions (dialog : Z)
| SetOptions (dialog options : Z)
| SetTitle (dialog : Z) (title : wide)
| SetOkButtonLabel (dialog : Z) (label : wide)
| ShowDialog (dialog owner : Z)
| GetResult (dialog : Z)
| GetDisplayName (item form : Z)
| ReadWide (pointer : Z)     (* the units before the first NUL *)
| CoTaskMemFree (pointer : Z)
| Release (object : Z)
| ShellExecuteW (operation target : wide) (show : Z).
Definition shell_resp (a : shell) : Type :=
  match a with
  | CoInitializeEx _ => Z
  | CoUninitialize | CoTaskMemFree _ | Release _ => unit
  | CoCreateFileOpenDialog | GetOptions _ | GetResult _ | GetDisplayName _ _ => result Z Z
  | SetOptions _ _ | SetTitle _ _ | SetOkButtonLabel _ _ | ShowDialog _ _ => result Z unit
  | ReadWide _ => wide
  | ShellExecuteW _ _ _ => Z
  end.
#[export] Instance shell_signature : Signature := {| act := shell; resp := shell_resp |}.

(** ** The folder picker *)

(** What the window toolkit says of its window: the crate raw-window-handle. *)
Inductive RawWindowHandle : Type := RawWin32 (hwnd : Z) | RawOther.

Inductive FolderDialogError : Type :=
| OwnerUnavailable
| UnsupportedOwner
| ComInitialization (hresult : Z)
| ApartmentMismatch
| Native (hresult : Z)
| InvalidPath (reason : str).
Class WindowsErrors : Type := { show_windows_error : Z -> str; invalid_utf16 : str }.
Definition show_FolderDialogError `{WindowsErrors} (e : FolderDialogError) : str :=
  match e with
  | OwnerUnavailable => $"The application window handle is unavailable"
  | UnsupportedOwner => $"The application window did not expose a Win32 window handle"
  | ComInitialization e => $"Folder picker COM initialization failed: " ++ show_windows_error e
  | ApartmentMismatch =>
      $"Folder picker requires an STA UI thread, but this thread uses another COM apartment"
  | Native e => $"Folder picker failed: " ++ show_windows_error e
  | InvalidPath reason => $"Folder picker returned an invalid filesystem path: " ++ reason
  end.

Definition owner_from_raw_handle (handle : RawWindowHandle) : result FolderDialogError Z :=
  match handle with RawWin32 hwnd => Ok hwnd | RawOther => Err UnsupportedOwner end.
Definition folder_dialog_owner (window_handle : option RawWindowHandle) : result FolderDialogError Z :=
  match window_handle with Some handle => owner_from_raw_handle handle | None => Err OwnerUnavailable end.

Section Picker.
Context `{WindowsErrors}.
Abbreviation PM := (M unit FolderDialogError).

(** [ComApartment]: success codes, of which there are several, are to be
    balanced by an uninitialisation. *)
Definition initialize_sta : PM unit :=
  let* result := call (CoInitializeEx (COINIT_APARTMENTTHREADED .| COINIT_DISABLE_OLE1DDE)) in
  if Z.eqb result RPC_E_CHANGED_MODE then throw ApartmentMismatch
  else if (result <? 0)%Z then throw (ComInitialization result) else ret tt.

Definition native {A} (r : result Z A) : PM A := lift (result_map_err Native r).

Definition PICKER_OPTIONS : Z :=
  FOS_PICKFOLDERS .| FOS_FORCEFILESYSTEM .| FOS_PATHMUSTEXIST .| FOS_NOCHANGEDIR .| FOS_DONTADDTORECENT.
Definition prepare_dialog (dialog : Z) (title accept_label : str) : PM unit :=
  let* options := call (GetOptions dialog) in
  let* options := native options in
  let* r := call (SetOptions dialog (options .| PICKER_OPTIONS)) in do* native r in
  let* r := call (SetTitle dialog (encode_utf16 title)) in do* native r in
  let* r := call (SetOkButtonLabel dialog (encode_utf16 accept_label)) in native r.

(** The name of the item is copied before its memory is freed. *)
Definition item_path (item : Z) : PM path :=
  let* display_name := call (GetDisplayName item SIGDN_FILESYSPATH) in
  let* display_name := native display_name in
  let* units := call (ReadWide display_name) in
  do* call (CoTaskMemFree display_name) in
  match from_utf16 units with
  | Some path => ret (encode_utf16 path)
  | None => throw (InvalidPath invalid_utf16)
  end.
Definition picked_path (dialog : Z) : PM path :=
  let* item := call (GetResult dialog) in
  let* item := native item in
  defer (call (Release item)) (item_path item).

Definition pick_existing_folder (owner : Z) (title accept_label : str) : PM (option path) :=
  do* initialize_sta in
  defer (call CoUninitialize)
    (let* dialog := call CoCreateFileOpenDialog in
     let* dialog := native dialog in
     defer (call (Release dialog))
       (do* prepare_dialog dialog title accept_label in
        let* shown := call (ShowDialog dialog owner) in
        match shown with
        | Ok _ => let* path := picked_path dialog in ret (Some path)
        | Err error => if Z.eqb error CANCELLED_HRESULT then ret None else throw (Native error)
        end)).

(** What the window asks for, before the controller is told. *)
Definition pick_migration_folder (window_handle : option RawWindowHandle) (title accept : str)
    : M unit str (option path) :=
  map_err show_FolderDialogError
    (let* owner := lift (folder_dialog_owner window_handle) in pick_existing_folder owner title accept).
End Picker.

(** ** The browser *)
Definition browser_open (target : str) : M unit io_error unit :=
  if contains_char target 0 then throw (IoOther ($"browser target contains a NUL character"))
  else
    let operation := encode_utf16 ($"open" ++ [0%Z]) in
    let* result := call (ShellExecuteW operation (encode_utf16 target ++ [0%Z]) SW_SHOWNORMAL) in
    if (result <=? 32)%Z
    then throw (IoOther ($"Windows shell rejected the browser target with code " ++ dec_signed result))
    else ret tt.

(** ** What the picker owns

    [live]: the apartment, interfaces and buffers acquired and not given back,
    the newest first. *)
Inductive resource : Type := Apartment | Interface (pointer : Z) | Buffer (pointer : Z).
Record Picker : Type := {
  live : list resource;
  configured : bool;                   (* only existing folders can be chosen *)
  answer : option (result Z unit);     (* what the dialog ended with *)
  name : option wide;                  (* what was read of the item *)
}.
Definition nothing_picked : Picker := {| live := []; configured := false; answer := None; name := None |}.
Definition on_live (f : list resource -> list resource) (g : Picker) : Picker :=
  {| live := f (live g); configured := configured g; answer := answer g; name := name g |}.
Definition folders_only (options : Z) : bool := Z.eqb (Z.land options PICKER_OPTIONS) PICKER_OPTIONS.

Definition picker_see (a : shell) : shell_resp a -> Picker -> Picker :=
  match a return shell_resp a -> Picker -> Picker with
  | CoInitializeEx _ => fun x g => if (x <? 0)%Z then g else on_live (cons Apartment) g
  | CoCreateFileOpenDialog | GetResult _ => fun x g =>
      match x with Ok p => on_live (cons (Interface p)) g | Err _ => g end
  | GetDisplayName _ _ => fun x g =>
      match x with Ok p => on_live (cons (Buffer p)) g | Err _ => g end
  | SetOptions _ options => fun x g =>
      {| live := live g; configured := is_ok x && folders_only options; answer := answer g; name := name g |}
  | ShowDialog _ _ => fun x g =>
      {| live := live g; configured := configured g; answer := Some x; name := name g |}
  | ReadWide _ => fun x g =>
      {| live := live g; configured := configured g; answer := answer g; name := Some x |}
  | CoUninitialize | Release _ | CoTaskMemFree _ => fun _ g => on_live tail g
  | _ => fun _ g => g
  end.
(** Every call uses what is owned, and gives back the newest. *)
Definition picker_ok (a : shell) (g : Picker) : Prop :=
  match a with
  | CoInitializeEx flags => live g = [] /\ has_flag flags COINIT_APARTMENTTHREADED = true
  | CoUninitialize | CoCreateFileOpenDialog => live g = [Apartment]
  | GetOptions d | SetOptions d _ | SetTitle d _ | SetOkButtonLabel d _ | GetResult d =>
      live g = [Interface d; Apartment]
  | ShowDialog d _ => live g = [Interface d; Apartment] /\ configured g = true
  | GetDisplayName i _ => exists d, live g = [Interface i; Interface d; Apartment]
  | ReadWide p | CoTaskMemFree p => head (live g) = Some (Buffer p)
  | Release p => head (live g) = Some (Interface p)
  | ShellExecuteW _ _ _ => False
  end.
Definition picker_protocol : protocol Picker := monitor picker_ok picker_see.

Lemma folders_only_lor o : folders_only (o .| PICKER_OPTIONS) = true.
Proof.
  unfold folders_only. apply Z.eqb_eq. apply Z.bits_inj'. intros n _.
  rewrite Z.land_spec, Z.lor_spec. by destruct (Z.testbit o n), (Z.testbit PICKER_OPTIONS n).
Qed.
Section PickerSpec.
Context `{WindowsErrors}.
Abbreviation picks := (wpM picker_protocol).

Lemma wp_native {A} (r : result Z A) (Q : result FolderDialogError A -> unit -> Picker -> Prop) s g :
  (forall a, r = Ok a -> Q (Ok a) s g) -> (forall e, r = Err e -> Q (Err (Native e)) s g) ->
  picks (native r) Q s g.
Proof. intros Ha He. apply wpM_lift. destruct r; [by apply Ha|by apply He]. Qed.

Lemma wp_prepare dialog title accept_label s g :
  live g = [Interface dialog; Apartment] ->
  picks (prepare_dialog dialog title accept_label)
    (fun r _ g' => live g' = live g /\ answer g' = answer g /\ (r = Ok tt -> configured g' = true)) s g.
Proof.
  intros Hl. apply wpM_bind. wp_call; [done|]. intros x g1 ->. apply wpM_bind, wp_native; [|done].
  intros options _. apply wpM_bind. wp_call; [done|]. intros r g1 ->. cbn [picker_see].
  rewrite folders_only_lor, andb_true_r. apply wpM_bind, wp_native; [|by intros e ->].
  intros [] ->. apply wpM_bind. wp_call; [done|]. intros r g1 ->. apply wpM_bind, wp_native; [|done].
  intros [] _. apply wpM_bind. wp_call; [done|]. intros r' g1 ->. by apply wp_native.
Qed.

(** The path is what was read, decoded. *)
Definition named_by (p : path) (g : Picker) : Prop :=
  exists units text, name g = Some units /\ from_utf16 units = Some text /\ p = encode_utf16 text.
Lemma wp_picked dialog s g :
  live g = [Interface dialog; Apartment] ->
  picks (picked_path dialog)
    (fun r _ g' => live g' = live g /\ answer g' = answer g
                   /\ match r with Ok p => named_by p g' | Err _ => True end) s g.
Proof.
  intros Hl. apply wpM_bind. wp_call; [done|]. intros x g1 ->. apply wpM_bind, wp_native; [|by intros e ->].
  intros item ->. apply wpM_defer, wpM_bind. wp_call; [cbn; rewrite Hl; by eexists|].
  intros x g1 ->. apply wpM_bind, wp_native.
  - intros p ->. apply wpM_bind. wp_call; [done|]. intros units g1 ->. apply wpM_bind. wp_call; [done|].
    intros [] g1 ->. destruct (from_utf16 units) as [text|] eqn:Hu; [apply wpM_ret|apply wpM_throw];
      (wp_call; [done|]); intros [] g1 ->; [|done]. split_and!; [done..|]. by exists units, text.
  - intros e ->. wp_call; [done|]. by intros [] g1 ->.
Qed.

(** What the picker answers, by how the dialog ended. *)
Definition picked (r : result FolderDialogError (option path)) (g : Picker) : Prop :=
  match r with
  | Ok None => answer g = Some (Err CANCELLED_HRESULT)
  | Ok (Some p) => answer g = Some (Ok tt) /\ named_by p g
  | Err _ => answer g <> Some (Err CANCELLED_HRESULT)
  end.

(** C39: the folder picker gives back what it takes.  Whatever the shell answers,
    COM is initialised for one thread before any other call, the dialog is shown
    only after it has been restricted to existing folders of the file system,
    every interface and buffer is used while it is owned and given back once,
    the newest first, COM is left exactly when it was entered, and nothing is
    kept on any path; a cancelled dialog, and only that, answers no folder, and
    a folder is the name read of the chosen item. *)
Theorem pick_existing_folder_balanced (owner : Z) (title accept_label : str) :
  picks (pick_existing_folder owner title accept_label) (fun r _ g => live g = [] /\ picked r g)
    tt nothing_picked.
Proof.
  apply wpM_bind, wpM_bind. wp_call; [done|]. intros x g1 ->. cbn [picker_see].
  destruct (Z.eqb_spec x RPC_E_CHANGED_MODE) as [->|_]; [by apply wpM_throw|].
  destruct (x <? 0)%Z; [by apply wpM_throw|]. apply wpM_ret, wpM_defer, wpM_bind. wp_call; [done|].
  intros [dialog|e] g1 ->; apply wpM_bind, wp_native; try done.
  2:{ intros e' _. wp_call; [done|]. by intros [] g1 ->. }
  intros d [= ->]. apply wpM_defer, wpM_bind. eapply wpM_mono; [by apply wp_prepare|].
  intros r [] g1 (Hl & Ha & Hc). destruct r as [[]|e].
  - specialize (Hc eq_refl). apply wpM_bind. wp_call; [by split|]. intros shown g2 ->.
    destruct shown as [[]|e]; cbn [picker_see].
    + apply wpM_bind. eapply wpM_mono; [by apply wp_picked|]. intros r [] g2 (Hl2 & Ha2 & Hp).
      cbn [live answer] in *. rewrite Hl in Hl2. destruct r as [p|e]; [apply wpM_ret|];
        (wp_call; [cbn; by rewrite Hl2|]); intros [] g3 ->;
        (wp_call; [cbn; by rewrite Hl2|]); intros [] g4 ->; cbn; rewrite Hl2, Ha2; by repeat split.
    + destruct (Z.eqb_spec e CANCELLED_HRESULT) as [->|Hne]; [apply wpM_ret|apply wpM_throw];
        (wp_call; [cbn; by rewrite Hl|]); intros [] g3 ->; (wp_call; [cbn; by rewrite Hl|]);
        intros [] g4 ->; cbn; rewrite Hl; split; try done. congruence.
  - wp_call; [cbn; by rewrite Hl|]. intros [] g2 ->. wp_call; [cbn; by rewrite Hl|]. intros [] g3 ->.
    cbn. rewrite Hl, Ha. by split.
Qed.
End PickerSpec.
