(* ===== verification/Main.v ===== *)
(** * Main: from the first window to the bound controller (app-ui/src/main.rs)

    The callbacks of the window that ask [StartupRuntime] whether there is a
    controller yet, and what the event loop has when there is one: nothing in
    flight, nothing authorised, and every control that starts an operation
    allowed to. *)

From stdpp Require Import base list gmap strings.
From S2P Require Import Prelude Text Path Effects I18n Models Win32 Security Storage Journal Snapshot Migration Rotation Legacy Window Shared Launch Controller System Schedules Startup.

Section Main.
Context `{Fuel} `{Extern} `{Presentation}.
Abbreviation UM := (M UiThread Empty_set).

(** [main], up to the event loop: the first error ends the process. *)
Definition initialise (requested : str) (is_elevated : bool) (w : MainWindow) : result I18nError StartupState :=
  let? _ := result_map (fun _ => tt) i18n_instance in
  let? '(current, w) := set_locale_and_app_strings requested w in
  Ok (present_startup Checking
        {| su_window := set_flag Ui.is_elevated is_elevated w; su_current := current;
           su_runtime := StartupRuntime_new |}).

(** ** The callbacks main.rs keeps for itself *)
Definition on_change_locale (runtime : StartupRuntime) (requested : str) : UM unit :=
  let* w := ui in
  if flag_of w Ui.startup_visible then
    modify (fun s =>
      let shown := startup_change_locale requested
                     {| su_window := window s; su_current := current s; su_runtime := runtime |} in
      put_window (su_window shown) (put_current (su_current shown) s))
  else if negb (language_switch_enabled w) then ret tt
  else match lock (rt_controller runtime) with
       | Some (Some _) => ignore (change_locale requested)
       | _ => ret tt
       end.

Definition on_close_requested (runtime : StartupRuntime) : UM CloseRequestResponse :=
  if rt_startup_busy runtime then
    do* redraw (fun current => set_text Ui.status_message (tr current ($"startup.close_blocked"))) in
    ret KeepWindowShown
  else match lock (rt_controller runtime) with
       | None => ret KeepWindowShown
       | Some None => ret HideTheWindow
       | Some (Some _) => handle_close_requested
       end.

(** ** The controller is bound *)
Record bound (runtime : StartupRuntime) : Prop := {
  bound_controller : exists services, lock (rt_controller runtime) = Some (Some services);
  bound_idle : rt_startup_busy runtime = false;
}.

Lemma bound_close runtime : bound runtime -> on_close_requested runtime = handle_close_requested.
Proof. intros [[services Hc] Hb]. unfold on_close_requested. by rewrite Hb, Hc. Qed.
Lemma bound_locale runtime requested s :
  bound runtime -> flag_of (window s) Ui.startup_visible = false ->
  enabled (SwitchLocale requested) (window s) = true ->
  on_change_locale runtime requested s = ignore (change_locale requested) s.
Proof.
  intros [[services Hc] _] Hv He. cbn [enabled] in He. unfold on_change_locale, ui.
  generalize (ignore (change_locale requested)) as m. intros m. cbn. by rewrite Hv, He, Hc.
Qed.

(** [AppController::new], and the queue of the event loop as the startup leaves
    it. *)
Definition fresh_app (s : StartupState) (now : Z) (m : AppState) : App :=
  {| ui_thread := fresh_ui_thread (su_window s) (su_current s) now; ui_code := None; ui_did := at_rest;
     workers := []; closures := [];
     shared_memory :=
       {| active := raw OpIdle; close_after_finish := false; cancellation_slot := Mutex_new None;
          slot_held := false; flags := ∅; queues := ∅; memory := m; memory_held := false |} |}.

(** ** What the startup leaves alone *)
Definition startup_flag (p : Ui.FlagProperty) : Prop :=
  p = Ui.startup_visible \/ p = Ui.startup_busy \/ p = Ui.startup_consent_required \/ p = Ui.startup_consent_granted.
Definition untouched (s s' : StartupState) : Prop :=
  forall p, ~ startup_flag p -> flag_of (su_window s') p = flag_of (su_window s) p.
#[export] Instance untouched_preorder : PreOrder untouched.
Proof. split; [by intros s p|]. intros s1 s2 s3 H12 H23 p Hp. by rewrite (H23 p Hp), (H12 p Hp). Qed.

Ltac solve_untouched :=
  let q := fresh "q" in let Hq := fresh "Hq" in
  intros q Hq; cbn; repeat (case_decide; [subst; exfalso; apply Hq; unfold startup_flag; tauto|]); done.

Lemma untouched_flag p v s : startup_flag p -> untouched s (on_window (set_flag p v) s).
Proof. intros Hp q Hq. cbn. case_decide; [by subst|done]. Qed.
Lemma untouched_present p s : untouched s (present_startup p s).
Proof. intros q _. unfold present_startup. cbn [su_window on_window on_runtime]. by rewrite startup_apply_flags. Qed.
Lemma untouched_locale locale s : untouched s (startup_change_locale locale s).
Proof.
  intros q _. unfold startup_change_locale. destruct (lock _); [|done].
  destruct (set_locale_and_app_strings locale (su_window s)) as [[current w]|] eqn:Hl; [|done].
  cbn [su_window]. by rewrite startup_apply_flags, (localised_flags _ _ _ _ Hl).
Qed.
Lemma untouched_error e s : untouched s (present_startup_error e s).
Proof.
  unfold present_startup_error. etrans; [|apply untouched_present].
  solve_untouched.
Qed.
Lemma untouched_finish r s : untouched s (fst (finish_startup r s)).
Proof.
  destruct r as [[services|recovery]|error]; cbn [finish_startup present_startup_decision].
  - destruct (is_poisoned _); [apply untouched_error|]. cbn [fst]. solve_untouched.
  - destruct (is_poisoned _); [apply untouched_error|]. cbn [fst].
    etrans; [|apply untouched_present]. solve_untouched.
  - apply untouched_error.
Qed.
Lemma untouched_proceed s : untouched s (fst (start_or_retry s)).
Proof.
  unfold start_or_retry. destruct (_ && _); [done|]. destruct (rt_startup_busy _); [done|]. cbn [fst].
  etrans; [|intros q _; reflexivity]. etrans; [|apply untouched_present].
  solve_untouched.
Qed.
Lemma untouched_step s s' : startup_step s s' -> untouched (startup_state s) (startup_state s').
Proof.
  intros []; cbn [startup_state].
  - apply untouched_proceed.
  - apply untouched_flag. unfold startup_flag. tauto.
  - done.
  - apply untouched_locale.
  - apply untouched_finish.
Qed.

(** [main] starts the first inspection from there. *)
Lemma initialise_starts requested is_elevated w s :
  initialise requested is_elevated w = Ok s ->
  startup_initial {| startup_state := s; consented := false; in_flight := [None] |}
  /\ flag_of (su_window s) Ui.is_elevated = is_elevated
  /\ (forall p, p <> Ui.is_elevated -> flag_of (su_window s) p = flag_of w p).
Proof.
  unfold initialise. destruct i18n_instance; [|done]. cbn [result_map result_bind].
  destruct (set_locale_and_app_strings requested w) as [[c w']|] eqn:Hl; [|done].
  intros [= <-]. split; [done|]. apply localised_flags in Hl. unfold present_startup.
  cbn [su_window on_window on_runtime]. rewrite startup_apply_flags. cbn. rewrite Hl.
  split; [by case_decide|]. intros p Hp. by case_decide.
Qed.

(** ** The hand-over *)
Lemma lock_locked {A} (v : A) m : is_poisoned m = false -> lock (locked v m) = Some v.
Proof. intros Hm. unfold lock, locked. cbn. by rewrite Hm. Qed.

(** C13: the program reaches the invariants of the application.  Whatever is
    pressed during the startup and in whatever order, when a thread of the
    startup delivers the services no other thread is opening them; a request to
    close is then the controller's to answer, the application is in an initial
    state of the interleaving model, and its first calls find a window that
    allows an operation. *)
Theorem startup_hands_over (s0 s : Startup) (services : Services) work works now (m : AppState)
    (Hi : startup_initial s0)
    (Hw : flag_of (su_window (startup_state s0)) Ui.operation_busy = false
          /\ flag_of (su_window (startup_state s0)) Ui.confirmation_visible = false
          /\ flag_of (su_window (startup_state s0)) Ui.migration_preflight_valid = false)
    (Hr : rtc startup_step s0 s)
    (Hf : in_flight s = work :: works)
    (Hl : is_poisoned (rt_controller (su_runtime (startup_state s))) = false) :
  let '(s', actions) := finish_startup (Ok (ServicesReady services)) (startup_state s) in
  works = [] /\ actions = [BindController services]
  /\ on_close_requested (su_runtime s') = handle_close_requested
  /\ flag_of (su_window s') Ui.startup_visible = false
  /\ enabled ControllerBound (su_window s') = true
  /\ initial (fresh_app s' now m).
Proof.
  assert (untouched (startup_state s0) (startup_state s)) as Hu.
  { clear -Hr. induction Hr; [done|]. by etrans; [apply untouched_step|]. }
  assert (startup_reachable s) as [Hb _]%startup_reachable_ok.
  { clear -Hr Hi. apply startup_begin in Hi. induction Hr; [done|]. apply IHHr. by eapply startup_next. }
  pose proof (untouched_finish (Ok (ServicesReady services)) (startup_state s)) as Hu'.
  destruct (finish_startup _ _) as [s' actions] eqn:He. cbn [fst] in Hu'.
  assert (forall p, ~ startup_flag p -> flag_of (su_window s') p = flag_of (su_window (startup_state s0)) p) as Hkeep.
  { intros p Hp. by rewrite (Hu' p Hp), (Hu p Hp). }
  split; [rewrite Hf in Hb; destruct Hb as [?|[? _]]; by destruct works|].
  cbn [finish_startup present_startup_decision] in He. rewrite Hl in He. injection He as <- <-.
  split; [done|].
  split; [apply bound_close; split; [exists services; by apply lock_locked|done]|]. split; [done|].
  destruct Hw as (Hbusy & Hconf & Hvalid).
  split.
  - cbn [enabled]. rewrite !Hkeep, Hbusy, Hconf by (by intros [?|[?|[?|?]]]). done.
  - split; try done; [apply fresh_ready|cbn [fresh_app ui_thread fresh_ui_thread window]];
      rewrite Hkeep by (by intros [?|[?|[?|?]]]); done.
Qed.
End Main.

(** The services are found at the first inspection. *)
Definition sample_services : Services := {| sv_snapshots := sample_engine; sv_logger := sample_logger |}.
Definition sample_journal : AppState := {| memory_buffer := []; buffer_poisoned := false; snapshot_sequence := 0 |}.
Lemma startup_hands_over_witness :
  let '(s', actions) :=
    finish_startup (H:=sample_extern) (H0:=silent_presentation) (Ok (ServicesReady sample_services))
      (startup_state sample_startup) in
  [] = @nil (option LegacyStorageRecovery) /\ actions = [BindController sample_services]
  /\ @on_close_requested silent_presentation (su_runtime s') = @handle_close_requested silent_presentation Empty_set
  /\ flag_of (su_window s') Ui.startup_visible = false
  /\ enabled ControllerBound (su_window s') = true
  /\ initial (fresh_app s' 0 sample_journal).
Proof.
  apply (startup_hands_over (H0:=sample_extern) (H1:=silent_presentation) sample_startup sample_startup
           sample_services None [] 0 sample_journal); try done; apply rtc_refl.
Defined.
